(* ===== verification/_CoqProject ===== *)
-Q . S2P
Prelude.v
Common.v
Types.v
Worker.v
Pbft.v
Mining.v
Scenario.v
Quorum.v
Pool.v
Replica.v
Safety.v
Known.v
Cluster.v
Handlers.v
Byzantine.v
RlpEncode.v
RlpRaw.v
RlpDecode.v
RlpRoundtrip.v
RlpTotal.v
RlpCanonical.v
RlpTyped.v
Interpolation.v
Galois.v
Shamir.v
Event.v
EventSafety.v
Words.v
Sm4.v
Sm3.v
BigInt.v
P256Field.v
P256Curve.v
Sm2.v
Encoding.v
Signature.v
Pns.v
Protocol.v
Discover.v
Table.v
Lookup.v
History.v
Dial.v
Subprotocols.v
Server.v
Packets.v
Replies.v
Frames.v
Handshake.v
NodeDB.v
MultiEnc.v
PeerRun.v
EthHandle.v
Refresh.v
ServerLife.v
ChainKD.v
