(* ===== verification/Prelude.v ===== *)
(** * PBFT-block: a verification library

    PBFT-block is a blockchain node written in Go: a PBFT-style consensus among a fixed set of nodes
    ([src/eth]) on top of an old go-ethereum networking stack ([src/p2p], [src/rlp],
    [src/event]) with its own cryptography ([src/crypto-gm], [src/crypto/shamir]).  This library
    models these parts as executable definitions and proves what makes them correct.

    ** The program

    Every node runs one [worker].  The leader builds a block and broadcasts a request; each node
    answers a request with a pre-prepare, a pre-prepare with a prepare, a quorum of prepares with a
    commit, and a quorum of commits with the insertion of the block and a checkpoint.  What a handler
    sends is posted on an event mux; the protocol manager takes it from there, signs it (SM2 over SM3),
    and writes it, RLP-encoded, to its peers as a sub-protocol of a devp2p connection, whose frames are
    encrypted and authenticated after a key exchange.  A received message travels the same way up:
    frame, sub-protocol, signature, handler.  A server keeps the connections, a dial scheduler opens
    them, and a Kademlia-like discovery finds the nodes.

    ** Files, by component

    Shared: [Prelude.v] (machine integers, record update, the handler monad, results of Go code that may
    panic, counting in lists), [Common.v] ([src/common]: byte slices, hex, hashes).

    Consensus ([src/eth/pbft-core.go], [pbft-core_basic.go], [worker.go], [star_up.go]):
    - [Types.v] messages, blocks and certificates; [Worker.v] the state of a worker and its basic
      operations; [Pbft.v] the message handlers; [Mining.v] block building, expiry, start-up and
      [handle], the step function of a node; [Scenario.v] a concrete round for the instances.
    - [Quorum.v], [Pool.v] counting of votes, the pool of blocks; [Replica.v] the abstract replica,
      [Safety.v] the refinement and the invariants of one node under arbitrary inputs; [Handlers.v] each
      handler branch by branch; [Known.v], [Cluster.v] honest nodes over an arbitrary network;
      [Byzantine.v] executions with a lying node.

    From events to the wire:
    - [Event.v], [EventSafety.v] the event mux ([src/event/event.go]) as a machine of threads.
    - [RlpEncode.v], [RlpRaw.v], [RlpDecode.v] the three files of [src/rlp]; [RlpRoundtrip.v],
      [RlpCanonical.v], [RlpTotal.v], [RlpTyped.v] their properties.
    - [Pns.v] the table of permitted nodes ([src/pns]); [Protocol.v] peers, signed messages, broadcasts
      and [handleMsg] ([src/eth/handler.go], [peer.go], [src/p2p/message.go]); [EthHandle.v] the loop
      around [handleMsg] with its goroutines.

    Cryptography ([src/crypto-gm], [src/crypto/shamir]):
    - [Words.v], [Sm3.v] the hash, [Sm4.v] the block cipher; [BigInt.v], [P256Field.v], [P256Curve.v] the
      curve at machine width; [Sm2.v] signatures and encryption over a curve given by its laws;
      [Encoding.v] DER and base64; [Signature.v] keys as bytes and signed messages.
    - [Interpolation.v], [Galois.v], [Shamir.v] secret sharing; [MultiEnc.v] encryption of data and the
      backup of keys in encrypted shares; [ChainKD.v] hierarchical keys.

    Networking ([src/p2p]):
    - [Discover.v], [Table.v], [Lookup.v] identifiers, the node table, lookups and bonds ([node.go],
      [table.go]); [Refresh.v] the refresh loop; [Packets.v], [Replies.v] the packets and the pending replies
      ([udp.go]); [NodeDB.v] the node database ([database.go]).
    - [History.v], [Dial.v] the dial scheduler ([dial.go]); [Server.v] the loop of the server,
      [ServerLife.v] its start, listening and stop ([server.go]).
    - [Frames.v], [Handshake.v] the transport ([rlpx.go]); [Subprotocols.v], [PeerRun.v] sub-protocols and the
      goroutines of a connection ([peer.go], [peer_error.go], [protocol.go]).

    ** How code is represented

    Integers keep their width, with the wrap-around written out.  A function that can fail or panic
    returns a [gores] ([Ret], [Fail], [Crash]) or a [result]; a handler is a computation of the monad of
    the prelude, in which early returns and panics keep the changes made before them.  Handlers of the
    worker are atomic; messages sent and goroutines started are appended to a trace.  Code whose point is
    its interleaving (the mux, the loops of a connection, of the protocol, of the table and of the server) is
    a machine: the state holds the point each goroutine has reached, an [exec] function performs one step
    for a choice of the environment, and theorems quantify over all reachable states.  Go maps are [gmap]s;
    where the code ranges over a map and the order could matter, the order is an argument.  Pointers that
    are shared are addresses in a store.

    Arguments of the model: random bytes and clocks; [encoding/json] as a codec with its round trip;
    the curve as the interface [elliptic.Curve] ([Curve], [CurveLaws]); the AES block function, HMAC-SHA-512
    and the LevelDB store ([KV], [KVLaws]); what the network delivers.  Interfaces between components are
    classes: [Curve] between [P256Curve.v] and its users, [DiscoverTable] between [Table.v] and [Dial.v],
    [KV] below [NodeDB.v], [FieldOps] between limbs and point formulas.

    ** What the theorems show

    - Consensus: two quorums share more than [(N-1)/3] nodes; the handlers refine the abstract replica; a
      node commits to a height at most once, its chain height counts its insertions, and every insertion is
      backed by a quorum of distinct positive commits; two honest nodes agree on every height; a lying leader
      can break agreement, because the digest does not cover the block.
    - Messages: what a node posts is delivered to the same handler of a node that registered its key, on the same
      values ([Protocol.delivery]); handlers only run on authenticated payloads; the encode buffer equals
      the RLP encoding by concatenation; decoding gives back, accepts only canonical input, keeps types and
      ends.
    - Concurrency: the mux does not panic or deadlock; a connection, the message loop of a peer and the
      table never close a channel twice and never leave a goroutine waiting on a channel when they shut down;
      the server limits its pending connections, and the ways in which [Stop] can wait for ever are
      characterised, two of them shown to be reached.
    - Cryptography: field multiplication is right unless a borrow is lost, which happens; the Jacobian formulas
      are the group law; signatures verify, ciphertexts decrypt, SM4 and its chaining invert, SM3 does not depend
      on how data is cut; enough shares recover a secret, also through encryption, and fewer say nothing; derivation of
      public and of private child keys commutes.
    - Networking: both sides of the handshake derive the same secrets; frames arrive in order and
      unchanged or not at all; the node table, the pending replies, the dial scheduler and the server keep
      their invariants; a lookup finds the nearest nodes it heard of and ends; the database refines a map of
      nodes.

    Where the code does not do what it means to, a theorem states what it does instead.

    ** Fuel

    Loops that are not structural carry fuel.  [intsize] shifts a 64-bit number at most eight times;
    [bigBytes] takes at most one round per bit; the loops of the decoder get one more than the number of
    input bytes, and running out is a result of its own ([DFuel]) that [RlpTotal.DecodeBytes_total] excludes; a
    read of the [encReader] one round more than bytes are left.  SM3 pads at most 64 bytes and takes at most
    one round per byte of the message.  The extended Euclidean algorithm gets the bit length of the product of its arguments
    plus two.
    Signing and encrypting repeat until a nonce is usable: their fuel counts the random reads, running out is
    [None], and separate theorems show that one usable read is enough.  The search in [push] halves its
    interval ([S n] rounds); heap operations take at most one round per entry; the number of neighbours in a
    packet is found within 16 rounds; a varint has at most ten bytes; [querySeeds] makes at most [5 n] seeks.

    ** What is not modelled

    The type cache of RLP (reflection, represented by the constructors of [gval] and [gtyp]) and user-defined
    encoders; enode URLs, NTP checks, NAT traversal and sockets; metrics and logging; the information calls
    of server and peers; compression of messages (calls into libraries); the miner shell, which the
    start-up path does not reach, and the program entry; certificates and key files ([src/crypto-gm/sm2/x509.go],
    [pkcs8.go], [verify.go]) and the cryptography of the original project ([src/crypto] but for secret sharing),
    which the node does not call.  Deadlines of the transport appear as errors the environment may choose. *)

From stdpp Require Import base gmap strings list pretty sorting.
From Stdlib Require Import ZArith Lia.

#[global] Set Default Goal Selector "!".

(** ** Machine integers

    Go's [uint64] and [int] are [Z] kept in range by writing the wrap-around
    out.  [u64] is the conversion/truncation to 64 unsigned bits, [i64] the
    conversion [int(x)] of a [uint64] on a 64-bit platform. *)

Declare Scope go_scope.
Delimit Scope go_scope with go.

Definition two64 : Z := 18446744073709551616.
Definition two63 : Z := 9223372036854775808.

Definition u64 (z : Z) : Z := z `mod` two64.
Definition i64 (z : Z) : Z := if (u64 z <? two63)%Z then u64 z else (u64 z - two64)%Z.

Definition is_u64 (z : Z) : Prop := (0 ≤ z < two64)%Z.

(** [strconv.Itoa]. *)
Definition Itoa (z : Z) : string := pretty z.

Lemma u64_range z : is_u64 (u64 z).
Proof. unfold is_u64, u64, two64. apply Z.mod_pos_bound. lia. Qed.

Lemma u64_small z : is_u64 z → u64 z = z.
Proof. unfold is_u64, u64. intros. by apply Z.mod_small. Qed.

Lemma i64_inj x y : is_u64 x → is_u64 y → i64 x = i64 y → x = y.
Proof.
  intros Hx Hy. unfold i64. rewrite !u64_small by done.
  unfold is_u64, two64, two63 in *. repeat case_match; lia.
Qed.

Lemma Itoa_inj x y : Itoa x = Itoa y → x = y.
Proof. apply (inj pretty). Qed.

Lemma Itoa_i64_inj x y : is_u64 x → is_u64 y → Itoa (i64 x) = Itoa (i64 y) → x = y.
Proof. intros ?? ?%Itoa_inj. by apply i64_inj. Qed.

(** ** Record update

    [s <| f := v |>] is [s] with field [f] set to [v]; [s <| f ::= g |>] applies
    [g] to the field.  A record type opts in with an [Eta] instance, its
    field-by-field reconstruction, from which [Upd] derives each setter. *)

Class Eta (R : Type) := eta_of : R → R.
Class Upd {R T : Type} (proj : R → T) := upd_of : (T → T) → R → R.

Ltac derive_upd :=
  lazymatch goal with
  | |- @Upd ?R ?T ?proj =>
      let g := fresh "g" in
      let r := fresh "r" in
      unfold Upd; intros g r;
      let body := constr:(@eta_of R _ r) in
      let body := eval hnf in body in
      let body := eval pattern (proj r) in body in
      lazymatch body with
      | ?k _ => let b := eval cbv beta in (k (g (proj r))) in exact b
      end
  end.

#[export] Hint Extern 0 (Upd _) => derive_upd : typeclass_instances.

Definition upd {R T : Type} (proj : R → T) {u : Upd proj} (g : T → T) (r : R) : R := u g r.
Arguments upd {R T} proj {u} g r /.

Notation "s <| f := v |>" := (upd f (fun _ => v) s)
  (at level 1, f at level 0, left associativity) : go_scope.
Notation "s <| f ::= g |>" := (upd f g s)
  (at level 1, f at level 0, left associativity) : go_scope.

(** ** Handlers

    A Go method on shared state is a computation [M S A]: it maps the state to
    an outcome and the new state.  [Val a] is normal continuation, [Exit e] is a
    Go [return e] (with [None] for [nil]), [Panicked] is a run-time panic.  The
    state changes made before an early return or a panic are kept, as in Go. *)

Inductive outcome (A : Type) :=
| Val (a : A)
| Exit (err : option string)
| Panicked.
Arguments Val {A} a.
Arguments Exit {A} err.
Arguments Panicked {A}.

Definition M (S A : Type) : Type := S → outcome A * S.

Definition ret {S A} (a : A) : M S A := fun s => (Val a, s).
Definition return_ {S A} (e : option string) : M S A := fun s => (Exit e, s).
Definition panic {S A} : M S A := fun s => (Panicked, s).
Definition get {S A} (f : S → A) : M S A := fun s => (Val (f s), s).
Definition modify {S} (f : S → S) : M S unit := fun s => (Val tt, f s).

Definition bind {S A B} (m : M S A) (k : A → M S B) : M S B := fun s =>
  match m s with
  | (Val a, s') => k a s'
  | (Exit e, s') => (Exit e, s')
  | (Panicked, s') => (Panicked, s')
  end.

Notation "x <- m ;; k" := (bind m (fun x => k))
  (at level 100, m at next level, right associativity) : go_scope.
Notation "m ;; k" := (bind m (fun _ => k))
  (at level 100, right associativity) : go_scope.
Open Scope go_scope.

Definition when {S} (b : bool) (m : M S unit) : M S unit := if b then m else ret tt.

(** Dereferencing a pointer: [nil] panics. *)
Definition deref {S A} (p : option A) : M S A :=
  match p with Some a => ret a | None => panic end.

(** The body of a Go function that returns [error]: falling off the end (the
    last [return nil]) is [Exit None]. *)
Definition errOf {A} (o : outcome A) : outcome unit :=
  match o with
  | Val _ => Exit None
  | Exit e => Exit e
  | Panicked => Panicked
  end.

Definition func {S A} (m : M S A) : M S unit := fun s =>
  let '(o, s') := m s in (errOf o, s').

(** [defer func() { if r := recover(); r != nil { err = ... } }()]: a panic is
    turned into an error value. *)
Definition recovering {S} (m : M S unit) : M S unit := fun s =>
  match m s with
  | (Panicked, s') => (Exit (Some "catch panic"), s')
  | r => r
  end.

(** A called method whose error result is dropped by the caller. *)
Definition ignore {S} (m : M S unit) : M S unit := fun s =>
  match m s with
  | (Panicked, s') => (Panicked, s')
  | (_, s') => (Val tt, s')
  end.

(** A pair of Go results [(value, error)]. *)
Inductive result (A : Type) :=
| Ok (a : A)
| Err (e : string).
Arguments Ok {A} a.
Arguments Err {A} e.

(** ** Computations without state

    A Go function that touches no shared state returns a value, returns an
    error, or panics.  [gores] is a monad in the sense of stdpp, so [x ← m; k] sequences
    calls and [mapM] runs one call per element. *)

Inductive gores (A : Type) :=
| Ret (a : A)
| Fail (e : string)
| Crash.
Arguments Ret {A} a.
Arguments Fail {A} e.
Arguments Crash {A}.

#[global] Instance gores_ret : MRet gores := fun A a => Ret a.
#[global] Instance gores_bind : MBind gores := fun A B k m =>
  match m with Ret a => k a | Fail e => Fail e | Crash => Crash end.

(** [s[i]]: an index outside the slice panics. *)
Definition index {A} (l : list A) (i : Z) : gores A :=
  if (i <? 0)%Z then Crash
  else match l !! Z.to_nat i with Some a => Ret a | None => Crash end.

(** [s[i] = a]. *)
Definition store {A} (l : list A) (i : Z) (a : A) : gores (list A) :=
  if (i <? 0)%Z || (Z.of_nat (length l) <=? i)%Z then Crash
  else Ret (<[Z.to_nat i := a]> l).

(** A [for] loop that threads [b] through a list of index values. *)
Fixpoint foldM {A B} (f : B → A → gores B) (l : list A) (b : B) : gores B :=
  match l with
  | [] => Ret b
  | x :: l' => b' ← f b x; foldM f l' b'
  end.

Lemma gores_bind_Ret {A B} (m : gores A) (k : A → gores B) b :
  m ≫= k = Ret b ↔ ∃ a, m = Ret a ∧ k a = Ret b.
Proof.
  destruct m as [a| |]; cbn; split; try by intros (? & ? & ?).
  - intros H. by exists a.
  - by intros (? & [= <-] & ?).
  - done.
  - done.
Qed.

Lemma mapM_Ret {A B} (f : A → gores B) (g : A → B) (l : list A) :
  (∀ x, x ∈ l → f x = Ret (g x)) → mapM f l = Ret (g <$> l).
Proof.
  induction l as [|x l IH]; intros H; cbn; [done|].
  rewrite H by left. cbn. rewrite IH; [done|]. intros y Hy. apply H. by right.
Qed.

Lemma mapM_exists {A B} (f : A → gores B) (P : B → Prop) (l : list A) :
  (∀ x, x ∈ l → ∃ y, P y ∧ f x = Ret y) →
  ∃ ys, mapM f l = Ret ys ∧ length ys = length l ∧ Forall P ys.
Proof.
  induction l as [|x l IH]; intros H; [by exists []|].
  destruct (H x) as (y & Hy & Hf); [left|].
  destruct IH as (ys & Hys & Hlen & HP); [intros z Hz; apply H; by right|].
  exists (y :: ys). cbn. rewrite Hf. cbn. rewrite Hys. cbn.
  split_and!; [done|lia|by constructor].
Qed.

Lemma index_Ret {A} (l : list A) (i : nat) a :
  l !! i = Some a → index l (Z.of_nat i) = Ret a.
Proof.
  intros H. unfold index. rewrite (proj2 (Z.ltb_ge _ _)) by lia.
  by rewrite Nat2Z.id, H.
Qed.

Lemma store_Ret {A} (l : list A) (i : nat) a :
  (i < length l)%nat → store l (Z.of_nat i) a = Ret (<[i := a]> l).
Proof.
  intros H. unfold store. rewrite (proj2 (Z.ltb_ge _ _)), (proj2 (Z.leb_gt _ _)) by lia.
  cbn. by rewrite Nat2Z.id.
Qed.

Lemma foldM_app {A B} (f : B → A → gores B) l1 l2 b :
  foldM f (l1 ++ l2) b = b' ← foldM f l1 b; foldM f l2 b'.
Proof. revert b. induction l1 as [|x l1 IH]; intros b; cbn; [done|]. by destruct (f b x); cbn. Qed.

Lemma foldM_Ret {A B} (f : B → A → gores B) (g : B → A → B) l b :
  (∀ b x, x ∈ l → f b x = Ret (g b x)) → foldM f l b = Ret (foldl g b l).
Proof.
  revert b. induction l as [|x l IH]; intros b H; cbn; [done|].
  rewrite H by left. apply IH. intros b' y Hy. apply H. by right.
Qed.

(** ** Shared lemmas on maps *)

Lemma elem_of_map_keys `{Countable K} {A} (m : gmap K A) (k : K) :
  k ∈ (map_to_list m).*1 ↔ is_Some (m !! k).
Proof.
  rewrite list_elem_of_fmap. split.
  - intros ([k' a] & -> & Hm%elem_of_map_to_list). by exists a.
  - intros [a Ha]. exists (k, a). by rewrite elem_of_map_to_list.
Qed.

(** ** Shared lemmas on lists *)

Lemma List_filter_sublist {A} (f : A → bool) (l : list A) : List.filter f l `sublist_of` l.
Proof. induction l as [|x l IH]; simpl; [done|]. destruct (f x); by constructor. Qed.

Lemma insert_middle {A} (l1 l2 : list A) i x y :
  i = length l1 → <[i := y]> (l1 ++ x :: l2) = l1 ++ y :: l2.
Proof. intros ->. by rewrite insert_app_r_alt, Nat.sub_diag by lia. Qed.

Lemma submseteq_NoDup {A} (l k : list A) : l ⊆+ k → NoDup k → NoDup l.
Proof. intros [k' ->]%submseteq_Permutation Hnd. by apply NoDup_app in Hnd as [? _]. Qed.

Lemma nth_seq_self {A} (l : list A) d : (fun i => nth i l d) <$> seq 0 (length l) = l.
Proof.
  apply list_eq. intros i. rewrite list_lookup_fmap.
  destruct (decide (i < length l)%nat) as [Hi|Hi].
  - rewrite lookup_seq_lt by done. cbn.
    destruct (lookup_lt_is_Some_2 l i Hi) as [z Hz]. by rewrite Hz, (nth_lookup_Some _ _ _ _ Hz).
  - rewrite lookup_seq_ge, lookup_ge_None_2 by lia. done.
Qed.

Lemma foldl_fmap {A B C} (f : A → C → A) (h : B → C) (l : list B) a :
  foldl f a (h <$> l) = foldl (fun a x => f a (h x)) a l.
Proof. revert a. induction l as [|x l IH]; intros a; [done|]. apply IH. Qed.

Lemma foldl_ext_in {A B} (f g : A → B → A) (l : list B) a :
  (∀ a x, x ∈ l → f a x = g a x) → foldl f a l = foldl g a l.
Proof.
  revert a. induction l as [|x l IH]; intros a H; [done|]. cbn. rewrite H by left.
  apply IH. intros b y Hy. apply H. by right.
Qed.

Lemma swap_Permutation {A} (l : list A) i j x y : (j < i)%nat → l !! i = Some x → l !! j = Some y →
  <[j := x]> (<[i := y]> l) ≡ₚ l.
Proof.
  intros Hij Hi Hj. pose proof (take_drop_middle l j y Hj) as Hl. pose proof (lookup_lt_Some _ _ _ Hj) as Hlt.
  set (a := take j l) in *. assert (Ha : length a = j) by (unfold a; rewrite length_take; lia).
  set (r := drop (S j) l) in *. assert (Hr : r !! (i - S j)%nat = Some x) by (unfold r; rewrite lookup_drop; rewrite <- Hi; f_equal; lia).
  clearbody a r. subst l. pose proof (take_drop_middle r _ x Hr) as Hr'. pose proof (lookup_lt_Some _ _ _ Hr) as Hlt'.
  set (b := take (i - S j) r) in *. assert (Hb : length b = (i - S j)%nat) by (unfold b; rewrite length_take; lia).
  set (c := drop (S (i - S j)) r) in *. clearbody b c. subst r.
  assert (E1 : <[i := y]> (a ++ y :: b ++ x :: c) = a ++ y :: b ++ y :: c).
  { rewrite !(app_comm_cons b), !(app_assoc a). apply insert_middle. rewrite length_app. cbn. lia. }
  rewrite E1, insert_middle by done.
  apply Permutation_app_head. rewrite <- !Permutation_middle. apply perm_swap.
Qed.

(** ** Counting in lists

    Sums over the goroutines of a machine: one entry changes, one entry is found. *)

Lemma sum_list_with_insert {A} (w : A → nat) l t p q : l !! t = Some p → (sum_list_with w (<[t := q]> l) + w p = sum_list_with w l + w q)%nat.
Proof.
  intros Ht. rewrite insert_take_drop by (by eapply lookup_lt_Some). rewrite <- (take_drop_middle l t p Ht) at 3.
  rewrite !sum_list_with_app. cbn. lia.
Qed.

Lemma sum_list_with_lookup {A} (w : A → nat) l t p : l !! t = Some p → (w p ≤ sum_list_with w l)%nat.
Proof. intros Ht. rewrite <- (take_drop_middle _ _ _ Ht), sum_list_with_app. cbn. lia. Qed.

Lemma sum_list_with_pos {A} (w : A → nat) l : (1 ≤ sum_list_with w l)%nat → ∃ t p, l !! t = Some p ∧ (1 ≤ w p)%nat.
Proof.
  induction l as [|x l IH]; cbn; [lia|]. intros H. destruct (decide (1 ≤ w x)%nat).
  - by exists 0%nat, x.
  - destruct IH as (t & p & Ht & Hp); [lia|]. by exists (S t), p.
Qed.
