(* ===== verification/Common.v ===== *)
(** * common: byte-slice and hex helpers

    Models [src/common/bytes.go] and the [Hash]/[Address] part of
    [src/common/types.go].  A Go [[]byte] is a [list Z] of values in [0,255]; a
    Go [string] is a Stdlib [string], a sequence of bytes.  [encoding/hex] is
    modelled as documented: [DecodeString] yields the bytes decoded before the
    first malformed pair, lower and upper case digits are both accepted, and
    [EncodeToString] writes lower case. *)

From stdpp Require Import base list strings.
From Stdlib Require Import ZArith Lia Ascii.
From S2P Require Import Prelude.

Definition bytes := list Z.

Definition is_byte (b : Z) : Prop := (0 ≤ b < 256)%Z.

Definition HashLength : nat := 32.
Definition AddressLength : nat := 20.

(** ** encoding/hex *)

Definition byte_of_ascii (c : ascii) : Z := Z.of_N (N_of_ascii c).
Definition ascii_of_byte (b : Z) : ascii := ascii_of_N (Z.to_N b).

Fixpoint bytes_of_string (s : string) : bytes :=
  match s with
  | EmptyString => []
  | String c s' => byte_of_ascii c :: bytes_of_string s'
  end.

Fixpoint string_of_bytes (b : bytes) : string :=
  match b with
  | [] => EmptyString
  | x :: b' => String (ascii_of_byte x) (string_of_bytes b')
  end.

Definition fromHexChar (c : ascii) : option Z :=
  let x := byte_of_ascii c in
  if (48 <=? x)%Z && (x <=? 57)%Z then Some (x - 48)%Z
  else if (97 <=? x)%Z && (x <=? 102)%Z then Some (x - 97 + 10)%Z
  else if (65 <=? x)%Z && (x <=? 70)%Z then Some (x - 65 + 10)%Z
  else None.

Definition hexDigit (n : Z) : ascii :=
  if (n <? 10)%Z then ascii_of_byte (n + 48) else ascii_of_byte (n - 10 + 97).

(** [common.Bytes2Hex] *)
Fixpoint Bytes2Hex (d : bytes) : string :=
  match d with
  | [] => EmptyString
  | b :: d' => String (hexDigit (b / 16)) (String (hexDigit (b `mod` 16)) (Bytes2Hex d'))
  end.

(** [common.Hex2Bytes]: the error of [hex.DecodeString] is dropped. *)
Fixpoint Hex2Bytes (str : string) : bytes :=
  match str with
  | String a (String b str') =>
      match fromHexChar a, fromHexChar b with
      | Some x, Some y => (x * 16 + y)%Z :: Hex2Bytes str'
      | _, _ => []
      end
  | _ => []
  end.

(** ** bytes.go *)

Definition hexPrefix (s : string) : bool := String.prefix "0x" s.
Definition dropStr (n : nat) (s : string) : string := String.substring n (String.length s - n) s.

Definition ToHex (b : bytes) : string :=
  let hex := Bytes2Hex b in
  let hex := if (String.length hex =? 0)%nat then "0" else hex in
  "0x" +:+ hex.

Definition FromHex (s : string) : bytes :=
  if (1 <? String.length s)%nat then
    let s := if hexPrefix s then dropStr 2 s else s in
    let s := if (String.length s mod 2 =? 1)%nat then "0" +:+ s else s in
    Hex2Bytes s
  else [].

Definition HasHexPrefix (str : string) : bool :=
  (2 <=? String.length str)%nat && hexPrefix str.

Definition IsHex (str : string) : bool :=
  let l := String.length str in
  (4 <=? l)%nat && (l mod 2 =? 0)%nat && hexPrefix str.

Definition Hex2BytesFixed (str : string) (flen : nat) : bytes :=
  let h := Hex2Bytes str in
  if (length h =? flen)%nat then h
  else if (flen <? length h)%nat then drop (length h - flen) h
  else replicate (flen - length h) 0%Z ++ h.

Definition RightPadBytes (slice : bytes) (l : nat) : bytes :=
  if (l <? length slice)%nat then slice
  else slice ++ replicate (l - length slice) 0%Z.

Definition LeftPadBytes (slice : bytes) (l : nat) : bytes :=
  if (l <? length slice)%nat then slice
  else replicate (l - length slice) 0%Z ++ slice.

Definition ToAddress (slice : bytes) : bytes :=
  if (length slice <? 20)%nat then LeftPadBytes slice 20
  else if (20 <? length slice)%nat then drop (length slice - 20) slice
  else slice.

(** ** types.go: [SetBytes] writes the last bytes into a zeroed array. *)

Definition SetBytes (n : nat) (b : bytes) : bytes :=
  let b := if (n <? length b)%nat then drop (length b - n) b else b in
  replicate (n - length b) 0%Z ++ b.

Definition BytesToHash (b : bytes) : bytes := SetBytes HashLength b.
Definition HexToHash (s : string) : bytes := BytesToHash (FromHex s).
Definition BytesToAddress (b : bytes) : bytes := SetBytes AddressLength b.
Definition HexToAddress (s : string) : bytes := BytesToAddress (FromHex s).
Definition Hex_of_array (h : bytes) : string := "0x" +:+ Bytes2Hex h.

(** ** Big-endian numbers: [ReadVarInt] and [BytesToNumber] *)

Definition beVal (b : bytes) : Z := foldl (fun acc x => acc * 256 + x)%Z 0%Z b.

(** [binary.Read] of a fixed-size unsigned integer: it needs [n] bytes, and a
    short input leaves the destination at zero. *)
Definition binaryRead (n : nat) (b : bytes) : Z :=
  if (n <=? length b)%nat then beVal (take n b) else 0%Z.

Definition ReadVarInt (buff : bytes) : Z :=
  let l := length buff in
  if (4 <? l)%nat then binaryRead 8 (LeftPadBytes buff 8)
  else if (2 <? l)%nat then binaryRead 4 (LeftPadBytes buff 4)
  else if (1 <? l)%nat then binaryRead 2 (LeftPadBytes buff 2)
  else binaryRead 1 buff.

(** [data[:len(b)]] on the 8-byte buffer: longer arguments are out of range and
    panic ([None]). *)
Definition BytesToNumber (b : bytes) : option Z :=
  if (8 <? length b)%nat then None
  else Some (binaryRead 8 (replicate (length b) 0%Z ++ b)).

(** ** Properties *)

Lemma lxor_byte a b : is_byte a → is_byte b → is_byte (Z.lxor a b).
Proof.
  unfold is_byte. intros Ha Hb. assert ((0 ≤ Z.lxor a b)%Z) by (apply Z.lxor_nonneg; lia).
  split; [done|]. destruct (Z.eq_dec (Z.lxor a b) 0) as [->|]; [lia|].
  apply (Z.log2_lt_pow2 _ 8); [lia|].
  eapply Z.le_lt_trans; [apply Z.log2_lxor; lia|].
  assert (Z.log2 a ≤ Z.log2 255 ∧ Z.log2 b ≤ Z.log2 255)%Z as [] by (split; apply Z.log2_le_mono; lia).
  change (Z.log2 255) with 7%Z in *. lia.
Qed.

Lemma byte_of_ascii_range c : is_byte (byte_of_ascii c).
Proof. destruct c as [[] [] [] [] [] [] [] []]; cbv; split; congruence. Qed.

Lemma byte_of_ascii_of_byte b : is_byte b → byte_of_ascii (ascii_of_byte b) = b.
Proof.
  unfold is_byte, byte_of_ascii, ascii_of_byte. intros Hb.
  rewrite N_ascii_embedding by lia. lia.
Qed.

Lemma ascii_of_byte_of_ascii c : ascii_of_byte (byte_of_ascii c) = c.
Proof. destruct c as [[] [] [] [] [] [] [] []]; reflexivity. Qed.

Lemma string_bytes_roundtrip s : string_of_bytes (bytes_of_string s) = s.
Proof. induction s as [|c s IH]; simpl; [done|]. by rewrite IH, ascii_of_byte_of_ascii. Qed.

Lemma fromHexChar_hexDigit n : (0 ≤ n < 16)%Z → fromHexChar (hexDigit n) = Some n.
Proof.
  intros Hn. assert (Z.of_nat (Z.to_nat n) = n) as <- by lia.
  assert (Z.to_nat n < 16)%nat as Hlt by lia. revert Hlt.
  generalize (Z.to_nat n). intros k Hk.
  do 16 (destruct k as [|k]; [reflexivity|]). lia.
Qed.

Lemma SetBytes_length n b : length (SetBytes n b) = n.
Proof.
  unfold SetBytes. rewrite length_app, length_replicate.
  case_match; rewrite ?length_drop; [apply Nat.ltb_lt in H|apply Nat.ltb_ge in H]; lia.
Qed.

Lemma Hex2Bytes_Bytes2Hex b : Forall is_byte b → Hex2Bytes (Bytes2Hex b) = b.
Proof.
  induction 1 as [|x b [Hx1 Hx2] _ IH]; [done|]. simpl.
  rewrite !fromHexChar_hexDigit, IH by (lia || (split; [apply Z.div_pos|apply Z.div_lt_upper_bound]; lia) || (apply Z.mod_pos_bound; lia)).
  f_equal. pose proof (Z.div_mod x 16). lia.
Qed.

Lemma Bytes2Hex_length b : String.length (Bytes2Hex b) = (2 * length b)%nat.
Proof. induction b as [|x b IH]; [done|]. simpl. rewrite IH. lia. Qed.

Lemma substring_all s : String.substring 0 (String.length s) s = s.
Proof. induction s as [|c s IH]; [done|]. simpl. by rewrite IH. Qed.

Lemma dropStr_prefix (s : string) : dropStr 2 ("0x" +:+ s) = s.
Proof. unfold dropStr. simpl. rewrite Nat.sub_0_r. apply substring_all. Qed.

Lemma beVal_zeros n b : beVal (replicate n 0%Z ++ b) = beVal b.
Proof. unfold beVal. rewrite foldl_app. f_equal. induction n as [|n IH]; [done|]. simpl. exact IH. Qed.

(** Hex round trip: [FromHex] of [ToHex] gives the bytes back (the empty slice, which
    is written as 0x0, comes back as one zero byte), and an address or hash read
    from its own hex form is itself. *)
Theorem FromHex_ToHex b : Forall is_byte b →
  FromHex (ToHex b) = (if decide (b = []) then [0%Z] else b) ∧
  (length b = AddressLength → HexToAddress (ToHex b) = b) ∧ (length b = HashLength → HexToHash (ToHex b) = b).
Proof.
  intros Hb. assert (FromHex (ToHex b) = if decide (b = []) then [0%Z] else b) as Hf.
  { destruct (decide (b = [])) as [->|Hne]; [done|]. unfold FromHex, ToHex. rewrite Bytes2Hex_length.
    replace (2 * length b =? 0)%nat with false by (symmetry; apply Nat.eqb_neq; destruct b; [done|simpl; lia]).
    change (1 <? String.length ("0x" +:+ Bytes2Hex b))%nat with true.
    assert (hexPrefix ("0x" +:+ Bytes2Hex b) = true) as -> by (unfold hexPrefix; simpl; by destruct (Bytes2Hex b)).
    cbv iota zeta. rewrite dropStr_prefix, Bytes2Hex_length.
    rewrite Nat.mul_comm, Nat.Div0.mod_mul. simpl. by apply Hex2Bytes_Bytes2Hex. }
  assert (∀ n, length b = S n → SetBytes (S n) (FromHex (ToHex b)) = b) as Hs.
  { intros n Hn. rewrite Hf, decide_False by (by intros ->). unfold SetBytes. by rewrite Hn, Nat.ltb_irrefl, Hn, Nat.sub_diag. }
  split_and!; [done| |]; intros Hn; by apply Hs.
Qed.

Lemma FromHex_ToHex_witness :
  FromHex (ToHex [222; 173]%Z) = [222; 173]%Z ∧
  (length [222; 173]%Z = AddressLength → HexToAddress (ToHex [222; 173]%Z) = [222; 173]%Z) ∧
  (length [222; 173]%Z = HashLength → HexToHash (ToHex [222; 173]%Z) = [222; 173]%Z).
Proof. apply (FromHex_ToHex [222; 173]%Z). repeat constructor; done. Defined.

(** Big-endian numbers: [ReadVarInt] is the value of one to eight bytes.
    [BytesToNumber] is only for exactly four: fewer bytes give 0, and of five to eight
    the last ones are lost, because the buffer is the zeros followed by all bytes. *)
Theorem ReadVarInt_BytesToNumber b : (1 ≤ length b ≤ 8)%nat →
  ReadVarInt b = beVal b ∧
  BytesToNumber b = Some (if (length b <? 4)%nat then 0%Z else beVal (take (8 - length b) b)).
Proof.
  intros Hl. split.
  - assert (∀ n, (length b ≤ n)%nat → binaryRead n (LeftPadBytes b n) = beVal b) as Hp.
    { intros n Hn. unfold LeftPadBytes, binaryRead. rewrite (proj2 (Nat.ltb_ge _ _)) by lia.
      rewrite length_app, length_replicate, (proj2 (Nat.leb_le _ _)) by lia.
      rewrite take_ge by (rewrite length_app, length_replicate; lia). apply beVal_zeros. }
    unfold ReadVarInt. destruct (Nat.ltb_spec 4 (length b)); [apply Hp; lia|].
    destruct (Nat.ltb_spec 2 (length b)); [apply Hp; lia|]. destruct (Nat.ltb_spec 1 (length b)); [apply Hp; lia|].
    unfold binaryRead. rewrite (proj2 (Nat.leb_le _ _)), take_ge by lia. done.
  - unfold BytesToNumber. rewrite (proj2 (Nat.ltb_ge _ _)) by lia. f_equal. unfold binaryRead.
    rewrite length_app, length_replicate. destruct (Nat.ltb_spec (length b) 4).
    + by rewrite (proj2 (Nat.leb_gt _ _)) by lia.
    + rewrite (proj2 (Nat.leb_le _ _)) by lia. rewrite take_app_ge, length_replicate by (rewrite length_replicate; lia).
      apply beVal_zeros.
Qed.

Lemma ReadVarInt_BytesToNumber_witness : ReadVarInt [1; 0]%Z = 256%Z ∧ BytesToNumber [1; 0]%Z = Some 0%Z.
Proof. apply (ReadVarInt_BytesToNumber [1; 0]%Z). simpl. lia. Defined.
