(* ===== verification/Types.v ===== *)
(** * eth: the data of the consensus component

    The message, block and certificate structs of [src/eth/pbft-core.go],
    [src/eth/pbft-core_basic.go] and [src/eth/worker.go], with the pure functions on them.
    Field names carry a two-letter prefix of their struct because several Go
    structs share field names.  Pointers that can be [nil] are [option]s;
    [time.Time] is a [Z] (nanoseconds); [[]byte] contents are byte strings.

    The JSON text [Tostring] makes of a struct is represented by the struct
    itself ([jsonText]): [encoding/json] preserves every exported field of these
    structs, so the text is as informative as the value. *)

From stdpp Require Import base gmap strings list pretty.
From Stdlib Require Import ZArith Lia Ascii.
From S2P Require Import Prelude Common.

(** ** Blocks *)

Record Transaction := mkTransaction { txString : string }.
Record Receipt := mkReceipt { rcString : string }.

Record Header := mkHeader {
  hdParentHash : string;
  hdNumber : option Z;          (* big.Int pointer *)
  hdCoinbase : bytes;           (* common.Address *)
  hdExtra : string;
  hdTime : option Z;            (* big.Int pointer *)
  hdChainName : string;
  hdRoot : string }.

Record Block := mkBlock {
  blNumber : Z;                 (* uint64 *)
  blValid : Z;                  (* int *)
  blTimee : Z;
  blHeader : option Header;
  blTxs : list (option Transaction);
  blUncles : list (option Header);
  blReceipt : list (option Receipt) }.

#[export] Instance eta_Header : Eta Header := fun h =>
  mkHeader (hdParentHash h) (hdNumber h) (hdCoinbase h) (hdExtra h) (hdTime h)
    (hdChainName h) (hdRoot h).
#[export] Instance eta_Block : Eta Block := fun b =>
  mkBlock (blNumber b) (blValid b) (blTimee b) (blHeader b) (blTxs b) (blUncles b) (blReceipt b).

#[export] Instance Transaction_dec : EqDecision Transaction.
Proof. solve_decision. Defined.
#[export] Instance Receipt_dec : EqDecision Receipt.
Proof. solve_decision. Defined.
#[export] Instance Header_dec : EqDecision Header.
Proof. solve_decision. Defined.
#[export] Instance Block_dec : EqDecision Block.
Proof. solve_decision. Defined.

(** [Block.Hash]: the decimal rendering of the height. *)
Definition BlockHash_of (b : Block) : string := Itoa (i64 (blNumber b)).

(** [is_valid]: a block passes when its [Valid] field is 0. *)
Definition is_valid (b : Block) : bool := (blValid b =? 0)%Z.

(** ** Transaction sequences *)

Record TxsExeSequences := mkTxsExeSequences {
  Objects_ExeSeqs : list Z;     (* [50]int *)
  Dependency_TX : list Z }.     (* [50]int *)

#[export] Instance TxsExeSequences_dec : EqDecision TxsExeSequences.
Proof. solve_decision. Defined.

(** The Go loops [for i := 0; i < n; i++ { a[i] = f(i) }] on a fresh array. *)
Definition arrayInit (n : nat) (f : Z → Z) : list Z := map (fun i => f (Z.of_nat i)) (seq 0 n).

(** [Block.Transactions]: fixed sequences, whatever the block. *)
Definition Transactions (b : option Block) : string * list Z * list Z :=
  ("一个返回值，但是用不到", arrayInit 50 (fun i => i + 1)%Z, arrayInit 50 (fun i => 50 - i)%Z).

Definition TxDependency (a : string) (b c : list Z) : string * list Z * list Z := (a, b, c).

(** [Backend.TxPool] *)
Definition TxPool : list Z * list Z :=
  (arrayInit 51 (fun i => i + 1)%Z, arrayInit 51 (fun i => 50 - i)%Z).

(** [multiVSelectWithLimit2]: the first 50 entries of both pools. *)
Definition multiVSelectWithLimit2 (a b : list Z) : list Z * list Z :=
  (map (fun i => nth i a 0%Z) (seq 0 50), map (fun i => nth i b 0%Z) (seq 0 50)).

(** ** JSON of a [TxsExeSequences]: the one JSON text the code compares *)

Definition quote : string := String "034"%char EmptyString.

Fixpoint sepBy (sep : string) (l : list string) : string :=
  match l with
  | [] => ""
  | [x] => x
  | x :: l' => x +:+ sep +:+ sepBy sep l'
  end.

Definition jsonInts (l : list Z) : string := "[" +:+ sepBy "," (map pretty l) +:+ "]".

Definition Tostring_txsExe (t : TxsExeSequences) : string :=
  "{" +:+ quote +:+ "Objects_ExeSeqs" +:+ quote +:+ ":" +:+ jsonInts (Objects_ExeSeqs t) +:+
  "," +:+ quote +:+ "Dependency_TX" +:+ quote +:+ ":" +:+ jsonInts (Dependency_TX t) +:+ "}".

(** ** Consensus messages *)

Record Request := mkRequest {
  rqReqID : Z;
  rqSender : string;
  rqView : Z;
  rqTimestamp : Z;
  rqBlockHeight : Z;
  rqBlockHash : string;
  rqBlockCreator : bytes;
  rqBlock : string;
  rqRealblock : option Block }.

(** [newhashReq]: the digest is the decimal rendering of [ReqID]. *)
Definition newhashReq (req : Request) : string := Itoa (i64 (rqReqID req)).

Record PrePrepare := mkPrePrepare {
  ppSender : string;
  ppView : Z;
  ppTimestamp : Z;
  ppReqID : Z;
  ppRequestDigest : string;
  ppRequest : option Request }.

Record Prepare := mkPrepare {
  prSender : string;
  prView : Z;
  prTimestamp : Z;
  prReqID : Z;
  prRequestDigest : string;
  prTxsExeSeqs : string;
  prRealTxsExeSeqs : option TxsExeSequences }.

Record ValidResultForBlock := mkVR {
  vrSender : string;
  vrBlockHeight : Z;
  vrBlockHash : string;
  vrBlockCreator : bytes;
  vrOpinion : bool;
  vrSign : string }.

Record Commit := mkCommit {
  cmSender : string;
  cmView : Z;
  cmTimestamp : Z;
  cmReqID : Z;
  cmRequestDigest : string;
  cmVR : ValidResultForBlock }.

Record Checkpoint := mkCheckpoint {
  ckSender : string;
  ckBlockHeight : Z;
  ckReqID : Z;
  ckBlockHash : string }.

Record ConStatusRequest := mkConStatusRequest { csTimestamp : Z; csSender : string }.

#[export] Instance eta_VR : Eta ValidResultForBlock := fun v =>
  mkVR (vrSender v) (vrBlockHeight v) (vrBlockHash v) (vrBlockCreator v) (vrOpinion v) (vrSign v).

#[export] Instance Request_dec : EqDecision Request.
Proof. solve_decision. Defined.
#[export] Instance PrePrepare_dec : EqDecision PrePrepare.
Proof. solve_decision. Defined.
#[export] Instance Prepare_dec : EqDecision Prepare.
Proof. solve_decision. Defined.
#[export] Instance VR_dec : EqDecision ValidResultForBlock.
Proof. solve_decision. Defined.
#[export] Instance Commit_dec : EqDecision Commit.
Proof. solve_decision. Defined.
#[export] Instance Checkpoint_dec : EqDecision Checkpoint.
Proof. solve_decision. Defined.
#[export] Instance ConStatusRequest_dec : EqDecision ConStatusRequest.
Proof. solve_decision. Defined.

(** ** Envelopes *)

(** What [Tostring]/[json.Marshal] was applied to. *)
Inductive jsonText :=
| JRequest (r : Request)
| JPrePrepare (p : PrePrepare)
| JPrepare (p : Prepare)
| JCommit (c : Commit)
| JConStatusRequest (c : ConStatusRequest).

Record ConsensusMsg := mkConsensusMsg {
  coMsg : jsonText;
  coTimestamp : Z;
  coType : string;
  coSender : string }.

Record ConsensusMsg2 := mkConsensusMsg2 {
  c2Msg : jsonText;
  c2Timestamp : Z;
  c2Type : string;
  c2Sender : string;
  c2Newsender : string;
  c2Other : string }.

#[export] Instance jsonText_dec : EqDecision jsonText.
Proof. solve_decision. Defined.
#[export] Instance ConsensusMsg_dec : EqDecision ConsensusMsg.
Proof. solve_decision. Defined.
#[export] Instance ConsensusMsg2_dec : EqDecision ConsensusMsg2.
Proof. solve_decision. Defined.

(** The values posted on the event muxes ([PbftMux] and [mux] are the same
    [TypeMux] after [Initt]). *)
Inductive event :=
| EvConsensusMsg (m : ConsensusMsg)
| EvConsensusMsg2 (m : ConsensusMsg2)
| EvCheckpoint (c : Checkpoint)
| EvBlockForceSync.

#[export] Instance event_dec : EqDecision event.
Proof. solve_decision. Defined.

(** ** Certificates *)

Record msgCert := mkMsgCert {
  prePrepare : option PrePrepare;
  sentPrepare : bool;
  prepare : list Prepare;
  sentCommit : bool;
  commit : list Commit;
  IsPrepre : bool;
  IsPre : bool;
  IsComitt : bool }.

Definition emptyCert : msgCert := mkMsgCert None false [] false [] false false false.

#[export] Instance eta_msgCert : Eta msgCert := fun c =>
  mkMsgCert (prePrepare c) (sentPrepare c) (prepare c) (sentCommit c) (commit c)
    (IsPrepre c) (IsPre c) (IsComitt c).

(** [msgID{v, n}]: view and request id. *)
Abbreviation msgID := (Z * Z)%type.

(** ** The local mined-block ring ([worker.go]) *)

Definition miningLogAtDepth : Z := 5.

Record uint64RingBuffer := mkRing { ints : list Z; next : nat }.

Definition newLocalMinedBlock (blockNumber : Z) (prev : option uint64RingBuffer) : uint64RingBuffer :=
  let minedBlocks := match prev with
                     | None => mkRing (replicate 6 0%Z) 0
                     | Some r => r
                     end in
  mkRing (<[next minedBlocks := blockNumber]> (ints minedBlocks))
         ((next minedBlocks + 1) mod length (ints minedBlocks)).

Record Work := mkWork {
  wkBlock : option Block;
  wkHeader : option Header;
  wkTxs : list (option Transaction);
  wkReceipts : list (option Receipt);
  wkTcount : Z;
  wkLocalMinedBlocks : option uint64RingBuffer;
  wkCreatedAt : Z }.

Definition zeroWork : Work := mkWork None None [] [] 0 None 0.

#[export] Instance eta_Work : Eta Work := fun w =>
  mkWork (wkBlock w) (wkHeader w) (wkTxs w) (wkReceipts w) (wkTcount w) (wkLocalMinedBlocks w)
    (wkCreatedAt w).
