(* ===== verification/Worker.v ===== *)
(** * eth: the worker's state and its basic operations

    The [worker] struct of [src/eth/worker.go] with the package variables of
    [src/eth/pbft-core.go] that the handlers share (one process runs one worker,
    [Node1]), and the operations of [src/eth/pbft-core_basic.go]: quorum sizes, the
    pool of possibly valid blocks with its time stamps, the certificate store,
    and the prePrepared / prepared / committed predicates.

    Mutexes do not appear: each operation is one atomic step on the state.  A
    pointer to a certificate ([*msgCert] from [getCert]) is represented by its key
    in [certStore].  Reads of [time.Now()] return the field [clock].  What a
    handler starts or sends ([go f()], [mux.Post]) is appended to [out]. *)

From stdpp Require Import base gmap strings list pretty.
From Stdlib Require Import ZArith Lia.
From S2P Require Import Prelude Common Types.

(** ** Effects *)

(** The goroutines a handler starts. *)
Inductive task :=
| TRecvRequest (r : Request)
| TRecvPrePrepare (p : PrePrepare)
| TRecvPrepare (p : Prepare)
| TRecvPrepare_notTransfer (p : Prepare)
| TRecvCommit (c : Commit)
| TStartConsensus
| TSyncConStatus.

Inductive effect :=
| Post (e : event)                    (* go mux.Post(e) *)
| Go (t : task)                       (* go self.t(...) *)
| InsertChainWithVRS (c : Commit)     (* the call; [c] is the commit being handled *)
| Sleep (ns : Z).                     (* time.Sleep *)

#[export] Instance task_dec : EqDecision task.
Proof. solve_decision. Defined.
#[export] Instance effect_dec : EqDecision effect.
Proof. solve_decision. Defined.

(** [consensusCtx] and [consensusCancel] are assigned together. *)
Inductive ctxState := CtxNil | CtxLive | CtxCancelled.

(** ** State *)

Record worker := mkWorker {
  nodeID : string;
  numN : Z;                                   (* the field N *)
  leader : string;
  view : Z;
  ready : bool;
  activeView : bool;
  LastReqID : Z;
  CurrentBlock : Z;                           (* chain.CurrentBlock *)
  mining : bool;
  txNum_startconsens : Z;
  hasUnDealTxs : bool;
  coinbase : bytes;
  extra : string;
  chainName : string;
  current : option Work;
  reqStore : gmap string Request;
  certStore : gmap msgID msgCert;
  selfCheckpointStore : gmap string Z;        (* worker.checkpointStore, never filled *)
  possibleValidBlock : gmap Z (gmap string Block);
  blockbeats : gmap string Z;
  chkpt : bool;
  (* package variables of pbft-core.go *)
  commitStore : gmap Z string;
  checkpointStore : gmap string Z;
  checkpointBH : Z;
  leaseBeat : Z;
  consensusCtx : ctxState;
  prepreflag : Z;
  preflag : Z;
  maxConsensusLifetime : Z;
  evictionInterval : Z;
  (* environment *)
  startTime : Z;                              (* time.Now() at process start *)
  clock : Z;
  out : list effect }.

#[export] Instance eta_worker : Eta worker := fun w =>
  mkWorker (nodeID w) (numN w) (leader w) (view w) (ready w) (activeView w) (LastReqID w)
    (CurrentBlock w) (mining w) (txNum_startconsens w) (hasUnDealTxs w) (coinbase w) (extra w)
    (chainName w) (current w) (reqStore w) (certStore w) (selfCheckpointStore w)
    (possibleValidBlock w) (blockbeats w) (chkpt w) (commitStore w) (checkpointStore w)
    (checkpointBH w) (leaseBeat w) (consensusCtx w) (prepreflag w) (preflag w)
    (maxConsensusLifetime w) (evictionInterval w) (startTime w) (clock w) (out w).

Abbreviation H := (M worker).

Definition emit (e : effect) : H unit := modify (fun w => w <| out ::= (fun o => o ++ [e]) |>).
Definition post (e : event) : H unit := emit (Post e).
Definition go (t : task) : H unit := emit (Go t).
Definition sleep (ns : Z) : H unit := emit (Sleep ns).
Definition second : Z := 1000000000.
Definition millisecond : Z := 1000000.

(** ** Accessors *)

Definition GetConStatus (w : worker) : string * Z := (leader w, view w).
Definition GetSelfNodeID (w : worker) : string := nodeID w.
Definition Ready (w : worker) : bool := ready w.
Definition SetReady (flag : bool) : H unit := modify (fun w => w <| ready := flag |>).
Definition primary (w : worker) : string := (GetConStatus w).1.
Definition ISLeader (w : worker) : bool := bool_decide ((GetConStatus w).1 = GetSelfNodeID w).
Definition inV (v : Z) (w : worker) : bool := ((GetConStatus w).2 =? v)%Z.
Definition GetActiveView (w : worker) : bool := activeView w.
Definition SetActiveView (flag : bool) : H unit := modify (fun w => w <| activeView := flag |>).
Definition setChkpt (flag : bool) : H unit := modify (fun w => w <| chkpt := flag |>).
Definition getChkpt (w : worker) : bool := chkpt w.
Definition setEtherbase (addr : bytes) : H unit := modify (fun w => w <| coinbase := addr |>).
Definition getCurrentCSNum (w : worker) : Z := numN w.
Definition updateLeaseBeat : H unit := modify (fun w => w <| leaseBeat := clock w |>).
Definition getLeaseBeat (w : worker) : Z := leaseBeat w.
Definition getCheckpointBH (w : worker) : Z := checkpointBH w.
Definition ResetCommitStore : H unit := modify (fun w => w <| commitStore := ∅ |>).
Definition SetTxNum_startconsens (num : Z) : H unit :=
  modify (fun w => w <| txNum_startconsens := num |>).
Definition SetMaxConsensusLifetime (t : Z) : H unit :=
  modify (fun w => w <| maxConsensusLifetime := (second * t)%Z |>).
Definition SetEvictionInterval (t : Z) : H unit :=
  modify (fun w => w <| evictionInterval := (60 * second * t)%Z |>).

(** [updateCheckpointBH]: raised, never lowered. *)
Definition updateCheckpointBH (bh : Z) : H unit :=
  modify (fun w => if (checkpointBH w <? bh)%Z then w <| checkpointBH := bh |> else w).

(** ** Quorums *)

Definition noQuorum : Z := 10000000.

Definition quorumOf (currentCSNum : Z) : Z :=
  if (currentCSNum =? 0)%Z || (currentCSNum <? 2)%Z then noQuorum
  else if (currentCSNum =? 2)%Z then currentCSNum
  else if (currentCSNum =? 3)%Z then (currentCSNum - 1)%Z
  else let f := (currentCSNum ÷ 3)%Z in (currentCSNum - f)%Z.

Definition getQuorum (w : worker) : Z := quorumOf (numN w).

Definition electionQuorumOf (currentCSNum : Z) : Z :=
  if (currentCSNum =? 0)%Z || (currentCSNum <? 2)%Z then noQuorum
  else if (currentCSNum =? 2)%Z then currentCSNum
  else if (currentCSNum =? 3)%Z then (currentCSNum - 1)%Z
  else let f := (currentCSNum ÷ 2)%Z in (f + 1)%Z.

Definition getElectionQuorum (w : worker) : Z := electionQuorumOf (numN w).

(** ** The pool of possibly valid blocks and their consensus start times

    Go ranges over maps in an unspecified order; a loop takes the order as the
    list [ord] of the map's entries. *)

Definition putBlockOnPossibleValidBlock (block : option Block) : H unit :=
  b <- deref block ;;
  a <- get (fun w => default ∅ (possibleValidBlock w !! blNumber b)) ;;
  modify (fun w => w <| possibleValidBlock ::= <[blNumber b := <[BlockHash_of b := b]> a]> |>).

Definition GetBlockFromPossibleValidBlock (bn : Z) (bhash : string) (w : worker) : option Block :=
  match possibleValidBlock w !! bn with
  | None => None
  | Some blocks => blocks !! bhash
  end.

Definition addbeats (n : string) : H unit :=
  modify (fun w => match blockbeats w !! n with
                   | Some _ => w
                   | None => w <| blockbeats ::= <[n := clock w]> |>
                   end).

Definition deletbeats (n : string) : H unit := modify (fun w => w <| blockbeats ::= delete n |>).

Definition PutPVBAndBeats (block : option Block) : H unit :=
  putBlockOnPossibleValidBlock block ;;
  b <- deref block ;;
  addbeats (BlockHash_of b).

(** One round of the inner and of the outer loop of [deleteImpossibleValidBlock]. *)
Definition dropBeat (hb : string * Block) (w : worker) : worker :=
  w <| blockbeats ::= delete hb.1 |>.

Definition dropHeight (dbn : Z) (e : Z * gmap string Block) (w : worker) : worker :=
  let '(bn, blocks) := e in
  if (bn <=? dbn)%Z then
    (foldr dropBeat w (map_to_list blocks)) <| possibleValidBlock ::= delete bn |>
  else w.

Definition deleteImpossibleValidBlockIn (ord : list (Z * gmap string Block)) (dbn : Z) (w : worker)
  : worker := foldr (dropHeight dbn) w ord.

Definition deleteImpossibleValidBlock (dbn : Z) : H unit :=
  modify (fun w => deleteImpossibleValidBlockIn (map_to_list (possibleValidBlock w)) dbn w).

Definition DeletePVBAndBeats (bn : Z) (bhash : string) : H unit :=
  deleteImpossibleValidBlock bn ;;
  deletbeats bhash.

(** The first entry, in iteration order, whose inner map has [hash]. *)
Definition findHash (hash : string) (ord : list (Z * gmap string Block))
  : option (Z * gmap string Block) :=
  snd <$> list_find (fun e => is_Some (e.2 !! hash)) ord.

Definition deleteImpossibleValidBlockByHashIn (ord : list (Z * gmap string Block)) (hash : string)
  (w : worker) : worker :=
  match findHash hash ord with
  | None => w
  | Some (bn, blocks) =>
      let blocks' := delete hash blocks in
      if bool_decide (blocks' = ∅) then w <| possibleValidBlock ::= delete bn |>
      else w <| possibleValidBlock ::= <[bn := blocks']> |>
  end.

Definition deleteImpossibleValidBlockByHash (hash : string) : H unit :=
  modify (fun w => deleteImpossibleValidBlockByHashIn (map_to_list (possibleValidBlock w)) hash w).

Definition deletePVBAndBeatsByHash (bhash : string) : H unit :=
  deletbeats bhash ;;
  deleteImpossibleValidBlockByHash bhash.

Definition DeletePVBAndBeatsByHash : string → H unit := deletePVBAndBeatsByHash.

Definition GetBlockFromPVBlockByHashIn (ord : list (Z * gmap string Block)) (hash : string)
  : option Block * Z :=
  match findHash hash ord with
  | Some (bn, blocks) => (blocks !! hash, bn)
  | None => (None, 0%Z)
  end.

Definition GetBlockFromPVBlockByHash (hash : string) (w : worker) : option Block * Z :=
  GetBlockFromPVBlockByHashIn (map_to_list (possibleValidBlock w)) hash.

Definition getPossibleBHByHashIn (ord : list (Z * gmap string Block)) (hash : string) : result Z :=
  match findHash hash ord with
  | Some (bn, _) => Ok bn
  | None => Err "non such block"
  end.

Definition getPossibleBHByHash (hash : string) (w : worker) : result Z :=
  getPossibleBHByHashIn (map_to_list (possibleValidBlock w)) hash.

Definition GetPossibleBHByHash : string → worker → result Z := getPossibleBHByHash.

Definition ResetPVBAndBeats : H unit :=
  modify (fun w => w <| blockbeats := ∅ |> <| possibleValidBlock := ∅ |>).

(** ** Requests and certificates *)

Definition GetRequestFromStore (reqDigest : string) (w : worker) : option Request :=
  reqStore w !! reqDigest.

Definition storeRequest (digest : string) (r : Request) : H unit :=
  modify (fun w => w <| reqStore ::= <[digest := r]> |>).

Definition getCert (v reqID : Z) : H msgID :=
  modify (fun w => match certStore w !! (v, reqID) with
                   | Some _ => w
                   | None => w <| certStore ::= <[(v, reqID) := emptyCert]> |>
                   end) ;;
  ret (v, reqID).

(** Reading and writing through a certificate pointer. *)
Definition certAt (c : msgID) (w : worker) : msgCert := default emptyCert (certStore w !! c).
Definition updCert (c : msgID) (f : msgCert → msgCert) : H unit :=
  modify (fun w => w <| certStore ::= alter f c |>).

Definition putPrePrepareInCert (cview reqID : Z) (preprep : PrePrepare) : H unit :=
  cert <- getCert cview reqID ;;
  updCert cert (fun c => c <| prePrepare := Some preprep |>).

(** ** The three phases *)

Definition prePrepared (digest : string) (v reqID : Z) (w : worker) : bool :=
  if negb (bool_decide (digest = "")) && bool_decide (reqStore w !! digest = None) then false
  else match certStore w !! (v, reqID) with
       | Some cert =>
           match prePrepare cert with
           | Some p => (ppView p =? v)%Z && (ppReqID p =? reqID)%Z &&
                       bool_decide (ppRequestDigest p = digest)
           | None => false
           end
       | None => false
       end.

Definition prepareMatches (digest : string) (v reqID : Z) (p : Prepare) : bool :=
  (prView p =? v)%Z && (prReqID p =? reqID)%Z && bool_decide (prRequestDigest p = digest).

(** The loop [for _, p := range cert.prepare { if ... { quorum++ } }]. *)
Definition prepareCount (digest : string) (v reqID : Z) (l : list Prepare) : Z :=
  Z.of_nat (length (List.filter (prepareMatches digest v reqID) l)).

Definition prepared (digest : string) (v reqID : Z) (w : worker) : bool :=
  if negb (prePrepared digest v reqID w) then false
  else match certStore w !! (v, reqID) with
       | None => false
       | Some cert => (getQuorum w <=? prepareCount digest v reqID (prepare cert))%Z
       end.

Definition commitMatches (v reqID : Z) (c : Commit) : bool :=
  (cmView c =? v)%Z && (cmReqID c =? reqID)%Z.

(** The loop of [committed]: [senderCount] keeps the senders already counted. *)
Definition commitStep (v reqID : Z) (acc : gset string * Z) (p : Commit) : gset string * Z :=
  let '(senderCount, quorum) := acc in
  if commitMatches v reqID p then
    if bool_decide (cmSender p ∈ senderCount) then acc
    else ({[cmSender p]} ∪ senderCount, (quorum + 1)%Z)
  else acc.

Definition commitCount (v reqID : Z) (l : list Commit) : Z :=
  (foldl (commitStep v reqID) (∅, 0%Z) l).2.

Definition committed (digest : string) (v reqID : Z) (w : worker) : bool :=
  if negb (prepared digest v reqID w) then false
  else match certStore w !! (v, reqID) with
       | None => false
       | Some cert => (getQuorum w <=? commitCount v reqID (commit cert))%Z
       end.

(** ** Votes *)

Inductive vote := possitive | futurePossitive | negative.

#[export] Instance vote_dec : EqDecision vote.
Proof. solve_decision. Defined.

(** The counting loop of [GetValidResFromCommit]: the sender set and the counters
    [all], [poss], [neg]. *)
Definition voteStep (acc : gset string * Z * Z * Z) (com : Commit) : gset string * Z * Z * Z :=
  let '(senderCount, all, poss, neg) := acc in
  if bool_decide (cmSender com ∈ senderCount) then acc
  else if vrOpinion (cmVR com)
       then ({[cmSender com]} ∪ senderCount, (all + 1)%Z, (poss + 1)%Z, neg)
       else ({[cmSender com]} ∪ senderCount, (all + 1)%Z, poss, (neg + 1)%Z).

Definition countVotes (l : list Commit) : gset string * Z * Z * Z :=
  foldl voteStep (∅, 0%Z, 0%Z, 0%Z) l.

Definition GetValidResFromCommit (cert : msgCert) (w : worker) : vote :=
  let '(_, all, poss, _) := countVotes (commit cert) in
  let currentCSNum := getCurrentCSNum w in
  let future := (currentCSNum - all)%Z in
  let quorum := getQuorum w in
  if (quorum <=? poss)%Z then possitive
  else if (quorum <=? poss + future)%Z then futurePossitive
  else negative.

(** ** The transaction sequence a quorum agrees on *)

Definition txExeStep (digest : string) (v reqID : Z) (counts : gmap string Z) (p : Prepare)
  : gmap string Z :=
  if prepareMatches digest v reqID p then
    if negb (bool_decide (prTxsExeSeqs p = "")) then
      <[prTxsExeSeqs p := (default 0 (counts !! prTxsExeSeqs p) + 1)%Z]> counts
    else counts
  else counts.

(** [txExe] maps every counted text to itself, so the text is the key. *)
Definition txExeCounts (digest : string) (v reqID : Z) (l : list Prepare) : gmap string Z :=
  foldl (txExeStep digest v reqID) ∅ l.

Definition bestStep (acc : Z * string) (e : string * Z) : Z * string :=
  if (acc.1 <? e.2)%Z then (e.2, e.1) else acc.

Definition getConsensusTxExesIn (ord : list (string * Z)) (quorum : Z) : result string :=
  let '(count, exe) := foldl bestStep (0%Z, "") ord in
  if negb (quorum <=? count)%Z
  then Err "not have consensus txdepend reached quorumNum"
  else Ok exe.

Definition getConsensusTxExes (digest : string) (v reqID : Z) (w : worker) : result string :=
  match certStore w !! (v, reqID) with
  | None => Err "cert is nil"
  | Some cert =>
      getConsensusTxExesIn (map_to_list (txExeCounts digest v reqID (prepare cert))) (getQuorum w)
  end.

(** ** Clearing *)

Definition removeOldConMsg (reqID : Z) : H unit :=
  modify (fun w =>
    w <| certStore ::= filter (fun e => ¬ (e.1.2 ≤ reqID)%Z) |>
      <| reqStore ::= filter (fun e => ¬ (rqReqID e.2 ≤ reqID)%Z) |>).

Definition ResetConsensusData : H unit :=
  modify (fun w => w <| certStore := ∅ |> <| reqStore := ∅ |>).

Definition cancelConsensus (w : worker) : worker :=
  match consensusCtx w with
  | CtxNil => w
  | _ => w <| consensusCtx := CtxCancelled |>
  end.

Definition ResetConData2 : H unit :=
  modify (fun w => w <| reqStore := ∅ |>) ;;
  ResetPVBAndBeats ;;
  modify (fun w => w <| certStore := ∅ |> <| selfCheckpointStore := ∅ |>) ;;
  modify cancelConsensus.

Definition ResetConData : H unit :=
  modify (fun w => w <| view := CurrentBlock w |>) ;;
  ResetCommitStore ;;
  SetReady false ;;
  SetActiveView true ;;
  ResetConData2.

(** ** Mining guard and synchronisation requests *)

Definition CanMining (w : worker) : bool :=
  if mining w then false
  else
    let cu_BH := CurrentBlock w in
    if bool_decide (is_Some (possibleValidBlock w !! u64 (cu_BH + 1))) then false
    else ISLeader w && Ready w.

Definition SyncConStatus : H unit :=
  w <- get id ;;
  let cq := mkConStatusRequest (clock w) (GetSelfNodeID w) in
  post (EvConsensusMsg
          (mkConsensusMsg (JConStatusRequest cq) (clock w) "ConStatusRequest" (GetSelfNodeID w))).

(** [JudgeSync]: the subtraction [bn-1] wraps at zero. *)
Definition JudgeSync (bn : Z) : H bool :=
  selfBlockNum <- get CurrentBlock ;;
  if (selfBlockNum <? u64 (bn - 1))%Z then
    post EvBlockForceSync ;;
    go TSyncConStatus ;;
    ret false
  else ret true.

(** [SyncView] only prints. *)
Definition SyncView (view : Z) : H unit := ret tt.
