(* ===== verification/Pbft.v ===== *)
(** * eth: the PBFT handlers

    The event handlers of [src/eth/pbft-core.go] (requests, pre-prepares,
    prepares, commits, checkpoints), [SendRequest], and the store-and-forward
    helpers of [src/eth/pbft-core_basic.go].  Each handler is one atomic
    computation over the worker; printing and log files are left out. *)

From stdpp Require Import base gmap strings list pretty.
From Stdlib Require Import ZArith Lia.
From S2P Require Import Prelude Common Types Worker.

(** [if b { return e }] *)
Definition ifReturn (b : bool) (e : option string) : H unit :=
  if b then return_ e else ret tt.

(** [defer d()] of a function body [m]. *)
Definition deferred (d : H unit) (m : H unit) : H unit := fun w =>
  let '(o, w') := m w in (o, (d w').2).

Definition setLastReqID (r : Z) : H unit := modify (fun w => w <| LastReqID := r |>).

(** ** Store and forward *)

Definition sendConMsg_transfer (sender : string) (msg : jsonText) (msgtype : string) : H unit :=
  w <- get id ;;
  when (negb (bool_decide (sender = GetSelfNodeID w)))
    (post (EvConsensusMsg2
             (mkConsensusMsg2 msg (clock w) msgtype sender (nodeID w) "转发消息"))).

Definition sendConMsg_transfer1 (msg : PrePrepare) (msgtype : string) : H unit :=
  sendConMsg_transfer (ppSender msg) (JPrePrepare msg) msgtype.
Definition sendConMsg_transfer2 (msg : Prepare) (msgtype : string) : H unit :=
  sendConMsg_transfer (prSender msg) (JPrepare msg) msgtype.
Definition sendConMsg_transfer3 (msg : Commit) (msgtype : string) : H unit :=
  sendConMsg_transfer (cmSender msg) (JCommit msg) msgtype.

(** ** Requests *)

Definition SendRequest (block : Block) (blockByte : string) : H unit :=
  cview <- get (fun w => (GetConStatus w).2) ;;
  lastID <- get LastReqID ;;
  setLastReqID (u64 (lastID + 1)) ;;
  let bh := blNumber block in
  cBH <- get CurrentBlock ;;
  if (bh <=? cBH)%Z then ret tt
  else
    w <- get id ;;
    let req := {| rqReqID := LastReqID w;
                  rqSender := GetSelfNodeID w;
                  rqView := cview;
                  rqTimestamp := clock w;
                  rqBlockHeight := blNumber block;
                  rqBlockHash := BlockHash_of block;
                  rqBlockCreator := HexToAddress (GetSelfNodeID w);
                  rqBlock := blockByte;
                  rqRealblock := Some block |} in
    let cmsg := mkConsensusMsg (JRequest req) (clock w) "PBFTRequest" (GetSelfNodeID w) in
    sleep (1000 * millisecond) ;;
    go (TRecvRequest req) ;;
    post (EvConsensusMsg cmsg).

Definition RecvRequest (req : Request) : H unit := func (
  lastID <- get LastReqID ;;
  when (lastID <? rqReqID req)%Z (setLastReqID (rqReqID req)) ;;
  rdy <- get Ready ;;
  ifReturn (negb rdy) (Some "being seletionleader A12") ;;
  cleader <- get (fun w => (GetConStatus w).1) ;;
  cview <- get (fun w => (GetConStatus w).2) ;;
  ifReturn (negb (bool_decide (rqSender req = cleader)) || (rqView req <? cview)%Z)
    (Some "req has wrong leader or view  A15") ;;
  let digest := newhashReq req in
  stored <- get (GetRequestFromStore digest) ;;
  ifReturn (bool_decide (is_Some stored)) (Some "req has already exists    A17") ;;
  cBH <- get CurrentBlock ;;
  ifReturn (rqBlockHeight req <=? cBH)%Z (Some "req block already onchain  A19") ;;
  storeRequest digest req ;;
  cur <- get (inV (rqView req)) ;;
  when cur (
    w <- get id ;;
    let preprep := {| ppSender := GetSelfNodeID w;
                      ppView := rqView req;
                      ppTimestamp := clock w;
                      ppReqID := rqReqID req;
                      ppRequestDigest := digest;
                      ppRequest := Some req |} in
    let cmsg := mkConsensusMsg (JPrePrepare preprep) (clock w) "PBFTPrePrepare"
                  (GetSelfNodeID w) in
    PutPVBAndBeats (rqRealblock req) ;;
    putPrePrepareInCert (rqView req) (rqReqID req) preprep ;;
    sleep (5 * second) ;;
    go (TRecvPrePrepare preprep) ;;
    post (EvConsensusMsg cmsg))).

(** ** Pre-prepares *)

(** Recording a pre-prepare and, when a delayed one completes the prepared
    certificate, re-triggering the first stored prepare. *)
Definition storePrePrepare (preprep : PrePrepare) (request : Request) (cert : msgID) : H unit :=
  old <- get (fun w => prePrepare (certAt cert w)) ;;
  let differs := match old with
                 | Some p => negb (bool_decide (ppRequestDigest p = ppRequestDigest preprep))
                 | None => false
                 end in
  if differs then ret tt
  else
    updCert cert (fun c => c <| prePrepare := Some preprep |> <| IsPrepre := true |>) ;;
    again <- get (fun w => prepared (ppRequestDigest preprep) (ppView preprep) (rqReqID request) w
                           && negb (sentCommit (certAt cert w))) ;;
    when again (
      preps <- get (fun w => prepare (certAt cert w)) ;;
      match preps with
      | p0 :: _ => go (TRecvPrepare_notTransfer p0)
      | [] => ret tt
      end).

(** The block of a pre-prepare: from the pool, or from the request and then pooled. *)
Definition ensureBlock (request : Request) : H (option Block) :=
  pooled <- get (GetBlockFromPossibleValidBlock (rqBlockHeight request) (rqBlockHash request)) ;;
  match pooled with
  | Some b => ret (Some b)
  | None => PutPVBAndBeats (rqRealblock request) ;; ret (rqRealblock request)
  end.

(** Answering a pre-prepare with the node's own prepare. *)
Definition answerPrePrepare (preprep : PrePrepare) (cert : msgID) (block : option Block) : H unit :=
  modify (fun w => if (prepreflag w =? 0)%Z then w <| prepreflag := 1%Z |> else w) ;;
  let '(tx, objs, deps) := Transactions block in
  let '(_, objects_ExeSeqs, dependency_TX) := TxDependency tx objs deps in
  let txsExe := mkTxsExeSequences objects_ExeSeqs dependency_TX in
  w <- get id ;;
  let prep := {| prSender := GetSelfNodeID w;
                 prView := ppView preprep;
                 prTimestamp := clock w;
                 prReqID := ppReqID preprep;
                 prRequestDigest := ppRequestDigest preprep;
                 prTxsExeSeqs := Tostring_txsExe txsExe;
                 prRealTxsExeSeqs := Some txsExe |} in
  let cmsg := mkConsensusMsg (JPrepare prep) (clock w) "PBFTPrepare" (GetSelfNodeID w) in
  updCert cert (fun c => c <| sentPrepare := true |>) ;;
  sleep (5 * second) ;;
  post (EvConsensusMsg cmsg) ;;
  go (TRecvPrepare prep) ;;
  sendConMsg_transfer1 preprep "PBFTPrePrepare".

Definition RecvPrePrepare (preprep : PrePrepare) : H unit := recovering (func (
  let digest := ppRequestDigest preprep in
  SyncView (ppView preprep) ;;
  cleader <- get (fun w => (GetConStatus w).1) ;;
  cview <- get (fun w => (GetConStatus w).2) ;;
  cur <- get (inV (ppView preprep)) ;;
  ifReturn (negb cur) None ;;
  rdy <- get Ready ;;
  ifReturn (negb rdy) (Some "being seletionleader  A22") ;;
  stored <- get (GetRequestFromStore digest) ;;
  when (bool_decide (stored = None)) (
    request <- deref (ppRequest preprep) ;;
    ifReturn (negb (bool_decide (rqSender request = cleader)) || (rqView request <? cview)%Z)
      (Some "req has wrong leader or view A24") ;;
    lastID <- get LastReqID ;;
    when (lastID <? ppReqID preprep)%Z (setLastReqID (ppReqID preprep)) ;;
    storeRequest digest request) ;;
  cBH <- get CurrentBlock ;;
  request <- deref (ppRequest preprep) ;;
  ifReturn (rqBlockHeight request <=? cBH)%Z (Some "preprep.Request block already onchain") ;;
  cert <- getCert (ppView preprep) (rqReqID request) ;;
  answered <- get (fun w => prePrepared digest (ppView preprep) (ppReqID preprep) w
                            && sentPrepare (certAt cert w)) ;;
  ifReturn answered None ;;
  storePrePrepare preprep request cert ;;
  pp <- get (prePrepared digest (ppView preprep) (ppReqID preprep)) ;;
  ifReturn (negb pp) None ;;
  stored <- get (GetRequestFromStore digest) ;;
  when (bool_decide (stored = None)) (
    ifReturn (negb (bool_decide (newhashReq request = digest))) None ;;
    storeRequest (newhashReq request) request) ;;
  block <- ensureBlock request ;;
  go_on <- get (fun w => prePrepared digest (ppView preprep) (ppReqID preprep) w
                         && negb (sentPrepare (certAt cert w))) ;;
  when go_on (answerPrePrepare preprep cert block))).

(** ** Prepares *)

Definition vrsign (vr : ValidResultForBlock) (w : worker) : ValidResultForBlock * bool :=
  (vr <| vrSign := nodeID w |>, true).

(** [commitStore] under its lock: record the height unless present, then forget
    the heights below the chain; the result tells whether it was present. *)
Definition recordCommit (height : Z) (hash : string) : H bool :=
  present <- get (fun w => bool_decide (is_Some (commitStore w !! height))) ;;
  when (negb present) (modify (fun w => w <| commitStore ::= <[height := hash]> |>)) ;;
  modify (fun w => w <| commitStore ::= filter (fun e => ¬ (e.1 < CurrentBlock w)%Z) |>) ;;
  ret present.

(** The body run when a request becomes prepared: validate, sign, record, and
    send the commit.  [sentErr] is the error text of the duplicate check. *)
Definition sendCommit (prep : Prepare) (req : Request) (cert : msgID) (sentErr : string) : H unit :=
  let reqHeight := rqBlockHeight req in
  cBH <- get CurrentBlock ;;
  ifReturn (reqHeight <=? cBH)%Z (Some "commit have sent") ;;
  pooled <- get (GetBlockFromPossibleValidBlock (rqBlockHeight req) (rqBlockHash req)) ;;
  let block := match pooled with Some b => Some b | None => rqRealblock req end in
  b <- deref block ;;
  exe <- get (getConsensusTxExes (prRequestDigest prep) (prView prep) (prReqID prep)) ;;
  let opnion := if is_valid b then match exe with Ok _ => true | Err _ => false end else false in
  w <- get id ;;
  let vr := {| vrSender := GetSelfNodeID w;
               vrBlockHeight := rqBlockHeight req;
               vrBlockHash := rqBlockHash req;
               vrBlockCreator := rqBlockCreator req;
               vrOpinion := opnion;
               vrSign := "" |} in
  let '(vr, signed) := vrsign vr w in
  ifReturn (negb signed) (Some "VR Sign Err") ;;
  let c := {| cmSender := GetSelfNodeID w;
              cmView := prView prep;
              cmTimestamp := clock w;
              cmReqID := prReqID prep;
              cmRequestDigest := prRequestDigest prep;
              cmVR := vr |} in
  ok <- recordCommit reqHeight (rqBlockHash req) ;;
  ifReturn ok (Some sentErr) ;;
  let cmsg := mkConsensusMsg (JCommit c) (clock w) "PBFTCommit" (GetSelfNodeID w) in
  updCert cert (fun c => c <| sentCommit := true |>) ;;
  post (EvConsensusMsg cmsg) ;;
  sleep (5 * second) ;;
  go (TRecvCommit c).

Definition isPrepared (prep : Prepare) (w : worker) : bool :=
  prepared (prRequestDigest prep) (prView prep) (prReqID prep) w.

Definition RecvPrepare (prep : Prepare) : H unit := recovering (func (
  cur <- get (inV (prView prep)) ;;
  ifReturn (negb cur) (Some "prepare view is not correct") ;;
  rdy <- get Ready ;;
  ifReturn (negb rdy) (Some "A31  being seletionleader") ;;
  cert <- getCert (prView prep) (prReqID prep) ;;
  preps <- get (fun w => prepare (certAt cert w)) ;;
  ifReturn (existsb (fun p => bool_decide (prSender p = prSender prep)) preps)
    (Some "A33  duplicate prepare msg  A1") ;;
  stored <- get (GetRequestFromStore (prRequestDigest prep)) ;;
  match stored with
  | None => return_ (Some "A34  do not have req")
  | Some req =>
      cBH <- get CurrentBlock ;;
      let reqHeight := rqBlockHeight req in
      ifReturn (reqHeight <=? cBH)%Z (Some "A35  preprep.Request block already onchain") ;;
      sent <- get (fun w => bool_decide (is_Some (commitStore w !! reqHeight))) ;;
      ifReturn sent (Some "A36  block commit have been sent a1.1") ;;
      done_ <- get (fun w => isPrepared prep w && sentCommit (certAt cert w)) ;;
      ifReturn done_ (Some "A37  has already prepared") ;;
      updCert cert (fun c => c <| prepare ::= (fun l => l ++ [prep]) |>) ;;
      reached <- get (fun w => isPrepared prep w && negb (sentCommit (certAt cert w))) ;;
      when reached (
        modify (fun w => if (preflag w =? 0)%Z then w <| preflag := 1%Z |> else w) ;;
        sendCommit prep req cert "block commit have been sent  a1.2") ;;
      sendConMsg_transfer2 prep "PBFTPrepare"
  end)).

Definition RecvPrepare_notTransfer (prep : Prepare) : H unit := recovering (func (
  cur <- get (inV (prView prep)) ;;
  ifReturn (negb cur) (Some "prepare view is not correct") ;;
  rdy <- get Ready ;;
  ifReturn (negb rdy) (Some "being seletionleader") ;;
  cert <- getCert (prView prep) (prReqID prep) ;;
  preps <- get (fun w => prepare (certAt cert w)) ;;
  let recved := existsb (fun p => bool_decide (prSender p = prSender prep)) preps in
  stored <- get (GetRequestFromStore (prRequestDigest prep)) ;;
  match stored with
  | None => return_ (Some "do not have req")
  | Some req =>
      cBH <- get CurrentBlock ;;
      let reqHeight := rqBlockHeight req in
      ifReturn (reqHeight <=? cBH)%Z (Some "preprep.Request block already onchain") ;;
      sent <- get (fun w => bool_decide (is_Some (commitStore w !! reqHeight))) ;;
      ifReturn sent (Some "block commit have been sent a1.3") ;;
      done_ <- get (fun w => isPrepared prep w && sentCommit (certAt cert w)) ;;
      ifReturn done_ (Some "has already prepared") ;;
      updCert cert (fun c => c <| prepare ::= (fun l => l ++ [prep]) |>) ;;
      reached <- get (fun w => isPrepared prep w && negb (sentCommit (certAt cert w))) ;;
      when reached (sendCommit prep req cert "block commit have been sent a1.4") ;;
      when (negb recved) (sendConMsg_transfer2 prep "PBFTPrepare")
  end)).

(** ** Commits *)

(** The chain step of a positively voted block. *)
Definition insertBlock (c : Commit) : H unit :=
  cBH <- get CurrentBlock ;;
  if (cBH <? vrBlockHeight (cmVR c))%Z then
    emit (InsertChainWithVRS c) ;;
    modify (fun w => if (CurrentBlock w <? vrBlockHeight (cmVR c))%Z
                     then w <| CurrentBlock := u64 (CurrentBlock w + 1) |> else w)
  else return_ None.

(** Announcing the end of the round and dropping its messages. *)
Definition finishRound (c : Commit) : H unit :=
  sleep (5 * second) ;;
  self <- get GetSelfNodeID ;;
  post (EvCheckpoint (mkCheckpoint self (vrBlockHeight (cmVR c)) (cmReqID c)
                        (vrBlockHash (cmVR c)))) ;;
  removeOldConMsg (cmReqID c).

Definition onCommitted (c : Commit) (cert : msgID) : H unit :=
  votesRes <- get (fun w => GetValidResFromCommit (certAt cert w) w) ;;
  stored <- get (GetRequestFromStore (cmRequestDigest c)) ;;
  match stored with
  | None => return_ (Some "cant get commit req")
  | Some req =>
      when (bool_decide (votesRes = possitive)) (
        rdy <- get Ready ;;
        ifReturn (negb rdy) (Some "being seletionleader") ;;
        insertBlock c ;;
        finishRound c) ;;
      when (bool_decide (votesRes = negative)) (finishRound c)
  end.

Definition RecvCommit (c : Commit) : H unit := recovering (func (
  cur <- get (inV (cmView c)) ;;
  ifReturn (negb cur) (Some "commit view is not correct") ;;
  rdy <- get Ready ;;
  ifReturn (negb rdy) (Some "being seletionleader") ;;
  cBH <- get CurrentBlock ;;
  ifReturn (vrBlockHeight (cmVR c) <=? cBH)%Z (Some "preprep.Request block already onchain") ;;
  cert <- getCert (cmView c) (cmReqID c) ;;
  prev <- get (fun w => commit (certAt cert w)) ;;
  ifReturn (existsb (fun p => bool_decide (cmSender p = cmSender c)) prev)
    (Some "duplicate commit msg") ;;
  updCert cert (fun ct => ct <| commit ::= (fun l => l ++ [c]) |>) ;;
  reached <- get (committed (cmRequestDigest c) (cmView c) (cmReqID c)) ;;
  when reached (onCommitted c cert) ;;
  sendConMsg_transfer3 c "PBFTCommit")).

(** ** Checkpoints *)

Definition RecvCheckpoint (chk : Checkpoint) : H unit :=
  deferred (setChkpt false) (func (
    updateLeaseBeat ;;
    let bn := ckBlockHeight chk in
    let bhash := ckBlockHash chk in
    seen <- get (fun w => bool_decide (is_Some (checkpointStore w !! bhash))) ;;
    ifReturn seen (Some "error") ;;
    updateCheckpointBH bn ;;
    cbn <- get CurrentBlock ;;
    ifReturn (bn <? cbn)%Z (Some "error") ;;
    modify cancelConsensus ;;
    DeletePVBAndBeats bn bhash ;;
    modify (fun w => w <| checkpointStore ::= <[bhash := bn]> |>) ;;
    modify (fun w => w <| checkpointStore ::= filter (fun e => ¬ (e.2 < cbn)%Z) |>) ;;
    sleep (1000 * millisecond))).
