(* ===== verification/Mining.v ===== *)
(** * eth: block building, expiry, start-up and the worker's step function

    [StartConsensus] of [src/eth/pbft-core.go] with the [worker.go] helpers it
    calls, one firing of [expirationLoop], [Initt] of [src/eth/star_up.go], and
    [runTask] and [handle], which name every handler a running node executes. *)

From stdpp Require Import base gmap strings list pretty.
From Stdlib Require Import ZArith Lia Ascii.
From S2P Require Import Prelude Common Types Worker Pbft.

(** The zero [time.Time] (1 January of year 1) on the nanosecond scale. *)
Definition zeroTime : Z := -62135596800000000000.

(** The package variable [currentblock]: nothing assigns it after start-up. *)
Definition currentblock (started : Z) : Block :=
  {| blNumber := 1; blValid := 1; blTimee := started; blHeader := None;
     blTxs := [None]; blUncles := [None]; blReceipt := [None] |}.

Definition ReturnCurrentBlock (w : worker) : Block := currentblock (startTime w).

(** Go's [string(i)] of an integer: the UTF-8 encoding of the code point (or of
    U+FFFD outside the valid range). *)
Definition utf8 (i : Z) : string :=
  let i := if (i <? 0)%Z || (1114111 <? i)%Z || ((55296 <=? i)%Z && (i <=? 57343)%Z)
           then 65533%Z else i in
  let cont k := (128 + (i / 64 ^ k) `mod` 64)%Z in
  string_of_bytes
    (if (i <? 128)%Z then [i]
     else if (i <? 2048)%Z then [(192 + i / 64)%Z; cont 0%Z]
     else if (i <? 65536)%Z then [(224 + i / 4096)%Z; cont 1%Z; cont 0%Z]
     else [(240 + i / 262144)%Z; cont 2%Z; cont 1%Z; cont 0%Z]).

(** [makeCurrent]: a fresh [Work] that shares the ring of the previous one. *)
Definition makeCurrent (header : Header) : H unit :=
  modify (fun w =>
    let ring := match current w with Some c => wkLocalMinedBlocks c | None => None end in
    w <| current := Some (zeroWork <| wkHeader := Some header |>
                                   <| wkCreatedAt := clock w |>
                                   <| wkLocalMinedBlocks := ring |>) |>).

Definition buildHeader (parent : Block) (w : worker) : Header :=
  let num := i64 (blNumber parent) in
  {| hdParentHash := BlockHash_of parent;
     hdNumber := Some (num + 1)%Z;
     hdCoinbase := coinbase w;
     hdExtra := extra w;
     hdTime := Some (clock w / second)%Z;
     hdChainName := chainName w;
     hdRoot := "" |}.

(** The block put together from [header], the single transaction and receipt. *)
Definition buildBlock (num : Z) (header : Header) : Block :=
  {| blNumber := u64 (num + 1);
     blValid := 0;
     blTimee := zeroTime;
     blHeader := Some header;
     blTxs := [Some (mkTransaction "dddd")];
     blUncles := [Some header];
     blReceipt := [Some (mkReceipt "receipt")] |}.

(** [isBlockLocallyMined]: clears the ring slot that holds the number. *)
Definition isBlockLocallyMined (ring : uint64RingBuffer) (deepBlockNum : Z)
  : bool * uint64RingBuffer :=
  match list_find (fun blockNum => deepBlockNum = blockNum) (ints ring) with
  | Some (idx, _) => (true, mkRing (<[idx := 0%Z]> (ints ring)) (next ring))
  | None => (false, ring)
  end.

(** [logLocalMinedBlocks]: the ring is shared with the worker's current work,
    which is [previous] again when this runs. *)
Definition logLocalMinedBlocks (nextBlockNum : Z) (ring : option uint64RingBuffer)
  (previous : option Work) : H unit :=
  match previous, ring with
  | Some prev, Some r =>
      pb <- deref (wkBlock prev) ;;
      let r' := foldl (fun r k =>
                   (isBlockLocallyMined r (u64 (blNumber pb + Z.of_nat k - miningLogAtDepth))).2)
                  r (seq 0 (Z.to_nat (nextBlockNum - blNumber pb))) in
      modify (fun w => w <| current ::= fmap (fun c => c <| wkLocalMinedBlocks := Some r' |>) |>)
  | _, _ => ret tt
  end.

(** [commitTransactions_parallel]: accepts everything. *)
Definition commitTransactions_parallel (txs : string) (objects_ExeSeqs dependency_TX : list Z)
  : bool := true.

(** Opening the consensus context, or refusing when one is live. *)
Definition openContext : H unit :=
  ctx <- get consensusCtx ;;
  match ctx with
  | CtxLive => return_ (Some "error")
  | _ => modify (fun w => w <| consensusCtx := CtxLive |>)
  end.

Definition mineBlock : H unit :=
  openContext ;;
  modify (fun w => w <| mining := true |>) ;;
  w <- get id ;;
  let parent := ReturnCurrentBlock w in
  let num := i64 (blNumber parent) in
  let header := buildHeader parent w in
  previous <- get current ;;
  makeCurrent header ;;
  work <- get current ;;
  let '(multiVTxs, multiVTxs2) := TxPool in
  let '(txs, txs2) := multiVSelectWithLimit2 multiVTxs multiVTxs2 in
  let '(committedSet, objects_ExeSeqs, dependency_TX) := TxDependency "没用" txs txs2 in
  let _ := commitTransactions_parallel committedSet objects_ExeSeqs dependency_TX in
  let header := header <| hdRoot := utf8 (num + 1) +:+ hdParentHash header |> in
  let block := buildBlock num header in
  PutPVBAndBeats (Some block) ;;
  modify (fun w => w <| current := previous |>) ;;
  SendRequest block "随便" ;;
  modify (fun w => w <| mining := false |>) ;;
  logLocalMinedBlocks (blNumber block)
    (match work with Some c => wkLocalMinedBlocks c | None => None end) previous.

Definition StartConsensus : H unit := func (
  txNum <- get txNum_startconsens ;;
  when (0 <? txNum)%Z (
    let count := Z.of_nat (length TxPool.1) in
    when (count <? txNum)%Z (
      modify (fun w => w <| hasUnDealTxs := true |>) ;;
      return_ (Some "error"))) ;;
  can <- get CanMining ;;
  if can then mineBlock
  else modify (fun w => w <| hasUnDealTxs := true |>)).

(** One firing of the timer of [expirationLoop]: [ord] is the iteration order of
    [blockbeats]; the accumulator carries [isExpire]. *)
Definition expireStep (acc : bool * worker) (e : string * Z) : bool * worker :=
  let '(isExpire, w) := acc in
  let '(blockid, beat) := e in
  if (maxConsensusLifetime w <? clock w - beat)%Z then
    let expired := match getPossibleBHByHash blockid w with
                   | Ok bh => (bh =? u64 (CurrentBlock w + 1))%Z
                   | Err _ => false
                   end in
    (isExpire || expired, (deletePVBAndBeatsByHash blockid w).2)
  else acc.

Definition expirationTick : H unit := modify (fun w =>
  let '(isExpire, w') := foldl expireStep (false, w) (map_to_list (blockbeats w)) in
  if isExpire then cancelConsensus w' else w').

(** [randomwait_StartConsensus]: after the timer, a new consensus attempt. *)
Definition randomwait_StartConsensus (num : Z) : H unit := go TStartConsensus.

(** ** Start-up *)

Record Config := mkConfig { Myport : string; Peersnum : Z; Peers : list string }.

(** [Initt] on the zero worker; [Con.Peers[0]] panics on an empty list. *)
Definition Initt (con : Config) (started now : Z) : option worker :=
  match Peers con with
  | [] => None
  | p0 :: _ =>
      Some {| nodeID := "127.0.0.1" +:+ Myport con;
              numN := Peersnum con;
              leader := "127.0.0.1" +:+ p0;
              view := 1;
              ready := true;
              activeView := false;
              LastReqID := 1;
              CurrentBlock := 1;
              mining := false;
              txNum_startconsens := 0;
              hasUnDealTxs := false;
              coinbase := replicate AddressLength 0%Z;
              extra := "";
              chainName := "";
              current := Some zeroWork;
              reqStore := ∅;
              certStore := ∅;
              selfCheckpointStore := ∅;
              possibleValidBlock := ∅;
              blockbeats := ∅;
              chkpt := false;
              commitStore := ∅;
              checkpointStore := ∅;
              checkpointBH := 0;
              leaseBeat := started;
              consensusCtx := CtxNil;
              prepreflag := 0;
              preflag := 0;
              maxConsensusLifetime := (40 * second)%Z;
              evictionInterval := (60 * second)%Z;
              startTime := started;
              clock := now;
              out := [] |}
  end.

(** ** Everything a node runs *)

(** A started goroutine. *)
Definition runTask (t : task) : H unit :=
  match t with
  | TRecvRequest r => RecvRequest r
  | TRecvPrePrepare p => RecvPrePrepare p
  | TRecvPrepare p => RecvPrepare p
  | TRecvPrepare_notTransfer p => RecvPrepare_notTransfer p
  | TRecvCommit c => RecvCommit c
  | TStartConsensus => StartConsensus
  | TSyncConStatus => SyncConStatus
  end.

(** ** Inputs *)

(** What makes a replica take a step: a started goroutine or a message that
    [handleMsg] hands to a handler ([InTask]), a checkpoint message, the expiry
    timer, the passing of time, and a proposal of a block through [SendRequest]
    by the leader ([StartConsensus] is the proposal of the next block). *)
Inductive input :=
| InTask (t : task)
| InCheckpoint (c : Checkpoint)
| InExpire
| InClock (t : Z)
| InPropose (b : Block) (text : string).

Definition handle (i : input) : H unit :=
  match i with
  | InTask t => runTask t
  | InCheckpoint c => RecvCheckpoint c
  | InExpire => expirationTick
  | InClock t => modify (fun w => w <| clock := t |>)
  | InPropose b s => fun w => if ISLeader w then SendRequest b s w else (Val tt, w)
  end.

Definition run (l : list input) (w : worker) : worker := foldl (fun w i => (handle i w).2) w l.
