(* ===== verification/Scenario.v ===== *)
(** * eth: a concrete consensus round

    The messages of one normal round among four nodes, as a replica sees them;
    the inputs at which the theorems of the replica and of the cluster are
    instantiated. *)

From stdpp Require Import base gmap strings list.
From Stdlib Require Import ZArith Lia.
From S2P Require Import Prelude Common Types Worker Pbft Mining.

Definition demoPeers : list string := [":3000"; ":3001"; ":3002"; ":3003"].
Definition demoName (port : string) : string := "127.0.0.1" +:+ port.
Definition demoNodes : list string := map demoName demoPeers.
Definition demoConfig (port : string) : Config := mkConfig port 4 demoPeers.

(** The state of a node after [Initt]; the leader is the first peer. *)
Definition demoNode (port : string) : worker :=
  match Initt (demoConfig port) 0 0 with
  | Some w => w
  | None => mkWorker "" 0 "" 0 false false 0 0 false 0 false [] "" "" None ∅ ∅ ∅ ∅ ∅ false ∅ ∅ 0 0
              CtxNil 0 0 0 0 0 0 []
  end.

Definition demoBlock : Block := buildBlock 1 (buildHeader (currentblock 0) (demoNode ":3000")).

Definition demoRequest : Request :=
  mkRequest 2 (demoName ":3000") 1 0 2 "2" (HexToAddress (demoName ":3000")) "" (Some demoBlock).

Definition demoPrePrepare : PrePrepare :=
  mkPrePrepare (demoName ":3000") 1 0 2 "2" (Some demoRequest).

Definition demoExe : TxsExeSequences :=
  let '(_, a, b) := Transactions (Some demoBlock) in mkTxsExeSequences a b.

Definition demoPrepare (sender : string) : Prepare :=
  mkPrepare sender 1 0 2 "2" (Tostring_txsExe demoExe) (Some demoExe).

Definition demoCommit (sender : string) : Commit :=
  mkCommit sender 1 0 2 "2" (mkVR sender 2 "2" (rqBlockCreator demoRequest) true sender).

(** A replica's view of the round: the pre-prepare, then the prepares and the
    commits of three of the four nodes. *)
Definition demoPrefix : list input :=
  InTask (TRecvPrePrepare demoPrePrepare)
  :: map (fun n => InTask (TRecvPrepare (demoPrepare n))) (take 3 demoNodes).

Definition demoRound : list input :=
  demoPrefix ++ map (fun n => InTask (TRecvCommit (demoCommit n))) (take 3 demoNodes).

Example demoNode_init : Initt (demoConfig ":3001") 0 0 = Some (demoNode ":3001").
Proof. reflexivity. Qed.
