(* ===== verification/Quorum.v ===== *)
(** * eth: quorum sizes and vote counting

    What [getQuorum], [getElectionQuorum], [committed]'s counter,
    [GetValidResFromCommit] and [getConsensusTxExes] ([src/eth/pbft-core_basic.go])
    guarantee: quorum intersection and availability, counting of distinct
    senders, finality of votes, independence of map iteration order. *)

From stdpp Require Import base gmap strings list sets fin_sets.
From Stdlib Require Import ZArith Lia.
From S2P Require Import Prelude Common Types Worker Pbft Mining Scenario.

(** ** Quorum arithmetic *)

(** The number of faulty nodes PBFT is designed for. *)
Definition maxFaulty (n : Z) : Z := ((n - 1) / 3)%Z.

Lemma quorumOf_spec n : (2 ≤ n)%Z →
  (n + maxFaulty n + 1 ≤ 2 * quorumOf n ∧ quorumOf n ≤ n - maxFaulty n ∧ 1 ≤ quorumOf n)%Z.
Proof.
  intros Hn. unfold quorumOf, maxFaulty.
  replace (n =? 0)%Z with false by lia. replace (n <? 2)%Z with false by lia. simpl.
  destruct (Z.eqb_spec n 2) as [->|]; [done|].
  destruct (Z.eqb_spec n 3) as [->|]; [done|].
  rewrite Z.quot_div_nonneg by lia.
  pose proof (Z.div_mod n 3 ltac:(lia)). pose proof (Z.mod_pos_bound n 3 ltac:(lia)).
  pose proof (Z.div_mod (n - 1) 3 ltac:(lia)). pose proof (Z.mod_pos_bound (n - 1) 3 ltac:(lia)).
  lia.
Qed.

Lemma electionQuorumOf_majority n : (2 ≤ n)%Z →
  (n < 2 * electionQuorumOf n ∧ electionQuorumOf n ≤ n)%Z.
Proof.
  intros Hn. unfold electionQuorumOf.
  replace (n =? 0)%Z with false by lia. replace (n <? 2)%Z with false by lia. simpl.
  destruct (Z.eqb_spec n 2) as [->|]; [done|].
  destruct (Z.eqb_spec n 3) as [->|]; [done|].
  rewrite Z.quot_div_nonneg by lia.
  pose proof (Z.div_mod n 2 ltac:(lia)). pose proof (Z.mod_pos_bound n 2 ltac:(lia)). lia.
Qed.

(** Inclusion-exclusion for two subsets of a finite set. *)
Lemma size_intersection_lower (X Y nodes : gset string) :
  X ⊆ nodes → Y ⊆ nodes → (size X + size Y ≤ size nodes + size (X ∩ Y))%nat.
Proof.
  intros HX HY.
  assert (size (X ∪ Y) + size (X ∩ Y) = size X + size Y)%nat as Hie.
  { assert (Y ≡ (Y ∖ X) ∪ (X ∩ Y)) as HY'.
    { intros x. destruct (decide (x ∈ X)); set_solver. }
    assert (size Y = size (Y ∖ X) + size (X ∩ Y))%nat as HsY.
    { rewrite HY' at 1. apply size_union. set_solver. }
    assert (size (X ∪ Y) = size X + size (Y ∖ X))%nat as HsU.
    { rewrite <- size_union by set_solver.
      f_equal. apply set_eq. intros x. destruct (decide (x ∈ X)); set_solver. }
    lia. }
  pose proof (subseteq_size (X ∪ Y) nodes ltac:(set_solver)). lia.
Qed.

(** ** Distinct senders *)

Definition commitSenders (v reqID : Z) (l : list Commit) : gset string :=
  list_to_set (cmSender <$> List.filter (commitMatches v reqID) l).

Lemma pair_size_eq (X Y : gset string) :
  X = Y → (X, Z.of_nat (size X)) = (Y, Z.of_nat (size Y)).
Proof. by intros ->. Qed.

Lemma commitStep_fold v reqID l seen :
  foldl (commitStep v reqID) (seen, Z.of_nat (size seen)) l
  = (seen ∪ commitSenders v reqID l, Z.of_nat (size (seen ∪ commitSenders v reqID l))).
Proof.
  revert seen. induction l as [|c l IH]; intros seen.
  { unfold commitSenders. simpl. by rewrite union_empty_r_L. }
  unfold commitSenders in *. simpl.
  destruct (commitMatches v reqID c); simpl; [|apply IH].
  case_bool_decide as Hin.
  - rewrite IH. apply pair_size_eq. set_solver.
  - replace (Z.of_nat (size seen) + 1)%Z with (Z.of_nat (size ({[cmSender c]} ∪ seen))).
    + rewrite IH. apply pair_size_eq. set_solver.
    + rewrite size_union, size_singleton by set_solver. lia.
Qed.

(** The counter of [committed] is the number of distinct senders. *)
Lemma commitCount_senders v reqID l :
  commitCount v reqID l = Z.of_nat (size (commitSenders v reqID l)).
Proof.
  unfold commitCount. pose proof (commitStep_fold v reqID l ∅) as Hf.
  rewrite size_empty in Hf. change (Z.of_nat 0) with 0%Z in Hf. rewrite Hf. simpl.
  by rewrite union_empty_l_L.
Qed.

(** ** Votes *)

(** The first commit of each sender, in arrival order: what the vote loop counts. *)
Fixpoint firstVotes (seen : gset string) (l : list Commit) : list Commit :=
  match l with
  | [] => []
  | c :: l' => if bool_decide (cmSender c ∈ seen) then firstVotes seen l'
               else c :: firstVotes ({[cmSender c]} ∪ seen) l'
  end.

Definition positives (l : list Commit) : Z :=
  Z.of_nat (length (List.filter (fun c => vrOpinion (cmVR c)) l)).

Lemma positives_cons c l :
  positives (c :: l) = ((if vrOpinion (cmVR c) then 1 else 0) + positives l)%Z.
Proof. unfold positives. simpl. destruct (vrOpinion (cmVR c)); simpl; lia. Qed.

Lemma positives_app l1 l2 : positives (l1 ++ l2) = (positives l1 + positives l2)%Z.
Proof. unfold positives. rewrite List.filter_app, length_app. lia. Qed.

Lemma positives_bound l : (0 ≤ positives l ≤ Z.of_nat (length l))%Z.
Proof.
  unfold positives. pose proof (List.filter_length_le (fun c => vrOpinion (cmVR c)) l). lia.
Qed.

Lemma tally_eq (X Y : gset string) (a b c a' b' c' : Z) :
  X = Y → a = a' → b = b' → c = c' → (X, a, b, c) = (Y, a', b', c').
Proof. by intros -> -> -> ->. Qed.

Lemma voteStep_fold l seen all poss neg :
  foldl voteStep (seen, all, poss, neg) l
  = (seen ∪ list_to_set (cmSender <$> l),
     (all + Z.of_nat (length (firstVotes seen l)))%Z,
     (poss + positives (firstVotes seen l))%Z,
     (neg + (Z.of_nat (length (firstVotes seen l)) - positives (firstVotes seen l)))%Z).
Proof.
  revert seen all poss neg. induction l as [|c l IH]; intros seen all poss neg; simpl.
  { unfold positives. simpl. apply tally_eq; [set_solver|lia..]. }
  case_bool_decide as Hin.
  { rewrite IH. apply tally_eq; [set_solver|lia..]. }
  destruct (vrOpinion (cmVR c)) eqn:Ho; rewrite IH, positives_cons, Ho; simpl;
    (apply tally_eq; [set_solver|lia..]).
Qed.

Lemma firstVotes_senders seen l :
  NoDup (cmSender <$> firstVotes seen l) ∧
  (∀ c, c ∈ firstVotes seen l → c ∈ l ∧ cmSender c ∉ seen).
Proof.
  revert seen. induction l as [|c l IH]; intros seen; simpl.
  { split; [constructor|]. set_solver. }
  case_bool_decide as Hin; [destruct (IH seen); set_solver|].
  destruct (IH ({[cmSender c]} ∪ seen)) as [Hnd Hsub]. split; [|set_solver].
  simpl. constructor; [|done].
  intros (c' & Heq & Hc')%list_elem_of_fmap. apply Hsub in Hc'. set_solver.
Qed.

Lemma firstVotes_app seen l1 l2 :
  firstVotes seen (l1 ++ l2)
  = firstVotes seen l1 ++ firstVotes (seen ∪ list_to_set (cmSender <$> l1)) l2.
Proof.
  revert seen. induction l1 as [|c l1 IH]; intros seen; simpl; [by rewrite union_empty_r_L|].
  case_bool_decide; rewrite IH; simpl; [|f_equal]; (f_equal; f_equal; apply set_eq; set_solver).
Qed.

(** The tally of a commit list: votes cast and positive votes. *)
Definition castVotes (l : list Commit) : Z := Z.of_nat (length (firstVotes ∅ l)).
Definition posVotes (l : list Commit) : Z := positives (firstVotes ∅ l).

Lemma GetValidResFromCommit_tally cert w :
  GetValidResFromCommit cert w =
  if (getQuorum w <=? posVotes (commit cert))%Z then possitive
  else if (getQuorum w <=? posVotes (commit cert) + (numN w - castVotes (commit cert)))%Z
       then futurePossitive else negative.
Proof.
  unfold GetValidResFromCommit, countVotes, getCurrentCSNum, posVotes, castVotes.
  rewrite voteStep_fold. by rewrite !Z.add_0_l.
Qed.

Lemma posVotes_app l more : (posVotes l ≤ posVotes (l ++ more))%Z.
Proof.
  unfold posVotes. rewrite firstVotes_app, positives_app.
  pose proof (positives_bound (firstVotes (∅ ∪ list_to_set (cmSender <$> l)) more)). lia.
Qed.

Lemma posVotes_castVotes_app l more :
  (posVotes (l ++ more) - castVotes (l ++ more) ≤ posVotes l - castVotes l)%Z.
Proof.
  unfold posVotes, castVotes. rewrite firstVotes_app, positives_app, length_app.
  pose proof (positives_bound (firstVotes (∅ ∪ list_to_set (cmSender <$> l)) more)). lia.
Qed.

(** Votes of distinct members of a node set are at most as many as the nodes. *)
Lemma castVotes_bound (nodes : gset string) l :
  (∀ c, c ∈ l → cmSender c ∈ nodes) → (castVotes l ≤ Z.of_nat (size nodes))%Z.
Proof.
  intros Hsub. unfold castVotes. destruct (firstVotes_senders ∅ l) as [Hnd Hin].
  rewrite <- (length_fmap cmSender), <- (size_list_to_set (C:=gset string)) by done.
  apply inj_le, subseteq_size. intros x. rewrite elem_of_list_to_set.
  intros (c & -> & Hc)%list_elem_of_fmap. apply Hsub, Hin, Hc.
Qed.

Lemma getQuorum_pos w : (1 ≤ getQuorum w)%Z.
Proof.
  unfold getQuorum. destruct (decide (2 ≤ numN w)%Z) as [Hn|Hn].
  - by apply quorumOf_spec.
  - unfold quorumOf. replace (numN w <? 2)%Z with true by lia. by rewrite orb_true_r.
Qed.

(** ** Agreement on the transaction sequence *)

Definition txMatches (digest : string) (v reqID : Z) (txt : string) (p : Prepare) : bool :=
  prepareMatches digest v reqID p && bool_decide (prTxsExeSeqs p = txt).

Lemma txExeCounts_lookup digest v reqID l txt :
  txt ≠ "" →
  default 0%Z (txExeCounts digest v reqID l !! txt)
  = Z.of_nat (length (List.filter (txMatches digest v reqID txt) l)).
Proof.
  intros Htxt. induction l as [|p l IH] using rev_ind; [done|].
  unfold txExeCounts in *. rewrite foldl_app, List.filter_app, length_app, Nat2Z.inj_add, <- IH.
  simpl. unfold txExeStep, txMatches. destruct (prepareMatches digest v reqID p); simpl; [|lia].
  case_bool_decide as Hp; simpl; [rewrite bool_decide_eq_false_2 by congruence; simpl; lia|].
  destruct (decide (prTxsExeSeqs p = txt)) as [->|Hne].
  - rewrite lookup_insert_eq, bool_decide_eq_true_2 by done. simpl. lia.
  - rewrite lookup_insert_ne, bool_decide_eq_false_2 by done. simpl. lia.
Qed.

Lemma txExeCounts_key digest v reqID l txt n :
  txExeCounts digest v reqID l !! txt = Some n → txt ≠ "".
Proof.
  revert txt n. induction l as [|p l IH] using rev_ind; [done|]. intros txt n.
  unfold txExeCounts in *. rewrite foldl_app. simpl. unfold txExeStep.
  destruct (prepareMatches _ _ _ p); [|apply IH].
  case_bool_decide; [apply IH|]. simpl.
  rewrite lookup_insert_Some. intros [[<- _]|[_ Hl]]; [done|by eapply IH].
Qed.

Lemma filter_disjoint_length {A} (f g h : A → bool) l :
  (∀ x, f x = true → h x = true ∧ g x = false) → (∀ x, g x = true → h x = true) →
  (length (List.filter f l) + length (List.filter g l) ≤ length (List.filter h l))%nat.
Proof.
  intros Hf Hg. induction l as [|x l IH]; [done|]. simpl.
  destruct (f x) eqn:Ef; destruct (g x) eqn:Eg; destruct (h x) eqn:Eh; simpl; try lia.
  - by destruct (Hf x Ef); congruence.
  - by destruct (Hf x Ef); congruence.
  - by destruct (Hf x Ef); congruence.
  - by rewrite (Hg x Eg) in Eh.
Qed.

(** Two different texts cannot both have more than half of the prepares. *)
Lemma txExeCounts_exclusive digest v reqID l t1 t2 n1 n2 :
  txExeCounts digest v reqID l !! t1 = Some n1 → txExeCounts digest v reqID l !! t2 = Some n2 →
  t1 ≠ t2 → (n1 + n2 ≤ prepareCount digest v reqID l)%Z.
Proof.
  intros H1 H2 Hne.
  pose proof (txExeCounts_lookup digest v reqID l t1 (txExeCounts_key _ _ _ _ _ _ H1)) as L1.
  pose proof (txExeCounts_lookup digest v reqID l t2 (txExeCounts_key _ _ _ _ _ _ H2)) as L2.
  rewrite H1 in L1. rewrite H2 in L2. simpl in *. unfold prepareCount.
  enough (length (List.filter (txMatches digest v reqID t1) l)
          + length (List.filter (txMatches digest v reqID t2) l)
          ≤ length (List.filter (prepareMatches digest v reqID) l))%nat by lia.
  unfold txMatches. apply filter_disjoint_length; intros p.
  - intros [? Ht%bool_decide_eq_true]%andb_true_iff. split; [done|].
    rewrite bool_decide_eq_false_2 by congruence. apply andb_false_r.
  - by intros [? _]%andb_true_iff.
Qed.

(** The selection loop finds a maximal entry. *)
Lemma bestStep_fold ord acc :
  let best := foldl bestStep acc ord in
  (acc.1 ≤ best.1)%Z ∧ (∀ e, e ∈ ord → (e.2 ≤ best.1)%Z) ∧ (best = acc ∨ (best.2, best.1) ∈ ord).
Proof.
  revert acc. induction ord as [|e ord IH]; intros acc; simpl; [set_solver by lia|].
  destruct (IH (bestStep acc e)) as (H1 & H2 & H3). unfold bestStep in *.
  destruct (Z.ltb_spec acc.1 e.2) as [Hlt|Hge]; simpl in *.
  - split; [lia|]. split; [intros e' [->|He']%elem_of_cons; [lia|by apply H2]|].
    right. destruct H3 as [->|H3]; [|set_solver]. simpl. destruct e. set_solver.
  - split; [lia|]. split; [intros e' [->|He']%elem_of_cons; [lia|by apply H2]|].
    destruct H3 as [->|H3]; [by left|set_solver].
Qed.

(** ** Theorems *)

(** C9. Quorum intersection: among [N >= 2] nodes, any two sets of at least
    [getQuorum] nodes share at least [f + 1] nodes, where [f = (N - 1) / 3] is the
    number of faulty nodes PBFT tolerates. *)
Theorem quorums_intersect (nodes X Y : gset string) (w : worker) :
  numN w = Z.of_nat (size nodes) → (2 ≤ numN w)%Z →
  X ⊆ nodes → Y ⊆ nodes →
  (getQuorum w ≤ Z.of_nat (size X))%Z → (getQuorum w ≤ Z.of_nat (size Y))%Z →
  (maxFaulty (numN w) + 1 ≤ Z.of_nat (size (X ∩ Y)))%Z.
Proof.
  intros HN Hn HX HY HqX HqY. unfold getQuorum in *.
  pose proof (quorumOf_spec _ Hn). pose proof (size_intersection_lower X Y nodes HX HY). lia.
Qed.

(** Availability and majority: with [N >= 2] nodes of which [f = (N - 1) / 3] are
    silent, the remaining nodes still form a quorum, and the election quorum is a
    strict majority that all nodes together reach. *)
Theorem quorum_available (w : worker) :
  (2 ≤ numN w)%Z →
  (1 ≤ getQuorum w ≤ numN w - maxFaulty (numN w))%Z ∧
  (numN w < 2 * getElectionQuorum w)%Z ∧ (getElectionQuorum w ≤ numN w)%Z.
Proof.
  intros Hn. pose proof (quorumOf_spec _ Hn). pose proof (electionQuorumOf_majority _ Hn).
  unfold getQuorum, getElectionQuorum. lia.
Qed.

(** [committed] holds exactly when the request is prepared and the commits stored
    for its view and id come from at least a quorum of distinct senders. *)
Theorem committed_iff (digest : string) (v reqID : Z) (w : worker) :
  committed digest v reqID w = true ↔
  prepared digest v reqID w = true ∧
  ∃ cert, certStore w !! (v, reqID) = Some cert ∧
          (getQuorum w ≤ Z.of_nat (size (commitSenders v reqID (commit cert))))%Z.
Proof.
  unfold committed. destruct (prepared digest v reqID w); simpl; [|naive_solver].
  destruct (certStore w !! (v, reqID)) as [cert|]; [|naive_solver].
  rewrite Z.leb_le, commitCount_senders. naive_solver.
Qed.

(** A vote is final: once [GetValidResFromCommit] answers positive or negative for
    a certificate whose senders are nodes, no further commits of nodes change the
    answer. *)
Theorem vote_final (nodes : gset string) (w : worker) (cert : msgCert) (more : list Commit) :
  numN w = Z.of_nat (size nodes) →
  (∀ c, c ∈ commit cert ++ more → cmSender c ∈ nodes) →
  GetValidResFromCommit cert w ≠ futurePossitive →
  GetValidResFromCommit (cert <| commit := commit cert ++ more |>) w
  = GetValidResFromCommit cert w.
Proof.
  intros HN Hsub. rewrite !GetValidResFromCommit_tally. simpl.
  pose proof (posVotes_app (commit cert) more). pose proof (posVotes_castVotes_app (commit cert) more).
  pose proof (castVotes_bound nodes _ Hsub).
  repeat case_match; try congruence; lia.
Qed.

(** The result of [getConsensusTxExes] does not depend on Go's map iteration
    order when the matching prepares are fewer than two quorums (one prepare per
    node): whatever order [ord] the counts are visited in, the same text, or the
    same error, comes out. *)
Theorem getConsensusTxExes_order (digest : string) (v reqID : Z) (w : worker) (cert : msgCert)
    (ord : list (string * Z)) :
  certStore w !! (v, reqID) = Some cert →
  (prepareCount digest v reqID (prepare cert) < 2 * getQuorum w)%Z →
  ord ≡ₚ map_to_list (txExeCounts digest v reqID (prepare cert)) →
  getConsensusTxExesIn ord (getQuorum w) = getConsensusTxExes digest v reqID w.
Proof.
  intros Hc Hlt Hperm. unfold getConsensusTxExes. rewrite Hc. unfold getConsensusTxExesIn.
  set (m := txExeCounts digest v reqID (prepare cert)) in *.
  pose proof (bestStep_fold ord (0%Z, "")) as (_ & Hle1 & Hin1).
  pose proof (bestStep_fold (map_to_list m) (0%Z, "")) as (_ & Hle2 & Hin2).
  pose proof (getQuorum_pos w) as Hq.
  destruct (foldl bestStep (0%Z, "") ord) as [c1 e1].
  destruct (foldl bestStep (0%Z, "") (map_to_list m)) as [c2 e2]. simpl in *.
  assert (getQuorum w ≤ c1 → (e1, c1) ∈ map_to_list m)%Z as K1.
  { intros ?. rewrite <- Hperm. destruct Hin1; [simplify_eq; lia|done]. }
  assert (getQuorum w ≤ c2 → (e2, c2) ∈ map_to_list m)%Z as K2.
  { intros ?. destruct Hin2; [simplify_eq; lia|done]. }
  destruct (Z.leb_spec (getQuorum w) c1) as [G1|G1];
    destruct (Z.leb_spec (getQuorum w) c2) as [G2|G2]; simpl; try done.
  - f_equal. destruct (decide (e1 = e2)) as [|Hne]; [done|exfalso].
    specialize (K1 G1). specialize (K2 G2). rewrite elem_of_map_to_list in K1, K2.
    pose proof (txExeCounts_exclusive _ _ _ _ _ _ _ _ K1 K2 Hne). lia.
  - specialize (Hle2 _ (K1 G1)). simpl in Hle2. lia.
  - specialize (K2 G2). rewrite <- Hperm in K2. specialize (Hle1 _ K2). simpl in Hle1. lia.
Qed.

(** ** Instances *)

Definition demoNodeSet : gset string := list_to_set demoNodes.

Lemma quorums_intersect_witness :
  (maxFaulty 4 + 1 ≤ Z.of_nat (size (list_to_set (take 3 demoNodes) ∩ list_to_set (drop 1 demoNodes)
                                     : gset string)))%Z.
Proof.
  apply (quorums_intersect demoNodeSet _ _ (demoNode ":3000"));
    [reflexivity|done|apply (bool_decide_unpack _); vm_compute; reflexivity..].
Defined.

Lemma quorum_available_witness : (1 ≤ getQuorum (demoNode ":3000") ≤ 3)%Z.
Proof. apply (quorum_available (demoNode ":3000")). done. Defined.

Lemma vote_final_witness :
  GetValidResFromCommit
    (mkMsgCert None false [] false (map demoCommit (take 3 demoNodes) ++ [demoCommit (demoName ":3003")])
       false false false) (demoNode ":3000") = possitive.
Proof.
  etrans.
  - apply (vote_final demoNodeSet (demoNode ":3000")
      (mkMsgCert None false [] false (map demoCommit (take 3 demoNodes)) false false false)
      [demoCommit (demoName ":3003")]).
    + reflexivity.
    + apply Forall_forall, (bool_decide_unpack _). vm_compute. reflexivity.
    + vm_compute. discriminate.
  - vm_compute. reflexivity.
Defined.

Lemma getConsensusTxExes_order_witness :
  let w := run demoPrefix (demoNode ":3001") in
  getConsensusTxExesIn [(Tostring_txsExe demoExe, 3%Z)] (getQuorum w)
  = getConsensusTxExes "2" 1 2 w.
Proof.
  apply (getConsensusTxExes_order "2" 1 2 _ (certAt (1, 2)%Z (run demoPrefix (demoNode ":3001")))).
  - vm_compute. reflexivity.
  - vm_compute. reflexivity.
  - vm_compute. reflexivity.
Defined.
