(* ===== verification/Pool.v ===== *)
(** * eth: the pool of possibly valid blocks

    The invariant of [possibleValidBlock] and [blockbeats] and what the pool
    operations of [src/eth/pbft-core_basic.go] and the expiry loop of
    [src/eth/pbft-core.go] do to them. *)

From stdpp Require Import base gmap strings list.
From Stdlib Require Import ZArith Lia.
From S2P Require Import Prelude Common Types Worker Pbft Mining Scenario.

(** ** Invariant

    Blocks are filed under their own height and hash, no inner map is empty, and
    every recorded time belongs to a pooled block. *)

Definition inPool (w : worker) (hash : string) : Prop :=
  ∃ bn blocks, possibleValidBlock w !! bn = Some blocks ∧ is_Some (blocks !! hash).

Definition filed (bn : Z) (blocks : gmap string Block) : Prop :=
  is_u64 bn ∧ blocks ≠ ∅ ∧ ∀ h b, blocks !! h = Some b → blNumber b = bn ∧ h = BlockHash_of b.

Record poolWF (w : worker) : Prop := mkPoolWF {
  wf_filed : map_Forall filed (possibleValidBlock w);
  wf_beats : ∀ h, is_Some (blockbeats w !! h) → inPool w h }.

(** A hash determines the height it is filed under. *)
Lemma poolWF_height w h bn1 bl1 bn2 bl2 :
  poolWF w →
  possibleValidBlock w !! bn1 = Some bl1 → is_Some (bl1 !! h) →
  possibleValidBlock w !! bn2 = Some bl2 → is_Some (bl2 !! h) → bn1 = bn2.
Proof.
  intros [Hf _] H1 [b1 Hb1] H2 [b2 Hb2].
  destruct (Hf _ _ H1) as (Hr1 & _ & Hh1). destruct (Hf _ _ H2) as (Hr2 & _ & Hh2).
  destruct (Hh1 _ _ Hb1) as [<- E1]. destruct (Hh2 _ _ Hb2) as [<- E2].
  apply Itoa_i64_inj; [done..|]. unfold BlockHash_of in *. congruence.
Qed.

(** Under the invariant an inner map has exactly one block. *)
Lemma filed_singleton bn blocks h :
  filed bn blocks → is_Some (blocks !! h) → delete h blocks = ∅.
Proof.
  intros (_ & _ & Hh) [b Hb]. apply map_eq. intros h'. rewrite lookup_empty.
  destruct (decide (h = h')) as [->|Hne]; [by rewrite lookup_delete_eq|].
  rewrite lookup_delete_ne by done.
  destruct (blocks !! h') as [b'|] eqn:Hb'; [|done].
  destruct (Hh _ _ Hb) as [En ->]. destruct (Hh _ _ Hb') as [En' ->].
  unfold BlockHash_of in *. congruence.
Qed.

(** [findHash] in any iteration order. *)
Lemma findHash_Some hash ord e :
  findHash hash ord = Some e → e ∈ ord ∧ is_Some (e.2 !! hash).
Proof.
  unfold findHash. intros ([i e'] & Hf & ->)%fmap_Some.
  apply list_find_Some in Hf as (Hl & HP & _). split; [|done].
  by eapply list_elem_of_lookup_2.
Qed.

Lemma findHash_None hash ord e :
  findHash hash ord = None → e ∈ ord → e.2 !! hash = None.
Proof.
  unfold findHash. intros Hf%fmap_None He. apply list_find_None in Hf.
  rewrite Forall_forall in Hf. apply eq_None_not_Some. by apply Hf.
Qed.

(** Whatever the order, the entry found is the one the pool files the hash under. *)
Lemma findHash_pool w hash ord :
  poolWF w → ord ≡ₚ map_to_list (possibleValidBlock w) →
  findHash hash ord = findHash hash (map_to_list (possibleValidBlock w)).
Proof.
  intros Hwf Hp.
  destruct (findHash hash ord) as [[bn1 bl1]|] eqn:E1;
    destruct (findHash hash (map_to_list _)) as [[bn2 bl2]|] eqn:E2; [|exfalso..|done].
  - apply findHash_Some in E1 as [M1 S1]. apply findHash_Some in E2 as [M2 S2].
    rewrite Hp in M1. rewrite elem_of_map_to_list in M1, M2. simpl in *.
    pose proof (poolWF_height w hash _ _ _ _ Hwf M1 S1 M2 S2). congruence.
  - apply findHash_Some in E1 as [M1 S1]. rewrite Hp in M1.
    apply (findHash_None _ _ _ E2) in M1. rewrite M1 in S1. by destruct S1.
  - apply findHash_Some in E2 as [M2 S2]. rewrite <- Hp in M2.
    apply (findHash_None _ _ _ E1) in M2. rewrite M2 in S2. by destruct S2.
Qed.

(** ** The effect of each operation on the two maps *)

Lemma PutPVBAndBeats_spec b w :
  ∃ w', PutPVBAndBeats (Some b) w = (Val tt, w') ∧
    possibleValidBlock w' =
      <[blNumber b := <[BlockHash_of b := b]> (default ∅ (possibleValidBlock w !! blNumber b))]>
        (possibleValidBlock w) ∧
    blockbeats w' = match blockbeats w !! BlockHash_of b with
                    | Some _ => blockbeats w
                    | None => <[BlockHash_of b := clock w]> (blockbeats w)
                    end.
Proof.
  eexists. split; [reflexivity|].
  cbn. destruct (blockbeats w !! BlockHash_of b); done.
Qed.

Lemma dropBeats_frame (l : list (string * Block)) w :
  let w' := foldr dropBeat w l in
  possibleValidBlock w' = possibleValidBlock w ∧
  ∀ h, blockbeats w' !! h = if decide (h ∈ l.*1) then None else blockbeats w !! h.
Proof.
  induction l as [|[h0 b0] l [IHp IHb]]; simpl.
  { done. }
  split; [done|]. intros h. rewrite lookup_delete, IHb.
  repeat case_decide; try done; exfalso; rewrite ?elem_of_cons in *; naive_solver.
Qed.

Lemma deleteImpossibleValidBlockIn_pool ord dbn w bn :
  possibleValidBlock (deleteImpossibleValidBlockIn ord dbn w) !! bn
  = if decide (bn ∈ ord.*1 ∧ (bn ≤ dbn)%Z) then None else possibleValidBlock w !! bn.
Proof.
  unfold deleteImpossibleValidBlockIn.
  induction ord as [|[bn0 bl0] ord IH]; simpl.
  { done. }
  destruct (Z.leb_spec bn0 dbn) as [Hle|Hgt].
  - simpl. rewrite lookup_delete.
    destruct (dropBeats_frame (map_to_list bl0) (foldr (dropHeight dbn) w ord)) as [-> _].
    rewrite IH. repeat case_decide; try done; exfalso; rewrite ?elem_of_cons in *; naive_solver.
  - rewrite IH. repeat case_decide; try done; exfalso; rewrite ?elem_of_cons in *;
      naive_solver lia.
Qed.

Lemma deleteImpossibleValidBlockIn_beats ord dbn w h :
  blockbeats (deleteImpossibleValidBlockIn ord dbn w) !! h
  = if decide (Exists (fun e => (e.1 ≤ dbn)%Z ∧ is_Some (e.2 !! h)) ord) then None
    else blockbeats w !! h.
Proof.
  unfold deleteImpossibleValidBlockIn.
  induction ord as [|[bn0 bl0] ord IH]; simpl.
  { done. }
  destruct (Z.leb_spec bn0 dbn) as [Hle|Hgt].
  - simpl. destruct (dropBeats_frame (map_to_list bl0) (foldr (dropHeight dbn) w ord)) as [_ ->].
    rewrite IH. pose proof (elem_of_map_keys bl0 h) as Hk.
    repeat case_decide; try done; exfalso; rewrite ?Exists_cons in *; simpl in *; tauto.
  - rewrite IH. repeat case_decide; try done; exfalso; rewrite ?Exists_cons in *; simpl in *;
      intuition lia.
Qed.

(** What [DeletePVBAndBeats] leaves. *)
Lemma DeletePVBAndBeats_pool bn bhash w :
  let w' := (DeletePVBAndBeats bn bhash w).2 in
  (∀ k, possibleValidBlock w' !! k =
        if decide (k ≤ bn)%Z then None else possibleValidBlock w !! k) ∧
  (∀ h t, blockbeats w' !! h = Some t ↔
        blockbeats w !! h = Some t ∧ h ≠ bhash ∧
        ∀ k blocks, possibleValidBlock w !! k = Some blocks → (k ≤ bn)%Z → blocks !! h = None).
Proof.
  cbn. split.
  - intros k. rewrite deleteImpossibleValidBlockIn_pool.
    destruct (decide (k ≤ bn)%Z) as [Hle|Hgt]; [|rewrite decide_False; naive_solver].
    destruct (possibleValidBlock w !! k) as [bl|] eqn:Hk; [|by case_decide].
    rewrite decide_True; [done|]. split; [|done]. apply elem_of_map_keys. by eexists.
  - intros h t. rewrite lookup_delete, deleteImpossibleValidBlockIn_beats.
    case_decide as E; [naive_solver|].
    case_decide as Hex.
    + rewrite Exists_exists in Hex. destruct Hex as ([k bl] & Hm%elem_of_map_to_list & Hle & Hs).
      simpl in *. split; [done|]. intros (_ & _ & Hall).
      rewrite (Hall _ _ Hm Hle) in Hs. by destruct Hs.
    + split; [|naive_solver]. intros Hb. split_and!; [done|congruence|].
      intros k bl Hk Hle. apply eq_None_not_Some. intros Hs. apply Hex.
      rewrite Exists_exists. exists (k, bl). by rewrite elem_of_map_to_list.
Qed.

(** What [deletePVBAndBeatsByHash] leaves: exactly the hash is gone. *)
Lemma deletePVBAndBeatsByHash_pool hash w :
  poolWF w →
  let w' := (deletePVBAndBeatsByHash hash w).2 in
  (∀ k, possibleValidBlock w' !! k =
        match possibleValidBlock w !! k with
        | Some bl => if decide (is_Some (bl !! hash)) then None else Some bl
        | None => None
        end) ∧
  blockbeats w' = delete hash (blockbeats w).
Proof.
  intros Hwf. cbn. unfold deleteImpossibleValidBlockByHashIn. simpl.
  destruct (findHash hash (map_to_list (possibleValidBlock w))) as [[bn bl]|] eqn:Hf.
  - apply findHash_Some in Hf as [Hm Hs]. rewrite elem_of_map_to_list in Hm. simpl in *.
    rewrite (filed_singleton bn) by (done || by apply (wf_filed _ Hwf)).
    rewrite bool_decide_eq_true_2 by done. simpl. split; [|done].
    intros k. rewrite lookup_delete. case_decide as E; [subst; rewrite Hm|].
    + by rewrite decide_True.
    + destruct (possibleValidBlock w !! k) as [bl'|] eqn:Hk; [|done].
      case_decide as Hs'; [|done]. exfalso. apply E. by eapply (poolWF_height w hash).
  - simpl. split; [|done]. intros k.
    destruct (possibleValidBlock w !! k) as [bl|] eqn:Hk; [|done].
    rewrite decide_False; [done|]. rewrite <- elem_of_map_to_list in Hk.
    apply (findHash_None _ _ _ Hf) in Hk. simpl in Hk. rewrite Hk. by intros [].
Qed.

(** ** Preservation *)

Lemma PutPVBAndBeats_wf b w :
  is_u64 (blNumber b) → poolWF w → poolWF (PutPVBAndBeats (Some b) w).2.
Proof.
  intros Hb [Hf Hbt]. destruct (PutPVBAndBeats_spec b w) as (w' & -> & Hp & Ht). simpl.
  assert (∀ h, inPool w h → inPool w' h) as Hmono.
  { intros h (bn & bl & Hbn & Hs). unfold inPool. rewrite Hp.
    destruct (decide (blNumber b = bn)) as [<-|Hne].
    - rewrite Hbn. simpl. eexists _, _. rewrite lookup_insert_eq. split; [done|].
      rewrite lookup_insert. case_decide; [by eexists|done].
    - exists bn, bl. by rewrite lookup_insert_ne. }
  split.
  - rewrite Hp. apply map_Forall_insert_2; [|done]. split_and!; [done|apply insert_non_empty|].
    intros h b'. rewrite lookup_insert_Some.
    intros [[<- <-]|[_ Hl]]; [done|].
    destruct (possibleValidBlock w !! blNumber b) as [bl|] eqn:Hbl; [|done].
    by apply (Hf _ _ Hbl).
  - intros h. rewrite Ht. intros Hs.
    assert (h = BlockHash_of b ∨ is_Some (blockbeats w !! h)) as [->|Hs'].
    { destruct (blockbeats w !! BlockHash_of b); [by right|].
      rewrite lookup_insert in Hs. case_decide; [by left|by right]. }
    + unfold inPool. rewrite Hp. eexists _, _. rewrite lookup_insert_eq. split; [done|].
      rewrite lookup_insert_eq. by eexists.
    + by apply Hmono, Hbt.
Qed.

Lemma DeletePVBAndBeats_wf bn bhash w : poolWF w → poolWF (DeletePVBAndBeats bn bhash w).2.
Proof.
  intros [Hf Hbt]. destruct (DeletePVBAndBeats_pool bn bhash w) as [Hp Ht]. split.
  - intros k bl. rewrite Hp. case_decide; [done|]. apply Hf.
  - intros h [t (Hh & _ & Hall)%Ht]. destruct (Hbt h) as (k & bl & Hk & Hs); [by eexists|].
    exists k, bl. rewrite Hp. case_decide as Hle; [|done].
    rewrite (Hall _ _ Hk Hle) in Hs. by destruct Hs.
Qed.

Lemma deletePVBAndBeatsByHash_wf hash w :
  poolWF w → poolWF (deletePVBAndBeatsByHash hash w).2.
Proof.
  intros Hwf. destruct (deletePVBAndBeatsByHash_pool hash w Hwf) as [Hp Ht].
  destruct Hwf as [Hf Hbt]. split.
  - intros k bl. rewrite Hp. destruct (possibleValidBlock w !! k) eqn:Hk; [|done].
    case_decide; [done|]. intros [= <-]. by apply Hf.
  - intros h Hs. rewrite Ht, lookup_delete in Hs. case_decide; [by destruct Hs|].
    destruct (Hbt h Hs) as (k & bl & Hk & Hb). exists k, bl. rewrite Hp, Hk.
    rewrite decide_False; [done|]. intros Hb'. destruct (Hf _ _ Hk) as (_ & _ & Hh).
    destruct Hb as [b1 Hb1], Hb' as [b2 Hb2].
    destruct (Hh _ _ Hb1) as [E1 ->], (Hh _ _ Hb2) as [E2 ->].
    unfold BlockHash_of in *. congruence.
Qed.

(** ** Expiry *)

Definition expired (w : worker) (t : Z) : Prop := (maxConsensusLifetime w < clock w - t)%Z.

#[export] Instance expired_dec w t : Decision (expired w t).
Proof. unfold expired. apply _. Defined.

Lemma deletePVBAndBeatsByHash_frame hash w :
  let w' := (deletePVBAndBeatsByHash hash w).2 in
  clock w' = clock w ∧ maxConsensusLifetime w' = maxConsensusLifetime w ∧
  CurrentBlock w' = CurrentBlock w.
Proof.
  cbn. unfold deleteImpossibleValidBlockByHashIn.
  destruct (findHash _ _) as [[bn bl]|]; [|done]. by case_bool_decide.
Qed.

Ltac expiry_cases tac :=
  repeat case_decide; try done; exfalso; unfold expired in *; rewrite ?Exists_cons in *;
  tac; simpl in *; naive_solver lia.

Lemma expireStep_fold l b w :
  poolWF w →
  let w' := (foldl expireStep (b, w) l).2 in
  poolWF w' ∧
  (∀ h, blockbeats w' !! h =
        if decide (Exists (fun e => e.1 = h ∧ expired w e.2) l) then None else blockbeats w !! h) ∧
  (∀ k, possibleValidBlock w' !! k =
        match possibleValidBlock w !! k with
        | Some bl => if decide (Exists (fun e => is_Some (bl !! e.1) ∧ expired w e.2) l)
                     then None else Some bl
        | None => None
        end).
Proof.
  revert b w. induction l as [|[h0 t0] l IH]; intros b w Hwf.
  { cbn. split_and!; [done..|]. intros k. by destruct (possibleValidBlock w !! k). }
  assert (∀ k w1 w2, clock w1 = clock w2 → maxConsensusLifetime w1 = maxConsensusLifetime w2 →
                     expired w1 k ↔ expired w2 k) as Hexp.
  { unfold expired. intros ??? -> ->. done. }
  simpl.
  destruct (Z.ltb_spec (maxConsensusLifetime w) (clock w - t0)) as [Hlt|Hge].
  - destruct (deletePVBAndBeatsByHash_pool h0 w Hwf) as [Hp Ht].
    destruct (deletePVBAndBeatsByHash_frame h0 w) as (Hc & Hm & _).
    pose proof (deletePVBAndBeatsByHash_wf h0 w Hwf) as Hwf'.
    destruct (IH (b || match getPossibleBHByHash h0 w with
                       | Ok bh => (bh =? u64 (CurrentBlock w + 1))%Z
                       | Err _ => false
                       end) _ Hwf') as (IH1 & IH2 & IH3).
    split_and!; [done| |].
    + intros h. rewrite IH2, Ht, lookup_delete. expiry_cases ltac:(rewrite ?Hc, ?Hm in *).
    + intros k. rewrite IH3, Hp. destruct (possibleValidBlock w !! k) as [bl|]; [|done].
      destruct (decide (is_Some (bl !! h0))) as [Hs|Hs].
      * rewrite decide_True; [done|]. apply Exists_cons. by left.
      * expiry_cases ltac:(rewrite ?Hc, ?Hm in *).
  - destruct (IH b w Hwf) as (IH1 & IH2 & IH3). split_and!; [done| |].
    + intros h. rewrite IH2. expiry_cases idtac.
    + intros k. rewrite IH3. destruct (possibleValidBlock w !! k) as [bl|]; [|done].
      expiry_cases idtac.
Qed.

Lemma expirationTick_pool w :
  let w1 := (foldl expireStep (false, w) (map_to_list (blockbeats w))).2 in
  let w' := (expirationTick w).2 in
  possibleValidBlock w' = possibleValidBlock w1 ∧ blockbeats w' = blockbeats w1.
Proof.
  unfold expirationTick. simpl. destruct (foldl _ _ _) as [[] w1]; [|done].
  unfold cancelConsensus. by destruct (consensusCtx w1).
Qed.

Lemma poolWF_ext w w' :
  possibleValidBlock w' = possibleValidBlock w → blockbeats w' = blockbeats w →
  poolWF w → poolWF w'.
Proof.
  intros Hp Hb [Hf Hbt]. split; [by rewrite Hp|].
  intros h. rewrite Hb. intros Hs. unfold inPool. rewrite Hp. by apply Hbt.
Qed.

(** ** Theorems *)

(** Every pool operation keeps the pool well-formed: blocks stay filed under
    their own height and hash, no height maps to an empty set, and every recorded
    consensus start time belongs to a pooled block. *)
Theorem pool_ops_preserve_wf (w : worker) :
  poolWF w →
  (∀ b, is_u64 (blNumber b) → poolWF (PutPVBAndBeats (Some b) w).2) ∧
  (∀ bn hash, poolWF (DeletePVBAndBeats bn hash w).2) ∧
  (∀ hash, poolWF (DeletePVBAndBeatsByHash hash w).2) ∧
  poolWF (ResetPVBAndBeats w).2 ∧
  poolWF (expirationTick w).2.
Proof.
  intros Hwf. split_and!.
  - intros b Hb. by apply PutPVBAndBeats_wf.
  - intros bn hash. by apply DeletePVBAndBeats_wf.
  - intros hash. by apply deletePVBAndBeatsByHash_wf.
  - split; [by apply map_Forall_empty|]. simpl. intros h. rewrite lookup_empty. by intros [].
  - destruct (expirationTick_pool w) as [Hp Hb]. eapply poolWF_ext; [done..|].
    by apply expireStep_fold.
Qed.

(** On a well-formed pool the lookups and the deletion by hash, which stop at the
    first hit of a range over a Go map, give the same answer for every iteration
    order. *)
Theorem pool_lookup_order (w : worker) (hash : string) (ord : list (Z * gmap string Block)) :
  poolWF w → ord ≡ₚ map_to_list (possibleValidBlock w) →
  GetBlockFromPVBlockByHashIn ord hash = GetBlockFromPVBlockByHash hash w ∧
  getPossibleBHByHashIn ord hash = GetPossibleBHByHash hash w ∧
  deleteImpossibleValidBlockByHashIn ord hash w = (deleteImpossibleValidBlockByHash hash w).2.
Proof.
  intros Hwf Hp. pose proof (findHash_pool w hash ord Hwf Hp) as Hf.
  unfold GetBlockFromPVBlockByHashIn, getPossibleBHByHashIn, GetPossibleBHByHash,
    getPossibleBHByHash, GetBlockFromPVBlockByHash, deleteImpossibleValidBlockByHashIn.
  simpl. rewrite Hf. done.
Qed.

(** Pool round trip: a block put into the pool is found under its height and hash,
    with a start time; the blocks of other heights and the other start times are
    untouched; and a start time already recorded is not refreshed. *)
Theorem pool_put_get (b : Block) (w : worker) :
  let w' := (PutPVBAndBeats (Some b) w).2 in
  GetBlockFromPossibleValidBlock (blNumber b) (BlockHash_of b) w' = Some b ∧
  (∀ bn hash, bn ≠ blNumber b →
     GetBlockFromPossibleValidBlock bn hash w' = GetBlockFromPossibleValidBlock bn hash w) ∧
  blockbeats w' !! BlockHash_of b =
    Some (default (clock w) (blockbeats w !! BlockHash_of b)) ∧
  (∀ hash, hash ≠ BlockHash_of b → blockbeats w' !! hash = blockbeats w !! hash).
Proof.
  destruct (PutPVBAndBeats_spec b w) as (w' & -> & Hp & Hb). simpl.
  unfold GetBlockFromPossibleValidBlock. rewrite Hp, Hb. split_and!.
  - rewrite lookup_insert_eq. apply lookup_insert_eq.
  - intros bn hash Hne. by rewrite lookup_insert_ne.
  - destruct (blockbeats w !! BlockHash_of b) as [t|] eqn:E; [done|]. apply lookup_insert_eq.
  - intros hash Hne. destruct (blockbeats w !! BlockHash_of b); [done|].
    by rewrite lookup_insert_ne.
Qed.

(** One firing of the expiry timer removes exactly the blocks whose consensus
    started longer ago than [maxConsensusLifetime]: their start times and their
    pool entries disappear, everything else stays. *)
Theorem expirationTick_spec (w : worker) :
  poolWF w →
  (∀ h t, blockbeats (expirationTick w).2 !! h = Some t ↔
          blockbeats w !! h = Some t ∧ ¬ expired w t) ∧
  (∀ k bl, possibleValidBlock (expirationTick w).2 !! k = Some bl ↔
          possibleValidBlock w !! k = Some bl ∧
          ∀ h t, is_Some (bl !! h) → blockbeats w !! h = Some t → ¬ expired w t).
Proof.
  intros Hwf. destruct (expirationTick_pool w) as [-> ->].
  destruct (expireStep_fold (map_to_list (blockbeats w)) false w Hwf) as (_ & Hb & Hp). split.
  - intros h t. rewrite Hb. case_decide as Hx.
    + apply Exists_exists in Hx as ([h' t'] & Hm%elem_of_map_to_list & Heq & He). simpl in *.
      naive_solver.
    + split; [|naive_solver]. intros Ht. split; [done|]. intros He. apply Hx, Exists_exists.
      exists (h, t). by rewrite elem_of_map_to_list.
  - intros k bl. rewrite Hp. destruct (possibleValidBlock w !! k) as [bl'|]; [|naive_solver].
    case_decide as Hx.
    + apply Exists_exists in Hx as ([h' t'] & Hm%elem_of_map_to_list & Hs & He). simpl in *.
      naive_solver.
    + split; [|naive_solver]. intros [= ->]. split; [done|]. intros h t Hs Ht He.
      apply Hx, Exists_exists. exists (h, t). by rewrite elem_of_map_to_list.
Qed.

(** ** Instances *)

(** A pool with one block, whose consensus started at time 0. *)
Definition demoPool : worker := (PutPVBAndBeats (Some demoBlock) (demoNode ":3001")).2.

Lemma demoPool_wf : poolWF demoPool.
Proof.
  apply PutPVBAndBeats_wf; [split; vm_compute; congruence|].
  split; [apply map_Forall_empty|]. intros h. simpl. rewrite lookup_empty. by intros [].
Qed.

Lemma pool_ops_preserve_wf_witness :
  poolWF (DeletePVBAndBeats 1 "2" demoPool).2 ∧ poolWF (expirationTick demoPool).2.
Proof.
  destruct (pool_ops_preserve_wf demoPool demoPool_wf) as (_ & Hd & _ & _ & He). auto.
Defined.

Lemma pool_lookup_order_witness :
  GetBlockFromPVBlockByHashIn (reverse (map_to_list (possibleValidBlock demoPool))) "2"
  = (Some demoBlock, 2%Z).
Proof.
  etrans; [apply (pool_lookup_order demoPool "2"); [apply demoPool_wf|apply reverse_Permutation]|].
  vm_compute. reflexivity.
Defined.

(** The block survives 40 seconds and is gone afterwards. *)
Lemma expirationTick_spec_witness :
  blockbeats (expirationTick (demoPool <| clock := (40 * second)%Z |>)).2 !! "2" = Some 0%Z ∧
  blockbeats (expirationTick (demoPool <| clock := (41 * second)%Z |>)).2 !! "2" ≠ Some 0%Z.
Proof.
  assert (∀ t, poolWF (demoPool <| clock := t |>)) as Hwf
    by (intros t; apply (poolWF_ext demoPool); [done..|apply demoPool_wf]).
  split.
  - apply (expirationTick_spec _ (Hwf _)). split; [vm_compute; reflexivity|].
    unfold expired. vm_compute. discriminate.
  - rewrite (proj1 (expirationTick_spec _ (Hwf _))). intros [_ Hne]. apply Hne.
    vm_compute. reflexivity.
Defined.
