(* ===== verification/Replica.v ===== *)
(** * eth: one replica as a guarded transition system

    The abstract specification of a replica: [act inp], the guarded atomic
    actions a replica may take while it handles the input [inp], over the
    protocol core of its state (identity, view, chain height, the request,
    certificate and commit stores, and the trace of what it sends).  The
    handlers of [Pbft.v] and [Mining.v] refine it ([handle_refines]), so that
    invariants of a replica are proved by rule induction on the actions. *)

From stdpp Require Import base gmap strings list relations.
From Stdlib Require Import ZArith Lia.
From S2P Require Import Prelude Common Types Worker Quorum Pbft Mining.

(** ** Actions *)

(** Equality of the protocol core. *)
Record sameCore (w w' : worker) : Prop := mkSameCore {
  sc_nodeID : nodeID w' = nodeID w;
  sc_numN : numN w' = numN w;
  sc_leader : leader w' = leader w;
  sc_view : view w' = view w;
  sc_ready : ready w' = ready w;
  sc_LastReqID : LastReqID w' = LastReqID w;
  sc_CurrentBlock : CurrentBlock w' = CurrentBlock w;
  sc_reqStore : reqStore w' = reqStore w;
  sc_certStore : certStore w' = certStore w;
  sc_commitStore : commitStore w' = commitStore w;
  sc_out : out w' = out w }.

(** Effects that carry no protocol message. *)
Definition neutral (e : effect) : Prop :=
  match e with
  | Post (EvCheckpoint _) | Post EvBlockForceSync | Sleep _
  | Go TStartConsensus | Go TSyncConStatus => True
  | Post (EvConsensusMsg m) => match coMsg m with JConStatusRequest _ => True | _ => False end
  | _ => False
  end.

(** The request an input carries, with the digest it is filed under. *)
Definition carries (i : input) (d : string) (r : Request) : Prop :=
  match i with
  | InTask (TRecvRequest r') => r' = r ∧ d = newhashReq r
  | InTask (TRecvPrePrepare p) => ppRequest p = Some r ∧ d = ppRequestDigest p
  | _ => False
  end.

(** The request id an input makes known. *)
Definition seenID (i : input) (n : Z) : Prop :=
  match i with
  | InTask (TRecvRequest r) => n = rqReqID r
  | InTask (TRecvPrePrepare p) => n = ppReqID p
  | _ => False
  end.

Definition ownPrePrepare (w : worker) (r : Request) (p : PrePrepare) : Prop :=
  p = mkPrePrepare (nodeID w) (rqView r) (ppTimestamp p) (rqReqID r) (newhashReq r) (Some r).

Definition inputPrePrepare (i : input) (w : worker) (p : PrePrepare) : Prop :=
  i = InTask (TRecvPrePrepare p) ∨ ∃ r, i = InTask (TRecvRequest r) ∧ ownPrePrepare w r p.

Definition inputPrepare (i : input) (p : Prepare) : Prop :=
  i = InTask (TRecvPrepare p) ∨ i = InTask (TRecvPrepare_notTransfer p).

(** A prepare of [w] that answers the pre-prepare [p]. *)
Definition answers (w : worker) (p : PrePrepare) (q : Prepare) : Prop :=
  prSender q = nodeID w ∧ prView q = ppView p ∧ prReqID q = ppReqID p ∧
  prRequestDigest q = ppRequestDigest p.

(** A commit of [w] for the stored request [r], on a prepare for its digest. *)
Definition commitsTo (w : worker) (p : Prepare) (r : Request) (c : Commit) : Prop :=
  cmSender c = nodeID w ∧ cmView c = prView p ∧ cmReqID c = prReqID p ∧
  cmRequestDigest c = prRequestDigest p ∧
  vrSender (cmVR c) = nodeID w ∧ vrSign (cmVR c) = nodeID w ∧
  vrBlockHeight (cmVR c) = rqBlockHeight r ∧ vrBlockHash (cmVR c) = rqBlockHash r.

(** Broadcasting a message, in the envelope the handlers use. *)
Definition broadcast (w : worker) (time : Z) (j : jsonText) (type : string) : effect :=
  Post (EvConsensusMsg (mkConsensusMsg j time type (nodeID w))).

Definition forwarded (i : input) (j : jsonText) : Prop :=
  match i, j with
  | InTask (TRecvPrePrepare p), JPrePrepare p' => p = p'
  | InTask (TRecvPrepare p), JPrepare p' => p = p'
  | InTask (TRecvPrepare_notTransfer p), JPrepare p' => p = p'
  | InTask (TRecvCommit c), JCommit c' => c = c'
  | _, _ => False
  end.

Definition addOut (l : list effect) (w : worker) : worker := w <| out ::= (fun o => o ++ l) |>.

Definition pruneCommits (w : worker) : worker :=
  w <| commitStore ::= filter (fun e => ¬ (e.1 < CurrentBlock w)%Z) |>.

Definition onlyFlags (f : msgCert → msgCert) : Prop :=
  ∀ c, prePrepare (f c) = prePrepare c ∧ prepare (f c) = prepare c ∧ commit (f c) = commit c.

(** The inputs that make a leader propose, and the block proposed: [StartConsensus]
    always builds the successor of the package variable [currentblock]. *)
Definition proposed (i : input) (b : Block) : Prop :=
  match i with
  | InPropose b' _ => b' = b
  | InTask TStartConsensus => blNumber b = 2%Z
  | _ => False
  end.

Definition proposes (i : input) : Prop := ∃ b, proposed i b.

Inductive act (i : input) : worker → worker → Prop :=
| act_local w w' : sameCore w w' → act i w w'
| act_neutral w e : neutral e → act i w (addOut [e] w)
| act_sees w n : seenID i n → (LastReqID w < n)%Z → act i w (w <| LastReqID := n |>)
| act_storeRequest w d r :
    carries i d r → reqStore w !! d = None → rqSender r = leader w → (view w ≤ rqView r)%Z →
    act i w (w <| reqStore ::= <[d := r]> |>)
| act_newCert w k :
    certStore w !! k = None → act i w (w <| certStore ::= <[k := emptyCert]> |>)
| act_flags w k f : onlyFlags f → act i w (w <| certStore ::= alter f k |>)
| act_prePrepare w p r f :
    inputPrePrepare i w p → ppRequest p = Some r → ppView p = view w → 
    (CurrentBlock w < rqBlockHeight r)%Z →
    (∀ c, prePrepare (f c) = Some p ∧ prepare (f c) = prepare c ∧ commit (f c) = commit c) →
    act i w (w <| certStore ::= alter f (ppView p, rqReqID r) |>)
| act_prepare w p :
    inputPrepare i p → prView p = view w →
    act i w (w <| certStore ::=
               alter (fun c => c <| prepare ::= (fun l => l ++ [p]) |>) (prView p, prReqID p) |>)
| act_commit w c :
    i = InTask (TRecvCommit c) → cmView c = view w →
    (CurrentBlock w < vrBlockHeight (cmVR c))%Z →
    cmSender c ∉ cmSender <$> commit (certAt (cmView c, cmReqID c) w) →
    act i w (w <| certStore ::=
               alter (fun ct => ct <| commit ::= (fun l => l ++ [c]) |>) (cmView c, cmReqID c) |>)
| act_sendPrePrepare w r p time e :
    i = InTask (TRecvRequest r) → ownPrePrepare w r p → rqView r = view w →
    reqStore w !! newhashReq r = Some r → (CurrentBlock w < rqBlockHeight r)%Z →
    e = Go (TRecvPrePrepare p) ∨ e = broadcast w time (JPrePrepare p) "PBFTPrePrepare" →
    act i w (addOut [e] w)
| act_sendPrepare w p q time e :
    i = InTask (TRecvPrePrepare p) → answers w p q → ppView p = view w →
    is_Some (reqStore w !! ppRequestDigest p) →
    e = Go (TRecvPrepare q) ∨ e = broadcast w time (JPrepare q) "PBFTPrepare" →
    act i w (addOut [e] w)
| act_retry w k p :
    p ∈ prepare (certAt k w) → act i w (addOut [Go (TRecvPrepare_notTransfer p)] w)
| act_pruneCommits w : act i w (pruneCommits w)
| act_sendCommit w p r c time :
    inputPrepare i p → commitsTo w p r c →
    reqStore w !! prRequestDigest p = Some r → isPrepared p w = true → cmView c = view w →
    (CurrentBlock w < rqBlockHeight r)%Z → commitStore w !! rqBlockHeight r = None →
    act i w (addOut [broadcast w time (JCommit c) "PBFTCommit"]
               (pruneCommits (w <| commitStore ::= <[rqBlockHeight r := rqBlockHash r]> |>)))
| act_ownCommit w c cm :
    Post (EvConsensusMsg cm) ∈ out w → coMsg cm = JCommit c → cmSender c = nodeID w →
    act i w (addOut [Go (TRecvCommit c)] w)
| act_insert w c :
    i = InTask (TRecvCommit c) → cmView c = view w →
    committed (cmRequestDigest c) (cmView c) (cmReqID c) w = true →
    GetValidResFromCommit (certAt (cmView c, cmReqID c) w) w = possitive →
    c ∈ commit (certAt (cmView c, cmReqID c) w) →
    (CurrentBlock w < vrBlockHeight (cmVR c))%Z →
    act i w ((addOut [InsertChainWithVRS c] w) <| CurrentBlock ::= (fun n => u64 (n + 1)) |>)
| act_forget w n : act i w (removeOldConMsg n w).2
| act_forward w j time t s :
    forwarded i j → s ≠ nodeID w →
    act i w (addOut [Post (EvConsensusMsg2 (mkConsensusMsg2 j time t s (nodeID w) "转发消息"))] w)
| act_bumpReqID w : proposes i → ISLeader w = true → act i w (w <| LastReqID := u64 (LastReqID w + 1) |>)
| act_propose w r b time :
    proposed i b → rqRealblock r = Some b → rqBlockHeight r = blNumber b →
    rqBlockHash r = BlockHash_of b → ISLeader w = true → rqReqID r = u64 (LastReqID w + 1) →
    rqSender r = nodeID w → rqView r = view w → (CurrentBlock w < rqBlockHeight r)%Z →
    act i w (addOut [Sleep (1000 * millisecond); Go (TRecvRequest r); broadcast w time (JRequest r) "PBFTRequest"]
               (w <| LastReqID := u64 (LastReqID w + 1) |>)).

(** ** Refinement: each handler is a sequence of actions *)

Section refinement.
Context (i : input).

Definition runs {A} (m : H A) (w : worker) : Prop := rtc (act i) w (m w).2.

Lemma runs_ret {A} (a : A) w : runs (ret a) w.
Proof. apply rtc_refl. Qed.

Lemma runs_return {A} e w : runs (return_ (A:=A) e) w.
Proof. apply rtc_refl. Qed.

Lemma runs_panic {A} w : runs (panic (A:=A)) w.
Proof. apply rtc_refl. Qed.

Lemma runs_get {A} (f : worker → A) w : runs (get f) w.
Proof. apply rtc_refl. Qed.

Lemma runs_modify f w : act i w (f w) → runs (modify f) w.
Proof. apply rtc_once. Qed.

Lemma runs_bind {A B} (m : H A) (k : A → H B) w :
  runs m w → (∀ a w', m w = (Val a, w') → runs (k a) w') → runs (bind m k) w.
Proof.
  unfold runs, bind. intros Hm Hk. destruct (m w) as [[a|e|] w'] eqn:E; simpl in *; [|done..].
  etrans; [exact Hm|by apply Hk].
Qed.

Lemma runs_get_bind {A B} (f : worker → A) (k : A → H B) w :
  runs (k (f w)) w → runs (bind (get f) k) w.
Proof. done. Qed.

Lemma runs_modify_bind {B} f (k : unit → H B) w :
  act i w (f w) → runs (k tt) (f w) → runs (bind (modify f) k) w.
Proof. intros. unfold runs. simpl. by etrans; [apply rtc_once|]. Qed.

Lemma runs_ifReturn_bind {B} b e (k : unit → H B) w :
  (b = false → runs (k tt) w) → runs (bind (ifReturn b e) k) w.
Proof. destruct b; intros Hk; [apply rtc_refl|by apply Hk]. Qed.

Lemma runs_when b m w : (b = true → runs m w) → runs (when b m) w.
Proof. destruct b; intros Hk; [by apply Hk|apply rtc_refl]. Qed.

Lemma runs_deref_bind {A B} (p : option A) (k : A → H B) w :
  (∀ a, p = Some a → runs (k a) w) → runs (bind (deref p) k) w.
Proof. destruct p; intros Hk; [by apply Hk|apply rtc_refl]. Qed.

Lemma runs_func {A} (m : H A) w : runs m w → runs (func m) w.
Proof. unfold runs, func. by destruct (m w) as [o w']. Qed.

Lemma runs_recovering m w : runs m w → runs (recovering m) w.
Proof. unfold runs, recovering. by destruct (m w) as [[] w']. Qed.

Lemma runs_deferred d m w : runs m w → (∀ w', runs d w') → runs (deferred d m) w.
Proof.
  unfold runs, deferred. intros Hm Hd. destruct (m w) as [o w'] eqn:E; simpl in *.
  etrans; [exact Hm|apply Hd].
Qed.

Lemma runs_emit e w : act i w (addOut [e] w) → runs (emit e) w.
Proof. apply runs_modify. Qed.

Lemma runs_emit_bind {B} e (k : unit → H B) w :
  act i w (addOut [e] w) → runs (k tt) (addOut [e] w) → runs (bind (emit e) k) w.
Proof. apply runs_modify_bind. Qed.

Lemma runs_local m w : sameCore w (m w).2 → runs (A:=unit) m w.
Proof. intros. by apply rtc_once, act_local. Qed.

End refinement.

(** ** Computations that stay outside the protocol core *)

Lemma sameCore_refl w : sameCore w w.
Proof. by split. Qed.

Lemma sameCore_trans w1 w2 w3 : sameCore w1 w2 → sameCore w2 w3 → sameCore w1 w3.
Proof. intros [] []. split; congruence. Qed.

(** [local m]: [m] only touches fields outside the core. *)
Definition local {A} (m : H A) : Prop := ∀ w, sameCore w (m w).2.

Lemma local_bind {A B} (m : H A) (k : A → H B) : local m → (∀ a, local (k a)) → local (bind m k).
Proof.
  intros Hm Hk w. unfold bind. specialize (Hm w).
  destruct (m w) as [[a|e|] w'] eqn:E; simpl in *; [|done..].
  eapply sameCore_trans; [done|apply Hk].
Qed.

Lemma local_PutPVBAndBeats b : local (PutPVBAndBeats b).
Proof.
  intros w. destruct b as [b|]; [|by split]. cbn.
  destruct (blockbeats w !! BlockHash_of b); by split.
Qed.

Lemma sameCore_cancelConsensus w : sameCore w (cancelConsensus w).
Proof. unfold cancelConsensus. destruct (consensusCtx w); by split. Qed.

Lemma sameCore_deleteImpossible ord bn w :
  sameCore w (deleteImpossibleValidBlockIn ord bn w).
Proof.
  unfold deleteImpossibleValidBlockIn. induction ord as [|[k bl] ord IH]; simpl; [by split|].
  destruct (k <=? bn)%Z; [|done].
  assert (∀ w', sameCore w' (foldr dropBeat w' (map_to_list bl))) as Hd.
  { intros w'. induction (map_to_list bl) as [|x l IHl]; simpl; [by split|].
    eapply sameCore_trans; [exact IHl|by split]. }
  eapply sameCore_trans; [exact IH|]. eapply sameCore_trans; [apply Hd|by split].
Qed.

Lemma local_DeletePVBAndBeats bn h : local (DeletePVBAndBeats bn h).
Proof.
  apply local_bind; [intros w; apply sameCore_deleteImpossible|]. intros _ w. by split.
Qed.

Lemma local_deletePVBAndBeatsByHash h : local (deletePVBAndBeatsByHash h).
Proof.
  intros w. cbn. unfold deleteImpossibleValidBlockByHashIn.
  destruct (findHash _ _) as [[bn bl]|]; [|by split]. by case_bool_decide; split.
Qed.

Lemma local_expirationTick : local expirationTick.
Proof.
  intros w. unfold expirationTick. simpl.
  assert (∀ l b w', sameCore w' (foldl expireStep (b, w') l).2) as Hf.
  { induction l as [|[h t] l IH]; intros b w'; simpl; [by split|].
    destruct (_ <? _)%Z; [|done].
    eapply sameCore_trans; [apply (local_deletePVBAndBeatsByHash h)|apply IH]. }
  specialize (Hf (map_to_list (blockbeats w)) false w).
  destruct (foldl expireStep _ _) as [[] w']; [|done].
  eapply sameCore_trans; [done|apply sameCore_cancelConsensus].
Qed.

Lemma local_logLocalMinedBlocks n r p : local (logLocalMinedBlocks n r p).
Proof.
  intros w. unfold logLocalMinedBlocks.
  destruct p as [p|]; [|by split]. destruct r as [r|]; [|by split].
  destruct (wkBlock p) as [b|]; by split.
Qed.

Lemma runs_local_bind {A B} i (m : H A) (k : A → H B) w :
  local m → (∀ a w', sameCore w w' → runs i (k a) w') → runs i (bind m k) w.
Proof.
  intros Hm Hk. apply runs_bind.
  - apply rtc_once, act_local, Hm.
  - intros a w' E. apply Hk. specialize (Hm w). by rewrite E in Hm.
Qed.

(** One symbolic step of a handler; side conditions are left to the caller. *)
Ltac runs_step :=
  lazymatch goal with
  | |- runs _ (func _) _ => apply runs_func
  | |- runs _ (recovering _) _ => apply runs_recovering
  | |- runs _ (ret _) _ => apply runs_ret
  | |- runs _ (return_ _) _ => apply runs_return
  | |- runs _ (get _) _ => apply runs_get
  | |- runs _ (bind (get _) _) _ => apply runs_get_bind; simpl
  | |- runs _ (bind (ret _) _) _ => apply runs_bind; [apply runs_ret|intros ? ? [= <- <-]]
  | |- runs _ (bind (ifReturn _ _) _) _ => apply runs_ifReturn_bind; intros ?Hguard
  | |- runs _ (bind (deref _) _) _ => apply runs_deref_bind; intros ? ?Hptr
  | |- runs _ (bind (sleep _) _) _ => apply runs_emit_bind; [by apply act_neutral|]
  | |- runs _ (bind (emit _) _) _ => apply runs_emit_bind
  | |- runs _ (bind (post _) _) _ => apply runs_emit_bind
  | |- runs _ (bind (go _) _) _ => apply runs_emit_bind
  | |- runs _ (emit _) _ => apply runs_emit
  | |- runs _ (sleep _) _ => apply runs_emit; by apply act_neutral
  | |- runs _ (post _) _ => apply runs_emit
  | |- runs _ (go _) _ => apply runs_emit
  | |- runs _ (when _ _) _ => apply runs_when; intros ?Hguard
  end.

Lemma runs_when_bind {B} i b m (k : unit → H B) w :
  (b = true → runs i (bind m k) w) → (b = false → runs i (k tt) w) →
  runs i (bind (when b m) k) w.
Proof. destruct b; intros Ht Hf; [by apply Ht|by apply Hf]. Qed.

Lemma bind_assoc {S A B C} (m : M S A) (k : A → M S B) (l : B → M S C) w :
  bind (bind m k) l w = bind m (fun a => bind (k a) l) w.
Proof. unfold bind. by destruct (m w) as [[] ?]. Qed.

Lemma runs_assoc {A B C} i (m : H A) (k : A → H B) (l : B → H C) w :
  runs i (bind m (fun a => bind (k a) l)) w → runs i (bind (bind m k) l) w.
Proof. unfold runs. by rewrite bind_assoc. Qed.

(** Moving a known equation of the core across a core-preserving step. *)
Ltac core_eq :=
  match goal with
  | S : sameCore ?w ?w' |- context [?w'] => destruct S; simpl in *; congruence || lia || naive_solver
  end.

Lemma runs_seenID_bind {B} i n (k : unit → H B) w :
  seenID i n → (∀ m, runs i (k tt) (w <| LastReqID := m |>)) →
  runs i (bind (when (LastReqID w <? n)%Z (setLastReqID n)) k) w.
Proof.
  intros Hs Hk. apply runs_when_bind.
  - intros ?%Z.ltb_lt. by apply runs_modify_bind; [apply act_sees|].
  - intros _. specialize (Hk (LastReqID w)). by destruct w.
Qed.

(** A certificate read after [getCert] exists, and nothing else moved. *)
Definition withCert (k : msgID) (w : worker) : worker :=
  match certStore w !! k with
  | Some _ => w
  | None => w <| certStore ::= <[k := emptyCert]> |>
  end.

Lemma runs_getCert_bind {B} i v n (k : msgID → H B) w :
  runs i (k (v, n)) (withCert (v, n) w) → runs i (bind (getCert v n) k) w.
Proof.
  intros Hk. unfold getCert. apply runs_assoc, runs_modify_bind; [|exact Hk].
  destruct (certStore w !! (v, n)) eqn:E; [by apply act_local, sameCore_refl|].
  by apply act_newCert.
Qed.

Lemma withCert_frame k w :
  certAt k (withCert k w) = certAt k w ∧
  reqStore (withCert k w) = reqStore w ∧ view (withCert k w) = view w ∧
  CurrentBlock (withCert k w) = CurrentBlock w ∧ nodeID (withCert k w) = nodeID w ∧
  clock (withCert k w) = clock w ∧ commitStore (withCert k w) = commitStore w ∧
  ready (withCert k w) = ready w.
Proof.
  unfold withCert, certAt. destruct (certStore w !! k) as [c|] eqn:E; [by rewrite E|].
  simpl. by rewrite lookup_insert_eq.
Qed.

Lemma RecvRequest_runs r w : runs (InTask (TRecvRequest r)) (RecvRequest r) w.
Proof.
  unfold RecvRequest. do 2 runs_step. apply runs_seenID_bind; [done|]. intros m.
  generalize (w <| LastReqID := m |>). clear. intros w.
  repeat runs_step. rename Hguard0 into Hl, Hguard1 into Hd, Hguard2 into Hh.
  apply orb_false_iff in Hl as [Hl Hv]. apply negb_false_iff, bool_decide_eq_true in Hl.
  apply bool_decide_eq_false, eq_None_not_Some in Hd. apply Z.ltb_ge in Hv. apply Z.leb_gt in Hh.
  apply runs_modify_bind; [by apply act_storeRequest|].
  repeat runs_step. apply Z.eqb_eq in Hguard0. simpl in Hguard0.
  apply runs_local_bind; [apply local_PutPVBAndBeats|]. intros _ w' [].
  simpl in *. apply runs_assoc, runs_getCert_bind.
  set (p := mkPrePrepare (nodeID w) (rqView r) (clock w) (rqReqID r) (newhashReq r) (Some r)).
  destruct (withCert_frame (rqView r, rqReqID r) w') as (_ & Hr & Hvw & Hc & Hn & Hk & _).
  apply runs_modify_bind.
  { eapply (act_prePrepare _ _ p r); simpl; [|done|congruence|congruence|done].
    right. exists r. split; [done|]. unfold ownPrePrepare, p. simpl. congruence. }
  assert (reqStore (withCert (rqView r, rqReqID r) w') !! newhashReq r = Some r) as Hst.
  { rewrite Hr, sc_reqStore0. apply lookup_insert_eq. }
  repeat runs_step; apply (act_sendPrePrepare _ _ r p (clock w)); simpl; try congruence;
    try (unfold ownPrePrepare, p; simpl; congruence).
  - by left.
  - right. unfold broadcast, p. simpl. congruence.
Qed.

(** Steps that keep the replica's configuration, height and request store. *)
Record stable (w w' : worker) : Prop := mkStable {
  st_nodeID : nodeID w' = nodeID w;
  st_numN : numN w' = numN w;
  st_view : view w' = view w;
  st_CurrentBlock : CurrentBlock w' = CurrentBlock w;
  st_reqStore : reqStore w' = reqStore w;
  st_commitStore : commitStore w' = commitStore w }.

Lemma stable_trans w1 w2 w3 : stable w1 w2 → stable w2 w3 → stable w1 w3.
Proof. intros [] []. split; congruence. Qed.

Lemma stable_withCert k w : stable w (withCert k w).
Proof. unfold withCert. destruct (certStore w !! k); by split. Qed.

Lemma sameCore_stable w w' : sameCore w w' → stable w w'.
Proof. intros []. by split. Qed.

Lemma storePrePrepare_stable p r k w : stable w (storePrePrepare p r k w).2.
Proof.
  unfold storePrePrepare. cbn.
  destruct (match prePrepare (certAt k w) with Some _ => _ | None => _ end); [by split|].
  cbn. destruct (prepared _ _ _ _ && _); [|by split]. cbn.
  destruct (prepare _); by split.
Qed.

Lemma storePrePrepare_runs p r w :
  ppRequest p = Some r → ppView p = view w → (CurrentBlock w < rqBlockHeight r)%Z →
  runs (InTask (TRecvPrePrepare p)) (storePrePrepare p r (ppView p, rqReqID r)) w.
Proof.
  intros Hr Hv Hh. unfold storePrePrepare. runs_step.
  destruct (match prePrepare (certAt _ w) with Some _ => _ | None => _ end); [runs_step|].
  apply runs_modify_bind.
  { eapply (act_prePrepare _ _ p r); [by left|done..]. }
  repeat runs_step. destruct (prepare _) as [|p0 l] eqn:Ep; runs_step.
  eapply (act_retry _ _ (ppView p, rqReqID r)). rewrite Ep. set_solver.
Qed.

Lemma ensureBlock_local r : local (ensureBlock r).
Proof.
  intros w. unfold ensureBlock. cbn. case_match; [by split|].
  apply (local_bind _ _ (local_PutPVBAndBeats _)). intros _ w'. by split.
Qed.

(** Forwarding the input, as the three [sendConMsg_transfer] helpers do. *)
Lemma sendConMsg_transfer_runs i s j t w :
  forwarded i j → runs i (sendConMsg_transfer s j t) w.
Proof.
  intros Hf. unfold sendConMsg_transfer. runs_step. runs_step.
  apply negb_true_iff, bool_decide_eq_false in Hguard.
  apply runs_emit. by apply act_forward.
Qed.

Lemma answerPrePrepare_runs p k b w :
  ppView p = view w → is_Some (reqStore w !! ppRequestDigest p) →
  runs (InTask (TRecvPrePrepare p)) (answerPrePrepare p k b) w.
Proof.
  intros Hv Hs. unfold answerPrePrepare.
  apply runs_local_bind; [intros w0; cbn; case_match; by split|]. intros _ w1 [].
  simpl. runs_step. apply runs_modify_bind; [by apply act_flags|].
  do 2 runs_step.
  { eapply (act_sendPrepare _ _ p _ (clock w1)); [done| | | |by right]; simpl; [done|congruence..]. }
  runs_step.
  { eapply (act_sendPrepare _ _ p _ 0); [done| | | |by left]; simpl; [done|congruence..]. }
  by apply sendConMsg_transfer_runs.
Qed.

Lemma RecvPrePrepare_runs p w : runs (InTask (TRecvPrePrepare p)) (RecvPrePrepare p) w.
Proof.
  unfold RecvPrePrepare, SyncView. repeat runs_step. clear Hguard0.
  apply negb_false_iff, Z.eqb_eq in Hguard. simpl in Hguard.
  match goal with |- runs _ (bind _ ?k) _ => set (rest := k) end.
  assert (∀ w', view w' = ppView p → is_Some (reqStore w' !! ppRequestDigest p) →
                runs (InTask (TRecvPrePrepare p)) (rest ()) w') as Hrest.
  - clear w Hguard. intros w Hv Hs. unfold rest. clear rest.
    do 2 runs_step. rename a into r. runs_step. apply Z.leb_gt in Hguard.
    apply runs_getCert_bind. pose proof (stable_withCert (ppView p, rqReqID r) w) as S1.
    revert S1. generalize (withCert (ppView p, rqReqID r) w). intros w1 S1.
    do 2 runs_step. apply runs_bind.
    { destruct S1. apply storePrePrepare_runs; congruence. }
    intros [] w2 E2. pose proof (storePrePrepare_stable p r (ppView p, rqReqID r) w1) as S2.
    rewrite E2 in S2. simpl in S2. pose proof (stable_trans _ _ _ S1 S2) as [].
    do 3 runs_step. apply runs_when_bind.
    + intros Hn%bool_decide_eq_true. unfold GetRequestFromStore in Hn.
      rewrite st_reqStore0 in Hn. rewrite Hn in Hs. by destruct Hs.
    + intros _. apply runs_local_bind; [apply ensureBlock_local|]. intros b w3 [].
      repeat runs_step. apply answerPrePrepare_runs; congruence.
  - apply runs_when_bind.
    + intros Hn%bool_decide_eq_true. apply runs_assoc. runs_step. rename a into r.
      apply runs_assoc. runs_step. apply runs_assoc. runs_step. apply runs_assoc.
      apply orb_false_iff in Hguard0 as [Hl Hv]. apply negb_false_iff, bool_decide_eq_true in Hl.
      apply Z.ltb_ge in Hv. apply runs_seenID_bind; [done|]. intros m.
      apply runs_modify_bind; [by apply act_storeRequest|].
      apply Hrest; [done|]. simpl. rewrite lookup_insert_eq. by eexists.
    + intros Hn%bool_decide_eq_false. apply Hrest; [done|]. by apply not_eq_None_Some.
Qed.

(** [recordCommit] on a height seen before only prunes; on a new one it records,
    prunes, and answers that the height was not present. *)
Lemma recordCommit_eq h hash w :
  recordCommit h hash w =
  match commitStore w !! h with
  | Some _ => (Val true, pruneCommits w)
  | None => (Val false, pruneCommits (w <| commitStore ::= <[h := hash]> |>))
  end.
Proof. unfold recordCommit. cbn. by destruct (commitStore w !! h). Qed.

Lemma sendCommit_runs i p r k err w :
  inputPrepare i p → prView p = view w → isPrepared p w = true →
  reqStore w !! prRequestDigest p = Some r →
  runs i (sendCommit p r k err) w.
Proof.
  intros Hi Hv Hp Hr. unfold sendCommit. do 5 runs_step. apply Z.leb_gt in Hguard.
  runs_step. cbn [vrsign]. runs_step.
  match goal with |- runs _ (bind (recordCommit _ _) (fun ok => bind _ (fun _ =>
    bind _ (fun _ => bind (post (EvConsensusMsg (mkConsensusMsg (JCommit ?cm) _ _ _))) _)))) _ =>
    set (c := cm) end.
  unfold runs, bind at 1. rewrite recordCommit_eq.
  destruct (commitStore w !! rqBlockHeight r) eqn:Ec; [by apply rtc_once, act_pruneCommits|].
  eapply rtc_l.
  { eapply (act_sendCommit i w p r c (clock w)); done. }
  eapply rtc_l; [by apply (act_flags _ _ k (fun ct => ct <| sentCommit := true |>))|].
  eapply rtc_l; [by apply (act_neutral _ _ (Sleep (5 * second)))|].
  eapply rtc_l; [|apply rtc_refl].
  apply (act_ownCommit _ _ c (mkConsensusMsg (JCommit c) (clock w) "PBFTCommit" (nodeID w)));
    [simpl; set_solver|done..].
Qed.

(** What [RecvPrepare] and [RecvPrepare_notTransfer] share: file the prepare and,
    at a quorum, send the commit. *)
Lemma filePrepare_runs {B} i p r (pre : H unit) err (k : unit → H B) w :
  inputPrepare i p → prView p = view w → reqStore w !! prRequestDigest p = Some r →
  local pre → (∀ w', isPrepared p (pre w').2 = isPrepared p w') →
  (∀ w', runs i (k tt) w') →
  runs i (updCert (prView p, prReqID p) (fun c => c <| prepare ::= (fun l => l ++ [p]) |>) ;;
          reached <- get (fun w => isPrepared p w
                                   && negb (sentCommit (certAt (prView p, prReqID p) w))) ;;
          when reached (pre ;; sendCommit p r (prView p, prReqID p) err) ;; k tt) w.
Proof.
  intros Hi Hv Hr Hl Hpre Hk. apply runs_modify_bind; [by apply act_prepare|].
  runs_step. apply runs_bind; [|by intros [] ? _].
  runs_step. apply andb_true_iff in Hguard as [Hp _].
  apply runs_bind; [by apply rtc_once, act_local|]. intros [] w' E.
  match type of E with _ ?w1 = _ => specialize (Hl w1); specialize (Hpre w1) end.
  rewrite E in Hl, Hpre. destruct Hl. simpl in *.
  apply sendCommit_runs; congruence.
Qed.

Lemma RecvPrepare_runs p w : runs (InTask (TRecvPrepare p)) (RecvPrepare p) w.
Proof.
  unfold RecvPrepare. repeat runs_step. apply negb_false_iff, Z.eqb_eq in Hguard. simpl in Hguard.
  apply runs_getCert_bind. pose proof (stable_withCert (prView p, prReqID p) w) as [].
  do 3 runs_step. unfold GetRequestFromStore.
  destruct (reqStore _ !! _) as [r|] eqn:Er; [|runs_step].
  do 6 runs_step.
  match goal with |- runs _ (bind _ (fun _ => bind _ (fun _ => bind (when _ (bind ?pre _)) ?rest))) _ =>
    eapply (filePrepare_runs _ p r pre _ rest) end; try done.
  - by left.
  - congruence.
  - intros w'. cbn. case_match; by split.
  - intros w'. cbn. by case_match.
  - intros w'. by apply sendConMsg_transfer_runs.
Qed.

Lemma RecvPrepare_notTransfer_runs p w :
  runs (InTask (TRecvPrepare_notTransfer p)) (RecvPrepare_notTransfer p) w.
Proof.
  unfold RecvPrepare_notTransfer. repeat runs_step.
  apply negb_false_iff, Z.eqb_eq in Hguard. simpl in Hguard.
  apply runs_getCert_bind. pose proof (stable_withCert (prView p, prReqID p) w) as [].
  do 2 runs_step. unfold GetRequestFromStore.
  destruct (reqStore _ !! _) as [r|] eqn:Er; [|runs_step].
  do 6 runs_step.
  match goal with |- runs _ (bind _ (fun _ => bind _ (fun _ => bind _ ?rest))) _ =>
    eapply (filePrepare_runs _ p r (ret tt) _ rest) end; try done.
  - by right.
  - congruence.
  - intros w'. runs_step. by apply sendConMsg_transfer_runs.
Qed.

(** ** Commits, checkpoints and proposals *)

Lemma insertBlock_runs {B} c (k : unit → H B) w :
  cmView c = view w → committed (cmRequestDigest c) (cmView c) (cmReqID c) w = true →
  GetValidResFromCommit (certAt (cmView c, cmReqID c) w) w = possitive →
  c ∈ commit (certAt (cmView c, cmReqID c) w) →
  (∀ w', runs (InTask (TRecvCommit c)) (k tt) w') →
  runs (InTask (TRecvCommit c)) (insertBlock c ;; k tt) w.
Proof.
  intros Hv Hc Hp Hin Hk. unfold insertBlock. apply runs_assoc. runs_step.
  destruct (Z.ltb_spec (CurrentBlock w) (vrBlockHeight (cmVR c))) as [Hlt|]; [|apply rtc_refl].
  apply runs_bind; [|by intros [] ? _].
  unfold runs. apply rtc_once. cbn. rewrite (proj2 (Z.ltb_lt _ _) Hlt).
  by apply act_insert.
Qed.

Lemma finishRound_runs i c w : runs i (finishRound c) w.
Proof.
  unfold finishRound. do 2 runs_step. runs_step; [by apply act_neutral|].
  apply rtc_once, act_forget.
Qed.

Lemma onCommitted_runs c w :
  cmView c = view w → committed (cmRequestDigest c) (cmView c) (cmReqID c) w = true →
  c ∈ commit (certAt (cmView c, cmReqID c) w) →
  runs (InTask (TRecvCommit c)) (onCommitted c (cmView c, cmReqID c)) w.
Proof.
  intros Hv Hc Hin. unfold onCommitted. do 2 runs_step.
  destruct (GetRequestFromStore _ _) as [r|]; [|runs_step].
  apply runs_bind; [|intros [] w' _; runs_step; apply finishRound_runs].
  runs_step. apply bool_decide_eq_true in Hguard. do 2 runs_step.
  apply (insertBlock_runs c (fun _ => finishRound c)); [done..|].
  intros w'. apply finishRound_runs.
Qed.

Lemma existsb_senders c l :
  existsb (fun p => bool_decide (cmSender p = cmSender c)) l = false →
  cmSender c ∉ cmSender <$> l.
Proof.
  intros He (x & Hx & Hl)%list_elem_of_fmap. apply not_true_iff_false in He. apply He.
  apply existsb_exists. exists x. rewrite <- list_elem_of_In, bool_decide_eq_true. done.
Qed.

Lemma certAt_alter_withCert f k w :
  certAt k ((withCert k w) <| certStore ::= alter f k |>) = f (certAt k w).
Proof.
  unfold certAt, withCert. destruct (certStore w !! k) as [c|] eqn:E; simpl;
    rewrite lookup_alter_eq; [by rewrite E|by rewrite lookup_insert_eq].
Qed.

Lemma RecvCommit_runs c w : runs (InTask (TRecvCommit c)) (RecvCommit c) w.
Proof.
  unfold RecvCommit. repeat runs_step. rename Hguard1 into Hh. apply Z.leb_gt in Hh.
  apply negb_false_iff, Z.eqb_eq in Hguard. simpl in Hguard.
  apply runs_getCert_bind. pose proof (stable_withCert (cmView c, cmReqID c) w) as [].
  do 2 runs_step. apply existsb_senders in Hguard1.
  apply runs_modify_bind; [apply act_commit; [done|congruence..|done]|].
  runs_step. apply runs_bind; [|intros [] w' _; by apply sendConMsg_transfer_runs].
  runs_step. apply onCommitted_runs; [simpl; congruence|done|].
  pose proof (certAt_alter_withCert (fun ct => ct <| commit ::= (fun l => l ++ [c]) |>)
    (cmView c, cmReqID c) w) as Hcert. simpl in Hcert. rewrite Hcert. set_solver.
Qed.

Lemma RecvCheckpoint_runs i c w : runs i (RecvCheckpoint c) w.
Proof.
  unfold RecvCheckpoint. apply runs_deferred; [|intros w'; apply runs_local; by split].
  runs_step. apply runs_local_bind; [intros ?; by split|]. intros _ w1 _.
  do 2 runs_step. apply runs_local_bind; [intros ?; cbn; case_match; by split|]. intros _ w2 _.
  do 2 runs_step. apply runs_local_bind; [intros ?; apply sameCore_cancelConsensus|]. intros _ w3 _.
  apply runs_local_bind; [apply local_DeletePVBAndBeats|]. intros _ w4 _.
  do 2 (apply runs_local_bind; [intros ?; by split|]; intros _ ? _).
  runs_step.
Qed.

Lemma SendRequest_runs i b s w :
  proposed i b → ISLeader w = true → runs i (SendRequest b s) w.
Proof.
  intros Hb Hl. unfold SendRequest, runs. cbn.
  destruct (Z.leb_spec (blNumber b) (CurrentBlock w)) as [Hle|Hgt].
  - apply rtc_once, act_bumpReqID; [by exists b|done].
  - apply rtc_once. cbn. rewrite <- !app_assoc. simpl.
    match goal with |- context [Go (TRecvRequest ?r)] =>
      apply (act_propose i w r b (clock w)) end; done.
Qed.

Lemma ISLeader_sameCore w w' : sameCore w w' → ISLeader w' = ISLeader w.
Proof. intros []. unfold ISLeader, GetSelfNodeID. simpl. by rewrite sc_leader0, sc_nodeID0. Qed.

Lemma mineBlock_runs w : ISLeader w = true → runs (InTask TStartConsensus) mineBlock w.
Proof.
  intros Hl. unfold mineBlock, openContext. apply runs_assoc. runs_step.
  destruct (consensusCtx w); [|apply rtc_refl|];
    (apply runs_local_bind; [intros ?; by split|]; intros _ w1 S1;
     apply runs_local_bind; [intros ?; by split|]; intros _ w2 S2;
     do 2 runs_step;
     apply runs_local_bind; [intros ?; by split|]; intros _ w3 S3;
     runs_step;
     apply runs_local_bind; [apply local_PutPVBAndBeats|]; intros _ w4 S4;
     apply runs_local_bind; [intros ?; by split|]; intros _ w5 S5;
     apply runs_bind;
       [apply SendRequest_runs; [vm_compute; reflexivity|];
        by rewrite (ISLeader_sameCore _ _ S5), (ISLeader_sameCore _ _ S4),
          (ISLeader_sameCore _ _ S3), (ISLeader_sameCore _ _ S2), (ISLeader_sameCore _ _ S1)|];
     intros [] w6 _; apply runs_local_bind; [intros ?; by split|]; intros _ w7 _;
     apply runs_local, local_logLocalMinedBlocks).
Qed.

Lemma StartConsensus_runs w : runs (InTask TStartConsensus) StartConsensus w.
Proof.
  unfold StartConsensus. do 2 runs_step. apply runs_bind.
  - runs_step. apply runs_when. intros _.
    apply runs_local_bind; [intros ?; by split|]. intros _ w1 _. runs_step.
  - intros [] w1 _. runs_step. unfold CanMining.
    destruct (mining w1); [by apply runs_local|].
    case_bool_decide; [by apply runs_local|].
    destruct (ISLeader w1) eqn:El; simpl; [|by apply runs_local].
    destruct (Ready w1); [by apply mineBlock_runs|by apply runs_local].
Qed.

(** Every step of a replica is a sequence of actions. *)
Lemma handle_runs i w : runs i (handle i) w.
Proof.
  destruct i as [[r|p|p|p|c| |]|c| |t|b s]; simpl.
  - apply RecvRequest_runs.
  - apply RecvPrePrepare_runs.
  - apply RecvPrepare_runs.
  - apply RecvPrepare_notTransfer_runs.
  - apply RecvCommit_runs.
  - apply StartConsensus_runs.
  - unfold SyncConStatus. runs_step. runs_step. by apply act_neutral.
  - apply RecvCheckpoint_runs.
  - apply runs_local, local_expirationTick.
  - apply runs_local. by split.
  - unfold runs. destruct (ISLeader w) eqn:El; [by apply SendRequest_runs|apply rtc_refl].
Qed.
