(* ===== verification/Safety.v ===== *)
(** * eth: what one replica guarantees whatever it receives

    Invariants of a replica under arbitrary inputs, forged and malformed ones
    included, by rule induction on the actions of [Replica.v]: certificates are
    well formed, a block height is committed to at most once, the chain height
    counts the inserted blocks, and each insertion is backed by a quorum of
    distinct positive commits that were received. *)

From stdpp Require Import base gmap strings list relations.
From Stdlib Require Import ZArith Lia.
From S2P Require Import Prelude Common Types Worker Quorum Pbft Mining Scenario Replica.

(** ** The trace *)

(** The commits a replica broadcasts as its own, and the blocks it inserts. *)
Definition ownCommit (e : effect) : option Commit :=
  match e with
  | Post (EvConsensusMsg m) => match coMsg m with JCommit c => Some c | _ => None end
  | _ => None
  end.

Definition insertion (e : effect) : option Commit :=
  match e with InsertChainWithVRS c => Some c | _ => None end.

Definition commitsOut (w : worker) : list Commit := omap ownCommit (out w).
Definition inserted (w : worker) : list Commit := omap insertion (out w).

Definition cmHeight (c : Commit) : Z := vrBlockHeight (cmVR c).

(** The heights in a commit message fit their Go type. *)
Definition wtInput (i : input) : Prop :=
  match i with InTask (TRecvCommit c) => is_u64 (cmHeight c) | _ => True end.

(** ** Invariants by rule induction *)

Lemma handle_invariant (I : worker → Prop) i w :
  (∀ w w', I w → act i w w' → I w') → I w → I (handle i w).2.
Proof.
  intros Hact. pose proof (handle_runs i w) as Hr. unfold runs in Hr.
  induction Hr as [|x y z Hxy _ IH]; [done|]. intros Hx. by eapply IH, Hact.
Qed.

Lemma run_invariant (P : input → Prop) (I : worker → Prop) l w :
  (∀ i w w', P i → I w → act i w w' → I w') → Forall P l → I w → I (run l w).
Proof.
  intros Hact HP. unfold run. revert w.
  induction HP as [|i l Hi HP IH]; intros w Hw; simpl; [done|].
  apply IH, handle_invariant; [|done]. intros w1 w2. by apply Hact.
Qed.

Lemma run_app l1 l2 w : run (l1 ++ l2) w = run l2 (run l1 w).
Proof. apply foldl_app. Qed.

(** *** Heights and commits *)

Record onceInv (w : worker) : Prop := mkOnceInv {
  on_once : NoDup (cmHeight <$> commitsOut w);
  on_recorded : ∀ c, c ∈ commitsOut w →
    is_Some (commitStore w !! cmHeight c) ∨ (cmHeight c < CurrentBlock w)%Z;
  on_range : is_u64 (CurrentBlock w) }.

(** What an appended effect contributes to the two traces. *)
Lemma commitsOut_addOut l w : commitsOut (addOut l w) = commitsOut w ++ omap ownCommit l.
Proof. unfold commitsOut, addOut. simpl. apply omap_app. Qed.

Lemma inserted_addOut l w : inserted (addOut l w) = inserted w ++ omap insertion l.
Proof. unfold inserted, addOut. simpl. apply omap_app. Qed.

Lemma neutral_effect e : neutral e → ownCommit e = None ∧ insertion e = None.
Proof.
  destruct e as [[m|m|c|]|[]| |]; simpl; try done. by destruct (coMsg m).
Qed.

Lemma prune_recorded w h :
  is_Some (commitStore w !! h) ∨ (h < CurrentBlock w)%Z →
  is_Some (commitStore (pruneCommits w) !! h) ∨ (h < CurrentBlock w)%Z.
Proof.
  intros [[x Hx]|]; [|by right].
  destruct (decide (h < CurrentBlock w)%Z) as [|Hge]; [by right|left].
  exists x. simpl. by apply map_lookup_filter_Some_2.
Qed.

Lemma onceInv_frame w w' :
  commitsOut w' = commitsOut w → commitStore w' = commitStore w →
  CurrentBlock w' = CurrentBlock w → onceInv w → onceInv w'.
Proof. intros H1 H2 H3 []. split; rewrite ?H1, ?H2, ?H3; done. Qed.

Lemma onceInv_addOut l w : omap ownCommit l = [] → onceInv w → onceInv (addOut l w).
Proof.
  intros Hl. apply onceInv_frame; [|done..]. by rewrite commitsOut_addOut, Hl, app_nil_r.
Qed.

Lemma onceInv_sendCommit w c r l :
  cmHeight c = rqBlockHeight r → omap ownCommit l = [c] →
  (CurrentBlock w < rqBlockHeight r)%Z → commitStore w !! rqBlockHeight r = None →
  onceInv w →
  onceInv (addOut l (pruneCommits (w <| commitStore ::= <[rqBlockHeight r := rqBlockHash r]> |>))).
Proof.
  intros Hc Hl Hh Hn [Ho Hr Hu].
  set (w1 := w <| commitStore ::= <[rqBlockHeight r := rqBlockHash r]> |>).
  assert (∀ c', c' ∈ commitsOut w ++ [c] →
            is_Some (commitStore (pruneCommits w1) !! cmHeight c') ∨ (cmHeight c' < CurrentBlock w1)%Z)
    as Hrec.
  { intros c' Hc'. apply prune_recorded. simpl.
    destruct (decide (rqBlockHeight r = cmHeight c')) as [->|Hne].
    { rewrite lookup_insert_eq. left. by eexists. }
    rewrite lookup_insert_ne by done. apply Hr. set_solver. }
  split; [..|done]; rewrite commitsOut_addOut, Hl.
  - change (commitsOut (pruneCommits w1)) with (commitsOut w).
    rewrite fmap_app. apply NoDup_app. split_and!; [done| |apply NoDup_singleton].
    intros h (c' & -> & Hc')%list_elem_of_fmap Heq%list_elem_of_singleton.
    apply Hr in Hc'. rewrite Heq, Hc, Hn in Hc'. destruct Hc' as [[? [=]]|]. lia.
  - exact Hrec.
Qed.

Lemma onceInv_next w :
  onceInv w → is_u64 (CurrentBlock w + 1) →
  onceInv (w <| CurrentBlock ::= (fun n => u64 (n + 1)) |>).
Proof.
  intros [Ho Hr Hu] Hn. split; simpl; rewrite ?u64_small by done; [done| |done].
  intros c Hc. destruct (Hr c Hc) as [?|?]; [by left|right; lia].
Qed.

Lemma onceInv_act i w w' : wtInput i → onceInv w → act i w w' → onceInv w'.
Proof.
  intros Hwt Hw Ha. destruct Ha; try (by apply onceInv_addOut); try (by destruct Hw; split).
  - destruct H. eapply onceInv_frame; [|done..]. unfold commitsOut. by rewrite sc_out.
  - apply onceInv_addOut; [|done]. simpl. by destruct (neutral_effect e H) as [-> _].
  - apply onceInv_addOut; [|done]. by destruct H4 as [-> | ->].
  - apply onceInv_addOut; [|done]. by destruct H3 as [-> | ->].
  - destruct Hw as [Ho Hr Hu]. split; [done| |done]. intros c Hc.
    apply (prune_recorded w), (Hr c). exact Hc.
  - eapply onceInv_sendCommit; try done. apply H0.
  - subst i. apply onceInv_next.
    + by apply onceInv_addOut.
    + simpl in *. unfold is_u64, cmHeight in *. destruct Hw as [_ _ Hu]. unfold is_u64 in Hu. lia.
  - by apply onceInv_addOut; [|destruct Hw; split].
Qed.

(** *** Certificates *)

Record certOK (k : msgID) (c : msgCert) : Prop := mkCertOK {
  ck_prePrepare : ∀ p, prePrepare c = Some p →
    ppView p = k.1 ∧ ∃ r, ppRequest p = Some r ∧ rqReqID r = k.2;
  ck_prepare : ∀ p, p ∈ prepare c → prView p = k.1 ∧ prReqID p = k.2;
  ck_commit : ∀ q, q ∈ commit c → cmView q = k.1 ∧ cmReqID q = k.2;
  ck_senders : NoDup (cmSender <$> commit c) }.

Definition certInv (w : worker) : Prop := map_Forall certOK (certStore w).

Lemma certOK_empty k : certOK k emptyCert.
Proof. split; try done; simpl; [set_solver..|constructor]. Qed.

Lemma certInv_alter w k f :
  certInv w → (∀ c, certStore w !! k = Some c → certOK k c → certOK k (f c)) →
  certInv (w <| certStore ::= alter f k |>).
Proof.
  intros Hw Hf k' c'. simpl. rewrite lookup_alter_Some.
  intros [(<- & c & Hc & ->)|(_ & Hc)]; [apply Hf; [done|]|]; by apply Hw.
Qed.

Lemma certAt_lookup w k c : certStore w !! k = Some c → certAt k w = c.
Proof. unfold certAt. by intros ->. Qed.

Lemma certInv_act i w w' : certInv w → act i w w' → certInv w'.
Proof.
  intros Hw Ha. destruct Ha; try exact Hw.
  - destruct H. unfold certInv. by rewrite sc_certStore.
  - apply map_Forall_insert_2; [apply certOK_empty|done].
  - apply certInv_alter; [done|]. intros c _ []. destruct (H c) as (E1 & E2 & E3).
    by split; rewrite ?E1, ?E2, ?E3.
  - apply certInv_alter; [done|]. intros c _ []. destruct (H3 c) as (E1 & E2 & E3).
    split; rewrite ?E1, ?E2, ?E3; [|done..]. intros p' [= <-]. split; [done|]. by exists r.
  - apply certInv_alter; [done|]. intros c _ []. split; simpl; try done.
    intros p' [?| ->%list_elem_of_singleton]%elem_of_app; [auto|done].
  - apply certInv_alter; [done|]. intros ct Hct []. split; simpl; try done.
    + intros c' [?| ->%list_elem_of_singleton]%elem_of_app; [auto|done].
    + rewrite (certAt_lookup _ _ _ Hct) in H2.
      rewrite fmap_app. apply NoDup_app. split_and!; [done| |apply NoDup_singleton].
      set_solver.
  - intros k c. simpl. intros [Hc _]%map_lookup_filter_Some. by apply Hw.
Qed.

(** *** Insertions *)

(** [q] is backed by [Rv] when the commits in [Rv] for the view and request id of
    [q] have at least a quorum of distinct senders with a positive opinion. *)
Definition backed (N : Z) (Rv : Commit → Prop) (q : Commit) : Prop :=
  ∃ S : gset string, (quorumOf N ≤ Z.of_nat (size S))%Z ∧
    ∀ s, s ∈ S → ∃ c, Rv c ∧ cmSender c = s ∧ cmView c = cmView q ∧ cmReqID c = cmReqID q ∧
                      vrOpinion (cmVR c) = true.

(** A committed request has its certificate. *)
Lemma committed_cert d v n w :
  committed d v n w = true → is_Some (certStore w !! (v, n)).
Proof.
  unfold committed. destruct (prepared d v n w); [|done]. simpl.
  by destruct (certStore w !! (v, n)).
Qed.

Section insertions.
Context (N : Z) (Rv : Commit → Prop).

Record insertInv (w : worker) : Prop := mkInsertInv {
  in_numN : numN w = N;
  in_certs : certInv w;
  in_received : ∀ k c q, certStore w !! k = Some c → q ∈ commit c → Rv q;
  in_backed : ∀ q, q ∈ inserted w → Rv q ∧ backed N Rv q }.

(** The commits counted by a positive vote are a quorum of distinct senders. *)
Lemma positive_backed w q ct :
  certStore w !! (cmView q, cmReqID q) = Some ct → certOK (cmView q, cmReqID q) ct →
  (∀ c, c ∈ commit ct → Rv c) →
  GetValidResFromCommit ct w = possitive → backed (numN w) Rv q.
Proof.
  intros Hct [_ _ Hk _] Hrv. rewrite GetValidResFromCommit_tally.
  destruct (Z.leb_spec (getQuorum w) (posVotes (commit ct))) as [Hq|]; [|by case_match]. intros _.
  destruct (firstVotes_senders ∅ (commit ct)) as [Hnd Hin].
  set (l := List.filter (fun c => vrOpinion (cmVR c)) (firstVotes ∅ (commit ct))).
  assert (l `sublist_of` firstVotes ∅ (commit ct)) as Hsub.
  { apply List_filter_sublist. }
  exists (list_to_set (cmSender <$> l)). split.
  - rewrite size_list_to_set.
    + rewrite length_fmap. exact Hq.
    + eapply sublist_NoDup; [exact Hnd|]. by apply fmap_sublist.
  - intros s. rewrite elem_of_list_to_set. intros (c & -> & Hc)%list_elem_of_fmap.
    assert (c ∈ commit ct) as Hcc by (by apply Hin, (sublist_subseteq l)).
    destruct (Hk c Hcc). exists c. split_and!; try done; [by apply Hrv|].
    apply list_elem_of_In, List.filter_In in Hc. by destruct Hc.
Qed.

Lemma insertInv_frame w w' :
  numN w' = numN w → certStore w' = certStore w → inserted w' = inserted w →
  insertInv w → insertInv w'.
Proof.
  intros E1 E2 E3 []. split; rewrite ?E1, ?E2, ?E3; try done. unfold certInv. by rewrite E2.
Qed.

Lemma insertInv_addOut l w : omap insertion l = [] → insertInv w → insertInv (addOut l w).
Proof.
  intros Hl. apply insertInv_frame; [done..|]. by rewrite inserted_addOut, Hl, app_nil_r.
Qed.

Lemma insertInv_certs w w' :
  numN w' = numN w → inserted w' = inserted w → certInv w' →
  (∀ k c q, certStore w' !! k = Some c → q ∈ commit c → Rv q) → insertInv w → insertInv w'.
Proof. intros E1 E2 Hc Hr []. split; rewrite ?E1, ?E2; done. Qed.

Lemma received_alter w k f :
  (∀ k c q, certStore w !! k = Some c → q ∈ commit c → Rv q) →
  (∀ c q, q ∈ commit (f c) → q ∈ commit c ∨ Rv q) →
  ∀ k' c q, certStore (w <| certStore ::= alter f k |>) !! k' = Some c → q ∈ commit c → Rv q.
Proof.
  intros Hw Hf k' c' q. simpl. rewrite lookup_alter_Some.
  intros [(<- & c & Hc & ->)|(_ & Hc)]; [|by eapply Hw].
  intros [Hq|?]%Hf; [by eapply Hw|done].
Qed.

Lemma insertInv_act i w w' :
  (∀ c, i = InTask (TRecvCommit c) → Rv c) → insertInv w → act i w w' → insertInv w'.
Proof.
  intros Hrv Hw Ha. pose proof (certInv_act i w w' (in_certs w Hw) Ha) as Hcert.
  pose proof Hw as [Hn Hc Hr Hb].
  destruct Ha; try (by apply insertInv_addOut); try (by apply (insertInv_frame w)).
  - destruct H. apply (insertInv_frame w); [done..| |done]. unfold inserted. by rewrite sc_out.
  - apply insertInv_addOut; [|done]. simpl. by destruct (neutral_effect e H) as [_ ->].
  - apply (insertInv_certs w); [done..| |done]. intros k' c q. simpl.
    rewrite lookup_insert_Some. intros [[_ <-]|[_ Hk]]; [set_solver|by eapply Hr].
  - apply (insertInv_certs w); [done..| |done]. apply received_alter; [done|].
    intros c q. destruct (H c) as (_ & _ & ->). by left.
  - apply (insertInv_certs w); [done..| |done]. apply received_alter; [done|].
    intros c q. destruct (H3 c) as (_ & _ & ->). by left.
  - apply (insertInv_certs w); [done..| |done]. apply received_alter; [done|]. by left.
  - apply (insertInv_certs w); [done..| |done]. apply received_alter; [done|]. simpl.
    intros ct q [?| ->%list_elem_of_singleton]%elem_of_app; [by left|right]. by apply Hrv.
  - apply insertInv_addOut; [|done]. by destruct H4 as [-> | ->].
  - apply insertInv_addOut; [|done]. by destruct H3 as [-> | ->].
  - apply (insertInv_frame (addOut [InsertChainWithVRS c] w)); [done..|]. split; try done.
    intros q. rewrite inserted_addOut. simpl.
    intros [?| ->%list_elem_of_singleton]%elem_of_app; [by apply Hb|].
    split; [by apply Hrv|]. rewrite <- Hn.
    apply committed_cert in H1 as [ct Hct]. rewrite (certAt_lookup _ _ _ Hct) in H2.
    eapply positive_backed; [done| | |done]; [by apply Hc|]. intros c'. by eapply Hr.
  - apply (insertInv_certs w); [done..| |done]. intros k c q. simpl.
    intros [Hk _]%map_lookup_filter_Some. by eapply Hr.
Qed.

End insertions.

(** *** The chain height *)

Record heightInv (w : worker) : Prop := mkHeightInv {
  hi_count : CurrentBlock w = (1 + Z.of_nat (length (inserted w)))%Z;
  hi_range : is_u64 (CurrentBlock w);
  hi_above : ∀ j q, inserted w !! j = Some q → (1 + Z.of_nat j < cmHeight q)%Z }.

Lemma heightInv_frame w w' :
  CurrentBlock w' = CurrentBlock w → inserted w' = inserted w → heightInv w → heightInv w'.
Proof. intros E1 E2 []. by split; rewrite ?E1, ?E2. Qed.

Lemma heightInv_addOut l w : omap insertion l = [] → heightInv w → heightInv (addOut l w).
Proof. intros Hl. apply heightInv_frame; [done|]. by rewrite inserted_addOut, Hl, app_nil_r. Qed.

Lemma heightInv_insert c w :
  heightInv w → is_u64 (cmHeight c) → (CurrentBlock w < cmHeight c)%Z →
  heightInv ((addOut [InsertChainWithVRS c] w) <| CurrentBlock ::= (fun n => u64 (n + 1)) |>).
Proof.
  intros [Hc Hr Ha] Hu Hlt.
  assert (u64 (CurrentBlock w + 1) = CurrentBlock w + 1)%Z as Heq.
  { apply u64_small. unfold is_u64 in *. lia. }
  assert (inserted ((addOut [InsertChainWithVRS c] w) <| CurrentBlock ::= (fun n => u64 (n + 1)) |>)
          = inserted w ++ [c]) as Hins by apply (inserted_addOut [InsertChainWithVRS c] w).
  split; rewrite ?Hins.
  - simpl. rewrite Heq, length_app, Hc. simpl. lia.
  - simpl. rewrite Heq. unfold is_u64 in *. lia.
  - intros j q [Hj|[Hj [Hz <-]%list_lookup_singleton_Some]]%lookup_app_Some; [by apply Ha|].
    unfold is_u64 in *. lia.
Qed.

Lemma heightInv_act i w w' : wtInput i → heightInv w → act i w w' → heightInv w'.
Proof.
  intros Hwt Hw Ha.
  destruct Ha; try (by apply heightInv_addOut); try (by apply (heightInv_frame w)).
  - destruct H. apply (heightInv_frame w); [done| |done]. unfold inserted. by rewrite sc_out.
  - apply heightInv_addOut; [|done]. simpl. by destruct (neutral_effect e H) as [_ ->].
  - apply heightInv_addOut; [|done]. by destruct H4 as [-> | ->].
  - apply heightInv_addOut; [|done]. by destruct H3 as [-> | ->].
  - apply heightInv_addOut; [done|]. by apply (heightInv_frame w).
  - subst i. by apply heightInv_insert.
  - apply heightInv_addOut; [done|]. by apply (heightInv_frame w).
Qed.

(** ** From start-up *)

Lemma Initt_state con started now w :
  Initt con started now = Some w →
  numN w = Peersnum con ∧ CurrentBlock w = 1%Z ∧ view w = 1%Z ∧ ready w = true ∧
  LastReqID w = 1%Z ∧ out w = [] ∧ certStore w = ∅ ∧ reqStore w = ∅ ∧ commitStore w = ∅ ∧
  nodeID w = "127.0.0.1" +:+ Myport con.
Proof. unfold Initt. destruct (Peers con); [done|]. by intros [= <-]. Qed.

Lemma onceInv_init con started now w : Initt con started now = Some w → onceInv w.
Proof.
  intros (_ & Hc & _ & _ & _ & Ho & _)%Initt_state. unfold commitsOut.
  split; unfold commitsOut; rewrite ?Ho, ?Hc; [constructor|set_solver|].
  unfold is_u64, two64. lia.
Qed.

Lemma heightInv_init con started now w : Initt con started now = Some w → heightInv w.
Proof.
  intros (_ & Hc & _ & _ & _ & Ho & _)%Initt_state.
  split; unfold inserted; rewrite ?Ho, ?Hc; [done| |done]. unfold is_u64, two64. lia.
Qed.

Lemma insertInv_init Rv con started now w :
  Initt con started now = Some w → insertInv (Peersnum con) Rv w.
Proof.
  intros (Hn & _ & _ & _ & _ & Ho & Hs & _)%Initt_state.
  split; unfold inserted, certInv; rewrite ?Ho, ?Hs; [done|apply map_Forall_empty|done|set_solver].
Qed.

(** ** Theorems *)

(** C6. Refinement: whatever the input and the state, handling it is a sequence of the
    guarded actions of the abstract replica. *)
Theorem handle_refines (i : input) (w : worker) : rtc (act i) w (handle i w).2.
Proof. apply handle_runs. Qed.

(** C2. Commit once: started from [Initt] and fed any sequence of inputs, forged and
    replayed messages included, a replica never broadcasts two commits for the
    same block height. *)
Theorem commit_once (con : Config) (started now : Z) (w : worker) (l : list input) :
  Initt con started now = Some w → Forall wtInput l →
  NoDup (cmHeight <$> commitsOut (run l w)).
Proof.
  intros Hi Hl. apply on_once.
  eapply (run_invariant wtInput); [apply onceInv_act|done|by eapply onceInv_init].
Qed.



(** C3. Insertions are backed by votes: after any sequence of inputs, each block a
    replica has inserted was carried by a received commit, and commits for the same
    view and request id with a positive opinion were received from a quorum of
    distinct senders. *)
Theorem insertions_backed (con : Config) (started now : Z) (w : worker) (l : list input)
    (q : Commit) :
  Initt con started now = Some w → q ∈ inserted (run l w) →
  InTask (TRecvCommit q) ∈ l ∧
  backed (Peersnum con) (fun c => InTask (TRecvCommit c) ∈ l) q.
Proof.
  intros Hi. apply (in_backed (Peersnum con) (fun c => InTask (TRecvCommit c) ∈ l)).
  eapply (run_invariant (fun i => i ∈ l)); [|by apply Forall_forall|by eapply insertInv_init].
  intros i w1 w2 Hin. apply insertInv_act. by intros c <-.
Qed.


(** ** Instances *)

Lemma demoRound_wt : Forall wtInput demoRound.
Proof. repeat constructor; vm_compute; congruence. Qed.

Lemma commit_once_witness : NoDup (cmHeight <$> commitsOut (run demoRound (demoNode ":3001"))).
Proof. apply (commit_once (demoConfig ":3001") 0 0); [reflexivity|apply demoRound_wt]. Defined.



Lemma insertions_backed_witness :
  backed 4 (fun c => InTask (TRecvCommit c) ∈ demoRound) (demoCommit (demoName ":3002")).
Proof.
  apply (insertions_backed (demoConfig ":3001") 0 0 (demoNode ":3001")); [reflexivity|].
  apply (bool_decide_unpack _). vm_compute. reflexivity.
Defined.
