(* ===== verification/Known.v ===== *)
(** * eth: where a replica's messages come from

    Messages a replica stores or sends stem from requests the leader proposed:
    the per-replica part of the agreement argument.  [VR] is the set of proposed
    requests and [auth] the set of commits their signed senders broadcast; both
    are instantiated with the global trace in [Cluster.v]. *)

From stdpp Require Import base gmap strings list relations.
From Stdlib Require Import ZArith Lia.
From S2P Require Import Prelude Common Types Worker Quorum Pbft Mining Scenario Replica Safety.

(** The requests a replica broadcasts. *)
Definition ownRequest (e : effect) : option Request :=
  match e with
  | Post (EvConsensusMsg m) => match coMsg m with JRequest r => Some r | _ => None end
  | _ => None
  end.

Definition requestsOut (w : worker) : list Request := omap ownRequest (out w).

Lemma requestsOut_addOut l w : requestsOut (addOut l w) = requestsOut w ++ omap ownRequest l.
Proof. unfold requestsOut, addOut. simpl. apply omap_app. Qed.

Lemma neutral_request e : neutral e → ownRequest e = None.
Proof. destruct e as [[m|m|c|]|[]| |]; simpl; try done. by destruct (coMsg m). Qed.

(** An action broadcasts no request, or the one that is being proposed. *)
Lemma requestsOut_act i w w' :
  act i w w' →
  requestsOut w' = requestsOut w ∨
  ∃ r b, requestsOut w' = requestsOut w ++ [r] ∧ proposed i b ∧
    rqBlockHeight r = blNumber b ∧ rqBlockHash r = BlockHash_of b ∧
    ISLeader w = true ∧ rqReqID r = u64 (LastReqID w + 1).
Proof.
  intros Ha.
  destruct Ha; try (by left); try (left; rewrite requestsOut_addOut; simpl; by rewrite app_nil_r).
  - left. destruct H. unfold requestsOut. by rewrite sc_out.
  - left. rewrite requestsOut_addOut. simpl. by rewrite (neutral_request e H), app_nil_r.
  - left. rewrite requestsOut_addOut. by destruct H4 as [-> | ->]; simpl; rewrite app_nil_r.
  - left. rewrite requestsOut_addOut. by destruct H3 as [-> | ->]; simpl; rewrite app_nil_r.
  - left. etrans; [apply (requestsOut_addOut [InsertChainWithVRS c] w)|]. apply app_nil_r.
  - right. exists r, b. by rewrite requestsOut_addOut.
Qed.

(** The trace only grows. *)
Lemma out_act i w w' : act i w w' → out w `prefix_of` out w'.
Proof.
  intros Ha. destruct Ha; simpl; try done; try (by apply prefix_app_r).
  destruct H. by rewrite sc_out.
Qed.

Lemma out_rtc i w w' : rtc (act i) w w' → out w `prefix_of` out w'.
Proof. induction 1 as [|x y z Ha _ IH]; [done|]. etrans; [by eapply out_act|exact IH]. Qed.

Lemma handle_out i w : out w `prefix_of` out (handle i w).2.
Proof. apply (out_rtc i), handle_runs. Qed.

Lemma omap_prefix {A B} (f : A → option B) l l' x :
  l `prefix_of` l' → x ∈ omap f l → x ∈ omap f l'.
Proof. intros [k ->]. rewrite omap_app. set_solver. Qed.

Section known.
Context (VR : Request → Prop) (auth : Commit → Prop).
Context (VR_id : ∀ r, VR r → is_u64 (rqReqID r)).

Definition okPP (p : PrePrepare) : Prop :=
  ∃ r, VR r ∧ ppRequest p = Some r ∧ ppReqID p = rqReqID r ∧ ppRequestDigest p = newhashReq r.

Definition okPr (p : Prepare) : Prop :=
  ∃ r, VR r ∧ prReqID p = rqReqID r ∧ prRequestDigest p = newhashReq r.

Definition okCm (c : Commit) : Prop :=
  auth c ∧ ∃ r, VR r ∧ cmReqID c = rqReqID r ∧ cmRequestDigest c = newhashReq r ∧
                cmHeight c = rqBlockHeight r ∧ vrBlockHash (cmVR c) = rqBlockHash r.

Definition okJson (j : jsonText) : Prop :=
  match j with
  | JRequest r => VR r
  | JPrePrepare p => okPP p
  | JPrepare p => okPr p
  | JCommit c => okCm c
  | JConStatusRequest _ => True
  end.

Definition okTask (t : task) : Prop :=
  match t with
  | TRecvRequest r => VR r
  | TRecvPrePrepare p => okPP p
  | TRecvPrepare p | TRecvPrepare_notTransfer p => okPr p
  | TRecvCommit c => okCm c
  | TStartConsensus | TSyncConStatus => True
  end.

Definition okEffect (e : effect) : Prop :=
  match e with
  | Post (EvConsensusMsg m) => okJson (coMsg m)
  | Post (EvConsensusMsg2 m) => okJson (c2Msg m)
  | Go t => okTask t
  | InsertChainWithVRS c => okCm c
  | _ => True
  end.

Definition okInput (i : input) : Prop := match i with InTask t => okTask t | _ => True end.

Definition okCert (c : msgCert) : Prop :=
  (∀ p, prePrepare c = Some p → okPP p) ∧ (∀ p, p ∈ prepare c → okPr p) ∧
  (∀ q, q ∈ commit c → okCm q).

Record known (w : worker) : Prop := mkKnown {
  kn_req : ∀ d r, reqStore w !! d = Some r → VR r ∧ d = newhashReq r;
  kn_cert : ∀ k c, certStore w !! k = Some c → okCert c;
  kn_out : ∀ e, e ∈ out w → okEffect e }.

(** The digest determines the request id. *)
Lemma newhashReq_id r r' : VR r → VR r' → newhashReq r = newhashReq r' → rqReqID r = rqReqID r'.
Proof. intros ?? He. apply Itoa_i64_inj; [by apply VR_id..|done]. Qed.

Lemma neutral_ok e : neutral e → okEffect e.
Proof. destruct e as [[m|m|c|]|[]| |]; simpl; try done. by destruct (coMsg m). Qed.

Lemma known_frame w w' :
  reqStore w' = reqStore w → certStore w' = certStore w → out w' = out w → known w → known w'.
Proof. intros E1 E2 E3 []. split; rewrite ?E1, ?E2, ?E3; done. Qed.

Lemma known_addOut l w : Forall okEffect l → known w → known (addOut l w).
Proof.
  intros Hl []. split; [done..|]. intros e. simpl. rewrite elem_of_app.
  rewrite Forall_forall in Hl. naive_solver.
Qed.

Lemma known_alter w k f :
  (∀ c, okCert c → okCert (f c)) → known w → known (w <| certStore ::= alter f k |>).
Proof.
  intros Hf []. split; [done| |done]. intros k' c'. simpl. rewrite lookup_alter_Some.
  intros [(<- & c & Hc & ->)|(_ & Hc)]; [apply Hf|]; by eapply kn_cert0.
Qed.

Lemma okCert_at w k : known w → okCert (certAt k w).
Proof.
  intros []. unfold certAt. destruct (certStore w !! k) as [c|] eqn:E; simpl; [by eapply kn_cert0|].
  split_and!; simpl; [done|set_solver..].
Qed.

Lemma carries_ok i d r : okInput i → carries i d r → VR r ∧ d = newhashReq r.
Proof.
  destruct i as [[]| | | |]; simpl; try done; [by intros ? [-> ->]|].
  intros (r' & ? & E & _ & ?) [? ->]. naive_solver.
Qed.

Lemma inputPrePrepare_ok i w p : okInput i → inputPrePrepare i w p → okPP p.
Proof.
  intros Hi [-> |(r & -> & ->)]; [done|]. by exists r.
Qed.

Lemma inputPrepare_ok i p : okInput i → inputPrepare i p → okPr p.
Proof. by intros Hi [-> | ->]. Qed.

Lemma commitsTo_ok i w p r c :
  okInput i → known w → inputPrepare i p → commitsTo w p r c →
  reqStore w !! prRequestDigest p = Some r → auth c → okCm c.
Proof.
  intros Hi Hw Hp (_ & _ & Hid & Hd & _ & _ & Hh & Hb) Hr Ha.
  destruct (inputPrepare_ok i p Hi Hp) as (r' & Hv' & Hid' & Hd').
  destruct (kn_req w Hw _ _ Hr) as [Hv Hdig]. split; [done|]. exists r.
  split_and!; try done; [|congruence].
  rewrite Hid, Hid'. apply newhashReq_id; [done..|congruence].
Qed.

Lemma known_act i w w' :
  okInput i → (∀ r, r ∈ requestsOut w' → VR r) → (∀ c, c ∈ commitsOut w' → auth c) →
  known w → act i w w' → known w'.
Proof.
  intros Hi Hreq Hcm Hw Ha. destruct Ha.
  - destruct H. by apply (known_frame w).
  - apply known_addOut; [|done]. repeat constructor. by apply neutral_ok.
  - by apply (known_frame w).
  - destruct (carries_ok i d r Hi H) as [Hv ->]. destruct Hw. split; [|done..].
    intros d' r'. simpl. rewrite lookup_insert_Some. intros [[<- <-]|[_ ?]]; [done|by apply kn_req0].
  - destruct Hw. split; [done| |done]. intros k' c. simpl. rewrite lookup_insert_Some.
    intros [[_ <-]|[_ ?]]; [|by eapply kn_cert0]. split_and!; simpl; [done|set_solver..].
  - apply known_alter; [|done]. intros c. unfold okCert. by destruct (H c) as (-> & -> & ->).
  - apply known_alter; [|done]. intros c (_ & H5 & H6). unfold okCert.
    destruct (H3 c) as (-> & -> & ->). split_and!; [|done..]. intros p' [= <-].
    by eapply inputPrePrepare_ok.
  - apply known_alter; [|done]. intros c (? & ? & ?). split_and!; simpl; [done| |done].
    intros p' [?| ->%list_elem_of_singleton]%elem_of_app; [auto|]. by eapply inputPrepare_ok.
  - apply known_alter; [|done]. intros ct (? & ? & ?). split_and!; simpl; [done..|].
    intros c' [?| ->%list_elem_of_singleton]%elem_of_app; [auto|]. by subst i.
  - apply known_addOut; [|done]. apply Forall_singleton. subst i. red in H0.
    destruct H4 as [-> | ->]; simpl; exists r; rewrite H0; done.
  - apply known_addOut; [|done]. apply Forall_singleton. subst i.
    destruct Hi as (r & ? & ? & ? & ?), H0 as (? & ? & ? & ?).
    destruct H3 as [-> | ->]; simpl; exists r; split_and!; congruence.
  - apply known_addOut; [|done]. apply Forall_singleton. simpl.
    destruct (okCert_at w k Hw) as (_ & ? & _). auto.
  - by apply (known_frame w).
  - apply known_addOut; [|by apply (known_frame w)]. apply Forall_singleton. simpl.
    eapply commitsTo_ok; try done. apply Hcm. rewrite commitsOut_addOut. set_solver.
  - apply known_addOut; [|done]. apply Forall_singleton. simpl.
    apply (kn_out w Hw) in H. simpl in H. by rewrite H0 in H.
  - apply (known_frame (addOut [InsertChainWithVRS c] w)); [done..|].
    apply known_addOut; [|done]. apply Forall_singleton. simpl. by subst i.
  - destruct Hw. split; [..|done]; simpl.
    + intros d r [? _]%map_lookup_filter_Some. auto.
    + intros k c [? _]%map_lookup_filter_Some. eauto.
  - apply known_addOut; [|done]. apply Forall_singleton. simpl.
    destruct i as [[]| | | |], j; simpl in *; subst; done.
  - by apply (known_frame w).
  - apply known_addOut; [|by apply (known_frame w)].
    assert (VR r) by (apply Hreq; rewrite requestsOut_addOut; set_solver).
    by repeat constructor.
Qed.

End known.

(** The sets only grow. *)
Section mono.
Context (VR VR' : Request → Prop) (auth auth' : Commit → Prop).
Context (HR : ∀ r, VR r → VR' r) (HA : ∀ c, auth c → auth' c).

Lemma okPP_mono p : okPP VR p → okPP VR' p.
Proof. intros (r & ? & ?). exists r. auto. Qed.

Lemma okPr_mono p : okPr VR p → okPr VR' p.
Proof. intros (r & ? & ?). exists r. auto. Qed.

Lemma okCm_mono c : okCm VR auth c → okCm VR' auth' c.
Proof. intros (? & r & ? & ?). split; [auto|]. exists r. auto. Qed.

Lemma okTask_mono t : okTask VR auth t → okTask VR' auth' t.
Proof. destruct t; simpl; auto using okPP_mono, okPr_mono, okCm_mono. Qed.

Lemma okEffect_mono e : okEffect VR auth e → okEffect VR' auth' e.
Proof.
  destruct e as [[m|m| |]| | |]; simpl; auto using okTask_mono, okCm_mono.
  - destruct (coMsg m); simpl; auto using okPP_mono, okPr_mono, okCm_mono.
  - destruct (c2Msg m); simpl; auto using okPP_mono, okPr_mono, okCm_mono.
Qed.

Lemma known_mono w : known VR auth w → known VR' auth' w.
Proof.
  intros [Hr Hc Ho]. split.
  - intros d r Hd. destruct (Hr d r Hd). auto.
  - intros k c Hk. destruct (Hc k c Hk) as (H1 & H2 & H3).
    split_and!; intros; auto using okPP_mono, okPr_mono, okCm_mono.
  - intros e He. by apply okEffect_mono, Ho.
Qed.

Lemma insertInv_mono N w : insertInv N auth w → insertInv N auth' w.
Proof.
  intros [Hn Hc Hr Hb]. split; [done..| |].
  - intros k c q Hk Hq. by eapply HA, Hr.
  - intros q (Ha & S & HS & Hq)%Hb. split; [auto|]. exists S. split; [done|].
    intros s (c & ? & ?)%Hq. exists c. auto.
Qed.

End mono.

(** A whole handler. *)
Lemma known_handle VR auth i w :
  (∀ r, VR r → is_u64 (rqReqID r)) →
  okInput VR auth i →
  (∀ r, r ∈ requestsOut (handle i w).2 → VR r) → (∀ c, c ∈ commitsOut (handle i w).2 → auth c) →
  known VR auth w → known VR auth (handle i w).2.
Proof.
  intros Hid Hi. pose proof (handle_runs i w) as Hr. unfold runs in Hr.
  induction Hr as [w|w1 w2 w3 Ha Hr IH]; [done|]. intros HR HA Hw.
  apply IH; [done..|]. eapply known_act; try done.
  - intros r Hr'. apply HR. eapply omap_prefix; [by eapply out_rtc|done].
  - intros c Hc'. apply HA. eapply omap_prefix; [by eapply out_rtc|done].
Qed.
