(* ===== verification/Cluster.v ===== *)
(** * eth: a cluster of replicas and agreement

    The nodes of a network, each running the handlers, and an asynchronous
    network between them: what any node has broadcast or forwarded may be
    delivered to any node, any number of times, in any order, or never; timers,
    goroutines and block production fire at any time.  Every node runs the
    program ([src/eth/star_up.go] starts them alike); no node lies, and what
    happens when one does is the subject of [Byzantine.v]. *)

From stdpp Require Import base gmap strings list relations fin_sets.
From Stdlib Require Import ZArith Lia.
From S2P Require Import Prelude Common Types Worker Quorum Pbft Mining Scenario Replica Safety Known.

(** ** The cluster as a state machine *)

Abbreviation cluster := (gmap string worker).

(** [m] was broadcast or forwarded by [w]. *)
Definition carried (m : jsonText) (e : effect) : bool :=
  match e with
  | Post (EvConsensusMsg x) => bool_decide (coMsg x = m)
  | Post (EvConsensusMsg2 x) => bool_decide (c2Msg x = m)
  | _ => false
  end.

Definition sent (σ : cluster) (m : jsonText) : bool :=
  existsb (fun e => existsb (carried m) (out e.2)) (map_to_list σ).

Definition checkpointSent (σ : cluster) (c : Checkpoint) : bool :=
  existsb (fun e => bool_decide (Post (EvCheckpoint c) ∈ out e.2)) (map_to_list σ).

Definition started (w : worker) (t : task) : bool := bool_decide (Go t ∈ out w).

(** What may happen next at node [w]. *)
Definition enabled (σ : cluster) (w : worker) (i : input) : bool :=
  match i with
  | InTask t =>
      started w t ||
      match t with
      | TRecvRequest r => sent σ (JRequest r)
      | TRecvPrePrepare p => sent σ (JPrePrepare p)
      | TRecvPrepare p => sent σ (JPrepare p)
      | TRecvPrepare_notTransfer _ => false
      | TRecvCommit c => sent σ (JCommit c)
      | TStartConsensus => true
      | TSyncConStatus => false
      end
  | InCheckpoint c => checkpointSent σ c
  | InExpire | InClock _ => true
  | InPropose b _ => (0 <=? blNumber b)%Z && (blNumber b <? two64)%Z
  end.

Definition cstep (σ : cluster) (x : string * input) : option cluster :=
  match σ !! x.1 with
  | None => None
  | Some w => if enabled σ w x.2 then Some (<[x.1 := (handle x.2 w).2]> σ) else None
  end.

Fixpoint exec (σ : cluster) (l : list (string * input)) : option cluster :=
  match l with
  | [] => Some σ
  | x :: l' => match cstep σ x with Some σ' => exec σ' l' | None => None end
  end.

(** All nodes of a configuration, freshly started. *)
Definition bootOne (peers : list string) (port : string) : option (string * worker) :=
  (fun w => (nodeID w, w)) <$> Initt (mkConfig port (Z.of_nat (length peers)) peers) 0 0.

Definition boot (peers : list string) : cluster := list_to_map (omap (bootOne peers) peers).

Definition nodeName (port : string) : string := "127.0.0.1" +:+ port.

(** ** Proposals *)

(** The ids of the requests a leader has proposed are distinct and counted by
    [LastReqID]. *)
Record leaderInv (n : Z) (w : worker) : Prop := mkLeaderInv {
  le_last : (1 ≤ LastReqID w ≤ 1 + n)%Z;
  le_ids : ∀ r, r ∈ requestsOut w → (1 < rqReqID r ≤ LastReqID w)%Z;
  le_nodup : NoDup (rqReqID <$> requestsOut w) }.

(** What a proposing step may do to the proposals. *)
Definition atMostOne (w w' : worker) : Prop :=
  (LastReqID w' = LastReqID w ∧ requestsOut w' = requestsOut w) ∨
  (LastReqID w' = u64 (LastReqID w + 1) ∧ requestsOut w' = requestsOut w) ∨
  (LastReqID w' = u64 (LastReqID w + 1) ∧
   ∃ r, requestsOut w' = requestsOut w ++ [r] ∧ rqReqID r = u64 (LastReqID w + 1)).

Lemma sameCore_requestsOut w w' : sameCore w w' → requestsOut w' = requestsOut w.
Proof. intros []. unfold requestsOut. by rewrite sc_out. Qed.

Lemma atMostOne_pre w0 w w' : sameCore w0 w → atMostOne w w' → atMostOne w0 w'.
Proof.
  intros S. unfold atMostOne. rewrite (sameCore_requestsOut _ _ S). by destruct S as [_ _ _ _ _ -> _].
Qed.

Lemma atMostOne_post w w' w1 : atMostOne w w' → sameCore w' w1 → atMostOne w w1.
Proof.
  intros Ha S. unfold atMostOne. rewrite (sameCore_requestsOut _ _ S).
  by destruct S as [_ _ _ _ _ -> _].
Qed.

Lemma atMostOne_local w w' : sameCore w w' → atMostOne w w'.
Proof. intros S. left. split; [by destruct S|by apply sameCore_requestsOut]. Qed.

Definition single {A} (m : H A) : Prop := ∀ w, atMostOne w (m w).2.

Lemma single_local_l {A B} (m : H A) (k : A → H B) :
  local m → (∀ a, single (k a)) → single (bind m k).
Proof.
  intros Hm Hk w. unfold bind. specialize (Hm w).
  destruct (m w) as [[a|e|] w'] eqn:E; simpl in *; try (by apply atMostOne_local).
  eapply atMostOne_pre; [done|apply Hk].
Qed.

Lemma single_local_r {A B} (m : H A) (k : A → H B) :
  single m → (∀ a, local (k a)) → single (bind m k).
Proof.
  intros Hm Hk w. unfold bind. specialize (Hm w).
  destruct (m w) as [[a|e|] w'] eqn:E; simpl in *; try done.
  eapply atMostOne_post; [done|apply Hk].
Qed.

Lemma single_func {A} (m : H A) : single m → single (func m).
Proof. intros Hm w. specialize (Hm w). unfold func. by destruct (m w). Qed.

Lemma local_single {A} (m : H A) : local m → single m.
Proof. intros Hm w. apply atMostOne_local, Hm. Qed.

Lemma SendRequest_single b s : single (SendRequest b s).
Proof.
  intros w. unfold SendRequest. cbn. destruct (_ <=? _)%Z; [by right; left|].
  right; right. split; [done|]. eexists. split; [|].
  - unfold requestsOut. cbn. rewrite !omap_app. simpl. rewrite !app_nil_r. reflexivity.
  - done.
Qed.

Lemma local_modify f : (∀ w, sameCore w (f w)) → local (modify f).
Proof. intros Hf w. apply Hf. Qed.

Lemma local_get {A} (f : worker → A) : local (get f).
Proof. intros w. apply sameCore_refl. Qed.

Lemma local_ret {A} (a : A) : local (ret a).
Proof. intros w. apply sameCore_refl. Qed.

Lemma local_return {A} e : local (return_ (A:=A) e).
Proof. intros w. apply sameCore_refl. Qed.

Lemma openContext_local : local openContext.
Proof.
  apply local_bind; [apply local_get|]. intros []; [|apply local_return|];
    (apply local_modify; by split).
Qed.

Lemma mineBlock_single : single mineBlock.
Proof.
  unfold mineBlock. apply single_local_l; [apply openContext_local|]. intros _.
  apply single_local_l; [apply local_modify; by split|]. intros _.
  apply single_local_l; [apply local_get|]. intros w0.
  apply single_local_l; [apply local_get|]. intros previous.
  apply single_local_l; [apply local_modify; by split|]. intros _.
  apply single_local_l; [apply local_get|]. intros work. cbv zeta beta iota delta [TxPool multiVSelectWithLimit2 TxDependency].
  apply single_local_l; [apply local_PutPVBAndBeats|]. intros _.
  apply single_local_l; [apply local_modify; by split|]. intros _.
  apply single_local_r; [apply SendRequest_single|]. intros _.
  apply local_bind; [apply local_modify; by split|]. intros _. apply local_logLocalMinedBlocks.
Qed.

Lemma StartConsensus_single : single StartConsensus.
Proof.
  unfold StartConsensus. apply single_func, single_local_l; [apply local_get|]. intros n.
  apply single_local_l.
  { unfold when. destruct (0 <? n)%Z; [|apply local_ret]. case_match; [|apply local_ret].
    apply local_bind; [apply local_modify; by split|]. intros _. apply local_return. }
  intros _. apply single_local_l; [apply local_get|].
  intros []; [apply mineBlock_single|]. apply local_single, local_modify. by split.
Qed.

Lemma proposing_single i : proposes i → single (handle i).
Proof.
  intros [b Hb]. destruct i as [[]| | | |]; try done; simpl.
  - apply StartConsensus_single.
  - intros w. destruct (ISLeader w); [apply SendRequest_single|].
    apply atMostOne_local, sameCore_refl.
Qed.

Lemma leaderInv_single n w w' :
  atMostOne w w' → (0 ≤ n)%Z → (n + 2 < two64)%Z → leaderInv n w → leaderInv (n + 1) w'.
Proof.
  intros Ha Hn0 Hn [Hl Hi Hd].
  assert (u64 (LastReqID w + 1) = LastReqID w + 1)%Z as Hu by (apply u64_small; split; lia).
  destruct Ha as [[E1 E2]|[[E1 E2]|[E1 (r & E2 & E3)]]]; rewrite ?Hu in *;
    (split; rewrite ?E1, ?E2; [lia|..]).
  - done.
  - done.
  - intros r ?%Hi. lia.
  - done.
  - intros r' [?%Hi| ->%list_elem_of_singleton]%elem_of_app; lia.
  - rewrite fmap_app. apply NoDup_app. split_and!; [done| |apply NoDup_singleton].
    intros m (r' & -> & Hr')%list_elem_of_fmap Heq%list_elem_of_singleton.
    apply Hi in Hr'. lia.
Qed.

(** Other steps leave the proposals alone; they can only raise [LastReqID] to an id
    the input names. *)
Lemma other_act i m w w' :
  ¬ proposes i → (∀ n, seenID i n → (n ≤ m)%Z) → act i w w' →
  requestsOut w' = requestsOut w ∧ ((m ≤ LastReqID w)%Z → LastReqID w' = LastReqID w).
Proof.
  intros Hi Hs Ha. split.
  - destruct (requestsOut_act i w w' Ha) as [|(r & b & _ & Hb & _)]; [done|].
    destruct Hi. by exists b.
  - intros Hm. destruct Ha; try done; [by destruct H| |by destruct Hi; exists b].
    specialize (Hs n H). lia.
Qed.

Lemma other_handle i m w :
  ¬ proposes i → (∀ n, seenID i n → (n ≤ m)%Z) →
  requestsOut (handle i w).2 = requestsOut w ∧
  ((m ≤ LastReqID w)%Z → LastReqID (handle i w).2 = LastReqID w).
Proof.
  intros Hi Hs. apply (handle_invariant (fun w' => requestsOut w' = requestsOut w ∧
    ((m ≤ LastReqID w)%Z → LastReqID w' = LastReqID w))); [|done].
  intros w1 w2 [E1 E2] Ha. destruct (other_act i m w1 w2 Hi Hs Ha) as [F1 F2].
  split; [congruence|]. intros Hm. rewrite F2; [by apply E2|]. by rewrite E2.
Qed.

(** ** What each node satisfies by itself *)

Record nodeInv (L : string) (N : Z) (self : string) (w : worker) : Prop := mkNodeInv {
  no_self : nodeID w = self;
  no_leader : leader w = L;
  no_view : view w = 1%Z;
  no_numN : numN w = N;
  no_commits : ∀ c, c ∈ commitsOut w → cmSender c = self ∧ cmView c = 1%Z;
  no_requests : ∀ r, r ∈ requestsOut w → self = L ∧ is_u64 (rqReqID r) ∧
      is_u64 (rqBlockHeight r) ∧ rqBlockHash r = Itoa (i64 (rqBlockHeight r)) }.

Lemma nodeInv_frame L N self w w' :
  nodeID w' = nodeID w → leader w' = leader w → view w' = view w → numN w' = numN w →
  commitsOut w' = commitsOut w → requestsOut w' = requestsOut w →
  nodeInv L N self w → nodeInv L N self w'.
Proof. intros E1 E2 E3 E4 E5 E6 []. by split; rewrite ?E1, ?E2, ?E3, ?E4, ?E5, ?E6. Qed.

Lemma nodeInv_addOut L N self l w :
  omap ownCommit l = [] → omap ownRequest l = [] →
  nodeInv L N self w → nodeInv L N self (addOut l w).
Proof.
  intros H1 H2. apply nodeInv_frame; [done..| |].
  - by rewrite commitsOut_addOut, H1, app_nil_r.
  - by rewrite requestsOut_addOut, H2, app_nil_r.
Qed.

Definition wtProposal (i : input) : Prop := ∀ b, proposed i b → is_u64 (blNumber b).

Lemma nodeInv_act L N self i w w' :
  wtProposal i → nodeInv L N self w → act i w w' → nodeInv L N self w'.
Proof.
  intros Hwt Hw Ha. destruct Ha; try (by apply nodeInv_addOut); try (by apply (nodeInv_frame L N self w)).
  - destruct H. apply (nodeInv_frame L N self w); try done; unfold commitsOut, requestsOut; by rewrite sc_out.
  - apply nodeInv_addOut; [..|done]; simpl.
    + by destruct (neutral_effect e H) as [-> _].
    + by rewrite (neutral_request e H).
  - by destruct H4 as [-> | ->]; apply nodeInv_addOut.
  - by destruct H3 as [-> | ->]; apply nodeInv_addOut.
  - destruct Hw, H0 as (Hs & Hv & _). split; try done; rewrite ?commitsOut_addOut, ?requestsOut_addOut.
    + intros c' [?| ->%list_elem_of_singleton]%elem_of_app; [auto|]. split; congruence.
    + intros r' [?|Hr]%elem_of_app; [auto|]. simpl in Hr. set_solver.
  - apply (nodeInv_frame L N self (addOut [InsertChainWithVRS c] w)); [done..|].
    by apply nodeInv_addOut.
  - destruct Hw. split; try done; rewrite ?commitsOut_addOut, ?requestsOut_addOut.
    + intros c' [?|Hr]%elem_of_app; [auto|]. simpl in Hr. set_solver.
    + intros r' [?| ->%list_elem_of_singleton]%elem_of_app; [auto|].
      unfold ISLeader in H3. apply bool_decide_eq_true in H3. simpl in H3. split_and!.
      * unfold GetSelfNodeID in H3. congruence.
      * rewrite H4. apply u64_range.
      * rewrite H1. by apply Hwt.
      * rewrite H2, H1. done.
Qed.

(** ** The global invariant *)

Section cluster.
Context (nodes : gset string) (L : string).

Definition proposedIn (σ : cluster) (r : Request) : Prop :=
  ∃ w, σ !! L = Some w ∧ r ∈ requestsOut w.

Definition authentic (σ : cluster) (c : Commit) : Prop :=
  ∃ w, σ !! cmSender c = Some w ∧ c ∈ commitsOut w.

Record clusterInv (n : Z) (σ : cluster) : Prop := mkClusterInv {
  cl_dom : dom σ = nodes;
  cl_node : ∀ j w, σ !! j = Some w → nodeInv L (Z.of_nat (size nodes)) j w;
  cl_once : ∀ j w, σ !! j = Some w → onceInv w;
  cl_leader : ∀ w, σ !! L = Some w → leaderInv n w;
  cl_known : ∀ j w, σ !! j = Some w → known (proposedIn σ) (authentic σ) w;
  cl_insert : ∀ j w, σ !! j = Some w → insertInv (Z.of_nat (size nodes)) (authentic σ) w }.

(** One node's step only adds to what was proposed and broadcast. *)
Definition extends (σ σ' : cluster) : Prop :=
  ∀ j w, σ !! j = Some w → ∃ w', σ' !! j = Some w' ∧ out w `prefix_of` out w'.

Lemma proposedIn_mono σ σ' r : extends σ σ' → proposedIn σ r → proposedIn σ' r.
Proof.
  intros He (w & Hw & Hr). destruct (He _ _ Hw) as (w' & Hw' & Hp).
  exists w'. split; [done|]. by eapply omap_prefix.
Qed.

Lemma authentic_mono σ σ' c : extends σ σ' → authentic σ c → authentic σ' c.
Proof.
  intros He (w & Hw & Hr). destruct (He _ _ Hw) as (w' & Hw' & Hp).
  exists w'. split; [done|]. by eapply omap_prefix.
Qed.

Lemma extends_insert σ j w i :
  σ !! j = Some w → extends σ (<[j := (handle i w).2]> σ).
Proof.
  intros Hj k v Hk. destruct (decide (j = k)) as [<-|Hne].
  - rewrite lookup_insert_eq. eexists. split; [done|]. simplify_eq. apply handle_out.
  - rewrite lookup_insert_ne by done. by exists v.
Qed.

(** Inputs the network offers are about proposed requests and broadcast commits. *)
Lemma sent_ok VR auth σ m :
  (∀ j w, σ !! j = Some w → known VR auth w) → sent σ m = true → okJson VR auth m.
Proof.
  intros Hk Hs. unfold sent in Hs. apply existsb_exists in Hs as ([j w] & Hin & Hs).
  apply list_elem_of_In, elem_of_map_to_list in Hin.
  apply existsb_exists in Hs as (e & He%list_elem_of_In & Hc).
  apply (kn_out _ _ _ (Hk _ _ Hin)) in He.
  destruct e as [[x|x| |]| | |]; simpl in *; try done;
    by apply bool_decide_eq_true in Hc; rewrite Hc in He.
Qed.

Lemma enabled_ok VR auth σ j w i :
  (∀ j w, σ !! j = Some w → known VR auth w) → σ !! j = Some w → enabled σ w i = true →
  okInput VR auth i ∧ wtProposal i.
Proof.
  intros Hk Hj He. unfold wtProposal. destruct i as [t|c| |z|b s]; try done.
  - split.
    + simpl in He. apply orb_true_iff in He as [He|He].
      * apply bool_decide_eq_true, (kn_out _ _ _ (Hk _ _ Hj)) in He. exact He.
      * destruct t; simpl; try done; by apply (sent_ok VR auth σ) in He.
    + intros b. destruct t; simpl; try done. intros ->. by split.
  - split; [done|]. simpl in *. intros b' <-. unfold is_u64.
    apply andb_true_iff in He as [?%Z.leb_le ?%Z.ltb_lt]. done.
Qed.

Lemma okInput_seen n σ wL i m :
  clusterInv n σ → σ !! L = Some wL → okInput (proposedIn σ) (authentic σ) i →
  seenID i m → (m ≤ LastReqID wL)%Z.
Proof.
  intros Hc HL Hi Hs.
  assert (∀ r, proposedIn σ r → (rqReqID r ≤ LastReqID wL)%Z) as Hr.
  { intros r (w & Hw & Hr). simplify_eq. apply (cl_leader _ _ Hc _ HL) in Hr. lia. }
  destruct i as [[]| | | |]; simpl in *; try done; subst; [by apply Hr|].
  destruct Hi as (r & Hv & _ & -> & _). by apply Hr.
Qed.

Lemma okInput_wt n σ i :
  clusterInv n σ → okInput (proposedIn σ) (authentic σ) i → wtInput i.
Proof.
  intros Hc. destruct i as [[]| | | |]; try done. intros (_ & r & (w & Hw & Hr) & _ & _ & Hh & _).
  simpl. rewrite Hh. by apply (cl_node _ _ Hc _ _ Hw) in Hr as (_ & _ & ? & _).
Qed.

Lemma proposes_dec i : proposes i ∨ ¬ proposes i.
Proof.
  destruct i as [[]|c| |z|b s]; try (right; intros [b' Hb]; exact Hb).
  - left. by exists (mkBlock 2 0 0 None [] [] []).
  - left. by exists b.
Qed.

Lemma nodeInv_handle N self i w :
  wtProposal i → nodeInv L N self w → nodeInv L N self (handle i w).2.
Proof. intros Hwt. apply handle_invariant. intros w1 w2 Hw Ha. by eapply nodeInv_act. Qed.

Lemma leaderInv_handle n σ wL i :
  clusterInv n σ → (0 ≤ n)%Z → (n + 2 < two64)%Z → σ !! L = Some wL →
  okInput (proposedIn σ) (authentic σ) i → leaderInv (n + 1) (handle i wL).2.
Proof.
  intros Hc Hn0 Hn HL Hi. pose proof (cl_leader _ _ Hc _ HL) as Hl.
  destruct (proposes_dec i) as [Hp|Hp].
  - eapply leaderInv_single; try done. by apply proposing_single.
  - destruct (other_handle i (LastReqID wL) wL Hp) as [E1 E2].
    { intros m. by eapply okInput_seen. }
    destruct Hl. specialize (E2 ltac:(lia)). split; rewrite ?E1, ?E2; [lia|done..].
Qed.

Lemma clusterInv_step n σ x σ' :
  clusterInv n σ → (0 ≤ n)%Z → (n + 2 < two64)%Z → cstep σ x = Some σ' → clusterInv (n + 1) σ'.
Proof.
  intros Hc Hn0 Hn. destruct x as [j i]. unfold cstep. simpl.
  destruct (σ !! j) as [w|] eqn:Hj; [|done].
  destruct (enabled σ w i) eqn:He; [|done]. intros [= <-].
  destruct (enabled_ok _ _ σ j w i (cl_known _ _ Hc) Hj He) as [Hok Hwp].
  pose proof (okInput_wt _ _ _ Hc Hok) as Hwt.
  pose proof (extends_insert σ j w i Hj) as Hext. set (w' := (handle i w).2) in *.
  assert (∀ r, proposedIn σ r → proposedIn (<[j:=w']> σ) r) as HR by (intros r; by apply proposedIn_mono).
  assert (∀ c, authentic σ c → authentic (<[j:=w']> σ) c) as HA by (intros c; by apply authentic_mono).
  assert (∀ k v, <[j:=w']> σ !! k = Some v → nodeInv L (Z.of_nat (size nodes)) k v) as Hnode.
  { intros k v [[<- <-]|[_ Hk]]%lookup_insert_Some; [|by eapply cl_node].
    apply nodeInv_handle; [done|]. by eapply cl_node. }
  assert (nodeInv L (Z.of_nat (size nodes)) j w') as Hself by (apply Hnode, lookup_insert_eq).
  split.
  - rewrite dom_insert_L, (cl_dom _ _ Hc). apply elem_of_dom_2 in Hj.
    rewrite (cl_dom _ _ Hc) in Hj. set_solver.
  - exact Hnode.
  - intros k v [[<- <-]|[_ Hk]]%lookup_insert_Some; [|by eapply cl_once].
    apply handle_invariant; [|by eapply cl_once]. intros w1 w2. by apply onceInv_act.
  - intros v [[-> <-]|[_ Hk]]%lookup_insert_Some; [by eapply leaderInv_handle|].
    destruct (cl_leader _ _ Hc _ Hk). split; [lia|done..].
  - intros k v [[<- <-]|[_ Hk]]%lookup_insert_Some.
    + apply known_handle.
      * intros r (v & Hv & Hr). by apply (no_requests _ _ _ _ (Hnode _ _ Hv)) in Hr as (_ & ? & _).
      * destruct i; [|done..]. by eapply okTask_mono.
      * intros r Hr. destruct (no_requests _ _ _ _ Hself _ Hr) as [-> _].
        exists w'. split; [apply lookup_insert_eq|done].
      * intros c Hcm. destruct (no_commits _ _ _ _ Hself _ Hcm) as [Hs _].
        exists w'. split; [|done]. rewrite Hs. apply lookup_insert_eq.
      * eapply known_mono; [exact HR|exact HA|by eapply cl_known].
    + eapply known_mono; [exact HR|exact HA|by eapply cl_known].
  - intros k v [[<- <-]|[_ Hk]]%lookup_insert_Some;
      [|eapply insertInv_mono; [exact HA|by eapply cl_insert]].
    apply (handle_invariant (insertInv (Z.of_nat (size nodes)) (authentic (<[j:=w']> σ)))).
    + intros w1 w2. apply insertInv_act. intros c ->. apply HA. apply Hok.
    + eapply insertInv_mono; [exact HA|by eapply cl_insert].
Qed.

Lemma clusterInv_exec l n σ σ' :
  clusterInv n σ → (0 ≤ n)%Z → (n + Z.of_nat (length l) + 1 < two64)%Z → exec σ l = Some σ' →
  clusterInv (n + Z.of_nat (length l)) σ'.
Proof.
  revert n σ. induction l as [|x l IH]; intros n σ Hc Hn0 Hn; simpl.
  { intros [= <-]. by rewrite Z.add_0_r. }
  destruct (cstep σ x) as [σ1|] eqn:Hs; [|done]. intros He. simpl in Hn.
  replace (n + Z.of_nat (S (length l)))%Z with (n + 1 + Z.of_nat (length l))%Z by lia.
  eapply IH; [|lia|lia|done]. eapply clusterInv_step; try done. lia.
Qed.

(** ** Agreement from the invariant *)

Lemma requests_unique n σ r1 r2 :
  clusterInv n σ → proposedIn σ r1 → proposedIn σ r2 → rqReqID r1 = rqReqID r2 → r1 = r2.
Proof.
  intros Hc (w & Hw & H1) (w' & Hw' & H2) He. simplify_eq.
  pose proof (le_nodup _ _ (cl_leader _ _ Hc _ Hw)) as Hd.
  apply list_elem_of_lookup in H1 as [i1 H1]. apply list_elem_of_lookup in H2 as [i2 H2].
  assert (i1 = i2) as ->; [|congruence].
  eapply (NoDup_lookup (rqReqID <$> requestsOut w)); [done|..]; rewrite list_lookup_fmap.
  - by rewrite H1.
  - rewrite H2. simpl. by rewrite He.
Qed.

Lemma commits_once n σ c1 c2 :
  clusterInv n σ → authentic σ c1 → authentic σ c2 →
  cmSender c1 = cmSender c2 → cmHeight c1 = cmHeight c2 → c1 = c2.
Proof.
  intros Hc (w & Hw & H1) (w' & Hw' & H2) Hs He. rewrite <- Hs in Hw'. simplify_eq.
  pose proof (on_once _ (cl_once _ _ Hc _ _ Hw)) as Hd.
  apply list_elem_of_lookup in H1 as [i1 H1]. apply list_elem_of_lookup in H2 as [i2 H2].
  assert (i1 = i2) as ->; [|congruence].
  eapply (NoDup_lookup (cmHeight <$> commitsOut w)); [done|..]; rewrite list_lookup_fmap.
  - by rewrite H1.
  - rewrite H2. simpl. by rewrite He.
Qed.

Lemma inserted_ok n σ j w q :
  clusterInv n σ → σ !! j = Some w → q ∈ inserted w →
  okCm (proposedIn σ) (authentic σ) q ∧ backed (Z.of_nat (size nodes)) (authentic σ) q.
Proof.
  intros Hc Hj Hq. split.
  - apply list_elem_of_omap in Hq as (e & He & Hins). destruct e; try done. simpl in Hins. simplify_eq.
    apply (kn_out _ _ _ (cl_known _ _ Hc _ _ Hj) _ He).
  - by apply (in_backed _ _ _ (cl_insert _ _ Hc _ _ Hj)).
Qed.

(** The commits behind a backed commit are all for its height. *)
Lemma authentic_okCm n σ c :
  clusterInv n σ → authentic σ c → okCm (proposedIn σ) (authentic σ) c ∧ cmView c = 1%Z.
Proof.
  intros Hc (w & Hw & Hin). split; [|by apply (no_commits _ _ _ _ (cl_node _ _ Hc _ _ Hw))].
  apply list_elem_of_omap in Hin as (e & He & Hins).
  apply (kn_out _ _ _ (cl_known _ _ Hc _ _ Hw)) in He.
  destruct e as [[m| | |]| | |]; try done. simpl in *. destruct (coMsg m); simplify_eq. exact He.
Qed.

Lemma backed_height n σ q s :
  clusterInv n σ → okCm (proposedIn σ) (authentic σ) q →
  (∃ c, authentic σ c ∧ cmSender c = s ∧ cmView c = cmView q ∧ cmReqID c = cmReqID q ∧
        vrOpinion (cmVR c) = true) →
  s ∈ nodes ∧ ∃ c, authentic σ c ∧ cmSender c = s ∧ cmReqID c = cmReqID q ∧ cmHeight c = cmHeight q.
Proof.
  intros Hc (_ & r & Hr & Hid & _ & Hh & _) (c & Ha & Hs & _ & Hi & _).
  destruct (authentic_okCm n σ c Hc Ha) as [(_ & r' & Hr' & Hid' & _ & Hh' & _) _].
  split.
  - destruct Ha as (w & Hw & _). rewrite <- (cl_dom _ _ Hc), <- Hs. by eapply elem_of_dom_2.
  - exists c. split_and!; try done. rewrite Hh, Hh'. f_equal.
    eapply requests_unique; [done..|]. congruence.
Qed.

Lemma agreement_inv n σ i j wi wj q1 q2 :
  (2 ≤ size nodes)%nat → clusterInv n σ → σ !! i = Some wi → σ !! j = Some wj →
  q1 ∈ inserted wi → q2 ∈ inserted wj → cmHeight q1 = cmHeight q2 →
  ∃ r, proposedIn σ r ∧ cmHeight q1 = rqBlockHeight r ∧
    ∀ q, q = q1 ∨ q = q2 → cmView q = 1%Z ∧ cmReqID q = rqReqID r ∧
      cmRequestDigest q = newhashReq r ∧ vrBlockHash (cmVR q) = rqBlockHash r.
Proof.
  intros HN Hc Hi Hj H1 H2 Hh.
  destruct (inserted_ok n σ i wi q1 Hc Hi H1) as [Hok1 (S1 & HS1 & Hb1)].
  destruct (inserted_ok n σ j wj q2 Hc Hj H2) as [Hok2 (S2 & HS2 & Hb2)].
  assert (S1 ⊆ nodes) as Hsub1 by (intros s Hs; by eapply backed_height, Hb1).
  assert (S2 ⊆ nodes) as Hsub2 by (intros s Hs; by eapply backed_height, Hb2).
  assert (∃ s, s ∈ S1 ∩ S2) as [s Hs].
  { apply set_choose_L. intros He. pose proof (size_intersection_lower S1 S2 nodes Hsub1 Hsub2) as Hsz.
    rewrite He, size_empty in Hsz.
    assert (2 ≤ Z.of_nat (size nodes))%Z as HN2. { lia. }
    pose proof (quorumOf_spec (Z.of_nat (size nodes)) HN2) as Hq.
    assert (0 ≤ maxFaulty (Z.of_nat (size nodes)))%Z by (apply Z.div_pos; lia). lia. }
  apply elem_of_intersection in Hs as [Hs1 Hs2].
  destruct (backed_height n σ q1 s Hc Hok1 (Hb1 s Hs1)) as (_ & c1 & Ha1 & Hs1' & Hi1 & Hh1).
  destruct (backed_height n σ q2 s Hc Hok2 (Hb2 s Hs2)) as (_ & c2 & Ha2 & Hs2' & Hi2 & Hh2).
  assert (c1 = c2) as <- by (eapply commits_once; [done..|congruence|congruence]).
  destruct Hok1 as (Hq1 & r1 & Hr1 & Hid1 & Hd1 & Hhr1 & Hbh1), Hok2 as (Hq2 & r2 & Hr2 & Hid2 & Hd2 & Hhr2 & Hbh2).
  assert (r1 = r2) as <- by (eapply requests_unique; [done..|congruence]).
  destruct (authentic_okCm n σ q1 Hc Hq1) as [_ Hv1]. destruct (authentic_okCm n σ q2 Hc Hq2) as [_ Hv2].
  exists r1. split_and!; [done..|]. intros q [-> | ->]; done.
Qed.

End cluster.

(** ** The freshly started cluster *)

#[export] Instance nodeName_inj : Inj (=) (=) nodeName.
Proof. intros x y Hxy. unfold nodeName in Hxy. by simplify_eq. Qed.

Lemma bootOne_spec peers p0 rest port :
  peers = p0 :: rest →
  ∃ w, bootOne peers port = Some (nodeName port, w) ∧
       Initt (mkConfig port (Z.of_nat (length peers)) peers) 0 0 = Some w ∧
       leader w = nodeName p0.
Proof. intros ->. eexists. split_and!; reflexivity. Qed.

Lemma boot_names peers p0 rest :
  peers = p0 :: rest → ∀ l, (omap (bootOne peers) l).*1 = nodeName <$> l.
Proof.
  intros Hp l. induction l as [|port l IH]; [done|]. csimpl.
  destruct (bootOne_spec peers p0 rest port Hp) as (w & -> & _). csimpl. by rewrite IH.
Qed.

Lemma boot_lookup peers p0 rest j w :
  peers = p0 :: rest → boot peers !! j = Some w →
  ∃ port, port ∈ peers ∧ j = nodeName port ∧ leader w = nodeName p0 ∧
    Initt (mkConfig port (Z.of_nat (length peers)) peers) 0 0 = Some w.
Proof.
  intros Hp Hj%elem_of_list_to_map_2. apply list_elem_of_omap in Hj as (port & Hport & Hb).
  destruct (bootOne_spec peers p0 rest port Hp) as (w' & Hb' & Hi & Hl).
  rewrite Hb in Hb'. simplify_eq. by exists port.
Qed.

Definition nodeSet (peers : list string) : gset string := list_to_set (nodeName <$> peers).

Lemma nodeSet_size peers : NoDup peers → size (nodeSet peers) = length peers.
Proof.
  intros Hd. unfold nodeSet. rewrite size_list_to_set, length_fmap; [done|].
  apply (NoDup_fmap_2 _), Hd.
Qed.

Lemma clusterInv_boot peers p0 rest :
  peers = p0 :: rest → NoDup peers → clusterInv (nodeSet peers) (nodeName p0) 0 (boot peers).
Proof.
  intros Hp Hd. pose proof (nodeSet_size peers Hd) as Hsz.
  assert (∀ j w, boot peers !! j = Some w → ∃ port,
    Initt (mkConfig port (Z.of_nat (length peers)) peers) 0 0 = Some w ∧
    leader w = nodeName p0 ∧ j = nodeName port) as Hb.
  { intros j w Hj. destruct (boot_lookup peers p0 rest j w Hp Hj) as (port & _ & ? & ? & ?).
    by exists port. }
  split.
  - unfold boot, nodeSet. by rewrite dom_list_to_map_L, (boot_names peers p0 rest Hp).
  - intros j w (port & Hi & Hl & ->)%Hb.
    apply Initt_state in Hi as (Hn & _ & Hv & _ & _ & Ho & _ & _ & _ & Hs).
    split; unfold commitsOut, requestsOut; rewrite ?Ho, ?Hsz; try done; set_solver.
  - intros j w (port & Hi & _)%Hb. by eapply onceInv_init.
  - intros w (port & Hi & _)%Hb.
    apply Initt_state in Hi as (_ & _ & _ & _ & Hr & Ho & _).
    split; unfold requestsOut; rewrite ?Ho, ?Hr; [lia|set_solver|constructor].
  - intros j w (port & Hi & _)%Hb.
    apply Initt_state in Hi as (_ & _ & _ & _ & _ & Ho & Hcs & Hrs & _).
    split; rewrite ?Ho, ?Hcs, ?Hrs; [done..|set_solver].
  - intros j w (port & Hi & _)%Hb. rewrite Hsz. by eapply insertInv_init in Hi.
Qed.

(** ** Production by [StartConsensus] alone *)

Definition notProposal (x : string * input) : Prop :=
  match x.2 with InPropose _ _ => False | _ => True end.

(** All proposals are for height 2, and the chain counts its insertions. *)
Definition secondBlock (w : worker) : Prop :=
  (∀ r, r ∈ requestsOut w → rqBlockHeight r = 2%Z) ∧ heightInv w.

Lemma secondBlock_act i w w' :
  (∀ b, proposed i b → blNumber b = 2%Z) → wtInput i →
  secondBlock w → act i w w' → secondBlock w'.
Proof.
  intros Hi Hwt [Hw Hh] Ha. split; [|by eapply heightInv_act].
  destruct (requestsOut_act i w w' Ha) as [-> |(r & b & -> & Hb & Hrb & _)]; [done|].
  intros r' [?| ->%list_elem_of_singleton]%elem_of_app; [by apply Hw|].
  rewrite Hrb. by apply Hi.
Qed.

Lemma secondBlock_exec nodes L l n σ σ' :
  clusterInv nodes L n σ → (0 ≤ n)%Z → (n + Z.of_nat (length l) + 1 < two64)%Z →
  exec σ l = Some σ' → Forall notProposal l →
  (∀ j w, σ !! j = Some w → secondBlock w) → ∀ j w, σ' !! j = Some w → secondBlock w.
Proof.
  intros Hc Hn0 Hn He Hf. revert n σ Hc Hn0 Hn He.
  induction Hf as [|x l Hx Hf IH]; intros n σ Hc Hn0 Hn; simpl; [by intros [= <-]|].
  destruct (cstep σ x) as [σ1|] eqn:Hs; [|done]. intros He Hw. simpl in Hn.
  eapply (IH (n + 1)%Z σ1); [|lia|lia|done|].
  { eapply clusterInv_step; try done. lia. }
  destruct x as [j i]. unfold cstep in Hs. simpl in Hs.
  destruct (σ !! j) as [w|] eqn:Hj; [|done].
  destruct (enabled σ w i) eqn:Hen; [|done]. simplify_eq.
  destruct (enabled_ok _ _ σ j w i (cl_known _ _ _ _ Hc) Hj Hen) as [Hok _].
  intros k v [[<- <-]|[_ Hk]]%lookup_insert_Some; [|by eapply Hw].
  apply handle_invariant; [|by eapply Hw].
  intros w1 w2. apply secondBlock_act; [|by eapply okInput_wt].
  intros b. by destruct i as [[]| | | |].
Qed.

(** ** A complete run *)

(** The inputs the effects of a node give rise to: at the node itself its
    goroutines, at every node its broadcasts. *)
Definition effectInput (self : bool) (e : effect) : option input :=
  match e with
  | Go t => if self then Some (InTask t) else None
  | Post (EvConsensusMsg m) =>
      match coMsg m with
      | JRequest r => Some (InTask (TRecvRequest r))
      | JPrePrepare p => Some (InTask (TRecvPrePrepare p))
      | JPrepare p => Some (InTask (TRecvPrepare p))
      | JCommit c => Some (InTask (TRecvCommit c))
      | JConStatusRequest _ => None
      end
  | Post (EvCheckpoint c) => if self then None else Some (InCheckpoint c)
  | _ => None
  end.

Definition floodOnce (σ : cluster) : list (string * input) :=
  flat_map (fun dst => flat_map (fun src =>
    map (pair dst.1) (omap (effectInput (bool_decide (dst.1 = src.1))) (out src.2)))
    (map_to_list σ)) (map_to_list σ).

Fixpoint flood (n : nat) (σ : cluster) : list (string * input) :=
  match n with
  | O => []
  | S n' => let t := floodOnce σ in
            match exec σ t with Some σ' => t ++ flood n' σ' | None => t end
  end.

(** The leader of four nodes starts a consensus, then everything is delivered. *)
Definition demoCluster : cluster := boot demoPeers.
Definition demoStart : list (string * input) := [(demoName ":3000", InTask TStartConsensus)].
Definition demoTrace : list (string * input) :=
  match exec demoCluster demoStart with
  | Some σ => demoStart ++ flood 5 σ
  | None => []
  end.
Definition demoFinal : cluster := default ∅ (exec demoCluster demoTrace).

(** ** Theorems *)

(** C1. Agreement: in every execution of two or more nodes (shorter than [2^64] steps,
    so that request ids do not wrap), if two nodes have inserted blocks of the same
    height then both insertions are for one and the same request proposed by the
    leader: same view, request id, digest, height and block hash. *)
Theorem agreement (p0 p1 : string) (rest : list string) (l : list (string * input)) (σ : cluster)
    (i j : string) (wi wj : worker) (q1 q2 : Commit) :
  NoDup (p0 :: p1 :: rest) → (Z.of_nat (length l) + 1 < two64)%Z →
  exec (boot (p0 :: p1 :: rest)) l = Some σ →
  σ !! i = Some wi → σ !! j = Some wj →
  q1 ∈ inserted wi → q2 ∈ inserted wj → cmHeight q1 = cmHeight q2 →
  ∃ r, proposedIn (nodeName p0) σ r ∧ cmHeight q1 = rqBlockHeight r ∧
    ∀ q, q = q1 ∨ q = q2 → cmView q = 1%Z ∧ cmReqID q = rqReqID r ∧
      cmRequestDigest q = newhashReq r ∧ vrBlockHash (cmVR q) = rqBlockHash r.
Proof.
  intros Hd Hl He.
  pose proof (clusterInv_boot _ p0 (p1 :: rest) eq_refl Hd) as Hc.
  eapply clusterInv_exec in Hc; [|done|exact Hl|exact He].
  eapply agreement_inv; [|exact Hc]. rewrite nodeSet_size by done. simpl. lia.
Qed.

(** C40. Height bound: when blocks are produced by [StartConsensus] alone, no node of any
    execution ever gets past chain height 2: the parent of every proposal is the
    package variable [currentblock], which stays at height 1. *)
Theorem height_bounded (p0 p1 : string) (rest : list string) (l : list (string * input))
    (σ : cluster) (j : string) (w : worker) :
  NoDup (p0 :: p1 :: rest) → (Z.of_nat (length l) + 1 < two64)%Z →
  Forall notProposal l → exec (boot (p0 :: p1 :: rest)) l = Some σ → σ !! j = Some w →
  (1 ≤ CurrentBlock w ≤ 2)%Z.
Proof.
  intros Hd Hl Hf He Hj.
  pose proof (clusterInv_boot _ p0 (p1 :: rest) eq_refl Hd) as Hc.
  pose proof (clusterInv_exec _ _ _ _ _ _ Hc ltac:(done) Hl He) as Hc'.
  assert (∀ k v, σ !! k = Some v → secondBlock v) as Hall.
  { eapply secondBlock_exec; [exact Hc|done|exact Hl|done..|].
    intros k v Hk. eapply boot_lookup in Hk as (port & _ & _ & _ & Hi); [|done]. split.
    - apply Initt_state in Hi as (_ & _ & _ & _ & _ & Ho & _). unfold requestsOut. rewrite Ho.
      set_solver.
    - by eapply heightInv_init. }
  destruct (Hall _ _ Hj) as [_ [Hcount _ Habove]].
  destruct (inserted w) as [|q1 [|q2 ins]] eqn:Hins; simpl in *; [lia|lia|].
  specialize (Habove 1%nat q2 eq_refl).
  destruct (inserted_ok _ _ _ _ _ _ q2 Hc' Hj) as [(_ & r & (v & Hv & Hr) & _ & _ & Hh & _) _].
  { rewrite Hins. set_solver. }
  destruct (Hall _ _ Hv) as [H2 _]. specialize (H2 r Hr). lia.
Qed.

(** ** Instances *)

(** Every node of the concrete run inserts one block and reaches height 2. *)
Example demoRun_inserts :
  map (fun e => (CurrentBlock e.2, length (inserted e.2))) (map_to_list demoFinal)
  = replicate 4 (2%Z, 1%nat).
Proof. vm_compute. reflexivity. Qed.

Lemma demoRun_exec : exec (boot demoPeers) demoTrace = Some demoFinal.
Proof.
  assert (match exec (boot demoPeers) demoTrace with Some _ => true | None => false end = true)
    as Hrun by (vm_compute; reflexivity).
  unfold demoFinal, demoCluster. by destruct (exec (boot demoPeers) demoTrace).
Qed.

Definition demoAt (port : string) : worker := default (demoNode port) (demoFinal !! demoName port).

Lemma demoAt_lookup port :
  bool_decide (is_Some (demoFinal !! demoName port)) = true →
  demoFinal !! demoName port = Some (demoAt port).
Proof. intros [w Hw]%bool_decide_eq_true. unfold demoAt. by rewrite Hw. Qed.

Definition demoInserted (port : string) : Commit :=
  default (demoCommit "") (head (inserted (demoAt port))).

Lemma demoPeers_NoDup : NoDup demoPeers.
Proof. apply (bool_decide_unpack _). vm_compute. reflexivity. Qed.

(** The commits two nodes of the run inserted stem from one request. *)
Lemma agreement_witness :
  ∃ r, proposedIn (demoName ":3000") demoFinal r ∧ rqBlockHeight r = 2%Z ∧
    cmReqID (demoInserted ":3001") = rqReqID r ∧ cmReqID (demoInserted ":3002") = rqReqID r.
Proof.
  destruct (agreement ":3000" ":3001" [":3002"; ":3003"] demoTrace demoFinal
    (demoName ":3001") (demoName ":3002") (demoAt ":3001") (demoAt ":3002")
    (demoInserted ":3001") (demoInserted ":3002")) as (r & Hr & Hh & Hq).
  - apply demoPeers_NoDup.
  - vm_compute. reflexivity.
  - apply demoRun_exec.
  - apply demoAt_lookup. vm_compute. reflexivity.
  - apply demoAt_lookup. vm_compute. reflexivity.
  - apply (bool_decide_unpack _). vm_compute. reflexivity.
  - apply (bool_decide_unpack _). vm_compute. reflexivity.
  - vm_compute. reflexivity.
  - exists r. split_and!; [exact Hr| |apply Hq; auto..].
    rewrite <- Hh. vm_compute. reflexivity.
Defined.

Lemma height_bounded_witness : (1 ≤ CurrentBlock (demoAt ":3001") ≤ 2)%Z.
Proof.
  apply (height_bounded ":3000" ":3001" [":3002"; ":3003"] demoTrace demoFinal (demoName ":3001")).
  - apply demoPeers_NoDup.
  - vm_compute. reflexivity.
  - assert (forallb (fun x => match x.2 with InPropose _ _ => false | _ => true end) demoTrace = true)
      as Hall by (vm_compute; reflexivity).
    apply Forall_forall. intros x Hx%list_elem_of_In. rewrite forallb_forall in Hall.
    specialize (Hall x Hx). unfold notProposal. by destruct x.2.
  - apply demoRun_exec.
  - apply demoAt_lookup. vm_compute. reflexivity.
Defined.
