(* ===== verification/Handlers.v ===== *)
(** * eth: what each handler does

    Functional behaviour of the handlers of [src/eth/pbft-core.go], branch by
    branch: which inputs are refused and with what error, what a quorum triggers,
    what a checkpoint clears, and which inputs can crash the process. *)

From stdpp Require Import base gmap strings list.
From Stdlib Require Import ZArith Lia.
From S2P Require Import Prelude Common Types Worker Pbft Mining Scenario Quorum Pool Replica Safety Known.

(** ** Guards *)

(** One guard of a handler, passed or taken. *)
Lemma guard_pass {A} b e (k : unit → H A) w : b = false → bind (ifReturn b e) k w = k tt w.
Proof. by intros ->. Qed.

Lemma guard_stop {A} b e (k : unit → H A) w : b = true → bind (ifReturn b e) k w = (Exit e, w).
Proof. by intros ->. Qed.

Lemma get_bind {A B} (f : worker → A) (k : A → H B) w : bind (get f) k w = k (f w) w.
Proof. done. Qed.

Lemma modify_bind {B} f (k : unit → H B) w : bind (modify f) k w = k tt (f w).
Proof. done. Qed.

Lemma bind_val {A B} (m : H A) (k : A → H B) w a w' :
  m w = (Val a, w') → bind m k w = k a w'.
Proof. unfold bind. by intros ->. Qed.

Lemma getCert_bind {A} v n (k : msgID → H A) w :
  bind (getCert v n) k w = k (v, n) (withCert (v, n) w).
Proof. unfold getCert, withCert. cbn. by destruct (certStore w !! (v, n)). Qed.

Lemma inV_true v w : inV v w = true ↔ view w = v.
Proof. apply Z.eqb_eq. Qed.

(** ** Commits *)

(** The state after a commit is filed in its certificate. *)
Definition fileCommit (c : Commit) (w : worker) : worker :=
  (withCert (cmView c, cmReqID c) w) <| certStore ::=
    alter (fun ct => ct <| commit ::= (fun l => l ++ [c]) |>) (cmView c, cmReqID c) |>.

(** The commit passes the guards of [RecvCommit]. *)
Record acceptable (c : Commit) (w : worker) : Prop := mkAcceptable {
  ac_view : view w = cmView c;
  ac_ready : ready w = true;
  ac_height : (CurrentBlock w < cmHeight c)%Z;
  ac_fresh : cmSender c ∉ cmSender <$> commit (certAt (cmView c, cmReqID c) w) }.

Lemma senders_existsb c l :
  cmSender c ∉ cmSender <$> l → existsb (fun p => bool_decide (cmSender p = cmSender c)) l = false.
Proof.
  intros Hn. apply not_true_iff_false. intros He. apply Hn.
  apply existsb_exists in He as (x & Hx%list_elem_of_In & Hs%bool_decide_eq_true).
  apply list_elem_of_fmap. by exists x.
Qed.

Lemma RecvCommit_accept c w :
  acceptable c w →
  RecvCommit c w = recovering (func (
    reached <- get (committed (cmRequestDigest c) (cmView c) (cmReqID c)) ;;
    when reached (onCommitted c (cmView c, cmReqID c)) ;;
    sendConMsg_transfer3 c "PBFTCommit")) (fileCommit c w).
Proof.
  intros [Hv Hr Hh Hs]. unfold RecvCommit, recovering, func.
  rewrite get_bind, guard_pass by (apply negb_false_iff, inV_true; done).
  rewrite get_bind, guard_pass by (apply negb_false_iff; done).
  rewrite get_bind, guard_pass by (apply Z.leb_gt; done).
  rewrite getCert_bind, get_bind, guard_pass.
  - reflexivity.
  - apply senders_existsb. by destruct (withCert_frame (cmView c, cmReqID c) w) as (-> & _).
Qed.

(** Dropping the messages of finished requests. *)
Definition keepAfter (n : Z) (w : worker) : worker := (removeOldConMsg n w).2.

Lemma keepAfter_lookup n w :
  (∀ k, certStore (keepAfter n w) !! k = if decide (k.2 ≤ n)%Z then None else certStore w !! k) ∧
  (∀ d r, reqStore (keepAfter n w) !! d = Some r ↔ reqStore w !! d = Some r ∧ (n < rqReqID r)%Z).
Proof.
  split.
  - intros k. simpl. case_decide as Hk.
    + apply map_lookup_filter_None_2. right. simpl. auto.
    + destruct (certStore w !! k) as [c|] eqn:E.
      * by apply map_lookup_filter_Some_2.
      * apply map_lookup_filter_None_2. by left.
  - intros d r. simpl. rewrite map_lookup_filter_Some. simpl. rewrite Z.nle_gt. done.
Qed.

(** The state left by a positive quorum: the block inserted, the checkpoint
    announced, the old messages dropped, the commit forwarded. *)
Definition afterInsert (c : Commit) (w : worker) : worker :=
  keepAfter (cmReqID c)
    (addOut [InsertChainWithVRS c; Sleep (5 * second);
             Post (EvCheckpoint (mkCheckpoint (nodeID w) (cmHeight c) (cmReqID c)
                                   (vrBlockHash (cmVR c))))]
       (w <| CurrentBlock ::= (fun n => u64 (n + 1)) |>)).

Lemma onCommitted_positive c w r :
  view w = cmView c → ready w = true → (CurrentBlock w < cmHeight c)%Z →
  reqStore w !! cmRequestDigest c = Some r →
  GetValidResFromCommit (certAt (cmView c, cmReqID c) w) w = possitive →
  onCommitted c (cmView c, cmReqID c) w = (Val tt, afterInsert c w).
Proof.
  intros Hv Hr Hh Hs Hp. unfold onCommitted. rewrite !get_bind. unfold GetRequestFromStore.
  rewrite Hs, Hp. rewrite (bool_decide_eq_true_2 (possitive = possitive)) by done.
  rewrite (bool_decide_eq_false_2 (possitive = negative)) by done.
  unfold insertBlock, finishRound, afterInsert, keepAfter, cmHeight, when, Ready in *.
  unfold bind, get, ifReturn. rewrite Hr. cbn.
  rewrite (proj2 (Z.ltb_lt _ _) Hh). cbn. rewrite (proj2 (Z.ltb_lt _ _) Hh). cbn.
  by rewrite <- !app_assoc.
Qed.

Lemma fileCommit_frame c w :
  nodeID (fileCommit c w) = nodeID w ∧ view (fileCommit c w) = view w ∧
  CurrentBlock (fileCommit c w) = CurrentBlock w ∧ reqStore (fileCommit c w) = reqStore w ∧
  ready (fileCommit c w) = ready w ∧ out (fileCommit c w) = out w ∧
  ∀ k, k ≠ (cmView c, cmReqID c) → certStore (fileCommit c w) !! k = certStore w !! k.
Proof.
  unfold fileCommit, withCert. destruct (certStore w !! (cmView c, cmReqID c)); simpl;
    split_and!; try done; intros k Hk; rewrite lookup_alter_ne by done; [done|].
  by rewrite lookup_insert_ne.
Qed.

(** Forwarding appends at most the forwarded message. *)
Lemma transfer_spec s j t w :
  ∃ l, omap ownCommit l = [] ∧ omap insertion l = [] ∧ sendConMsg_transfer s j t w = (Val tt, addOut l w).
Proof.
  unfold sendConMsg_transfer. rewrite get_bind. unfold when. destruct (negb _).
  - eexists [_]. split_and!; [| |reflexivity]; done.
  - exists []. split_and!; [done..|]. unfold addOut. simpl. rewrite app_nil_r.
    by destruct w.
Qed.

(** ** Theorems *)

(** C4. What a quorum of commits does: an acceptable commit that completes a committed
    certificate with a positive vote makes the replica return no error, insert
    exactly that block, advance the chain by one, announce the checkpoint, and
    forget every certificate and request up to its request id. *)
Theorem RecvCommit_quorum (c : Commit) (w : worker) (r : Request) :
  acceptable c w → is_u64 (cmHeight c) → is_u64 (CurrentBlock w) →
  reqStore w !! cmRequestDigest c = Some r →
  committed (cmRequestDigest c) (cmView c) (cmReqID c) (fileCommit c w) = true →
  GetValidResFromCommit (certAt (cmView c, cmReqID c) (fileCommit c w)) (fileCommit c w) = possitive →
  ∃ w', RecvCommit c w = (Exit None, w') ∧
    CurrentBlock w' = (CurrentBlock w + 1)%Z ∧ inserted w' = inserted w ++ [c] ∧
    Post (EvCheckpoint (mkCheckpoint (nodeID w) (cmHeight c) (cmReqID c) (vrBlockHash (cmVR c))))
      ∈ out w' ∧
    (∀ k, certStore w' !! k = if decide (k.2 ≤ cmReqID c)%Z then None else certStore w !! k) ∧
    (∀ d r', reqStore w' !! d = Some r' ↔ reqStore w !! d = Some r' ∧ (cmReqID c < rqReqID r')%Z).
Proof.
  intros Ha Hu Hc Hs Hcm Hp. rewrite (RecvCommit_accept c w Ha).
  unfold recovering, func. rewrite get_bind, Hcm. simpl when.
  pose proof (fileCommit_frame c w) as (Hn & Hv & Hb & Hr & Hrd & Ho & Hcs).
  destruct Ha as [Hva Hra Hha _].
  set (w1 := fileCommit c w) in *. clearbody w1.
  unfold bind. rewrite (onCommitted_positive c w1 r) by congruence.
  destruct (transfer_spec (cmSender c) (JCommit c) "PBFTCommit" (afterInsert c w1))
    as (l & _ & Hli & Ht).
  unfold sendConMsg_transfer3. rewrite Ht. eexists. split; [reflexivity|].
  destruct (keepAfter_lookup (cmReqID c) w1) as [Hk1 Hk2].
  split_and!.
  - simpl. rewrite Hb, u64_small; [done|]. unfold is_u64 in *. lia.
  - rewrite inserted_addOut, Hli, app_nil_r. unfold afterInsert, inserted. simpl.
    rewrite omap_app, Ho. done.
  - simpl. rewrite Hn, Ho. set_solver.
  - intros k. etrans; [apply Hk1|]. case_decide as Hd; [done|]. apply Hcs. intros ->.
    simpl in Hd. lia.
  - intros d r'. rewrite <- Hr. apply Hk2.
Qed.

(** Refused commits: a commit of another view, during an election, for a block that
    is already on the chain, or from a sender already counted is answered with its
    error and leaves the replica exactly as it was. *)
Theorem RecvCommit_refused (c : Commit) (w : worker) :
  (view w ≠ cmView c → RecvCommit c w = (Exit (Some "commit view is not correct"), w)) ∧
  (view w = cmView c → ready w = false →
     RecvCommit c w = (Exit (Some "being seletionleader"), w)) ∧
  (view w = cmView c → ready w = true → (cmHeight c ≤ CurrentBlock w)%Z →
     RecvCommit c w = (Exit (Some "preprep.Request block already onchain"), w)) ∧
  (view w = cmView c → ready w = true → (CurrentBlock w < cmHeight c)%Z →
     cmSender c ∈ cmSender <$> commit (certAt (cmView c, cmReqID c) w) →
     RecvCommit c w = (Exit (Some "duplicate commit msg"), w)).
Proof.
  unfold RecvCommit, recovering, func. split_and!.
  - intros Hv. rewrite get_bind, guard_stop; [done|]. apply negb_true_iff, Z.eqb_neq, Hv.
  - intros Hv Hr. rewrite get_bind, guard_pass by (apply negb_false_iff, inV_true; done).
    rewrite get_bind, guard_stop; [done|]. by apply negb_true_iff.
  - intros Hv Hr Hh. rewrite get_bind, guard_pass by (apply negb_false_iff, inV_true; done).
    rewrite get_bind, guard_pass by (apply negb_false_iff; done).
    rewrite get_bind, guard_stop; [done|]. by apply Z.leb_le.
  - intros Hv Hr Hh Hd. rewrite get_bind, guard_pass by (apply negb_false_iff, inV_true; done).
    rewrite get_bind, guard_pass by (apply negb_false_iff; done).
    rewrite get_bind, guard_pass by (apply Z.leb_gt; done).
    rewrite getCert_bind, get_bind.
    assert (withCert (cmView c, cmReqID c) w = w) as ->.
    { unfold withCert, certAt in *. destruct (certStore w !! _); [done|]. simpl in Hd. set_solver. }
    rewrite guard_stop; [done|].
    apply list_elem_of_fmap in Hd as (x & Hs & Hx%list_elem_of_In). apply existsb_exists.
    exists x. split; [done|]. by apply bool_decide_eq_true.
Qed.

(** ** Panics *)

Lemma recovering_no_panic (m : H unit) w : (recovering m w).1 ≠ Panicked.
Proof. unfold recovering. by destruct (m w) as [[] ?]. Qed.

(** Computations that cannot panic. *)
Definition nopanic {A} (m : H A) : Prop := ∀ w, (m w).1 ≠ Panicked.

Lemma nopanic_bind {A B} (m : H A) (k : A → H B) :
  nopanic m → (∀ a, nopanic (k a)) → nopanic (bind m k).
Proof.
  intros Hm Hk w. unfold bind. specialize (Hm w).
  destruct (m w) as [[a|e|] w']; [apply Hk|done|done].
Qed.

Lemma nopanic_modify f : nopanic (modify f).
Proof. done. Qed.

Lemma nopanic_get {A} (f : worker → A) : nopanic (get f).
Proof. done. Qed.

Lemma nopanic_ret {A} (a : A) : nopanic (ret a).
Proof. done. Qed.

Lemma nopanic_ifReturn b e : nopanic (ifReturn b e).
Proof. by destruct b. Qed.

Lemma nopanic_when b m : nopanic m → nopanic (when b m).
Proof. by destruct b. Qed.

Lemma nopanic_func {A} (m : H A) : nopanic m → nopanic (func m).
Proof. intros Hm w. specialize (Hm w). unfold func. by destruct (m w) as [[] ?]. Qed.

Create HintDb panics.
#[local] Hint Resolve nopanic_bind nopanic_modify nopanic_get nopanic_ret nopanic_ifReturn
  nopanic_when nopanic_func : panics.

Lemma RecvCheckpoint_nopanic c : nopanic (RecvCheckpoint c).
Proof.
  intros w. unfold RecvCheckpoint, deferred.
  match goal with |- context [func ?m w] => assert (nopanic (func m)) as Hm end.
  { unfold updateLeaseBeat, updateCheckpointBH, DeletePVBAndBeats, deleteImpossibleValidBlock,
      deletbeats, sleep, emit. auto 20 with panics. }
  specialize (Hm w). by destruct (func _ w).
Qed.

Lemma SendRequest_nopanic b s : nopanic (SendRequest b s).
Proof.
  unfold SendRequest. do 4 (apply nopanic_bind; [done|intros ?]).
  destruct (_ <=? _)%Z; [done|]. unfold sleep, go, post, emit. auto 20 with panics.
Qed.

(** The state after [LastReqID] was raised to [n]. *)
Definition raised (n : Z) (w : worker) : worker :=
  if (LastReqID w <? n)%Z then w <| LastReqID := n |> else w.

Lemma raise_bind {A} n (k : unit → H A) w :
  bind (when (LastReqID w <? n)%Z (setLastReqID n)) k w = k tt (raised n w).
Proof. unfold raised. by destruct (LastReqID w <? n)%Z. Qed.

Lemma raised_frame n w :
  view (raised n w) = view w ∧ ready (raised n w) = ready w ∧ leader (raised n w) = leader w ∧
  reqStore (raised n w) = reqStore w ∧ CurrentBlock (raised n w) = CurrentBlock w ∧
  nodeID (raised n w) = nodeID w ∧ clock (raised n w) = clock w ∧ out (raised n w) = out w.
Proof. unfold raised. by destruct (LastReqID w <? n)%Z. Qed.

Lemma PutPVBAndBeats_val b w :
  ∃ w', PutPVBAndBeats (Some b) w = (Val tt, w').
Proof. by eexists. Qed.

Lemma RecvRequest_panic_iff r w :
  (RecvRequest r w).1 = Panicked ↔
  ready w = true ∧ rqSender r = leader w ∧ view w = rqView r ∧
  reqStore w !! newhashReq r = None ∧ (CurrentBlock w < rqBlockHeight r)%Z ∧ rqRealblock r = None.
Proof.
  unfold RecvRequest, func. rewrite get_bind, raise_bind, get_bind.
  destruct (raised_frame (rqReqID r) w) as (Hv & Hr & Hl & Hq & Hb & _).
  set (w1 := raised (rqReqID r) w) in *. clearbody w1. rewrite <- Hv, <- Hr, <- Hl, <- Hq, <- Hb.
  clear w Hv Hr Hl Hq Hb. rename w1 into w. unfold Ready.
  destruct (ready w) eqn:Er; [rewrite guard_pass by done|rewrite guard_stop by done; simpl; naive_solver].
  rewrite !get_bind. simpl fst. simpl snd.
  destruct (bool_decide (rqSender r = leader w)) eqn:El;
    [|rewrite guard_stop by done; simpl; apply bool_decide_eq_false in El; naive_solver].
  apply bool_decide_eq_true in El.
  destruct (rqView r <? view w)%Z eqn:Ev;
    [rewrite guard_stop by done; simpl; apply Z.ltb_lt in Ev; naive_solver lia|].
  rewrite guard_pass by done. rewrite get_bind. unfold GetRequestFromStore.
  destruct (reqStore w !! newhashReq r) eqn:Es; [rewrite guard_stop by done; simpl; naive_solver|].
  rewrite guard_pass by done. rewrite get_bind.
  destruct (rqBlockHeight r <=? CurrentBlock w)%Z eqn:Eh;
    [rewrite guard_stop by done; simpl; apply Z.leb_le in Eh; naive_solver lia|].
  rewrite guard_pass by done. apply Z.leb_gt in Eh. cbn.
  destruct (inV _ _) eqn:Ei; unfold inV in Ei; simpl in Ei.
  - apply Z.eqb_eq in Ei. cbn. destruct (rqRealblock r) as [b|]; [|cbn; naive_solver].
    cbn. naive_solver.
  - apply Z.eqb_neq in Ei. cbn. naive_solver.
Qed.

(** C39. Panics: handling a message, a checkpoint, a timer or a proposal can panic in one
    case only, a fresh request of the current leader and view for a block above the
    chain that comes without the block itself.  [RecvRequest] has no [recover], so
    this one crashes the process. *)
Theorem panics_iff (i : input) (w : worker) :
  i ≠ InTask TStartConsensus →
  (handle i w).1 = Panicked ↔
  ∃ r, i = InTask (TRecvRequest r) ∧
    ready w = true ∧ rqSender r = leader w ∧ view w = rqView r ∧
    reqStore w !! newhashReq r = None ∧ (CurrentBlock w < rqBlockHeight r)%Z ∧ rqRealblock r = None.
Proof.
  intros Hi. destruct i as [[r|p|p|p|c| |]|c| |t|b s]; simpl; try done.
  - rewrite RecvRequest_panic_iff. naive_solver.
  - split; [|naive_solver]. intros []%recovering_no_panic.
  - split; [|naive_solver]. intros []%recovering_no_panic.
  - split; [|naive_solver]. intros []%recovering_no_panic.
  - split; [|naive_solver]. intros []%recovering_no_panic.
  - split; [done|naive_solver].
  - split; [|naive_solver]. intros []%RecvCheckpoint_nopanic.
  - split; [done|naive_solver].
  - split; [done|naive_solver].
  - split; [|naive_solver]. destruct (ISLeader w); [|done]. intros []%SendRequest_nopanic.
Qed.

(** ** Prepares *)

Definition filePrepare (p : Prepare) (w : worker) : worker :=
  (withCert (prView p, prReqID p) w) <| certStore ::=
    alter (fun ct => ct <| prepare ::= (fun l => l ++ [p]) |>) (prView p, prReqID p) |>.

(** The prepare passes the guards of [RecvPrepare] and is for the stored request [r]. *)
Record preparable (p : Prepare) (r : Request) (w : worker) : Prop := mkPreparable {
  pa_view : view w = prView p;
  pa_ready : ready w = true;
  pa_fresh : ∀ q, q ∈ prepare (certAt (prView p, prReqID p) w) → prSender q ≠ prSender p;
  pa_request : reqStore w !! prRequestDigest p = Some r;
  pa_height : (CurrentBlock w < rqBlockHeight r)%Z;
  pa_uncommitted : commitStore w !! rqBlockHeight r = None;
  pa_unsent : sentCommit (certAt (prView p, prReqID p) w) = false }.

Lemma prepare_senders p l :
  (∀ q, q ∈ l → prSender q ≠ prSender p) →
  existsb (fun q => bool_decide (prSender q = prSender p)) l = false.
Proof.
  intros Hn. apply not_true_iff_false. intros He.
  apply existsb_exists in He as (x & Hx%list_elem_of_In & Hs%bool_decide_eq_true). by eapply Hn.
Qed.

(** The block a prepared request is validated on. *)
Definition blockOf (r : Request) (w : worker) : option Block :=
  match GetBlockFromPossibleValidBlock (rqBlockHeight r) (rqBlockHash r) w with
  | Some b => Some b
  | None => rqRealblock r
  end.

(** The commit the replica answers a prepared request with. *)
Definition commitFor (p : Prepare) (r : Request) (b : Block) (w : worker) : Commit :=
  mkCommit (nodeID w) (prView p) (clock w) (prReqID p) (prRequestDigest p)
    (mkVR (nodeID w) (rqBlockHeight r) (rqBlockHash r) (rqBlockCreator r)
       (if is_valid b then
          match getConsensusTxExes (prRequestDigest p) (prView p) (prReqID p) w with
          | Ok _ => true | Err _ => false end
        else false)
       (nodeID w)).

Lemma sendCommit_sends p r k err b w :
  (CurrentBlock w < rqBlockHeight r)%Z → blockOf r w = Some b →
  commitStore w !! rqBlockHeight r = None →
  let c := commitFor p r b w in
  sendCommit p r k err w =
  (Val tt, addOut [broadcast w (clock w) (JCommit c) "PBFTCommit"; Sleep (5 * second);
                   Go (TRecvCommit c)]
     ((pruneCommits (w <| commitStore ::= <[rqBlockHeight r := rqBlockHash r]> |>))
        <| certStore ::= alter (fun ct => ct <| sentCommit := true |>) k |>)).
Proof.
  intros Hh Hb Hc. unfold sendCommit. rewrite get_bind, guard_pass by (apply Z.leb_gt; done).
  rewrite get_bind. unfold blockOf in Hb. rewrite Hb. cbn [deref]. unfold bind at 1. cbn [ret].
  rewrite !get_bind. cbn [vrsign]. rewrite guard_pass by done.
  unfold bind at 1. rewrite recordCommit_eq, Hc. cbv beta iota. rewrite guard_pass by done.
  cbn. unfold addOut, broadcast, go, emit, modify. cbn. by rewrite <- !app_assoc.
Qed.

Lemma filePrepare_frame p w :
  sentCommit (certAt (prView p, prReqID p) (filePrepare p w))
  = sentCommit (certAt (prView p, prReqID p) w) ∧
  CurrentBlock (filePrepare p w) = CurrentBlock w ∧
  reqStore (filePrepare p w) = reqStore w ∧
  possibleValidBlock (filePrepare p w) = possibleValidBlock w ∧
  commitStore (filePrepare p w) = commitStore w ∧ out (filePrepare p w) = out w ∧
  is_Some (certStore (filePrepare p w) !! (prView p, prReqID p)).
Proof.
  unfold filePrepare, withCert, certAt. destruct (certStore w !! (prView p, prReqID p)) as [ct|] eqn:E;
    simpl; rewrite lookup_alter_eq.
  - rewrite E. simpl. by split_and!.
  - rewrite lookup_insert_eq. simpl. by split_and!.
Qed.

(** C5. What a quorum of prepares does: an acceptable prepare that makes its request
    prepared is answered, without error, with exactly one broadcast commit of this
    node: for the request's view, id, digest, height and hash, positive exactly
    when the block is valid and a quorum of prepares agrees on the transaction
    order; the height is recorded as committed to. *)
Theorem RecvPrepare_quorum (p : Prepare) (r : Request) (b : Block) (w : worker) :
  preparable p r w → blockOf r w = Some b → isPrepared p (filePrepare p w) = true →
  ∃ w', RecvPrepare p w = (Exit None, w') ∧
    commitsOut w' = commitsOut w ++ [commitFor p r b (filePrepare p w)] ∧
    Go (TRecvCommit (commitFor p r b (filePrepare p w))) ∈ out w' ∧
    commitStore w' !! rqBlockHeight r = Some (rqBlockHash r) ∧
    sentCommit (certAt (prView p, prReqID p) w') = true.
Proof.
  intros [Hv Hr Hf Hq Hh Hu Hs] Hb Hp. unfold RecvPrepare, recovering, func.
  destruct (stable_withCert (prView p, prReqID p) w) as [Sn _ Sv Sb Sr Sc].
  destruct (withCert_frame (prView p, prReqID p) w) as (Hca & _).
  rewrite get_bind, guard_pass by (apply negb_false_iff, inV_true; done).
  rewrite get_bind, guard_pass by (apply negb_false_iff; done).
  rewrite getCert_bind, get_bind, guard_pass by (rewrite Hca; by apply prepare_senders).
  rewrite get_bind. unfold GetRequestFromStore. rewrite Sr, Hq.
  rewrite get_bind, guard_pass by (rewrite Sb; apply Z.leb_gt; done).
  rewrite get_bind, guard_pass by (rewrite Sc, Hu; apply bool_decide_eq_false; by intros []).
  rewrite get_bind, guard_pass by (rewrite Hca, Hs; apply andb_false_r).
  match goal with |- context [bind (updCert ?k ?f) ?g ?s] =>
    change (bind (updCert k f) g s) with (g tt (filePrepare p w)) end.
  cbv beta. rewrite get_bind, Hp.
  pose proof (filePrepare_frame p w) as (Fs & Fb & Fr & Fp & Fc & Fo & Fn).
  rewrite Fs, Hs. simpl when. set (w1 := filePrepare p w) in *. clearbody w1.
  set (w2 := if (preflag w1 =? 0)%Z then w1 <| preflag := 1%Z |> else w1).
  assert (commitFor p r b w1 = commitFor p r b w2 ∧ CurrentBlock w2 = CurrentBlock w ∧
          blockOf r w2 = Some b ∧ commitStore w2 = commitStore w ∧ out w2 = out w ∧
          is_Some (certStore w2 !! (prView p, prReqID p)))
    as (-> & E1 & E2 & E3 & E4 & E5).
  { unfold w2, blockOf, GetBlockFromPossibleValidBlock in *.
    destruct (preflag w1 =? 0)%Z; split_and!; simpl; rewrite ?Fp; try done; congruence. }
  rewrite bind_assoc, modify_bind.
  match goal with |- context [bind (sendCommit _ _ _ _) _ ?s] => change s with w2 end. clearbody w2.
  erewrite bind_val by (apply (sendCommit_sends p r _ _ b w2); rewrite ?E1, ?E3; done).
  match goal with |- context [sendConMsg_transfer2 p "PBFTPrepare" ?s] => set (w3 := s) end.
  destruct (transfer_spec (prSender p) (JPrepare p) "PBFTPrepare" w3) as (l & Hl & _ & Ht).
  unfold sendConMsg_transfer2. rewrite Ht. eexists. split; [reflexivity|]. split_and!.
  - rewrite commitsOut_addOut, Hl, app_nil_r. unfold w3. rewrite commitsOut_addOut.
    unfold commitsOut. simpl. by rewrite E4.
  - simpl. set_solver.
  - simpl. apply map_lookup_filter_Some_2; [apply lookup_insert_eq|]. simpl. lia.
  - unfold certAt. simpl. rewrite lookup_alter_eq. by destruct E5 as [ct ->].
Qed.

(** ** Checkpoints *)

(** The pool operations only write the pool. *)
Definition withPool (p : gmap Z (gmap string Block)) (b : gmap string Z) (w : worker) : worker :=
  w <| possibleValidBlock := p |> <| blockbeats := b |>.

Lemma withPool_self w : w = withPool (possibleValidBlock w) (blockbeats w) w.
Proof. by destruct w. Qed.

Lemma deleteIn_withPool ord bn w :
  ∃ p b, deleteImpossibleValidBlockIn ord bn w = withPool p b w.
Proof.
  unfold deleteImpossibleValidBlockIn. induction ord as [|[k bl] ord (p & b & IH)]; simpl.
  { eexists _, _. apply withPool_self. }
  destruct (k <=? bn)%Z; [|by exists p, b].
  assert (∀ l v, ∃ b', foldr dropBeat v l = withPool (possibleValidBlock v) b' v) as Hd.
  { intros l v. induction l as [|x l (b' & IHl)]; simpl; [eexists; apply withPool_self|].
    rewrite IHl. eexists. reflexivity. }
  rewrite IH. destruct (Hd (map_to_list bl) (withPool p b w)) as (b' & ->).
  eexists _, _. reflexivity.
Qed.

Lemma DeletePVBAndBeats_withPool bn h w :
  ∃ p b, DeletePVBAndBeats bn h w = (Val tt, withPool p b w).
Proof.
  unfold DeletePVBAndBeats, deleteImpossibleValidBlock. rewrite modify_bind.
  destruct (deleteIn_withPool (map_to_list (possibleValidBlock w)) bn w) as (p & b & ->).
  eexists _, _. reflexivity.
Qed.

Definition raiseBH (bn : Z) (w : worker) : worker :=
  if (checkpointBH w <? bn)%Z then w <| checkpointBH := bn |> else w.

Lemma raiseBH_height n w : CurrentBlock (raiseBH n w) = CurrentBlock w.
Proof. unfold raiseBH. by destruct (_ <? _)%Z. Qed.

(** The three outcomes of [RecvCheckpoint]. *)
Lemma RecvCheckpoint_seen c w :
  is_Some (checkpointStore w !! ckBlockHash c) →
  RecvCheckpoint c w = (Exit (Some "error"), w <| leaseBeat := clock w |> <| chkpt := false |>).
Proof.
  intros Hs. unfold RecvCheckpoint, deferred, func, updateLeaseBeat.
  rewrite modify_bind, get_bind, guard_stop; [done|]. by apply bool_decide_eq_true.
Qed.

Lemma RecvCheckpoint_old c w :
  checkpointStore w !! ckBlockHash c = None → (ckBlockHeight c < CurrentBlock w)%Z →
  RecvCheckpoint c w =
  (Exit (Some "error"), (raiseBH (ckBlockHeight c) (w <| leaseBeat := clock w |>)) <| chkpt := false |>).
Proof.
  intros Hs Hl. unfold RecvCheckpoint, deferred, func, updateLeaseBeat, updateCheckpointBH.
  rewrite modify_bind, get_bind, guard_pass
    by (simpl; rewrite Hs; apply bool_decide_eq_false; by intros []).
  rewrite modify_bind, get_bind. fold (raiseBH (ckBlockHeight c) (w <| leaseBeat := clock w |>)).
  rewrite raiseBH_height. rewrite guard_stop by (apply Z.ltb_lt; done). done.
Qed.

Lemma RecvCheckpoint_new c w :
  checkpointStore w !! ckBlockHash c = None → (CurrentBlock w ≤ ckBlockHeight c)%Z →
  let w1 := cancelConsensus (raiseBH (ckBlockHeight c) (w <| leaseBeat := clock w |>)) in
  let w2 := (DeletePVBAndBeats (ckBlockHeight c) (ckBlockHash c) w1).2 in
  RecvCheckpoint c w =
  (Exit None,
   addOut [Sleep (1000 * millisecond)]
     (w2 <| checkpointStore := filter (fun e => ¬ (e.2 < CurrentBlock w)%Z)
              (<[ckBlockHash c := ckBlockHeight c]> (checkpointStore w2)) |>
         <| chkpt := false |>)).
Proof.
  intros Hs Hl w1 w2. unfold RecvCheckpoint, deferred, func, updateLeaseBeat, updateCheckpointBH.
  rewrite modify_bind, get_bind, guard_pass
    by (simpl; rewrite Hs; apply bool_decide_eq_false; by intros []).
  rewrite modify_bind, get_bind. fold (raiseBH (ckBlockHeight c) (w <| leaseBeat := clock w |>)).
  rewrite raiseBH_height. rewrite guard_pass by (apply Z.ltb_ge; done).
  rewrite modify_bind. unfold w2.
  destruct (DeletePVBAndBeats_withPool (ckBlockHeight c) (ckBlockHash c) w1) as (p & b & Hd).
  erewrite bind_val by exact Hd. rewrite Hd. reflexivity.
Qed.

Definition sameCheckpoint (w w' : worker) (bn : Z) : Prop :=
  leaseBeat w' = clock w ∧ CurrentBlock w' = CurrentBlock w ∧ certStore w' = certStore w ∧
  reqStore w' = reqStore w ∧ possibleValidBlock w' = possibleValidBlock w ∧
  blockbeats w' = blockbeats w ∧ consensusCtx w' ≠ CtxLive ∧ (bn ≤ checkpointBH w')%Z.

(** Checkpoints: a checkpoint seen before, or below the chain height, is refused and
    clears nothing.  A new one, at or above the chain height, is accepted: every
    pooled block up to its height is dropped with its start time, a running
    consensus is cancelled, the checkpoint is remembered (so that receiving it
    again is refused), and the chain and the certificates are untouched. *)
Theorem RecvCheckpoint_spec (c : Checkpoint) (w : worker) :
  let '(o, w') := RecvCheckpoint c w in
  chkpt w' = false ∧ leaseBeat w' = clock w ∧
  CurrentBlock w' = CurrentBlock w ∧ certStore w' = certStore w ∧ reqStore w' = reqStore w ∧
  (is_Some (checkpointStore w !! ckBlockHash c) ∨ (ckBlockHeight c < CurrentBlock w)%Z →
     o = Exit (Some "error") ∧ possibleValidBlock w' = possibleValidBlock w ∧
     blockbeats w' = blockbeats w) ∧
  (checkpointStore w !! ckBlockHash c = None → (CurrentBlock w ≤ ckBlockHeight c)%Z →
     o = Exit None ∧
     (∀ k, possibleValidBlock w' !! k =
           if decide (k ≤ ckBlockHeight c)%Z then None else possibleValidBlock w !! k) ∧
     consensusCtx w' ≠ CtxLive ∧ (ckBlockHeight c ≤ checkpointBH w')%Z ∧
     (RecvCheckpoint c w').1 = Exit (Some "error")).
Proof.
  destruct (checkpointStore w !! ckBlockHash c) as [bn|] eqn:Es.
  { rewrite RecvCheckpoint_seen by (rewrite Es; by eexists). split_and!; done. }
  destruct (decide (ckBlockHeight c < CurrentBlock w)%Z) as [Hlt|Hge].
  { rewrite RecvCheckpoint_old by done. unfold raiseBH.
    destruct (_ <? _)%Z; split_and!; try done; intros; lia. }
  rewrite RecvCheckpoint_new by (done || lia).
  set (w0 := raiseBH (ckBlockHeight c) (w <| leaseBeat := clock w |>)).
  destruct (DeletePVBAndBeats_pool (ckBlockHeight c) (ckBlockHash c) (cancelConsensus w0)) as [Hp _].
  destruct (DeletePVBAndBeats_withPool (ckBlockHeight c) (ckBlockHash c) (cancelConsensus w0))
    as (p & b & Hd).
  rewrite Hd in *. simpl in Hp. simpl snd.
  assert (sameCheckpoint w (cancelConsensus w0) (ckBlockHeight c)) as (F1 & F2 & F3 & F4 & F5 & F6 & F7 & F8).
  { unfold w0, raiseBH, cancelConsensus. simpl.
    destruct (checkpointBH w <? ckBlockHeight c)%Z eqn:Eb; simpl;
      destruct (consensusCtx w) eqn:Ec; simpl; rewrite ?Ec; apply Z.ltb_lt in Eb || apply Z.ltb_ge in Eb;
      split_and!; simpl; try done; lia. }
  split_and!; try done; [intros [[? [=]]|?]; lia|].
  intros _ _. split_and!; try done.
  - intros k. etrans; [apply Hp|]. by rewrite F5.
  - rewrite RecvCheckpoint_seen; [done|]. simpl. exists (ckBlockHeight c).
    apply map_lookup_filter_Some_2; [apply lookup_insert_eq|]. simpl. lia.
Qed.

(** ** Block production *)

(** [SendRequest] of a block above the chain. *)
Definition requestOf (b : Block) (text : string) (w : worker) : Request :=
  mkRequest (u64 (LastReqID w + 1)) (nodeID w) (view w) (clock w) (blNumber b) (BlockHash_of b)
    (HexToAddress (nodeID w)) text (Some b).

Lemma SendRequest_sends b text w :
  (CurrentBlock w < blNumber b)%Z →
  SendRequest b text w =
  (Val tt, addOut [Sleep (1000 * millisecond); Go (TRecvRequest (requestOf b text w));
                   broadcast w (clock w) (JRequest (requestOf b text w)) "PBFTRequest"]
     (w <| LastReqID := u64 (LastReqID w + 1) |>)).
Proof.
  intros Hh. unfold SendRequest. cbn. rewrite (proj2 (Z.leb_gt _ _) Hh). cbn.
  unfold post, emit, modify, addOut, broadcast, requestOf. cbn. by rewrite <- !app_assoc.
Qed.

Lemma PutPVBAndBeats_withPool b w :
  ∃ p t, PutPVBAndBeats (Some b) w = (Val tt, withPool p t w) ∧
    (p !! blNumber b ≫= (fun bl => bl !! BlockHash_of b)) = Some b.
Proof.
  exists (<[blNumber b := <[BlockHash_of b := b]> (default ∅ (possibleValidBlock w !! blNumber b))]>
            (possibleValidBlock w)).
  assert (∀ w1 : worker, ∃ t, addbeats (BlockHash_of b) w1 = (Val tt, w1 <| blockbeats := t |>)) as Ha.
  { intros w1. unfold addbeats, modify. destruct (blockbeats w1 !! _); [|by eexists].
    exists (blockbeats w1). by destruct w1. }
  edestruct Ha as [t Ht]. exists t. split.
  - unfold PutPVBAndBeats, putBlockOnPossibleValidBlock. cbn. etrans; [exact Ht|done].
  - rewrite lookup_insert_eq. simpl. apply lookup_insert_eq.
Qed.

(** The state in which [mineBlock] hands its block to [SendRequest]: the context is
    live, mining is flagged, the block is pooled. *)
Lemma mineBlock_unfold w :
  consensusCtx w ≠ CtxLive →
  (∀ c, current w = Some c → wkLocalMinedBlocks c = None) → (CurrentBlock w < 2)%Z →
  ∃ b p t, let w1 := withPool p t (w <| consensusCtx := CtxLive |> <| mining := true |>) in
    blNumber b = 2%Z ∧ is_valid b = true ∧ hdParentHash <$> blHeader b = Some "1" ∧
    (p !! 2%Z ≫= (fun bl => bl !! "2")) = Some b ∧
    mineBlock w = (Val tt, (SendRequest b "随便" w1).2 <| mining := false |>).
Proof.
  intros Hc Hcur Hh. unfold mineBlock.
  erewrite (bind_val openContext) by (unfold openContext; rewrite get_bind;
    destruct (consensusCtx w); [reflexivity|done|reflexivity]).
  rewrite modify_bind, !get_bind. unfold makeCurrent. rewrite modify_bind, get_bind.
  cbv beta zeta iota delta [TxPool multiVSelectWithLimit2 TxDependency].
  match goal with |- context [bind (PutPVBAndBeats (Some ?b)) _ ?s] =>
    destruct (PutPVBAndBeats_withPool b s) as (p & t & Hput & Hb); set (blk := b) in * end.
  erewrite bind_val by exact Hput. rewrite modify_bind.
  match goal with |- context [bind (SendRequest _ _) _ ?s] => set (w3 := s) end.
  set (w1 := withPool p t (w <| consensusCtx := CtxLive |> <| mining := true |>)).
  assert (w3 = w1) as -> by (unfold w3, w1, withPool; by destruct w).
  exists blk, p, t. split_and!; try done.
  assert (CurrentBlock w1 < blNumber blk)%Z as Hlt by exact Hh.
  erewrite bind_val by (apply SendRequest_sends; exact Hlt). rewrite modify_bind.
  rewrite SendRequest_sends by exact Hlt. cbn [snd].
  unfold logLocalMinedBlocks. cbn.
  destruct (current w) as [cw|] eqn:Ecur; [|done]. by rewrite (Hcur cw eq_refl).
Qed.


(** ** Instances *)

(** The replica that has seen the round up to the last commit, and up to the last
    prepare. *)
Definition demoBeforeLast : worker := run (take 6 demoRound) (demoNode ":3001").
Definition demoBeforePrepared : worker := run (take 3 demoRound) (demoNode ":3001").

Lemma RecvCommit_quorum_witness :
  CurrentBlock (RecvCommit (demoCommit (demoName ":3002")) demoBeforeLast).2 = 2%Z.
Proof.
  destruct (RecvCommit_quorum (demoCommit (demoName ":3002")) demoBeforeLast demoRequest)
    as (w' & Hw & Hc & _).
  - split; [reflexivity..|apply (bool_decide_unpack _); vm_compute; reflexivity].
  - split; vm_compute; congruence.
  - split; vm_compute; congruence.
  - vm_compute. reflexivity.
  - vm_compute. reflexivity.
  - vm_compute. reflexivity.
  - rewrite Hw. cbn [snd]. rewrite Hc. vm_compute. reflexivity.
Defined.

Lemma RecvCommit_refused_witness :
  RecvCommit (demoCommit (demoName ":3001")) demoBeforeLast
  = (Exit (Some "duplicate commit msg"), demoBeforeLast).
Proof.
  apply (RecvCommit_refused (demoCommit (demoName ":3001")) demoBeforeLast);
    [reflexivity..|apply (bool_decide_unpack _); vm_compute; reflexivity].
Defined.

Lemma panics_iff_witness :
  (handle (InTask (TRecvRequest (mkRequest 2 (demoName ":3000") 1 0 2 "2" [] "" None)))
     (demoNode ":3001")).1 = Panicked.
Proof.
  apply (panics_iff _ (demoNode ":3001")); [done|].
  exists (mkRequest 2 (demoName ":3000") 1 0 2 "2" [] "" None). split_and!; vm_compute; reflexivity.
Defined.

Lemma RecvPrepare_quorum_witness :
  length (commitsOut (RecvPrepare (demoPrepare (demoName ":3002")) demoBeforePrepared).2) = 1%nat.
Proof.
  destruct (RecvPrepare_quorum (demoPrepare (demoName ":3002")) demoRequest demoBlock demoBeforePrepared)
    as (w' & Hw & Hc & _).
  - split; [reflexivity|reflexivity| |vm_compute; reflexivity..].
    apply Forall_forall, (bool_decide_unpack _). vm_compute. reflexivity.
  - vm_compute. reflexivity.
  - vm_compute. reflexivity.
  - rewrite Hw. cbn [snd]. rewrite Hc, length_app. vm_compute. reflexivity.
Defined.

