(* ===== verification/Byzantine.v ===== *)
(** * eth: what a lying node can do

    Executions of the cluster in which some nodes send whatever they like under
    their own name.  The agreement of [Cluster.v] does not extend to them: the
    request digest does not cover the block ([newhashReq], [src/eth/pbft-core.go]),
    and what is inserted is taken from the last commit received.  Both are shown by
    concrete executions. *)

From stdpp Require Import base gmap strings list.
From Stdlib Require Import ZArith Lia.
From S2P Require Import Prelude Common Types Worker Pbft Mining Scenario Quorum Replica Safety Known Cluster Handlers.

(** ** Executions with faulty nodes *)

(** Messages a node in [byz] may make up: anything that names it as the sender. *)
Definition fabricated (byz : list string) (i : input) : bool :=
  match i with
  | InTask (TRecvRequest r) => bool_decide (rqSender r ∈ byz)
  | InTask (TRecvPrePrepare p) => bool_decide (ppSender p ∈ byz)
  | InTask (TRecvPrepare p) => bool_decide (prSender p ∈ byz)
  | InTask (TRecvCommit c) => bool_decide (cmSender c ∈ byz)
  | InCheckpoint c => bool_decide (ckSender c ∈ byz)
  | _ => false
  end.

Definition cstepB (byz : list string) (σ : cluster) (x : string * input) : option cluster :=
  match σ !! x.1 with
  | None => None
  | Some w => if enabled σ w x.2 || fabricated byz x.2
              then Some (<[x.1 := (handle x.2 w).2]> σ) else None
  end.

Fixpoint execB (byz : list string) (σ : cluster) (l : list (string * input)) : option cluster :=
  match l with
  | [] => Some σ
  | x :: l' => match cstepB byz σ x with Some σ' => execB byz σ' l' | None => None end
  end.

(** With no faulty node these are the executions of the cluster. *)
Lemma execB_nil σ l : execB [] σ l = exec σ l.
Proof.
  revert σ. induction l as [|x l IH]; intros σ; simpl; [done|].
  assert (fabricated [] x.2 = false) as Hf.
  { destruct x.2 as [[]| | | |]; simpl; try done; by apply bool_decide_eq_false, not_elem_of_nil. }
  unfold cstepB, cstep. destruct (σ !! x.1) as [w|]; [|done]. rewrite Hf, orb_false_r.
  destruct (enabled σ w x.2); [apply IH|done].
Qed.

(** ** A leader that equivocates *)

(** The same request id and digest with another block. *)
Definition otherBlock : Block := demoBlock <| blTxs := [Some (mkTransaction "other")] |>.
Definition otherRequest : Request :=
  mkRequest 2 (demoName ":3000") 1 0 2 "2" (HexToAddress (demoName ":3000")) "" (Some otherBlock).
Definition otherPrePrepare : PrePrepare :=
  mkPrePrepare (demoName ":3000") 1 0 2 "2" (Some otherRequest).

(** One block to the first replica, the other to the rest; then the honest
    replicas exchange everything. *)
Definition equivocation : list (string * input) :=
  [(demoName ":3001", InTask (TRecvPrePrepare demoPrePrepare));
   (demoName ":3002", InTask (TRecvPrePrepare otherPrePrepare));
   (demoName ":3003", InTask (TRecvPrePrepare otherPrePrepare))].

Definition leaderless : cluster := delete (demoName ":3000") (boot demoPeers).

Definition equivocationTrace : list (string * input) :=
  match execB [demoName ":3000"] leaderless equivocation with
  | Some σ => equivocation ++ flood 2 σ
  | None => []
  end.

Definition equivocationFinal : cluster :=
  default ∅ (execB [demoName ":3000"] leaderless equivocationTrace).
Definition equivocationAt (port : string) : worker :=
  default (demoNode port) (equivocationFinal !! demoName port).

(** A commit of the fourth node for the round's request, claiming height 100. *)
Definition wildCommit : Commit :=
  mkCommit (demoName ":3003") 1 0 2 "2" (mkVR (demoName ":3003") 100 "junk" [] true "").

(** Equivocation is not detected: with four nodes and only the leader faulty there is
    an execution in which two honest nodes both insert at height 2 although the
    blocks they validated for that height and hash are different. *)
Theorem equivocating_leader :
  ∃ l σ w1 w2 b1 b2 q1 q2,
    execB [demoName ":3000"] leaderless l = Some σ ∧
    σ !! demoName ":3001" = Some w1 ∧ σ !! demoName ":3002" = Some w2 ∧
    inserted w1 = [q1] ∧ inserted w2 = [q2] ∧ cmHeight q1 = 2%Z ∧ cmHeight q2 = 2%Z ∧
    GetBlockFromPossibleValidBlock 2 "2" w1 = Some b1 ∧
    GetBlockFromPossibleValidBlock 2 "2" w2 = Some b2 ∧ b1 ≠ b2.
Proof.
  exists equivocationTrace, equivocationFinal,
    (equivocationAt ":3001"), (equivocationAt ":3002"), demoBlock, otherBlock,
    (default wildCommit (head (inserted (equivocationAt ":3001")))),
    (default wildCommit (head (inserted (equivocationAt ":3002")))).
  split_and!; [vm_compute; reflexivity..|]. vm_compute. discriminate.
Qed.

(** ** The last commit decides what is inserted *)

(** The height and hash handed to the chain are those of the commit that completes
    the quorum, whatever the others say: one faulty node makes a replica insert
    height 100 with a made-up hash on a chain of height 1. *)
Theorem insertion_unchecked :
  ∃ l, Forall (fun i => ∀ c, i = InTask (TRecvCommit c) →
                        c = wildCommit ∨ (cmHeight c = 2%Z ∧ vrBlockHash (cmVR c) = "2")) l ∧
       inserted (run l (demoNode ":3001")) = [wildCommit] ∧
       CurrentBlock (run l (demoNode ":3001")) = 2%Z.
Proof.
  exists (take 6 demoRound ++ [InTask (TRecvCommit wildCommit)]). split_and!.
  - cbn [take demoRound demoPrefix demoNodes demoPeers map app].
    repeat (apply Forall_cons; split; [intros c [=]; subst; auto|]). by apply Forall_nil.
  - vm_compute. reflexivity.
  - vm_compute. reflexivity.
Qed.
