(* ===== verification/RlpEncode.v ===== *)
(** * rlp: encoding

    [src/rlp/encode.go]: the encode buffer with its deferred list headers, the
    writers the type cache selects for each kind of Go value, and the three ways
    of getting the bytes out ([toBytes], [toWriter], [encReader]).  A Go value
    reached through reflection is a [gval]: the constructor is the case of
    [makeWriter] its type selects.  Values whose type implements [Encoder] are
    outside ([writeEncoder] calls user code). *)

From stdpp Require Import base list strings sorting.
From Stdlib Require Import ZArith Lia.
From S2P Require Import Prelude Common.

(** ** Integers in big-endian bytes *)

(** Go's [byte(x)]. *)
Definition byteOf (z : Z) : Z := z `mod` 256.

(** [b[0] = byte(i >> 8*(n-1)); ...; b[n-1] = byte(i)]. *)
Fixpoint beBytes (n : nat) (i : Z) : bytes :=
  match n with
  | O => []
  | S k => byteOf (Z.shiftr i (8 * Z.of_nat k)) :: beBytes k i
  end.

Definition putint (i : Z) : bytes :=
  if (i <? 2 ^ 8)%Z then beBytes 1 i
  else if (i <? 2 ^ 16)%Z then beBytes 2 i
  else if (i <? 2 ^ 24)%Z then beBytes 3 i
  else if (i <? 2 ^ 32)%Z then beBytes 4 i
  else if (i <? 2 ^ 40)%Z then beBytes 5 i
  else if (i <? 2 ^ 48)%Z then beBytes 6 i
  else if (i <? 2 ^ 56)%Z then beBytes 7 i
  else beBytes 8 i.

(** The loop of [intsize]; a [uint64] is zero after eight shifts. *)
Fixpoint intsizeLoop (fuel : nat) (size : Z) (i : Z) : Z :=
  let i := Z.shiftr i 8 in
  if (i =? 0)%Z then size
  else match fuel with O => size | S f => intsizeLoop f (size + 1) i end.

Definition intsize (i : Z) : Z := intsizeLoop 7 1 i.

Definition headsize (size : Z) : Z := if (size <? 56)%Z then 1%Z else (1 + intsize size)%Z.

(** The header bytes [puthead] writes. *)
Definition puthead (smalltag largetag size : Z) : bytes :=
  if (size <? 56)%Z then [byteOf (smalltag + size)]
  else let s := putint size in byteOf (largetag + Z.of_nat (length s)) :: s.

(** ** The encode buffer *)

Record listhead := mkListhead { lhOffset : nat; lhSize : Z }.

Record encbuf := mkEncbuf { ebStr : bytes; ebLheads : list listhead; ebLhsize : Z }.

Definition reset : encbuf := mkEncbuf [] [] 0.

Definition appendStr (b : bytes) (w : encbuf) : encbuf :=
  mkEncbuf (ebStr w ++ b) (ebLheads w) (ebLhsize w).

Definition encodeStringHeader (size : Z) (w : encbuf) : encbuf :=
  if (size <? 56)%Z then appendStr [byteOf (128 + size)] w
  else let s := putint size in appendStr (byteOf (183 + Z.of_nat (length s)) :: s) w.

Definition encodeString (b : bytes) (w : encbuf) : encbuf :=
  match b with
  | [x] => if (x <=? 127)%Z then appendStr [x] w
           else appendStr b (encodeStringHeader 1 w)
  | _ => appendStr b (encodeStringHeader (Z.of_nat (length b)) w)
  end.

Definition ebSize (w : encbuf) : Z := (Z.of_nat (length (ebStr w)) + ebLhsize w)%Z.

(** [list]: the new head remembers [lhsize]; its pointer is the index. *)
Definition list_ (w : encbuf) : nat * encbuf :=
  (length (ebLheads w),
   mkEncbuf (ebStr w) (ebLheads w ++ [mkListhead (length (ebStr w)) (ebLhsize w)]) (ebLhsize w)).

Definition listEnd (lh : nat) (w : encbuf) : encbuf :=
  match ebLheads w !! lh with
  | None => w
  | Some h =>
      let size := (ebSize w - Z.of_nat (lhOffset h) - lhSize h)%Z in
      mkEncbuf (ebStr w) (<[lh := mkListhead (lhOffset h) size]> (ebLheads w))
        (ebLhsize w + (if (size <? 56)%Z then 1 else 1 + intsize size))%Z
  end.

(** [listhead.encode] *)
Definition lhEncode (h : listhead) : bytes := puthead 192 247 (lhSize h).

(** [toBytes]: string data up to each header's offset, then the header. *)
Fixpoint mergeHeads (str : bytes) (strpos : nat) (heads : list listhead) : bytes :=
  match heads with
  | [] => drop strpos str
  | h :: rest =>
      take (lhOffset h - strpos) (drop strpos str) ++ lhEncode h
      ++ mergeHeads str (lhOffset h) rest
  end.

Definition toBytes (w : encbuf) : bytes := mergeHeads (ebStr w) 0 (ebLheads w).

(** [toWriter]: the chunks handed to [out.Write]. *)
Fixpoint writeChunks (str : bytes) (strpos : nat) (heads : list listhead) : list bytes :=
  match heads with
  | [] => if (strpos <? length str)%nat then [drop strpos str] else []
  | h :: rest =>
      (if (0 <? lhOffset h - strpos)%nat then [take (lhOffset h - strpos) (drop strpos str)] else [])
      ++ [lhEncode h] ++ writeChunks str (lhOffset h) rest
  end.

Definition toWriter (w : encbuf) : list bytes := writeChunks (ebStr w) 0 (ebLheads w).

(** ** Writers *)

Inductive gval :=
| VRaw (b : bytes)                 (* RawValue *)
| VInterface (v : option gval)     (* an interface value *)
| VBigIntPtr (i : option Z)        (* big.Int pointer *)
| VBigInt (i : Z)                  (* big.Int *)
| VUint (i : Z)                    (* unsigned integers *)
| VBool (b : bool)
| VString (s : bytes)
| VBytes (b : bytes)               (* byte slice *)
| VByteArray (b : bytes)           (* byte array *)
| VSlice (l : list gval)           (* slice or array *)
| VTail (l : list gval)            (* slice with the "tail" tag *)
| VStruct (l : list gval)          (* the exported fields *)
| VPtr (v : gval)                  (* non-nil pointer *)
| VNilByteArray                    (* nil pointer to a byte array *)
| VNilList                         (* nil pointer to a struct or array *)
| VNilZero (zero : gval)           (* any other nil pointer: the zero value *)
| VMap (json : bytes).             (* a map: the JSON text json.Marshal makes of it *)

Definition writeUint (i : Z) (w : encbuf) : encbuf :=
  if (i =? 0)%Z then appendStr [128%Z] w
  else if (i <? 128)%Z then appendStr [byteOf i] w
  else let s := putint i in appendStr (byteOf (128 + Z.of_nat (length s)) :: s) w.

Definition writeBool (b : bool) (w : encbuf) : encbuf :=
  appendStr [if b then 1%Z else 128%Z] w.

(** [big.Int.Bytes]: the minimal big-endian bytes of a positive number. *)
Fixpoint bigBytesLoop (fuel : nat) (i : Z) (acc : bytes) : bytes :=
  match fuel with
  | O => acc
  | S f => if (i =? 0)%Z then acc else bigBytesLoop f (i / 256)%Z ((i `mod` 256)%Z :: acc)
  end.

Definition bigBytes (i : Z) : bytes := bigBytesLoop (S (Z.to_nat (Z.log2 i))) i [].

Definition writeBigInt (i : Z) (w : encbuf) : result encbuf :=
  if (i <? 0)%Z then Err "rlp: cannot encode negative *big.Int"
  else if (i =? 0)%Z then Ok (appendStr [128%Z] w)
  else Ok (encodeString (bigBytes i) w).

Definition writeString : bytes → encbuf → encbuf := encodeString.

(** Sequencing the element writers of a slice or struct. *)
Definition writeSeq (write : gval → encbuf → result encbuf) : list gval → encbuf → result encbuf :=
  fix go l w :=
    match l with
    | [] => Ok w
    | v :: l' => match write v w with Ok w' => go l' w' | Err e => Err e end
    end.

(** [defer w.listEnd(w.list())] around the elements. *)
Definition writeList (body : encbuf → result encbuf) (w : encbuf) : result encbuf :=
  let '(lh, w1) := list_ w in
  match body w1 with Ok w2 => Ok (listEnd lh w2) | Err e => Err e end.

(** The writer [makeWriter] selects, applied. *)
Fixpoint write (v : gval) (w : encbuf) : result encbuf :=
  match v with
  | VRaw b => Ok (appendStr b w)
  | VInterface None => Ok (appendStr [192%Z] w)
  | VInterface (Some v) => write v w
  | VBigIntPtr None => Ok (appendStr [128%Z] w)
  | VBigIntPtr (Some i) | VBigInt i => writeBigInt i w
  | VUint i => Ok (writeUint i w)
  | VBool b => Ok (writeBool b w)
  | VString s => Ok (writeString s w)
  | VBytes b | VByteArray b => Ok (encodeString b w)
  | VSlice l | VStruct l => writeList (writeSeq write l) w
  | VTail l => writeSeq write l w
  | VPtr v => write v w
  | VNilByteArray => Ok (appendStr [128%Z] w)
  | VNilList => writeList Ok w
  | VNilZero z => write z w
  | VMap json => Ok (writeString json w)
  end.

Definition EncodeToBytes (v : gval) : result bytes :=
  match write v reset with Ok w => Ok (toBytes w) | Err e => Err e end.

(** ** [encReader] *)

Record encReader := mkEncReader {
  erBuf : option encbuf;          (* nil at EOF *)
  erLhpos : nat;
  erStrpos : nat;
  erPiece : option bytes }.

Definition erNext (r : encReader) : option bytes * encReader :=
  match erBuf r with
  | None => (None, r)
  | Some buf =>
      match erPiece r with
      | Some p => (Some p, r)
      | None =>
          match ebLheads buf !! erLhpos r with
          | Some head =>
              let sizebefore := (lhOffset head - erStrpos r)%nat in
              if (0 <? sizebefore)%nat then
                (Some (take sizebefore (drop (erStrpos r) (ebStr buf))),
                 mkEncReader (erBuf r) (erLhpos r) (erStrpos r + sizebefore) (erPiece r))
              else (Some (lhEncode head),
                    mkEncReader (erBuf r) (erLhpos r + 1) (erStrpos r) (erPiece r))
          | None =>
              if (erStrpos r <? length (ebStr buf))%nat then
                (Some (drop (erStrpos r) (ebStr buf)),
                 mkEncReader (erBuf r) (erLhpos r) (length (ebStr buf)) (erPiece r))
              else (None, r)
          end
      end
  end.

(** [Read] into a buffer of [room] bytes: the bytes read, whether EOF was returned,
    and the new reader.  Each round consumes a piece; [fuel] bounds the pieces. *)
Fixpoint erRead (fuel : nat) (room : nat) (r : encReader) : bytes * bool * encReader :=
  match fuel with
  | O => ([], false, r)
  | S f =>
      match erNext r with
      | (None, r') => ([], true, mkEncReader None (erLhpos r') (erStrpos r') None)
      | (Some p, r') =>
          if (room <? length p)%nat
          then (take room p, false,
                mkEncReader (erBuf r') (erLhpos r') (erStrpos r') (Some (drop room p)))
          else let '(bs, eof, r'') := erRead f (room - length p)
                 (mkEncReader (erBuf r') (erLhpos r') (erStrpos r') None) in
               (p ++ bs, eof, r'')
      end
  end.

(** ** The reference encoding

    The same rules, written as concatenation, with no buffer. *)

Definition encStr (b : bytes) : bytes :=
  match b with
  | [x] => if (x <=? 127)%Z then [x] else puthead 128 183 1 ++ [x]
  | _ => puthead 128 183 (Z.of_nat (length b)) ++ b
  end.

Definition encList (content : bytes) : bytes :=
  puthead 192 247 (Z.of_nat (length content)) ++ content.

Definition encSeq (enc : gval → result bytes) : list gval → result bytes :=
  fix go l :=
    match l with
    | [] => Ok []
    | v :: l' => match enc v with
                 | Err e => Err e
                 | Ok b => match go l' with Ok bs => Ok (b ++ bs) | Err e => Err e end
                 end
    end.

Definition mapOk {A B} (f : A → B) (r : result A) : result B :=
  match r with Ok a => Ok (f a) | Err e => Err e end.

Definition encUint (i : Z) : bytes := if (i =? 0)%Z then [128%Z] else encStr (putint i).

Definition encBig (i : Z) : result bytes :=
  if (i <? 0)%Z then Err "rlp: cannot encode negative *big.Int"
  else if (i =? 0)%Z then Ok [128%Z] else Ok (encStr (bigBytes i)).

Fixpoint encoding (v : gval) : result bytes :=
  match v with
  | VRaw b => Ok b
  | VInterface None => Ok [192%Z]
  | VInterface (Some v) => encoding v
  | VBigIntPtr None => Ok [128%Z]
  | VBigIntPtr (Some i) | VBigInt i => encBig i
  | VUint i => Ok (encUint i)
  | VBool b => Ok [if b then 1%Z else 128%Z]
  | VString b | VBytes b | VByteArray b | VMap b => Ok (encStr b)
  | VSlice l | VStruct l => mapOk encList (encSeq encoding l)
  | VTail l => encSeq encoding l
  | VPtr v => encoding v
  | VNilByteArray => Ok [128%Z]
  | VNilList => Ok (encList [])
  | VNilZero z => encoding z
  end.

(** Unsigned integers within 64 bits, everywhere in a value. *)
Fixpoint wtVal (v : gval) : Prop :=
  match v with
  | VUint i => is_u64 i
  | VInterface (Some v) | VPtr v | VNilZero v => wtVal v
  | VSlice l | VTail l | VStruct l => (fix go l := match l with [] => True | v :: l' => wtVal v ∧ go l' end) l
  | _ => True
  end.

(** ** Lemmas on integers *)

Lemma beBytes_length n i : length (beBytes n i) = n.
Proof. induction n as [|n IH]; simpl; [done|]. by rewrite IH. Qed.

Lemma beVal_foldl acc b : foldl (fun a x => a * 256 + x)%Z acc b = (acc * 256 ^ Z.of_nat (length b) + beVal b)%Z.
Proof.
  unfold beVal. revert acc. induction b as [|x b IH]; intros acc; cbn [foldl length]; [simpl; lia|].
  rewrite IH, (IH (0 * 256 + x)%Z). rewrite Nat2Z.inj_succ, Z.pow_succ_r by lia. lia.
Qed.

Lemma beVal_cons x b : beVal (x :: b) = (x * 256 ^ Z.of_nat (length b) + beVal b)%Z.
Proof. unfold beVal at 1. cbn [foldl]. rewrite beVal_foldl. lia. Qed.

Lemma beVal_beBytes n i : (0 ≤ i)%Z → beVal (beBytes n i) = (i `mod` 256 ^ Z.of_nat n)%Z.
Proof.
  intros Hi. induction n as [|n IH]; [by rewrite Z.mod_1_r|].
  simpl beBytes. rewrite beVal_cons, beBytes_length, IH. unfold byteOf.
  rewrite Z.shiftr_div_pow2 by lia. replace (2 ^ (8 * Z.of_nat n))%Z with (256 ^ Z.of_nat n)%Z
    by (change 256%Z with (2 ^ 8)%Z; rewrite <- Z.pow_mul_r by lia; done).
  rewrite Nat2Z.inj_succ, Z.pow_succ_r by lia.
  set (m := (256 ^ Z.of_nat n)%Z). assert (0 < m)%Z by (unfold m; apply Z.pow_pos_nonneg; lia).
  rewrite (Z.mul_comm 256 m), Z.rem_mul_r by lia. lia.
Qed.

Lemma shiftr_eqb i k : (0 ≤ i)%Z → (0 ≤ k)%Z → (Z.shiftr i k =? 0)%Z = (i <? 2 ^ k)%Z.
Proof.
  intros Hi Hk. rewrite Z.shiftr_div_pow2 by done.
  assert (0 < 2 ^ k)%Z by (apply Z.pow_pos_nonneg; lia).
  destruct (Z.ltb_spec i (2 ^ k)) as [Hlt|Hge].
  - rewrite Z.div_small by lia. done.
  - apply Z.eqb_neq. pose proof (Z.div_le_lower_bound i (2 ^ k) 1 ltac:(lia) ltac:(lia)). lia.
Qed.

Lemma intsize_putint i : (0 ≤ i)%Z → intsize i = Z.of_nat (length (putint i)).
Proof.
  intros Hi. unfold intsize, intsizeLoop, putint.
  rewrite !Z.shiftr_shiftr by lia. simpl Z.add. rewrite !shiftr_eqb by lia.
  change (8 + 8 + 8 + 8 + 8 + 8 + 8 + 8)%Z with 64%Z. change (8 + 8 + 8 + 8 + 8 + 8 + 8)%Z with 56%Z.
  change (8 + 8 + 8 + 8 + 8 + 8)%Z with 48%Z. change (8 + 8 + 8 + 8 + 8)%Z with 40%Z.
  change (8 + 8 + 8 + 8)%Z with 32%Z. change (8 + 8 + 8)%Z with 24%Z. change (8 + 8)%Z with 16%Z.
  repeat lazymatch goal with
         | |- context [if (i <? 2 ^ ?k)%Z then _ else _] => destruct (i <? 2 ^ k)%Z
         end; by rewrite ?beBytes_length.
Qed.

Lemma putint_length i : (1 ≤ length (putint i) ≤ 8)%nat.
Proof. unfold putint. repeat case_match; rewrite beBytes_length; lia. Qed.

Lemma puthead_length a b n :
  (0 ≤ n)%Z → Z.of_nat (length (puthead a b n)) = headsize n.
Proof.
  intros Hn. unfold puthead, headsize. destruct (n <? 56)%Z; [done|].
  cbn [length]. rewrite (intsize_putint n Hn). lia.
Qed.

(** ** Writers append the reference encoding *)

Lemma appendStr_appendStr a b w : appendStr b (appendStr a w) = appendStr (a ++ b) w.
Proof. unfold appendStr. simpl. by rewrite app_assoc. Qed.

Lemma encodeString_eq b w : encodeString b w = appendStr (encStr b) w.
Proof.
  assert (∀ n, encodeStringHeader n w = appendStr (puthead 128 183 n) w) as Hh.
  { intros n. unfold encodeStringHeader, puthead. by destruct (n <? 56)%Z. }
  unfold encodeString, encStr. destruct b as [|x [|y b]]; rewrite ?Hh, ?appendStr_appendStr; try done.
  by destruct (x <=? 127)%Z.
Qed.

Lemma byteOf_small i : (0 ≤ i < 256)%Z → byteOf i = i.
Proof. intros. by apply Z.mod_small. Qed.

Lemma writeUint_eq i w : is_u64 i → writeUint i w = appendStr (encUint i) w.
Proof.
  intros [Hi Hu]. unfold writeUint, encUint. destruct (Z.eqb_spec i 0) as [|Hne]; [done|].
  destruct (Z.ltb_spec i 128) as [Hlt|Hge].
  - unfold putint. rewrite (proj2 (Z.ltb_lt i (2 ^ 8))) by lia. simpl beBytes.
    rewrite Z.shiftr_0_r. unfold encStr. rewrite !byteOf_small by lia.
    by rewrite (proj2 (Z.leb_le i 127)) by lia.
  - f_equal. pose proof (putint_length i) as Hl. unfold encStr.
    destruct (putint i) as [|x [|y s]] eqn:E; simpl in Hl; [lia| |].
    + destruct (Z.leb_spec x 127) as [Hx|]; [|done]. exfalso.
      unfold putint in E. destruct (Z.ltb_spec i (2 ^ 8)).
      * simpl in E. rewrite Z.shiftr_0_r, byteOf_small in E by lia. injection E. lia.
      * repeat case_match; apply (f_equal length) in E; rewrite beBytes_length in E; simpl in E; lia.
    + unfold puthead. rewrite (proj2 (Z.ltb_lt _ 56)) by (simpl; lia). done.
Qed.

(** ** Merging headers *)

Definition shiftHead (k : nat) (h : listhead) : listhead := mkListhead (k + lhOffset h) (lhSize h).

Lemma mergeHeads_shift bs1 bs2 p hs :
  mergeHeads (bs1 ++ bs2) (length bs1 + p) (shiftHead (length bs1) <$> hs) = mergeHeads bs2 p hs.
Proof.
  revert p. induction hs as [|h hs IH]; intros p; simpl.
  - rewrite drop_app, drop_ge by lia. simpl. f_equal. lia.
  - rewrite IH. f_equal.
    + rewrite drop_app, drop_ge by lia. simpl. f_equal; [lia|]. f_equal. lia.
Qed.

Lemma mergeHeads_app bs1 bs2 pos hs1 hs2 :
  (pos ≤ length bs1)%nat → Forall (fun h => lhOffset h ≤ length bs1)%nat hs1 →
  mergeHeads (bs1 ++ bs2) pos (hs1 ++ (shiftHead (length bs1) <$> hs2))
  = mergeHeads bs1 pos hs1 ++ mergeHeads bs2 0 hs2.
Proof.
  intros Hp Hf. revert pos Hp. induction Hf as [|h hs1 Hh Hf IH]; intros pos Hp; simpl.
  - destruct hs2 as [|h hs2]; simpl.
    + rewrite drop_app. by replace (pos - length bs1)%nat with 0%nat by lia.
    + rewrite drop_app. replace (pos - length bs1)%nat with 0%nat by lia. simpl.
      rewrite take_app, take_ge by (rewrite length_drop; lia).
      rewrite length_drop, mergeHeads_shift, <- app_assoc. do 3 f_equal. lia.
  - rewrite (IH (lhOffset h)) by done. rewrite <- !app_assoc. f_equal.
    rewrite drop_app, take_app_le by (rewrite length_drop; lia). done.
Qed.

(** ** What a writer adds to the buffer *)

(** [w'] is [w] followed by the encoding [e]: string data [bs] and list heads [hs]
    (offsets counted from the old end) that merge to [e]. *)
Definition wrote (w w' : encbuf) (e : bytes) : Prop :=
  ∃ bs hs,
    ebStr w' = ebStr w ++ bs ∧
    ebLheads w' = ebLheads w ++ (shiftHead (length (ebStr w)) <$> hs) ∧
    (ebLhsize w' = ebLhsize w + Z.of_nat (length e) - Z.of_nat (length bs))%Z ∧
    Forall (fun h => lhOffset h ≤ length bs)%nat hs ∧
    StronglySorted le (lhOffset <$> hs) ∧
    mergeHeads bs 0 hs = e.

Lemma wrote_append b w : wrote w (appendStr b w) b.
Proof.
  exists b, []. simpl. split_and!; [done|by rewrite app_nil_r|lia|constructor|constructor|done].
Qed.

Lemma wrote_nil w : wrote w w [].
Proof.
  exists [], []. simpl. split_and!; [by rewrite app_nil_r|by rewrite app_nil_r|lia|constructor|constructor|done].
Qed.

Lemma wrote_trans w w1 w2 e1 e2 : wrote w w1 e1 → wrote w1 w2 e2 → wrote w w2 (e1 ++ e2).
Proof.
  intros (b1 & h1 & S1 & L1 & Z1 & F1 & O1 & M1) (b2 & h2 & S2 & L2 & Z2 & F2 & O2 & M2).
  exists (b1 ++ b2), (h1 ++ (shiftHead (length b1) <$> h2)). split_and!.
  - by rewrite S2, S1, app_assoc.
  - rewrite L2, L1, S1, length_app, fmap_app, <- app_assoc. do 2 f_equal.
    rewrite <- list_fmap_compose. apply list_fmap_ext. intros _ h _. unfold shiftHead. simpl.
    f_equal. lia.
  - rewrite !length_app. lia.
  - apply Forall_app. rewrite length_app. split.
    + eapply Forall_impl; [exact F1|]. simpl. lia.
    + apply Forall_fmap. eapply Forall_impl; [exact F2|]. simpl. lia.
  - rewrite fmap_app. apply StronglySorted_app. split_and!; [|done|].
    + intros x y (h & -> & Hh)%list_elem_of_fmap Hy. rewrite <- list_fmap_compose in Hy.
      apply list_elem_of_fmap in Hy as (h' & -> & _). rewrite Forall_forall in F1.
      specialize (F1 h Hh). simpl. lia.
    + rewrite <- list_fmap_compose. clear -O2. induction h2 as [|h l IH]; simpl in *; [constructor|].
      apply StronglySorted_inv in O2 as [O2 Hf]. constructor; [by apply IH|].
      rewrite Forall_fmap in *. eapply Forall_impl; [exact Hf|]. simpl. lia.
  - rewrite mergeHeads_app by (done || lia). by rewrite M1, M2.
Qed.

Lemma wrote_list w w2 c :
  wrote (list_ w).2 w2 c → wrote w (listEnd (list_ w).1 w2) (encList c).
Proof.
  intros (bs & hs & S & L & Zs & F & O & Mg). simpl in *.
  unfold listEnd. rewrite L, lookup_app_l, lookup_app_r, Nat.sub_diag by (rewrite ?length_app; simpl; lia).
  simpl. rewrite insert_app_l by (rewrite length_app; simpl; lia).
  rewrite insert_app_r_alt, Nat.sub_diag by lia. simpl. unfold ebSize. rewrite S, length_app.
  replace (Z.of_nat (length (ebStr w) + length bs) + ebLhsize w2 - Z.of_nat (length (ebStr w)) - ebLhsize w)%Z
    with (Z.of_nat (length c)) by lia.
  exists bs, (mkListhead 0 (Z.of_nat (length c)) :: hs). simpl. split_and!.
  - done.
  - rewrite <- app_assoc. simpl. unfold shiftHead at 2. simpl. by rewrite Nat.add_0_r.
  - unfold encList. rewrite length_app, Nat2Z.inj_add, puthead_length by lia. unfold headsize.
    case_match; lia.
  - constructor; [simpl; lia|done].
  - constructor; [done|]. apply Forall_true. lia.
  - by rewrite Mg.
Qed.

(** Relating outcomes: both fail with the same error, or both succeed and related. *)
Definition agree (r : result encbuf) (w : encbuf) (e : result bytes) : Prop :=
  match r, e with
  | Ok w', Ok b => wrote w w' b
  | Err a, Err b => a = b
  | _, _ => False
  end.

Lemma writeSeq_agree wr enc l :
  Forall (fun v => ∀ w, agree (wr v w) w (enc v)) l →
  ∀ w, agree (writeSeq wr l w) w (encSeq enc l).
Proof.
  induction 1 as [|v l Hv _ IH]; intros w; simpl; [apply wrote_nil|].
  specialize (Hv w). unfold agree in Hv.
  destruct (wr v w) as [w1|e1], (enc v) as [b|e2]; try done.
  specialize (IH w1). unfold agree in *.
  destruct (writeSeq wr l w1) as [w2|], (encSeq enc l) as [bs|]; try done.
  by eapply wrote_trans.
Qed.

Lemma writeList_agree body e w :
  (∀ w, agree (body w) w e) → agree (writeList body w) w (mapOk encList e).
Proof.
  intros Hb. unfold writeList. pose proof (Hb (list_ w).2) as Hl. simpl in Hl.
  pose proof (wrote_list w) as Hw. simpl in Hw. simpl.
  destruct (body _) as [w2|], e as [b|]; simpl in *; try done. by apply Hw.
Qed.

(** Induction through the nested lists. *)
Lemma gval_nested_ind (P : gval → Prop) :
  (∀ b, P (VRaw b)) → P (VInterface None) → (∀ v, P v → P (VInterface (Some v))) →
  (∀ i, P (VBigIntPtr i)) → (∀ i, P (VBigInt i)) → (∀ i, P (VUint i)) → (∀ b, P (VBool b)) →
  (∀ s, P (VString s)) → (∀ b, P (VBytes b)) → (∀ b, P (VByteArray b)) →
  (∀ l, Forall P l → P (VSlice l)) → (∀ l, Forall P l → P (VTail l)) →
  (∀ l, Forall P l → P (VStruct l)) → (∀ v, P v → P (VPtr v)) → P VNilByteArray → P VNilList →
  (∀ v, P v → P (VNilZero v)) → (∀ j, P (VMap j)) → ∀ v, P v.
Proof.
  intros H1 H2 H3 H4 H5 H6 H7 H8 H9 H10 H11 H12 H13 H14 H15 H16 H17 H18. fix IH 1. intros v.
  destruct v as [|[v|]| | | | | | | |l|l|l|v| | |v|];
    [apply H1|apply H3, IH|apply H2|apply H4|apply H5|apply H6|apply H7|apply H8|apply H9|apply H10
    |apply H11|apply H12|apply H13|apply H14, IH|apply H15|apply H16|apply H17, IH|apply H18];
    (induction l as [|x l IHl]; constructor; [apply IH|exact IHl]).
Qed.

Lemma wtVal_Forall l :
  (fix go l := match l with [] => True | v :: l' => wtVal v ∧ go l' end) l ↔ Forall wtVal l.
Proof. induction l as [|v l IH]; [done|]. rewrite Forall_cons. naive_solver. Qed.

Lemma write_agree v : wtVal v → ∀ w, agree (write v w) w (encoding v).
Proof.
  assert (∀ i w, agree (writeBigInt i w) w (encBig i)) as Hbig.
  { intros i w. unfold writeBigInt, encBig. destruct (i <? 0)%Z; [done|].
    destruct (i =? 0)%Z; simpl; rewrite ?encodeString_eq; apply wrote_append. }
  assert (∀ l, Forall (fun v => wtVal v → ∀ w, agree (write v w) w (encoding v)) l → Forall wtVal l →
               ∀ w, agree (writeSeq write l w) w (encSeq encoding l)) as Hseq.
  { intros l Hl Hwt. apply writeSeq_agree. rewrite Forall_forall in *. auto. }
  induction v using gval_nested_ind; intros Hwt w; simpl; unfold writeBool, writeString;
    rewrite ?encodeString_eq; try apply wrote_append; auto.
  - destruct i as [i|]; [apply Hbig|apply wrote_append].
  - rewrite writeUint_eq by done. apply wrote_append.
  - apply writeList_agree, Hseq; [done|]. by apply wtVal_Forall.
  - apply Hseq; [done|]. by apply wtVal_Forall.
  - apply writeList_agree, Hseq; [done|]. by apply wtVal_Forall.
  - apply (writeList_agree Ok (Ok [])). intros w'. apply wrote_nil.
Qed.

(** ** Chunks and reads *)

Lemma writeChunks_concat str pos hs : concat (writeChunks str pos hs) = mergeHeads str pos hs.
Proof.
  revert pos. induction hs as [|h hs IH]; intros pos; simpl.
  - destruct (Nat.ltb_spec pos (length str)) as [|Hge]; simpl; [by rewrite app_nil_r|].
    by rewrite drop_ge.
  - rewrite concat_app. simpl. rewrite IH. f_equal.
    destruct (Nat.ltb_spec 0 (lhOffset h - pos)) as [|Hz]; simpl; [by rewrite app_nil_r|].
    by replace (lhOffset h - pos)%nat with 0%nat by lia.
Qed.

(** What is left to read. *)
Definition unread (r : encReader) : bytes :=
  match erBuf r with
  | None => []
  | Some buf => default [] (erPiece r) ++ mergeHeads (ebStr buf) (erStrpos r) (drop (erLhpos r) (ebLheads buf))
  end.

(** The reader's invariant: the headers ahead lie at or after the position in the
    string data, in order, and a pending piece is not empty. *)
Record readerOK (r : encReader) : Prop := mkReaderOK {
  ro_piece : erPiece r ≠ Some [];
  ro_heads : ∀ buf, erBuf r = Some buf →
    StronglySorted le (erStrpos r :: (lhOffset <$> drop (erLhpos r) (ebLheads buf))) ∧
    Forall (fun h => lhOffset h ≤ length (ebStr buf))%nat (ebLheads buf) }.

Definition dropPiece (r : encReader) : encReader :=
  mkEncReader (erBuf r) (erLhpos r) (erStrpos r) None.

Lemma puthead_nonempty a b n : puthead a b n ≠ [].
Proof. unfold puthead. by destruct (n <? 56)%Z. Qed.

Lemma erNext_spec r :
  readerOK r →
  match erNext r with
  | (None, r') => unread r = []
  | (Some p, r') => p ≠ [] ∧ unread r = p ++ unread (dropPiece r') ∧ readerOK (dropPiece r')
  end.
Proof.
  intros [Hp Hh]. unfold erNext, unread, dropPiece.
  destruct r as [[buf|] lhpos strpos [p|]]; simpl in *; try done.
  { split_and!; [by intros -> |done|]. by split; [|intros buf' [= <-]; apply Hh]. }
  destruct (Hh buf eq_refl) as [Hs Hf]. destruct (ebLheads buf !! lhpos) as [h|] eqn:Ehd.
  - rewrite (drop_S _ _ _ Ehd) in *. simpl in *.
    apply StronglySorted_inv in Hs as [Hs Hle].
    apply Forall_cons in Hle as [Hle _].
    rewrite Forall_forall in Hf. pose proof (Hf h (list_elem_of_lookup_2 _ _ _ Ehd)) as Hoff.
    destruct (Nat.ltb_spec 0 (lhOffset h - strpos)) as [Hlt|Hge].
    + split_and!.
      * intros Hnil%(f_equal length). rewrite length_take, length_drop in Hnil. simpl in Hnil. lia.
      * replace (strpos + (lhOffset h - strpos))%nat with (lhOffset h) by lia.
        cbn [erBuf erStrpos erLhpos]. rewrite (drop_S _ _ _ Ehd). simpl. by rewrite Nat.sub_diag.
      * split; [done|]. intros buf' [= <-]. simpl. rewrite (drop_S _ _ _ Ehd). simpl.
        replace (strpos + (lhOffset h - strpos))%nat with (lhOffset h) by lia.
        split; [|by apply Forall_forall]. constructor; [done|]. constructor; [done|].
        by apply StronglySorted_inv in Hs as [_ Hle'].
    + assert (strpos = lhOffset h) as -> by lia. rewrite Nat.add_1_r. split_and!.
      * apply puthead_nonempty.
      * by rewrite Nat.sub_diag.
      * split; [done|]. intros buf' [= <-]. simpl. split; [done|by apply Forall_forall].
  - rewrite (drop_ge (ebLheads buf)) in * by (by apply lookup_ge_None). simpl in *.
    destruct (Nat.ltb_spec strpos (length (ebStr buf))) as [Hlt|Hge]; [|by rewrite drop_ge].
    split_and!.
    + intros Hnil%(f_equal length). rewrite length_drop in Hnil. simpl in Hnil. lia.
    + cbn [erBuf erStrpos erLhpos]. rewrite (drop_ge (ebLheads buf)) by (by apply lookup_ge_None).
      simpl. by rewrite (drop_ge (ebStr buf) (length (ebStr buf))), app_nil_r.
    + split; [done|]. intros buf' [= <-]. simpl. rewrite drop_ge by (by apply lookup_ge_None).
      split; [|done]. repeat constructor.
Qed.

(** One [Read]: it fills the buffer or reports the end, and loses nothing. *)
Lemma erRead_spec fuel room r :
  readerOK r → (length (unread r) < fuel)%nat →
  ∃ r', erRead fuel room r = (take room (unread r), bool_decide (length (unread r) ≤ room)%nat, r') ∧
        readerOK r' ∧ unread r' = drop room (unread r).
Proof.
  revert room r. induction fuel as [|fuel IH]; intros room r Hr Hf; [lia|]. simpl.
  pose proof (erNext_spec r Hr) as Hn. destruct (erNext r) as [[p|] r1] eqn:En.
  - destruct Hn as (Hp & Hu & Hok). rewrite Hu, length_app in *.
    assert (0 < length p)%nat by (destruct p; [done|simpl; lia]).
    destruct (Nat.ltb_spec room (length p)) as [Hlt|Hge].
    + exists (mkEncReader (erBuf r1) (erLhpos r1) (erStrpos r1) (Some (drop room p))). split_and!.
      * rewrite take_app_le by lia. rewrite bool_decide_eq_false_2 by lia. done.
      * destruct Hok as [_ Hh]. split; [|exact Hh]. simpl. intros [= Hd%(f_equal length)].
        rewrite length_drop in Hd. simpl in Hd. lia.
      * rewrite drop_app_le by lia. unfold unread, dropPiece in *. simpl in *.
        destruct (erBuf r1) as [buf|] eqn:Eb; [done|].
        unfold erNext in En. destruct (erBuf r) eqn:Er; [|done].
        repeat case_match; simplify_eq; simpl in *; congruence.
    + destruct (IH (room - length p)%nat (dropPiece r1) Hok) as (r' & He & Hok' & Hu'); [lia|].
      unfold dropPiece in *. rewrite He. exists r'. split_and!; [|done|].
      * rewrite take_app, (take_ge p) by lia. do 2 f_equal. apply bool_decide_ext. lia.
      * by rewrite Hu', drop_app, (drop_ge p) by lia.
  - rewrite Hn, take_nil, drop_nil, bool_decide_eq_true_2 by (simpl; lia).
    exists (mkEncReader None (erLhpos r1) (erStrpos r1) None). split_and!; [done|by split|done].
Qed.

(** Successive reads with the given buffer sizes; each call's loop is given the
    remaining length as its bound. *)
Fixpoint erRun (rooms : list nat) (r : encReader) : bytes * bool :=
  match rooms with
  | [] => ([], false)
  | room :: rooms' =>
      let '(bs, eof, r') := erRead (S (length (unread r))) room r in
      if eof then (bs, true) else let '(bs', eof') := erRun rooms' r' in (bs ++ bs', eof')
  end.

(** [EncodeToReader] *)
Definition EncodeToReader (v : gval) : result (Z * encReader) :=
  match write v reset with
  | Ok w => Ok (ebSize w, mkEncReader (Some w) 0 0 None)
  | Err e => Err e
  end.

Lemma erRun_spec rooms r :
  readerOK r →
  erRun rooms r = (take (sum_list rooms) (unread r),
                   bool_decide (rooms ≠ [] ∧ length (unread r) ≤ sum_list rooms)%nat).
Proof.
  revert r. induction rooms as [|room rooms IH]; intros r Hr; simpl.
  { done. }
  destruct (erRead_spec (S (length (unread r))) room r Hr ltac:(lia)) as (r' & He & Hok & Hu).
  simpl in He. rewrite He. case_bool_decide as Hle.
  - rewrite !take_ge by lia. rewrite bool_decide_eq_true_2 by (split; [done|lia]). done.
  - rewrite (IH r' Hok), Hu, length_drop, take_take_drop.
    f_equal. apply bool_decide_ext. destruct rooms as [|x rooms]; simpl; [naive_solver lia|].
    split; intros [_ ?]; (split; [done|lia]).
Qed.

Lemma shiftHead_0 (hs : list listhead) : shiftHead 0 <$> hs = hs.
Proof. induction hs as [|[o s] hs IH]; [done|]. csimpl. by rewrite IH. Qed.

(** The buffer a successful [write] leaves. *)
Lemma write_buffer v e :
  wtVal v → encoding v = Ok e →
  ∃ w, write v reset = Ok w ∧ toBytes w = e ∧ ebSize w = Z.of_nat (length e) ∧
       readerOK (mkEncReader (Some w) 0 0 None).
Proof.
  intros Hwt He. pose proof (write_agree v Hwt reset) as Ha. rewrite He in Ha.
  destruct (write v reset) as [w|] eqn:Ew; [|done].
  destruct Ha as (bs & hs & S & Lh & Zs & F & O & Mg). simpl in *. rewrite shiftHead_0 in Lh.
  exists w. split_and!; [done|unfold toBytes; by rewrite S, Lh|unfold ebSize; rewrite S; lia|].
  split; [done|]. intros buf [= <-]. simpl. rewrite drop_0, Lh, S. split; [|done].
  constructor; [done|]. apply Forall_true. lia.
Qed.

Lemma EncodeToBytes_encoding (v : gval) : wtVal v → EncodeToBytes v = encoding v.
Proof.
  intros Hwt. unfold EncodeToBytes. destruct (encoding v) as [e|err] eqn:He.
  - destruct (write_buffer v e Hwt He) as (w & -> & <- & _). done.
  - pose proof (write_agree v Hwt reset) as Ha. rewrite He in Ha.
    destruct (write v reset); simpl in Ha; [done|by rewrite Ha].
Qed.

(** ** Theorems *)


(** All outputs agree: the chunks [toWriter] writes concatenate to the encoding, and a
    reader from [EncodeToReader] announces its length and delivers it in order
    through reads of any sizes, reporting EOF exactly when it is exhausted. *)
Theorem EncodeToReader_spec (v : gval) (e : bytes) :
  wtVal v → encoding v = Ok e →
  (∃ w, write v reset = Ok w ∧ concat (toWriter w) = e) ∧
  ∃ r, EncodeToReader v = Ok (Z.of_nat (length e), r) ∧
    ∀ rooms, erRun rooms r =
      (take (sum_list rooms) e, bool_decide (rooms ≠ [] ∧ length e ≤ sum_list rooms)%nat).
Proof.
  intros Hwt He. destruct (write_buffer v e Hwt He) as (w & Hw & Hb & Hs & Hok). split.
  - exists w. split; [done|]. unfold toWriter. by rewrite writeChunks_concat.
  - exists (mkEncReader (Some w) 0 0 None). unfold EncodeToReader. rewrite Hw, Hs. split; [done|].
    intros rooms. rewrite erRun_spec by done. unfold unread. simpl. unfold toBytes in Hb.
    by rewrite drop_0, Hb.
Qed.

(** ** Instances *)

Definition demoVal : gval :=
  VStruct [VUint 1024; VString [99; 97; 116]%Z; VSlice [VBool true; VBytes (replicate 60 7%Z)]; VPtr (VUint 0)].

Lemma demoVal_wt : wtVal demoVal.
Proof. repeat split; vm_compute; congruence. Qed.


Lemma EncodeToReader_spec_witness :
  ∃ r, EncodeToReader demoVal = Ok (75%Z, r) ∧ (erRun [3; 3; 100] r).2 = true.
Proof.
  destruct (encoding demoVal) as [e|] eqn:He; [|by vm_compute in He].
  destruct (EncodeToReader_spec demoVal e demoVal_wt He) as (_ & r & Hr & Hrun).
  assert (length e = 75%nat) as Hl by (vm_compute in He; by injection He as <-).
  exists r. rewrite Hl in *. split; [done|]. rewrite Hrun. vm_compute. reflexivity.
Defined.
