(* ===== verification/RlpRaw.v ===== *)
(** * rlp: splitting encoded values

    [src/rlp/raw.go]: reading the tag of an encoded value and splitting it off a
    byte slice.  Reading past the end of a slice is a Go panic ([RPanic]). *)

From stdpp Require Import base list strings.
From Stdlib Require Import ZArith Lia.
From S2P Require Import Prelude Common RlpEncode.

(** The error values of the package and of [io]. *)
Inductive rlpErr :=
| ErrUnexpectedEOF | EOF | EOL
| ErrExpectedString | ErrExpectedList | ErrCanonInt | ErrCanonSize | ErrElemTooLarge
| ErrValueTooLarge | ErrMoreThanOneValue | errNotInList | errNotAtEOL | errUintOverflow
| errInvalidBool (n : Z)          (* fmt.Errorf in Stream.Bool *)
| decodeError (msg : string).     (* the message, without type and context *)

Inductive rres (A : Type) :=
| ROk (a : A)
| RErr (e : rlpErr)
| RPanic.
Arguments ROk {A} a.
Arguments RErr {A} e.
Arguments RPanic {A}.

Inductive Kind := Byte | String_ | List_.

#[export] Instance Kind_dec : EqDecision Kind.
Proof. solve_decision. Defined.

(** [uint64(b[0])<<8*(n-1) | ... | uint64(b[n-1])] *)
Definition beOr (b : bytes) : Z := foldl (fun s x => Z.lor (Z.shiftl s 8) x) 0%Z b.

Definition readSize (b : bytes) (slen : Z) : rres Z :=
  if (Z.of_nat (length b) <? slen)%Z then RErr ErrUnexpectedEOF
  else
    let s := beOr (take (Z.to_nat slen) b) in
    match b with
    | [] => RPanic
    | b0 :: _ => if (s <? 56)%Z || (b0 =? 0)%Z then RErr ErrCanonSize else ROk s
    end.

(** The check that ends [readKind]. *)
Definition checkSize (buf : bytes) (k : Kind) (tagsize contentsize : Z) : rres (Kind * Z * Z) :=
  if (u64 (Z.of_nat (length buf) - tagsize) <? contentsize)%Z then RErr ErrValueTooLarge
  else ROk (k, tagsize, contentsize).

Definition readKind (buf : bytes) : rres (Kind * Z * Z) :=
  match buf with
  | [] => RErr ErrUnexpectedEOF
  | b :: rest =>
      if (b <? 128)%Z then checkSize buf Byte 0 1
      else if (b <? 184)%Z then
        let contentsize := (b - 128)%Z in
        if (contentsize =? 1)%Z then
          match rest with
          | [] => RPanic                         (* buf[1] *)
          | b1 :: _ => if (b1 <? 128)%Z then RErr ErrCanonSize
                       else checkSize buf String_ 1 contentsize
          end
        else checkSize buf String_ 1 contentsize
      else if (b <? 192)%Z then
        match readSize rest (b - 183) with
        | ROk contentsize => checkSize buf String_ (b - 183 + 1) contentsize
        | RErr e => RErr e
        | RPanic => RPanic
        end
      else if (b <? 248)%Z then checkSize buf List_ 1 (b - 192)
      else
        match readSize rest (b - 247) with
        | ROk contentsize => checkSize buf List_ (b - 247 + 1) contentsize
        | RErr e => RErr e
        | RPanic => RPanic
        end
  end.

Definition Split (b : bytes) : rres (Kind * bytes * bytes) :=
  match readKind b with
  | ROk (k, ts, cs) =>
      ROk (k, take (Z.to_nat cs) (drop (Z.to_nat ts) b), drop (Z.to_nat (ts + cs)) b)
  | RErr e => RErr e
  | RPanic => RPanic
  end.

Definition SplitString (b : bytes) : rres (bytes * bytes) :=
  match Split b with
  | ROk (k, content, rest) =>
      if bool_decide (k = List_) then RErr ErrExpectedString else ROk (content, rest)
  | RErr e => RErr e
  | RPanic => RPanic
  end.

Definition SplitList (b : bytes) : rres (bytes * bytes) :=
  match Split b with
  | ROk (k, content, rest) =>
      if bool_decide (k ≠ List_) then RErr ErrExpectedList else ROk (content, rest)
  | RErr e => RErr e
  | RPanic => RPanic
  end.

(** The loop of [CountValues]: every value takes at least one byte. *)
Fixpoint countLoop (fuel : nat) (i : Z) (b : bytes) : rres Z :=
  match b, fuel with
  | [], _ => ROk i
  | _, O => ROk i
  | _, S f =>
      match readKind b with
      | ROk (_, tagsize, size) => countLoop f (i + 1) (drop (Z.to_nat (tagsize + size)) b)
      | RErr e => RErr e
      | RPanic => RPanic
      end
  end.

Definition CountValues (b : bytes) : rres Z := countLoop (length b) 0 b.

Definition ListSize (contentSize : Z) : Z := u64 (headsize contentSize + contentSize).

(** ** Items *)

Inductive item :=
| Str (b : bytes)
| Lst (l : list item).

Fixpoint encItem (x : item) : bytes :=
  match x with
  | Str b => encStr b
  | Lst l => encList ((fix go l := match l with [] => [] | y :: l' => encItem y ++ go l' end) l)
  end.

Definition encItems (l : list item) : bytes := concat (map encItem l).

(** The [interface{}] (holding a [[]byte] or an [[]interface{}]) that an item is. *)
Fixpoint ofItem (x : item) : gval :=
  match x with
  | Str b => VInterface (Some (VBytes b))
  | Lst l => VInterface (Some (VSlice
               ((fix go l := match l with [] => [] | y :: l' => ofItem y :: go l' end) l)))
  end.

Fixpoint itemOK (x : item) : Prop :=
  match x with
  | Str b => Forall is_byte b
  | Lst l => (fix go l := match l with [] => True | y :: l' => itemOK y ∧ go l' end) l
  end.

(** ** Reading back integers *)

Lemma lor_shiftl_byte s x : (0 ≤ s)%Z → is_byte x → Z.lor (Z.shiftl s 8) x = (s * 256 + x)%Z.
Proof.
  intros Hs [Hx1 Hx2].
  assert (Z.land (Z.shiftl s 8) x = 0)%Z as Hl.
  { apply Z.bits_inj'. intros n Hn. rewrite Z.land_spec, Z.shiftl_spec, Z.bits_0 by done.
    destruct (Z.ltb_spec n 8) as [Hlt|Hge]; [by rewrite Z.testbit_neg_r by lia|].
    destruct (decide (x = 0)%Z) as [->|Hne]; [by rewrite Z.bits_0, andb_false_r|].
    rewrite (Z.bits_above_log2 x n), andb_false_r; [done|lia|].
    apply (Z.lt_le_trans _ 8); [|done]. apply Z.log2_lt_pow2; lia. }
  pose proof (Z.add_lor_land (Z.shiftl s 8) x) as Ha. rewrite Hl, Z.shiftl_mul_pow2 in Ha by lia.
  rewrite Z.shiftl_mul_pow2 by lia. lia.
Qed.

Lemma foldl_beOr acc b : (0 ≤ acc)%Z → Forall is_byte b →
  foldl (fun s x => Z.lor (Z.shiftl s 8) x) acc b = foldl (fun a x => a * 256 + x)%Z acc b.
Proof.
  intros Hacc Hb. revert acc Hacc. induction Hb as [|x b Hx Hb IH]; intros acc Hacc; simpl; [done|].
  rewrite lor_shiftl_byte by done. apply IH. destruct Hx. lia.
Qed.

Lemma beOr_beVal b : Forall is_byte b → beOr b = beVal b.
Proof. intros Hb. by apply foldl_beOr. Qed.

Lemma beVal_range b : Forall is_byte b → (0 ≤ beVal b < 256 ^ Z.of_nat (length b))%Z.
Proof.
  induction 1 as [|x b [Hx1 Hx2] Hb IH]; [done|]. rewrite beVal_cons. cbn [length].
  rewrite Nat2Z.inj_succ, Z.pow_succ_r by lia. nia.
Qed.

Lemma pow256 n : (2 ^ (8 * Z.of_nat n) = 256 ^ Z.of_nat n)%Z.
Proof. rewrite Z.pow_mul_r by lia. done. Qed.

Lemma beBytes_ext n i j : (i `mod` 256 ^ Z.of_nat n = j `mod` 256 ^ Z.of_nat n)%Z → beBytes n i = beBytes n j.
Proof.
  revert i j. induction n as [|n IH]; intros i j Hm; [done|]. simpl.
  rewrite Nat2Z.inj_succ, Z.pow_succ_r in Hm by lia. unfold byteOf.
  rewrite !Z.shiftr_div_pow2, !pow256 by lia. specialize (IH i j).
  set (m := (256 ^ Z.of_nat n)%Z) in *. assert (0 < m)%Z by (unfold m; apply Z.pow_pos_nonneg; lia).
  rewrite (Z.mul_comm 256 m), !Z.rem_mul_r in Hm by lia.
  pose proof (Z.mod_pos_bound i m ltac:(lia)). pose proof (Z.mod_pos_bound j m ltac:(lia)).
  destruct (Z.div_mod_unique m ((i / m) `mod` 256) ((j / m) `mod` 256) (i `mod` m) (j `mod` m)) as [Hq Hr];
    [by left|by left|by rewrite !(Z.add_comm (m * _))|]. f_equal; auto.
Qed.

Lemma beBytes_beVal b : Forall is_byte b → beBytes (length b) (beVal b) = b.
Proof.
  induction 1 as [|x b [Hx1 Hx2] Hb IH]; [done|]. simpl. rewrite beVal_cons.
  pose proof (beVal_range b Hb) as Hr. set (m := (256 ^ Z.of_nat (length b))%Z) in *.
  assert (0 < m)%Z by lia. f_equal.
  - unfold byteOf. rewrite Z.shiftr_div_pow2 by lia.
    rewrite pow256. fold m.
    rewrite Z.div_add_l by lia. rewrite (Z.div_small (beVal b)), Z.add_0_r by lia.
    apply Z.mod_small. lia.
  - etrans; [|exact IH]. apply beBytes_ext. fold m. rewrite Z.add_comm, Z.mod_add by lia. done.
Qed.

(** [putint] uses the minimal number of bytes. *)
Lemma putint_eq n i :
  (1 ≤ n ≤ 8)%nat → (i < 256 ^ Z.of_nat n)%Z → (n = 1%nat ∨ 256 ^ Z.of_nat (n - 1) ≤ i)%Z →
  putint i = beBytes n i.
Proof.
  intros Hn Hu Hl.
  change 256%Z with (2 ^ 8)%Z in *. rewrite <- !Z.pow_mul_r in * by lia. unfold putint.
  destruct n as [|[|[|[|[|[|[|[|[|n]]]]]]]]]; try lia; simpl Z.mul in *; simpl Nat.sub in *;
    repeat (rewrite (proj2 (Z.ltb_ge i _)) by (destruct Hl; [done|lia]));
    rewrite ?(proj2 (Z.ltb_lt i _)) by lia; done.
Qed.

Lemma putint_spec i : is_u64 i →
  beVal (putint i) = i ∧ Forall is_byte (putint i) ∧
  (i ≠ 0%Z → ∃ x s, putint i = x :: s ∧ x ≠ 0%Z).
Proof.
  intros [Hi Hu].
  assert (∃ n, (1 ≤ n ≤ 8)%nat ∧ (i < 256 ^ Z.of_nat n)%Z ∧ (n = 1%nat ∨ 256 ^ Z.of_nat (n - 1) ≤ i)%Z)
    as (n & Hn & Hlt & Hge).
  { unfold two64 in Hu.
    destruct (decide (i < 256 ^ 1)%Z); [exists 1%nat; split_and!; [lia..|by left]|].
    destruct (decide (i < 256 ^ 2)%Z); [exists 2%nat; split_and!; [lia..|right; simpl; lia]|].
    destruct (decide (i < 256 ^ 3)%Z); [exists 3%nat; split_and!; [lia..|right; simpl; lia]|].
    destruct (decide (i < 256 ^ 4)%Z); [exists 4%nat; split_and!; [lia..|right; simpl; lia]|].
    destruct (decide (i < 256 ^ 5)%Z); [exists 5%nat; split_and!; [lia..|right; simpl; lia]|].
    destruct (decide (i < 256 ^ 6)%Z); [exists 6%nat; split_and!; [lia..|right; simpl; lia]|].
    destruct (decide (i < 256 ^ 7)%Z); [exists 7%nat; split_and!; [lia..|right; simpl; lia]|].
    exists 8%nat. split_and!; [lia..|simpl; lia|right; simpl; lia]. }
  rewrite (putint_eq n i Hn Hlt Hge). split_and!.
  - rewrite beVal_beBytes by done. apply Z.mod_small. lia.
  - clear. induction n as [|n IH]; simpl; constructor; [|done]. apply Z.mod_pos_bound. lia.
  - intros Hne. destruct n as [|n]; [lia|]. simpl. eexists _, _. split; [done|].
    unfold byteOf. rewrite Z.shiftr_div_pow2 by lia.
    rewrite pow256. rewrite Nat2Z.inj_succ, Z.pow_succ_r in Hlt by lia. replace (S n - 1)%nat with n in Hge by lia.
    set (m := (256 ^ Z.of_nat n)%Z) in *. assert (0 < m)%Z by (unfold m; apply Z.pow_pos_nonneg; lia).
    assert (m ≤ i)%Z. { destruct Hge as [Hn1|]; [|done]. assert (n = 0%nat) as -> by lia. unfold m in *. simpl in *. lia. }
    assert (1 ≤ i / m)%Z by (apply Z.div_le_lower_bound; lia).
    assert (i / m < 256)%Z by (apply Z.div_lt_upper_bound; lia).
    rewrite Z.mod_small by lia. lia.
Qed.

(** Only the minimal representation of a number starts with a nonzero byte. *)
Lemma putint_beVal b : Forall is_byte b → (length b ≤ 8)%nat → (∃ x s, b = x :: s ∧ x ≠ 0%Z) →
  putint (beVal b) = b ∧ is_u64 (beVal b).
Proof.
  intros Hb Hlen (x & s & -> & Hx). pose proof (beVal_range _ Hb) as [Hr1 Hr2]. split.
  - rewrite (putint_eq (length (x :: s))); [by apply beBytes_beVal|cbn [length] in *; lia|done|].
    right. rewrite beVal_cons. apply Forall_cons in Hb as [[Hx1 Hx2] Hs].
    pose proof (beVal_range _ Hs) as [Hs1 _]. cbn [length]. replace (S (length s) - 1)%nat with (length s) by lia.
    assert (0 < 256 ^ Z.of_nat (length s))%Z by (apply Z.pow_pos_nonneg; lia). nia.
  - split; [done|]. apply (Z.lt_le_trans _ _ _ Hr2).
    change two64 with (256 ^ 8)%Z. apply Z.pow_le_mono_r; lia.
Qed.

Lemma readSize_putint n rest : (56 ≤ n)%Z → is_u64 n →
  readSize (putint n ++ rest) (Z.of_nat (length (putint n))) = ROk n.
Proof.
  intros Hn Hu. destruct (putint_spec n Hu) as (Hv & Hb & Hnz). unfold readSize.
  rewrite length_app, (proj2 (Z.ltb_ge _ _)) by lia.
  rewrite Nat2Z.id, take_app_length, beOr_beVal, Hv by done.
  destruct (Hnz ltac:(lia)) as (x & s & -> & Hx). simpl.
  rewrite (proj2 (Z.ltb_ge n 56)), (proj2 (Z.eqb_neq x 0)) by done. done.
Qed.

Lemma readSize_inv b slen n : Forall is_byte b → (1 ≤ slen ≤ 8)%Z → readSize b slen = ROk n →
  (56 ≤ n)%Z ∧ is_u64 n ∧ Z.of_nat (length (putint n)) = slen ∧ ∃ rest, b = putint n ++ rest.
Proof.
  intros Hb Hs. unfold readSize. destruct (Z.ltb_spec (Z.of_nat (length b)) slen); [done|].
  destruct b as [|b0 b]; [done|]. set (t := take _ _).
  destruct (Z.ltb_spec (beOr t) 56) as [|H56]; [done|]. destruct (Z.eqb_spec b0 0) as [|H0]; [done|].
  intros [= <-].
  assert (Forall is_byte t) as Ht by by apply Forall_take.
  assert (Z.of_nat (length t) = slen) as Hlen by (unfold t; rewrite length_take; lia).
  rewrite beOr_beVal in * by done.
  destruct (putint_beVal t) as [Hp Hu]; [done|lia| |].
  { unfold t. replace (Z.to_nat slen) with (S (Z.to_nat slen - 1)) by lia. simpl. by eexists _, _. }
  rewrite Hp. split_and!; [done|done|done|]. exists (drop (Z.to_nat slen) (b0 :: b)). unfold t. by rewrite take_drop.
Qed.

Lemma readSize_panic b slen : (1 ≤ slen)%Z → readSize b slen ≠ RPanic.
Proof.
  intros Hs. unfold readSize. destruct (Z.ltb_spec (Z.of_nat (length b)) slen); [done|].
  destruct b; simpl in *; [lia|]. by case_match.
Qed.

(** ** What [Split] accepts *)

(** The bytes of a value of kind [k] with content [c], and the contents a kind has. *)
Definition encKind (k : Kind) (c : bytes) : bytes :=
  match k with List_ => encList c | _ => encStr c end.

Definition singleByte (c : bytes) : bool :=
  match c with [x] => (x <? 128)%Z | _ => false end.

Definition kindOK (k : Kind) (c : bytes) : bool :=
  match k with Byte => singleByte c | String_ => negb (singleByte c) | List_ => true end.

Lemma encStr_single c : singleByte c = true → encStr c = c.
Proof.
  destruct c as [|x [|]]; try done. simpl. intros Hx%Z.ltb_lt.
  by rewrite (proj2 (Z.leb_le x 127)) by lia.
Qed.

Lemma encStr_multi c : singleByte c = false → encStr c = puthead 128 183 (Z.of_nat (length c)) ++ c.
Proof.
  destruct c as [|x [|]]; try done. simpl. intros Hx%Z.ltb_ge.
  by rewrite (proj2 (Z.leb_gt x 127)) by lia.
Qed.

Lemma checkSize_ok buf k ts cs : (0 ≤ ts)%Z → (ts + cs ≤ Z.of_nat (length buf) < two64)%Z →
  (0 ≤ cs)%Z → checkSize buf k ts cs = ROk (k, ts, cs).
Proof.
  intros Ht Hl Hc. unfold checkSize. rewrite u64_small by (unfold is_u64; lia).
  by rewrite (proj2 (Z.ltb_ge _ _)) by lia.
Qed.

Lemma checkSize_inv buf k ts cs r : (0 ≤ ts ≤ Z.of_nat (length buf))%Z →
  (Z.of_nat (length buf) < two64)%Z → checkSize buf k ts cs = ROk r →
  r = (k, ts, cs) ∧ (ts + cs ≤ Z.of_nat (length buf))%Z.
Proof.
  intros Ht Hl. unfold checkSize. rewrite u64_small by (unfold is_u64; lia).
  destruct (Z.ltb_spec (Z.of_nat (length buf) - ts) cs); [done|]. intros [= <-]. split; [done|lia].
Qed.

Definition kindHead (k : Kind) (n : Z) : bytes :=
  match k with Byte => [] | String_ => puthead 128 183 n | List_ => puthead 192 247 n end.

Lemma encKind_head k c : kindOK k c = true → encKind k c = kindHead k (Z.of_nat (length c)) ++ c.
Proof.
  destruct k; simpl; [apply encStr_single|intros Hc; apply encStr_multi; by destruct (singleByte c)|done].
Qed.

Lemma puthead_small st lt n : (0 ≤ n < 56)%Z → (0 ≤ st ≤ 192)%Z → puthead st lt n = [(st + n)%Z].
Proof.
  intros Hn Hs. unfold puthead. rewrite (proj2 (Z.ltb_lt _ _)) by lia.
  by rewrite byteOf_small by (split; lia).
Qed.

Lemma puthead_large st lt n : (56 ≤ n)%Z → is_u64 n → (0 ≤ lt ≤ 247)%Z →
  puthead st lt n = (lt + Z.of_nat (length (putint n)))%Z :: putint n.
Proof.
  intros Hn Hu Hl. pose proof (putint_length n). unfold puthead.
  rewrite (proj2 (Z.ltb_ge _ _)) by lia. by rewrite byteOf_small by (split; lia).
Qed.

Lemma readKind_string c rest : singleByte c = false →
  (Z.of_nat (length (kindHead String_ (Z.of_nat (length c)) ++ c ++ rest)) < two64)%Z →
  readKind (kindHead String_ (Z.of_nat (length c)) ++ c ++ rest)
  = ROk (String_, Z.of_nat (length (kindHead String_ (Z.of_nat (length c)))), Z.of_nat (length c)).
Proof.
  intros Hs. simpl kindHead. set (n := Z.of_nat (length c)). intros Hlen.
  destruct (Z.ltb_spec n 56) as [Hn|Hn].
  - rewrite puthead_small in * by lia. cbn [app readKind].
    rewrite (proj2 (Z.ltb_ge _ 128)), (proj2 (Z.ltb_lt _ 184)) by lia.
    replace (128 + n - 128)%Z with n by lia.
    assert (checkSize ((128 + n)%Z :: c ++ rest) String_ 1 n = ROk (String_, 1%Z, n)) as Hc.
    { apply checkSize_ok; [lia| |lia]. cbn [length app] in *. rewrite length_app in *. lia. }
    destruct (Z.eqb_spec n 1) as [Hn1|]; [|done].
    destruct c as [|x [|]]; simpl in *; try lia. by rewrite Hs.
  - assert (is_u64 n) as Hu. { split; [lia|]. rewrite !length_app in Hlen. lia. }
    pose proof (putint_length n). rewrite puthead_large in * by (done || lia). cbn [app readKind].
    rewrite (proj2 (Z.ltb_ge _ 128)), (proj2 (Z.ltb_ge _ 184)), (proj2 (Z.ltb_lt _ 192)) by lia.
    replace (183 + Z.of_nat (length (putint n)) - 183)%Z with (Z.of_nat (length (putint n))) by lia.
    rewrite readSize_putint by done. cbn [length app] in *. rewrite checkSize_ok; [do 3 f_equal; lia|lia| |lia].
    cbn [length]. rewrite !length_app in *. lia.
Qed.

Lemma readKind_list c rest :
  (Z.of_nat (length (kindHead List_ (Z.of_nat (length c)) ++ c ++ rest)) < two64)%Z →
  readKind (kindHead List_ (Z.of_nat (length c)) ++ c ++ rest)
  = ROk (List_, Z.of_nat (length (kindHead List_ (Z.of_nat (length c)))), Z.of_nat (length c)).
Proof.
  simpl kindHead. set (n := Z.of_nat (length c)). intros Hlen.
  destruct (Z.ltb_spec n 56) as [Hn|Hn].
  - rewrite puthead_small in * by lia. cbn [app readKind].
    rewrite (proj2 (Z.ltb_ge _ 128)), (proj2 (Z.ltb_ge _ 184)), (proj2 (Z.ltb_ge _ 192)),
      (proj2 (Z.ltb_lt _ 248)) by lia.
    replace (192 + n - 192)%Z with n by lia.
    apply checkSize_ok; [lia| |lia]. cbn [length app] in *. rewrite length_app in *. lia.
  - assert (is_u64 n) as Hu. { split; [lia|]. rewrite !length_app in Hlen. lia. }
    pose proof (putint_length n). rewrite puthead_large in * by (done || lia). cbn [app readKind].
    rewrite (proj2 (Z.ltb_ge _ 128)), (proj2 (Z.ltb_ge _ 184)), (proj2 (Z.ltb_ge _ 192)),
      (proj2 (Z.ltb_ge _ 248)) by lia.
    replace (247 + Z.of_nat (length (putint n)) - 247)%Z with (Z.of_nat (length (putint n))) by lia.
    rewrite readSize_putint by done. cbn [length app] in *. rewrite checkSize_ok; [do 3 f_equal; lia|lia| |lia].
    cbn [length]. rewrite !length_app in *. lia.
Qed.

Lemma readKind_encKind k c rest : kindOK k c = true →
  (Z.of_nat (length (encKind k c ++ rest)) < two64)%Z →
  readKind (encKind k c ++ rest)
  = ROk (k, Z.of_nat (length (kindHead k (Z.of_nat (length c)))), Z.of_nat (length c)).
Proof.
  intros Hk. rewrite (encKind_head k c Hk), <- app_assoc. intros Hlen. destruct k; simpl in Hk.
  - destruct c as [|x [|]]; try done. simpl in *. rewrite Hk. apply checkSize_ok; simpl; lia.
  - apply readKind_string; [by destruct (singleByte c)|done].
  - by apply readKind_list.
Qed.

(** The content that follows a head of the right size. *)
Lemma split_content (l : bytes) n : (0 ≤ n ≤ Z.of_nat (length l))%Z →
  ∃ c rest, l = c ++ rest ∧ Z.of_nat (length c) = n.
Proof.
  intros Hn. exists (take (Z.to_nat n) l), (drop (Z.to_nat n) l). rewrite take_drop, length_take.
  split; [done|lia].
Qed.

Lemma readKind_inv b k ts cs : Forall is_byte b → (Z.of_nat (length b) < two64)%Z →
  readKind b = ROk (k, ts, cs) →
  ts = Z.of_nat (length (kindHead k cs)) ∧
  ∃ c rest, b = kindHead k cs ++ c ++ rest ∧ Z.of_nat (length c) = cs ∧ kindOK k c = true.
Proof.
  intros Hb Hlen. destruct b as [|x b]; [done|]. pose proof (proj1 (Forall_cons _ _ _) Hb) as [[Hx1 Hx2] Hb'].
  cbn [readKind].
  destruct (Z.ltb_spec x 128); [|destruct (Z.ltb_spec x 184); [|destruct (Z.ltb_spec x 192);
    [|destruct (Z.ltb_spec x 248)]]].
  - intros [[= -> -> ->] Hl]%checkSize_inv; [|simpl in *; lia..]. split; [done|].
    exists [x], b. split_and!; [done..|]. simpl. lia.
  - set (n := (x - 128)%Z) in *. intros Hr.
    assert (checkSize (x :: b) String_ 1 n = ROk (k, ts, cs) ∧ (n = 1%Z → ∃ y b', b = y :: b' ∧ 128 ≤ y)%Z)
      as [[[= -> -> ->] Hl]%checkSize_inv Hy]; [| |simpl in *; lia..].
    { destruct (Z.eqb_spec n 1) as [Hn|]; [|by split]. destruct b as [|y b']; [done|].
      destruct (Z.ltb_spec y 128); [done|]. split; [done|]. by intros; eexists _, _. }
    simpl kindHead. rewrite puthead_small by lia. split; [done|].
    destruct (split_content b n) as (c & rest & -> & Hc); [simpl in *; lia|].
    exists c, rest. split_and!; [simpl; f_equal; lia|done|]. simpl.
    destruct c as [|z [|]]; try done. destruct Hy as (y & b' & [= -> ->] & Hy); [simpl in *; lia|].
    simpl. by rewrite (proj2 (Z.ltb_ge _ _)).
  - destruct (readSize b (x - 183)) as [n| |] eqn:Hs; try done.
    apply readSize_inv in Hs as (Hn & Hu & Hpl & rest0 & ->); [|done|lia].
    intros [[= -> -> ->] Hl]%checkSize_inv; [|cbn [length] in *; rewrite length_app in *; lia..].
    simpl kindHead. rewrite puthead_large by (done || lia). split; [simpl; lia|].
    destruct (split_content rest0 n) as (c & rest & -> & Hc); [simpl in *; rewrite !length_app in *; lia|].
    exists c, rest. split_and!; [simpl; f_equal; lia|done|]. destruct c as [|? [|]]; simpl in *; try done; lia.
  - set (n := (x - 192)%Z) in *. intros [[= -> -> ->] Hl]%checkSize_inv; [|simpl in *; lia..].
    simpl kindHead. rewrite puthead_small by lia. split; [done|].
    destruct (split_content b n) as (c & rest & -> & Hc); [simpl in *; lia|].
    exists c, rest. split_and!; [simpl; f_equal; lia|done|done].
  - destruct (readSize b (x - 247)) as [n| |] eqn:Hs; try done.
    apply readSize_inv in Hs as (Hn & Hu & Hpl & rest0 & ->); [|done|lia].
    intros [[= -> -> ->] Hl]%checkSize_inv; [|cbn [length] in *; rewrite length_app in *; lia..].
    simpl kindHead. rewrite puthead_large by (done || lia). split; [simpl; lia|].
    destruct (split_content rest0 n) as (c & rest & -> & Hc); [simpl in *; rewrite !length_app in *; lia|].
    exists c, rest. split_and!; [simpl; f_equal; lia|done|done].
Qed.

Lemma drop_heads (h c rest : bytes) :
  drop (Z.to_nat (Z.of_nat (length h) + Z.of_nat (length c))) (h ++ c ++ rest) = rest.
Proof.
  rewrite app_assoc. replace (Z.to_nat _) with (length (h ++ c)) by (rewrite length_app; lia).
  apply drop_app_length.
Qed.

Lemma Split_encKind k c rest : kindOK k c = true →
  (Z.of_nat (length (encKind k c ++ rest)) < two64)%Z → Split (encKind k c ++ rest) = ROk (k, c, rest).
Proof.
  intros Hk Hl. unfold Split. rewrite readKind_encKind by done.
  rewrite encKind_head, <- app_assoc, drop_heads by done. rewrite !Nat2Z.id, drop_app_length, take_app_length. done.
Qed.

(** [CountValues] reads values one after the other; its loop always has fuel left. *)
Lemma countLoop_encKinds fuel i (l : list (Kind * bytes)) :
  (Forall (fun p => kindOK p.1 p.2 = true) l) → length l ≤ fuel →
  (Z.of_nat (length (concat (map (fun p => encKind p.1 p.2) l))) < two64)%Z →
  countLoop fuel i (concat (map (fun p => encKind p.1 p.2) l)) = ROk (i + Z.of_nat (length l))%Z.
Proof.
  revert fuel i. induction l as [|[k c] l IH]; intros fuel i Hl Hf Hlen; simpl.
  { destruct fuel; simpl; by rewrite Z.add_0_r. }
  apply Forall_cons in Hl as [Hk Hl]. destruct fuel as [|fuel]; simpl in *; [lia|].
  pose proof (readKind_encKind k c _ Hk Hlen) as Hr. rewrite encKind_head, <- app_assoc in * by done.
  destruct (kindHead k _ ++ c ++ _) as [|x b] eqn:Hb; [done|]. rewrite Hr, <- Hb, drop_heads.
  rewrite IH; [f_equal; lia|done|lia|]. rewrite <- Hb, !length_app in Hlen. lia.
Qed.

(** ** Items and the encoder *)

(** Induction on an item with the hypothesis for every element of a list. *)
Lemma item_nested_ind (P : item → Prop) :
  (∀ b, P (Str b)) → (∀ l, Forall P l → P (Lst l)) → ∀ x, P x.
Proof.
  intros HStr HLst. fix IH 1. intros [b|l]; [apply HStr|]. apply HLst.
  induction l as [|y l IHl]; constructor; [apply IH|exact IHl].
Qed.

Lemma encItem_Lst l : encItem (Lst l) = encList (encItems l).
Proof.
  cbn [encItem]. f_equal. induction l as [|y l IH]; [done|]. by rewrite IH.
Qed.

Lemma ofItem_Lst l : ofItem (Lst l) = VInterface (Some (VSlice (map ofItem l))).
Proof. done. Qed.

Lemma encoding_ofItem x : encoding (ofItem x) = Ok (encItem x).
Proof.
  induction x as [b|l IH] using item_nested_ind; [done|]. rewrite ofItem_Lst, encItem_Lst. cbn [encoding].
  enough (encSeq encoding (map ofItem l) = Ok (encItems l)) as -> by done.
  induction IH as [|y l Hy _ IHl]; [done|]. simpl. by rewrite Hy, IHl.
Qed.

Lemma wtVal_ofItem x : wtVal (ofItem x).
Proof.
  induction x as [b|l IH] using item_nested_ind; [done|]. rewrite ofItem_Lst. apply wtVal_Forall.
  by apply Forall_map.
Qed.

Definition itemKind (x : item) : Kind :=
  match x with Str b => if singleByte b then Byte else String_ | Lst _ => List_ end.

Definition itemContent (x : item) : bytes :=
  match x with Str b => b | Lst l => encItems l end.

Lemma encItem_encKind x : encItem x = encKind (itemKind x) (itemContent x) ∧ kindOK (itemKind x) (itemContent x) = true.
Proof.
  destruct x as [b|l]; [|by rewrite encItem_Lst]. simpl. by destruct (singleByte b) eqn:Hs; simpl; rewrite ?Hs.
Qed.

(** ** The properties *)

(** C18. [Split] accepts exactly the canonical encodings: on a byte slice of
    addressable length it returns kind, content and rest precisely when the slice
    is the encoding of a value of that kind with that content, followed by the rest.
    So the decoder's input has one reading, and a non-minimal size or a single
    byte written with a header is never accepted. *)
Theorem Split_iff b k c rest :
  Forall is_byte b → (Z.of_nat (length b) < two64)%Z →
  Split b = ROk (k, c, rest) ↔ b = encKind k c ++ rest ∧ kindOK k c = true.
Proof.
  intros Hb Hlen. split; [|intros [-> Hk]; by apply Split_encKind].
  unfold Split. destruct (readKind b) as [[[k' ts] cs]| |] eqn:Hr; try done.
  apply readKind_inv in Hr as (-> & c' & rest' & -> & <- & Hk); [|done..].
  rewrite drop_heads, !Nat2Z.id, drop_app_length, take_app_length. intros [= -> -> ->].
  by rewrite encKind_head, <- app_assoc.
Qed.

Lemma Split_iff_witness :
  Split [131; 1; 2; 3; 9]%Z = ROk (String_, [1; 2; 3]%Z, [9]%Z) ↔
  [131; 1; 2; 3; 9]%Z = encKind String_ [1; 2; 3]%Z ++ [9]%Z ∧ kindOK String_ [1; 2; 3]%Z = true.
Proof. apply Split_iff; [repeat constructor; done|done]. Defined.

(** What [EncodeToBytes] writes for nested byte strings and lists, [Split]
    takes apart again: kind, content (for a list, the encodings of its elements,
    which split in turn) and the bytes that follow. *)
Theorem Split_EncodeToBytes x enc rest :
  EncodeToBytes (ofItem x) = Ok enc → (Z.of_nat (length (enc ++ rest)) < two64)%Z →
  Split (enc ++ rest) = ROk (itemKind x, itemContent x, rest).
Proof.
  intros He Hl. rewrite EncodeToBytes_encoding, encoding_ofItem in He by apply wtVal_ofItem. injection He as <-.
  destruct (encItem_encKind x) as [Heq Hk]. rewrite Heq in *. by apply Split_encKind.
Qed.

Definition catDog : item := Lst [Str [99; 97; 116]%Z; Str [100; 111; 103]%Z].

Lemma Split_EncodeToBytes_witness :
  Split ([200; 131; 99; 97; 116; 131; 100; 111; 103]%Z ++ [7]%Z) = ROk (List_, itemContent catDog, [7]%Z).
Proof. apply (Split_EncodeToBytes catDog); vm_compute; done. Defined.

(** [CountValues] of the encodings of [l], one after the other, is the number
    of values, whatever they are. *)
Theorem CountValues_encItems l :
  (Z.of_nat (length (encItems l)) < two64)%Z → CountValues (encItems l) = ROk (Z.of_nat (length l)).
Proof.
  assert (encItems l = concat (map (fun p => encKind p.1 p.2) (map (fun x => (itemKind x, itemContent x)) l))) as ->.
  { rewrite map_map. unfold encItems. f_equal. apply map_ext. intros x. apply encItem_encKind. }
  intros Hlen. unfold CountValues. rewrite countLoop_encKinds; [by rewrite length_map|..|done].
  - apply Forall_map, Forall_forall. intros x _. apply encItem_encKind.
  - rewrite length_map. clear Hlen. induction l as [|x l IH]; simpl; [lia|]. rewrite length_app.
    enough (1 ≤ length (encKind (itemKind x) (itemContent x))) by lia.
    destruct (encItem_encKind x) as [_ Hk]. rewrite encKind_head, length_app by done.
    destruct (itemKind x); simpl in *; [destruct (itemContent x); done||(simpl; lia)|..];
      unfold puthead; case_match; simpl; lia.
Qed.

Lemma CountValues_encItems_witness : CountValues (encItems [catDog; Str []; catDog]) = ROk 3%Z.
Proof. apply (CountValues_encItems [catDog; Str []; catDog]). vm_compute. done. Defined.

(** The only byte slice on which [Split] panics is the single byte 0x81: the
    check for a one-byte string reads [buf[1]] before the length is checked. *)
Theorem Split_panics_iff b : Forall is_byte b → Split b = RPanic ↔ b = [129%Z].
Proof.
  intros Hb. split; [|intros ->; done]. unfold Split.
  destruct b as [|x b]; [done|]. apply Forall_cons in Hb as [[Hx1 Hx2] _]. cbn [readKind]. unfold checkSize.
  destruct (Z.ltb_spec x 128); [by repeat case_match; simplify_eq|].
  destruct (Z.ltb_spec x 184).
  { destruct (Z.eqb_spec (x - 128) 1) as [Hx|]; [|by repeat case_match; simplify_eq].
    destruct b; [intros _; f_equal; lia|]. by repeat case_match; simplify_eq. }
  destruct (Z.ltb_spec x 192); [|destruct (Z.ltb_spec x 248); [by repeat case_match; simplify_eq|]].
  - pose proof (readSize_panic b (x - 183) ltac:(lia)). destruct (readSize b _); [|done..]. by repeat case_match; simplify_eq.
  - pose proof (readSize_panic b (x - 247) ltac:(lia)). destruct (readSize b _); [|done..]. by repeat case_match; simplify_eq.
Qed.

Lemma Split_panics_iff_witness : Split [129%Z] = RPanic ↔ [129%Z] = [129%Z].
Proof. apply Split_panics_iff. repeat constructor; done. Defined.
