(* ===== verification/RlpDecode.v ===== *)
(** * rlp: decoding

    [src/rlp/decode.go]: the [Stream] state machine over an input of bytes, and
    the decoders [makeDecoder] selects for a type.  The reader behind the stream is
    a [bytes.Reader] (a sequence of bytes); the destination is a zero value of the
    type, and the decoded value is returned.  A Go type is a [gtyp], whose
    constructors are the cases of [makeDecoder]; types with a [DecodeRLP] method of
    their own are outside.  [uintbuf] is scratch space and not part of the state.
    A decoding error keeps its message but not its type and context. *)

From stdpp Require Import base list strings.
From Stdlib Require Import ZArith Lia.
From S2P Require Import Prelude Common RlpEncode RlpRaw.

(** ** Streams *)

Record listpos := mkListpos { lpPos : Z; lpSize : Z }.

(** [kind] is -1 ([None]) until [Kind] has read the next tag; the innermost open
    list is the head of [stack]. *)
Record Stream := mkStream {
  sInput : bytes;
  sRemaining : Z;
  sLimited : bool;
  sKind : option Kind;
  sSize : Z;
  sByteval : Z;
  sKinderr : option rlpErr;
  sStack : list listpos }.

#[export] Instance eta_Stream : Eta Stream := fun s =>
  mkStream (sInput s) (sRemaining s) (sLimited s) (sKind s) (sSize s) (sByteval s)
    (sKinderr s) (sStack s).

(** The result of a stream operation; [DFuel] is no Go result but a loop that
    the model stopped. *)
Inductive dres (A : Type) :=
| DOk (a : A)
| DErr (e : rlpErr)
| DFuel.
Arguments DOk {A} a.
Arguments DErr {A} e.
Arguments DFuel {A}.

Definition D (A : Type) : Type := Stream → dres A * Stream.

Definition dret {A} (a : A) : D A := fun s => (DOk a, s).
Definition derr {A} (e : rlpErr) : D A := fun s => (DErr e, s).
Definition dset (f : Stream → Stream) : D unit := fun s => (DOk tt, f s).

Definition dbind {A B} (m : D A) (k : A → D B) : D B := fun s =>
  match m s with
  | (DOk a, s') => k a s'
  | (DErr e, s') => (DErr e, s')
  | (DFuel, s') => (DFuel, s')
  end.

Declare Scope rlp_scope.
Delimit Scope rlp_scope with rlp.
Notation "x <~ m ;; k" := (dbind m (fun x => k))
  (at level 100, m at next level, right associativity) : rlp_scope.
Notation "m ;~ k" := (dbind m (fun _ => k))
  (at level 100, right associativity) : rlp_scope.
Open Scope rlp_scope.

(** [s.kind = -1] *)
Definition rearm : D unit := dset (fun s => s <| sKind := None |>).

(** [NewStream(r, inputLimit)] for a reader on [b]. *)
Definition NewStream (b : bytes) (inputLimit : Z) : Stream :=
  let limit := if (0 <? inputLimit)%Z then inputLimit else Z.of_nat (length b) in
  mkStream b limit true None 0 0 None [].

Definition NewListStream (b : bytes) (len : Z) : Stream :=
  (NewStream b len) <| sKind := Some List_ |> <| sSize := len |>.

Definition Stream_willRead (n : Z) : D unit := fun s =>
  let s := s <| sKind := None |> in
  let limit s :=
    if sLimited s then
      if (sRemaining s <? n)%Z then (DErr ErrValueTooLarge, s)
      else (DOk tt, s <| sRemaining := u64 (sRemaining s - n) |>)
    else (DOk tt, s) in
  match sStack s with
  | tos :: outer =>
      if (u64 (lpSize tos - lpPos tos) <? n)%Z then (DErr ErrElemTooLarge, s)
      else limit (s <| sStack := mkListpos (u64 (lpPos tos + n)) (lpSize tos) :: outer |>)
  | [] => limit s
  end.

Definition Stream_readByte : D Z :=
  Stream_willRead 1 ;~
  fun s => match sInput s with
           | [] => (DErr ErrUnexpectedEOF, s)
           | b :: rest => (DOk b, s <| sInput := rest |>)
           end.

(** [readFull(buf)] with [len(buf) = n]: the bytes read. *)
Definition Stream_readFull (n : Z) : D bytes :=
  Stream_willRead n ;~
  fun s => if (n <=? Z.of_nat (length (sInput s)))%Z
           then (DOk (take (Z.to_nat n) (sInput s)), s <| sInput ::= drop (Z.to_nat n) |>)
           else (DErr ErrUnexpectedEOF, s <| sInput := [] |>).

Definition Stream_readUint (size : Z) : D Z :=
  if (size =? 0)%Z then rearm ;~ dret 0%Z
  else if (size =? 1)%Z then Stream_readByte
  else
    uintbuf <~ Stream_readFull size ;;
    match uintbuf with
    | b0 :: _ => if (b0 =? 0)%Z then derr ErrCanonSize else dret (beVal uintbuf)
    | [] => dret (beVal uintbuf)
    end.

(** [size, err = s.readUint(n)], refusing sizes below 56. *)
Definition sizedKind (k : Kind) (n : Z) (s : Stream) : Kind * Z * option rlpErr * Stream :=
  match Stream_readUint n s with
  | (DOk size, s') => (k, size, if (size <? 56)%Z then Some ErrCanonSize else None, s')
  | (DErr e, s') => (k, 0%Z, Some e, s')
  | (DFuel, s') => (k, 0%Z, None, s')
  end.

(** The three results of [readKind], which [Kind] stores together. *)
Definition Stream_readKind (s : Stream) : Kind * Z * option rlpErr * Stream :=
  match Stream_readByte s with
  | (DErr e, s') =>
      let e := match sStack s' with
               | [] => match e with ErrUnexpectedEOF | ErrValueTooLarge => EOF | _ => e end
               | _ => e
               end in
      (Byte, 0%Z, Some e, s')
  | (DOk b, s') =>
      let s' := s' <| sByteval := 0%Z |> in
      if (b <? 128)%Z then (Byte, 0%Z, None, s' <| sByteval := b |>)
      else if (b <? 184)%Z then (String_, (b - 128)%Z, None, s')
      else if (b <? 192)%Z then sizedKind String_ (b - 183) s'
      else if (b <? 248)%Z then (List_, (b - 192)%Z, None, s')
      else sizedKind List_ (b - 247) s'
  | (DFuel, s') => (Byte, 0%Z, None, s')
  end.

Definition atEOL (s : Stream) : bool :=
  match sStack s with tos :: _ => (lpPos tos =? lpSize tos)%Z | [] => false end.

(** The check of a tag against the enclosing list or the input. *)
Definition tagFits (size : Z) (s : Stream) : option rlpErr :=
  match sStack s with
  | [] => if sLimited s && (sRemaining s <? size)%Z then Some ErrValueTooLarge else None
  | tos :: _ => if (u64 (lpSize tos - lpPos tos) <? size)%Z then Some ErrElemTooLarge else None
  end.

(** [s.kind, s.size, s.kinderr = s.readKind()] with the check of the size. *)
Definition storeKind (res : Kind * Z * option rlpErr * Stream) : dres (Kind * Z) * Stream :=
  let '(k, size, err, s) := res in
  let err := match err with Some e => Some e | None => tagFits size s end in
  (match err with None => DOk (k, size) | Some e => DErr e end,
   s <| sKind := Some k |> <| sSize := size |> <| sKinderr := err |>).

Definition Stream_Kind : D (Kind * Z) := fun s =>
  match sKind s with
  | Some k => (match sKinderr s with None => DOk (k, sSize s) | Some e => DErr e end, s)
  | None =>
      let s := s <| sKinderr := None |> in
      if atEOL s then (DErr EOL, s) else storeKind (Stream_readKind s)
  end.

Definition Stream_Bytes : D bytes :=
  ks <~ Stream_Kind ;;
  match ks.1 with
  | Byte => rearm ;~ (fun s => (DOk [sByteval s], s))
  | String_ =>
      b <~ Stream_readFull ks.2 ;;
      match b with
      | [x] => if (x <? 128)%Z then derr ErrCanonSize else dret b
      | _ => dret b
      end
  | List_ => derr ErrExpectedString
  end.

Definition Stream_Raw : D bytes :=
  ks <~ Stream_Kind ;;
  match ks.1 with
  | Byte => rearm ;~ (fun s => (DOk [sByteval s], s))
  | String_ => b <~ Stream_readFull ks.2 ;; dret (puthead 128 184 ks.2 ++ b)
  | List_ => b <~ Stream_readFull ks.2 ;; dret (puthead 192 247 ks.2 ++ b)
  end.

(** The switch of [uint], once the tag is known. *)
Definition uintOf (maxbits : Z) (kind : Kind) (size : Z) : D Z := fun s =>
  match kind with
  | Byte => if (sByteval s =? 0)%Z then (DErr ErrCanonInt, s)
            else (DOk (sByteval s), s <| sKind := None |>)
  | String_ =>
      if (maxbits / 8 <? size)%Z then (DErr errUintOverflow, s)
      else
        match Stream_readUint size s with
        | (DErr ErrCanonSize, s') => (DErr ErrCanonInt, s')
        | (DErr e, s') => (DErr e, s')
        | (DOk v, s') => if (0 <? size)%Z && (v <? 128)%Z then (DErr ErrCanonSize, s') else (DOk v, s')
        | (DFuel, s') => (DFuel, s')
        end
  | List_ => (DErr ErrExpectedString, s)
  end.

Definition Stream_uint (maxbits : Z) : D Z := ks <~ Stream_Kind ;; uintOf maxbits ks.1 ks.2.

Definition Stream_Uint : D Z := Stream_uint 64.

Definition Stream_Bool : D bool :=
  num <~ Stream_uint 8 ;;
  if (num =? 0)%Z then dret false
  else if (num =? 1)%Z then dret true
  else derr (errInvalidBool num).

Definition Stream_List : D Z :=
  ks <~ Stream_Kind ;;
  if bool_decide (ks.1 ≠ List_) then derr ErrExpectedList
  else dset (fun s => s <| sStack ::= cons (mkListpos 0 ks.2) |> <| sKind := None |> <| sSize := 0%Z |>) ;~
       dret ks.2.

Definition Stream_ListEnd : D unit := fun s =>
  match sStack s with
  | [] => (DErr errNotInList, s)
  | tos :: outer =>
      if negb (lpPos tos =? lpSize tos)%Z then (DErr errNotAtEOL, s)
      else
        let outer := match outer with
                     | o :: rest => mkListpos (u64 (lpPos o + lpSize tos)) (lpSize o) :: rest
                     | [] => []
                     end in
        (DOk tt, s <| sStack := outer |> <| sKind := None |> <| sSize := 0%Z |>)
  end.

(** ** Decoders *)

Definition wrapStreamError (err : rlpErr) : rlpErr :=
  match err with
  | ErrCanonInt => decodeError "non-canonical integer (leading zero bytes)"
  | ErrCanonSize => decodeError "non-canonical size information"
  | ErrExpectedList => decodeError "expected input list"
  | ErrExpectedString => decodeError "expected input string or byte"
  | errUintOverflow => decodeError "input string too long"
  | errNotAtEOL => decodeError "input list has too many elements"
  | _ => err
  end.

Definition wrapped {A} (m : D A) : D A := fun s =>
  match m s with (DErr e, s') => (DErr (wrapStreamError e), s') | r => r end.

(** The types [makeDecoder] tells apart. *)
Inductive gtyp :=
| TyRaw                        (* RawValue *)
| TyBigIntPtr                  (* big.Int pointer *)
| TyBigInt
| TyUint (bits : Z)
| TyBool
| TyString
| TyBytes                      (* byte slice *)
| TyByteArray (n : nat)
| TyArray (n : nat) (t : gtyp)
| TySlice (t : gtyp)
| TyTail (t : gtyp)            (* slice field with the "tail" tag *)
| TyStruct (fields : list gtyp)
| TyPtr (t : gtyp)
| TyPtrNil (t : gtyp)          (* pointer field with the "nil" tag *)
| TyInterface                  (* interface{} *)
| TyMap.

(** [reflect.Zero] of a type; a nil pointer is written as [makePtrWriter] writes it. *)
Fixpoint zeroOf (t : gtyp) : gval :=
  let nilOf t :=
    match t with
    | TyByteArray _ => VNilByteArray
    | TyStruct _ | TyArray _ _ => VNilList
    | _ => VNilZero (zeroOf t)
    end in
  match t with
  | TyRaw => VRaw []
  | TyBigIntPtr => VBigIntPtr None
  | TyBigInt => VBigInt 0
  | TyUint _ => VUint 0
  | TyBool => VBool false
  | TyString => VString []
  | TyBytes => VBytes []
  | TyByteArray n => VByteArray (replicate n 0%Z)
  | TyArray n t => VSlice (replicate n (zeroOf t))
  | TySlice _ => VSlice []
  | TyTail _ => VTail []
  | TyStruct ts => VStruct (map zeroOf ts)
  | TyPtr t | TyPtrNil t => nilOf t
  | TyInterface => VInterface None
  | TyMap => VMap [110; 117; 108; 108]%Z
  end.

Definition decodeRawValue : D gval := r <~ Stream_Raw ;; dret (VRaw r).

Definition decodeUint (bits : Z) : D gval := num <~ wrapped (Stream_uint bits) ;; dret (VUint num).

Definition decodeBool : D gval := b <~ wrapped Stream_Bool ;; dret (VBool b).

Definition decodeString : D gval := b <~ wrapped Stream_Bytes ;; dret (VString b).

Definition decodeByteSlice : D gval := b <~ wrapped Stream_Bytes ;; dret (VBytes b).

Definition decodeBigInt : D Z :=
  b <~ wrapped Stream_Bytes ;;
  match b with
  | b0 :: _ => if (b0 =? 0)%Z then derr (wrapStreamError ErrCanonInt) else dret (beVal b)
  | [] => dret 0%Z
  end.

(** The loop runs until [EOL]. *)
Fixpoint decodeSliceElems (elemdec : D gval) (fuel : nat) : D (list gval) := fun s =>
  match fuel with
  | O => (DFuel, s)
  | S f =>
      match elemdec s with
      | (DOk v, s') => (vs <~ decodeSliceElems elemdec f ;; dret (v :: vs)) s'
      | (DErr EOL, s') => (DOk [], s')
      | (DErr e, s') => (DErr e, s')
      | (DFuel, s') => (DFuel, s')
      end
  end.

Definition decodeListSlice (elemdec : D gval) (fuel : nat) : D (list gval) :=
  size <~ wrapped Stream_List ;;
  if (size =? 0)%Z then Stream_ListEnd ;~ dret []
  else vs <~ decodeSliceElems elemdec fuel ;; Stream_ListEnd ;~ dret vs.

(** [vlen] elements; [EOL] before the last one is an error. *)
Fixpoint decodeArrayElems (elemdec : D gval) (vlen : nat) : D (list gval) := fun s =>
  match vlen with
  | O => (DOk [], s)
  | S n =>
      match elemdec s with
      | (DOk v, s') => (vs <~ decodeArrayElems elemdec n ;; dret (v :: vs)) s'
      | (DErr EOL, s') => (DErr (decodeError "input list has too few elements"), s')
      | (DErr e, s') => (DErr e, s')
      | (DFuel, s') => (DFuel, s')
      end
  end.

Definition decodeListArray (elemdec : D gval) (vlen : nat) : D (list gval) :=
  wrapped Stream_List ;~
  vs <~ decodeArrayElems elemdec vlen ;;
  wrapped Stream_ListEnd ;~ dret vs.

Definition decodeByteArray (vlen : nat) : D bytes :=
  ks <~ Stream_Kind ;;
  match ks.1 with
  | Byte =>
      if (vlen =? 0)%nat then derr (decodeError "input string too long")
      else if (1 <? vlen)%nat then derr (decodeError "input string too short")
      else fun s => match Stream_Uint s with       (* bv, _ := s.Uint() *)
                    | (DOk bv, s') => (DOk [bv], s')
                    | (_, s') => (DOk [0%Z], s')
                    end
  | String_ =>
      if (Z.of_nat vlen <? ks.2)%Z then derr (decodeError "input string too long")
      else if (ks.2 <? Z.of_nat vlen)%Z then derr (decodeError "input string too short")
      else
        slice <~ Stream_readFull (Z.of_nat vlen) ;;
        match slice with
        | [x] => if (x <? 128)%Z then derr (wrapStreamError ErrCanonSize) else dret slice
        | _ => dret slice
        end
  | List_ => derr (wrapStreamError ErrExpectedString)
  end.

(** The fields of a struct, in order. *)
Definition decodeFields (dec : gtyp → D gval) : list gtyp → D (list gval) :=
  fix go ts :=
    match ts with
    | [] => dret []
    | t :: ts' => fun s =>
        match dec t s with
        | (DOk v, s') => (vs <~ go ts' ;; dret (v :: vs)) s'
        | (DErr EOL, s') => (DErr (decodeError "too few elements"), s')
        | (DErr e, s') => (DErr e, s')
        | (DFuel, s') => (DFuel, s')
        end
    end.

Definition decodeStruct (fields : D (list gval)) : D (list gval) :=
  wrapped Stream_List ;~
  vs <~ fields ;;
  wrapped Stream_ListEnd ;~ dret vs.

Fixpoint decodeInterface (fuel : nat) : D gval := fun s =>
  match fuel with
  | O => (DFuel, s)
  | S f =>
      (ks <~ Stream_Kind ;;
       match ks.1 with
       | List_ => slice <~ decodeListSlice (decodeInterface f) f ;; dret (VInterface (Some (VSlice slice)))
       | _ => b <~ Stream_Bytes ;; dret (VInterface (Some (VBytes b)))
       end) s
  end.

(** An empty value decodes as nil; the type tag has been read, so [kind] is re-armed. *)
Definition optionalPtr (nil : gval) (dec : D gval) : D gval := fun s =>
  match Stream_Kind s with
  | (DErr e, s') => (DErr e, s' <| sKind := None |>)
  | (DOk (kind, size), s') =>
      if (size =? 0)%Z && bool_decide (kind ≠ Byte) then (DOk nil, s' <| sKind := None |>)
      else (v <~ dec ;; dret (VPtr v)) s'
  | (DFuel, s') => (DFuel, s')
  end.

Section decode.
(** The text [json.Marshal] makes of the map that [json.Unmarshal] makes of a text. *)
Context (remarshal : bytes → bytes).

Definition decodeMap : D gval := b <~ wrapped Stream_Bytes ;; dret (VMap (remarshal b)).

(** The decoder [makeDecoder] selects, applied to a zero value. *)
Fixpoint decode (fuel : nat) (t : gtyp) : D gval :=
  match t with
  | TyRaw => decodeRawValue
  | TyBigIntPtr => i <~ decodeBigInt ;; dret (VBigIntPtr (Some i))
  | TyBigInt => i <~ decodeBigInt ;; dret (VBigInt i)
  | TyUint bits => decodeUint bits
  | TyBool => decodeBool
  | TyString => decodeString
  | TyBytes => decodeByteSlice
  | TyByteArray n => b <~ decodeByteArray n ;; dret (VByteArray b)
  | TyArray n t => vs <~ decodeListArray (decode fuel t) n ;; dret (VSlice vs)
  | TySlice t => vs <~ decodeListSlice (decode fuel t) fuel ;; dret (VSlice vs)
  | TyTail t => vs <~ decodeSliceElems (decode fuel t) fuel ;; dret (VTail vs)
  | TyStruct ts => vs <~ decodeStruct (decodeFields (decode fuel) ts) ;; dret (VStruct vs)
  | TyPtr t => v <~ decode fuel t ;; dret (VPtr v)
  | TyPtrNil t => optionalPtr (zeroOf (TyPtrNil t)) (decode fuel t)
  | TyInterface => decodeInterface fuel
  | TyMap => decodeMap
  end.

(** [DecodeBytes]: one value and nothing after it.  Every round of a loop and every
    nested list takes a byte of the input, which is the fuel. *)
Definition DecodeBytes (b : bytes) (t : gtyp) : dres gval :=
  match decode (S (length b)) t (NewStream b (Z.of_nat (length b))) with
  | (DOk v, s) => match sInput s with [] => DOk v | _ :: _ => DErr ErrMoreThanOneValue end
  | (DErr e, _) => DErr e
  | (DFuel, _) => DFuel
  end.

End decode.

Example decode_uints :
  DecodeBytes id [196; 5; 129; 200; 128]%Z (TySlice (TyUint 64)) = DOk (VSlice [VUint 5; VUint 200; VUint 0]).
Proof. reflexivity. Qed.
