(* ===== verification/RlpRoundtrip.v ===== *)
(** * rlp: what is encoded is decoded again

    The stream operations of [src/rlp/decode.go] on the encodings of
    [src/rlp/encode.go]: how the stream moves over a value, which value each
    decoder reads there, and the round trip for whole Go values. *)

From stdpp Require Import base list strings.
From Stdlib Require Import ZArith Lia.
From S2P Require Import Prelude Common RlpEncode RlpRaw RlpDecode.

(** ** Stream states *)

(** Positions within their lists, counters within 64 bits. *)
Record streamOK (s : Stream) : Prop := mkStreamOK {
  ok_stack : Forall (fun lp => 0 ≤ lpPos lp ≤ lpSize lp ∧ lpSize lp < two64)%Z (sStack s);
  ok_remaining : is_u64 (sRemaining s) }.

(** [n] more bytes fit the innermost list and the limit. *)
Definition room (n : Z) (s : Stream) : Prop :=
  (match sStack s with tos :: _ => lpPos tos + n ≤ lpSize tos | [] => True end)%Z ∧
  (sLimited s = true → (n ≤ sRemaining s)%Z).

Definition bumpTop (n : Z) (l : list listpos) : list listpos :=
  match l with tos :: outer => mkListpos (lpPos tos + n) (lpSize tos) :: outer | [] => [] end.

(** [s'] is [s] after [n] bytes were read and accounted for. *)
Record shifted (n : Z) (s s' : Stream) : Prop := mkShifted {
  sh_input : sInput s' = drop (Z.to_nat n) (sInput s);
  sh_remaining : sRemaining s' = if sLimited s then (sRemaining s - n)%Z else sRemaining s;
  sh_limited : sLimited s' = sLimited s;
  sh_stack : sStack s' = bumpTop n (sStack s) }.

Definition moved (n : Z) (s s' : Stream) : Prop := shifted n s s' ∧ sKind s' = None.

Lemma bumpTop_0 l : bumpTop 0 l = l.
Proof. destruct l as [|[p z] l]; [done|]. simpl. by rewrite Z.add_0_r. Qed.

Lemma bumpTop_bumpTop n m l : bumpTop m (bumpTop n l) = bumpTop (n + m) l.
Proof. destruct l as [|[p z] l]; [done|]. simpl. by rewrite Z.add_assoc. Qed.

Lemma shifted_same s s' :
  sInput s' = sInput s → sRemaining s' = sRemaining s → sLimited s' = sLimited s → sStack s' = sStack s →
  shifted 0 s s'.
Proof.
  intros Hi Hr Hl Hst. split; [by rewrite drop_0| |done|by rewrite bumpTop_0].
  rewrite Hr. destruct (sLimited s); lia.
Qed.

Lemma shifted_trans n m s s1 s2 : (0 ≤ n)%Z → (0 ≤ m)%Z →
  shifted n s s1 → shifted m s1 s2 → shifted (n + m) s s2.
Proof.
  intros Hn Hm [Hi1 Hr1 Hl1 Hs1] [Hi2 Hr2 Hl2 Hs2]. split.
  - rewrite Hi2, Hi1, drop_drop. f_equal. lia.
  - rewrite Hr2, Hl1, Hr1. destruct (sLimited s); lia.
  - congruence.
  - by rewrite Hs2, Hs1, bumpTop_bumpTop.
Qed.

Lemma shifted_ok n s s' : (0 ≤ n)%Z → streamOK s → room n s → shifted n s s' → streamOK s'.
Proof.
  intros Hn [Hst Hr] [Hroom Hlim] [_ Hr' _ Hs']. split.
  - rewrite Hs'. destruct (sStack s) as [|[p z] l]; [done|]. simpl in *.
    apply Forall_cons in Hst as [[? ?] ?]. constructor; simpl in *; [lia|done].
  - rewrite Hr'. unfold is_u64 in *. destruct (sLimited s); [specialize (Hlim eq_refl)|]; lia.
Qed.

Lemma shifted_room n m s s' : shifted n s s' → room (n + m) s → room m s'.
Proof.
  intros [_ Hr Hl Hs] [H1 H2]. split.
  - rewrite Hs. destruct (sStack s); [done|]. simpl. lia.
  - rewrite Hl, Hr. intros Hlim. rewrite Hlim. specialize (H2 Hlim). lia.
Qed.

Lemma room_mono n m s : (n ≤ m)%Z → room m s → room n s.
Proof. intros Hn [H1 H2]. split; [destruct (sStack s); [done|lia]|]. intros Hl. specialize (H2 Hl). lia. Qed.

(** ** Primitive reads *)

Lemma willRead_ok n s : (0 ≤ n)%Z → streamOK s → room n s →
  ∃ s', Stream_willRead n s = (DOk tt, s') ∧ sInput s' = sInput s ∧ sKind s' = None ∧
    sRemaining s' = (if sLimited s then (sRemaining s - n)%Z else sRemaining s) ∧
    sLimited s' = sLimited s ∧ sStack s' = bumpTop n (sStack s).
Proof.
  intros Hn [Hst Hr] [Hroom Hlim]. unfold Stream_willRead. simpl. destruct (sStack s) as [|tos outer]; simpl.
  - destruct (sLimited s) eqn:El; simpl; [|by eexists; split_and!; [reflexivity|done..]].
    specialize (Hlim eq_refl). rewrite (proj2 (Z.ltb_ge _ _)) by lia.
    eexists. split_and!; [reflexivity|done..| |done|done]. simpl. unfold is_u64 in *. rewrite u64_small; [done|]. unfold is_u64. lia.
  - apply Forall_cons in Hst as [[? ?] ?]. rewrite (u64_small (lpSize tos - lpPos tos)) by (unfold is_u64; lia).
    rewrite (proj2 (Z.ltb_ge _ _)) by lia. rewrite (u64_small (lpPos tos + n)) by (unfold is_u64; lia).
    destruct (sLimited s) eqn:El; simpl; [|by eexists; split_and!; [reflexivity|done..]].
    specialize (Hlim eq_refl). rewrite (proj2 (Z.ltb_ge _ _)) by lia.
    eexists. split_and!; [reflexivity|done..| |done|done]. simpl. unfold is_u64 in *. rewrite u64_small; [done|]. unfold is_u64. lia.
Qed.

Lemma readByte_ok b rest s : streamOK s → room 1 s → sInput s = b :: rest →
  ∃ s', Stream_readByte s = (DOk b, s') ∧ moved 1 s s'.
Proof.
  intros Hok Hr Hi. destruct (willRead_ok 1 s ltac:(lia) Hok Hr) as (s1 & Hw & Hi1 & Hk & Hr1 & Hl & Hs).
  unfold Stream_readByte, dbind. rewrite Hw, Hi1, Hi. eexists. split; [reflexivity|].
  split; [|done]. split; simpl; [by rewrite Hi|done..].
Qed.

Lemma readFull_ok c rest s : streamOK s → room (Z.of_nat (length c)) s → sInput s = c ++ rest →
  ∃ s', Stream_readFull (Z.of_nat (length c)) s = (DOk c, s') ∧ moved (Z.of_nat (length c)) s s'.
Proof.
  intros Hok Hr Hi. destruct (willRead_ok _ s (Nat2Z.is_nonneg _) Hok Hr) as (s1 & Hw & Hi1 & Hk & Hr1 & Hl & Hs).
  unfold Stream_readFull, dbind. rewrite Hw, Hi1, Hi, length_app, (proj2 (Z.leb_le _ _)) by lia.
  rewrite Nat2Z.id, take_app_length. eexists. split; [reflexivity|].
  split; [|done]. split; simpl; [by rewrite Nat2Z.id, Hi1, Hi|done..].
Qed.

(** Reading a minimal big-endian number of two or more bytes, or one byte. *)
Lemma readUint_ok n rest s : is_u64 n → n ≠ 0%Z → streamOK s → room (Z.of_nat (length (putint n))) s →
  sInput s = putint n ++ rest →
  ∃ s', Stream_readUint (Z.of_nat (length (putint n))) s = (DOk n, s') ∧
    moved (Z.of_nat (length (putint n))) s s'.
Proof.
  intros Hu Hn Hok Hr Hi. pose proof (putint_length n). destruct (putint_spec n Hu) as (Hv & Hb & Hnz).
  unfold Stream_readUint. rewrite (proj2 (Z.eqb_neq _ 0)) by lia.
  destruct (Z.eqb_spec (Z.of_nat (length (putint n))) 1) as [H1|H1].
  - destruct (putint n) as [|x [|]] eqn:E; simpl in H1; try lia. simpl in Hi.
    destruct (readByte_ok x rest s Hok Hr Hi) as (s' & -> & Hm). exists s'.
    split; [|exact Hm]. do 2 f_equal. rewrite <- Hv. unfold beVal. simpl. lia.
  - destruct (readFull_ok (putint n) rest s Hok Hr Hi) as (s' & Hf & Hm). exists s'. split; [|done].
    unfold dbind. rewrite Hf. destruct (Hnz Hn) as (x & t & Hx & Hx0). rewrite Hx in Hv |- *.
    rewrite (proj2 (Z.eqb_neq _ 0)) by done. unfold dret. by rewrite Hv.
Qed.

(** ** The value ahead *)

(** The bytes of a value that remain once [Kind] has read its tag. *)
Definition payload (k : Kind) (c : bytes) : bytes := match k with Byte => [] | _ => c end.

(** [Kind] on [s] finds a value of kind [k] with content [c], and leaves [s1]. *)
Record ahead (k : Kind) (c rest : bytes) (s s1 : Stream) : Prop := mkAhead {
  ah_kind : Stream_Kind s = (DOk (k, Z.of_nat (length (payload k c))), s1);
  ah_again : Stream_Kind s1 = (DOk (k, Z.of_nat (length (payload k c))), s1);
  ah_ok : streamOK s1;
  ah_room : room (Z.of_nat (length (payload k c))) s1;
  ah_input : sInput s1 = payload k c ++ rest;
  ah_byte : k = Byte → c = [sByteval s1] }.

Lemma ahead_pending k c rest s s1 : ahead k c rest s s1 → ahead k c rest s1 s1.
Proof. intros []. by split. Qed.

Lemma shifted_byteval n m b s s' : n = m → shifted m s s' → shifted n s (s' <| sByteval := b |>).
Proof. intros -> []. by split. Qed.

(** Reading the size of a long value after its first byte. *)
Lemma readKind_long (k : Kind) lt n rest s s0 :
  (56 ≤ n)%Z → is_u64 n → streamOK s →
  room (1 + Z.of_nat (length (putint n))) s →
  moved 1 s s0 → sInput s0 = putint n ++ rest →
  ∃ s1, Stream_readUint (lt + Z.of_nat (length (putint n)) - lt) (s0 <| sByteval := 0%Z |>) = (DOk n, s1) ∧
    shifted (1 + Z.of_nat (length (putint n))) s s1.
Proof.
  intros Hn Hu Hok Hr [Hsh Hk] Hi. replace (lt + _ - lt)%Z with (Z.of_nat (length (putint n))) by lia.
  set (s0' := s0 <| sByteval := 0%Z |>).
  assert (shifted 1 s s0') as Hsh' by (destruct Hsh; by split).
  destruct (readUint_ok n rest s0') as (s1 & Hrd & Hm); [done|lia| | |done|].
  - eapply shifted_ok; [|exact Hok| |exact Hsh']; [lia|]. eapply room_mono; [|exact Hr]. lia.
  - by eapply shifted_room.
  - exists s1. split; [done|]. eapply shifted_trans; [lia|lia|exact Hsh'|apply Hm].
Qed.

(** The header of a tagged value and the size it announces. *)
Lemma readKind_ok k c rest s :
  kindOK k c = true → is_u64 (Z.of_nat (length c)) → streamOK s →
  room (Z.of_nat (length (encKind k c))) s → sInput s = encKind k c ++ rest →
  ∃ s1, Stream_readKind s = (k, Z.of_nat (length (payload k c)), None, s1) ∧
    shifted (Z.of_nat (length (encKind k c)) - Z.of_nat (length (payload k c))) s s1 ∧
    (k = Byte → c = [sByteval s1]).
Proof.
  intros Hk Hu Hok Hr Hi. rewrite (encKind_head k c Hk) in *. set (n := Z.of_nat (length c)) in *.
  destruct (kindHead k n ++ c ++ rest) as [|x l] eqn:Hx.
  { destruct k; [destruct c as [|? [|]]; done|..]; simpl in Hx; unfold puthead in Hx; by case_match. }
  rewrite <- app_assoc, Hx in Hi. rewrite length_app in *. fold n in Hr |- *.
  assert (room 1 s) as Hr1.
  { eapply room_mono; [|exact Hr]. destruct k; simpl in *; [destruct c as [|? [|]]; simpl in *; done || lia|..];
      unfold puthead; case_match; simpl; lia. }
  destruct (readByte_ok x l s Hok Hr1 Hi) as (s0 & Hb & Hm). unfold Stream_readKind, sizedKind. rewrite Hb. clear Hb.
  assert (sInput s0 = l) as Hl by (destruct Hm as [[Hm _ _ _] _]; by rewrite Hm, Hi).
  destruct k; simpl payload in *; simpl kindHead in *.
  - destruct c as [|y [|]]; try done. simpl in Hx, Hk. injection Hx as <- <-. rewrite Hk.
    eexists. split_and!; [reflexivity| |done]. do 2 (apply (shifted_byteval _ 1); [done|]). apply Hm.
  - destruct (Z.ltb_spec n 56) as [Hn|Hn].
    + rewrite puthead_small in * by lia. simpl in Hx. injection Hx as <- <-.
      rewrite (proj2 (Z.ltb_ge _ 128)), (proj2 (Z.ltb_lt _ 184)) by lia.
      replace (128 + n - 128)%Z with n by lia. eexists. split_and!; [reflexivity| |done].
      apply (shifted_byteval _ 1); [simpl length; lia|apply Hm].
    + rewrite puthead_large in * by (done || lia). simpl in Hx. injection Hx as <- <-.
      pose proof (putint_length n).
      rewrite (proj2 (Z.ltb_ge _ 128)), (proj2 (Z.ltb_ge _ 184)), (proj2 (Z.ltb_lt _ 192)) by lia.
      destruct (readKind_long String_ 183 n (c ++ rest) s s0) as (s1 & -> & Hs1); [done..| |done|done|].
      { eapply room_mono; [|exact Hr]. simpl length. lia. }
      rewrite (proj2 (Z.ltb_ge _ 56)) by done. eexists. split_and!; [reflexivity| |done]. simpl length.
      replace (Z.of_nat _ - Z.of_nat _)%Z with (1 + Z.of_nat (length (putint n)))%Z by lia. done.
  - destruct (Z.ltb_spec n 56) as [Hn|Hn].
    + rewrite puthead_small in * by lia. simpl in Hx. injection Hx as <- <-.
      rewrite (proj2 (Z.ltb_ge _ 128)), (proj2 (Z.ltb_ge _ 184)), (proj2 (Z.ltb_ge _ 192)),
        (proj2 (Z.ltb_lt _ 248)) by lia.
      replace (192 + n - 192)%Z with n by lia. eexists. split_and!; [reflexivity| |done].
      apply (shifted_byteval _ 1); [simpl length; lia|apply Hm].
    + rewrite puthead_large in * by (done || lia). simpl in Hx. injection Hx as <- <-.
      pose proof (putint_length n).
      rewrite (proj2 (Z.ltb_ge _ 128)), (proj2 (Z.ltb_ge _ 184)), (proj2 (Z.ltb_ge _ 192)),
        (proj2 (Z.ltb_ge _ 248)) by lia.
      destruct (readKind_long List_ 247 n (c ++ rest) s s0) as (s1 & -> & Hs1); [done..| |done|done|].
      { eapply room_mono; [|exact Hr]. simpl length. lia. }
      rewrite (proj2 (Z.ltb_ge _ 56)) by done. eexists. split_and!; [reflexivity| |done]. simpl length.
      replace (Z.of_nat _ - Z.of_nat _)%Z with (1 + Z.of_nat (length (putint n)))%Z by lia. done.
Qed.

Lemma tagFits_ok n s : streamOK s → room n s → tagFits n s = None.
Proof.
  intros [Hst _] [Hr Hl]. unfold tagFits. destruct (sStack s) as [|tos l].
  - destruct (sLimited s); simpl; [|done]. specialize (Hl eq_refl). by rewrite (proj2 (Z.ltb_ge _ _)).
  - apply Forall_cons in Hst as [[? ?] _]. rewrite u64_small by (unfold is_u64; lia).
    by rewrite (proj2 (Z.ltb_ge _ _)) by lia.
Qed.

Lemma encKind_nonempty k c : kindOK k c = true → (1 ≤ length (encKind k c))%nat.
Proof.
  intros Hk. rewrite encKind_head, length_app by done.
  destruct k; simpl in *; [destruct c as [|? [|]]; simpl in *; done || lia|..];
    unfold puthead; case_match; simpl; lia.
Qed.

(** A stream with the tag still to read finds the value its input starts with. *)
Lemma ahead_fresh k c rest s :
  kindOK k c = true → is_u64 (Z.of_nat (length c)) → streamOK s → sKind s = None →
  room (Z.of_nat (length (encKind k c))) s → sInput s = encKind k c ++ rest →
  ∃ s1, ahead k c rest s s1 ∧
    shifted (Z.of_nat (length (encKind k c)) - Z.of_nat (length (payload k c))) s s1.
Proof.
  intros Hk Hu Hok Hnone Hr Hi. set (s0 := s <| sKinderr := None |>).
  destruct (readKind_ok k c rest s0 Hk Hu) as (s1 & Hrk & Hsh & Hbyte); [by destruct Hok|done|done|].
  assert (atEOL s = false) as Heol.
  { unfold atEOL. destruct Hr as [Hr _]. pose proof (encKind_nonempty k c Hk).
    destruct (sStack s); [done|]. apply Z.eqb_neq. lia. }
  assert (Z.of_nat (length (payload k c)) ≤ Z.of_nat (length (encKind k c)))%Z as Hle.
  { rewrite encKind_head, length_app by done. destruct k; simpl; lia. }
  set (h := (Z.of_nat (length (encKind k c)) - Z.of_nat (length (payload k c)))%Z) in *.
  assert (room (Z.of_nat (length (payload k c))) s1) as Hroom1
    by (eapply shifted_room; [exact Hsh|]; eapply room_mono; [|exact Hr]; lia).
  assert (streamOK s1) as Hok1.
  { eapply (shifted_ok h s0); [lia|by destruct Hok| |exact Hsh]. eapply room_mono; [|exact Hr]. lia. }
  exists (s1 <| sKind := Some k |> <| sSize := Z.of_nat (length (payload k c)) |> <| sKinderr := None |>).
  split; [|by destruct Hsh]. split; [|done|by destruct Hok1|done| |done].
  - unfold Stream_Kind. rewrite Hnone. fold s0. change (atEOL s0) with (atEOL s). rewrite Heol, Hrk.
    unfold storeKind. by rewrite tagFits_ok.
  - simpl. destruct Hsh as [-> _ _ _]. simpl. rewrite Hi, encKind_head, <- app_assoc by done.
    unfold h. rewrite encKind_head, length_app by done. set (hd := kindHead k (Z.of_nat (length c))).
    destruct k; cbn [payload]; [by destruct c as [|? [|]]|..];
      replace (Z.to_nat _) with (length hd) by lia; by rewrite drop_app_length.
Qed.

(** ** Decoders that read back an encoding *)

(** [dec] reads the value [v] encoded as [e], whether or not its tag was peeked at. *)
Definition decodes {A} (dec : D A) (v : A) (e : bytes) : Prop :=
  ∃ k c, e = encKind k c ∧ kindOK k c = true ∧ is_u64 (Z.of_nat (length c)) ∧
    ∀ rest s s1, ahead k c rest s s1 →
      ∃ s', dec s = (DOk v, s') ∧ moved (Z.of_nat (length (payload k c))) s1 s'.

Lemma decodes_map {A B} (f : A → B) dec v e :
  decodes dec v e → decodes (x <~ dec ;; dret (f x)) (f v) e.
Proof.
  intros (k & c & He & Hk & Hu & Hd). exists k, c. split_and!; [done..|].
  intros rest s s1 Ha. destruct (Hd _ _ _ Ha) as (s' & Hs & Hm). exists s'. unfold dbind. by rewrite Hs.
Qed.

Lemma decodes_wrapped {A} (dec : D A) v e : decodes dec v e → decodes (wrapped dec) v e.
Proof.
  intros (k & c & He & Hk & Hu & Hd). exists k, c. split_and!; [done..|].
  intros rest s s1 Ha. destruct (Hd _ _ _ Ha) as (s' & Hs & Hm). exists s'. unfold wrapped. by rewrite Hs.
Qed.

Lemma shifted_rearm s : moved 0 s (s <| sKind := None |>).
Proof. split; [by apply shifted_same|done]. Qed.

Lemma ahead_bind {A} k c rest s s1 (f : Kind * Z → D A) : ahead k c rest s s1 →
  dbind Stream_Kind f s = f (k, Z.of_nat (length (payload k c))) s1.
Proof. intros [Hk _ _ _ _ _]. unfold dbind. by rewrite Hk. Qed.

Lemma ahead_readFull k c rest s s1 : ahead k c rest s s1 → k ≠ Byte →
  ∃ s', Stream_readFull (Z.of_nat (length c)) s1 = (DOk c, s') ∧ moved (Z.of_nat (length c)) s1 s'.
Proof. intros [_ _ Hok Hr Hi _] Hk. destruct k; [done|..]; by eapply readFull_ok. Qed.

Definition strKind (c : bytes) : Kind := if singleByte c then Byte else String_.

Lemma encStr_kind c : encStr c = encKind (strKind c) c ∧ kindOK (strKind c) c = true.
Proof. unfold strKind. by destruct (singleByte c) eqn:E; simpl; rewrite ?E. Qed.

Lemma Bytes_ahead c rest s s1 : ahead (strKind c) c rest s s1 →
  ∃ s', Stream_Bytes s = (DOk c, s') ∧ moved (Z.of_nat (length (payload (strKind c) c))) s1 s'.
Proof.
  intros Ha. unfold Stream_Bytes. rewrite (ahead_bind _ _ _ _ _ _ Ha). unfold strKind in *. simpl.
  destruct (singleByte c) eqn:Hs; cbn [payload] in *.
  - exists (s1 <| sKind := None |>). pose proof (ah_byte _ _ _ _ _ Ha eq_refl) as Hc. rewrite Hc at 1.
    split; [done|]. apply shifted_rearm.
  - destruct (ahead_readFull _ _ _ _ _ Ha ltac:(done)) as (s' & Hf & Hm). exists s'. split; [|done].
    unfold dbind. rewrite Hf. destruct c as [|x [|]]; try done. simpl in Hs. by rewrite Hs.
Qed.

Lemma Bytes_decodes c : is_u64 (Z.of_nat (length c)) → decodes Stream_Bytes c (encStr c).
Proof.
  intros Hu. destruct (encStr_kind c) as [He Hk]. exists (strKind c), c. split_and!; [done..|].
  intros rest s s1. apply Bytes_ahead.
Qed.

Lemma putint_length_le i m : is_u64 i → (i < 256 ^ Z.of_nat m)%Z → (1 ≤ m)%nat → (length (putint i) ≤ m)%nat.
Proof.
  intros Hu Hi Hm. destruct (decide (i = 0%Z)) as [->|Hne]; [done|].
  destruct (putint_spec i Hu) as (Hv & Hb & Hnz). destruct (Hnz Hne) as (x & l & Hp & Hx). rewrite Hp in *.
  rewrite beVal_cons in Hv. apply Forall_cons in Hb as [[Hx1 _] Hl]. pose proof (beVal_range l Hl) as [Hl1 _].
  assert (0 < 256 ^ Z.of_nat (length l))%Z by (apply Z.pow_pos_nonneg; lia).
  assert (256 ^ Z.of_nat (length l) < 256 ^ Z.of_nat m)%Z as Hlt by nia.
  apply Z.pow_lt_mono_r_iff in Hlt; [|lia..]. simpl. lia.
Qed.

Definition uintBits (bits : Z) : Prop := bits = 8%Z ∨ bits = 16%Z ∨ bits = 32%Z ∨ bits = 64%Z.

Lemma encUint_kind i : is_u64 i →
  encUint i = encKind (if (i =? 0)%Z then String_ else strKind (putint i)) (if (i =? 0)%Z then [] else putint i).
Proof. intros Hu. unfold encUint. destruct (i =? 0)%Z; [done|]. apply encStr_kind. Qed.

Lemma uint_decodes bits i : uintBits bits → (0 ≤ i < 2 ^ bits)%Z → decodes (Stream_uint bits) i (encUint i).
Proof.
  intros Hbits Hi.
  assert (is_u64 i) as Hu. { unfold is_u64, two64. destruct Hbits as [->|[->|[->| ->]]]; lia. }
  assert (Z.of_nat (length (putint i)) ≤ bits / 8)%Z as Hlen.
  { destruct Hbits as [->|[->|[->| ->]]]; [apply (inj_le _ 1)|apply (inj_le _ 2)|apply (inj_le _ 4)|apply (inj_le _ 8)];
      (apply putint_length_le; [done|simpl; lia|lia]). }
  pose proof (putint_length i) as Hp.
  exists (if (i =? 0)%Z then String_ else strKind (putint i)), (if (i =? 0)%Z then [] else putint i).
  split; [by apply encUint_kind|]. unfold Stream_uint, uintOf.
  destruct (Z.eqb_spec i 0) as [->|Hne].
  - split_and!; [done..|]. intros rest s s1 Ha. rewrite (ahead_bind _ _ _ _ _ _ Ha). simpl.
    rewrite (proj2 (Z.ltb_ge _ 0)) by lia. eexists. split; [reflexivity|]. apply shifted_rearm.
  - destruct (encStr_kind (putint i)) as [_ Hk]. split_and!; [done| unfold is_u64, two64; lia|].
    destruct (putint_spec i Hu) as (Hv & Hb & _).
    intros rest s s1 Ha. rewrite (ahead_bind _ _ _ _ _ _ Ha). unfold strKind in *. simpl.
    destruct (singleByte (putint i)) eqn:Hs; cbn [payload] in *.
    + pose proof (ah_byte _ _ _ _ _ Ha eq_refl) as Hc. rewrite Hc in Hv. change (sByteval s1 = i) in Hv.
      subst i. rewrite (proj2 (Z.eqb_neq _ 0)) by done. eexists. split; [reflexivity|]. apply shifted_rearm.
    + rewrite (proj2 (Z.ltb_ge _ _)) by lia.
      destruct (readUint_ok i rest s1) as (s' & Hr & Hm); [done|done|apply Ha|apply Ha|apply Ha|].
      rewrite Hr. exists s'. split; [|done]. rewrite (proj2 (Z.ltb_lt 0 _)) by lia. simpl.
      rewrite (proj2 (Z.ltb_ge i 128)); [done|]. destruct (Z.ltb_spec i 128); [|done].
      exfalso. rewrite (putint_eq 1 i) in Hs by (lia || by left).
      simpl in Hs. unfold byteOf in Hs. rewrite Z.shiftr_0_r, Z.mod_small in Hs by lia. by apply Z.ltb_ge in Hs; lia.
Qed.

Lemma bigBytesLoop_spec fuel i acc : (0 ≤ i < 2 ^ Z.of_nat fuel)%Z →
  beVal (bigBytesLoop fuel i acc) = (i * 256 ^ Z.of_nat (length acc) + beVal acc)%Z ∧
  ((0 < i)%Z → ∃ x l, bigBytesLoop fuel i acc = x :: l ∧ (0 < x)%Z).
Proof.
  revert i acc. induction fuel as [|f IH]; intros i acc Hi.
  { simpl in *. assert (i = 0%Z) as -> by lia. split; [lia|lia]. }
  simpl bigBytesLoop. destruct (Z.eqb_spec i 0) as [->|Hne]; [split; [lia|lia]|].
  pose proof (Z.div_mod i 256 ltac:(lia)). pose proof (Z.mod_pos_bound i 256 ltac:(lia)).
  rewrite Nat2Z.inj_succ, Z.pow_succ_r in Hi by lia.
  destruct (IH (i / 256)%Z ((i `mod` 256)%Z :: acc)) as [Hv Hnz]; [lia|]. split.
  - rewrite Hv, beVal_cons. cbn [length]. rewrite Nat2Z.inj_succ, Z.pow_succ_r by lia. nia.
  - intros _. destruct (decide (i / 256 = 0)%Z) as [E|]; [|apply Hnz; lia].
    rewrite E. destruct f; simpl; eexists _, _; (split; [reflexivity|lia]).
Qed.

(** [big.Int.Bytes] is the big-endian value without leading zeros. *)
Lemma bigBytes_spec i : (0 < i)%Z →
  beVal (bigBytes i) = i ∧ ∃ x l, bigBytes i = x :: l ∧ (0 < x)%Z.
Proof.
  intros Hi. destruct (bigBytesLoop_spec (S (Z.to_nat (Z.log2 i))) i []) as [Hv Hnz].
  - split; [lia|]. pose proof (Z.log2_spec i Hi). pose proof (Z.log2_nonneg i).
    rewrite Nat2Z.inj_succ, Z2Nat.id by done. lia.
  - split; [|by apply Hnz]. unfold bigBytes. rewrite Hv. unfold beVal. simpl. lia.
Qed.

Lemma bigInt_decodes i e : encBig i = Ok e → is_u64 (Z.of_nat (length e)) → decodes decodeBigInt i e.
Proof.
  unfold encBig. destruct (Z.ltb_spec i 0) as [|H0]; [done|]. intros He Hu.
  assert (∃ c, e = encStr c ∧ (∀ s s', wrapped Stream_Bytes s = (DOk c, s') → decodeBigInt s = (DOk i, s')))
    as (c & -> & Hdec).
  { destruct (Z.eqb_spec i 0) as [->|Hne]; injection He as <-.
    - exists []. split; [done|]. intros s s' Hs. unfold decodeBigInt, dbind. by rewrite Hs.
    - destruct (bigBytes_spec i ltac:(lia)) as (Hv & x & l & Hb & Hx). exists (bigBytes i). split; [done|].
      intros s s' Hs. unfold decodeBigInt, dbind. rewrite Hs, Hb, (proj2 (Z.eqb_neq x 0)) by lia.
      unfold dret. by rewrite <- Hb, Hv. }
  assert (is_u64 (Z.of_nat (length c))) as Huc.
  { destruct (encStr_kind c) as [Hek Hk]. rewrite Hek, encKind_head, length_app in Hu by done. unfold is_u64 in *. lia. }
  destruct (decodes_wrapped _ _ _ (Bytes_decodes c Huc)) as (k & c' & He' & Hk & Hu' & Hd).
  exists k, c'. split_and!; [done..|]. intros rest s s1 Ha. destruct (Hd _ _ _ Ha) as (s' & Hs & Hm). eauto.
Qed.

Lemma bool_decodes b : decodes Stream_Bool b [if b then 1%Z else 128%Z].
Proof.
  destruct (uint_decodes 8 (if b then 1 else 0)) as (k & c & He & Hk & Hu & Hd); [by left|by destruct b|].
  exists k, c. split_and!; [by rewrite <- He; destruct b|done..|].
  intros rest s s1 Ha. destruct (Hd _ _ _ Ha) as (s' & Hs & Hm). exists s'. split; [|done].
  unfold Stream_Bool, dbind. rewrite Hs. by destruct b.
Qed.

(** All byte arrays but the single zero byte, whose error path leaves the tag armed. *)
Lemma byteArray_decodes c : c ≠ [0%Z] → is_u64 (Z.of_nat (length c)) →
  decodes (decodeByteArray (length c)) c (encStr c).
Proof.
  intros Hz Hu. destruct (encStr_kind c) as [He Hk]. exists (strKind c), c. split_and!; [done..|].
  intros rest s s1 Ha. unfold decodeByteArray. rewrite (ahead_bind _ _ _ _ _ _ Ha). unfold strKind in *. simpl.
  destruct (singleByte c) eqn:Hs; cbn [payload] in *.
  - pose proof (ah_byte _ _ _ _ _ Ha eq_refl) as Hc. rewrite Hc. simpl.
    unfold Stream_Uint, Stream_uint, uintOf. rewrite (ahead_bind _ _ _ _ _ _ (ahead_pending _ _ _ _ _ Ha)). simpl.
    rewrite (proj2 (Z.eqb_neq _ 0)) by congruence. eexists. split; [reflexivity|]. apply shifted_rearm.
  - rewrite Z.ltb_irrefl. destruct (ahead_readFull _ _ _ _ _ Ha ltac:(done)) as (s' & Hf & Hm).
    exists s'. split; [|done]. unfold dbind. rewrite Hf. destruct c as [|x [|]]; try done. simpl in Hs. by rewrite Hs.
Qed.

(** [Raw] gives back what was read unless it is a string of 56 bytes or more. *)
Lemma raw_decodes k c : kindOK k c = true → is_u64 (Z.of_nat (length c)) →
  (k = String_ → (length c < 56)%nat) → decodes Stream_Raw (encKind k c) (encKind k c).
Proof.
  intros Hk Hu Hs. exists k, c. split_and!; [done..|].
  intros rest s s1 Ha. unfold Stream_Raw. rewrite (ahead_bind _ _ _ _ _ _ Ha). rewrite (encKind_head k c Hk).
  destruct k; cbn [fst snd payload kindHead] in *.
  - exists (s1 <| sKind := None |>). pose proof (ah_byte _ _ _ _ _ Ha eq_refl) as Hc. rewrite Hc at 1.
    split; [done|]. apply shifted_rearm.
  - destruct (ahead_readFull _ _ _ _ _ Ha ltac:(done)) as (s' & Hf & Hm). exists s'. split; [|done].
    unfold dbind. rewrite Hf. specialize (Hs eq_refl). by rewrite !puthead_small by lia.
  - destruct (ahead_readFull _ _ _ _ _ Ha ltac:(done)) as (s' & Hf & Hm). exists s'. split; [|done].
    unfold dbind. by rewrite Hf.
Qed.

(** ** Lists *)

(** The innermost list ends exactly [n] bytes ahead. *)
Definition exact (n : Z) (s : Stream) : Prop :=
  (∃ tos outer, sStack s = tos :: outer ∧ lpPos tos + n = lpSize tos)%Z ∧
  (sLimited s = true → (n ≤ sRemaining s)%Z).

Lemma exact_room n s : exact n s → room n s.
Proof. intros [(tos & outer & Hs & He) Hl]. split; [rewrite Hs; lia|done]. Qed.

Lemma shifted_exact n m s s' : shifted n s s' → exact (n + m) s → exact m s'.
Proof.
  intros [_ Hr Hl Hs] [(tos & outer & Ht & He) Hlim]. split.
  - rewrite Hs, Ht. simpl. eexists _, _. split; [done|]. simpl. lia.
  - rewrite Hl, Hr. intros E. rewrite E in *. specialize (Hlim eq_refl). lia.
Qed.

(** [body] reads the elements [vs], encoded as [c], of a list that ends after them. *)
Definition bodyOK {A} (body : D A) (vs : A) (c : bytes) : Prop :=
  ∀ rest s, streamOK s → sKind s = None → exact (Z.of_nat (length c)) s → sInput s = c ++ rest →
    ∃ s', body s = (DOk vs, s') ∧ moved (Z.of_nat (length c)) s s'.

(** [dec] reports the end of the innermost list and reads nothing. *)
Definition atEnd {A} (dec : D A) : Prop :=
  ∀ s, sKind s = None → atEOL s = true → ∃ s', dec s = (DErr EOL, s') ∧ moved 0 s s'.

Lemma exact_atEOL s : exact 0 s → atEOL s = true.
Proof. intros [(tos & outer & Hs & He) _]. unfold atEOL. rewrite Hs. apply Z.eqb_eq. lia. Qed.

(** Reading one value where one starts. *)
Lemma decodes_fresh {A} (dec : D A) v e rest s : decodes dec v e → streamOK s → sKind s = None →
  room (Z.of_nat (length e)) s → sInput s = e ++ rest →
  ∃ s', dec s = (DOk v, s') ∧ moved (Z.of_nat (length e)) s s'.
Proof.
  intros (k & c & -> & Hk & Hu & Hd) Hok Hn Hr Hi.
  destruct (ahead_fresh k c rest s Hk Hu Hok Hn Hr Hi) as (s1 & Ha & Hsh).
  destruct (Hd _ _ _ Ha) as (s' & Hs & [Hm Hk']). exists s'. split; [done|]. split; [|done].
  assert (Z.of_nat (length (payload k c)) ≤ Z.of_nat (length (encKind k c)))%Z.
  { rewrite encKind_head, length_app by done. destruct k; simpl; lia. }
  replace (Z.of_nat (length (encKind k c))) with
    (Z.of_nat (length (encKind k c)) - Z.of_nat (length (payload k c)) + Z.of_nat (length (payload k c)))%Z by lia.
  eapply shifted_trans; [lia|lia|done|done].
Qed.

(** One element of a list, and the state in which the next one is read. *)
Lemma decodes_step {A} (dec : D A) v e c rest s : decodes dec v e → streamOK s → sKind s = None →
  exact (Z.of_nat (length (e ++ c))) s → sInput s = (e ++ c) ++ rest →
  ∃ s', dec s = (DOk v, s') ∧ moved (Z.of_nat (length e)) s s' ∧ streamOK s' ∧
    exact (Z.of_nat (length c)) s' ∧ sInput s' = c ++ rest.
Proof.
  intros Hd Hok Hn He Hi. rewrite length_app, Nat2Z.inj_add in He. rewrite <- app_assoc in Hi.
  assert (room (Z.of_nat (length e)) s) as Hr by (eapply room_mono; [|apply exact_room, He]; lia).
  destruct (decodes_fresh dec v e (c ++ rest) s Hd Hok Hn Hr Hi) as (s' & Hs & Hm). exists s'.
  split_and!; [done|done| | |].
  - eapply shifted_ok; [|done|done|apply Hm]. lia.
  - eapply shifted_exact; [apply Hm|done].
  - destruct Hm as [[-> _ _ _] _]. by rewrite Hi, Nat2Z.id, drop_app_length.
Qed.

Lemma moved_trans n m s s1 s2 : (0 ≤ n)%Z → (0 ≤ m)%Z →
  moved n s s1 → moved m s1 s2 → moved (n + m) s s2.
Proof. intros ?? [H1 _] [H2 ?]. split; [by eapply shifted_trans|done]. Qed.

(** A body that reads one element and goes on. *)
Lemma bodyOK_cons (dec : D gval) (body : D (list gval)) (step : D (list gval)) v e vs c :
  decodes dec v e → bodyOK body vs c →
  (∀ s s1, dec s = (DOk v, s1) → step s = (vs <~ body ;; dret (v :: vs)) s1) →
  bodyOK step (v :: vs) (e ++ c).
Proof.
  intros Hd Hb Hstep rest s Hok Hn He Hi.
  destruct (decodes_step dec v e c rest s Hd Hok Hn He Hi) as (s1 & Hs & Hm & Hok1 & He1 & Hi1).
  destruct (Hb rest s1 Hok1 (proj2 Hm) He1 Hi1) as (s2 & Hs2 & Hm2). exists s2.
  rewrite (Hstep _ _ Hs). unfold dbind. rewrite Hs2. split; [done|].
  rewrite length_app, Nat2Z.inj_add. eapply moved_trans; [lia|lia|done|done].
Qed.

Lemma sliceElems_ok dec fuel vs es :
  atEnd dec → Forall2 (decodes dec) vs es → (length vs < fuel)%nat →
  bodyOK (decodeSliceElems dec fuel) vs (concat es).
Proof.
  intros Hend Hd. revert fuel. induction Hd as [|v e vs es Hv Hd IH]; intros [|fuel] Hf; simpl in Hf; try lia.
  - intros rest s Hok Hn He Hi. destruct (Hend s Hn (exact_atEOL s He)) as (s' & Hs & Hm).
    exists s'. simpl. by rewrite Hs.
  - eapply (bodyOK_cons dec (decodeSliceElems dec fuel)); [done|apply IH; lia|].
    intros s s1 Hs. simpl. by rewrite Hs.
Qed.

Lemma arrayElems_ok dec vs es : Forall2 (decodes dec) vs es →
  bodyOK (decodeArrayElems dec (length vs)) vs (concat es).
Proof.
  induction 1 as [|v e vs es Hv Hd IH].
  - intros rest s Hok Hn He Hi. exists s. split; [done|]. split; [by apply shifted_same|done].
  - eapply (bodyOK_cons dec); [done|exact IH|]. intros s s1 Hs. simpl. by rewrite Hs.
Qed.

(** Opening and closing a list around a body. *)
Lemma list_open c rest s s1 : ahead List_ c rest s s1 → is_u64 (Z.of_nat (length c)) →
  ∃ s2, Stream_List s = (DOk (Z.of_nat (length c)), s2) ∧ streamOK s2 ∧ sKind s2 = None ∧
    exact (Z.of_nat (length c)) s2 ∧ sInput s2 = c ++ rest ∧
    ∀ s3, moved (Z.of_nat (length c)) s2 s3 →
      ∃ s', Stream_ListEnd s3 = (DOk tt, s') ∧ moved (Z.of_nat (length c)) s1 s'.
Proof.
  intros Ha Hu. unfold Stream_List. rewrite (ahead_bind _ _ _ _ _ _ Ha).
  destruct Ha as [_ _ [Hst Hrem] [Hr Hl] Hi _]. cbn [payload fst snd] in *. rewrite bool_decide_false by auto.
  set (n := Z.of_nat (length c)) in *.
  eexists. split; [reflexivity|]. split_and!; [|done| |done|].
  - split; [|done]. simpl. constructor; [|done]. simpl. unfold is_u64 in *. lia.
  - split; [|done]. simpl. eexists _, _. split; [done|]. simpl. lia.
  - intros s3 [[Hi3 Hr3 Hl3 Hs3] _]. simpl in *. unfold Stream_ListEnd. rewrite Hs3. simpl.
    rewrite Z.eqb_refl. simpl. eexists. split; [reflexivity|]. split; [|done]. split; simpl; [done..|].
    destruct (sStack s1) as [|o l]; [done|]. simpl in *. apply Forall_cons in Hst as [[? ?] _].
    by rewrite u64_small by (unfold is_u64 in *; lia).
Qed.

Lemma struct_decodes body vs c : bodyOK body vs c → is_u64 (Z.of_nat (length c)) →
  decodes (decodeStruct body) vs (encList c).
Proof.
  intros Hb Hu. exists List_, c. split_and!; [done..|]. intros rest s s1 Ha.
  destruct (list_open _ _ _ _ Ha Hu) as (s2 & Hl & Hok & Hn & He & Hi & Hend).
  destruct (Hb rest s2 Hok Hn He Hi) as (s3 & Hs & Hm). destruct (Hend s3 Hm) as (s' & Hle & Hm').
  exists s'. split; [|done]. unfold decodeStruct, dbind, wrapped. by rewrite Hl, Hs, Hle.
Qed.

Lemma listSlice_ahead dec fuel vs es rest s s1 :
  atEnd dec → Forall2 (decodes dec) vs es → (length vs < fuel)%nat →
  is_u64 (Z.of_nat (length (concat es))) → ahead List_ (concat es) rest s s1 →
  ∃ s', decodeListSlice dec fuel s = (DOk vs, s') ∧ moved (Z.of_nat (length (concat es))) s1 s'.
Proof.
  intros Hend Hd Hf Hu Ha.
  destruct (list_open _ _ _ _ Ha Hu) as (s2 & Hl & Hok & Hn & He & Hi & Hle). unfold decodeListSlice, wrapped.
  unfold dbind at 1. rewrite Hl. destruct (Z.eqb_spec (Z.of_nat (length (concat es))) 0) as [H0|H0].
  - assert (vs = []) as ->.
    { destruct Hd as [|v e vs es (k & c & -> & Hk & _) _]; [done|]. pose proof (encKind_nonempty k c Hk).
      simpl in H0. rewrite length_app in H0. lia. }
    destruct (Hle s2) as (s' & He' & Hm'); [rewrite H0; split; [by apply shifted_same|done]|].
    exists s'. split; [|done]. unfold dbind. by rewrite He'.
  - destruct (sliceElems_ok dec fuel vs es Hend Hd Hf rest s2 Hok Hn He Hi) as (s3 & Hs & Hm).
    destruct (Hle s3 Hm) as (s' & He' & Hm'). exists s'. split; [|done]. unfold dbind. by rewrite Hs, He'.
Qed.

Lemma listSlice_decodes dec fuel vs es :
  atEnd dec → Forall2 (decodes dec) vs es → (length vs < fuel)%nat →
  is_u64 (Z.of_nat (length (concat es))) →
  decodes (decodeListSlice dec fuel) vs (encList (concat es)).
Proof.
  intros Hend Hd Hf Hu. exists List_, (concat es). split_and!; [done..|].
  intros rest s s1 Ha. by eapply listSlice_ahead.
Qed.

(** ** The end of a list *)

Lemma atEnd_Kind : atEnd Stream_Kind.
Proof.
  intros s Hn He. unfold Stream_Kind. rewrite Hn. change (atEOL (s <| sKinderr := None |>)) with (atEOL s).
  rewrite He. eexists. split; [reflexivity|]. split; [by apply shifted_same|done].
Qed.

Lemma atEnd_bind {A B} (m : D A) (f : A → D B) : atEnd m → atEnd (dbind m f).
Proof. intros Hm s Hn He. destruct (Hm s Hn He) as (s' & Hs & Hmv). exists s'. unfold dbind. by rewrite Hs. Qed.

Lemma atEnd_wrapped {A} (m : D A) : atEnd m → atEnd (wrapped m).
Proof. intros Hm s Hn He. destruct (Hm s Hn He) as (s' & Hs & Hmv). exists s'. unfold wrapped. by rewrite Hs. Qed.

Create HintDb rlp.
#[export] Hint Resolve atEnd_Kind atEnd_bind atEnd_wrapped : rlp.
#[export] Hint Unfold Stream_Bytes Stream_Raw Stream_Bool Stream_uint Stream_List decodeBigInt
  decodeByteArray decodeListSlice decodeListArray decodeStruct decodeRawValue decodeUint decodeBool
  decodeString decodeByteSlice decodeMap : rlp.

Lemma atEnd_interface f : atEnd (decodeInterface (S f)).
Proof.
  intros s Hn He. destruct (atEnd_Kind s Hn He) as (s' & Hs & Hm). exists s'. simpl.
  unfold dbind at 1. by rewrite Hs.
Qed.

Lemma atEnd_optionalPtr nil dec : atEnd (optionalPtr nil dec).
Proof.
  intros s Hn He. destruct (atEnd_Kind s Hn He) as (s' & Hs & Hm). unfold optionalPtr. rewrite Hs.
  eexists. split; [reflexivity|]. destruct Hm as [[] ?]. by split.
Qed.

#[export] Hint Resolve atEnd_interface atEnd_optionalPtr : rlp.

(** Types of values (a "tail" field is none: it reads the rest of a list). *)
Fixpoint isElem (t : gtyp) : bool :=
  match t with TyTail _ => false | TyPtr t => isElem t | _ => true end.

Lemma atEnd_decode r f t : isElem t = true → atEnd (decode r (S f) t).
Proof.
  induction t; intros Ht; try done; cbn [decode];
    try (autounfold with rlp; eauto 7 with rlp; fail). 
Qed.

(** ** Values of a type that are read back as they were *)

Definition isTail (t : gtyp) : bool := match t with TyTail _ => true | _ => false end.

(** [v] is a value of type [t].  Left out are: raw strings of 56 bytes or more and
    the array of one zero byte (which the decoder mishandles), nil pointers without
    the "nil" tag (which are read as pointers to a zero value), and maps. *)
Fixpoint hasType (t : gtyp) (v : gval) : Prop :=
  match t, v with
  | TyRaw, VRaw b => ∃ k c, b = encKind k c ∧ kindOK k c = true ∧ (k = String_ → (length c < 56)%nat)
  | TyBigIntPtr, VBigIntPtr (Some i) | TyBigInt, VBigInt i => True
  | TyUint bits, VUint i => uintBits bits ∧ (0 ≤ i < 2 ^ bits)%Z
  | TyBool, VBool _ | TyString, VString _ | TyBytes, VBytes _ => True
  | TyByteArray n, VByteArray b => length b = n ∧ b ≠ [0%Z]
  | TyArray n t, VSlice l => isElem t = true ∧ length l = n ∧ Forall (hasType t) l
  | TySlice t, VSlice l => isElem t = true ∧ Forall (hasType t) l
  | TyTail t, VTail l => isElem t = true ∧ Forall (hasType t) l
  | TyStruct ts, VStruct l =>
      (fix go ts l := match ts, l with
                      | [], [] => True
                      | t :: ts', v :: l' => hasType t v ∧ (isTail t = true → ts' = []) ∧ go ts' l'
                      | _, _ => False
                      end) ts l
  | TyPtr t, VPtr v => isElem t = true ∧ hasType t v
  | TyPtrNil t, VPtr v => isElem t = true ∧ hasType t v ∧ ∀ e, encoding v = Ok e → e ≠ [128%Z] ∧ e ≠ [192%Z]
  | TyPtrNil t, v => v = zeroOf (TyPtrNil t) ∧ (encoding v = Ok [128%Z] ∨ encoding v = Ok [192%Z])
  | TyInterface, v => ∃ x, v = ofItem x
  | _, _ => False
  end.

(** The same conditions for the fields of a struct. *)
Fixpoint hasFields (ts : list gtyp) (l : list gval) : Prop :=
  match ts, l with
  | [], [] => True
  | t :: ts', v :: l' => hasType t v ∧ (isTail t = true → ts' = []) ∧ hasFields ts' l'
  | _, _ => False
  end.

Lemma gtyp_nested_ind (P : gtyp → Prop) :
  P TyRaw → P TyBigIntPtr → P TyBigInt → (∀ bits, P (TyUint bits)) → P TyBool → P TyString → P TyBytes →
  (∀ n, P (TyByteArray n)) → (∀ n t, P t → P (TyArray n t)) → (∀ t, P t → P (TySlice t)) →
  (∀ t, P t → P (TyTail t)) → (∀ ts, Forall P ts → P (TyStruct ts)) → (∀ t, P t → P (TyPtr t)) →
  (∀ t, P t → P (TyPtrNil t)) → P TyInterface → P TyMap → ∀ t, P t.
Proof.
  intros H1 H2 H3 H4 H5 H6 H7 H8 H9 H10 H11 H12 H13 H14 H15 H16. fix IH 1.
  intros [| | |bits| | | |n|n t|t|t|ts|t|t| |];
    [done|done|done|apply H4|done|done|done|apply H8|apply H9, IH|apply H10, IH|apply H11, IH|
     apply H12|apply H13, IH|apply H14, IH|done|done].
  induction ts as [|t ts IHts]; constructor; [apply IH|exact IHts].
Qed.

(** What the encoder does with a list of values. *)
Lemma encSeq_Forall2 l c : encSeq encoding l = Ok c →
  ∃ es, Forall2 (fun v e => encoding v = Ok e) l es ∧ c = concat es.
Proof.
  revert c. induction l as [|v l IH]; intros c; simpl.
  { intros [= <-]. by exists []. }
  destruct (encoding v) as [e|] eqn:He; [|done]. destruct (encSeq encoding l) as [c'|] eqn:Hc; [|done].
  intros [= <-]. destruct (IH c' eq_refl) as (es & Hf & ->). exists (e :: es). split; [by constructor|done].
Qed.

Lemma mapOk_Ok {A B} (f : A → B) r b : mapOk f r = Ok b → ∃ a, r = Ok a ∧ b = f a.
Proof. destruct r; [intros [= <-]; eauto|done]. Qed.

Lemma encList_length c : (length c < length (encList c))%nat.
Proof. unfold encList. rewrite length_app. unfold puthead. case_match; simpl; lia. Qed.

Lemma encStr_length c : (length c ≤ length (encStr c))%nat.
Proof. destruct (encStr_kind c) as [-> Hk]. rewrite encKind_head, length_app by done. lia. Qed.

(** The round trip of the elements, given that of their type. *)
Lemma elems_decodes (P : gval → Prop) dec (n : nat) l es :
  (∀ v e, P v → encoding v = Ok e → (length e ≤ n)%nat → decodes dec v e) →
  Forall P l → Forall2 (fun v e => encoding v = Ok e) l es → (length (concat es) ≤ n)%nat →
  Forall2 (decodes dec) l es ∧ (length l ≤ length (concat es))%nat.
Proof.
  intros Hdec HP Hf. revert HP. induction Hf as [|v e l es He Hf IH]; intros HP Hn; simpl; [by split; [constructor|lia]|].
  apply Forall_cons in HP as [Hv HP]. simpl in Hn. rewrite length_app in *.
  destruct (IH HP ltac:(lia)) as [IH1 IH2].
  assert (decodes dec v e) as Hd by (apply Hdec; [done|done|lia]). split; [by constructor|].
  destruct Hd as (k & c & -> & Hk & _). pose proof (encKind_nonempty k c Hk). lia.
Qed.

Lemma u64_le n m : is_u64 (Z.of_nat m) → (n ≤ m)%nat → is_u64 (Z.of_nat n).
Proof. unfold is_u64. lia. Qed.

Lemma decodeInterface_S f s :
  decodeInterface (S f) s =
  (ks <~ Stream_Kind ;;
   match ks.1 with
   | List_ => slice <~ decodeListSlice (decodeInterface f) f ;; dret (VInterface (Some (VSlice slice)))
   | _ => b <~ Stream_Bytes ;; dret (VInterface (Some (VBytes b)))
   end) s.
Proof. done. Qed.

Lemma item_decodes x fuel : is_u64 (Z.of_nat (length (encItem x))) → (length (encItem x) < fuel)%nat →
  decodes (decodeInterface fuel) (ofItem x) (encItem x).
Proof.
  revert fuel. induction x as [b|l IH] using item_nested_ind; intros [|f] Hu Hf; try lia.
  - simpl encItem in *. pose proof (encStr_length b). destruct (encStr_kind b) as [He Hk].
    exists (strKind b), b. split_and!; [done|done|by eapply u64_le|]. intros rest s s1 Ha. rewrite decodeInterface_S.
    rewrite (ahead_bind _ _ _ _ _ _ Ha). destruct (Bytes_ahead b rest s1 s1 (ahead_pending _ _ _ _ _ Ha)) as (s' & Hs & Hm).
    exists s'. split; [|done]. unfold strKind in *. unfold dbind. destruct (singleByte b); simpl; by rewrite Hs.
  - rewrite encItem_Lst, ofItem_Lst in *. set (es := map encItem l). change (encItems l) with (concat es) in *.
    pose proof (encList_length (concat es)) as Hlen.
    assert (is_u64 (Z.of_nat (length (concat es)))) as Huc by (eapply u64_le; [exact Hu|lia]).
    destruct f as [|f]; [lia|].
    destruct (elems_decodes (fun v => ∃ y, y ∈ l ∧ v = ofItem y) (decodeInterface (S f)) (length (concat es))
                (map ofItem l) es) as [Hd Hle].
    + intros v e (y & Hy & ->) He Hn. rewrite encoding_ofItem in He. injection He as <-.
      rewrite Forall_forall in IH. apply IH; [done|by eapply u64_le|lia].
    + apply Forall_map, Forall_forall. intros y Hy. by exists y.
    + unfold es. clear. induction l; constructor; [apply encoding_ofItem|done].
    + lia.
    + exists List_, (concat es). split_and!; [done..|]. intros rest s s1 Ha. rewrite decodeInterface_S.
      rewrite (ahead_bind _ _ _ _ _ _ Ha). cbn [fst].
      destruct (listSlice_ahead (decodeInterface (S f)) (S f) (map ofItem l) es rest s1 s1) as (s' & Hs & Hm);
        [apply atEnd_interface|done|lia|done|by eapply ahead_pending|].
      exists s'. split; [|done]. unfold dbind. by rewrite Hs.
Qed.

Lemma hasType_struct ts l : hasType (TyStruct ts) (VStruct l) ↔ hasFields ts l.
Proof. revert l. induction ts as [|t ts IH]; by intros [|v l]. Qed.

Lemma hasType_ptrNil t v : hasType (TyPtrNil t) v →
  (∃ v', v = VPtr v' ∧ isElem t = true ∧ hasType t v' ∧
         ∀ e, encoding v' = Ok e → e ≠ [128%Z] ∧ e ≠ [192%Z]) ∨
  (v = zeroOf (TyPtrNil t) ∧ (encoding v = Ok [128%Z] ∨ encoding v = Ok [192%Z])).
Proof. destruct v; try (intros Hv; right; exact Hv). intros Hv. left. eexists. split; [done|exact Hv]. Qed.

Section roundtrip.
Context (remarshal : bytes → bytes).

(** The round trip of a type: as a value, or, for a "tail" field, as the rest of a list. *)
Definition readsBack (t : gtyp) : Prop :=
  ∀ v e fuel, hasType t v → encoding v = Ok e → is_u64 (Z.of_nat (length e)) → (length e < fuel)%nat →
    if isTail t then bodyOK (decode remarshal fuel t) v e else decodes (decode remarshal fuel t) v e.

Lemma isElem_isTail t : isElem t = true → isTail t = false.
Proof. by destruct t. Qed.

Lemma readsBack_elem t v e fuel : readsBack t → isElem t = true → hasType t v → encoding v = Ok e →
  is_u64 (Z.of_nat (length e)) → (length e < fuel)%nat → decodes (decode remarshal fuel t) v e.
Proof. intros Hr Ht Hv He Hu Hf. specialize (Hr v e fuel Hv He Hu Hf). by rewrite isElem_isTail in Hr. Qed.

Lemma readsBack_elems t l es fuel :
  readsBack t → isElem t = true → Forall (hasType t) l → Forall2 (fun v e => encoding v = Ok e) l es →
  is_u64 (Z.of_nat (length (concat es))) → (length (concat es) < fuel)%nat →
  Forall2 (decodes (decode remarshal fuel t)) l es ∧ (length l < fuel)%nat.
Proof.
  intros Hr Ht Hl He Hu Hf.
  destruct (elems_decodes (hasType t) (decode remarshal fuel t) (length (concat es)) l es) as [Hd Hle];
    [|done|done|lia|split; [done|lia]].
  intros v e Hv Hve Hn. apply readsBack_elem; [done..|by eapply u64_le|lia].
Qed.

Lemma fields_ok ts l es fuel :
  Forall readsBack ts → hasFields ts l → Forall2 (fun v e => encoding v = Ok e) l es →
  is_u64 (Z.of_nat (length (concat es))) → (length (concat es) < fuel)%nat →
  bodyOK (decodeFields (decode remarshal fuel) ts) l (concat es).
Proof.
  intros Hr. revert l es. induction Hr as [|t ts Ht Hr IH]; intros l es Hl He Hu Hf.
  { destruct l; [|done]. apply Forall2_nil_inv_l in He as ->. intros rest s _ Hn _ _.
    exists s. split; [done|]. split; [by apply shifted_same|done]. }
  destruct l as [|v l]; [done|]. destruct Hl as (Hv & Htl & Hl).
  apply Forall2_cons_inv_l in He as (e & es' & Hve & He & ->). cbn [concat] in *. rewrite length_app in *.
  specialize (Ht v e fuel Hv Hve ltac:(eapply u64_le; [exact Hu|lia]) ltac:(lia)).
  assert (bodyOK (decodeFields (decode remarshal fuel) ts) l (concat es')) as Hbody
    by (apply IH; [done|done|eapply u64_le; [exact Hu|lia]|lia]).
  destruct (isTail t) eqn:Et.
  - specialize (Htl eq_refl). subst ts. destruct l; [|done].
    apply Forall2_nil_inv_l in He as ->. cbn [concat]. rewrite app_nil_r. intros rest s Hok Hn Hx Hi.
    destruct (Ht rest s Hok Hn Hx Hi) as (s' & Hs & Hm). exists s'. split; [|done]. simpl. by rewrite Hs.
  - eapply bodyOK_cons; [exact Ht|exact Hbody|]. intros s s1 Hs. simpl. by rewrite Hs.
Qed.

(** A pointer with the "nil" tag to a value that is not empty. *)
Lemma optionalPtr_decodes nil (dec : D gval) v e : decodes dec v e → e ≠ [128%Z] → e ≠ [192%Z] →
  decodes (optionalPtr nil dec) (VPtr v) e.
Proof.
  intros (k & c & He & Hk & Hu & Hd) H1 H2. exists k, c. split_and!; [done..|]. intros rest s s1 Ha.
  unfold optionalPtr. rewrite (ah_kind _ _ _ _ _ Ha).
  assert (((Z.of_nat (length (payload k c)) =? 0)%Z && bool_decide (k ≠ Byte)) = false) as ->.
  { destruct k; [by rewrite andb_false_r|..]; (destruct c; [by subst e|done]). }
  destruct (Hd rest s1 s1 (ahead_pending _ _ _ _ _ Ha)) as (s' & Hs & Hm). exists s'. split; [|done].
  unfold dbind. by rewrite Hs.
Qed.

(** A nil pointer with the "nil" tag. *)
Lemma optionalPtr_nil nil dec e : e = [128%Z] ∨ e = [192%Z] → decodes (optionalPtr nil dec) nil e.
Proof.
  intros He.
  assert (∃ k, e = encKind k [] ∧ k ≠ Byte ∧ kindOK k [] = true) as (k & -> & Hk & Hok).
  { destruct He as [-> | ->]; [by exists String_|by exists List_]. }
  exists k, []. split_and!; [done..|]. intros rest s s1 Ha. unfold optionalPtr. rewrite (ah_kind _ _ _ _ _ Ha).
  rewrite bool_decide_true by done. destruct k; [done|..]; (eexists; split; [reflexivity|]; apply shifted_rearm).
Qed.

Lemma readsBack_all t : readsBack t.
Proof.
  induction t as [| | |bits| | | |n|n t IH|t IH|t IH|ts IH|t IH|t IH| |] using gtyp_nested_ind;
    intros v e fuel Hv He Hu Hf; cbn [isTail decode]; (destruct fuel as [|fuel]; [lia|]).
  - destruct v; try done. destruct Hv as (k & c & -> & Hk & Hs). injection He as <-. apply decodes_map.
    apply raw_decodes; [done| |done]. eapply u64_le; [exact Hu|]. rewrite encKind_head, length_app by done. lia.
  - destruct v as [| |[i|]| | | | | | | | | | | | | | ]; try done. apply (decodes_map (fun i => VBigIntPtr (Some i))).
    by apply bigInt_decodes.
  - destruct v; try done. apply (decodes_map VBigInt). by apply bigInt_decodes.
  - destruct v; try done. destruct Hv. injection He as <-. apply (decodes_map VUint), decodes_wrapped. by apply uint_decodes.
  - destruct v; try done. injection He as <-. apply (decodes_map VBool), decodes_wrapped, bool_decodes.
  - destruct v; try done. injection He as <-. apply (decodes_map VString), decodes_wrapped, Bytes_decodes.
    eapply u64_le; [exact Hu|apply encStr_length].
  - destruct v; try done. injection He as <-. apply (decodes_map VBytes), decodes_wrapped, Bytes_decodes.
    eapply u64_le; [exact Hu|apply encStr_length].
  - destruct v; try done. destruct Hv as [<- Hz]. injection He as <-. apply (decodes_map VByteArray).
    apply byteArray_decodes; [done|]. eapply u64_le; [exact Hu|apply encStr_length].
  - destruct v as [| | | | | | | | |l| | | | | | | ]; try done. destruct Hv as (Ht & <- & Hl).
    apply mapOk_Ok in He as (c & (es & Hes & ->)%encSeq_Forall2 & ->). pose proof (encList_length (concat es)).
    apply (decodes_map VSlice). assert (is_u64 (Z.of_nat (length (concat es)))) by (eapply u64_le; [exact Hu|lia]).
    apply struct_decodes; [|done]. apply arrayElems_ok. by apply (readsBack_elems t); [..|lia].
  - destruct v as [| | | | | | | | |l| | | | | | | ]; try done. destruct Hv as (Ht & Hl).
    apply mapOk_Ok in He as (c & (es & Hes & ->)%encSeq_Forall2 & ->). pose proof (encList_length (concat es)).
    apply (decodes_map VSlice). assert (is_u64 (Z.of_nat (length (concat es)))) by (eapply u64_le; [exact Hu|lia]).
    destruct (readsBack_elems t l es (S fuel)) as [Hd Hle]; [done..|lia|].
    apply listSlice_decodes; [by apply atEnd_decode|done..].
  - destruct v as [| | | | | | | | | |l| | | | | | ]; try done. destruct Hv as (Ht & Hl).
    apply encSeq_Forall2 in He as (es & Hes & ->).
    destruct (readsBack_elems t l es (S fuel)) as [Hd Hle]; [done..|].
    intros rest s Hok Hn Hx Hi.
    destruct (sliceElems_ok _ (S fuel) l es (atEnd_decode remarshal fuel t Ht) Hd Hle rest s Hok Hn Hx Hi) as (s' & Hs & Hm).
    exists s'. split; [|done]. unfold dbind. by rewrite Hs.
  - destruct v as [| | | | | | | | | | |l| | | | | ]; try done. apply hasType_struct in Hv.
    apply mapOk_Ok in He as (c & (es & Hes & ->)%encSeq_Forall2 & ->). pose proof (encList_length (concat es)).
    apply (decodes_map VStruct). assert (is_u64 (Z.of_nat (length (concat es)))) by (eapply u64_le; [exact Hu|lia]).
    apply struct_decodes; [|done]. by apply fields_ok; [..|lia].
  - destruct v; try done. destruct Hv as [Ht Hv]. apply (decodes_map VPtr). by apply readsBack_elem.
  - apply hasType_ptrNil in Hv as [(v' & -> & Ht & Hv & Hne)|[-> Hv]].
    + destruct (Hne e He). apply optionalPtr_decodes; [|done..]. by apply readsBack_elem.
    + apply optionalPtr_nil. rewrite He in Hv. destruct Hv as [[= ->]|[= ->]]; auto.
  - assert (∃ x, v = ofItem x) as [x ->] by (by destruct v).
    rewrite encoding_ofItem in He. injection He as <-. by apply item_decodes.
  - by destruct v.
Qed.

End roundtrip.

Lemma zeroOf_wt t : wtVal (zeroOf t).
Proof.
  induction t as [| | |bits| | | |n|n t IH|t IH|t IH|ts IH|t IH|t IH| |] using gtyp_nested_ind;
    simpl; try done.
  - apply wtVal_Forall. by apply Forall_replicate.
  - apply wtVal_Forall. by apply Forall_map.
  - by destruct t.
  - by destruct t.
Qed.

Lemma hasType_wt t v : hasType t v → wtVal v.
Proof.
  revert v. induction t as [| | |bits| | | |n|n t IH|t IH|t IH|ts IH|t IH|t IH| |] using gtyp_nested_ind;
    intros v Hv; try (by destruct v).
  - destruct v; try done. destruct Hv as [Hb Hi]. simpl. unfold is_u64, two64.
    destruct Hb as [->|[->|[->| ->]]]; lia.
  - destruct v; try done. destruct Hv as (_ & _ & Hl). apply wtVal_Forall. by eapply Forall_impl.
  - destruct v; try done. destruct Hv as (_ & Hl). apply wtVal_Forall. by eapply Forall_impl.
  - destruct v; try done. destruct Hv as (_ & Hl). apply wtVal_Forall. by eapply Forall_impl.
  - destruct v as [| | | | | | | | | | |l| | | | | ]; try done. apply hasType_struct in Hv. apply wtVal_Forall.
    revert l Hv. induction IH as [|t ts Ht IH IHl]; intros [|v l] Hl; try done. destruct Hl as (Hv & _ & Hl).
    constructor; [by apply Ht|by apply IHl].
  - destruct v; try done. destruct Hv as [_ Hv]. exact (IH _ Hv).
  - apply hasType_ptrNil in Hv as [(v' & -> & _ & Hv & _)|[-> _]]; [exact (IH _ Hv)|apply zeroOf_wt].
  - assert (∃ x, v = ofItem x) as [x ->] by (by destruct v). apply wtVal_ofItem.
Qed.

(** ** The properties *)

Lemma NewStream_ok b : (Z.of_nat (length b) < two64)%Z →
  let s := NewStream b (Z.of_nat (length b)) in
  streamOK s ∧ sKind s = None ∧ room (Z.of_nat (length b)) s ∧ sInput s = b ++ [].
Proof.
  intros Hb. simpl. unfold NewStream.
  replace (if (0 <? Z.of_nat (length b))%Z then Z.of_nat (length b) else Z.of_nat (length b))
    with (Z.of_nat (length b)) by (by case_match).
  split_and!; [|done| |by rewrite app_nil_r].
  - split; [done|]. simpl. unfold is_u64. lia.
  - split; [done|]. simpl. lia.
Qed.

Lemma decodes_DecodeBytes r t v e : (Z.of_nat (length e) < two64)%Z →
  decodes (decode r (S (length e)) t) v e → DecodeBytes r e t = DOk v.
Proof.
  intros Hl Hd. destruct (NewStream_ok e Hl) as (Hok & Hn & Hr & Hi).
  destruct (decodes_fresh _ _ _ _ _ Hd Hok Hn Hr Hi) as (s' & Hs & [[Hin _ _ _] _]).
  unfold DecodeBytes. rewrite Hs, Hin, Hi, Nat2Z.id, drop_app_length. done.
Qed.

(** What [EncodeToBytes] wrote is decoded from a stream over it, and used up. *)
Lemma decode_encoded r t v e :
  isElem t = true → hasType t v → EncodeToBytes v = Ok e → (Z.of_nat (length e) < two64)%Z →
  ∃ s', decode r (S (length e)) t (NewStream e (Z.of_nat (length e))) = (DOk v, s') ∧ sInput s' = [].
Proof.
  intros Ht Hv He Hl. rewrite EncodeToBytes_encoding in He by by eapply hasType_wt.
  assert (Hd : decodes (decode r (S (length e)) t) v e)
    by (apply readsBack_elem; [apply readsBack_all|done..|unfold is_u64; lia|lia]).
  destruct (NewStream_ok e Hl) as (Hok & Hn & Hr & Hi).
  destruct (decodes_fresh _ _ _ _ _ Hd Hok Hn Hr Hi) as (s' & Hs & [[Hin _ _ _] _]).
  exists s'. split; [done|]. by rewrite Hin, Hi, Nat2Z.id, drop_app_length.
Qed.


(** [Raw] does not give back what it read when that is a string of 56 bytes or more:
    it announces one length byte too many (0xB8 instead of 0xB7 as the base), so the
    raw value differs from the input in its first byte. *)
Theorem Raw_long_string r c :
  (56 ≤ Z.of_nat (length c))%Z → (Z.of_nat (length (encStr c)) < two64)%Z →
  ∃ x l, encStr c = x :: l ∧ DecodeBytes r (encStr c) TyRaw = DOk (VRaw ((x + 1)%Z :: l)).
Proof.
  intros Hn Hl. set (n := Z.of_nat (length c)) in *.
  assert (singleByte c = false) as Hs by (destruct c as [|? [|]]; simpl in *; done || lia).
  assert (is_u64 n) as Hu by (pose proof (encStr_length c); unfold is_u64, n; lia). pose proof (putint_length n).
  exists (183 + Z.of_nat (length (putint n)))%Z, (putint n ++ c).
  assert (encStr c = (183 + Z.of_nat (length (putint n)))%Z :: putint n ++ c) as He.
  { rewrite encStr_multi by done. fold n. by rewrite puthead_large by (done || lia). }
  split; [done|]. apply decodes_DecodeBytes; [done|]. cbn [decode].
  apply decodes_map. exists String_, c. split_and!; [done|by simpl; rewrite Hs|done|].
  intros rest s s1 Ha. unfold Stream_Raw. rewrite (ahead_bind _ _ _ _ _ _ Ha). cbn [fst snd payload].
  destruct (ahead_readFull _ _ _ _ _ Ha ltac:(done)) as (s' & Hf & Hm). exists s'. split; [|done].
  unfold dbind. rewrite Hf. unfold dret. fold n. rewrite puthead_large by (done || lia). simpl. do 3 f_equal. lia.
Qed.

(** ** Instances *)

(** A struct with a [uint64], a two-byte array, a string pointer tagged "nil" (which is
    nil), an [interface{}] holding a list, and a "tail" of byte slices. *)
Definition demoTy : gtyp :=
  TyStruct [TyUint 64; TyByteArray 2; TyPtrNil TyString; TyInterface; TyTail TyBytes].
Definition demoStruct : gval :=
  VStruct [VUint 1024; VByteArray [7; 0]%Z; zeroOf (TyPtrNil TyString); ofItem catDog; VTail [VBytes []; VBytes [200]%Z]].

(** Any [uint64] field. *)
Lemma uint64_typed z : is_u64 z → hasType (TyUint 64) (VUint z).
Proof. intros Hz. split; [unfold uintBits; tauto|done]. Qed.

Lemma demoStruct_type : hasType demoTy demoStruct.
Proof.
  assert (hasType (TyUint 64) (VUint 1024)) by (split; [by right; right; right|done]).
  assert (hasType TyInterface (ofItem catDog)) by by exists catDog.
  assert (hasType (TyPtrNil TyString) (zeroOf (TyPtrNil TyString))) by (split; [done|by left]).
  assert (hasType (TyTail TyBytes) (VTail [VBytes []; VBytes [200]%Z])) by (split; [done|by repeat constructor]).
  by apply hasType_struct.
Qed.


Lemma Raw_long_string_witness :
  ∃ x l, encStr (replicate 60 7%Z) = x :: l ∧
    DecodeBytes id (encStr (replicate 60 7%Z)) TyRaw = DOk (VRaw ((x + 1)%Z :: l)).
Proof. apply Raw_long_string; vm_compute; congruence. Defined.
