(* ===== verification/RlpTotal.v ===== *)
(** * rlp: decoding ends

    How much of its input each decoder of [src/rlp/decode.go] uses up, from which
    the loops over slice elements and nested interfaces end within the length of
    the input, and the one case in which they do not. *)

From stdpp Require Import base list strings.
From Stdlib Require Import ZArith Lia.
From S2P Require Import Prelude Common RlpEncode RlpRaw RlpDecode RlpRoundtrip.

(** ** The fuel is enough *)

(** The bytes to read, and a tag that was read but not used. *)
Definition pendingWork (s : Stream) : nat :=
  length (sInput s) + match sKind s with Some _ => 1 | None => 0 end.

(** An element type whose decoder uses up input.  The array of one byte does not:
    on the byte zero it leaves the tag in place. *)
Fixpoint progresses (t : gtyp) : bool :=
  match t with
  | TyByteArray 1 | TyTail _ => false
  | TyPtr t | TyPtrNil t => progresses t
  | _ => true
  end.

(** The elements of every slice make progress. *)
Fixpoint loopsOK (t : gtyp) : bool :=
  match t with
  | TySlice t | TyTail t => progresses t && loopsOK t
  | TyArray _ t | TyPtr t | TyPtrNil t => loopsOK t
  | TyStruct ts => forallb loopsOK ts
  | _ => true
  end.

(** Results that neither run out of fuel nor give input back; with [strict], a
    success uses up something. *)
Definition spent {A} (strict : bool) (s : Stream) (res : dres A * Stream) : Prop :=
  match res with
  | (DOk _, s') => (pendingWork s' + (if strict then 1 else 0) ≤ pendingWork s)%nat
  | (DErr EOL, s') => (pendingWork s' ≤ pendingWork s)%nat
  | (DErr _, _) => True
  | (DFuel, _) => False
  end.

Definition frugal {A} (strict : bool) (fuel : nat) (dec : D A) : Prop :=
  ∀ s, (pendingWork s < fuel)%nat → spent strict s (dec s).

(** A result that is no success and leaves no more to do. *)
Lemma spent_err {A} b s e s' : (pendingWork s' ≤ pendingWork s)%nat → spent (A:=A) b s (DErr e, s').
Proof. by destruct e. Qed.

Lemma spent_le {A} b s s1 (res : dres A * Stream) : (pendingWork s1 ≤ pendingWork s)%nat →
  spent b s1 res → spent b s res.
Proof. destruct res as [[a|e|] s']; simpl; [lia|destruct e; lia || done|done]. Qed.

Lemma spent_bind {A B} b1 b2 s (m : D A) (f : A → D B) :
  spent b1 s (m s) →
  (∀ a s1, m s = (DOk a, s1) → (pendingWork s1 + (if b1 then 1 else 0) ≤ pendingWork s)%nat → spent b2 s1 (f a s1)) →
  spent (b1 || b2) s (dbind m f s).
Proof.
  intros Hm Hf. unfold dbind. destruct (m s) as [[a|e|] s1]; [|by destruct e|done].
  specialize (Hf a s1 eq_refl Hm). simpl in Hm. destruct (f a s1) as [[|e|] s2]; simpl in *; [|destruct e; lia || done|done].
  destruct b1, b2; simpl; lia.
Qed.

Lemma frugal_bind {A B} b1 b2 fuel (m : D A) (f : A → D B) :
  frugal b1 fuel m → (∀ a, frugal b2 fuel (f a)) → frugal (b1 || b2) fuel (dbind m f).
Proof. intros Hm Hf s Hs. apply spent_bind; [by apply Hm|]. intros a s1 _ Hle. apply Hf. lia. Qed.

Lemma frugal_weaken {A} b fuel (dec : D A) : frugal true fuel dec → frugal b fuel dec.
Proof. intros Hd s Hs. specialize (Hd s Hs). destruct (dec s) as [[] ?]; try done. simpl in *. destruct b; lia. Qed.

Lemma frugal_ret {A} fuel (a : A) : frugal false fuel (dret a).
Proof. intros s _. simpl. lia. Qed.

Lemma frugal_map {A B} b fuel (m : D A) (f : A → B) : frugal b fuel m → frugal b fuel (x <~ m ;; dret (f x)).
Proof. intros Hm. rewrite <- (orb_false_r b). apply frugal_bind; [done|]. intros a. apply frugal_ret. Qed.

Lemma frugal_err {A} b fuel e : frugal b fuel (derr (A:=A) e).
Proof. intros s _. by apply spent_err. Qed.

Lemma frugal_wrapped {A} b fuel (m : D A) : frugal b fuel m → frugal b fuel (wrapped m).
Proof. intros Hm s Hs. specialize (Hm s Hs). unfold wrapped. by destruct (m s) as [[|[]|] ?]. Qed.

(** Reading gives nothing back, clears the tag and reports no end of list. *)
Record readWork {A} (s : Stream) (res : dres A * Stream) : Prop := mkReadWork {
  rw_total : res.1 ≠ DFuel;
  rw_noEOL : res.1 ≠ DErr EOL;
  rw_kind : sKind res.2 = None;
  rw_input : (length (sInput res.2) ≤ length (sInput s))%nat }.

Lemma willRead_work n s : readWork s (Stream_willRead n s) ∧ sInput (Stream_willRead n s).2 = sInput s.
Proof. unfold Stream_willRead. destruct (sStack s) as [|tos outer]; simpl; repeat case_match; (split; [by split|done]). Qed.

Lemma readWork_bind {A} n s (f : D A) :
  (∀ s', sKind s' = None → sInput s' = sInput s → readWork s (f s')) → readWork s ((Stream_willRead n ;~ f) s).
Proof.
  intros Hf. destruct (willRead_work n s) as [[H1 H2 H3 H4] Hi]. unfold dbind.
  destruct (Stream_willRead n s) as [[[]|e|] s1]; simpl in *; [by apply Hf|split; simpl; [done|congruence|done|done]|done].
Qed.

Lemma readByte_work s : readWork s (Stream_readByte s).
Proof.
  apply readWork_bind. intros s' Hk Hi. rewrite Hi. destruct (sInput s) as [|b l] eqn:E; split; simpl; try done;
    rewrite ?Hi, ?E; simpl; lia.
Qed.

Lemma readByte_one s b s' : Stream_readByte s = (DOk b, s') → (length (sInput s') + 1 = length (sInput s))%nat.
Proof.
  destruct (willRead_work 1 s) as [_ Hi]. unfold Stream_readByte, dbind.
  destruct (Stream_willRead 1 s) as [[[]|e|] s1]; simpl in *; try done. rewrite Hi.
  destruct (sInput s); [done|]. intros [= -> <-]. simpl. lia.
Qed.

Lemma readFull_work n s : readWork s (Stream_readFull n s).
Proof.
  apply readWork_bind. intros s' Hk Hi. rewrite Hi. destruct (_ <=? _)%Z; split; simpl; try done;
    rewrite ?length_drop, ?Hi; lia.
Qed.

Lemma readUint_work n s : readWork s (Stream_readUint n s).
Proof.
  unfold Stream_readUint. destruct (n =? 0)%Z; [by split|]. destruct (n =? 1)%Z; [apply readByte_work|].
  destruct (readFull_work n s) as [H1 H2 H3 H4]. unfold dbind.
  destruct (Stream_readFull n s) as [[[|x l]|e|] s']; [by split| |split; simpl in *; [done|congruence|done|done]|done].
  by destruct (x =? 0)%Z.
Qed.

(** Using up the pending tag. *)
Lemma work_cleared s s' : is_Some (sKind s) → sKind s' = None →
  (length (sInput s') ≤ length (sInput s))%nat → (pendingWork s' + 1 ≤ pendingWork s)%nat.
Proof. intros [k Hk] Hn Hle. unfold pendingWork. rewrite Hk, Hn. lia. Qed.

Lemma spent_read {A} s (res : dres A * Stream) : is_Some (sKind s) → readWork s res → spent true s res.
Proof.
  intros Hk [H1 H2 H3 H4]. pose proof (work_cleared s res.2 Hk H3 H4) as Hw.
  destruct res as [[a|e|] s']; simpl in *; [done|by destruct e|done].
Qed.

(** A successful [Kind] leaves a tag in place and has not cost more than that. *)
Definition kindWork (s : Stream) (res : dres (Kind * Z) * Stream) : Prop :=
  spent false s res ∧ (∀ ks, res.1 = DOk ks → is_Some (sKind res.2)).

Lemma storeKind_work s k n err s2 : sKind s = None → err ≠ Some EOL →
  (err = None → length (sInput s2) + 1 ≤ length (sInput s))%nat →
  kindWork s (storeKind (k, n, err, s2)).
Proof.
  intros Hn He Hs. unfold storeKind, kindWork. destruct err as [e|]; [by destruct e|].
  specialize (Hs eq_refl). split; [|done]. unfold tagFits. repeat case_match; simplify_eq; try done;
    unfold spent, pendingWork; rewrite Hn; simpl; lia.
Qed.

Lemma sizedKind_work s k n s1 : sKind s = None → (length (sInput s1) + 1 ≤ length (sInput s))%nat →
  kindWork s (storeKind (sizedKind k n s1)).
Proof.
  intros Hn Hs. unfold sizedKind. destruct (readUint_work n s1) as [H1 H2 H3 H4].
  destruct (Stream_readUint n s1) as [[v|e|] s2]; cbn [fst snd] in *; [| |done]; apply storeKind_work; try done;
    [by case_match|intros; lia|congruence].
Qed.

Lemma Kind_work s : kindWork s (Stream_Kind s).
Proof.
  unfold Stream_Kind. destruct (sKind s) as [k|] eqn:Ek.
  { split; [|by eexists]. destruct (sKinderr s); [by apply spent_err|unfold spent; lia]. }
  set (s0 := s <| sKinderr := None |>).
  destruct (atEOL s0); [by split; [simpl; unfold pendingWork; simpl; lia|]|].
  destruct (readByte_work s0) as [H1 H2 H3 H4]. unfold Stream_readKind.
  destruct (Stream_readByte s0) as [[b|e|] s1] eqn:Hb; cbn [fst snd] in *; [| |done].
  - pose proof (readByte_one _ _ _ Hb) as Hle. simpl in Hle.
    repeat case_match; (apply storeKind_work || apply sizedKind_work); try done; simpl; intros; lia.
  - apply storeKind_work; [done|by repeat case_match; simplify_eq; congruence|done].
Qed.

Lemma frugal_Kind_bind {A} (b : bool) fuel (f : Kind * Z → D A) :
  (∀ ks s, is_Some (sKind s) → (pendingWork s < fuel)%nat → spent b s (f ks s)) →
  frugal b fuel (dbind Stream_Kind f).
Proof.
  intros Hf s Hs. destruct (Kind_work s) as [Hk Hsome]. apply (spent_bind false b); [done|].
  intros ks s1 E Hle. apply Hf; [|lia]. rewrite E in Hsome. by eapply Hsome.
Qed.

Lemma spent_true {A} b s (res : dres A * Stream) : spent true s res → spent b s res.
Proof. destruct res as [[a|e|] s']; simpl; [destruct b; lia|done|done]. Qed.

(** Reading, then looking at the bytes without touching the stream. *)
Lemma spent_read_bind {A B} s (m : D A) (f : A → D B) :
  is_Some (sKind s) → readWork s (m s) → (∀ a fuel, frugal false fuel (f a)) → spent true s (dbind m f s).
Proof.
  intros Hk Hm Hf. apply (spent_bind true false); [by apply spent_read|].
  intros a s1 _ _. apply (Hf a (S (pendingWork s1))). lia.
Qed.

Lemma spent_rearm {A} s (a : A) : is_Some (sKind s) → spent true s (DOk a, s <| sKind := None |>).
Proof. intros Hk. by apply work_cleared. Qed.

#[export] Hint Resolve frugal_ret frugal_err : rlp.

Lemma frugal_Bytes fuel : frugal true fuel Stream_Bytes.
Proof.
  apply frugal_Kind_bind. intros [k n] s Hk _. cbn [fst snd]. destruct k; [by apply spent_rearm| |by apply spent_err].
  apply spent_read_bind; [done|apply readFull_work|]. intros [|x [|]] f; repeat case_match; auto with rlp.
Qed.

Lemma frugal_Raw fuel : frugal true fuel Stream_Raw.
Proof.
  apply frugal_Kind_bind. intros [k n] s Hk _. cbn [fst snd].
  destruct k; [by apply spent_rearm|..]; (apply spent_read_bind; [done|apply readFull_work|auto with rlp]).
Qed.

Lemma uintOf_work bits k n s : is_Some (sKind s) →
  spent true s (uintOf bits k n s) ∧ (pendingWork (uintOf bits k n s).2 ≤ pendingWork s)%nat.
Proof.
  intros Hk. unfold uintOf. destruct k; [| |by split].
  - destruct (_ =? _)%Z; [by split|]. pose proof (spent_rearm s (sByteval s) Hk). simpl in *. split; [done|lia].
  - destruct (_ <? n)%Z; [by split|]. pose proof (spent_read s _ Hk (readUint_work n s)) as Hr.
    destruct (readUint_work n s) as [H1 H2 H3 H4]. pose proof (work_cleared s _ Hk H3 H4) as Hw.
    destruct (Stream_readUint n s) as [[v|e|] s']; simpl in *; [|by destruct e; simpl; split; try done; lia|done].
    destruct (_ && _); simpl; (split; [done|lia]).
Qed.

Lemma frugal_uint bits fuel : frugal true fuel (Stream_uint bits).
Proof. apply frugal_Kind_bind. intros [k n] s Hk _. by apply uintOf_work. Qed.

Lemma frugal_Bool fuel : frugal true fuel Stream_Bool.
Proof.
  apply (frugal_bind true false); [apply frugal_uint|]. intros num. repeat case_match; auto with rlp.
Qed.

Lemma frugal_BigInt fuel : frugal true fuel decodeBigInt.
Proof.
  apply (frugal_bind true false); [apply frugal_wrapped, frugal_Bytes|]. intros l.
  repeat case_match; auto with rlp.
Qed.

Lemma frugal_ByteArray n fuel : frugal (negb (n =? 1)%nat) fuel (decodeByteArray n).
Proof.
  apply frugal_Kind_bind. intros [k size] s Hk _. cbn [fst snd]. destruct k; [| |done].
  - destruct (Nat.eqb_spec n 0); [done|]. destruct (Nat.ltb_spec 1 n); [done|]. assert (n = 1%nat) as -> by lia.
    unfold Stream_Uint, Stream_uint, dbind, Stream_Kind. pose proof Hk as [k Ek]. rewrite Ek.
    destruct (sKinderr s) as [e|]; [unfold spent; simpl; lia|]. cbn [fst snd].
    destruct (uintOf_work 64 k (sSize s) s Hk) as [_ Hw]. destruct (uintOf 64 k (sSize s) s) as [[] s']; simpl in *; lia.
  - destruct (_ <? size)%Z; [done|]. destruct (size <? _)%Z; [done|]. apply spent_true, spent_read_bind; [done|apply readFull_work|].
    intros [|x [|]] f; repeat case_match; auto with rlp.
Qed.

Lemma frugal_List fuel : frugal true fuel Stream_List.
Proof.
  apply frugal_Kind_bind. intros [k n] s Hk _. cbn [fst snd]. destruct (bool_decide _); [done|].
  by apply work_cleared.
Qed.

Lemma frugal_ListEnd fuel : frugal false fuel Stream_ListEnd.
Proof.
  intros s _. unfold Stream_ListEnd. destruct (sStack s) as [|tos outer]; [done|].
  destruct (negb _); [done|]. unfold spent, pendingWork. simpl. destruct (sKind s); lia.
Qed.

Lemma frugal_sliceElems dec fuel n : frugal true fuel dec → (n ≤ fuel)%nat →
  frugal false n (decodeSliceElems dec n).
Proof.
  intros Hd. induction n as [|n IH]; intros Hn s Hs; [lia|]. simpl. specialize (Hd s ltac:(lia)).
  destruct (dec s) as [[v|e|] s1]; [|by destruct e; simpl in *; try lia|done].
  simpl in Hd. apply (spent_le _ _ s1); [lia|]. apply (spent_bind false false).
  - apply IH; lia.
  - intros vs s2 _ _. simpl. lia.
Qed.

Lemma frugal_arrayElems dec fuel n : frugal false fuel dec → frugal false fuel (decodeArrayElems dec n).
Proof.
  intros Hd. induction n as [|n IH]; intros s Hs; [simpl; lia|]. simpl. specialize (Hd s Hs).
  destruct (dec s) as [[v|e|] s1]; [|by destruct e|done].
  simpl in Hd. apply (spent_le _ _ s1); [lia|]. apply (spent_bind false false); [apply IH; lia|].
  intros vs s2 _ _. simpl. lia.
Qed.

Lemma frugal_fields dec fuel ts : Forall (fun t => frugal false fuel (dec t)) ts →
  frugal false fuel (decodeFields dec ts).
Proof.
  induction 1 as [|t ts Hd _ IH]; intros s Hs; [simpl; lia|]. simpl. specialize (Hd s Hs).
  destruct (dec t s) as [[v|e|] s1]; [|by destruct e|done].
  simpl in Hd. apply (spent_le _ _ s1); [lia|]. apply (spent_bind false false); [apply IH; lia|].
  intros vs s2 _ _. simpl. lia.
Qed.

Lemma frugal_struct fuel body : frugal false fuel body → frugal true fuel (decodeStruct body).
Proof.
  intros Hb. apply (frugal_bind true false); [apply frugal_wrapped, frugal_List|]. intros _.
  apply (frugal_bind false false); [done|]. intros vs.
  apply (frugal_bind false false); [apply frugal_wrapped, frugal_ListEnd|auto with rlp].
Qed.

(** The elements have at least the input minus the list's tag. *)
Lemma frugal_listSlice dec fuel n : frugal true fuel dec → (n ≤ fuel)%nat →
  frugal true (S n) (decodeListSlice dec n).
Proof.
  intros Hd Hn s Hs. apply (spent_bind true false); [by apply (frugal_wrapped _ (S n)), Hs; apply frugal_List|].
  intros size s1 _ Hle. destruct (size =? 0)%Z.
  - apply (frugal_bind false false n); [apply frugal_ListEnd|auto with rlp|lia].
  - apply (frugal_bind false false n); [by eapply frugal_sliceElems| |lia]. intros vs.
    apply (frugal_bind false false); [apply frugal_ListEnd|auto with rlp].
Qed.

Lemma frugal_mono {A} b n m (dec : D A) : (n ≤ m)%nat → frugal b m dec → frugal b n dec.
Proof. intros Hn Hd s Hs. apply Hd. lia. Qed.

Lemma frugal_interface fuel : frugal true fuel (decodeInterface fuel).
Proof.
  induction fuel as [|f IH]; [intros s Hs; lia|]. intros s Hs. rewrite decodeInterface_S.
  revert s Hs. apply (frugal_bind false true).
  - intros s _. apply Kind_work.
  - intros [k n]. cbn [fst]. destruct k; apply frugal_map; [apply frugal_Bytes..|]. by apply (frugal_listSlice _ f).
Qed.

Lemma frugal_optionalPtr b fuel nil dec : frugal b fuel dec → frugal b fuel (optionalPtr nil dec).
Proof.
  intros Hd s Hs. unfold optionalPtr. destruct (Kind_work s) as [Hk Hsome].
  destruct (Stream_Kind s) as [[[k n]|e|] s1]; [|by destruct e; simpl in *; try done; unfold pendingWork in *; simpl; lia|done].
  cbn [fst snd spent] in *. specialize (Hsome _ eq_refl). destruct (_ && _).
  - pose proof (work_cleared s1 (s1 <| sKind := None |>) Hsome eq_refl ltac:(done)). unfold spent. destruct b; lia.
  - apply (spent_le _ _ s1); [lia|]. apply (frugal_map b fuel dec VPtr Hd). lia.
Qed.

Lemma frugal_decode r fuel t : loopsOK t = true → frugal (progresses t) fuel (decode r fuel t).
Proof.
  induction t as [| | |bits| | | |n|n t IH|t IH|t IH|ts IH|t IH|t IH| |] using gtyp_nested_ind; intros Hl; cbn [decode].
  - apply frugal_map, frugal_Raw.
  - apply frugal_map, frugal_BigInt.
  - apply frugal_map, frugal_BigInt.
  - apply frugal_map, frugal_wrapped, frugal_uint.
  - apply frugal_map, frugal_wrapped, frugal_Bool.
  - apply frugal_map, frugal_wrapped, frugal_Bytes.
  - apply frugal_map, frugal_wrapped, frugal_Bytes.
  - replace (progresses (TyByteArray n)) with (negb (n =? 1)%nat) by (by destruct n as [|[|]]).
    apply frugal_map, frugal_ByteArray.
  - apply frugal_map, frugal_struct, frugal_arrayElems. simpl in Hl.
    intros s Hs. specialize (IH Hl s Hs). destruct (decode r fuel t s) as [[]]; simpl in *; [lia|done|done].
  - simpl in Hl. apply andb_true_iff in Hl as [Hp Hl]. specialize (IH Hl). rewrite Hp in IH.
    apply frugal_map. eapply frugal_mono; [|by apply (frugal_listSlice _ fuel)]. lia.
  - simpl in Hl. apply andb_true_iff in Hl as [Hp Hl]. specialize (IH Hl). rewrite Hp in IH.
    apply frugal_map. by apply (frugal_sliceElems _ fuel).
  - apply frugal_map, frugal_struct, frugal_fields. simpl in Hl. rewrite forallb_forall in Hl.
    rewrite Forall_forall in IH |- *. intros t Ht. intros s Hs.
    specialize (IH t Ht (Hl t ltac:(by apply list_elem_of_In)) s Hs).
    destruct (decode r fuel t s) as [[]]; simpl in *; [lia|done|done].
  - apply frugal_map. by apply IH.
  - apply frugal_optionalPtr. by apply IH.
  - apply frugal_interface.
  - apply frugal_map, frugal_wrapped, frugal_Bytes.
Qed.

(** ** The properties *)

(** A stream over [b] is decoded within the length of [b], whatever its limit. *)
Lemma decode_total r b n t : loopsOK t = true → (decode r (S (length b)) t (NewStream b n)).1 ≠ DFuel.
Proof.
  intros Hl. pose proof (frugal_decode r (S (length b)) t Hl (NewStream b n)) as Hf.
  destruct (decode r (S (length b)) t (NewStream b n)) as [[v|e|] s']; [done..|].
  exfalso. apply Hf. unfold pendingWork. simpl. lia.
Qed.

(** C16. Decoding terminates: for every type whose slices have elements that use up input
    (all but arrays of one byte), and every input, the loops end within the number
    of bytes of the input, and a result or an error is returned. *)
Theorem DecodeBytes_total r b t : loopsOK t = true → DecodeBytes r b t ≠ DFuel.
Proof.
  intros Hl. unfold DecodeBytes. pose proof (decode_total r b (Z.of_nat (length b)) t Hl) as Hd.
  destruct (decode _ _ _ _) as [[v|e|] s']; [by destruct (sInput s')|done|done].
Qed.

(** The state in which the zero byte of an array of one byte is ahead. *)
Definition stuckAtZero (s : Stream) : Prop :=
  sKind s = Some Byte ∧ sKinderr s = None ∧ sByteval s = 0%Z.

Lemma stuckAtZero_loops fuel r n s : stuckAtZero s → (decodeSliceElems (decode r n (TyByteArray 1)) fuel s).1 = DFuel.
Proof.
  intros (Hk & He & Hb). induction fuel as [|f IH]; [done|]. cbn [decodeSliceElems].
  assert (decode r n (TyByteArray 1) s = (DOk (VByteArray [0%Z]), s)) as ->.
  { cbn [decode]. unfold decodeByteArray, Stream_Uint, Stream_uint, uintOf, dbind, Stream_Kind. by rewrite Hk, He; simpl; rewrite Hk, He, Hb. }
  unfold dbind. by destruct (decodeSliceElems _ f s) as [[] ?].
Qed.

(** The exception is real: decoding the two bytes C1 00 into a slice of one-byte
    arrays never ends.  [decodeByteArray] drops the error of [Uint], which has not
    used up the tag, so every further element is the same zero byte. *)
Theorem byteArray1_diverges r fuel : (decode r fuel (TySlice (TyByteArray 1)) (NewStream [193; 0]%Z 2)).1 = DFuel.
Proof.
  destruct fuel as [|f]; [done|]. set (dec := decode r (S f) (TyByteArray 1)).
  change (decode r (S f) (TySlice (TyByteArray 1))) with (vs <~ decodeListSlice dec (S f) ;; dret (VSlice vs)).
  unfold decodeListSlice. unfold dbind at 1. unfold dbind at 1.
  destruct (wrapped Stream_List (NewStream [193; 0]%Z 2)) as [res s1] eqn:E. vm_compute in E. injection E as <- <-.
  simpl (1 =? 0)%Z. cbv iota. unfold dbind at 1.
  pose proof (stuckAtZero_loops f r (S f)) as Hloop.
  set (s2 := mkStream [0%Z] 1 true None 0 0 None [mkListpos 0 1]).
  assert (dec s2 = (DOk (VByteArray [0%Z]), mkStream [] 0 true (Some Byte) 0 0 None [mkListpos 1 1])) as Hd by (vm_compute; done).
  change (decodeSliceElems dec (S f) s2) with
    (match dec s2 with
     | (DOk v, s') => (vs <~ decodeSliceElems dec f ;; dret (v :: vs)) s'
     | (DErr EOL, s') => (DOk [], s')
     | (DErr e, s') => (DErr e, s')
     | (DFuel, s') => (DFuel, s')
     end). rewrite Hd. specialize (Hloop (mkStream [] 0 true (Some Byte) 0 0 None [mkListpos 1 1])). fold dec in Hloop.
  unfold dbind. destruct (decodeSliceElems dec f _) as [[] ?]; [by discriminate Hloop|by discriminate Hloop|done].
Qed.

(** ** Instances *)

Lemma DecodeBytes_total_witness : DecodeBytes id [200; 131; 99; 97]%Z (TySlice TyInterface) ≠ DFuel.
Proof. apply DecodeBytes_total. reflexivity. Defined.
