(* ===== verification/RlpCanonical.v ===== *)
(** * rlp: only canonical encodings are decoded

    The converse of [RlpRoundtrip.v]: what the decoders of [src/rlp/decode.go]
    accept from a byte slice is the encoding of the value they return.  The
    operations are deterministic, so the proofs look at what is ahead in the input
    and use what the stream operations do there. *)

From stdpp Require Import base list strings.
From Stdlib Require Import ZArith Lia.
From S2P Require Import Prelude Common RlpEncode RlpRaw RlpDecode RlpRoundtrip RlpTotal.

(** A stream over the rest of a byte slice, limited to its length, in which the
    innermost list does not extend beyond the input. *)
Record bounded (s : Stream) : Prop := mkBounded {
  bd_ok : streamOK s;
  bd_limited : sLimited s = true;
  bd_remaining : sRemaining s = Z.of_nat (length (sInput s));
  bd_bytes : Forall is_byte (sInput s);
  bd_top : match sStack s with
           | tos :: _ => (lpSize tos - lpPos tos ≤ sRemaining s)%Z
           | [] => True
           end }.

Lemma bounded_room n s : bounded s → room n s → (n ≤ Z.of_nat (length (sInput s)))%Z.
Proof. intros [_ Hl Hr _ _] [_ H]. specialize (H Hl). lia. Qed.

Lemma bounded_shifted n s s' : (0 ≤ n)%Z → room n s → bounded s → shifted n s s' → bounded s'.
Proof.
  intros Hn Hroom Hb Hsh. pose proof (bounded_room n s Hb Hroom). destruct Hb as [Hok Hl Hr Hby Htop].
  pose proof (shifted_ok n s s' Hn Hok Hroom Hsh). destruct Hsh as [Hi Hr' Hl' Hs']. split; [done|congruence| | |].
  - rewrite Hr', Hl, Hi, Hr, length_drop. lia.
  - rewrite Hi. by apply Forall_drop.
  - rewrite Hs', Hr', Hl. destruct (sStack s); [done|]. simpl. lia.
Qed.

(** ** Reads that succeed *)

Lemma willRead_room n s s' : streamOK s → Stream_willRead n s = (DOk tt, s') → room n s.
Proof.
  intros [Hst Hr]. unfold Stream_willRead, room. simpl. destruct (sStack s) as [|tos outer]; simpl.
  - destruct (sLimited s); [|by split]. destruct (Z.ltb_spec (sRemaining s) n); [done|by split].
  - apply Forall_cons in Hst as [[? ?] ?]. rewrite (u64_small (lpSize tos - lpPos tos)) by (unfold is_u64; lia).
    destruct (Z.ltb_spec (lpSize tos - lpPos tos) n); [done|]. intros Hw. split; [lia|]. intros Hl.
    rewrite Hl in Hw. simpl in Hw. by destruct (Z.ltb_spec (sRemaining s) n).
Qed.

Lemma readByte_inv b s s' : bounded s → Stream_readByte s = (DOk b, s') →
  ∃ l, sInput s = b :: l ∧ room 1 s ∧ moved 1 s s'.
Proof.
  intros Hb Hr. unfold Stream_readByte, dbind in Hr.
  destruct (Stream_willRead 1 s) as [[[]|e|] s1] eqn:Hw; try done.
  pose proof (willRead_room 1 s s1 (bd_ok s Hb) Hw) as Hroom. pose proof (bounded_room 1 s Hb Hroom).
  destruct (sInput s) as [|x l] eqn:Hi; [simpl in *; lia|]. exists l.
  destruct (readByte_ok x l s (bd_ok s Hb) Hroom Hi) as (s2 & Hs2 & Hm).
  unfold Stream_readByte, dbind in Hs2. rewrite Hw in Hs2. rewrite Hs2 in Hr. injection Hr as -> ->. done.
Qed.

Lemma readFull_inv n c s s' : bounded s → (0 ≤ n)%Z → Stream_readFull n s = (DOk c, s') →
  ∃ rest, sInput s = c ++ rest ∧ Z.of_nat (length c) = n ∧ room n s ∧ moved n s s'.
Proof.
  intros Hb Hn Hr. pose proof Hr as Hr'. unfold Stream_readFull, dbind in Hr'.
  destruct (Stream_willRead n s) as [[[]|e|] s1] eqn:Hw; try done. clear Hr'.
  pose proof (willRead_room n s s1 (bd_ok s Hb) Hw) as Hroom. pose proof (bounded_room n s Hb Hroom) as Hle.
  set (c0 := take (Z.to_nat n) (sInput s)). assert (Z.of_nat (length c0) = n) as Hlen by (unfold c0; rewrite length_take; lia).
  destruct (readFull_ok c0 (drop (Z.to_nat n) (sInput s)) s (bd_ok s Hb)) as (s2 & Hs2 & Hm);
    [by rewrite Hlen|by unfold c0; rewrite take_drop|].
  rewrite Hlen in *. rewrite Hs2 in Hr. injection Hr as <- <-.
  exists (drop (Z.to_nat n) (sInput s)). split_and!; [by unfold c0; rewrite take_drop|done..].
Qed.

(** A number read successfully, with the bytes it was read from. *)
Lemma readUint_inv n v s s' : bounded s → (1 ≤ n ≤ 8)%Z → Stream_readUint n s = (DOk v, s') →
  ∃ c rest, sInput s = c ++ rest ∧ Z.of_nat (length c) = n ∧ room n s ∧ moved n s s' ∧
    v = beVal c ∧ (v ≠ 0%Z → putint v = c ∧ is_u64 v).
Proof.
  intros Hb Hn. unfold Stream_readUint. rewrite (proj2 (Z.eqb_neq n 0)) by lia.
  destruct (Z.eqb_spec n 1) as [->|H1].
  - intros Hr. destruct (readByte_inv v s s' Hb Hr) as (l & Hi & Hroom & Hm). exists [v], l. split_and!; [done..|].
    intros Hv. apply (putint_beVal [v]); [|simpl; lia|eauto]. pose proof (bd_bytes s Hb) as Hby. rewrite Hi in Hby.
    apply Forall_cons in Hby as [? _]. by apply Forall_singleton.
  - unfold dbind. destruct (Stream_readFull n s) as [[c|e|] s1] eqn:Hf; try done. intros Hr.
    destruct (readFull_inv n c s s1 Hb ltac:(lia) Hf) as (rest & Hi & Hlen & Hroom & Hm).
    destruct c as [|x c]; [simpl in *; lia|]. destruct (Z.eqb_spec x 0); [done|]. injection Hr as <- <-.
    exists (x :: c), rest. split_and!; [done..|]. intros Hv. apply putint_beVal; [|lia|eauto].
    pose proof (bd_bytes s Hb) as Hby. rewrite Hi in Hby. by apply Forall_app in Hby as [? _].
Qed.

(** ** What a successful [Kind] has seen *)

(** A value ahead, with its tag already read from the input of [s]. *)
Record found (k : Kind) (c rest : bytes) (s s1 : Stream) : Prop := mkFound {
  fd_ahead : ahead k c rest s s1;
  fd_bounded : bounded s1;
  fd_byte : k = Byte → singleByte c = true;
  fd_bytes : Forall is_byte c }.

Lemma found_pending k c rest s s1 : found k c rest s s1 → found k c rest s1 s1.
Proof. intros [Ha Hb H1 H2]. split; [by eapply ahead_pending|done..]. Qed.

(** The bytes [Kind] consumes. *)
Definition tagOf (k : Kind) (c : bytes) : bytes :=
  match k with Byte => c | _ => kindHead k (Z.of_nat (length c)) end.

Lemma tagOf_encKind k c : kindOK k c = true → encKind k c = tagOf k c ++ payload k c.
Proof. intros Hk. rewrite encKind_head by done. destruct k; simpl; [by rewrite app_nil_r|done..]. Qed.

Lemma tagFits_room n s : bounded s → tagFits n s = None → room n s.
Proof.
  intros [[Hst _] Hl Hr _ Htop] Hf. unfold tagFits in Hf. split; [|intros _]; destruct (sStack s) as [|tos l].
  - done.
  - apply Forall_cons in Hst as [[? ?] _]. rewrite u64_small in Hf by (unfold is_u64; lia).
    destruct (Z.ltb_spec (lpSize tos - lpPos tos) n); [done|lia].
  - rewrite Hl in Hf. simpl in Hf. by destruct (Z.ltb_spec (sRemaining s) n).
  - apply Forall_cons in Hst as [[? ?] _]. rewrite u64_small in Hf by (unfold is_u64; lia).
    destruct (Z.ltb_spec (lpSize tos - lpPos tos) n); [done|lia].
Qed.

(** The size of a long value, read after its first byte [b]. *)
Lemma sizedKind_found k lt b n l s s0 s1 :
  (lt < b ≤ lt + 8)%Z → (0 ≤ lt ≤ 247)%Z → room 1 s → sInput s = b :: l → shifted 1 s s0 →
  bounded (s0 <| sByteval := 0%Z |>) → sizedKind k (b - lt) (s0 <| sByteval := 0%Z |>) = (k, n, None, s1) →
  ∃ hd, room (Z.of_nat (length hd)) s ∧ sInput s = hd ++ sInput s1 ∧ shifted (Z.of_nat (length hd)) s s1 ∧
    (∀ st, hd = puthead st lt n) ∧ is_u64 n.
Proof.
  set (s0' := s0 <| sByteval := 0%Z |>). intros Hlt Hr247 Hroom Hi Hsh Hb0'.
  assert (sInput s0 = l) as Hi0 by (destruct Hsh as [-> _ _ _]; by rewrite Hi).
  unfold sizedKind. destruct (Stream_readUint (b - lt) s0') as [[v|e|] s2] eqn:Hu; [|done|].
  2: { pose proof (rw_total _ _ (readUint_work (b - lt) s0')) as Ht. by rewrite Hu in Ht. }
  destruct (Z.ltb_spec v 56); [done|]. intros [= -> ->].
  destruct (readUint_inv (b - lt) n s0' s1 Hb0' ltac:(lia) Hu) as (c & rest & Hc & Hlen & Hroom' & [Hsh' _] & Hv & Hp).
  destruct (Hp ltac:(lia)) as [Hput Hun]. exists (b :: c). cbn [length]. rewrite Nat2Z.inj_succ.
  replace (Z.succ (Z.of_nat (length c))) with (1 + (b - lt))%Z by lia.
  assert (shifted (1 + (b - lt)) s s1) as Hshift.
  { eapply shifted_trans; [lia|lia| |exact Hsh']. by apply (shifted_byteval _ 1). }
  split_and!; [|  |done| |done].
  - destruct Hsh as [_ Hr0 Hl0 Hs0]. destruct Hroom as [Hra Hrb], Hroom' as [Hrc Hrd]. simpl in *. split.
    + rewrite Hs0 in Hrc. destruct (sStack s); [done|]. simpl in Hrc. lia.
    + intros Hl. rewrite Hl0, Hr0, Hl in Hrd. specialize (Hrd eq_refl). lia.
  - destruct Hshift as [-> _ _ _]. rewrite Hi, <- Hi0. change (sInput s0') with (sInput s0) in Hc. rewrite Hc.
    replace (Z.to_nat (1 + (b - lt))) with (S (length c)) by lia. simpl. by rewrite drop_app_length.
  - intros st. rewrite puthead_large by (done || lia). rewrite Hput. f_equal. lia.
Qed.

(** The tag [readKind] has read, when it reports no error. *)
Lemma readKind_found k n s s1 : bounded s → Stream_readKind s = (k, n, None, s1) →
  ∃ hd, room (Z.of_nat (length hd)) s ∧ sInput s = hd ++ sInput s1 ∧ shifted (Z.of_nat (length hd)) s s1 ∧
    match k with
    | Byte => hd = [sByteval s1] ∧ n = 0%Z ∧ (sByteval s1 < 128)%Z
    | _ => hd = kindHead k n ∧ is_u64 n
    end.
Proof.
  intros Hb. unfold Stream_readKind.
  destruct (Stream_readByte s) as [[b|e|] s0] eqn:Hr; [|intros [= _ _ He _]; done|by pose proof (rw_total _ _ (readByte_work s)) as Ht; rewrite Hr in Ht].
  destruct (readByte_inv b s s0 Hb Hr) as (l & Hi & Hroom & [Hsh Hk]).
  pose proof (bounded_shifted 1 s s0 ltac:(lia) Hroom Hb Hsh) as Hb0.
  assert (sInput s0 = l) as Hi0 by (destruct Hsh as [-> _ _ _]; by rewrite Hi).
  assert (is_byte b) as [Hb1 Hb2]. { pose proof (bd_bytes s Hb) as Hby. rewrite Hi in Hby. by apply Forall_cons in Hby as [? _]. }
  set (s0' := s0 <| sByteval := 0%Z |>).
  assert (bounded s0') as Hb0' by (destruct Hb0 as [[] ? ? ? ?]; split; [by split|done..]).
  destruct (Z.ltb_spec b 128); [|destruct (Z.ltb_spec b 184); [|destruct (Z.ltb_spec b 192); [|destruct (Z.ltb_spec b 248)]]].
  - intros [= <- <- <-]. exists [b]. split_and!; [done|by simpl; rewrite Hi, Hi0| |done|done|done].
    destruct Hsh. by split.
  - intros [= <- <- <-]. exists [b]. split_and!; [done|by simpl; rewrite Hi, Hi0|destruct Hsh; by split| |].
    + simpl. rewrite puthead_small by lia. f_equal. lia.
    + unfold is_u64, two64. lia.
  - intros Hs. pose proof Hs as Hs'. unfold sizedKind in Hs'. assert (k = String_) as -> by (by destruct (Stream_readUint _ _) as [[] ?]; injection Hs').
    destruct (sizedKind_found String_ 183 b n l s s0 s1) as (hd & A1 & A2 & A3 & A4 & A5); [lia..|done|done|done|done|done|]. exists hd. split_and!; try done. apply A4.
  - intros [= <- <- <-]. exists [b]. split_and!; [done|by simpl; rewrite Hi, Hi0|destruct Hsh; by split| |].
    + simpl. rewrite puthead_small by lia. f_equal. lia.
    + unfold is_u64, two64. lia.
  - intros Hs. pose proof Hs as Hs'. unfold sizedKind in Hs'. assert (k = List_) as -> by (by destruct (Stream_readUint _ _) as [[] ?]; injection Hs').
    destruct (sizedKind_found List_ 247 b n l s s0 s1) as (hd & A1 & A2 & A3 & A4 & A5); [lia..|done|done|done|done|done|]. exists hd. split_and!; try done. apply A4.
Qed.

(** A successful [Kind] on a stream that has read no tag yet. *)
Lemma Kind_found s ks s1 : bounded s → sKind s = None → Stream_Kind s = (DOk ks, s1) →
  ∃ c rest, found ks.1 c rest s s1 ∧ room (Z.of_nat (length (tagOf ks.1 c))) s ∧
    sInput s = tagOf ks.1 c ++ sInput s1 ∧ shifted (Z.of_nat (length (tagOf ks.1 c))) s s1.
Proof.
  intros Hb Hn Hkind. pose proof Hkind as Hsk. unfold Stream_Kind in Hsk. rewrite Hn in Hsk.
  set (s0 := s <| sKinderr := None |>) in *. destruct (atEOL s0); [done|].
  destruct (Stream_readKind s0) as [[[k n] err] s2] eqn:Hrk. unfold storeKind in Hsk.
  destruct err as [e|]; [done|]. destruct (tagFits n s2) eqn:Hf; [done|]. injection Hsk as <- Hs1. cbn [fst].
  assert (bounded s0) as Hb0 by (destruct Hb as [[] ? ? ? ?]; split; [by split|done..]).
  destruct (readKind_found k n s0 s2 Hb0 Hrk) as (hd & Hroom & Hi & Hsh & Hhd).
  pose proof (bounded_shifted _ s0 s2 (Nat2Z.is_nonneg _) Hroom Hb0 Hsh) as Hb2.
  pose proof (tagFits_room n s2 Hb2 Hf) as Hrn. pose proof (bounded_room n s2 Hb2 Hrn) as Hnle.
  assert (0 ≤ n)%Z as Hn0 by (destruct k; unfold is_u64 in *; lia).
  assert (bounded s1 ∧ sInput s1 = sInput s2 ∧ sByteval s1 = sByteval s2 ∧ room n s1 ∧ shifted (Z.of_nat (length hd)) s s1 ∧
          Stream_Kind s1 = (DOk (k, n), s1)) as (Hb1 & Hi1 & Hby1 & Hr1 & Hsh1 & Hag).
  { subst s1. destruct Hb2 as [[] ? ? ? ?], Hsh. by split_and!; try done; split. }
  set (c := match k with Byte => [sByteval s1] | _ => take (Z.to_nat n) (sInput s1) end).
  assert (payload k c = match k with Byte => [] | _ => c end ∧ Z.of_nat (length (payload k c)) = n ∧ hd = tagOf k c) as (Hpl & Hlen & Htag).
  { unfold c. rewrite Hby1. destruct k; simpl; [naive_solver|..]; rewrite length_take, Hi1, Nat.min_l, Z2Nat.id by lia; naive_solver. }
  exists c, (drop (Z.to_nat n) (sInput s1)). rewrite <- Htag. split_and!; [|done|by rewrite Hi1|done].
  split; [|done| |].
  - split; [by rewrite Hkind, Hlen|by rewrite Hag, Hlen|apply Hb1|by rewrite Hlen| |].
    + unfold c in *. destruct k; simpl; [|by rewrite take_drop..]. destruct Hhd as (_ & -> & _). by rewrite drop_0.
    + by intros ->.
  - intros ->. simpl. apply Z.ltb_lt. rewrite Hby1. apply Hhd.
  - unfold c. destruct k; [|apply Forall_take, Hb1..]. rewrite Hby1. apply Forall_singleton.
    destruct Hhd as (Hhd & _). pose proof (bd_bytes _ Hb0) as Hby. rewrite Hi, Hhd in Hby. by apply Forall_cons in Hby as [? _].
Qed.

(** ** Decoders that accept only encodings *)

(** On a value ahead, [dec] returns only what is encoded there. *)
Definition sound {A} (enc : A → bytes → Prop) (dec : D A) : Prop :=
  ∀ k c rest s s1 v s', found k c rest s s1 → dec s = (DOk v, s') →
    kindOK k c = true ∧ enc v (encKind k c) ∧ moved (Z.of_nat (length (payload k c))) s1 s'.

Lemma sound_map {A B} (enc : A → bytes → Prop) (enc' : B → bytes → Prop) (f : A → B) dec :
  (∀ a e, enc a e → enc' (f a) e) → sound enc dec → sound enc' (x <~ dec ;; dret (f x)).
Proof.
  intros Hf Hd k c rest s s1 v s' Hfd Hs. unfold dbind in Hs. destruct (dec s) as [[a|e|] s2] eqn:E; try done.
  injection Hs as <- <-. destruct (Hd _ _ _ _ _ _ _ Hfd E) as (? & ? & ?). auto.
Qed.

Lemma sound_wrapped {A} (enc : A → bytes → Prop) dec : sound enc dec → sound enc (wrapped dec).
Proof.
  intros Hd k c rest s s1 v s' Hfd Hs. unfold wrapped in Hs. destruct (dec s) as [[a|e|] s2] eqn:E; try done.
  injection Hs as <- <-. by eapply Hd.
Qed.

Lemma kindOK_string c : (∀ x, c = [x] → (128 ≤ x)%Z) → kindOK String_ c = true.
Proof. intros Hc. destruct c as [|x [|]]; try done. simpl. by rewrite (proj2 (Z.ltb_ge _ _)) by auto. Qed.

Lemma Bytes_inv k c rest s s1 v s' : found k c rest s s1 → Stream_Bytes s = (DOk v, s') →
  v = c ∧ kindOK k c = true ∧ encKind k c = encStr c ∧ moved (Z.of_nat (length (payload k c))) s1 s'.
Proof.
  intros [Ha Hb Hby _] Hs. unfold Stream_Bytes in Hs. rewrite (ahead_bind _ _ _ _ _ _ Ha) in Hs.
  cbn [fst snd] in Hs. destruct k; cbn [payload] in *; [| |done].
  - pose proof (ah_byte _ _ _ _ _ Ha eq_refl) as Hc. injection Hs as <- <-. specialize (Hby eq_refl).
    split_and!; [done..|apply shifted_rearm].
  - destruct (ahead_readFull _ _ _ _ _ Ha ltac:(done)) as (s2 & Hf & Hm). unfold dbind in Hs. rewrite Hf in Hs.
    assert (v = c ∧ s' = s2 ∧ kindOK String_ c = true) as (-> & -> & Hk); [|done].
    destruct c as [|x [|]]; [by injection Hs as <- <-| |by injection Hs as <- <-].
    destruct (Z.ltb_spec x 128); [done|]. injection Hs as <- <-. split_and!; [done..|]. apply kindOK_string. by intros ? [= <-].
Qed.

Lemma Bytes_sound : sound (fun c e => e = encStr c) Stream_Bytes.
Proof. intros k c rest s s1 v s' Hfd Hs. by destruct (Bytes_inv _ _ _ _ _ _ _ Hfd Hs) as (-> & ? & ? & ?). Qed.

Lemma uint_sound bits : (bits ≤ 64)%Z → sound (fun i e => e = encUint i ∧ is_u64 i) (Stream_uint bits).
Proof.
  intros Hbits k c rest s s1 v s' [Ha Hb Hby Hc8] Hs. unfold Stream_uint, uintOf in Hs. rewrite (ahead_bind _ _ _ _ _ _ Ha) in Hs.
  cbn [fst snd] in Hs. destruct k; cbn [payload] in *; [| |done].
  - pose proof (ah_byte _ _ _ _ _ Ha eq_refl) as Hc. specialize (Hby eq_refl).
    destruct (Z.eqb_spec (sByteval s1) 0) as [|Hne]; [done|]. injection Hs as <- <-.
    split; [done|]. split; [|apply shifted_rearm].
    destruct (putint_beVal c) as [Hp Hu]; [done|rewrite Hc; simpl; lia|rewrite Hc; eauto|].
    replace (beVal c) with (sByteval s1) in * by (by rewrite Hc). split; [|done].
    unfold encUint. by rewrite (proj2 (Z.eqb_neq _ 0)), Hp by done.
  - destruct (Z.ltb_spec (bits / 8) (Z.of_nat (length c))); [done|].
    assert (bits / 8 ≤ 8)%Z by (apply Z.div_le_upper_bound; lia).
    destruct (decide (length c = 0%nat)) as [Hz|Hz].
    + destruct c; [|done]. simpl in Hs. injection Hs as <- <-. split_and!; [done..|apply shifted_rearm].
    + destruct (Stream_readUint (Z.of_nat (length c)) s1) as [[v'|e|] s2] eqn:Hu; [|by destruct e|done].
      destruct (readUint_inv (Z.of_nat (length c)) v' s1 s2 Hb ltac:(lia) Hu) as (c' & rest' & Hi & Hlen & _ & Hm & Hv & Hp).
      assert (c' = c) as ->.
      { pose proof (ah_input _ _ _ _ _ Ha) as Hi'. rewrite Hi in Hi'. simpl in Hi'. by apply app_inj_1 in Hi' as [? _]; [|lia]. }
      rewrite (proj2 (Z.ltb_lt 0 _)) in Hs by lia. simpl in Hs. destruct (Z.ltb_spec v' 128); [done|]. injection Hs as <- <-.
      destruct (Hp ltac:(lia)) as [Hput Hu64]. split; [|split; [|done]].
      * apply kindOK_string. intros x ->. change (beVal [x]) with x in Hv. lia.
      * split; [|done]. unfold encUint. by rewrite (proj2 (Z.eqb_neq _ 0)), Hput by lia.
Qed.

Lemma Bool_sound : sound (fun b e => e = [if b : bool then 1%Z else 128%Z]) Stream_Bool.
Proof.
  intros k c rest s s1 v s' Hfd Hs. unfold Stream_Bool, dbind in Hs.
  destruct (Stream_uint 8 s) as [[i|e|] s2] eqn:E; try done.
  destruct (uint_sound 8 ltac:(lia) _ _ _ _ _ _ _ Hfd E) as (Hk & [He _] & Hm). rewrite He.
  destruct (Z.eqb_spec i 0) as [->|]; [by injection Hs as <- <-|].
  destruct (Z.eqb_spec i 1) as [->|]; [by injection Hs as <- <-|done].
Qed.

(** Bytes without a leading zero are determined by their value. *)
Lemma beVal_lower x l : Forall is_byte (x :: l) → x ≠ 0%Z → (256 ^ Z.of_nat (length l) ≤ beVal (x :: l))%Z.
Proof.
  intros [[Hx1 _] Hl]%Forall_cons Hx. rewrite beVal_cons. pose proof (beVal_range l Hl).
  assert (0 < 256 ^ Z.of_nat (length l))%Z by (apply Z.pow_pos_nonneg; lia). nia.
Qed.

Lemma beVal_inj x l y m : Forall is_byte (x :: l) → Forall is_byte (y :: m) → x ≠ 0%Z → y ≠ 0%Z →
  beVal (x :: l) = beVal (y :: m) → x :: l = y :: m.
Proof.
  intros Hl Hm Hx Hy He. pose proof (beVal_lower _ _ Hl Hx) as L1. pose proof (beVal_lower _ _ Hm Hy) as L2.
  pose proof (beVal_range _ Hl) as [_ U1]. pose proof (beVal_range _ Hm) as [_ U2]. rewrite He in *. cbn [length] in *.
  assert (length l = length m) as Hlen.
  { assert (256 ^ Z.of_nat (length l) < 256 ^ Z.of_nat (S (length m)))%Z as Ha by lia.
    assert (256 ^ Z.of_nat (length m) < 256 ^ Z.of_nat (S (length l)))%Z as Hb by lia.
    apply Z.pow_lt_mono_r_iff in Ha, Hb; lia. }
  rewrite <- (beBytes_beVal (x :: l)), <- (beBytes_beVal (y :: m)) by done. rewrite He. cbn [length]. by rewrite Hlen.
Qed.

Lemma bigBytesLoop_bytes fuel i acc : (0 ≤ i)%Z → Forall is_byte acc → Forall is_byte (bigBytesLoop fuel i acc).
Proof.
  revert i acc. induction fuel as [|f IH]; intros i acc Hi Ha; simpl; [done|]. destruct (i =? 0)%Z; [done|].
  apply IH; [apply Z.div_pos; lia|]. constructor; [|done]. apply Z.mod_pos_bound. lia.
Qed.

Lemma BigInt_sound : sound (fun i e => encBig i = Ok e) decodeBigInt.
Proof.
  intros k c rest s s1 v s' Hfd Hs. unfold decodeBigInt, dbind in Hs.
  unfold wrapped in Hs. destruct (Stream_Bytes s) as [[b|e|] s2] eqn:E; try done.
  destruct (Bytes_inv _ _ _ _ _ _ _ Hfd E) as (-> & Hk & He & Hm). rewrite He.
  pose proof (fd_bytes _ _ _ _ _ Hfd) as Hby. destruct c as [|x l]; [by injection Hs as <- <-|].
  destruct (Z.eqb_spec x 0) as [|Hx]; [done|]. injection Hs as <- <-. split_and!; [done| |done].
  pose proof (beVal_lower x l Hby Hx). assert (0 < 256 ^ Z.of_nat (length l))%Z by (apply Z.pow_pos_nonneg; lia).
  set (i := beVal (x :: l)) in *. unfold encBig. rewrite (proj2 (Z.ltb_ge i 0)), (proj2 (Z.eqb_neq i 0)) by lia.
  destruct (bigBytes_spec i ltac:(lia)) as (Hv & y & m & Hb & Hy). do 2 f_equal. rewrite Hb.
  assert (Forall is_byte (y :: m)) by (rewrite <- Hb; apply bigBytesLoop_bytes; [lia|done]).
  apply beVal_inj; [done|done|lia|done|]. by rewrite <- Hb.
Qed.

Lemma ByteArray_sound n : n ≠ 1%nat → sound (fun c e => e = encStr c) (decodeByteArray n).
Proof.
  intros Hn k c rest s s1 v s' [Ha Hb Hby _] Hs. unfold decodeByteArray in Hs. rewrite (ahead_bind _ _ _ _ _ _ Ha) in Hs.
  cbn [fst snd] in Hs. destruct k; cbn [payload] in *; [|  |done].
  - destruct (Nat.eqb_spec n 0); [done|]. by destruct (Nat.ltb_spec 1 n); [|lia].
  - destruct (Z.ltb_spec (Z.of_nat n) (Z.of_nat (length c))); [done|].
    destruct (Z.ltb_spec (Z.of_nat (length c)) (Z.of_nat n)); [done|]. assert (n = length c) as -> by lia.
    destruct (ahead_readFull _ _ _ _ _ Ha ltac:(done)) as (s2 & Hf & Hm). unfold dbind in Hs. rewrite Hf in Hs.
    assert (kindOK String_ c = true) as Hk by (apply kindOK_string; intros x ->; done).
    destruct c as [|x [|]]; try done; by injection Hs as <- <-.
Qed.

(** ** Decoders start with [Kind] *)

(** [dec] fails if [Kind] does, and reports [EOL] only if [Kind] does. *)
Definition kindFirst {A} (dec : D A) : Prop :=
  ∀ s, match Stream_Kind s with
       | (DErr e, s1) => ∃ e', dec s = (DErr e', s1) ∧ (e' = EOL → e = EOL)
       | (DOk _, _) => (dec s).1 ≠ DErr EOL
       | (DFuel, _) => False
       end.

Definition noEOL {A} (dec : D A) : Prop := ∀ s, (dec s).1 ≠ DErr EOL.

Lemma kindFirst_Kind {A} (f : Kind * Z → D A) :
  (∀ ks s s1, Stream_Kind s = (DOk ks, s1) → (f ks s1).1 ≠ DErr EOL) → kindFirst (dbind Stream_Kind f).
Proof.
  intros Hf s. unfold dbind. destruct (Kind_work s) as [Hw _].
  destruct (Stream_Kind s) as [[ks|e|] s1] eqn:E; [by eapply Hf|eauto|done].
Qed.

Lemma kindFirst_bind {A B} (m : D A) (f : A → D B) : kindFirst m → (∀ a, noEOL (f a)) → kindFirst (dbind m f).
Proof.
  intros Hm Hf s. specialize (Hm s). unfold dbind. destruct (Stream_Kind s) as [[ks|e|] s1]; [| |done].
  - destruct (m s) as [[a|e|] s2]; [apply Hf|simpl in *; congruence|done].
  - destruct Hm as (e' & -> & He). eauto.
Qed.

Lemma kindFirst_wrapped {A} (m : D A) : kindFirst m → kindFirst (wrapped m).
Proof.
  intros Hm s. specialize (Hm s). unfold wrapped. destruct (Stream_Kind s) as [[ks|e|] s1]; [| |done].
  - destruct (m s) as [[a|[]|] s2]; simpl in *; done || congruence.
  - destruct Hm as (e' & -> & He). eexists. split; [done|]. destruct e'; simpl; done || auto.
Qed.

Lemma noEOL_ret {A} (a : A) : noEOL (dret a).
Proof. by intros s. Qed.

Lemma noEOL_err {A} e : e ≠ EOL → noEOL (derr (A:=A) e).
Proof. intros He s. simpl. congruence. Qed.

Lemma noEOL_bind {A B} (m : D A) (f : A → D B) : noEOL m → (∀ a, noEOL (f a)) → noEOL (dbind m f).
Proof. intros Hm Hf s. specialize (Hm s). unfold dbind. destruct (m s) as [[a|e|] s1]; [apply Hf|simpl in *; congruence|done]. Qed.

Lemma noEOL_wrapped {A} (m : D A) : noEOL m → noEOL (wrapped m).
Proof. intros Hm s. specialize (Hm s). unfold wrapped. destruct (m s) as [[a|[]|] s1]; simpl in *; done || congruence. Qed.

Lemma noEOL_readFull n : noEOL (Stream_readFull n).
Proof. intros s. apply (rw_noEOL s _ (readFull_work n s)). Qed.

Lemma noEOL_uintOf bits k n : noEOL (uintOf bits k n).
Proof.
  intros s. unfold uintOf. pose proof (rw_noEOL s _ (readUint_work n s)) as Hr.
  destruct k; [by destruct (_ =? _)%Z| |done]. destruct (_ <? n)%Z; [done|].
  destruct (Stream_readUint n s) as [[v|[]|] s1]; simpl in *; try done || congruence. by destruct (_ && _).
Qed.

Lemma noEOL_ListEnd : noEOL Stream_ListEnd.
Proof. intros s. unfold Stream_ListEnd. destruct (sStack s); [done|]. by destruct (negb _). Qed.

Lemma noEOL_sliceElems dec fuel : noEOL (decodeSliceElems dec fuel).
Proof.
  induction fuel as [|f IH]; intros s; [done|]. simpl. destruct (dec s) as [[v|[]|] s1]; try done.
  apply noEOL_bind; [done|]. intros vs. apply noEOL_ret.
Qed.

Lemma noEOL_arrayElems dec n : noEOL (decodeArrayElems dec n).
Proof.
  induction n as [|n IH]; intros s; [done|]. simpl. destruct (dec s) as [[v|[]|] s1]; try done.
  apply noEOL_bind; [done|]. intros vs. apply noEOL_ret.
Qed.

Lemma noEOL_fields dec ts : noEOL (decodeFields dec ts).
Proof.
  induction ts as [|t ts IH]; intros s; [done|]. simpl. destruct (dec t s) as [[v|[]|] s1]; try done.
  apply noEOL_bind; [done|]. intros vs. apply noEOL_ret.
Qed.

#[export] Hint Resolve kindFirst_bind kindFirst_wrapped noEOL_ret noEOL_bind noEOL_wrapped noEOL_readFull
  noEOL_uintOf noEOL_ListEnd noEOL_sliceElems noEOL_arrayElems noEOL_fields : rlp.

Lemma kindFirst_Kind' {A} (f : Kind * Z → D A) : (∀ ks, noEOL (f ks)) → kindFirst (dbind Stream_Kind f).
Proof. intros Hf. apply kindFirst_Kind. intros ks s s1 _. apply Hf. Qed.

Lemma kindFirst_Bytes : kindFirst Stream_Bytes.
Proof.
  apply kindFirst_Kind'. intros [k n]. cbn [fst snd]. destruct k; [by intros s| |by apply noEOL_err].
  apply noEOL_bind; [auto with rlp|]. intros [|x [|]]; repeat case_match; auto with rlp; by apply noEOL_err.
Qed.

Lemma kindFirst_uint bits : kindFirst (Stream_uint bits).
Proof. apply kindFirst_Kind'. auto with rlp. Qed.

Lemma kindFirst_Bool : kindFirst Stream_Bool.
Proof.
  apply kindFirst_bind; [apply kindFirst_uint|]. intros i. repeat case_match; auto with rlp. by apply noEOL_err.
Qed.

Lemma kindFirst_BigInt : kindFirst decodeBigInt.
Proof.
  apply kindFirst_bind; [apply kindFirst_wrapped, kindFirst_Bytes|]. intros l.
  repeat case_match; auto with rlp. by apply noEOL_err.
Qed.

Lemma kindFirst_ByteArray n : kindFirst (decodeByteArray n).
Proof.
  apply kindFirst_Kind'. intros [k size]. cbn [fst snd].
  destruct k; [| |by apply noEOL_err].
  - destruct (_ =? _)%nat; [by apply noEOL_err|]. destruct (_ <? _)%nat; [by apply noEOL_err|].
    intros s. by destruct (Stream_Uint s) as [[] ?].
  - destruct (_ <? _)%Z; [by apply noEOL_err|]. destruct (_ <? _)%Z; [by apply noEOL_err|].
    apply noEOL_bind; [auto with rlp|]. intros [|x [|]]; repeat case_match; auto with rlp; by apply noEOL_err.
Qed.

Lemma kindFirst_List : kindFirst Stream_List.
Proof.
  apply kindFirst_Kind'. intros [k n]. cbn [fst snd]. destruct (bool_decide _); [by apply noEOL_err|by intros s].
Qed.

Lemma kindFirst_struct body : noEOL body → kindFirst (decodeStruct body).
Proof. intros Hb. apply kindFirst_bind; [apply kindFirst_wrapped, kindFirst_List|]. auto 6 with rlp. Qed.

Lemma kindFirst_listSlice dec fuel : kindFirst (decodeListSlice dec fuel).
Proof.
  apply kindFirst_bind; [apply kindFirst_wrapped, kindFirst_List|]. intros size. destruct (_ =? _)%Z; auto 6 with rlp.
Qed.

(** [Kind] answers again what it answered. *)
Lemma Kind_again s ks s1 : Stream_Kind s = (DOk ks, s1) → Stream_Kind s1 = (DOk ks, s1).
Proof.
  unfold Stream_Kind at 1. destruct (sKind s) as [k|] eqn:Ek.
  - destruct (sKinderr s) eqn:Ee; [done|]. intros [= <- <-]. unfold Stream_Kind. by rewrite Ek, Ee.
  - destruct (atEOL _); [done|]. destruct (Stream_readKind _) as [[[k n] err] s2]. unfold storeKind.
    destruct err; [done|]. destruct (tagFits n s2); [done|]. by intros [= <- <-].
Qed.

Lemma kindFirst_interface f : kindFirst (decodeInterface (S f)).
Proof.
  intros s. rewrite decodeInterface_S. revert s. apply kindFirst_Kind. intros [k n] s s1 Hk%Kind_again. cbn [fst].
  assert (∀ {A} (m : D A) (g : A → gval), kindFirst m → ((x <~ m ;; dret (g x)) s1).1 ≠ DErr EOL) as Hm.
  { intros A m g Hm. specialize (Hm s1). rewrite Hk in Hm. unfold dbind. destruct (m s1) as [[]]; simpl in *; congruence. }
  destruct k; apply Hm; [apply kindFirst_Bytes..|apply kindFirst_listSlice].
Qed.

(** ** Elements one after the other *)

Lemma shifted_room_back n m s s' : shifted n s s' → room n s → room m s' → room (n + m) s.
Proof.
  intros [_ Hr Hl Hs] [H1 H2] [H3 H4]. split.
  - rewrite Hs in H3. destruct (sStack s); [done|]. simpl in H3. lia.
  - intros Hlim. rewrite Hl, Hr, Hlim in H4. specialize (H4 eq_refl). lia.
Qed.

Lemma sound_fresh {A} (enc : A → bytes → Prop) dec s v s' :
  sound enc dec → kindFirst dec → bounded s → sKind s = None → dec s = (DOk v, s') →
  ∃ e, enc v e ∧ sInput s = e ++ sInput s' ∧ moved (Z.of_nat (length e)) s s' ∧ bounded s'.
Proof.
  intros Hd Hkf Hb Hn Hs. specialize (Hkf s). destruct (Stream_Kind s) as [[ks|e|] s1] eqn:Hk; [| |done].
  2: { destruct Hkf as (e' & Hs' & _). congruence. }
  destruct (Kind_found s ks s1 Hb Hn Hk) as (c & rest & Hfd & Hroom & Hi & Hsh).
  destruct (Hd _ _ _ _ _ _ _ Hfd Hs) as (Hok & He & [Hm Hk']). exists (encKind ks.1 c).
  pose proof (fd_ahead _ _ _ _ _ Hfd) as Ha. rewrite tagOf_encKind, length_app, Nat2Z.inj_add in * by done.
  assert (shifted (Z.of_nat (length (tagOf ks.1 c)) + Z.of_nat (length (payload ks.1 c))) s s') as Hshift
    by (eapply shifted_trans; [lia|lia|done|done]).
  split_and!; [done| |by split|].
  - rewrite Hi, <- app_assoc. f_equal. destruct Hm as [-> _ _ _].
    by rewrite (ah_input _ _ _ _ _ Ha), Nat2Z.id, drop_app_length.
  - eapply bounded_shifted; [| |exact Hb|exact Hshift]; [lia|].
    eapply shifted_room_back; [exact Hsh|exact Hroom|apply Ha].
Qed.

(** [body] returns only the elements that are encoded ahead. *)
Definition soundBody {A} (encs : list A → list bytes → Prop) (body : D (list A)) : Prop :=
  ∀ s vs s', bounded s → sKind s = None → body s = (DOk vs, s') →
    ∃ es, encs vs es ∧ sInput s = concat es ++ sInput s' ∧ moved (Z.of_nat (length (concat es))) s s'.

Lemma soundBody_nil {A} (enc : A → bytes → Prop) s s' : sInput s' = sInput s → moved 0 s s' →
  ∃ es, Forall2 enc [] es ∧ sInput s = concat es ++ sInput s' ∧ moved (Z.of_nat (length (concat es))) s s'.
Proof. intros Hi Hm. exists []. by split_and!; [constructor|..]. Qed.

Lemma soundBody_cons {A} (enc : A → bytes → Prop) (encs : list A → list bytes → Prop) body dec v vs s s1 s' :
  sound enc dec → kindFirst dec → soundBody encs body → bounded s → sKind s = None →
  dec s = (DOk v, s1) → (vs <~ body ;; dret (v :: vs)) s1 = (DOk vs, s') →
  ∃ e vs' es, vs = v :: vs' ∧ enc v e ∧ encs vs' es ∧ sInput s = concat (e :: es) ++ sInput s' ∧
    moved (Z.of_nat (length (concat (e :: es)))) s s'.
Proof.
  intros Hd Hkf Hb Hbd Hn Hs Hs'.
  destruct (sound_fresh enc dec s v s1 Hd Hkf Hbd Hn Hs) as (e & He & Hi & Hm & Hbd1).
  unfold dbind in Hs'. destruct (body s1) as [[vs'| |] s2] eqn:E; try done. injection Hs' as <- <-.
  destruct (Hb s1 vs' s2 Hbd1 (proj2 Hm) E) as (es & Hes & Hi' & Hm').
  exists e, vs', es. cbn [concat]. rewrite length_app, Nat2Z.inj_add. split_and!; [done..|by rewrite Hi, Hi', app_assoc|].
  eapply moved_trans; [lia|lia|done|done].
Qed.

(** [EOL] leaves the stream where it was. *)
Lemma Kind_EOL s s1 : sKind s = None → Stream_Kind s = (DErr EOL, s1) → sInput s1 = sInput s ∧ moved 0 s s1.
Proof.
  intros Hn. unfold Stream_Kind. rewrite Hn. set (s0 := s <| sKinderr := None |>).
  destruct (atEOL s0). { intros [= <-]. split; [done|]. split; [by apply shifted_same|done]. }
  intros Hs. exfalso. revert Hs. unfold storeKind.
  assert (∀ n s2, tagFits n s2 ≠ Some EOL) as Ht by (intros n s2; unfold tagFits; repeat case_match; done).
  assert ((Stream_readKind s0).1.2 ≠ Some EOL) as Hr.
  { unfold Stream_readKind, sizedKind. pose proof (rw_noEOL _ _ (readByte_work s0)) as Hb.
    destruct (Stream_readByte s0) as [[b|e|] s2]; cbn [fst snd] in *; [|by repeat case_match; simplify_eq; simpl; congruence|done].
    repeat case_match; simplify_eq; simpl; try done;
      match goal with H : Stream_readUint ?n ?s = _ |- _ => pose proof (rw_noEOL _ _ (readUint_work n s)) as Hu; rewrite H in Hu end;
      simpl in Hu; congruence. }
  destruct (Stream_readKind s0) as [[[k n] err] s2]. simpl in Hr. specialize (Ht n s2).
  destruct err as [e|]; [congruence|]. destruct (tagFits n s2) as [e|]; congruence.
Qed.

Lemma kindFirst_EOL {A} (dec : D A) s s' : kindFirst dec → sKind s = None → dec s = (DErr EOL, s') →
  sInput s' = sInput s ∧ moved 0 s s'.
Proof.
  intros Hk Hn Hs. specialize (Hk s). rewrite Hs in Hk. destruct (Stream_Kind s) as [[ks|e|] s1] eqn:E; [done| |done].
  destruct Hk as (e' & [= <- <-] & He). rewrite (He eq_refl) in E. by apply Kind_EOL.
Qed.

Lemma sliceElems_sound enc dec fuel : sound enc dec → (fuel ≠ O → kindFirst dec) →
  soundBody (Forall2 enc) (decodeSliceElems dec fuel).
Proof.
  intros Hd Hkf. destruct fuel as [|fuel]; [done|]. specialize (Hkf ltac:(done)). revert fuel.
  intros fuel. generalize (S fuel). clear fuel. intros fuel. induction fuel as [|f IH]; intros s vs s' Hb Hn Hs; [done|]. cbn [decodeSliceElems] in Hs.
  destruct (dec s) as [[v|e|] s1] eqn:E; [| |done].
  - destruct (soundBody_cons enc (Forall2 enc) _ dec v vs s s1 s' Hd Hkf IH Hb Hn E Hs) as (e & vs' & es & -> & He & Hes & Hi & Hm).
    exists (e :: es). split_and!; [by constructor|done..].
  - destruct e; try done. injection Hs as <- <-. destruct (kindFirst_EOL dec s s1 Hkf Hn E). by apply soundBody_nil.
Qed.

Lemma arrayElems_sound enc dec n : sound enc dec → kindFirst dec →
  soundBody (fun vs es => Forall2 enc vs es ∧ length vs = n) (decodeArrayElems dec n).
Proof.
  intros Hd Hkf. induction n as [|n IH]; intros s vs s' Hb Hn Hs.
  { injection Hs as <- <-. exists []. split_and!; [constructor|done|done|]. split; [by apply shifted_same|done]. }
  cbn [decodeArrayElems] in Hs. destruct (dec s) as [[v|e|] s1] eqn:E; [|by destruct e|done].
  destruct (soundBody_cons enc _ _ dec v vs s s1 s' Hd Hkf IH Hb Hn E Hs) as (e & vs' & es & -> & He & [Hes Hl] & Hi & Hm).
  exists (e :: es). split_and!; [by constructor|simpl; lia|done..].
Qed.

Lemma fields_sound enc dec ts : Forall (fun t => sound enc (dec t) ∧ kindFirst (dec t)) ts →
  soundBody (Forall2 enc) (decodeFields dec ts).
Proof.
  induction 1 as [|t ts [Hd Hkf] _ IH]; intros s vs s' Hb Hn Hs.
  { injection Hs as <- <-. apply soundBody_nil; [done|]. split; [by apply shifted_same|done]. }
  simpl in Hs. destruct (dec t s) as [[v|e|] s1] eqn:E; [|by destruct e|done].
  destruct (soundBody_cons enc (Forall2 enc) _ (dec t) v vs s s1 s' Hd Hkf IH Hb Hn E Hs) as (e & vs' & es & -> & He & Hes & Hi & Hm).
  exists (e :: es). split_and!; [by constructor|done..].
Qed.

(** ** Lists *)

Lemma List_found k c rest s s1 n s2 : found k c rest s s1 → Stream_List s = (DOk n, s2) →
  k = List_ ∧ n = Z.of_nat (length c) ∧ is_u64 n ∧ bounded s2 ∧ sKind s2 = None ∧ sInput s2 = c ++ rest ∧
  sStack s2 = mkListpos 0 n :: sStack s1.
Proof.
  intros [Ha Hb _ _] Hs. pose proof (ah_room _ _ _ _ _ Ha) as Hroom. pose proof (bounded_room _ _ Hb Hroom) as Hle.
  unfold Stream_List in Hs. rewrite (ahead_bind _ _ _ _ _ _ Ha) in Hs. cbn [fst snd] in Hs.
  destruct (decide (k = List_)) as [->|]; [|by rewrite bool_decide_true in Hs]. rewrite bool_decide_false in Hs by auto.
  injection Hs as <- <-. cbn [payload] in *. pose proof (ah_input _ _ _ _ _ Ha) as Hi. destruct Hb as [[Hst Hr] Hl Hrem Hby _].
  assert (is_u64 (Z.of_nat (length c))) by (unfold is_u64 in *; lia).
  split_and!; try done. split; [split; [|done]|done..|]; simpl.
  - constructor; [|done]. simpl. unfold is_u64 in *. lia.
  - lia.
Qed.

(** Closing a list that was read to its end. *)
Lemma list_close (encs : list gval → list bytes → Prop) body c rest s s1 n s2 vs s3 s' :
  found List_ c rest s s1 → Stream_List s = (DOk n, s2) → soundBody encs body →
  body s2 = (DOk vs, s3) → Stream_ListEnd s3 = (DOk tt, s') →
  ∃ es, encs vs es ∧ c = concat es ∧ moved (Z.of_nat (length c)) s1 s'.
Proof.
  intros Hfd Hl Hb Hs He. destruct (List_found _ _ _ _ _ _ _ Hfd Hl) as (_ & -> & Hu & Hbd & Hn & Hi & Hst).
  destruct (Hb s2 vs s3 Hbd Hn Hs) as (es & Hes & Hi3 & Hm). exists es.
  assert (Z.of_nat (length (concat es)) = Z.of_nat (length c)) as Hlen.
  { pose proof He as He'. unfold Stream_ListEnd in He'. destruct Hm as [[_ _ _ Hs3] _]. rewrite Hs3, Hst in He'. revert He'. simpl.
    by destruct (Z.eqb_spec (0 + Z.of_nat (length (concat es))) (Z.of_nat (length c))). }
  split_and!; [done| |].
  - rewrite Hi in Hi3. symmetry. by apply app_inj_1 in Hi3 as [? _]; [|lia].
  - rewrite Hlen in Hm. destruct (list_open c rest s s1 (fd_ahead _ _ _ _ _ Hfd) Hu) as (s2' & Hl' & _ & _ & _ & _ & Hend).
    rewrite Hl in Hl'. injection Hl' as <-. destruct (Hend s3 Hm) as (s'' & He' & Hm'). congruence.
Qed.

Lemma struct_sound encs body : soundBody encs body →
  sound (fun vs e => ∃ es, encs vs es ∧ e = encList (concat es)) (decodeStruct body).
Proof.
  intros Hb k c rest s s1 v s' Hfd Hs. unfold decodeStruct, dbind, wrapped in Hs.
  destruct (Stream_List s) as [[n| |] s2] eqn:Hl; try done.
  destruct (body s2) as [[vs| |] s3] eqn:E; try done.
  destruct (Stream_ListEnd s3) as [[[]| |] s4] eqn:He; try done. injection Hs as <- <-.
  destruct (List_found _ _ _ _ _ _ _ Hfd Hl) as (-> & _).
  destruct (list_close encs body c rest s s1 n s2 vs s3 s4 Hfd Hl Hb E He) as (es & Hes & -> & Hm). eauto.
Qed.

Lemma listSlice_sound enc dec fuel : sound enc dec → (fuel ≠ O → kindFirst dec) →
  sound (fun vs e => ∃ es, Forall2 enc vs es ∧ e = encList (concat es)) (decodeListSlice dec fuel).
Proof.
  intros Hd Hkf k c rest s s1 v s' Hfd Hs. unfold decodeListSlice, wrapped in Hs. unfold dbind at 1 in Hs.
  destruct (Stream_List s) as [[n| |] s2] eqn:Hl; try done. destruct (List_found _ _ _ _ _ _ _ Hfd Hl) as (-> & Hn & _).
  destruct (n =? 0)%Z eqn:E0.
  - unfold dbind in Hs. destruct (Stream_ListEnd s2) as [[[]| |] s3] eqn:He; try done. injection Hs as <- <-.
    assert (soundBody (Forall2 enc) (dret [])) as Hnil.
    { intros t vs t' _ Hk [= <- <-]. apply soundBody_nil; [done|]. split; [by apply shifted_same|done]. }
    destruct (list_close (Forall2 enc) (dret []) c rest s s1 n s2 [] s2 s3 Hfd Hl Hnil eq_refl He) as (es & Hes & -> & Hm). eauto.
  - unfold dbind in Hs. destruct (decodeSliceElems dec fuel s2) as [[vs| |] s3] eqn:E; try done.
    destruct (Stream_ListEnd s3) as [[[]| |] s4] eqn:He; try done. injection Hs as <- <-.
    destruct (list_close (Forall2 enc) _ c rest s s1 n s2 vs s3 s4 Hfd Hl (sliceElems_sound enc dec fuel Hd Hkf) E He)
      as (es & Hes & -> & Hm). eauto.
Qed.

(** ** Whole values *)

(** [v] is encoded as [e], and its integers fit. *)
Definition encodesTo (v : gval) (e : bytes) : Prop := encoding v = Ok e ∧ wtVal v.

Lemma encSeq_concat vs es : Forall2 encodesTo vs es → encSeq encoding vs = Ok (concat es) ∧ Forall wtVal vs.
Proof.
  induction 1 as [|v e vs es [He Hw] _ [IH1 IH2]]; [by split|]. simpl. rewrite He, IH1. split; [done|by constructor].
Qed.

Lemma encodesTo_slice vs es : Forall2 encodesTo vs es → encodesTo (VSlice vs) (encList (concat es)).
Proof. intros [H1 H2]%encSeq_concat. split; [simpl; by rewrite H1|by apply wtVal_Forall]. Qed.

Lemma interface_sound fuel : sound encodesTo (decodeInterface fuel).
Proof.
  induction fuel as [|f IH]; intros k c rest s s1 v s' Hfd Hs; [done|]. rewrite decodeInterface_S in Hs.
  rewrite (ahead_bind _ _ _ _ _ _ (fd_ahead _ _ _ _ _ Hfd)) in Hs. cbn [fst] in Hs.
  pose proof (found_pending _ _ _ _ _ Hfd) as Hfd1.
  assert (∀ v s', (b <~ Stream_Bytes ;; dret (VInterface (Some (VBytes b)))) s1 = (DOk v, s') →
    kindOK k c = true ∧ encodesTo v (encKind k c) ∧ moved (Z.of_nat (length (payload k c))) s1 s') as Hbytes.
  { intros v' s'' Hs'. eapply (sound_map _ encodesTo _ _ _ Bytes_sound); [exact Hfd1|exact Hs'].
    Unshelve. by intros a e ->. }
  destruct k; [by apply Hbytes..|].
  eapply (sound_map _ encodesTo _ _ _ (listSlice_sound encodesTo (decodeInterface f) f IH _)); [exact Hfd1|exact Hs].
  Unshelve.
  - intros vs e (es & Hes & ->). by apply encodesTo_slice.
  - destruct f; [done|]. intros _. apply kindFirst_interface.
Qed.

(** Types of which every accepted encoding is the canonical one of its value.  Left out
    are raw values and maps (re-encoded differently), pointers with the "nil" tag
    (either empty value is accepted), "tail" fields and arrays of one byte. *)
Fixpoint canonicalTy (t : gtyp) : bool :=
  match t with
  | TyRaw | TyMap | TyPtrNil _ | TyTail _ | TyByteArray 1 => false
  | TyUint bits => (bits <=? 64)%Z
  | TyArray _ t | TySlice t | TyPtr t => canonicalTy t
  | TyStruct ts => forallb canonicalTy ts
  | _ => true
  end.

Section canonical.
Context (remarshal : bytes → bytes).

Lemma kindFirst_decode f t : canonicalTy t = true → kindFirst (decode remarshal (S f) t).
Proof.
  induction t as [| | |bits| | | |n|n t IH|t IH|t IH|ts IH|t IH|t IH| |] using gtyp_nested_ind; intros Ht; try done.
  - apply kindFirst_bind; [apply kindFirst_BigInt|auto with rlp].
  - apply kindFirst_bind; [apply kindFirst_BigInt|auto with rlp].
  - apply kindFirst_bind; [apply kindFirst_wrapped, kindFirst_uint|auto with rlp].
  - apply kindFirst_bind; [apply kindFirst_wrapped, kindFirst_Bool|auto with rlp].
  - apply kindFirst_bind; [apply kindFirst_wrapped, kindFirst_Bytes|auto with rlp].
  - apply kindFirst_bind; [apply kindFirst_wrapped, kindFirst_Bytes|auto with rlp].
  - apply kindFirst_bind; [apply kindFirst_ByteArray|auto with rlp].
  - apply kindFirst_bind; [apply kindFirst_struct; auto with rlp|auto with rlp].
  - apply kindFirst_bind; [apply kindFirst_listSlice|auto with rlp].
  - apply kindFirst_bind; [apply kindFirst_struct; auto with rlp|auto with rlp].
  - apply kindFirst_bind; [by apply IH|auto with rlp].
  - apply kindFirst_interface.
Qed.

Lemma decode_sound f t : canonicalTy t = true → sound encodesTo (decode remarshal (S f) t).
Proof.
  induction t as [| | |bits| | | |n|n t IH|t IH|t IH|ts IH|t IH|t IH| |] using gtyp_nested_ind; intros Ht; try done.
  - eapply sound_map; [|apply BigInt_sound]. by intros i e He.
  - eapply sound_map; [|apply BigInt_sound]. by intros i e He.
  - eapply sound_map; [|apply sound_wrapped, uint_sound; by apply Z.leb_le]. by intros i e [-> ?].
  - eapply sound_map; [|apply sound_wrapped, Bool_sound]. by intros i e ->.
  - eapply sound_map; [|apply sound_wrapped, Bytes_sound]. by intros i e ->.
  - eapply sound_map; [|apply sound_wrapped, Bytes_sound]. by intros i e ->.
  - eapply sound_map; [|apply ByteArray_sound]; [by intros i e ->|]. by intros ->.
  - eapply sound_map; [|apply struct_sound, arrayElems_sound; [by apply IH|by apply kindFirst_decode]].
    intros vs e (es & [Hes _] & ->). by apply encodesTo_slice.
  - eapply sound_map; [|apply listSlice_sound; [by apply IH|intros _; by apply kindFirst_decode]].
    intros vs e (es & Hes & ->). by apply encodesTo_slice.
  - eapply sound_map; [|apply struct_sound, (fields_sound encodesTo)].
    + intros vs e (es & Hes & ->). by apply encodesTo_slice.
    + simpl in Ht. rewrite forallb_forall in Ht. rewrite Forall_forall in IH |- *. intros t Hin.
      assert (canonicalTy t = true) as Hc by (apply Ht; by apply list_elem_of_In).
      split; [by apply IH|by apply kindFirst_decode].
  - eapply sound_map; [|by apply IH]. by intros v e.
  - apply interface_sound.
Qed.

End canonical.

(** ** The properties *)


Definition demoCanonicalTy : gtyp := TyStruct [TyUint 64; TySlice TyString; TyInterface].

