(* ===== verification/RlpTyped.v ===== *)
(** * Decoded values have the type asked for

    [src/rlp/decode.go] stores what it reads into a destination of a given Go type.  The
    decoders of [RlpDecode] return the value instead; here it is shown that the value
    has the shape of the type, whatever the input ([DecodeBytes_typed]), so that code
    that asked for a struct may take it apart. *)

From stdpp Require Import base list strings.
From Stdlib Require Import ZArith Lia.
From S2P Require Import Prelude Common RlpEncode RlpRaw RlpDecode RlpRoundtrip RlpTotal RlpCanonical.

(** The values of a type; a nil pointer only where the field allows one. *)
Fixpoint shape (t : gtyp) (v : gval) : Prop :=
  match t, v with
  | TyRaw, VRaw _ | TyBigIntPtr, VBigIntPtr (Some _) | TyBigInt, VBigInt _ | TyUint _, VUint _ | TyBool, VBool _
  | TyString, VString _ | TyBytes, VBytes _ | TyMap, VMap _ | TyInterface, VInterface (Some _) => True
  | TyByteArray n, VByteArray b => length b = n
  | TyArray n t, VSlice l => length l = n ∧ Forall (shape t) l
  | TySlice t, VSlice l | TyTail t, VTail l => Forall (shape t) l
  | TyStruct ts, VStruct l =>
      (fix go ts l := match ts, l with
                      | [], [] => True
                      | t :: ts', v :: l' => shape t v ∧ go ts' l'
                      | _, _ => False
                      end) ts l
  | TyPtr t, VPtr v => shape t v
  | TyPtrNil t, VPtr v => shape t v
  | TyPtrNil t, v => v = zeroOf (TyPtrNil t)
  | _, _ => False
  end.

(** Every value a decoder returns satisfies [P]. *)
Definition yields {A} (P : A → Prop) (dec : D A) : Prop := ∀ s v s', dec s = (DOk v, s') → P v.

Lemma yields_bind {A B} (P : A → Prop) (Q : B → Prop) (m : D A) (f : A → D B) :
  yields P m → (∀ a, P a → yields Q (f a)) → yields Q (dbind m f).
Proof.
  intros Hm Hf s v s'. unfold dbind. destruct (m s) as [[a|e|] s1] eqn:E; try done. apply Hf. by eapply Hm.
Qed.

Lemma yields_then {A B} (Q : B → Prop) (m : D A) (f : A → D B) : (∀ a, yields Q (f a)) → yields Q (dbind m f).
Proof. intros Hf. apply (yields_bind (fun _ => True)); [done|]. intros a _. apply Hf. Qed.

Lemma yields_ret {A} (P : A → Prop) a : P a → yields P (dret a).
Proof. intros Ha s v s' [= <- <-]. done. Qed.

Lemma yields_err {A} (P : A → Prop) e : yields P (derr e).
Proof. done. Qed.

Lemma yields_map {A B} (P : A → Prop) (Q : B → Prop) (m : D A) (f : A → B) :
  yields P m → (∀ a, P a → Q (f a)) → yields Q (x <~ m ;; dret (f x)).
Proof. intros Hm Hf. apply (yields_bind P); [done|]. intros a Ha. by apply yields_ret, Hf. Qed.

Create HintDb rlp_typed.
#[export] Hint Resolve yields_then yields_ret yields_err : rlp_typed.

Lemma yields_sliceElems P dec fuel : yields P dec → yields (Forall P) (decodeSliceElems dec fuel).
Proof.
  intros Hd. induction fuel as [|fuel IH]; intros s l s'; cbn; [done|].
  destruct (dec s) as [[v|e|] s1] eqn:E; [|by destruct e; intros [= <- <-]|done].
  apply (yields_map (Forall P)); [done|]. intros vs Hvs. constructor; [by eapply Hd|done].
Qed.

Lemma yields_listSlice P dec fuel : yields P dec → yields (Forall P) (decodeListSlice dec fuel).
Proof.
  intros Hd. apply yields_then. intros n. destruct (n =? 0)%Z; [auto with rlp_typed|].
  apply (yields_bind (Forall P)); [by apply yields_sliceElems|]. auto with rlp_typed.
Qed.

Lemma yields_arrayElems P dec n : yields P dec → yields (fun l => length l = n ∧ Forall P l) (decodeArrayElems dec n).
Proof.
  intros Hd. induction n as [|n IH]; intros s l s'; cbn; [by intros [= <- <-]|].
  destruct (dec s) as [[v|e|] s1] eqn:E; [|by destruct e|done].
  apply (yields_map (fun l => length l = n ∧ Forall P l) (fun l => length l = S n ∧ Forall P l)); [done|]. intros vs [<- Hvs].
  split; [done|]. constructor; [by eapply Hd|done].
Qed.

Lemma yields_fields dec ts : Forall (fun t => yields (shape t) (dec t)) ts →
  yields (fun l => shape (TyStruct ts) (VStruct l)) (decodeFields dec ts).
Proof.
  induction 1 as [|t ts Ht Hts IH]; [by apply yields_ret|]. intros s l s'. cbn [decodeFields].
  destruct (dec t s) as [[v|e|] s1] eqn:E; [|by destruct e|done].
  apply (yields_map (fun l => shape (TyStruct ts) (VStruct l)) (fun l => shape (TyStruct (t :: ts)) (VStruct l))); [done|].
  intros vs Hvs. split; [by eapply Ht|done].
Qed.

Lemma yields_interface fuel : yields (shape TyInterface) (decodeInterface fuel).
Proof.
  destruct fuel as [|fuel]; [done|]. cbn [decodeInterface]. intros s v s'. revert s v s'. apply yields_then. intros ks.
  destruct ks.1; apply yields_then; intros; by apply yields_ret.
Qed.

Lemma yields_byteArray n : yields (fun b => length b = n) (decodeByteArray n).
Proof.
  apply yields_then. intros [k size]. cbn [fst snd]. destruct k.
  - destruct n as [|[|n]]; [by apply yields_err| |by apply yields_err]. cbn. intros s v s'.
    destruct (Stream_Uint s) as [[b|e|] s1]; by intros [= <- <-].
  - destruct (_ <? _)%Z; [apply yields_err|]. destruct (_ <? _)%Z; [apply yields_err|].
    apply (yields_bind (fun b => length b = n)).
    + apply yields_then. intros _ s b s'. destruct (Z.leb_spec (Z.of_nat n) (Z.of_nat (length (sInput s)))); [|done].
      intros [= <- <-]. rewrite length_take. lia.
    + intros b Hb. destruct b as [|x [|y b]]; [by apply yields_ret| |by apply yields_ret].
      destruct (_ <? _)%Z; [apply yields_err|by apply yields_ret].
  - apply yields_err.
Qed.

Lemma shape_nil t v : v = zeroOf (TyPtrNil t) → shape (TyPtrNil t) v.
Proof. intros ->. by destruct t. Qed.

Lemma yields_decode r fuel t : yields (shape t) (decode r fuel t).
Proof.
  induction t as [| | |bits| | | |n|n t IH|t IH|t IH|ts IH|t IH|t IH| |] using gtyp_nested_ind; cbn [decode];
    try (by apply yields_then; intros; apply yields_ret).
  - apply (yields_map (fun b => length b = n)); [apply yields_byteArray|done].
  - apply (yields_map (fun l => length l = n ∧ Forall (shape t) l)); [|done].
    apply yields_then. intros _. apply (yields_bind (fun l => length l = n ∧ Forall (shape t) l)); [by apply yields_arrayElems|].
    auto with rlp_typed.
  - apply (yields_map (Forall (shape t))); [by apply yields_listSlice|done].
  - apply (yields_map (Forall (shape t))); [by apply yields_sliceElems|done].
  - apply (yields_map (fun l => shape (TyStruct ts) (VStruct l))); [|done].
    apply yields_then. intros _. apply (yields_bind (fun l => shape (TyStruct ts) (VStruct l))); [by apply yields_fields|].
    auto with rlp_typed.
  - by apply (yields_map (shape t)).
  - intros s v s'. unfold optionalPtr. destruct (Stream_Kind s) as [[[k n]|e|] s1]; try done.
    destruct (_ && _); [intros [= <- <-]; by apply shape_nil|]. by apply (yields_map (shape t)).
  - apply yields_interface.
Qed.


