(* ===== verification/Interpolation.v ===== *)
(** * Polynomials and Lagrange interpolation over a field

    The mathematics behind [src/crypto/shamir]: polynomial functions over an
    arbitrary field, given by a [field_theory].  A polynomial function with
    fewer coefficients than roots is zero, so the sum of Lagrange basis polynomials
    through enough samples of a polynomial is that polynomial.  [Shamir.v]
    instantiates the section with the field of bytes of [Galois.v]. *)

From stdpp Require Import base list.
From Stdlib Require Import Lia Field_theory Ring.

Section Interpolation.

Context {F : Type} (zero one : F) (add mul sub : F → F → F) (opp : F → F)
  (div : F → F → F) (inv : F → F).
Hypothesis field : field_theory zero one add mul sub opp div inv (=).

Notation "0" := zero.
Notation "1" := one.
Infix "+" := add.
Infix "*" := mul.
Infix "-" := sub.
Infix "/" := div.

Add Ring Fring : (F_R field).

(** ** Polynomial functions

    [eval cs x] is [c0 + c1 x + c2 x^2 + ...]. *)

Definition eval (cs : list F) (x : F) : F := foldr (fun c r => c + x * r) 0 cs.

(** [f] is given by at most [n] coefficients. *)
Definition PolyFn (n : nat) (f : F → F) : Prop :=
  ∃ cs, (length cs ≤ n)%nat ∧ ∀ x, f x = eval cs x.

Fixpoint addCoeffs (a b : list F) : list F :=
  match a, b with
  | [], _ => b
  | _, [] => a
  | x :: a', y :: b' => (x + y) :: addCoeffs a' b'
  end.

Lemma eval_addCoeffs a b x : eval (addCoeffs a b) x = eval a x + eval b x.
Proof.
  revert b. induction a as [|c a IH]; intros [|d b]; cbn; try ring.
  fold (eval a x) (eval b x) (eval (addCoeffs a b) x). rewrite IH. ring.
Qed.

Lemma length_addCoeffs a b : length (addCoeffs a b) = max (length a) (length b).
Proof. revert b. induction a as [|c a IH]; intros [|d b]; cbn; [done..|]. by rewrite IH. Qed.

Lemma PolyFn_ext n f g : (∀ x, f x = g x) → PolyFn n f → PolyFn n g.
Proof. intros H (cs & ? & Hcs). exists cs. split; [done|]. intros x. by rewrite <- H. Qed.

Lemma PolyFn_mono n m f : (n ≤ m)%nat → PolyFn n f → PolyFn m f.
Proof. intros ? (cs & ? & ?). exists cs. split; [lia|done]. Qed.

Lemma PolyFn_eval cs : PolyFn (length cs) (eval cs).
Proof. by exists cs. Qed.

Lemma PolyFn_const n c : PolyFn (S n) (fun _ => c).
Proof. exists [c]. split; [simpl; lia|]. intros x. cbn. ring. Qed.

Lemma PolyFn_zero n : PolyFn n (fun _ => 0).
Proof. exists []. by split; [simpl; lia|]. Qed.

Lemma PolyFn_add n f g : PolyFn n f → PolyFn n g → PolyFn n (fun x => f x + g x).
Proof.
  intros (a & ? & Ha) (b & ? & Hb). exists (addCoeffs a b).
  rewrite length_addCoeffs. split; [lia|]. intros x. by rewrite eval_addCoeffs, Ha, Hb.
Qed.

Lemma PolyFn_scale n c f : PolyFn n f → PolyFn n (fun x => c * f x).
Proof.
  intros (a & ? & Ha). exists ((mul c) <$> a). rewrite length_fmap. split; [done|].
  intros x. rewrite Ha. clear - field. induction a as [|d a IH]; cbn; [ring|].
  cbn in IH. fold (eval a x) in *. fold (eval (mul c <$> a) x) in *. rewrite <- IH. ring.
Qed.

Lemma PolyFn_shift n f : PolyFn n f → PolyFn (S n) (fun x => x * f x).
Proof.
  intros (a & ? & Ha). exists (0 :: a). split; [simpl; lia|].
  intros x. cbn. fold (eval a x). rewrite Ha. ring.
Qed.

Lemma PolyFn_mul_linear n r f : PolyFn n f → PolyFn (S n) (fun x => (x - r) * f x).
Proof.
  intros Hf. apply (PolyFn_ext _ (fun x => x * f x + (opp r) * f x)); [intros; ring|].
  apply PolyFn_add; [by apply PolyFn_shift|].
  apply (PolyFn_mono n); [lia|]. by apply PolyFn_scale.
Qed.

(** ** Roots

    Division with remainder by [x - r], then counting of roots. *)

Lemma eval_divide cs r : ∃ g, PolyFn (pred (length cs)) g ∧
  ∀ x, eval cs x = eval cs r + (x - r) * g x.
Proof.
  induction cs as [|c cs (g & Hg & Heq)]; cbn.
  - exists (fun _ => 0). split; [apply PolyFn_zero|]. intros. ring.
  - fold (eval cs r). destruct cs as [|d cs].
    + exists (fun _ => 0). split; [apply PolyFn_zero|]. intros. cbn. ring.
    + exists (fun x => eval (d :: cs) r + x * g x). split.
      * apply PolyFn_add; [apply PolyFn_const|]. by apply PolyFn_shift.
      * intros x. change (foldr _ 0 (d :: cs)) with (eval (d :: cs) x). rewrite Heq. ring.
Qed.

Lemma integral x y : x * y = 0 → x ≠ 0 → y = 0.
Proof.
  intros Hxy Hx.
  assert (H : inv x * x = 1) by by apply (Finv_l field).
  transitivity (inv x * x * y); [rewrite H; ring|].
  transitivity (inv x * (x * y)); [ring|]. rewrite Hxy. ring.
Qed.

Lemma sub_nonzero x y : x ≠ y → x - y ≠ 0.
Proof.
  intros Hne Heq. apply Hne. transitivity (x - y + y); [ring|]. rewrite Heq. ring.
Qed.

(** A polynomial function with at most [n] coefficients and [n] distinct roots is zero. *)
Lemma PolyFn_roots rs f :
  PolyFn (length rs) f → NoDup rs → (∀ r, r ∈ rs → f r = 0) → ∀ x, f x = 0.
Proof.
  revert f. induction rs as [|r rs IH]; intros f (cs & Hlen & Hcs) Hnd Hroots x.
  - destruct cs; [by rewrite Hcs|simpl in Hlen; lia].
  - apply NoDup_cons in Hnd as [Hnotin Hnd].
    destruct (eval_divide cs r) as (g & Hg & Hdiv).
    assert (Hr : eval cs r = 0) by (rewrite <- Hcs; apply Hroots; left).
    assert (Hgx : ∀ y, g y = 0).
    { apply IH; [|done|].
      - eapply PolyFn_mono; [|exact Hg]. simpl in Hlen. lia.
      - intros s Hs. apply (integral (s - r)).
        + transitivity (f s); [rewrite Hcs, Hdiv, Hr; ring|]. apply Hroots. by right.
        + apply sub_nonzero. by intros ->. }
    rewrite Hcs, Hdiv, Hr, Hgx. ring.
Qed.

(** ** Lagrange interpolation

    [basis x xi xs] is the product of [(x - xj) / (xi - xj)] over [xs]. *)

Definition basis (x xi : F) (xs : list F) : F :=
  foldr (fun xj b => (x - xj) / (xi - xj) * b) 1 xs.

Lemma PolyFn_basis xi xs : PolyFn (S (length xs)) (fun x => basis x xi xs).
Proof.
  induction xs as [|xj xs IH]; cbn; [apply PolyFn_const|].
  apply (PolyFn_ext _ (fun x => inv (xi - xj) * ((x - xj) * basis x xi xs))).
  - intros x. fold (basis x xi xs). rewrite (Fdiv_def field). ring.
  - by apply PolyFn_scale, PolyFn_mul_linear.
Qed.

Lemma basis_self xi xs : xi ∉ xs → basis xi xi xs = 1.
Proof.
  induction xs as [|xj xs IH]; [done|]. intros [Hne Hni]%not_elem_of_cons. cbn.
  fold (basis xi xi xs). rewrite IH by done. rewrite (Fdiv_def field).
  transitivity (inv (xi - xj) * (xi - xj)); [ring|].
  apply (Finv_l field). by apply sub_nonzero.
Qed.

Lemma basis_other x xi xs : x ∈ xs → basis x xi xs = 0.
Proof.
  induction 1 as [x xs|x y xs H IH]; cbn; fold (basis x xi xs).
  - rewrite (Fdiv_def field). ring.
  - rewrite IH. ring.
Qed.

(** The terms of the interpolation at [x]: for each split of the samples, the
    ordinate times the basis of the others. *)
Fixpoint lagrangeAt (pre : list F) (xs : list F) (f : F → F) (x : F) : F :=
  match xs with
  | [] => 0
  | xi :: xs' => f xi * basis x xi (pre ++ xs') + lagrangeAt (pre ++ [xi]) xs' f x
  end.

Lemma PolyFn_lagrangeAt pre xs f :
  PolyFn (length pre + length xs) (fun x => lagrangeAt pre xs f x).
Proof.
  revert pre. induction xs as [|xi xs IH]; intros pre; cbn; [apply PolyFn_zero|].
  apply PolyFn_add.
  - apply PolyFn_scale. eapply PolyFn_mono; [|apply PolyFn_basis]. rewrite length_app. lia.
  - eapply PolyFn_mono; [|apply IH]. rewrite length_app. simpl. lia.
Qed.

Lemma lagrangeAt_pre pre xs f x : x ∈ pre → lagrangeAt pre xs f x = 0.
Proof.
  revert pre. induction xs as [|xi xs IH]; intros pre Hx; cbn; [done|].
  rewrite (basis_other x) by (apply elem_of_app; by left).
  rewrite IH by (apply elem_of_app; by left). ring.
Qed.

Lemma lagrangeAt_sample pre xs f x :
  NoDup (pre ++ xs) → x ∈ xs → lagrangeAt pre xs f x = f x.
Proof.
  revert pre. induction xs as [|xi xs IH]; intros pre Hnd Hx; cbn; [by apply elem_of_nil in Hx|].
  assert (Hxi : xi ∉ pre ++ xs).
  { apply NoDup_app in Hnd as (_ & Hdisj & Hnd). apply NoDup_cons in Hnd as [? _].
    rewrite elem_of_app. intros [Hin|Hin]; [|done]. apply (Hdisj _ Hin). by left. }
  apply elem_of_cons in Hx as [->|Hx].
  - rewrite basis_self by done. rewrite lagrangeAt_pre by (apply elem_of_app; right; by left). ring.
  - rewrite basis_other by (apply elem_of_app; by right).
    rewrite (IH (pre ++ [xi])); [ring| |done]. by rewrite <- app_assoc.
Qed.

(** Interpolation through at least as many distinct samples of a polynomial as
    it has coefficients gives the polynomial back, at every point. *)
Lemma lagrangeAt_eval cs xs x :
  NoDup xs → (length cs ≤ length xs)%nat → lagrangeAt [] xs (eval cs) x = eval cs x.
Proof.
  intros Hnd Hlen.
  assert (H : lagrangeAt [] xs (eval cs) x + opp 1 * eval cs x = 0).
  { apply (PolyFn_roots xs (fun y => lagrangeAt [] xs (eval cs) y + opp 1 * eval cs y)).
    - apply PolyFn_add; [apply (PolyFn_lagrangeAt [])|].
      apply PolyFn_scale. eapply PolyFn_mono; [exact Hlen|apply PolyFn_eval].
    - done.
    - intros r Hr. rewrite (lagrangeAt_sample []) by done. ring. }
  transitivity (lagrangeAt [] xs (eval cs) x + opp 1 * eval cs x + eval cs x); [ring|].
  rewrite H. ring.
Qed.

(** ** Existence and uniqueness of the interpolating coefficients *)

Lemma eval_pad cs n x : eval (cs ++ replicate n 0) x = eval cs x.
Proof.
  induction cs as [|c cs IH]; cbn [app].
  - induction n as [|n IHn]; cbn; [done|]. fold (eval (replicate n 0) x).
    rewrite IHn. cbn. ring.
  - cbn. fold (eval (cs ++ replicate n 0) x) (eval cs x). by rewrite IH.
Qed.

Lemma interpolant xs f : NoDup xs → ∃ cs, length cs = length xs ∧ ∀ x, x ∈ xs → eval cs x = f x.
Proof.
  intros Hnd. destruct (PolyFn_lagrangeAt [] xs f) as (cs & Hlen & Hcs). cbn in Hlen.
  exists (cs ++ replicate (length xs - length cs) 0). split.
  - rewrite length_app, length_replicate. lia.
  - intros x Hx. rewrite eval_pad, <- Hcs. by apply lagrangeAt_sample.
Qed.

(** Polynomials with at most [n] coefficients that agree on [n] points agree. *)
Lemma eval_agree a b xs : (length a ≤ length xs)%nat → (length b ≤ length xs)%nat → NoDup xs →
  (∀ x, x ∈ xs → eval a x = eval b x) → ∀ x, eval a x = eval b x.
Proof.
  intros Ha Hb Hnd Hag x.
  assert (H : eval a x + opp 1 * eval b x = 0).
  { apply (PolyFn_roots xs (fun y => eval a y + opp 1 * eval b y)).
    - apply PolyFn_add; [|apply PolyFn_scale]; (eapply PolyFn_mono; [|apply PolyFn_eval]); done.
    - done.
    - intros r Hr. rewrite Hag by done. ring. }
  transitivity (eval a x + opp 1 * eval b x + eval b x); [ring|]. rewrite H. ring.
Qed.

(** The coefficients are determined by the function. *)
Lemma eval_coeffs a b nz : NoDup nz → 0 ∉ nz → length a = length b → (length a ≤ S (length nz))%nat →
  (∀ x, eval a x = eval b x) → a = b.
Proof.
  intros Hnd H0. revert b. induction a as [|c a IH]; intros [|d b] Hlen Hle Heq; try done.
  cbn in Hlen, Hle. assert (c = d) as <-.
  { specialize (Heq 0). cbn in Heq. fold (eval a 0) (eval b 0) in Heq.
    transitivity (c + 0 * eval a 0); [ring|]. rewrite Heq. ring. }
  f_equal. apply IH; [lia..|]. apply (eval_agree _ _ nz); [lia|lia|done|].
  intros x Hx. assert (x ≠ 0) by by intros ->.
  assert (Hz : eval a x + opp 1 * eval b x = 0).
  { apply (integral x); [|done]. specialize (Heq x). cbn in Heq. fold (eval a x) (eval b x) in Heq.
    transitivity (c + x * eval a x + opp 1 * (c + x * eval b x)); [ring|]. rewrite Heq. ring. }
  transitivity (eval a x + opp 1 * eval b x + eval b x); [ring|]. rewrite Hz. ring.
Qed.

End Interpolation.
