(* ===== verification/Galois.v ===== *)
(** * Arithmetic on bytes as the field GF(2^8)

    [add], [mult] and [div] of [src/crypto/shamir/shamir.go] with the tables of
    [tables.go].  A reference multiplication, shift-and-add of polynomials over
    GF(2) modulo [x^8 + x^4 + x^3 + x + 1], has the ring laws by linearity; the
    table-driven [mult] equals it, and bytes with the code's operations form a field
    ([gf_field]), the instance [Shamir.v] interpolates over. *)

From stdpp Require Import base list.
From Stdlib Require Import ZArith Lia Ring Field_theory Eqdep_dec.
From S2P Require Import Prelude Common.
Local Open Scope Z_scope.

(** ** tables.go *)

Definition logTable : list Z := [
    0x00; 0xff; 0xc8; 0x08; 0x91; 0x10; 0xd0; 0x36;
    0x5a; 0x3e; 0xd8; 0x43; 0x99; 0x77; 0xfe; 0x18;
    0x23; 0x20; 0x07; 0x70; 0xa1; 0x6c; 0x0c; 0x7f;
    0x62; 0x8b; 0x40; 0x46; 0xc7; 0x4b; 0xe0; 0x0e;
    0xeb; 0x16; 0xe8; 0xad; 0xcf; 0xcd; 0x39; 0x53;
    0x6a; 0x27; 0x35; 0x93; 0xd4; 0x4e; 0x48; 0xc3;
    0x2b; 0x79; 0x54; 0x28; 0x09; 0x78; 0x0f; 0x21;
    0x90; 0x87; 0x14; 0x2a; 0xa9; 0x9c; 0xd6; 0x74;
    0xb4; 0x7c; 0xde; 0xed; 0xb1; 0x86; 0x76; 0xa4;
    0x98; 0xe2; 0x96; 0x8f; 0x02; 0x32; 0x1c; 0xc1;
    0x33; 0xee; 0xef; 0x81; 0xfd; 0x30; 0x5c; 0x13;
    0x9d; 0x29; 0x17; 0xc4; 0x11; 0x44; 0x8c; 0x80;
    0xf3; 0x73; 0x42; 0x1e; 0x1d; 0xb5; 0xf0; 0x12;
    0xd1; 0x5b; 0x41; 0xa2; 0xd7; 0x2c; 0xe9; 0xd5;
    0x59; 0xcb; 0x50; 0xa8; 0xdc; 0xfc; 0xf2; 0x56;
    0x72; 0xa6; 0x65; 0x2f; 0x9f; 0x9b; 0x3d; 0xba;
    0x7d; 0xc2; 0x45; 0x82; 0xa7; 0x57; 0xb6; 0xa3;
    0x7a; 0x75; 0x4f; 0xae; 0x3f; 0x37; 0x6d; 0x47;
    0x61; 0xbe; 0xab; 0xd3; 0x5f; 0xb0; 0x58; 0xaf;
    0xca; 0x5e; 0xfa; 0x85; 0xe4; 0x4d; 0x8a; 0x05;
    0xfb; 0x60; 0xb7; 0x7b; 0xb8; 0x26; 0x4a; 0x67;
    0xc6; 0x1a; 0xf8; 0x69; 0x25; 0xb3; 0xdb; 0xbd;
    0x66; 0xdd; 0xf1; 0xd2; 0xdf; 0x03; 0x8d; 0x34;
    0xd9; 0x92; 0x0d; 0x63; 0x55; 0xaa; 0x49; 0xec;
    0xbc; 0x95; 0x3c; 0x84; 0x0b; 0xf5; 0xe6; 0xe7;
    0xe5; 0xac; 0x7e; 0x6e; 0xb9; 0xf9; 0xda; 0x8e;
    0x9a; 0xc9; 0x24; 0xe1; 0x0a; 0x15; 0x6b; 0x3a;
    0xa0; 0x51; 0xf4; 0xea; 0xb2; 0x97; 0x9e; 0x5d;
    0x22; 0x88; 0x94; 0xce; 0x19; 0x01; 0x71; 0x4c;
    0xa5; 0xe3; 0xc5; 0x31; 0xbb; 0xcc; 0x1f; 0x2d;
    0x3b; 0x52; 0x6f; 0xf6; 0x2e; 0x89; 0xf7; 0xc0;
    0x68; 0x1b; 0x64; 0x04; 0x06; 0xbf; 0x83; 0x38
  ].

Definition expTable : list Z := [
    0x01; 0xe5; 0x4c; 0xb5; 0xfb; 0x9f; 0xfc; 0x12;
    0x03; 0x34; 0xd4; 0xc4; 0x16; 0xba; 0x1f; 0x36;
    0x05; 0x5c; 0x67; 0x57; 0x3a; 0xd5; 0x21; 0x5a;
    0x0f; 0xe4; 0xa9; 0xf9; 0x4e; 0x64; 0x63; 0xee;
    0x11; 0x37; 0xe0; 0x10; 0xd2; 0xac; 0xa5; 0x29;
    0x33; 0x59; 0x3b; 0x30; 0x6d; 0xef; 0xf4; 0x7b;
    0x55; 0xeb; 0x4d; 0x50; 0xb7; 0x2a; 0x07; 0x8d;
    0xff; 0x26; 0xd7; 0xf0; 0xc2; 0x7e; 0x09; 0x8c;
    0x1a; 0x6a; 0x62; 0x0b; 0x5d; 0x82; 0x1b; 0x8f;
    0x2e; 0xbe; 0xa6; 0x1d; 0xe7; 0x9d; 0x2d; 0x8a;
    0x72; 0xd9; 0xf1; 0x27; 0x32; 0xbc; 0x77; 0x85;
    0x96; 0x70; 0x08; 0x69; 0x56; 0xdf; 0x99; 0x94;
    0xa1; 0x90; 0x18; 0xbb; 0xfa; 0x7a; 0xb0; 0xa7;
    0xf8; 0xab; 0x28; 0xd6; 0x15; 0x8e; 0xcb; 0xf2;
    0x13; 0xe6; 0x78; 0x61; 0x3f; 0x89; 0x46; 0x0d;
    0x35; 0x31; 0x88; 0xa3; 0x41; 0x80; 0xca; 0x17;
    0x5f; 0x53; 0x83; 0xfe; 0xc3; 0x9b; 0x45; 0x39;
    0xe1; 0xf5; 0x9e; 0x19; 0x5e; 0xb6; 0xcf; 0x4b;
    0x38; 0x04; 0xb9; 0x2b; 0xe2; 0xc1; 0x4a; 0xdd;
    0x48; 0x0c; 0xd0; 0x7d; 0x3d; 0x58; 0xde; 0x7c;
    0xd8; 0x14; 0x6b; 0x87; 0x47; 0xe8; 0x79; 0x84;
    0x73; 0x3c; 0xbd; 0x92; 0xc9; 0x23; 0x8b; 0x97;
    0x95; 0x44; 0xdc; 0xad; 0x40; 0x65; 0x86; 0xa2;
    0xa4; 0xcc; 0x7f; 0xec; 0xc0; 0xaf; 0x91; 0xfd;
    0xf7; 0x4f; 0x81; 0x2f; 0x5b; 0xea; 0xa8; 0x1c;
    0x02; 0xd1; 0x98; 0x71; 0xed; 0x25; 0xe3; 0x24;
    0x06; 0x68; 0xb3; 0x93; 0x2c; 0x6f; 0x3e; 0x6c;
    0x0a; 0xb8; 0xce; 0xae; 0x74; 0xb1; 0x42; 0xb4;
    0x1e; 0xd3; 0x49; 0xe9; 0x9c; 0xc8; 0xc6; 0xc7;
    0x22; 0x6e; 0xdb; 0x20; 0xbf; 0x43; 0x51; 0x52;
    0x66; 0xb2; 0x76; 0x60; 0xda; 0xc5; 0xf3; 0xf6;
    0xaa; 0xcd; 0x9a; 0xa0; 0x75; 0x54; 0x0e; 0x01
  ].

(** Indexing a [[256]uint8]; the indices below are bytes or remainders by 255. *)
Definition at_ (t : list Z) (i : Z) : Z := nth (Z.to_nat i) t 0.

(** ** shamir.go: field operations *)

Definition add (a b : Z) : Z := Z.lxor a b.

Definition mult (a b : Z) : Z :=
  let log_a := at_ logTable a in
  let log_b := at_ logTable b in
  let sum := Z.rem (log_a + log_b) 255 in
  let goodVal := at_ expTable sum in
  let ret := if a =? 0 then 0 else goodVal in
  if b =? 0 then 0 else ret.

Definition div (a b : Z) : gores Z :=
  if b =? 0 then Crash
  else
    let log_a := at_ logTable a in
    let log_b := at_ logTable b in
    let diff := Z.rem (log_a - log_b) 255 in
    let diff := if diff <? 0 then diff + 255 else diff in
    let goodVal := at_ expTable diff in
    Ret (if a =? 0 then 0 else goodVal).

(** ** Reference multiplication

    [xtime b] is [x * b] modulo the field polynomial; [gmul a b] adds [x^i * b]
    for every bit [i] of [a]. *)

Definition xtime (b : Z) : Z :=
  Z.lxor (Z.land (Z.shiftl b 1) 255) (if Z.testbit b 7 then 0x1b else 0).

Definition bits : list nat := [0; 1; 2; 3; 4; 5; 6; 7]%nat.

Definition gmul (a b : Z) : Z :=
  foldr (fun i r => Z.lxor (if Z.testbit a (Z.of_nat i) then Nat.iter i xtime b else 0) r) 0 bits.

(** *** Checks over all bytes, by computation *)

Definition allBytes : list Z := Z.of_nat <$> seq 0 256.

Lemma byte_check (p : Z → bool) a : forallb p allBytes = true → is_byte a → p a = true.
Proof.
  intros H Ha. rewrite forallb_forall in H. apply H. apply list_elem_of_In, list_elem_of_fmap.
  exists (Z.to_nat a). unfold is_byte in Ha. rewrite Z2Nat.id by lia. split; [done|].
  apply elem_of_seq. lia.
Qed.

Ltac by_bytes f := apply Z.eqb_eq; refine (byte_check (fun a => f a) _ _ _); [vm_compute; reflexivity|done].

(** *** Linearity *)

Definition linear (f : Z → Z) : Prop := ∀ a b, f (Z.lxor a b) = Z.lxor (f a) (f b).

Lemma linear_0 f : linear f → f 0 = 0.
Proof. intros H. specialize (H 0 0). rewrite Z.lxor_0_l in H. by rewrite H, Z.lxor_nilpotent. Qed.

Lemma linear_comp f g : linear f → linear g → linear (fun x => f (g x)).
Proof. intros Hf Hg a b. by rewrite Hg, Hf. Qed.

Lemma if_xorb (b c : bool) z :
  (if xorb b c then z else 0) = Z.lxor (if b then z else 0) (if c then z else 0).
Proof. destruct b, c; cbn; by rewrite ?Z.lxor_0_r, ?Z.lxor_0_l, ?Z.lxor_nilpotent. Qed.

Lemma lxor_4 a b c d :
  Z.lxor (Z.lxor a b) (Z.lxor c d) = Z.lxor (Z.lxor a c) (Z.lxor b d).
Proof. apply Z.bits_inj'. intros n _. rewrite !Z.lxor_spec. by destruct (Z.testbit a n), (Z.testbit b n), (Z.testbit c n), (Z.testbit d n). Qed.

Lemma xtime_linear : linear xtime.
Proof.
  intros a b. unfold xtime. rewrite Z.shiftl_lxor, Z.lxor_spec, if_xorb.
  rewrite <- lxor_4. f_equal. apply Z.bits_inj'. intros n _.
  rewrite !Z.land_spec, !Z.lxor_spec, !Z.land_spec.
  by destruct (Z.testbit (Z.shiftl a 1) n), (Z.testbit (Z.shiftl b 1) n), (Z.testbit 255 n).
Qed.

Lemma iter_linear n f : linear f → linear (Nat.iter n f).
Proof. intros Hf. induction n as [|n IH]; intros a b; [done|]. by rewrite !Nat.iter_succ, IH, Hf. Qed.

Lemma sum_linear {I} (t : I → Z → Z) (l : list I) :
  (∀ i, linear (t i)) → linear (fun x => foldr (fun i r => Z.lxor (t i x) r) 0 l).
Proof. intros Ht a b. induction l as [|i l IH]; cbn; [done|]. by rewrite IH, Ht, lxor_4. Qed.

Lemma gmul_linear_l b : linear (fun a => gmul a b).
Proof.
  apply (sum_linear (fun i a => if Z.testbit a (Z.of_nat i) then _ else 0)).
  intros i a c. by rewrite Z.lxor_spec, if_xorb.
Qed.

Lemma gmul_linear_r a : linear (gmul a).
Proof.
  apply (sum_linear (fun i b => if Z.testbit a (Z.of_nat i) then Nat.iter i xtime b else 0)).
  intros i b c. destruct (Z.testbit a (Z.of_nat i)); [|done].
  apply iter_linear, xtime_linear.
Qed.

(** Two linear maps that agree on the powers of two agree on bytes. *)

Definition ofBits (f : Z → Z) (a : Z) : Z :=
  foldr (fun i r => Z.lxor (if Z.testbit a (Z.of_nat i) then f (2 ^ Z.of_nat i) else 0) r) 0 bits.

Lemma linear_sum {I} f (t : I → Z) (l : list I) : linear f →
  f (foldr (fun i r => Z.lxor (t i) r) 0 l) = foldr (fun i r => Z.lxor (f (t i)) r) 0 l.
Proof.
  intros Hf. induction l as [|i l IH]; simpl; [by apply linear_0|]. by rewrite Hf, IH.
Qed.

Lemma linear_bits f a : linear f → is_byte a → f a = ofBits f a.
Proof.
  intros Hf Ha.
  assert (H : a = ofBits id a) by by_bytes (fun a => a =? ofBits id a).
  rewrite H at 1. unfold ofBits. rewrite linear_sum by done. clear H Ha.
  induction bits as [|i l IH]; cbn [foldr]; [done|].
  rewrite IH. f_equal. destruct (Z.testbit a (Z.of_nat i)); [done|]. by apply linear_0.
Qed.

Lemma linear_ext f g a :
  linear f → linear g → Forall (fun i => f (2 ^ Z.of_nat i) = g (2 ^ Z.of_nat i)) bits →
  is_byte a → f a = g a.
Proof.
  intros Hf Hg H Ha. rewrite (linear_bits f), (linear_bits g) by done. unfold ofBits.
  induction H as [|i l Hi _ IH]; cbn [foldr]; [done|]. by rewrite Hi, IH.
Qed.

(** ** The table-driven multiplication *)

Lemma at_byte t i : Forall is_byte t → is_byte (at_ t i).
Proof.
  intros H. unfold at_. destruct (nth_in_or_default (Z.to_nat i) t 0) as [Hin| ->]; [|done].
  rewrite List.Forall_forall in H. by apply H.
Qed.

Lemma table_bytes : Forall is_byte expTable ∧ Forall is_byte logTable.
Proof.
  assert (H : ∀ t, forallb (fun z => (0 <=? z) && (z <? 256)) t = true → Forall is_byte t).
  { intros t Ht. apply List.Forall_forall. intros z Hz. rewrite forallb_forall in Ht.
    specialize (Ht z Hz). unfold is_byte. lia. }
  split; apply H; vm_compute; reflexivity.
Qed.

(** The discrete logarithm to base 229, in [0, 255): the table has 255 for [log 1]. *)
Definition lg (a : Z) : Z := at_ logTable a mod 255.
Definition ex (i : Z) : Z := at_ expTable i.

Lemma lg_range a : 0 ≤ lg a < 255.
Proof. unfold lg. apply Z.mod_pos_bound. lia. Qed.

Lemma ex_byte i : is_byte (ex i).
Proof. apply at_byte, table_bytes. Qed.

Lemma ex_lg a : is_byte a → a ≠ 0 → ex (lg a) = a.
Proof.
  intros Ha Hne.
  assert (H : (if a =? 0 then 0 else ex (lg a)) = a)
    by by_bytes (fun a => (if a =? 0 then 0 else ex (lg a)) =? a).
  by rewrite (proj2 (Z.eqb_neq _ _) Hne) in H.
Qed.

(** Indices [0 .. 254]. *)
Lemma index_check (p : Z → bool) i :
  forallb (fun a => (255 <=? a) || p a) allBytes = true → 0 ≤ i < 255 → p i = true.
Proof.
  intros H Hi. pose proof (byte_check _ i H) as Hp. unfold is_byte in Hp.
  destruct (orb_prop _ _ (Hp ltac:(lia))); [lia|done].
Qed.

Ltac by_index f := apply Z.eqb_eq; refine (index_check (fun i => f i) _ _ _); [vm_compute; reflexivity|lia].

Lemma lg_ex i : 0 ≤ i < 255 → lg (ex i) = i.
Proof. intros Hi. by_index (fun i => lg (ex i) =? i). Qed.

Lemma ex_nonzero i : 0 ≤ i < 255 → ex i ≠ 0.
Proof. intros Hi H. pose proof (lg_ex i Hi) as Hl. rewrite H in Hl. vm_compute in Hl. subst i. by vm_compute in H. Qed.

Lemma mult_ex a b :
  is_byte a → is_byte b → mult a b =
  if a =? 0 then 0 else if b =? 0 then 0 else ex ((lg a + lg b) mod 255).
Proof.
  intros _ _. unfold mult, lg, ex. fold (is_byte a).
  pose proof (at_byte logTable a (proj2 table_bytes)) as Ha.
  pose proof (at_byte logTable b (proj2 table_bytes)) as Hb. unfold is_byte in *.
  rewrite Z.rem_mod_nonneg by lia. rewrite <- Z.add_mod by lia. by repeat case_match.
Qed.

Lemma mult_byte a b : is_byte a → is_byte b → is_byte (mult a b).
Proof. intros ??. rewrite mult_ex by done. repeat case_match; [done..|apply ex_byte]. Qed.

Lemma mult_0_l b : mult 0 b = 0.
Proof. unfold mult. cbn. by case_match. Qed.

Lemma mult_0_r a : mult a 0 = 0.
Proof. done. Qed.

(** *** Equality with the reference *)

Lemma gmul_1_l b : is_byte b → gmul 1 b = b.
Proof. intros Hb. by_bytes (fun b => gmul 1 b =? b). Qed.

(** The generator of the tables. *)
Definition gen : Z := 229.

Lemma gmul_gen_ex i : 0 ≤ i < 255 → gmul gen (ex i) = ex ((i + 1) mod 255).
Proof. intros Hi. by_index (fun i => gmul gen (ex i) =? ex ((i + 1) mod 255)). Qed.

Lemma gmul_gen_assoc x b : is_byte x → is_byte b → gmul (gmul gen x) b = gmul gen (gmul x b).
Proof.
  intros Hx Hb.
  apply (linear_ext (fun x => gmul (gmul gen x) b) (fun x => gmul gen (gmul x b))); [| | |done].
  - apply (linear_comp (fun y => gmul y b) (gmul gen)); [apply gmul_linear_l|apply gmul_linear_r].
  - apply (linear_comp (gmul gen) (fun y => gmul y b)); [apply gmul_linear_r|apply gmul_linear_l].
  - apply Forall_forall. intros i Hi.
    apply (linear_ext (gmul (gmul gen (2 ^ Z.of_nat i))) (fun b => gmul gen (gmul (2 ^ Z.of_nat i) b)));
      [apply gmul_linear_r|apply (linear_comp (gmul gen)); apply gmul_linear_r| |done].
    revert i Hi. apply Forall_forall. repeat constructor.
Qed.

Lemma gmul_ex (i : nat) b : (i < 255)%nat → is_byte b → b ≠ 0 →
  gmul (ex (Z.of_nat i)) b = ex ((Z.of_nat i + lg b) mod 255).
Proof.
  intros Hi Hb Hne. induction i as [|i IH].
  - cbn [Z.of_nat]. change (ex 0) with 1. rewrite gmul_1_l by done.
    pose proof (lg_range b). rewrite Z.add_0_l, Z.mod_small by lia. by rewrite ex_lg.
  - replace (ex (Z.of_nat (S i))) with (gmul gen (ex (Z.of_nat i))).
    2:{ rewrite gmul_gen_ex by lia. rewrite Z.mod_small by lia. f_equal. lia. }
    rewrite gmul_gen_assoc by (done || apply ex_byte).
    rewrite IH by lia. rewrite gmul_gen_ex by (apply Z.mod_pos_bound; lia).
    rewrite Z.add_mod_idemp_l by lia. do 2 f_equal. lia.
Qed.

Lemma mult_gmul_eq a b : is_byte a → is_byte b → mult a b = gmul a b.
Proof.
  intros Ha Hb. rewrite mult_ex by done.
  destruct (Z.eqb_spec a 0) as [->|Ha0]; [symmetry; apply (linear_0 _ (gmul_linear_l b))|].
  destruct (Z.eqb_spec b 0) as [->|Hb0]; [symmetry; apply (linear_0 _ (gmul_linear_r a))|].
  pose proof (lg_range a) as Hl.
  rewrite <- (ex_lg a Ha Ha0) at 2. rewrite <- (Z2Nat.id (lg a)) by lia.
  rewrite gmul_ex by (done || lia). by rewrite Z2Nat.id by lia.
Qed.

(** On bytes, the constant-time multiplication through the logarithm tables is
    the product of polynomials over GF(2) modulo [x^8 + x^4 + x^3 + x + 1]: the tables
    and the zero guards are right for all pairs of bytes. *)
Theorem mult_gmul a b : is_byte a → is_byte b → mult a b = gmul a b.
Proof. apply mult_gmul_eq. Qed.

(** ** Laws of the byte operations *)

Lemma add_byte a b : is_byte a → is_byte b → is_byte (add a b).
Proof. apply lxor_byte. Qed.

Lemma mult_comm a b : is_byte a → is_byte b → mult a b = mult b a.
Proof. intros ??. rewrite !mult_ex by done. rewrite (Z.add_comm (lg a)). by repeat case_match. Qed.

Lemma mult_1_l a : is_byte a → mult 1 a = a.
Proof. intros Ha. rewrite mult_gmul_eq by done. by apply gmul_1_l. Qed.

Lemma mult_nonzero a b : is_byte a → is_byte b → a ≠ 0 → b ≠ 0 →
  mult a b = ex ((lg a + lg b) mod 255).
Proof. intros. rewrite mult_ex by done. by rewrite !(proj2 (Z.eqb_neq _ _)) by done. Qed.

Lemma mult_assoc a b c : is_byte a → is_byte b → is_byte c →
  mult a (mult b c) = mult (mult a b) c.
Proof.
  intros Ha Hb Hc.
  destruct (Z.eq_dec a 0) as [->|Ha0]; [by rewrite !mult_0_l|].
  destruct (Z.eq_dec b 0) as [->|Hb0]; [by rewrite mult_0_r, !mult_0_l, mult_0_r|].
  destruct (Z.eq_dec c 0) as [->|Hc0]; [by rewrite !mult_0_r|].
  rewrite (mult_nonzero b c), (mult_nonzero a b) by done.
  assert (∀ z, 0 ≤ z mod 255 < 255) as Hm by (intros; apply Z.mod_pos_bound; lia).
  rewrite !mult_nonzero by (done || apply ex_byte || by apply ex_nonzero).
  rewrite !lg_ex by done. rewrite Z.add_mod_idemp_r, Z.add_mod_idemp_l by lia.
  by rewrite Z.add_assoc.
Qed.

Lemma mult_add_l a b c : is_byte a → is_byte b → is_byte c →
  mult (add a b) c = add (mult a c) (mult b c).
Proof.
  intros. rewrite !mult_gmul_eq by (done || by apply add_byte). apply (gmul_linear_l c).
Qed.

(** The inverse of a nonzero byte, and [div] as multiplication by it. *)
Definition invb (b : Z) : Z := ex ((255 - lg b) mod 255).

Lemma invb_byte b : is_byte (invb b).
Proof. apply ex_byte. Qed.

Lemma mult_invb b : is_byte b → b ≠ 0 → mult (invb b) b = 1.
Proof.
  intros Hb H0. unfold invb.
  assert (0 ≤ (255 - lg b) mod 255 < 255) by (apply Z.mod_pos_bound; lia).
  rewrite mult_nonzero by (done || apply ex_byte || by apply ex_nonzero).
  rewrite lg_ex by done. rewrite Z.add_mod_idemp_l by lia.
  by replace (255 - lg b + lg b) with 255 by lia.
Qed.

Lemma div_mult a b : is_byte a → is_byte b → b ≠ 0 → div a b = Ret (mult a (invb b)).
Proof.
  intros Ha Hb H0. unfold div. rewrite (proj2 (Z.eqb_neq b 0) H0). f_equal.
  rewrite mult_ex by (done || apply invb_byte).
  destruct (Z.eqb_spec a 0) as [->|Ha0]; [done|].
  assert (0 ≤ (255 - lg b) mod 255 < 255) by (apply Z.mod_pos_bound; lia).
  unfold invb. rewrite (proj2 (Z.eqb_neq _ 0)) by by apply ex_nonzero.
  rewrite lg_ex by done. unfold ex. f_equal. rewrite Z.add_mod_idemp_r by lia. unfold lg.
  pose proof (at_byte logTable a (proj2 table_bytes)) as Hla.
  pose proof (at_byte logTable b (proj2 table_bytes)) as Hlb. unfold is_byte in Hla, Hlb.
  set (x := at_ logTable a) in *. set (y := at_ logTable b) in *.
  assert (Hmod : (x - y) mod 255 = (x mod 255 + (255 - y mod 255)) mod 255).
  { rewrite Zminus_mod. replace (x mod 255 + (255 - y mod 255)) with ((x mod 255 - y mod 255) + 1 * 255) by lia.
    by rewrite Z.mod_add by lia. }
  rewrite <- Hmod. pose proof (Z.quot_rem (x - y) 255).
  pose proof (Z.rem_bound_abs (x - y) 255 ltac:(lia)).
  destruct (Z.ltb_spec (Z.rem (x - y) 255) 0).
  - apply (Z.mod_unique _ _ (Z.quot (x - y) 255 - 1)); lia.
  - apply (Z.mod_unique _ _ (Z.quot (x - y) 255)); lia.
Qed.

(** ** The field of bytes *)

Record gf := Gf { gfv : Z; gfok : ((0 <=? gfv) && (gfv <? 256))%bool = true }.

Lemma gf_eq x y : gfv x = gfv y → x = y.
Proof.
  destruct x as [x Hx], y as [y Hy]. cbn. intros <-. f_equal.
  apply UIP_dec. apply Bool.bool_dec.
Qed.

Lemma gf_byte x : is_byte (gfv x).
Proof. destruct x as [x Hx]. unfold is_byte. cbn. lia. Qed.

Lemma byte_gf z : is_byte z → ((0 <=? z) && (z <? 256))%bool = true.
Proof. unfold is_byte. lia. Qed.

Definition toGf (z : Z) (H : is_byte z) : gf := Gf z (byte_gf z H).

Definition gf0 : gf := Gf 0 eq_refl.
Definition gf1 : gf := Gf 1 eq_refl.
Definition gfadd (x y : gf) : gf := toGf (add (gfv x) (gfv y)) (add_byte _ _ (gf_byte x) (gf_byte y)).
Definition gfmul (x y : gf) : gf := toGf (mult (gfv x) (gfv y)) (mult_byte _ _ (gf_byte x) (gf_byte y)).
Definition gfinv (x : gf) : gf := toGf (invb (gfv x)) (invb_byte _).
Definition gfdiv (x y : gf) : gf := gfmul x (gfinv y).

#[export] Hint Resolve gf_byte add_byte mult_byte invb_byte ex_byte : gf.

(** Bytes with the code's addition and multiplication are a field in which every
    element is its own opposite. *)
Lemma gf_field : field_theory gf0 gf1 gfadd gfmul gfadd id gfdiv gfinv (=).
Proof.
  split; [split| | |]; intros; try apply gf_eq; cbn.
  - apply Z.lxor_0_l.
  - apply Z.lxor_comm.
  - symmetry. apply Z.lxor_assoc.
  - apply mult_1_l. auto with gf.
  - apply mult_comm; auto with gf.
  - apply mult_assoc; auto with gf.
  - apply mult_add_l; auto with gf.
  - done.
  - apply Z.lxor_nilpotent.
  - intros [=].
  - done.
  - apply mult_invb; [auto with gf|]. intros H0. apply H. by apply gf_eq.
Qed.

(** The code's [div] is the division of the field. *)
Lemma div_gf x y : y ≠ gf0 → div (gfv x) (gfv y) = Ret (gfv (gfdiv x y)).
Proof.
  intros H. apply div_mult; auto with gf. intros H0. apply H. by apply gf_eq.
Qed.

(** Division of bytes undoes multiplication by a nonzero divisor, and the only
    divisor it panics on is zero. *)
Theorem div_spec a b : is_byte a → is_byte b →
  (b ≠ 0 → div (mult a b) b = Ret a ∧ ∃ q, is_byte q ∧ div a b = Ret q ∧ mult q b = a)
  ∧ (div a b = Crash ↔ b = 0).
Proof.
  intros Ha Hb. split.
  - intros H0. rewrite !div_mult by (done || by apply mult_byte).
    pose proof (invb_byte b) as Hi. pose proof (mult_invb b Hb H0) as Hinv.
    split; [|exists (mult a (invb b)); split_and!; [by apply mult_byte|done|]].
    + f_equal. rewrite <- mult_assoc by done. rewrite (mult_comm b) by done.
      rewrite Hinv. rewrite mult_comm by done. by apply mult_1_l.
    + rewrite <- mult_assoc by done. rewrite Hinv, mult_comm by done. by apply mult_1_l.
  - split; [|by intros ->]. intros H. destruct (Z.eq_dec b 0); [done|].
    by rewrite div_mult in H by done.
Qed.

(** ** Instances *)

Lemma mult_gmul_witness : mult 0x57 0x83 = gmul 0x57 0x83 ∧ mult 0x57 0x83 = 0xc1.
Proof. split; [|reflexivity]. apply mult_gmul; unfold is_byte; lia. Defined.

Lemma div_spec_witness :
  (3 ≠ 0 → div (mult 7 3) 3 = Ret 7 ∧ ∃ q, is_byte q ∧ div 7 3 = Ret q ∧ mult q 3 = 7)
  ∧ (div 7 3 = Crash ↔ 3 = 0).
Proof. apply div_spec; unfold is_byte; lia. Defined.
