(* ===== verification/Shamir.v ===== *)
(** * Shamir secret sharing

    Models [src/crypto/shamir/shamir.go]: random polynomials, Horner evaluation,
    Lagrange interpolation, [Split] and [Combine].  (The copy under
    [src/crypto-gm/shamir] is the same code.)  The two sources of randomness are
    arguments: [randRead k n] is what the [k]-th call of [crypto/rand.Read] writes
    into a slice of [n] bytes, [None] when it returns an error, and [xCoordinates] is
    the result of [math/rand.Perm(255)]. *)

From stdpp Require Import base list sets gmap strings.
From Stdlib Require Import ZArith Lia Ring Field_theory.
From S2P Require Import Prelude Common Interpolation Galois.
Local Open Scope string_scope.
Local Open Scope list_scope.
Local Open Scope Z_scope.

Record polynomial := { coefficients : bytes }.

Definition u8 (z : Z) : Z := z mod 256.

Section Randomness.

Context (randRead : nat → nat → option bytes) (xCoordinates : list Z).

(** [make([]byte, degree+1)] wraps for degree 255, and then [coefficients[0]] panics. *)
Definition makePolynomial (call : nat) (intercept degree : Z) : gores polynomial :=
  coeffs ← store (replicate (Z.to_nat (u8 (degree + 1))) 0) 0 intercept;
  match randRead call (length (drop 1 coeffs)) with
  | None => Fail "rand.Read"
  | Some r => Ret {| coefficients := take 1 coeffs ++ r |}
  end.

(** The loop [for i := degree - 1; i >= 0; i--] of [evaluate], [i] rounds before the end. *)
Fixpoint horner (coeffs : bytes) (x : Z) (i : nat) (out : Z) : gores Z :=
  match i with
  | O => Ret out
  | S i' =>
      coeff ← index coeffs (Z.of_nat i');
      horner coeffs x i' (add (mult out x) coeff)
  end.

Definition evaluate (p : polynomial) (x : Z) : gores Z :=
  if x =? 0 then index (coefficients p) 0
  else
    let degree := Z.of_nat (length (coefficients p)) - 1 in
    out ← index (coefficients p) degree;
    horner (coefficients p) x (Z.to_nat degree) out.

(** One round [j] of the inner loop, and the loop, for one [i]. *)
Definition basisStep (x_samples : bytes) (x : Z) (i : nat) (basis : Z) (j : nat) : gores Z :=
  if decide (i = j) then Ret basis
  else
    xj ← index x_samples (Z.of_nat j);
    xi ← index x_samples (Z.of_nat i);
    let num := add x xj in
    let denom := add xi xj in
    term ← div num denom;
    Ret (mult basis term).

Definition basisLoop (x_samples : bytes) (x : Z) (i : nat) : gores Z :=
  foldM (basisStep x_samples x i) (seq 0 (length x_samples)) 1.

(** One round of the outer loop. *)
Definition sampleStep (x_samples y_samples : bytes) (x : Z) (result : Z) (i : nat) : gores Z :=
  basis ← basisLoop x_samples x i;
  yi ← index y_samples (Z.of_nat i);
  let group := mult yi basis in
  Ret (add result group).

Definition interpolatePolynomial (x_samples y_samples : bytes) (x : Z) : gores Z :=
  foldM (sampleStep x_samples y_samples x) (seq 0 (length x_samples)) 0.

(** [uint8(xCoordinates[i]) + 1]. *)
Definition xCoord (i : nat) : gores Z :=
  xc ← index xCoordinates (Z.of_nat i);
  Ret (u8 (u8 xc + 1)).

(** [out[i][idx] = y]. *)
Definition store2 (out : list bytes) (i idx : nat) (y : Z) : gores (list bytes) :=
  row ← index out (Z.of_nat i);
  row ← store row (Z.of_nat idx) y;
  store out (Z.of_nat i) row.

(** The body of the loop over the shares. *)
Definition splitShare (p : polynomial) (idx : nat) (out : list bytes) (i : nat) : gores (list bytes) :=
  x ← xCoord i;
  y ← evaluate p x;
  store2 out i idx y.

(** The body of the loop over the secret, for byte [val] at [idx]. *)
Definition splitByte (parts : nat) (threshold : Z) (out : list bytes) (iv : nat * Z) : gores (list bytes) :=
  let '(idx, val) := iv in
  p ← match makePolynomial idx val (u8 (threshold - 1)) with
      | Fail _ => Fail "failed to generate polynomial"
      | r => r
      end;
  foldM (splitShare p idx) (seq 0 parts) out.

Definition Split (secret : bytes) (parts threshold : Z) : gores (list bytes) :=
  if parts <? threshold then Fail "parts cannot be less than threshold"
  else if 255 <? parts then Fail "parts cannot exceed 255"
  else if threshold <? 2 then Fail "threshold must be at least 2"
  else if 255 <? threshold then Fail "threshold cannot exceed 255"
  else if decide (secret = []) then Fail "cannot split an empty secret"
  else
    out ← mapM (fun idx =>
      x ← xCoord idx;
      store (replicate (length secret + 1) 0) (Z.of_nat (length secret)) x)
      (seq 0 (Z.to_nat parts));
    foldM (splitByte (Z.to_nat parts) threshold) (imap pair secret) out.

End Randomness.

(** The loop that collects the abscissas: [checkMap] is the set of those seen. *)
Fixpoint xSamples (last : Z) (checkMap : gset Z) (parts : list bytes) : gores bytes :=
  match parts with
  | [] => Ret []
  | part :: rest =>
      samp ← index part last;
      if decide (samp ∈ checkMap) then Fail "duplicate part detected"
      else
        xs ← xSamples last ({[samp]} ∪ checkMap) rest;
        Ret (samp :: xs)
  end.

Definition Combine (parts : list bytes) : gores bytes :=
  if (length parts <? 2)%nat then
    Fail "less than two parts cannot be used to reconstruct the secret"
  else
    first ← index parts 0;
    let firstPartLen := length first in
    if (firstPartLen <? 2)%nat then Fail "parts must be at least two bytes"
    else if negb (forallb (fun part => (length part =? firstPartLen)%nat) (drop 1 parts)) then
      Fail "all parts must be the same length"
    else
      x_samples ← xSamples (Z.of_nat firstPartLen - 1) ∅ parts;
      mapM (fun idx =>
        y_samples ← mapM (fun part => index part (Z.of_nat idx)) parts;
        interpolatePolynomial x_samples y_samples 0)
        (seq 0 (firstPartLen - 1)).

(** ** Evaluation and interpolation over the field of bytes *)

Notation gfeval := (eval gf0 gfadd gfmul).
Notation gfbasis := (basis gf1 gfmul gfadd gfdiv).
Notation gflagrange := (lagrangeAt gf0 gf1 gfadd gfmul gfadd gfdiv).

Add Ring gf_ring : (F_R gf_field).

#[global] Instance gf_eq_dec : EqDecision gf.
Proof.
  intros x y. destruct (decide (gfv x = gfv y)) as [H|H].
  - left. by apply gf_eq.
  - right. by intros ->.
Defined.

Lemma u8_byte z : is_byte (u8 z).
Proof. unfold is_byte, u8. apply Z.mod_pos_bound. lia. Qed.

Definition lift (z : Z) : gf := toGf (u8 z) (u8_byte z).

Lemma gfv_lift z : is_byte z → gfv (lift z) = z.
Proof. unfold is_byte. intros. cbn. apply Z.mod_small. lia. Qed.

Lemma gfv_lift_list l : Forall is_byte l → gfv <$> (lift <$> l) = l.
Proof. induction 1 as [|z l Hz _ IH]; cbn -[lift]; [done|]. by rewrite gfv_lift, IH. Qed.

Lemma lift_inj x y : is_byte x → is_byte y → lift x = lift y → x = y.
Proof. intros ?? H. by rewrite <- (gfv_lift x), <- (gfv_lift y), H. Qed.

Lemma horner_eval (cs : list gf) (x : gf) (i : nat) :
  (i ≤ length cs)%nat →
  horner (gfv <$> cs) (gfv x) i (gfv (gfeval (drop i cs) x)) = Ret (gfv (gfeval cs x)).
Proof.
  induction i as [|i IH]; intros Hi; cbn [horner]; [by rewrite drop_0|].
  destruct (lookup_lt_is_Some_2 cs i) as [c Hc]; [lia|].
  rewrite (index_Ret _ i (gfv c)) by by rewrite list_lookup_fmap, Hc.
  cbn [mbind gores_bind].
  replace (add _ _) with (gfv (gfeval (drop i cs) x)); [apply IH; lia|].
  rewrite (drop_S cs c i) by done.
  change (gfv (gfadd c (gfmul x (gfeval (drop (S i) cs) x)))
    = gfv (gfadd (gfmul (gfeval (drop (S i) cs) x) x) c)). f_equal. ring.
Qed.

(** Horner's rule with the special case at the origin computes the polynomial. *)
Lemma evaluate_eval (cs : list gf) (x : gf) :
  cs ≠ [] → evaluate {| coefficients := gfv <$> cs |} (gfv x) = Ret (gfv (gfeval cs x)).
Proof.
  intros Hne. unfold evaluate. cbn [coefficients]. destruct cs as [|c0 cs]; [done|].
  destruct (Z.eqb_spec (gfv x) 0) as [H0|H0].
  - cbn. f_equal. assert (x = gf0) as -> by by apply gf_eq.
    change (gfv c0 = gfv (gfadd c0 (gfmul gf0 (gfeval cs gf0)))). f_equal. ring.
  - rewrite length_fmap. set (l := c0 :: cs). set (n := (length l - 1)%nat).
    replace (Z.of_nat (length l) - 1) with (Z.of_nat n) by (subst n l; simpl; lia).
    destruct (lookup_lt_is_Some_2 l n) as [c Hc]; [subst n l; simpl; lia|].
    rewrite (index_Ret _ n (gfv c)) by by rewrite list_lookup_fmap, Hc.
    cbn [mbind gores_bind]. rewrite Nat2Z.id.
    rewrite <- (horner_eval l x n) by (subst n l; simpl; lia). f_equal.
    rewrite (drop_S l c n), drop_ge by (done || (subst n l; simpl; lia)).
    change (gfv c = gfv (gfadd c (gfmul x gf0))). f_equal. ring.
Qed.

Lemma basis_app x xi l1 l2 :
  gfbasis x xi (l1 ++ l2) = gfmul (gfbasis x xi l1) (gfbasis x xi l2).
Proof.
  induction l1 as [|y l1 IH]; [change (gfbasis x xi l2 = gfmul gf1 (gfbasis x xi l2)); ring|].
  change (gfmul (gfdiv (gfadd x y) (gfadd xi y)) (gfbasis x xi (l1 ++ l2)) =
    gfmul (gfmul (gfdiv (gfadd x y) (gfadd xi y)) (gfbasis x xi l1)) (gfbasis x xi l2)).
  rewrite IH. ring.
Qed.

Section Samples.

(** The abscissas of the samples, and the point to interpolate at. *)
Context (xs : list gf) (x : gf).

(** A stretch of the inner loop that does not meet [i]. *)
Lemma basisLoop_stretch (i : nat) xi pre mid post b :
  xs = pre ++ mid ++ post → xs !! i = Some xi → xi ∉ mid →
  (i < length pre ∨ length pre + length mid ≤ i)%nat →
  foldM (basisStep (gfv <$> xs) (gfv x) i) (seq (length pre) (length mid)) (gfv b)
  = Ret (gfv (gfmul b (gfbasis x xi mid))).
Proof.
  intros Hxs Hi. revert pre b Hxs. induction mid as [|xj mid IH]; intros pre b Hxs Hni Hrange.
  - cbn [length seq foldM]. do 2 f_equal. change (b = gfmul b gf1). ring.
  - apply not_elem_of_cons in Hni as [Hne Hni]. cbn [length seq foldM].
    unfold basisStep at 2. rewrite decide_False by (cbn in Hrange; lia).
    rewrite (index_Ret _ (length pre) (gfv xj)).
    2:{ rewrite list_lookup_fmap, Hxs. cbn [app]. by rewrite list_lookup_middle. }
    cbn [mbind gores_bind]. rewrite (index_Ret _ i (gfv xi)) by by rewrite list_lookup_fmap, Hi.
    cbn [mbind gores_bind].
    change (add (gfv x) (gfv xj)) with (gfv (gfadd x xj)).
    change (add (gfv xi) (gfv xj)) with (gfv (gfadd xi xj)).
    rewrite div_gf by (by apply (sub_nonzero _ _ _ _ _ _ _ _ gf_field)).
    cbn [mbind gores_bind].
    change (mult (gfv b) (gfv (gfdiv (gfadd x xj) (gfadd xi xj))))
      with (gfv (gfmul b (gfdiv (gfadd x xj) (gfadd xi xj)))).
    replace (S (length pre)) with (length (pre ++ [xj])) by (rewrite length_app; cbn; lia).
    rewrite IH; [|by rewrite Hxs, <- app_assoc|done|rewrite length_app; cbn in *; lia].
    change (gfbasis x xi (xj :: mid))
      with (gfmul (gfdiv (gfadd x xj) (gfadd xi xj)) (gfbasis x xi mid)).
    do 2 f_equal. ring.
Qed.

Lemma basisLoop_basis pre xi post :
  xs = pre ++ xi :: post → NoDup xs →
  basisLoop (gfv <$> xs) (gfv x) (length pre) = Ret (gfv (gfbasis x xi (pre ++ post))).
Proof.
  intros Hxs Hnd.
  assert (Hni : xi ∉ pre ++ post).
  { rewrite Hxs in Hnd. rewrite <- (Permutation_middle pre post xi) in Hnd.
    by apply NoDup_cons in Hnd as [? _]. }
  rewrite elem_of_app in Hni.
  assert (Hi : xs !! length pre = Some xi) by (rewrite Hxs; by rewrite list_lookup_middle).
  unfold basisLoop. rewrite length_fmap.
  replace (seq 0 (length xs)) with
    (seq 0 (length pre) ++ [length pre] ++ seq (length (pre ++ [xi])) (length post)).
  2:{ rewrite Hxs, !length_app. cbn [length]. rewrite !seq_app. cbn.
      by rewrite Nat.add_1_r. }
  rewrite foldM_app.
  pose proof (basisLoop_stretch (length pre) xi [] pre (xi :: post) gf1) as H1.
  cbn [app length] in H1. change (gfv gf1) with 1 in H1.
  rewrite H1 by (tauto || (right; cbn; lia)). cbn [mbind gores_bind].
  rewrite foldM_app. cbn [foldM]. unfold basisStep at 2. rewrite decide_True by done. cbn [mbind gores_bind].
  rewrite (basisLoop_stretch (length pre) xi (pre ++ [xi]) post []).
  - do 2 f_equal. rewrite basis_app. ring.
  - rewrite Hxs, app_nil_r, <- app_assoc. done.
  - done.
  - tauto.
  - left. rewrite length_app. cbn. lia.
Qed.

(** The loops of [interpolatePolynomial] compute the Lagrange interpolation. *)
Lemma interpolate_lagrange (f : gf → gf) :
  NoDup xs →
  interpolatePolynomial (gfv <$> xs) (gfv <$> (f <$> xs)) (gfv x) = Ret (gfv (gflagrange [] xs f x)).
Proof.
  intros Hnd. unfold interpolatePolynomial. rewrite length_fmap.
  assert (H : ∀ post pre r, xs = pre ++ post →
    foldM (sampleStep (gfv <$> xs) (gfv <$> (f <$> xs)) (gfv x)) (seq (length pre) (length post)) (gfv r)
    = Ret (gfv (gfadd r (gflagrange pre post f x)))).
  { induction post as [|xi post IH]; intros pre r Hxs; cbn [length seq foldM].
    - do 2 f_equal. change (r = gfadd r gf0). ring.
    - unfold sampleStep at 2. rewrite (basisLoop_basis pre xi post) by done. cbn [mbind gores_bind].
      rewrite (index_Ret _ (length pre) (gfv (f xi))).
      2:{ rewrite !list_lookup_fmap, Hxs. by rewrite list_lookup_middle. }
      cbn [mbind gores_bind].
      change (add (gfv r) (mult (gfv (f xi)) (gfv (gfbasis x xi (pre ++ post)))))
        with (gfv (gfadd r (gfmul (f xi) (gfbasis x xi (pre ++ post))))).
      replace (S (length pre)) with (length (pre ++ [xi])) by (rewrite length_app; cbn; lia).
      rewrite IH by by rewrite Hxs, <- app_assoc.
      cbn [lagrangeAt]. do 2 f_equal. ring. }
  specialize (H xs [] gf0 eq_refl). cbn [length] in H. change (gfv gf0) with 0 in H.
  rewrite H. do 2 f_equal.
Qed.

End Samples.

(** ** What [Split] produces *)

(** The value at [x] of the polynomial with coefficients [cs]. *)
Definition ev (cs : bytes) (x : Z) : Z := gfv (gfeval (lift <$> cs) (lift x)).

Lemma evaluate_ev cs x : cs ≠ [] → Forall is_byte cs → is_byte x →
  evaluate {| coefficients := cs |} x = Ret (ev cs x).
Proof.
  intros Hne Hcs Hx. unfold ev. rewrite <- evaluate_eval by by destruct cs.
  by rewrite gfv_lift_list, gfv_lift.
Qed.

Lemma ev_0 v cs : is_byte v → ev (v :: cs) 0 = v.
Proof.
  intros Hv. unfold ev. rewrite <- (gfv_lift v Hv) at 2. f_equal. cbn [fmap list_fmap].
  change (lift 0) with (lift 0). replace (lift 0) with gf0 by by apply gf_eq.
  change (gfadd (lift v) (gfmul gf0 (gfeval (lift <$> cs) gf0)) = lift v). ring.
Qed.

(** The share of abscissa [x]: one value per polynomial, then [x]. *)
Definition share (polys : list bytes) (x : Z) : bytes := ((fun cs => ev cs x) <$> polys) ++ [x].

Section Sharing.

Context (randRead : nat → nat → option bytes) (xCoordinates : list Z).

(** [crypto/rand.Read] fills the whole slice or returns an error. *)
Hypothesis rand_fills : ∀ k n r, randRead k n = Some r → length r = n ∧ Forall is_byte r.

(** [math/rand.Perm(255)] is a permutation of [0 .. 254]. *)
Hypothesis perm_255 : xCoordinates ≡ₚ Z.of_nat <$> seq 0 255.

(** The polynomials [Split] draws for the bytes [sec], starting with call [k];
    [None] when a call of [rand.Read] fails. *)
Fixpoint polysFrom (n : nat) (k : nat) (sec : bytes) : option (list bytes) :=
  match sec with
  | [] => Some []
  | v :: sec' =>
      match randRead k n, polysFrom n (S k) sec' with
      | Some r, Some ps => Some ((v :: r) :: ps)
      | _, _ => None
      end
  end.

Definition coords (parts : nat) : list Z := Z.succ <$> take parts xCoordinates.

Lemma coord_range c : c ∈ xCoordinates → 0 ≤ c < 255.
Proof.
  rewrite perm_255. rewrite list_elem_of_fmap. intros (k & -> & Hk%elem_of_seq). lia.
Qed.

Lemma length_xCoordinates : length xCoordinates = 255%nat.
Proof. by rewrite perm_255, length_fmap, length_seq. Qed.

Lemma coords_range parts x : x ∈ coords parts → 1 ≤ x < 256.
Proof.
  unfold coords. rewrite list_elem_of_fmap. intros (c & -> & Hc).
  assert (c ∈ xCoordinates) as ?%coord_range; [|lia].
  rewrite <- (take_drop parts xCoordinates). apply elem_of_app. by left.
Qed.

Lemma coords_NoDup parts : NoDup (coords parts).
Proof.
  unfold coords. apply NoDup_fmap_2; [intros ?? ?; lia|].
  assert (Hnd : NoDup xCoordinates).
  { rewrite perm_255. apply NoDup_fmap_2; [intros ?? ?; lia|apply NoDup_seq]. }
  rewrite <- (take_drop parts xCoordinates) in Hnd. by apply NoDup_app in Hnd as [? _].
Qed.

Lemma xCoord_coords parts k x : coords parts !! k = Some x → xCoord xCoordinates k = Ret x.
Proof.
  intros H. pose proof (coords_range parts x) as Hr.
  assert (x ∈ coords parts) as Hx by by eapply list_elem_of_lookup_2. specialize (Hr Hx).
  unfold coords in H. rewrite list_lookup_fmap, fmap_Some in H.
  destruct H as (c & [Hc _]%lookup_take_Some & ->).
  unfold xCoord. rewrite (index_Ret _ _ _ Hc). cbn. f_equal. unfold u8.
  rewrite !Z.mod_small; [lia..|rewrite Z.mod_small; lia].
Qed.

(** The inner loop of [Split] writes one column. *)
Lemma column_loop p idx (e : Z → Z) (g : Z → bytes) parts :
  (∀ x, x ∈ coords parts → evaluate p x = Ret (e x)) → (∀ x, (idx < length (g x))%nat) →
  foldM (splitShare xCoordinates p idx)
    (seq 0 (length (coords parts))) (g <$> coords parts)
  = Ret ((fun x => <[idx := e x]> (g x)) <$> coords parts).
Proof.
  intros He Hg.
  assert (H : ∀ post pre, coords parts = pre ++ post →
    foldM (splitShare xCoordinates p idx)
      (seq (length pre) (length post)) (((fun x => <[idx := e x]> (g x)) <$> pre) ++ (g <$> post))
    = Ret ((fun x => <[idx := e x]> (g x)) <$> pre ++ post)).
  { induction post as [|x post IH]; intros pre Hpp; [by rewrite fmap_app|].
    rewrite !fmap_cons. cbn [length seq foldM]. unfold splitShare at 2.
    rewrite (xCoord_coords parts _ x) by (rewrite Hpp; by rewrite list_lookup_middle).
    cbn [mbind gores_bind]. rewrite He by (rewrite Hpp; apply elem_of_app; right; by left).
    cbn [mbind gores_bind]. unfold store2.
    rewrite (index_Ret _ (length pre) (g x)) by by rewrite list_lookup_middle by by rewrite length_fmap.
    cbn [mbind gores_bind]. rewrite store_Ret by done. cbn [mbind gores_bind].
    rewrite store_Ret by (rewrite length_app, length_fmap; cbn; lia). cbn [mbind gores_bind].
    rewrite insert_middle by by rewrite length_fmap.
    replace (S (length pre)) with (length (pre ++ [x])) by (rewrite length_app; cbn; lia).
    specialize (IH (pre ++ [x])). rewrite fmap_app, <- (app_assoc (_ <$> pre)) in IH. cbn [fmap list_fmap app] in IH.
    refine (eq_trans (IH _) _); [by rewrite Hpp, <- app_assoc|by rewrite <- app_assoc]. }
  apply (H (coords parts) []). done.
Qed.

Lemma makePolynomial_spec k v t : is_byte v → 2 ≤ t ≤ 255 →
  makePolynomial randRead k v (u8 (t - 1)) =
  match randRead k (Z.to_nat t - 1) with
  | Some r => Ret {| coefficients := v :: r |}
  | None => Fail "rand.Read"
  end.
Proof.
  intros Hv Ht. unfold makePolynomial, u8. rewrite (Z.mod_small (t - 1)) by lia.
  replace (t - 1 + 1) with t by lia. rewrite Z.mod_small by lia.
  destruct (Z.to_nat t) as [|n] eqn:Hn; [lia|].
  change 0 with (Z.of_nat 0) at 2. rewrite store_Ret by (cbn; lia).
  cbn [mbind gores_bind replicate insert list_insert drop take app].
  rewrite drop_0, length_replicate. by replace (S n - 1)%nat with n by lia.
Qed.

(** The loop over the secret, from byte [length pa] on. *)
Lemma secret_loop parts t sec pa : 2 ≤ t ≤ 255 → Forall is_byte sec →
  foldM (splitByte randRead xCoordinates (length (coords parts)) t)
    (imap (fun i v => ((length pa + i)%nat, v)) sec)
    ((fun x => ((fun cs => ev cs x) <$> pa) ++ replicate (length sec) 0 ++ [x]) <$> coords parts)
  = match polysFrom (Z.to_nat t - 1) (length pa) sec with
    | Some ps => Ret (share (pa ++ ps) <$> coords parts)
    | None => Fail "failed to generate polynomial"
    end.
Proof.
  intros Ht Hsec. revert pa. induction Hsec as [|v sec Hv Hsec IH]; intros pa.
  - cbn. unfold share. by rewrite app_nil_r.
  - rewrite imap_cons. cbn [foldM polysFrom length]. rewrite Nat.add_0_r.
    unfold splitByte at 2. rewrite makePolynomial_spec by done.
    destruct (randRead (length pa) (Z.to_nat t - 1)) as [r|] eqn:Hr; [|done].
    destruct (rand_fills _ _ _ Hr) as [Hlen Hbytes]. cbn [mbind gores_bind].
    rewrite (column_loop _ _ (ev (v :: r))).
    + cbn [mbind gores_bind].
      replace (S (length pa)) with (length (pa ++ [v :: r])) by (rewrite length_app; cbn; lia).
      specialize (IH (pa ++ [v :: r])).
      rewrite (imap_ext _ (fun i w => ((length (pa ++ [v :: r]) + i)%nat, w)))
        by (intros i w _; cbn; f_equal; rewrite length_app; cbn; lia).
      rewrite length_app in *. cbn [length] in *. rewrite Nat.add_1_r in *.
      replace (_ <$> coords parts) with
        ((fun x => ((fun cs => ev cs x) <$> pa ++ [v :: r]) ++ replicate (length sec) 0 ++ [x]) <$> coords parts).
      * rewrite IH. destruct (polysFrom _ _ sec) as [ps|]; [|done]. by rewrite <- app_assoc.
      * apply list_fmap_ext. intros i x _.
        etransitivity; [|symmetry; apply insert_middle; by rewrite length_fmap].
        by rewrite fmap_app, <- app_assoc.
    + intros x Hx%coords_range. apply evaluate_ev; [done|by constructor|unfold is_byte; lia].
    + intros x. rewrite !length_app, length_fmap, length_replicate. cbn. lia.
Qed.

Definition validSplit (secret : bytes) (parts threshold : Z) : Prop :=
  2 ≤ threshold ≤ parts ∧ parts ≤ 255 ∧ secret ≠ [].

Lemma length_coords parts : parts ≤ 255 → length (coords (Z.to_nat parts)) = Z.to_nat parts.
Proof. intros. unfold coords. rewrite length_fmap, length_take, length_xCoordinates. lia. Qed.

Lemma first_column L parts : parts ≤ 255 →
  mapM (fun idx => x ← xCoord xCoordinates idx; store (replicate (L + 1) 0) (Z.of_nat L) x)
    (seq 0 (Z.to_nat parts))
  = Ret ((fun x => replicate L 0 ++ [x]) <$> coords (Z.to_nat parts)).
Proof.
  intros Hp. pose proof (length_coords parts Hp) as Hlen.
  rewrite (mapM_Ret _ (fun k => replicate L 0 ++ [coords (Z.to_nat parts) !!! k])).
  - f_equal. apply list_eq. intros k. rewrite !list_lookup_fmap.
    destruct (decide (k < Z.to_nat parts)%nat) as [Hk|Hk].
    + rewrite lookup_seq_lt by done. cbn.
      destruct (lookup_lt_is_Some_2 (coords (Z.to_nat parts)) k) as [x Hx]; [lia|].
      by rewrite Hx, (list_lookup_total_correct _ _ _ Hx).
    + rewrite lookup_seq_ge, lookup_ge_None_2 by lia. done.
  - intros k [_ Hk]%elem_of_seq.
    destruct (lookup_lt_is_Some_2 (coords (Z.to_nat parts)) k) as [x Hx]; [lia|].
    rewrite (xCoord_coords _ _ _ Hx), (list_lookup_total_correct _ _ _ Hx). cbn [mbind gores_bind].
    rewrite store_Ret by (rewrite length_replicate; lia). f_equal.
    rewrite replicate_add. apply insert_middle. by rewrite length_replicate.
Qed.

(** [Split] on valid arguments. *)
Lemma Split_valid secret parts t : validSplit secret parts t → Forall is_byte secret →
  Split randRead xCoordinates secret parts t =
  match polysFrom (Z.to_nat t - 1) 0 secret with
  | Some ps => Ret (share ps <$> coords (Z.to_nat parts))
  | None => Fail "failed to generate polynomial"
  end.
Proof.
  intros (Ht & Hp & Hne) Hsec. unfold Split.
  rewrite !(proj2 (Z.ltb_ge _ _)), decide_False by (done || lia).
  rewrite first_column by done. cbn [mbind gores_bind].
  pose proof (secret_loop (Z.to_nat parts) t secret [] ltac:(lia) Hsec) as H.
  rewrite length_coords in H by done. exact H.
Qed.

Lemma polysFrom_Some n k sec ps : polysFrom n k sec = Some ps → Forall is_byte sec →
  length ps = length sec ∧ Forall (fun cs => length cs = S n ∧ Forall is_byte cs) ps
  ∧ sec = (fun cs => ev cs 0) <$> ps.
Proof.
  intros Hps Hsec. revert k ps Hps. induction Hsec as [|v sec Hv _ IH]; intros k ps Hps; cbn in Hps.
  - by simplify_eq.
  - destruct (randRead k n) as [r|] eqn:Hr; [|done].
    destruct (polysFrom n (S k) sec) as [ps'|] eqn:Hps'; [|done]. simplify_eq.
    destruct (rand_fills _ _ _ Hr) as [Hlen Hb]. destruct (IH _ _ Hps') as (Hl & HF & Heq).
    split_and!; [cbn; lia|constructor; [|done]; cbn; split; [lia|by constructor]|].
    rewrite fmap_cons, ev_0 by done. by rewrite <- Heq.
Qed.

End Sharing.

(** ** What [Combine] reconstructs *)

(** The tag byte of a share. *)
Definition tag (part : bytes) : Z := nth (length part - 1) part 0.

Lemma tag_lookup part n : length part = S n → part !! n = Some (tag part).
Proof.
  intros H. unfold tag. rewrite H. replace (S n - 1)%nat with n by lia.
  destruct (lookup_lt_is_Some_2 part n) as [x Hx]; [lia|]. by rewrite Hx, (nth_lookup_Some _ _ _ _ Hx).
Qed.

Lemma tag_byte part : Forall is_byte part → is_byte (tag part).
Proof.
  intros H. unfold tag. destruct (nth_in_or_default (length part - 1) part 0) as [Hin| ->]; [|done].
  rewrite List.Forall_forall in H. by apply H.
Qed.

(** The abscissas are collected exactly when they are new and distinct. *)
Lemma xSamples_spec n seen parts : Forall (fun p => length p = S n) parts →
  ((NoDup (tag <$> parts) ∧ ∀ p, p ∈ parts → tag p ∉ seen) ∧
     xSamples (Z.of_nat n) seen parts = Ret (tag <$> parts)) ∨
  (¬ (NoDup (tag <$> parts) ∧ ∀ p, p ∈ parts → tag p ∉ seen) ∧
     xSamples (Z.of_nat n) seen parts = Fail "duplicate part detected").
Proof.
  intros H. revert seen. induction H as [|p parts Hp _ IH]; intros seen; cbn [xSamples].
  - left. split; [|done]. split; [constructor|]. by intros ? ?%elem_of_nil.
  - rewrite (index_Ret _ _ _ (tag_lookup _ _ Hp)). cbn [mbind gores_bind].
    destruct (decide (tag p ∈ seen)) as [Hs|Hs].
    + right. split; [|done]. intros [_ Hx]. by apply (Hx p); [left|].
    + destruct (IH ({[tag p]} ∪ seen)) as [[[Hnd Hall] ->]|[Hbad ->]]; cbn.
      * left. split; [split|done].
        -- constructor; [|done]. rewrite list_elem_of_fmap. intros (q & Heq & Hq).
           apply (Hall q Hq). set_solver.
        -- intros q [->|Hq]%elem_of_cons; [done|]. specialize (Hall q Hq). set_solver.
      * right. split; [|done]. intros [[Hni Hnd]%NoDup_cons Hall]. apply Hbad. split; [done|].
        intros q Hq. apply not_elem_of_union. split; [|apply Hall; by right].
        rewrite elem_of_singleton. intros Heq. apply Hni. rewrite <- Heq. by apply list_elem_of_fmap_2.
Qed.

(** Arbitrary ordinates over distinct abscissas are the values of some function. *)
Lemma values_of_function (xs ys : list gf) : NoDup xs → length ys = length xs →
  ∃ f : gf → gf, ys = f <$> xs.
Proof.
  intros Hnd. revert ys. induction Hnd as [|x xs Hx _ IH]; intros [|y ys] Hlen; try done.
  - by exists id.
  - destruct (IH ys) as [f ->]; [cbn in Hlen; lia|].
    exists (fun z => if decide (z = x) then y else f z). cbn. rewrite decide_True by done. f_equal.
    apply list_fmap_ext. intros i z Hz. rewrite decide_False; [done|].
    intros ->. apply Hx. by eapply list_elem_of_lookup_2.
Qed.

Lemma interpolate_bytes (xs ys : bytes) x : NoDup xs → length ys = length xs →
  Forall is_byte xs → Forall is_byte ys → is_byte x →
  ∃ v, is_byte v ∧ interpolatePolynomial xs ys x = Ret v.
Proof.
  intros Hnd Hlen Hxs Hys Hx.
  assert (Hnd' : NoDup (lift <$> xs)).
  { apply (NoDup_fmap_1 gfv). by rewrite gfv_lift_list. }
  destruct (values_of_function (lift <$> xs) (lift <$> ys)) as [f Hf]; [done|by rewrite !length_fmap|].
  pose proof (interpolate_lagrange (lift <$> xs) (lift x) f Hnd') as H.
  rewrite <- Hf, !gfv_lift_list, gfv_lift in H by done.
  eexists. split; [|exact H]. apply gf_byte.
Qed.

Definition validParts (n : nat) (parts : list bytes) : Prop :=
  (2 ≤ length parts)%nat ∧ (1 ≤ n)%nat ∧ Forall (fun p => length p = S n) parts ∧ NoDup (tag <$> parts).

(** [Combine] on parts it accepts interpolates every column at 0. *)
Lemma Combine_valid n parts : validParts n parts →
  Combine parts = mapM (fun idx =>
    y_samples ← mapM (fun part => index part (Z.of_nat idx)) parts;
    interpolatePolynomial (tag <$> parts) y_samples 0) (seq 0 n).
Proof.
  intros (H2 & Hn & Hlen & Hnd). unfold Combine.
  rewrite (proj2 (Nat.ltb_ge _ _)) by done.
  destruct parts as [|p0 parts]; [cbn in H2; lia|].
  change (index (p0 :: parts) 0) with (Ret p0). cbn [mbind gores_bind].
  assert (Hp0 : length p0 = S n) by by apply Forall_inv in Hlen.
  rewrite Hp0. rewrite (proj2 (Nat.ltb_ge _ _)) by lia.
  replace (forallb _ _) with true.
  2:{ symmetry. apply forallb_forall. intros q Hq. apply Nat.eqb_eq.
      rewrite List.Forall_forall in Hlen. apply Hlen. by right. }
  cbn [negb]. replace (Z.of_nat (S n) - 1) with (Z.of_nat n) by lia.
  destruct (xSamples_spec n ∅ (p0 :: parts) Hlen) as [[_ ->]|[Hbad _]].
  - cbn [mbind gores_bind]. by replace (S n - 1)%nat with n by lia.
  - exfalso. apply Hbad. split; [done|]. set_solver.
Qed.

Lemma column_index (parts : list bytes) n idx :
  Forall (fun p => length p = S n) parts → (idx < n)%nat →
  mapM (fun part => index part (Z.of_nat idx)) parts = Ret ((fun p => nth idx p 0) <$> parts).
Proof.
  intros Hlen Hidx. apply mapM_Ret. intros p Hp. apply index_Ret.
  rewrite Forall_forall in Hlen. specialize (Hlen p Hp).
  destruct (lookup_lt_is_Some_2 p idx) as [z Hz]; [lia|]. by rewrite Hz, (nth_lookup_Some _ _ _ _ Hz).
Qed.

(** ** Main properties *)

(** Parts that are not accepted give an error. *)
Lemma Combine_invalid parts : (∃ n, validParts n parts) ∨
  (¬ ∃ n, validParts n parts) ∧ ∃ e, Combine parts = Fail e.
Proof.
  unfold Combine. destruct (Nat.ltb_spec (length parts) 2) as [H2|H2].
  { right. split; [|eauto]. intros (n & H & _). lia. }
  destruct parts as [|p0 parts]; [cbn in H2; lia|].
  change (index (p0 :: parts) 0) with (Ret p0). cbn [mbind gores_bind drop].
  destruct (Nat.ltb_spec (length p0) 2) as [Hp|Hp].
  { right. split; [|eauto]. intros (n & _ & Hn & Hlen & _). apply Forall_inv in Hlen. lia. }
  rewrite skipn_O.
  destruct (forallb (fun part => (length part =? length p0)%nat) parts) eqn:Hall; cbn [negb].
  2:{ right. split; [|eauto]. intros (n & _ & _ & Hlen & _).
      assert (forallb (λ part, (length part =? length p0)%nat) parts = true); [|congruence].
      apply forallb_forall. intros q Hq. apply Nat.eqb_eq. rewrite List.Forall_forall in Hlen.
      rewrite (Hlen q), (Hlen p0); [done|by left|by right]. }
  assert (Hlen : Forall (fun p => length p = S (length p0 - 1)) (p0 :: parts)).
  { constructor; [lia|]. apply List.Forall_forall. intros q Hq. rewrite forallb_forall in Hall.
    apply Hall, Nat.eqb_eq in Hq. lia. }
  replace (Z.of_nat (length p0) - 1) with (Z.of_nat (length p0 - 1)) by lia.
  destruct (xSamples_spec _ ∅ _ Hlen) as [[[Hnd _] _]|[Hbad ->]].
  - left. exists (length p0 - 1)%nat. split_and!; [done|lia|done|done].
  - right. split; [|eauto]. intros (n & _ & _ & _ & Hnd). apply Hbad. split; [done|set_solver].
Qed.

Lemma Combine_accepts n parts : Forall (Forall is_byte) parts → validParts n parts →
  ∃ secret, Combine parts = Ret secret ∧ length secret = n ∧ Forall is_byte secret.
Proof.
  intros Hb Hv. rewrite (Combine_valid n) by done. destruct Hv as (_ & _ & Hlen & Hnd).
  assert (H : ∀ idx, idx ∈ seq 0 n → ∃ v, is_byte v ∧
    (y_samples ← mapM (fun part => index part (Z.of_nat idx)) parts;
     interpolatePolynomial (tag <$> parts) y_samples 0) = Ret v).
  2:{ apply mapM_exists in H. by rewrite length_seq in H. }
  intros idx [_ Hidx]%elem_of_seq.
  rewrite (column_index _ n) by (done || lia). cbn [mbind gores_bind].
  rewrite Forall_forall in Hb.
  apply interpolate_bytes; [done|by rewrite !length_fmap| | |done];
    apply Forall_forall; intros z (p & -> & Hp)%list_elem_of_fmap; specialize (Hb p Hp).
  - by apply tag_byte.
  - destruct (nth_in_or_default idx p 0) as [Hin| ->]; [|done].
    rewrite List.Forall_forall in Hb. by apply Hb.
Qed.

(** [Combine] never panics on byte slices and succeeds exactly on two or more
    parts of one length of at least two bytes with distinct tags; the result has one
    byte less than the parts.  Everything else is an error value. *)
Theorem Combine_total parts : Forall (Forall is_byte) parts →
  Combine parts ≠ Crash ∧
  ((∃ secret, Combine parts = Ret secret) ↔ ∃ n, validParts n parts) ∧
  ∀ n secret, validParts n parts → Combine parts = Ret secret →
    length secret = n ∧ Forall is_byte secret.
Proof.
  intros Hb. destruct (Combine_invalid parts) as [[n Hv]|[Hinv [e He]]].
  - destruct (Combine_accepts n parts Hb Hv) as (s & Hs & Hlen & Hsb).
    split_and!; [by rewrite Hs|split; eauto|]. intros n' s' Hv' Hs'.
    destruct (Combine_accepts n' parts Hb Hv') as (s'' & Hs'' & ? & ?).
    rewrite Hs' in Hs''. by injection Hs'' as <-.
  - split_and!; [by rewrite He|split; [intros [s Hs]; congruence|done]|].
    intros n s Hv. exfalso. eauto.
Qed.

Section Properties.

Context (randRead : nat → nat → option bytes) (xCoordinates : list Z).
Hypothesis rand_fills : ∀ k n r, randRead k n = Some r → length r = n ∧ Forall is_byte r.
Hypothesis perm_255 : xCoordinates ≡ₚ Z.of_nat <$> seq 0 255.

Lemma tag_share ps x : tag (share ps x) = x.
Proof.
  unfold tag, share. rewrite length_app. cbn [length].
  rewrite app_nth2 by lia. by replace (_ - _)%nat with 0%nat by lia.
Qed.

(** Shares taken from those of [Split] are the shares of their own tags. *)
Lemma shares_by_tag ps xs sub : sub ⊆+ (share ps <$> xs) →
  sub = share ps <$> (tag <$> sub) ∧ (tag <$> sub) ⊆+ xs.
Proof.
  intros H. split.
  - rewrite <- list_fmap_compose. rewrite <- (list_fmap_id sub) at 1. apply list_fmap_ext.
    intros i p Hp%list_elem_of_lookup_2.
    apply (elem_of_submseteq _ _ p) in H; [|done]. apply list_elem_of_fmap in H as (x & -> & _).
    cbn. by rewrite tag_share.
  - apply (fmap_submseteq tag) in H. rewrite <- list_fmap_compose in H.
    rewrite (list_fmap_ext (tag ∘ share ps) id xs), list_fmap_id in H; [done|].
    intros i x _. apply tag_share.
Qed.

(** Interpolating a column of shares at 0 gives the intercept. *)
Lemma interpolate_column cs xs : Forall is_byte cs → Forall is_byte xs → NoDup xs →
  (length cs ≤ length xs)%nat →
  interpolatePolynomial xs ((fun x => ev cs x) <$> xs) 0 = Ret (ev cs 0).
Proof.
  intros Hcs Hxs Hnd Hlen.
  assert (Hnd' : NoDup (lift <$> xs)).
  { apply (NoDup_fmap_1 gfv). by rewrite gfv_lift_list. }
  pose proof (interpolate_lagrange (lift <$> xs) (lift 0) (gfeval (lift <$> cs)) Hnd') as H.
  rewrite (lagrangeAt_eval _ _ _ _ _ _ _ _ gf_field) in H by (by rewrite ?length_fmap).
  rewrite gfv_lift_list in H by done. rewrite <- !list_fmap_compose in H. exact H.
Qed.

Lemma column_of_shares ps (xs : list Z) idx cs : ps !! idx = Some cs →
  (fun p => nth idx p 0) <$> (share ps <$> xs) = (fun x => ev cs x) <$> xs.
Proof.
  intros Hcs. rewrite <- list_fmap_compose. apply list_fmap_ext. intros i x _. cbn.
  unfold share. rewrite app_nth1 by (rewrite length_fmap; by eapply lookup_lt_Some).
  apply nth_lookup_Some. by rewrite list_lookup_fmap, Hcs.
Qed.

Lemma Split_inv secret parts threshold shares : Forall is_byte secret → Split randRead xCoordinates secret parts threshold = Ret shares →
  validSplit secret parts threshold ∧ ∃ ps, polysFrom randRead (Z.to_nat threshold - 1) 0 secret = Some ps ∧ shares = share ps <$> coords xCoordinates (Z.to_nat parts).
Proof.
  intros Hsec HSplit. assert (Hval : validSplit secret parts threshold).
  { unfold Split in HSplit. repeat case_match; try done. unfold validSplit. split_and!; (lia || done). }
  split; [done|]. rewrite Split_valid in HSplit by done. destruct (polysFrom _ _ _ _) as [ps|]; [|done]. injection HSplit as <-. eauto.
Qed.

Lemma Split_length secret parts threshold shares : Forall is_byte secret → Split randRead xCoordinates secret parts threshold = Ret shares →
  Z.of_nat (length shares) = parts.
Proof.
  intros Hsec HS. destruct (Split_inv _ _ _ _ Hsec HS) as ((Ht & Hp & _) & ps & _ & ->). rewrite length_fmap, length_coords by done. lia.
Qed.

(** Enough shares give the secret back. *)
Lemma Split_combines secret parts threshold shares sub :
  Forall is_byte secret →
  Split randRead xCoordinates secret parts threshold = Ret shares →
  sub ⊆+ shares → threshold ≤ Z.of_nat (length sub) →
  Combine sub = Ret secret.
Proof.
  intros Hsec HSplit Hsub Hthr.
  destruct (Split_inv _ _ _ _ Hsec HSplit) as ((Ht & Hp & Hne) & ps & Hps & ->).
  destruct (polysFrom_Some _ rand_fills _ _ _ _ Hps Hsec) as (Hlen & HF & Hsecret).
  apply shares_by_tag in Hsub as [Hsub Htags].
  set (xs := tag <$> sub) in *.
  assert (Hnd : NoDup xs).
  { eapply submseteq_NoDup; [exact Htags|]. by apply coords_NoDup. }
  assert (Hxs : Forall is_byte xs).
  { apply Forall_forall. intros x Hx. apply (elem_of_submseteq _ _ x) in Htags; [|done].
    apply coords_range in Htags; [|done]. unfold is_byte. lia. }
  assert (Hlensub : length xs = length sub) by apply length_fmap.
  assert (Hrows : Forall (fun p => length p = S (length secret)) sub).
  { rewrite Hsub. apply Forall_forall. intros p (x & -> & _)%list_elem_of_fmap.
    unfold share. rewrite length_app, length_fmap. cbn. lia. }
  rewrite (Combine_valid (length secret)).
  2:{ split_and!; [lia|destruct secret; [done|cbn; lia]|done|done]. }
  rewrite (mapM_Ret _ (fun idx => nth idx secret 0)).
  - by rewrite nth_seq_self.
  - intros idx [_ Hidx]%elem_of_seq. rewrite (column_index _ (length secret)) by (done || lia).
    cbn [mbind gores_bind]. fold xs.
    destruct (lookup_lt_is_Some_2 ps idx) as [cs Hcs]; [lia|].
    rewrite Hsub, (column_of_shares _ _ _ cs) by done.
    rewrite Forall_forall in HF. destruct (HF cs) as [Hcl Hcb]; [by eapply list_elem_of_lookup_2|].
    rewrite interpolate_column by (done || lia). f_equal. symmetry. apply nth_lookup_Some.
    rewrite Hsecret at 1. by rewrite list_lookup_fmap, Hcs.
Qed.

(** Shamir reconstruction: with a random source that fills its buffers and a
    permutation of [0 .. 254], any [threshold] or more of the shares that [Split]
    returns, in any order, give the secret back through [Combine]. *)
Theorem Combine_Split secret parts threshold shares sub :
  Forall is_byte secret →
  Split randRead xCoordinates secret parts threshold = Ret shares →
  sub ⊆+ shares → threshold ≤ Z.of_nat (length sub) →
  Combine sub = Ret secret.
Proof. apply Split_combines. Qed.

Lemma polysFrom_total n k sec :
  is_Some (polysFrom randRead n k sec) ↔ ∀ i, (i < length sec)%nat → is_Some (randRead (k + i) n).
Proof.
  revert k. induction sec as [|v sec IH]; intros k; cbn; [split; [intros; lia|eauto]|].
  specialize (IH (S k)). destruct (randRead k n) as [r|] eqn:Hr.
  - transitivity (is_Some (polysFrom randRead n (S k) sec)).
    { destruct (polysFrom randRead n (S k) sec); split; intros []; eauto; done. }
    rewrite IH. split; intros H i Hi.
    + destruct i as [|i]; [by rewrite Nat.add_0_r, Hr|]. rewrite <- Nat.add_succ_comm. apply H. lia.
    + rewrite Nat.add_succ_comm. apply H. lia.
  - split; [by intros []|]. intros H. specialize (H 0%nat ltac:(lia)). rewrite Nat.add_0_r, Hr in H.
    by destruct H.
Qed.

(** [Split] on a secret of bytes never panics.  It succeeds exactly when
    [2 <= threshold <= parts <= 255], the secret is not empty and the random source does
    not fail; it then returns [parts] shares, each one byte longer than the secret, with
    distinct nonzero tags. *)
Theorem Split_total secret parts threshold : Forall is_byte secret →
  Split randRead xCoordinates secret parts threshold ≠ Crash ∧
  ((∃ shares, Split randRead xCoordinates secret parts threshold = Ret shares) ↔
     validSplit secret parts threshold ∧
     ∀ i, (i < length secret)%nat → is_Some (randRead i (Z.to_nat threshold - 1))) ∧
  ∀ shares, Split randRead xCoordinates secret parts threshold = Ret shares →
    Z.of_nat (length shares) = parts ∧ NoDup (tag <$> shares) ∧
    Forall (fun s => length s = S (length secret) ∧ 1 ≤ tag s < 256) shares.
Proof.
  intros Hsec. set (S_ := Split _ _ _ _ _).
  assert (Hcases : (¬ validSplit secret parts threshold ∧ ∃ e, S_ = Fail e) ∨ validSplit secret parts threshold).
  { subst S_. unfold Split, validSplit. repeat case_match; [left; split; [|by eauto]..|right];
      try (intros (?&?&?); (lia || done)). split_and!; (lia || done). }
  destruct Hcases as [[Hinv [e He]]|Hv].
  { rewrite He. split_and!; [done|split; [by intros []|tauto]|done]. }
  subst S_. rewrite Split_valid by done.
  pose proof (polysFrom_total (Z.to_nat threshold - 1) 0 secret) as Hrand.
  destruct (polysFrom _ _ _ _) as [ps|] eqn:Hps.
  - split_and!; [done|split; [|eauto]; intros _; split; [done|]; by apply Hrand|].
    intros shares [= <-]. destruct (polysFrom_Some _ rand_fills _ _ _ _ Hps Hsec) as (Hlen & _).
    assert (Htags : tag <$> (share ps <$> coords xCoordinates (Z.to_nat parts)) = coords xCoordinates (Z.to_nat parts)).
    { rewrite <- list_fmap_compose. rewrite <- list_fmap_id. apply list_fmap_ext. intros ? x _. apply tag_share. }
    destruct Hv as (Ht & Hp & Hne). rewrite Htags, length_fmap, length_coords by done.
    split_and!; [lia|by apply coords_NoDup|].
    apply Forall_forall. intros s (x & -> & Hx)%list_elem_of_fmap. rewrite tag_share.
    split; [|by eapply coords_range]. unfold share. rewrite length_app, length_fmap. cbn. lia.
  - split_and!; [done| |done]. split; [by intros []|]. intros [_ H]. apply Hrand in H. by destruct H.
Qed.

End Properties.

(** Sampling a polynomial at [x]. *)
Lemma evaluate_lift s r x : is_byte s → Forall is_byte r → is_byte x →
  evaluate {| coefficients := s :: r |} x = Ret (gfv (gfeval (lift s :: (lift <$> r)) (lift x))).
Proof. intros. by rewrite evaluate_ev by (done || by constructor). Qed.

(** The polynomial of [s] and [r] passes through the samples. *)
Definition fits (xs ys : bytes) (s : Z) (r : bytes) : Prop :=
  ∀ i x y, xs !! i = Some x → ys !! i = Some y → evaluate {| coefficients := s :: r |} x = Ret y.

Lemma lift_NoDup xs : Forall is_byte xs → NoDup xs → NoDup (lift <$> xs).
Proof. intros H Hnd. apply (NoDup_fmap_1 gfv). by rewrite gfv_lift_list. Qed.

Lemma lift_nonzero xs : Forall is_byte xs → 0 ∉ xs → gf0 ∉ lift <$> xs.
Proof.
  intros Hb H0. rewrite list_elem_of_fmap. intros (x & Heq & Hx). apply H0.
  rewrite Forall_forall in Hb. replace 0 with x; [done|].
  apply lift_inj; [by apply Hb|done|]. rewrite <- Heq. by apply gf_eq.
Qed.

Lemma fits_unique xs ys s r r' : is_byte s → Forall is_byte xs → NoDup xs → 0 ∉ xs →
  length ys = length xs → length r = length xs → length r' = length xs →
  Forall is_byte r → Forall is_byte r' → fits xs ys s r → fits xs ys s r' → r = r'.
Proof.
  intros Hs Hxs Hnd H0 Hlen Hr Hr' Hrb Hrb' Hf Hf'.
  pose proof (lift_NoDup xs Hxs Hnd) as Hnd'. pose proof (lift_nonzero xs Hxs H0) as H0'.
  assert (lift s :: (lift <$> r) = lift s :: (lift <$> r')) as [= Heq].
  { apply (eval_coeffs _ _ _ _ _ _ _ _ gf_field _ _ (lift <$> xs)); cbn [length];
      rewrite ?length_fmap; [done|done|lia|lia|].
    apply (eval_agree _ _ _ _ _ _ _ _ gf_field _ _ (gf0 :: (lift <$> xs))); cbn [length];
      rewrite ?length_fmap; [lia|lia|by constructor|].
    intros x [->|(z & -> & [i Hi]%list_elem_of_lookup)%list_elem_of_fmap]%elem_of_cons.
    - change (gfadd (lift s) (gfmul gf0 (gfeval (lift <$> r) gf0))
        = gfadd (lift s) (gfmul gf0 (gfeval (lift <$> r') gf0))). ring.
    - destruct (lookup_lt_is_Some_2 ys i) as [y Hy]; [rewrite Hlen; by eapply lookup_lt_Some|].
      assert (is_byte z) by (rewrite Forall_forall in Hxs; apply Hxs; by eapply list_elem_of_lookup_2).
      specialize (Hf i z y Hi Hy). specialize (Hf' i z y Hi Hy).
      rewrite evaluate_lift in Hf, Hf' by done. apply gf_eq. congruence. }
  by rewrite <- (gfv_lift_list r), <- (gfv_lift_list r'), Heq.
Qed.

Lemma fits_exists xs ys s : is_byte s → Forall is_byte xs → Forall is_byte ys → NoDup xs → 0 ∉ xs →
  length ys = length xs → ∃ r, length r = length xs ∧ Forall is_byte r ∧ fits xs ys s r.
Proof.
  intros Hs Hxs Hys Hnd H0 Hlen.
  assert (Hnd' : NoDup (gf0 :: (lift <$> xs))).
  { constructor; [by apply lift_nonzero|by apply lift_NoDup]. }
  destruct (values_of_function _ (lift s :: (lift <$> ys)) Hnd') as [f Hf];
    [cbn; by rewrite !length_fmap, Hlen|]. cbn in Hf. injection Hf as Hf0 Hf.
  destruct (interpolant _ _ _ _ _ _ _ _ gf_field _ f Hnd') as (cs & Hcl & Hcs).
  destruct cs as [|c cs]; [done|]. cbn in Hcl. rewrite length_fmap in Hcl.
  assert (c = lift s) as ->.
  { rewrite Hf0, <- (Hcs gf0) by left. change (c = gfadd c (gfmul gf0 (gfeval cs gf0))). ring. }
  assert (Hb : Forall is_byte (gfv <$> cs)).
  { apply Forall_forall. intros z (x & -> & _)%list_elem_of_fmap. apply gf_byte. }
  assert (Hl : lift <$> (gfv <$> cs) = cs).
  { rewrite <- list_fmap_compose. rewrite <- (list_fmap_id cs) at 2. apply list_fmap_ext.
    intros i x _. apply gf_eq, (gfv_lift (gfv x)), gf_byte. }
  exists (gfv <$> cs). rewrite length_fmap. split_and!; [lia|done|]. intros i x y Hx Hy.
  assert (is_byte x) by (rewrite Forall_forall in Hxs; apply Hxs; by eapply list_elem_of_lookup_2).
  assert (is_byte y) by (rewrite Forall_forall in Hys; apply Hys; by eapply list_elem_of_lookup_2).
  rewrite evaluate_lift, Hl by done. f_equal. rewrite Hcs.
  2:{ right. apply list_elem_of_fmap_2. by eapply list_elem_of_lookup_2. }
  rewrite <- (gfv_lift y) by done. f_equal.
  assert (Hfy : (f <$> (lift <$> xs)) !! i = Some (lift y)) by (rewrite <- Hf, list_lookup_fmap; apply fmap_Some; eauto).
  rewrite !list_lookup_fmap in Hfy. apply fmap_Some in Hfy as (z & Hz & ->).
  apply fmap_Some in Hz as (x' & Hx' & ->).
  assert (Some x' = Some x) as [= ->] by by rewrite <- Hx, <- Hx'. done.
Qed.


(** ** Instances: a secret of three bytes in five shares, three of which suffice *)

Definition exRand (k n : nat) : option bytes := Some (replicate n (Z.of_nat k mod 256)).
Definition exPerm : list Z := Z.of_nat <$> seq 0 255.

Lemma exRand_fills k n r : exRand k n = Some r → length r = n ∧ Forall is_byte r.
Proof.
  intros [= <-]. rewrite length_replicate. split; [done|]. apply Forall_replicate. apply u8_byte.
Qed.

Definition exShares : list bytes :=
  match Split exRand exPerm [83; 101; 107] 5 3 with Ret l => l | _ => [] end.

Lemma Combine_Split_witness :
  Split exRand exPerm [83; 101; 107] 5 3 = Ret exShares ∧ Combine (drop 2 exShares) = Ret [83; 101; 107].
Proof.
  split; [vm_compute; reflexivity|].
  apply (Combine_Split exRand exPerm exRand_fills (reflexivity _) [83; 101; 107] 5 3 exShares).
  - repeat constructor; unfold is_byte; lia.
  - vm_compute. reflexivity.
  - apply (sublist_submseteq (drop 2 exShares)), sublist_drop.
  - vm_compute. discriminate.
Defined.

Lemma Split_total_witness : ∃ shares, Split exRand exPerm [83; 101; 107] 5 3 = Ret shares.
Proof.
  apply (Split_total exRand exPerm exRand_fills (reflexivity _) [83; 101; 107] 5 3).
  - repeat constructor; unfold is_byte; lia.
  - split; [|by eexists]. unfold validSplit. split_and!; (lia || done).
Defined.

Lemma Combine_total_witness : ∃ secret, Combine [[1; 2; 3]; [4; 5; 6]] = Ret secret.
Proof.
  apply (Combine_total [[1; 2; 3]; [4; 5; 6]]).
  - repeat constructor; unfold is_byte; lia.
  - exists 2%nat. unfold validParts. split_and!; cbn; [lia|lia|by repeat constructor|].
    apply (bool_decide_unpack _). vm_compute. exact I.
Defined.

