(* ===== verification/Event.v ===== *)
(** * The event mux

    Models [src/event/event.go].  [TypeMux] is used by many goroutines at once,
    so the model is a machine of threads: each call of [Subscribe], [Post], [Stop] or
    [Unsubscribe] is a thread with a program counter [pc], and [exec] performs one
    step of one thread.  A step is one lock operation, one channel operation, or
    the code between two of them that only touches what a held lock protects.

    Locks follow [sync]: a [Mutex] has an owner; [RWMutex.Lock] first announces the
    writer, which stops new readers, and then waits for the readers to leave.
    Channels are unbuffered; a send is a step of its own that needs a receiver, which is the
    environment's choice.  Closing a closed or nil channel and sending on a closed one
    are panics of the machine. *)

From stdpp Require Import base list sets gmap strings.
From Stdlib Require Import ZArith Lia.
From S2P Require Import Prelude.
Local Open Scope string_scope.
Local Open Scope list_scope.

Definition tid := nat.
Definition sid := nat.

(** [reflect.Type], identified by its name. *)
Definition typ := string.

Record Event := { evTime : Z; evType : typ; evData : string }.

(** ** State *)

Inductive chan := COpen | CClosed | CNil.

(** [muxsub]; [closing] records that the channel [closing] has been closed.
    [closeMu] is a [Mutex]; [postR] and [postW] are the readers and the announced
    writer of [postMu]. *)
Record muxsub := {
  created : Z;
  closing : bool;
  closed : bool;
  postC : chan;
  closeMu : option tid;
  postR : gset tid;
  postW : option tid }.

#[global] Instance muxsub_eta : Eta muxsub := fun s =>
  {| created := created s; closing := closing s; closed := closed s; postC := postC s;
     closeMu := closeMu s; postR := postR s; postW := postW s |}.

(** Where a thread stands.  The last argument of the [Close...] counters is the
    caller of [closewait]: [Some todo] for [Stop] with the subscriptions left in its
    loops, [None] for [Unsubscribe]. *)
Inductive pc :=
| SubLock (s : sid) (types : list typ)
| SubWait (s : sid) (types : list typ)
| SubBody (s : sid) (types : list typ)
| PostLock (ev : Event)
| PostRead (ev : Event)
| PostLoop (ev : Event) (rest : list sid)
| DeliverLock (ev : Event) (s : sid) (rest : list sid)
| DeliverSelect (ev : Event) (s : sid) (rest : list sid)
| StopLock
| StopWait
| StopRange (todo : list sid)
| UnsubLock (s : sid)
| UnsubWait (s : sid)
| UnsubBody (s : sid)
| CloseLock (s : sid) (k : option (list sid))
| CloseCheck (s : sid) (k : option (list sid))
| ClosePostLock (s : sid) (k : option (list sid))
| ClosePostWait (s : sid) (k : option (list sid))
| ClosePost (s : sid) (k : option (list sid))
| CloseUnlock (s : sid) (k : option (list sid))
| Done (err : option string)
| Died.

(** [TypeMux] with its subscriptions and the threads using it; [muxR] and [muxW]
    are the readers and the announced writer of [mutex]; [sent] is the trace of
    the events received from each subscription's channel. *)
Record TypeMux := {
  Subm : gmap typ (list sid);
  stopped : bool;
  muxR : gset tid;
  muxW : option tid;
  subs : gmap sid muxsub;
  threads : gmap tid pc;
  sent : list (sid * Event) }.

#[global] Instance TypeMux_eta : Eta TypeMux := fun m =>
  {| Subm := Subm m; stopped := stopped m; muxR := muxR m; muxW := muxW m;
     subs := subs m; threads := threads m; sent := sent m |}.

(** The zero value is ready to use. *)
Definition zeroMux : TypeMux :=
  {| Subm := ∅; stopped := false; muxR := ∅; muxW := None; subs := ∅; threads := ∅; sent := [] |}.

Definition ErrMuxClosed : string := "event: mux closed".

(** ** Sequential parts *)

(** [find]: the index of the first occurrence, or -1. *)
Definition find (slice : list sid) (item : sid) : Z :=
  match list_find (item =.) slice with Some (i, _) => Z.of_nat i | None => -1 end.

(** [posdelete]: a new slice without position [pos]. *)
Definition posdelete (slice : list sid) (pos : nat) : list sid :=
  take pos slice ++ drop (S pos) slice.

(** [newsub]. *)
Definition newsub (now : Z) : muxsub :=
  {| created := now; closing := false; closed := false; postC := COpen;
     closeMu := None; postR := ∅; postW := None |}.

(** The loop of [Subscribe] over the types; [inr] is the map at the panic. *)
Fixpoint register (s : sid) (types : list typ) (m : gmap typ (list sid)) :
    gmap typ (list sid) + gmap typ (list sid) :=
  match types with
  | [] => inl m
  | t :: types' =>
      let oldsubs := default [] (m !! t) in
      if bool_decide (find oldsubs s ≠ (-1)%Z) then inr m
      else register s types' (<[t := oldsubs ++ [s]]> m)
  end.

(** The loop of [del]: the subscription leaves every list, emptied lists leave the
    map.  Each key is treated by itself, so the order of the iteration is immaterial. *)
Definition delFrom (s : sid) (slice : list sid) : option (list sid) :=
  let pos := find slice s in
  if bool_decide (0 ≤ pos)%Z then
    if (length slice =? 1)%nat then None else Some (posdelete slice (Z.to_nat pos))
  else Some slice.

Definition delLoop (s : sid) (m : gmap typ (list sid)) : gmap typ (list sid) :=
  omap (delFrom s) m.

(** The subscriptions in the order in which the loops of [Stop] meet them, for an
    iteration order of the map. *)
Definition rangeSubs (order : list typ) (m : gmap typ (list sid)) : list sid :=
  order ≫= (fun t => default [] (m !! t)).

(** ** Steps *)

Inductive sres :=
| Blocked
| Next (m : TypeMux)
| Panic (why : string) (m : TypeMux).

(** What the scheduler chooses: a plain step, a delivery to a ready receiver, or
    the order in which [Stop] ranges over the map. *)
Inductive choice := Plain | Receive | Order (order : list typ).

Definition goto (t : tid) (p : pc) (m : TypeMux) : TypeMux :=
  m <| threads ::= <[t := p]> |>.

Definition setSub (s : sid) (v : muxsub) (m : TypeMux) : TypeMux :=
  m <| subs ::= <[s := v]> |>.

(** The caller of [closewait] continues. *)
Definition closeReturn (k : option (list sid)) : pc :=
  match k with Some todo => StopRange todo | None => Done None end.

(** [mutex.Lock()] up to the announcement. *)
Definition announce (t : tid) (p : pc) (m : TypeMux) : sres :=
  match muxW m with
  | Some _ => Blocked
  | None => Next (goto t p (m <| muxW := Some t |>))
  end.

(** The rest of [mutex.Lock()]: the readers have left. *)
Definition acquire (t : tid) (p : pc) (m : TypeMux) : sres :=
  if decide (muxR m = ∅) then Next (goto t p m) else Blocked.

(** [Subscribe] with the lock held, to its deferred unlock. *)
Definition Subscribe (t : tid) (s : sid) (v : muxsub) (types : list typ) (m : TypeMux) : sres :=
  let m' := m <| muxW := None |> in
  if stopped m then
    match postC v with
    | COpen => Next (goto t (Done None) (setSub s (v <| closed := true |> <| postC := CClosed |>) m'))
    | CClosed => Panic "close of closed channel" (goto t Died m')
    | CNil => Panic "close of nil channel" (goto t Died m')
    end
  else
    match register s types (Subm m) with
    | inl sm => Next (goto t (Done None) (m' <| Subm := sm |>))
    | inr sm => Panic "event: duplicate type in Subscribe" (goto t Died (m' <| Subm := sm |>))
    end.

(** [deliver]. *)
Definition deliver (t : tid) (c : choice) (p : pc) (v : muxsub) (m : TypeMux) : sres :=
  match p with
  | PostLoop ev (s :: rest) =>
      if (evTime ev <? created v)%Z then Next (goto t (PostLoop ev rest) m)
      else Next (goto t (DeliverLock ev s rest) m)
  | DeliverLock ev s rest =>
      match postW v with
      | Some _ => Blocked
      | None => Next (goto t (DeliverSelect ev s rest) (setSub s (v <| postR ::= union {[t]} |>) m))
      end
  | DeliverSelect ev s rest =>
      let m' := goto t (PostLoop ev rest) (setSub s (v <| postR ::= (.∖ {[t]}) |>) m) in
      match c, postC v with
      | Receive, COpen => Next (m' <| sent ::= (.++ [(s, ev)]) |>)
      | _, CClosed => Panic "send on closed channel" (goto t Died m)
      | Plain, _ => if closing v then Next m' else Blocked
      | _, _ => Blocked
      end
  | _ => Blocked
  end.

(** [closewait]. *)
Definition closewait (t : tid) (p : pc) (v : muxsub) (m : TypeMux) : sres :=
  match p with
  | CloseLock s k =>
      match closeMu v with
      | Some _ => Blocked
      | None => Next (goto t (CloseCheck s k) (setSub s (v <| closeMu := Some t |>) m))
      end
  | CloseCheck s k =>
      if closed v then Next (goto t (closeReturn k) (setSub s (v <| closeMu := None |>) m))
      else if closing v then Panic "close of closed channel" (goto t Died m)
      else Next (goto t (ClosePostLock s k) (setSub s (v <| closing := true |> <| closed := true |>) m))
  | ClosePostLock s k =>
      match postW v with
      | Some _ => Blocked
      | None => Next (goto t (ClosePostWait s k) (setSub s (v <| postW := Some t |>) m))
      end
  | ClosePostWait s k =>
      if decide (postR v = ∅) then Next (goto t (ClosePost s k) m) else Blocked
  | ClosePost s k =>
      match postC v with
      | COpen =>
          Next (goto t (CloseUnlock s k) (setSub s (v <| postC := CNil |> <| postW := None |>) m))
      | CClosed => Panic "close of closed channel" (goto t Died m)
      | CNil => Panic "close of nil channel" (goto t Died m)
      end
  | CloseUnlock s k => Next (goto t (closeReturn k) (setSub s (v <| closeMu := None |>) m))
  | _ => Blocked
  end.

(** The subscription a counter works on, if any. *)
Definition subOf (p : pc) : option sid :=
  match p with
  | SubBody s _ => Some s
  | PostLoop _ (s :: _) | DeliverLock _ s _ | DeliverSelect _ s _ => Some s
  | CloseLock s _ | CloseCheck s _ | ClosePostLock s _ | ClosePostWait s _
  | ClosePost s _ | CloseUnlock s _ => Some s
  | _ => None
  end.

(** Steps that touch no subscription: the locking of the mux, [Post] up to its
    loop, [Stop] outside [closewait], [del]. *)
Definition muxStep (t : tid) (c : choice) (p : pc) (m : TypeMux) : sres :=
  match p with
  | SubLock s types => announce t (SubWait s types) m
  | SubWait s types => acquire t (SubBody s types) m
  | PostLock ev =>
      match muxW m with
      | Some _ => Blocked
      | None => Next (goto t (PostRead ev) (m <| muxR ::= union {[t]} |>))
      end
  | PostRead ev =>
      let m' := m <| muxR ::= (.∖ {[t]}) |> in
      if stopped m then Next (goto t (Done (Some ErrMuxClosed)) m')
      else Next (goto t (PostLoop ev (default [] (Subm m !! evType ev))) m')
  | PostLoop ev [] => Next (goto t (Done None) m)
  | StopLock => announce t StopWait m
  | StopWait =>
      match c with
      | Order order =>
          if decide (order ≡ₚ (map_to_list (Subm m)).*1)
          then acquire t (StopRange (rangeSubs order (Subm m))) m
          else Blocked
      | _ => Blocked
      end
  | StopRange (s :: todo) => Next (goto t (CloseLock s (Some todo)) m)
  | StopRange [] =>
      Next (goto t (Done None) (m <| Subm := ∅ |> <| stopped := true |> <| muxW := None |>))
  | UnsubLock s => announce t (UnsubWait s) m
  | UnsubWait s => acquire t (UnsubBody s) m
  | UnsubBody s =>
      Next (goto t (CloseLock s None) (m <| Subm ::= delLoop s |> <| muxW := None |>))
  | _ => Blocked
  end.

(** One step of thread [t]. *)
Definition exec (t : tid) (c : choice) (m : TypeMux) : sres :=
  match threads m !! t with
  | None => Blocked
  | Some p =>
      match subOf p with
      | None => muxStep t c p m
      | Some s =>
          match subs m !! s with
          | None => Blocked
          | Some v =>
              match p with
              | SubBody _ types => Subscribe t s v types m
              | PostLoop _ _ | DeliverLock _ _ _ | DeliverSelect _ _ _ => deliver t c p v m
              | _ => closewait t p v m
              end
          end
      end
  end.

(** ** Calls

    A call starts a thread: [Subscribe] and [Post] read the clock and build their
    object first; [Unsubscribe] is called on a subscription that [Subscribe] has
    returned. *)
Inductive call :=
| CallSubscribe (types : list typ)
| CallPost (ty : typ) (data : string)
| CallStop
| CallUnsubscribe (s : sid).

Definition subscribing (p : pc) : option sid :=
  match p with SubLock s _ | SubWait s _ | SubBody s _ => Some s | _ => None end.

Definition returned (s : sid) (m : TypeMux) : Prop :=
  is_Some (subs m !! s) ∧ map_Forall (fun _ p => subscribing p ≠ Some s) (threads m).

Definition start (t : tid) (now : Z) (c : call) (m : TypeMux) : option TypeMux :=
  if decide (is_Some (threads m !! t)) then None
  else
    match c with
    | CallSubscribe types =>
        let s := fresh (dom (subs m)) in
        Some (goto t (SubLock s types) (setSub s (newsub now) m))
    | CallPost ty data => Some (goto t (PostLock {| evTime := now; evType := ty; evData := data |}) m)
    | CallStop => Some (goto t StopLock m)
    | CallUnsubscribe s =>
        if decide (returned s m) then Some (goto t (UnsubLock s) m) else None
    end.

(** Executions of well-behaved programs: any interleaving of calls and steps. *)
Inductive step : TypeMux → TypeMux → Prop :=
| step_start t now c m m' : start t now c m = Some m' → step m m'
| step_exec t c m m' : exec t c m = Next m' → step m m'.

Definition reachable (m : TypeMux) : Prop := rtc step zeroMux m.
