(* ===== verification/EventSafety.v ===== *)
(** * The event mux: safety and progress

    The invariant of the threads, locks and subscriptions of [Event.v] and what
    follows from it for every interleaving: no panic on a channel ([mux_no_panic]), no
    deadlock ([mux_progress]), nothing delivered after closing
    ([closed_receives_nothing]), [ErrMuxClosed] after [Stop] ([post_after_stop]) and the
    shape of the subscription map ([Subm_invariant]).  A step changes one thread and at most one
    subscription; [move] lists what it may do to the rest and [Inv_move] proves
    preservation once for all steps. *)

From stdpp Require Import base list sets gmap strings.
From Stdlib Require Import ZArith Lia.
From S2P Require Import Prelude Event.
Local Open Scope string_scope.
Local Open Scope list_scope.

(** ** Invariant *)

(** Counters between [mutex.Lock()] and [mutex.Unlock()], the announcement included. *)
Definition holdsW (p : pc) : bool :=
  match p with
  | SubWait _ _ | SubBody _ _ | StopWait | StopRange _ | UnsubWait _ | UnsubBody _ => true
  | CloseLock _ (Some _) | CloseCheck _ (Some _) | ClosePostLock _ (Some _)
  | ClosePostWait _ (Some _) | ClosePost _ (Some _) | CloseUnlock _ (Some _) => true
  | _ => false
  end.

Definition readsMux (p : pc) : bool := match p with PostRead _ => true | _ => false end.

(** Counters that hold [closeMu], the announced writer of [postMu], a reader of [postMu]. *)
Definition inClose (p : pc) : option sid :=
  match p with
  | CloseCheck s _ | ClosePostLock s _ | ClosePostWait s _ | ClosePost s _ | CloseUnlock s _ => Some s
  | _ => None
  end.

Definition inPostW (p : pc) : option sid :=
  match p with ClosePostWait s _ | ClosePost s _ => Some s | _ => None end.

Definition inSelect (p : pc) : option sid :=
  match p with DeliverSelect _ s _ => Some s | _ => None end.

(** Between the closing of [closing] and the closing of [postC]. *)
Definition midClose (p : pc) : option sid :=
  match p with ClosePostLock s _ | ClosePostWait s _ | ClosePost s _ => Some s | _ => None end.

(** Subscriptions a thread took from the map. *)
Definition refs (p : pc) : list sid :=
  match p with
  | PostLoop _ l => l
  | DeliverLock _ s l | DeliverSelect _ s l => s :: l
  | StopRange l => l
  | CloseLock s (Some l) | CloseCheck s (Some l) | ClosePostLock s (Some l)
  | ClosePostWait s (Some l) | ClosePost s (Some l) | CloseUnlock s (Some l) => s :: l
  | _ => []
  end.

(** All subscriptions a thread knows. *)
Definition mentions (p : pc) : list sid :=
  match p with
  | SubLock s _ | SubWait s _ | SubBody s _ => [s]
  | UnsubLock s | UnsubWait s | UnsubBody s => [s]
  | CloseLock s None | CloseCheck s None | ClosePostLock s None
  | ClosePostWait s None | ClosePost s None | CloseUnlock s None => [s]
  | _ => refs p
  end.

(** The stages of a subscription: open, being closed by a thread, closed, or born
    closed because the mux was stopped. *)
Definition stage (m : TypeMux) (s : sid) (v : muxsub) : Prop :=
  (closed v = false ∧ closing v = false ∧ postC v = COpen) ∨
  (closed v = true ∧ closing v = true ∧ postC v = CNil) ∨
  (closed v = true ∧ closing v = false ∧ postC v = CClosed) ∨
  (closed v = true ∧ closing v = true ∧ postC v = COpen ∧
     ∃ t p, threads m !! t = Some p ∧ midClose p = Some s).

Record Inv (m : TypeMux) : Prop := {
  inv_W1 : ∀ t p, threads m !! t = Some p → holdsW p = true → muxW m = Some t;
  inv_W2 : ∀ t, muxW m = Some t → ∃ p, threads m !! t = Some p ∧ holdsW p = true;
  inv_R1 : ∀ t p, threads m !! t = Some p → readsMux p = true → t ∈ muxR m;
  inv_R2 : ∀ t, t ∈ muxR m → ∃ p, threads m !! t = Some p ∧ readsMux p = true;
  inv_C1 : ∀ t p s v, threads m !! t = Some p → subs m !! s = Some v →
    inClose p = Some s → closeMu v = Some t;
  inv_C2 : ∀ s v t, subs m !! s = Some v → closeMu v = Some t →
    ∃ p, threads m !! t = Some p ∧ inClose p = Some s;
  inv_PW1 : ∀ t p s v, threads m !! t = Some p → subs m !! s = Some v →
    inPostW p = Some s → postW v = Some t;
  inv_PW2 : ∀ s v t, subs m !! s = Some v → postW v = Some t →
    ∃ p, threads m !! t = Some p ∧ inPostW p = Some s;
  inv_PR1 : ∀ t p s v, threads m !! t = Some p → subs m !! s = Some v →
    inSelect p = Some s → t ∈ postR v;
  inv_PR2 : ∀ s v t, subs m !! s = Some v → t ∈ postR v →
    ∃ p, threads m !! t = Some p ∧ inSelect p = Some s;
  inv_mid : ∀ t p s v, threads m !! t = Some p → subs m !! s = Some v →
    midClose p = Some s → closed v = true ∧ closing v = true ∧ postC v = COpen;
  inv_stage : ∀ s v, subs m !! s = Some v → stage m s v;
  inv_refs : ∀ t p s, threads m !! t = Some p → s ∈ refs p →
    ∃ v, subs m !! s = Some v ∧ postC v ≠ CClosed;
  inv_known : ∀ t p s, threads m !! t = Some p → s ∈ mentions p → is_Some (subs m !! s);
  inv_Subm : ∀ ty l s, Subm m !! ty = Some l → s ∈ l →
    ∃ v, subs m !! s = Some v ∧ postC v ≠ CClosed;
  inv_new : ∀ t p s, threads m !! t = Some p → subscribing p = Some s →
    (∃ now, subs m !! s = Some (newsub now)) ∧
    (∀ ty l, Subm m !! ty = Some l → s ∉ l) ∧
    (∀ t' p', threads m !! t' = Some p' → s ∈ mentions p' → t' = t) }.

Lemma Inv_zero : Inv zeroMux.
Proof. split; cbn; intros; simplify_map_eq; set_solver. Qed.

(** *** One thread moves

    What a step of thread [t] from [p] to [p'] may do to the rest, as conditions
    under which the invariant is preserved ([Inv_move]). *)

Definition flags (v : muxsub) : bool * bool * chan := (closed v, closing v, postC v).

(** A subscription that has just been made and is known to no thread. *)
Definition unknown (s : sid) (m : TypeMux) : Prop :=
  (∃ now, subs m !! s = Some (newsub now)) ∧ (∀ ty l, Subm m !! ty = Some l → s ∉ l) ∧
  (∀ t p, threads m !! t = Some p → s ∉ mentions p).

Record move (m m' : TypeMux) (t : tid) (p p' : pc) : Prop := {
  mv_thread : threads m !! t = Some p ∨ threads m !! t = None ∧ p = Done None;
  mv_threads : threads m' = <[t := p']> (threads m);
  mv_W : muxW m' = (if holdsW p' then Some t else if holdsW p then None else muxW m);
  mv_W_free : holdsW p' = true → holdsW p = false → muxW m = None;
  mv_R : ∀ t', t' ∈ muxR m' ↔ (t' = t ∧ readsMux p' = true) ∨ (t' ≠ t ∧ t' ∈ muxR m);
  mv_sub : ∀ s v', subs m' !! s = Some v' → ∃ v, subs m !! s = Some v ∧
    closeMu v' = (if decide (inClose p' = Some s) then Some t
                  else if decide (inClose p = Some s) then None else closeMu v) ∧
    (inClose p' = Some s → inClose p ≠ Some s → closeMu v = None) ∧
    postW v' = (if decide (inPostW p' = Some s) then Some t
                else if decide (inPostW p = Some s) then None else postW v) ∧
    (inPostW p' = Some s → inPostW p ≠ Some s → postW v = None) ∧
    (∀ t', t' ∈ postR v' ↔ (t' = t ∧ inSelect p' = Some s) ∨ (t' ≠ t ∧ t' ∈ postR v)) ∧
    ((flags v' = flags v ∧ (midClose p' = Some s ↔ midClose p = Some s)) ∨
     (flags v' = (true, true, COpen) ∧ midClose p' = Some s ∧ flags v ≠ (true, false, CClosed)) ∨
     (flags v' = (true, true, CNil) ∧ midClose p = Some s ∧ midClose p' = None) ∨
     (flags v' = (true, false, CClosed) ∧ subscribing p = Some s ∧ mentions p' = []));
  mv_sub_dom : ∀ s, is_Some (subs m !! s) → is_Some (subs m' !! s);
  mv_sub_frame : ∀ s, s ∉ mentions p → subs m' !! s = subs m !! s ∨ s ∈ mentions p';
  mv_refs : ∀ s, s ∈ refs p' → s ∈ refs p ∨ ∃ ty l, Subm m !! ty = Some l ∧ s ∈ l;
  mv_mentions : ∀ s, s ∈ mentions p' → s ∈ mentions p ∨ (∃ ty l, Subm m !! ty = Some l ∧ s ∈ l) ∨
    returned s m ∨ unknown s m;
  mv_new : ∀ s, subscribing p' = Some s → subscribing p = Some s ∨ unknown s m;
  mv_new_sub : ∀ s, subscribing p' = Some s → subs m' !! s = subs m !! s;
  mv_Subm : ∀ ty l s, Subm m' !! ty = Some l → s ∈ l →
    (∃ l', Subm m !! ty = Some l' ∧ s ∈ l') ∨
    (subscribing p = Some s ∧ subscribing p' = None ∧ mentions p' = [] ∧ subs m' !! s = subs m !! s) }.

Lemma inClose_mentions p s : inClose p = Some s → s ∈ mentions p.
Proof. destruct p as [| | | | | | | | | | | | | |? []|? []|? []|? []|? []|? []| |]; cbn; intros; simplify_eq; set_solver. Qed.

Lemma midClose_inClose p s : midClose p = Some s → inClose p = Some s.
Proof. by destruct p. Qed.

Lemma refs_mentions p s : s ∈ refs p → s ∈ mentions p.
Proof. destruct p as [| | | | | | | | | | | | | |? []|? []|? []|? []|? []|? []| |]; cbn; set_solver. Qed.

Lemma subscribing_mentions p s : subscribing p = Some s → mentions p = [s].
Proof. destruct p; cbn; intros; by simplify_eq. Qed.

Section Move.

Context (m m' : TypeMux) (t : tid) (p p' : pc) (Hmv : move m m' t p p') (I : Inv m).

Lemma mv_lookup t0 p0 : threads m' !! t0 = Some p0 →
  (t0 = t ∧ p0 = p') ∨ (t0 ≠ t ∧ threads m !! t0 = Some p0).
Proof. rewrite (mv_threads _ _ _ _ _ Hmv). rewrite lookup_insert_Some. naive_solver. Qed.

Lemma mv_keep t0 p0 : t0 ≠ t → threads m !! t0 = Some p0 → threads m' !! t0 = Some p0.
Proof. intros. rewrite (mv_threads _ _ _ _ _ Hmv). by rewrite lookup_insert_ne. Qed.

Lemma mv_self : threads m' !! t = Some p'.
Proof. rewrite (mv_threads _ _ _ _ _ Hmv). by rewrite lookup_insert_eq. Qed.

(** Another thread that holds a lock recorded by [f] still does. *)
Lemma mv_owner (f : pc → Prop) t0 : t0 ≠ t →
  (∃ p0, threads m !! t0 = Some p0 ∧ f p0) → ∃ p0, threads m' !! t0 = Some p0 ∧ f p0.
Proof. intros Hne (p0 & H & Hf). exists p0. split; [by apply mv_keep|done]. Qed.

(** What the moving thread held before. *)
Lemma mv_mine (f : pc → Prop) t0 : ¬ f (Done None) →
  (∃ p0, threads m !! t0 = Some p0 ∧ f p0) → t0 ≠ t ∨ f p.
Proof.
  intros Hf (p0 & H & Hp0). destruct (decide (t0 = t)) as [->|]; [right|by left].
  destruct (mv_thread _ _ _ _ _ Hmv) as [Ht|[Ht ->]]; by simplify_eq.
Qed.

(** A subscription no one else knows about is untouched. *)
Lemma mv_private t0 p0 s : t0 ≠ t → threads m !! t0 = Some p0 → subscribing p0 = Some s →
  s ∉ mentions p ∧ s ∉ mentions p' ∧ subs m' !! s = subs m !! s.
Proof.
  intros Hne Ht0 Hs. destruct (inv_new _ I _ _ _ Ht0 Hs) as (_ & HSub & Honly).
  assert (Hp : s ∉ mentions p).
  { intros Hin. destruct (mv_thread _ _ _ _ _ Hmv) as [Ht|[Ht Heq]].
    - by specialize (Honly _ _ Ht Hin).
    - rewrite Heq in Hin. by apply elem_of_nil in Hin. }
  assert (Hp' : s ∉ mentions p').
  { intros [?|[(ty & l & Hl & Hin)|[[_ Hret]|(_ & _ & Hunk)]]]%(mv_mentions _ _ _ _ _ Hmv);
      [done|by eapply HSub|by apply (Hret _ _ Ht0)|].
    apply (Hunk _ _ Ht0). rewrite (subscribing_mentions _ _ Hs). by left. }
  split_and!; [done|done|]. by destruct (mv_sub_frame _ _ _ _ _ Hmv s Hp).
Qed.

Lemma move_W : (∀ t0 p0, threads m' !! t0 = Some p0 → holdsW p0 = true → muxW m' = Some t0) ∧
  (∀ t0, muxW m' = Some t0 → ∃ p0, threads m' !! t0 = Some p0 ∧ holdsW p0 = true).
Proof.
  pose proof (mv_W _ _ _ _ _ Hmv) as HW. split.
  - intros t0 p0 [[-> ->]|[Hne Ht0]]%mv_lookup Hh; [by rewrite HW, Hh|].
    pose proof (inv_W1 _ I _ _ Ht0 Hh) as Ho. rewrite HW.
    destruct (holdsW p) eqn:Hp.
    + destruct (mv_thread _ _ _ _ _ Hmv) as [Ht|[_ ->]]; [|done].
      pose proof (inv_W1 _ I _ _ Ht Hp). congruence.
    + destruct (holdsW p') eqn:Hp'; [|done].
      pose proof (mv_W_free _ _ _ _ _ Hmv Hp' Hp). congruence.
  - intros t0 Ht0. rewrite HW in Ht0. destruct (holdsW p') eqn:Hp'.
    + injection Ht0 as <-. exists p'. split; [apply mv_self|done].
    + destruct (holdsW p) eqn:Hp; [done|]. pose proof (inv_W2 _ I _ Ht0) as Ho.
      apply (mv_owner (fun p0 => holdsW p0 = true)); [|done].
      destruct (mv_mine (fun p0 => holdsW p0 = true) t0 ltac:(done) Ho); congruence.
Qed.

Lemma move_R : (∀ t0 p0, threads m' !! t0 = Some p0 → readsMux p0 = true → t0 ∈ muxR m') ∧
  (∀ t0, t0 ∈ muxR m' → ∃ p0, threads m' !! t0 = Some p0 ∧ readsMux p0 = true).
Proof.
  split.
  - intros t0 p0 [[-> ->]|[Hne Ht0]]%mv_lookup Hr; apply (mv_R _ _ _ _ _ Hmv); [by left|].
    right. split; [done|]. by eapply inv_R1.
  - intros t0 [[-> Hr]|[Hne Ht0]]%(mv_R _ _ _ _ _ Hmv).
    + exists p'. split; [apply mv_self|done].
    + apply (mv_owner (fun p0 => readsMux p0 = true)); [done|]. by apply (inv_R2 _ I).
Qed.

(** A lock of a subscription, with [f] the counters that hold it and [own] its owner. *)
Lemma move_lock (f : pc → option sid) (own : muxsub → option tid) :
  f (Done None) = None →
  (∀ t0 p0 s v, threads m !! t0 = Some p0 → subs m !! s = Some v → f p0 = Some s → own v = Some t0) →
  (∀ s v t0, subs m !! s = Some v → own v = Some t0 → ∃ p0, threads m !! t0 = Some p0 ∧ f p0 = Some s) →
  (∀ s v', subs m' !! s = Some v' → ∃ v, subs m !! s = Some v ∧
    own v' = (if decide (f p' = Some s) then Some t else if decide (f p = Some s) then None else own v) ∧
    (f p' = Some s → f p ≠ Some s → own v = None)) →
  (∀ t0 p0 s v, threads m' !! t0 = Some p0 → subs m' !! s = Some v → f p0 = Some s → own v = Some t0) ∧
  (∀ s v t0, subs m' !! s = Some v → own v = Some t0 → ∃ p0, threads m' !! t0 = Some p0 ∧ f p0 = Some s).
Proof.
  intros Hf H1 H2 Heff. split.
  - intros t0 p0 s v' [[-> ->]|[Hne Ht0]]%mv_lookup Hs' Hp0; destruct (Heff s v' Hs') as (v & Hs & -> & Hfree).
    { by rewrite decide_True. }
    pose proof (H1 _ _ _ _ Ht0 Hs Hp0) as Ho.
    destruct (decide (f p = Some s)) as [Hp|Hp].
    + destruct (mv_thread _ _ _ _ _ Hmv) as [Ht|[_ Heq]]; [|rewrite Heq in Hp; congruence].
      pose proof (H1 _ _ _ _ Ht Hs Hp). congruence.
    + destruct (decide (f p' = Some s)) as [Hp'|Hp']; [|done]. specialize (Hfree Hp' Hp). congruence.
  - intros s v' t0 Hs' Ho. destruct (Heff s v' Hs') as (v & Hs & Hown & _). rewrite Hown in Ho.
    destruct (decide (f p' = Some s)) as [Hp'|Hp'].
    + injection Ho as <-. exists p'. split; [apply mv_self|done].
    + destruct (decide (f p = Some s)) as [Hp|Hp]; [done|].
      apply (mv_owner (fun p0 => f p0 = Some s)); [|eauto].
      destruct (mv_mine (fun p0 => f p0 = Some s) t0) as [?|?]; [congruence|eauto|done|done].
Qed.

Lemma move_PR :
  (∀ t0 p0 s v, threads m' !! t0 = Some p0 → subs m' !! s = Some v → inSelect p0 = Some s → t0 ∈ postR v) ∧
  (∀ s v t0, subs m' !! s = Some v → t0 ∈ postR v → ∃ p0, threads m' !! t0 = Some p0 ∧ inSelect p0 = Some s).
Proof.
  split.
  - intros t0 p0 s v' Ht0 Hs' Hp0.
    destruct (mv_sub _ _ _ _ _ Hmv s v' Hs') as (v & Hs & _ & _ & _ & _ & HR & _). apply HR.
    apply mv_lookup in Ht0 as [[-> ->]|[Hne Ht0]]; [by left|right]. split; [done|]. by eapply inv_PR1.
  - intros s v' t0 Hs' Hin.
    destruct (mv_sub _ _ _ _ _ Hmv s v' Hs') as (v & Hs & _ & _ & _ & _ & HR & _).
    destruct (proj1 (HR t0) Hin) as [[-> Hp']|[Hne Hin']]; [exists p'; split; [apply mv_self|done]|].
    apply (mv_owner (fun p0 => inSelect p0 = Some s)); [done|]. by eapply inv_PR2.
Qed.

(** Two threads are not both closing the same subscription. *)
Lemma mv_closer t0 p0 s v : t0 ≠ t → threads m !! t0 = Some p0 → subs m !! s = Some v →
  midClose p0 = Some s → midClose p ≠ Some s.
Proof.
  intros Hne Ht0 Hs H0%midClose_inClose Hp%midClose_inClose.
  destruct (mv_thread _ _ _ _ _ Hmv) as [Ht|[_ Heq]]; [|by rewrite Heq in Hp].
  pose proof (inv_C1 _ I _ _ _ _ Ht0 Hs H0). pose proof (inv_C1 _ I _ _ _ _ Ht Hs Hp). congruence.
Qed.

Lemma mv_born_closed t0 p0 s : t0 ≠ t → threads m !! t0 = Some p0 → s ∈ mentions p0 →
  subscribing p ≠ Some s.
Proof.
  intros Hne Ht0 Hs Hp. destruct (mv_thread _ _ _ _ _ Hmv) as [Ht|[_ Heq]]; [|by rewrite Heq in Hp].
  destruct (inv_new _ I _ _ _ Ht Hp) as (_ & _ & Honly). by apply Hne, (Honly _ _ Ht0).
Qed.

Lemma move_mid t0 p0 s v' : threads m' !! t0 = Some p0 → subs m' !! s = Some v' →
  midClose p0 = Some s → closed v' = true ∧ closing v' = true ∧ postC v' = COpen.
Proof.
  intros Ht0 Hs' Hp0.
  destruct (mv_sub _ _ _ _ _ Hmv s v' Hs') as (v & Hs & _ & _ & _ & _ & _ & Hfl).
  unfold flags in Hfl. apply mv_lookup in Ht0 as [[-> ->]|[Hne Ht0]].
  - destruct Hfl as [[[= -> -> ->] Hiff]|[[[= -> -> ->] _]|[(_ & _ & ?)|(_ & _ & Hm)]]]; [|done|congruence|].
    + destruct (mv_thread _ _ _ _ _ Hmv) as [Ht|[_ Heq]]; [eapply (inv_mid _ I); [done..|tauto]|].
      rewrite Heq in Hiff. by apply Hiff in Hp0.
    + apply midClose_inClose, inClose_mentions in Hp0. rewrite Hm in Hp0. by apply elem_of_nil in Hp0.
  - destruct Hfl as [[[= -> -> ->] _]|[[[= -> -> ->] _]|[(_ & Hp & _)|(_ & Hp & _)]]]; [|done| |].
    + by eapply (inv_mid _ I).
    + exfalso. by eapply mv_closer.
    + exfalso. eapply mv_born_closed; [done|done| |done]. by apply inClose_mentions, midClose_inClose.
Qed.

Lemma move_stage s v' : subs m' !! s = Some v' → stage m' s v'.
Proof.
  intros Hs'. destruct (mv_sub _ _ _ _ _ Hmv s v' Hs') as (v & Hs & _ & _ & _ & _ & _ & Hfl).
  unfold flags in Hfl. unfold stage.
  destruct Hfl as [[[= -> -> ->] Hiff]|[[[= -> -> ->] [Hp' _]]|[[[= -> -> ->] _]|[[= -> -> ->] _]]]].
  - destruct (inv_stage _ I s v Hs) as [?|[?|[?|(? & ? & ? & t0 & p0 & Ht0 & Hp0)]]]; [tauto..|].
    do 3 right. split_and!; [done..|]. destruct (decide (t0 = t)) as [->|Hne].
    + exists t, p'. split; [apply mv_self|]. apply Hiff.
      destruct (mv_thread _ _ _ _ _ Hmv) as [Ht|[Ht _]]; congruence.
    + exists t0, p0. split; [by apply mv_keep|done].
  - do 3 right. split_and!; [done..|]. exists t, p'. split; [apply mv_self|done].
  - tauto.
  - tauto.
Qed.

(** A subscription in use does not become born closed. *)
Lemma mv_alive s v : subs m !! s = Some v → postC v ≠ CClosed → (subscribing p = Some s → mentions p' = [] → False) →
  ∃ v', subs m' !! s = Some v' ∧ postC v' ≠ CClosed.
Proof.
  intros Hs Hc Hns. destruct (mv_sub_dom _ _ _ _ _ Hmv s) as [v' Hs']; [by eexists|]. exists v'. split; [done|].
  destruct (mv_sub _ _ _ _ _ Hmv s v' Hs') as (v2 & Hs2 & _ & _ & _ & _ & _ & Hfl).
  assert (v2 = v) as -> by congruence. unfold flags in Hfl.
  destruct Hfl as [[[= _ _ ->] _]|[[[= _ _ ->] _]|[[[= _ _ ->] _]|(_ & Hp & Hm)]]]; [done..|]. by destruct (Hns Hp).
Qed.

Lemma Subm_not_new s ty l : Subm m !! ty = Some l → s ∈ l → subscribing p ≠ Some s.
Proof.
  intros Hl Hin Hp. destruct (mv_thread _ _ _ _ _ Hmv) as [Ht|[_ Heq]]; [|by rewrite Heq in Hp].
  destruct (inv_new _ I _ _ _ Ht Hp) as (_ & HS & _). by eapply HS.
Qed.

Lemma move_refs t0 p0 s : threads m' !! t0 = Some p0 → s ∈ refs p0 →
  ∃ v, subs m' !! s = Some v ∧ postC v ≠ CClosed.
Proof.
  intros [[-> ->]|[Hne Ht0]]%mv_lookup Hs.
  - assert (Hnil : mentions p' ≠ []) by (apply refs_mentions in Hs; intros Hm; rewrite Hm in Hs; by apply elem_of_nil in Hs).
    destruct (mv_refs _ _ _ _ _ Hmv s Hs) as [Hin|(ty & l & Hl & Hin)].
    + destruct (mv_thread _ _ _ _ _ Hmv) as [Ht|[_ Heq]].
      2:{ rewrite Heq in Hin. by apply elem_of_nil in Hin. }
      destruct (inv_refs _ I _ _ _ Ht Hin) as (v & Hv & Hc). by eapply mv_alive.
    + destruct (inv_Subm _ I _ _ _ Hl Hin) as (v & Hv & Hc). by eapply mv_alive.
  - destruct (inv_refs _ I _ _ _ Ht0 Hs) as (v & Hv & Hc). eapply mv_alive; [done..|].
    intros Hp _. eapply mv_born_closed; [done|done| |done]. by apply refs_mentions.
Qed.

Lemma move_Subm ty l s : Subm m' !! ty = Some l → s ∈ l → ∃ v, subs m' !! s = Some v ∧ postC v ≠ CClosed.
Proof.
  intros Hl Hin. destruct (mv_Subm _ _ _ _ _ Hmv _ _ _ Hl Hin) as [(l' & Hl' & Hin')|(Hp & _ & _ & Heq)].
  - destruct (inv_Subm _ I _ _ _ Hl' Hin') as (v & Hv & Hc). eapply mv_alive; [done..|].
    intros Hp _. by eapply Subm_not_new.
  - destruct (mv_thread _ _ _ _ _ Hmv) as [Ht|[_ Hd]]; [|by rewrite Hd in Hp].
    destruct (inv_new _ I _ _ _ Ht Hp) as ((now & Hv) & _). rewrite Heq, Hv. by eexists.
Qed.

Lemma move_known t0 p0 s : threads m' !! t0 = Some p0 → s ∈ mentions p0 → is_Some (subs m' !! s).
Proof.
  intros [[-> ->]|[Hne Ht0]]%mv_lookup Hs; apply (mv_sub_dom _ _ _ _ _ Hmv).
  - destruct (mv_mentions _ _ _ _ _ Hmv s Hs) as [Hin|[(ty & l & Hl & Hin)|[[? _]|((now & ?) & _)]]].
    + destruct (mv_thread _ _ _ _ _ Hmv) as [Ht|[_ Heq]].
      2:{ rewrite Heq in Hin. by apply elem_of_nil in Hin. }
      by eapply inv_known.
    + destruct (inv_Subm _ I _ _ _ Hl Hin) as (v & Hv & _). by eexists.
    + done.
    + by eexists.
  - by eapply inv_known.
Qed.

Lemma move_new t0 p0 s : threads m' !! t0 = Some p0 → subscribing p0 = Some s →
  (∃ now, subs m' !! s = Some (newsub now)) ∧
  (∀ ty l, Subm m' !! ty = Some l → s ∉ l) ∧
  (∀ t1 p1, threads m' !! t1 = Some p1 → s ∈ mentions p1 → t1 = t0).
Proof.
  intros [[-> ->]|[Hne Ht0]]%mv_lookup Hs.
  - assert ((∃ now, subs m !! s = Some (newsub now)) ∧ (∀ ty l, Subm m !! ty = Some l → s ∉ l) ∧
      (∀ t1 p1, threads m !! t1 = Some p1 → s ∈ mentions p1 → t1 = t)) as ((now & Hv) & HS & Honly).
    { destruct (mv_new _ _ _ _ _ Hmv s Hs) as [Hp|(? & ? & Hunk)].
      - destruct (mv_thread _ _ _ _ _ Hmv) as [Ht|[_ Heq]]; [|by rewrite Heq in Hp]. by eapply inv_new.
      - split_and!; [done..|]. intros t1 p1 Ht1 Hin. by destruct (Hunk _ _ Ht1). }
    split_and!.
    + exists now. by rewrite (mv_new_sub _ _ _ _ _ Hmv s Hs).
    + intros ty l Hl Hin. destruct (mv_Subm _ _ _ _ _ Hmv _ _ _ Hl Hin) as [(l' & Hl' & Hin')|(_ & ? & _)].
      * by eapply HS.
      * congruence.
    + intros t1 p1 [[-> ->]|[Hne1 Ht1]]%mv_lookup Hm; [done|]. by eapply Honly.
  - destruct (inv_new _ I _ _ _ Ht0 Hs) as ((now & Hv) & HS & Honly).
    destruct (mv_private t0 p0 s Hne Ht0 Hs) as (Hp & Hp' & Heq). split_and!.
    + exists now. by rewrite Heq.
    + intros ty l Hl Hin. destruct (mv_Subm _ _ _ _ _ Hmv _ _ _ Hl Hin) as [(l' & Hl' & Hin')|(Hsp & _)].
      * by eapply HS.
      * apply Hp. rewrite (subscribing_mentions _ _ Hsp). by left.
    + intros t1 p1 [[-> ->]|[Hne1 Ht1]]%mv_lookup Hm; [done|]. by eapply Honly.
Qed.

Lemma Inv_move : Inv m'.
Proof.
  destruct move_W, move_R, move_PR.
  destruct (move_lock inClose closeMu) as [HC1 HC2]; [done|apply (inv_C1 _ I)|apply (inv_C2 _ I)| |].
  { intros s v' Hs'. destruct (mv_sub _ _ _ _ _ Hmv s v' Hs') as (v & ? & ? & ? & _). by exists v. }
  destruct (move_lock inPostW postW) as [HP1 HP2]; [done|apply (inv_PW1 _ I)|apply (inv_PW2 _ I)| |].
  { intros s v' Hs'. destruct (mv_sub _ _ _ _ _ Hmv s v' Hs') as (v & ? & _ & _ & ? & ? & _). by exists v. }
  split; eauto using move_mid, move_stage, move_refs, move_known, move_Subm, move_new.
Qed.

End Move.

(** *** The steps are moves *)

Definition idle (p : pc) : Prop := inClose p = None ∧ inSelect p = None.

Lemma inPostW_inClose p s : inPostW p = Some s → inClose p = Some s.
Proof. by destruct p. Qed.

(** Conditions on the thread and the mux alone. *)
Record muxMove (m m' : TypeMux) (t : tid) (p p' : pc) : Prop := {
  mm_thread : threads m !! t = Some p ∨ threads m !! t = None ∧ p = Done None;
  mm_threads : threads m' = <[t := p']> (threads m);
  mm_W : muxW m' = (if holdsW p' then Some t else if holdsW p then None else muxW m);
  mm_W_free : holdsW p' = true → holdsW p = false → muxW m = None;
  mm_R : (readsMux p = readsMux p' ∧ muxR m' = muxR m) ∨
         (readsMux p' = true ∧ muxR m' = {[t]} ∪ muxR m) ∨
         (readsMux p' = false ∧ muxR m' = muxR m ∖ {[t]});
  mm_refs : ∀ s, s ∈ refs p' → s ∈ refs p ∨ ∃ ty l, Subm m !! ty = Some l ∧ s ∈ l;
  mm_mentions : ∀ s, s ∈ mentions p' → s ∈ mentions p ∨ (∃ ty l, Subm m !! ty = Some l ∧ s ∈ l) ∨
    returned s m ∨ unknown s m;
  mm_new : ∀ s, subscribing p' = Some s → subscribing p = Some s ∨ unknown s m;
  mm_Subm : ∀ ty l s, Subm m' !! ty = Some l → s ∈ l →
    (∃ l', Subm m !! ty = Some l' ∧ s ∈ l') ∨
    (subscribing p = Some s ∧ subscribing p' = None ∧ mentions p' = []) }.

Lemma mm_mv_R m m' t p p' : Inv m → muxMove m m' t p p' →
  ∀ t', t' ∈ muxR m' ↔ (t' = t ∧ readsMux p' = true) ∨ (t' ≠ t ∧ t' ∈ muxR m).
Proof.
  intros I H t'.
  assert (Hme : t ∈ muxR m ↔ readsMux p = true).
  { destruct (mm_thread _ _ _ _ _ H) as [Ht|[Ht ->]].
    - split; [|by apply (inv_R1 _ I)]. intros (q & Hq & ?)%(inv_R2 _ I). congruence.
    - split; [|done]. intros (q & Hq & _)%(inv_R2 _ I). congruence. }
  destruct (decide (t' = t)) as [->|Hne].
  - destruct (mm_R _ _ _ _ _ H) as [[Hr ->]|[[Hr ->]|[Hr ->]]]; rewrite ?Hr in *; set_solver.
  - destruct (mm_R _ _ _ _ _ H) as [[Hr ->]|[[Hr ->]|[Hr ->]]]; set_solver.
Qed.

Lemma my_select m t p s v : Inv m → threads m !! t = Some p ∨ threads m !! t = None ∧ p = Done None →
  subs m !! s = Some v → t ∈ postR v ↔ inSelect p = Some s.
Proof.
  intros I [Ht|[Ht ->]] Hs; split; try done.
  - intros (q & Hq & ?)%(inv_PR2 _ I _ _ _ Hs). congruence.
  - intros Hp. exact (inv_PR1 _ I _ _ _ _ Ht Hs Hp).
  - intros (q & Hq & ?)%(inv_PR2 _ I _ _ _ Hs). congruence.
Qed.

(** A step that leaves the subscriptions alone. *)
Lemma move_plain m m' t p p' : Inv m → muxMove m m' t p p' → subs m' = subs m → idle p → idle p' →
  move m m' t p p'.
Proof.
  intros I H Hsubs [HpC HpS] [HpC' HpS'].
  assert (Hno : ∀ q s, inClose q = None → inPostW q ≠ Some s ∧ midClose q ≠ Some s).
  { intros q s Hq. split; intros Hs; [apply inPostW_inClose in Hs|apply midClose_inClose in Hs]; congruence. }
  split; try apply H.
  - by apply (mm_mv_R _ _ _ _ _ I H).
  - intros s v' Hs'. rewrite Hsubs in Hs'. exists v'. rewrite HpC, HpC', HpS'.
    destruct (Hno p s HpC), (Hno p' s HpC').
    rewrite !(decide_False (P := None = Some s)), !decide_False by done.
    split_and!; [done..| |left; split; [done|tauto]].
    intros t'. pose proof (my_select _ t p s v' I (mm_thread _ _ _ _ _ H) Hs') as Hsel.
    rewrite HpS in Hsel. destruct (decide (t' = t)) as [->|]; naive_solver.
  - by rewrite Hsubs.
  - rewrite Hsubs. by left.
  - by rewrite Hsubs.
  - intros ty l s Hl Hin. destruct (mm_Subm _ _ _ _ _ H _ _ _ Hl Hin) as [?|(? & ? & ?)]; [by left|right].
    by rewrite Hsubs.
Qed.

(** What a step does to the one subscription [s] it touches. *)
Record subMove (t : tid) (s : sid) (p p' : pc) (v v' : muxsub) : Prop := {
  sm_only : ∀ q s', q = p ∨ q = p' → inClose q = Some s' ∨ inSelect q = Some s' → s' = s;
  sm_closeMu : closeMu v' = (if decide (inClose p' = Some s) then Some t
                  else if decide (inClose p = Some s) then None else closeMu v);
  sm_closeMu_free : inClose p' = Some s → inClose p ≠ Some s → closeMu v = None;
  sm_postW : postW v' = (if decide (inPostW p' = Some s) then Some t
                else if decide (inPostW p = Some s) then None else postW v);
  sm_postW_free : inPostW p' = Some s → inPostW p ≠ Some s → postW v = None;
  sm_postR : ∀ t', t' ∈ postR v' ↔ (t' = t ∧ inSelect p' = Some s) ∨ (t' ≠ t ∧ t' ∈ postR v);
  sm_flags : (flags v' = flags v ∧ (midClose p' = Some s ↔ midClose p = Some s)) ∨
     (flags v' = (true, true, COpen) ∧ midClose p' = Some s ∧ flags v ≠ (true, false, CClosed)) ∨
     (flags v' = (true, true, CNil) ∧ midClose p = Some s ∧ midClose p' = None) ∨
     (flags v' = (true, false, CClosed) ∧ subscribing p = Some s ∧ mentions p' = []);
  sm_mentioned : s ∈ mentions p;
  sm_new : subscribing p' = None }.

Lemma move_one m m' t s p p' v v' : Inv m → muxMove m m' t p p' → subMove t s p p' v v' →
  subs m !! s = Some v → subs m' = <[s := v']> (subs m) → Subm m' = Subm m → move m m' t p p'.
Proof.
  intros I H Hsm Hs Hsubs HSubm. split; try apply H.
  - by apply (mm_mv_R _ _ _ _ _ I H).
  - intros s0 v0 Hs0. rewrite Hsubs in Hs0. destruct (decide (s = s0)) as [<-|Hne].
    + rewrite lookup_insert_eq in Hs0. injection Hs0 as <-. exists v. split; [done|].
      split_and!; apply Hsm.
    + rewrite lookup_insert_ne in Hs0 by done. exists v0. split; [done|].
      assert (Hno : ∀ q, q = p ∨ q = p' → inClose q ≠ Some s0 ∧ inSelect q ≠ Some s0).
      { intros q Hq. split; intros Hx; apply Hne; symmetry; eapply (sm_only _ _ _ _ _ _ Hsm); eauto. }
      assert (Hno' : ∀ q, q = p ∨ q = p' → inPostW q ≠ Some s0 ∧ midClose q ≠ Some s0).
      { intros q Hq. split; intros Hx; [apply inPostW_inClose in Hx|apply midClose_inClose in Hx]; by destruct (Hno q Hq). }
      destruct (Hno p), (Hno p'), (Hno' p), (Hno' p'); [tauto..|].
      rewrite !decide_False by done. split_and!; [done..| |left; split; [done|tauto]].
      intros t'. pose proof (my_select _ t p s0 v0 I (mm_thread _ _ _ _ _ H) Hs0) as Hsel.
      destruct (decide (t' = t)) as [->|]; naive_solver.
  - intros s0 [v0 Hs0]. rewrite Hsubs. destruct (decide (s = s0)) as [<-|Hne]; simplify_map_eq; by eexists.
  - intros s0 Hs0. left. rewrite Hsubs. apply lookup_insert_ne. intros <-. apply Hs0, Hsm.
  - intros s0 Hs0. by rewrite (sm_new _ _ _ _ _ _ Hsm) in Hs0.
  - intros ty l s0 Hl Hin. left. rewrite HSubm in Hl. by exists l.
Qed.

(** *** The sequential parts *)

Lemma find_spec slice s :
  (find slice s = (-1)%Z ∧ s ∉ slice) ∨
  (∃ i, find slice s = Z.of_nat i ∧ slice !! i = Some s ∧ s ∉ take i slice).
Proof.
  unfold find. destruct (list_find (s =.) slice) as [[i x]|] eqn:Hf.
  - right. apply list_find_Some in Hf as (Hi & <- & Hbefore). exists i. split_and!; [done..|].
    intros (j & Hj)%list_elem_of_lookup. rewrite lookup_take_Some in Hj. destruct Hj as [Hj ?].
    by apply (Hbefore j s).
  - left. split; [done|]. apply list_find_None in Hf. rewrite Forall_forall in Hf.
    intros Hin. by apply (Hf s).
Qed.

Lemma posdelete_elem slice i x : x ∈ posdelete slice i → x ∈ slice.
Proof.
  unfold posdelete. rewrite elem_of_app. intros [H|H].
  - by eapply elem_of_take in H as (? & ? & ?); eapply list_elem_of_lookup_2.
  - apply list_elem_of_lookup in H as [j Hj]. rewrite lookup_drop in Hj. by eapply list_elem_of_lookup_2.
Qed.

Lemma delFrom_elem s slice l x : delFrom s slice = Some l → x ∈ l → x ∈ slice.
Proof.
  unfold delFrom. repeat case_match; intros; simplify_eq; [|done]. by eapply posdelete_elem.
Qed.

Lemma delLoop_elem s m ty l x : delLoop s m !! ty = Some l → x ∈ l → ∃ l', m !! ty = Some l' ∧ x ∈ l'.
Proof.
  unfold delLoop. rewrite lookup_omap. intros (l' & Hl' & Hd)%bind_Some Hx.
  exists l'. split; [done|]. by eapply delFrom_elem.
Qed.

Lemma register_elem s types m sm : register s types m = inl sm ∨ register s types m = inr sm →
  ∀ ty l x, sm !! ty = Some l → x ∈ l → (∃ l', m !! ty = Some l' ∧ x ∈ l') ∨ x = s.
Proof.
  revert m. induction types as [|t types IH]; intros m Hreg ty l x Hl Hx; cbn in Hreg.
  - left. exists l. destruct Hreg; by simplify_eq.
  - case_bool_decide; [left; exists l; destruct Hreg; by simplify_eq|].
    destruct (IH _ Hreg ty l x Hl Hx) as [(l' & Hl' & Hx')|]; [|by right].
    apply lookup_insert_Some in Hl' as [[<- <-]|[_ Hl']]; [|left; eauto].
    apply elem_of_app in Hx' as [Hx'|Hx']; [|right; set_solver].
    left. destruct (m !! t) as [l0|] eqn:Ht; cbn in Hx'; [eauto|set_solver].
Qed.

Lemma rangeSubs_elem order m s : s ∈ rangeSubs order m → ∃ ty l, m !! ty = Some l ∧ s ∈ l.
Proof.
  unfold rangeSubs. intros (ty & Hs & _)%list_elem_of_bind.
  destruct (m !! ty) as [l|] eqn:Hl; [eauto|set_solver].
Qed.

(** *** Preservation *)

Ltac mv_plain p p' := eapply (Inv_move _ _ _ p p'); [eapply move_plain|]; [eassumption| |done|done|done|done].

Lemma muxStep_Inv m t c p m' : Inv m → threads m !! t = Some p → muxStep t c p m = Next m' → Inv m'.
Proof.
  intros I Ht Hst.
  assert (HW : holdsW p = true → muxW m = Some t) by by apply (inv_W1 _ I).
  destruct p as [s types|s types| |ev|ev|ev [|? ?]| | | | |[|s todo]|s|s|s| | | | | | | |]; cbn in Hst; try done;
    unfold announce, acquire in Hst; repeat (case_match; try done); simplify_eq.
  - mv_plain (SubLock s types) (SubWait s types). split; cbn; eauto; set_solver.
  - mv_plain (SubWait s types) (SubBody s types). split; cbn; eauto; set_solver.
  - mv_plain (PostLock ev) (PostRead ev). split; cbn; eauto; set_solver.
  - mv_plain (PostRead ev) (Done (Some ErrMuxClosed)). split; cbn; eauto; set_solver.
  - mv_plain (PostRead ev) (PostLoop ev (default [] (Subm m !! evType ev))). 
    assert (Hin : ∀ s, s ∈ default [] (Subm m !! evType ev) → ∃ ty l, Subm m !! ty = Some l ∧ s ∈ l).
    { intros s Hs. destruct (Subm m !! evType ev) eqn:?; [eauto|set_solver]. }
    split; cbn; eauto; set_solver.
  - mv_plain (PostLoop ev []) (Done None). split; cbn; eauto; set_solver.
  - mv_plain StopLock StopWait. split; cbn; eauto; set_solver.
  - mv_plain StopWait (StopRange (rangeSubs order (Subm m))).
    pose proof (rangeSubs_elem order (Subm m)).
    split; cbn; eauto; set_solver.
  - mv_plain (StopRange []) (Done None). split; cbn; eauto; set_solver.
  - mv_plain (StopRange (s :: todo)) (CloseLock s (Some todo)). split; cbn; eauto; set_solver.
  - mv_plain (UnsubLock s) (UnsubWait s). split; cbn; eauto; set_solver.
  - mv_plain (UnsubWait s) (UnsubBody s). split; cbn; eauto; set_solver.
  - mv_plain (UnsubBody s) (CloseLock s None). pose proof (delLoop_elem s (Subm m)). split; cbn; eauto; set_solver.
Qed.

Ltac mv_one p p' s v :=
  lazymatch goal with
  | I : Inv ?m, Ht : threads _ !! ?t = Some p, Hs : subs _ !! s = Some v |- _ =>
      apply (Inv_move m _ t p p'); [|exact I];
      eapply (move_one m _ t s p p' v); [exact I| | |exact Hs|reflexivity|reflexivity]
  end.

(** The counter after [closewait] knows what its caller knew. *)
Lemma closeReturn_facts k :
  holdsW (closeReturn k) = bool_decide (is_Some k) ∧ readsMux (closeReturn k) = false ∧
  inClose (closeReturn k) = None ∧ inPostW (closeReturn k) = None ∧ inSelect (closeReturn k) = None ∧
  midClose (closeReturn k) = None ∧ subscribing (closeReturn k) = None ∧
  refs (closeReturn k) = default [] k ∧ mentions (closeReturn k) = default [] k.
Proof. by destruct k. Qed.

Ltac mm_tac k :=
  split; cbn; try (destruct k; cbn; eauto; set_solver).

Ltac sm_tac t k :=
  split; cbn;
  [ intros ? ? [->| ->] [Hq|Hq]; cbn in Hq; (destruct k; cbn in Hq; congruence)
  | try (destruct k; cbn); repeat case_decide; by auto
  | try (destruct k; cbn); intros; by auto
  | try (destruct k; cbn); repeat case_decide; by auto
  | try (destruct k; cbn); intros; by auto
  | try (destruct k; cbn); intros t'; destruct (decide (t' = t)) as [->|]; set_solver
  | try (left; split; [unfold flags; cbn; congruence|]; destruct k; cbn; split; by auto)
  | destruct k; cbn; set_solver
  | by destruct k ].

Lemma closewait_Inv m t p s v m' : Inv m → threads m !! t = Some p → subOf p = Some s →
  subs m !! s = Some v → closewait t p v m = Next m' → Inv m'.
Proof.
  intros I Ht Hsub Hs Hst.
  assert (HW : holdsW p = true → muxW m = Some t) by by apply (inv_W1 _ I).
  assert (HC : inClose p = Some s → closeMu v = Some t) by by apply (inv_C1 _ I _ _ _ _ Ht Hs).
  assert (HPW : inPostW p = Some s → postW v = Some t) by by apply (inv_PW1 _ I _ _ _ _ Ht Hs).
  assert (Hmid : midClose p = Some s → closed v = true ∧ closing v = true ∧ postC v = COpen)
    by by apply (inv_mid _ I _ _ _ _ Ht Hs).
  pose proof (my_select _ t p s v I (or_introl Ht) Hs) as HPR.
  destruct p as [| | | | | | | | | | | | | |s0 k|s0 k|s0 k|s0 k|s0 k|s0 k| |]; try done;
    cbn in Hsub, Hst; injection Hsub as ->; cbn in HC, HPW, Hmid, HPR.
  - destruct (closeMu v) eqn:Hfree; [done|]. injection Hst as <-.
    mv_one (CloseLock s k) (CloseCheck s k) s v; [mm_tac k|sm_tac t k].
  - destruct (closed v) eqn:Hcl; [|destruct (closing v) eqn:Hcg; [done|]]; injection Hst as <-.
    + mv_one (CloseCheck s k) (closeReturn k) s v; [mm_tac k|sm_tac t k].
    + mv_one (CloseCheck s k) (ClosePostLock s k) s v; [mm_tac k|].
      destruct (inv_stage _ I s v Hs) as [(_ & _ & Ho)|[(? & _)|[(? & _)|(? & _)]]]; [|congruence..].
      sm_tac t k. unfold flags. right. left. cbn. by rewrite Hcl, Hcg, Ho.
  - destruct (postW v) eqn:Hfree; [done|]. injection Hst as <-.
    mv_one (ClosePostLock s k) (ClosePostWait s k) s v; [mm_tac k|sm_tac t k].
  - case_decide; [|done]. injection Hst as <-.
    eapply (Inv_move _ _ _ (ClosePostWait s k) (ClosePost s k)); [|done].
    apply (move_one _ _ _ s _ _ v v); [done|mm_tac k|sm_tac t k|done| |done].
    cbn. by rewrite insert_id.
  - destruct Hmid as (Hcl & Hcg & Ho); [done|]. rewrite Ho in Hst. injection Hst as <-.
    mv_one (ClosePost s k) (CloseUnlock s k) s v; [mm_tac k|].
    sm_tac t k. unfold flags. do 2 right. left. cbn. by rewrite Hcl, Hcg.
  - injection Hst as <-.
    mv_one (CloseUnlock s k) (closeReturn k) s v; [mm_tac k|sm_tac t k].
Qed.

Lemma deliver_Inv m t c p s v m' : Inv m → threads m !! t = Some p → subOf p = Some s →
  subs m !! s = Some v → deliver t c p v m = Next m' → Inv m'.
Proof.
  intros I Ht Hsub Hs Hst.
  pose proof (my_select _ t p s v I (or_introl Ht) Hs) as HPR.
  destruct p as [| | | | |ev [|s0 rest]|ev s0 rest|ev s0 rest| | | | | | | | | | | | | |]; try done;
    cbn in Hsub, Hst; injection Hsub as ->; cbn in HPR.
  - case_match; injection Hst as <-.
    + mv_plain (PostLoop ev (s :: rest)) (PostLoop ev rest). split; cbn; eauto; set_solver.
    + mv_plain (PostLoop ev (s :: rest)) (DeliverLock ev s rest). split; cbn; eauto; set_solver.
  - destruct (postW v) eqn:Hfree; [done|]. injection Hst as <-.
    mv_one (DeliverLock ev s rest) (DeliverSelect ev s rest) s v;
      [split; cbn; eauto; set_solver|sm_tac t (None : option (list sid))].
  - repeat (case_match; try done); injection Hst as <-;
      (mv_one (DeliverSelect ev s rest) (PostLoop ev rest) s v;
      [split; cbn; eauto; set_solver|sm_tac t (None : option (list sid))]).
Qed.

Lemma Subscribe_Inv m t s types v m' : Inv m → threads m !! t = Some (SubBody s types) →
  subs m !! s = Some v → Subscribe t s v types m = Next m' → Inv m'.
Proof.
  intros I Ht Hs Hst. unfold Subscribe in Hst.
  pose proof (inv_W1 _ I _ _ Ht eq_refl) as HW.
  destruct (inv_new _ I _ _ _ Ht eq_refl) as ((now & Hv) & HSub & Honly).
  assert (v = newsub now) as -> by congruence. clear Hs. cbn in Hst.
  destruct (stopped m).
  - injection Hst as <-.
    mv_one (SubBody s types) (Done None) s (newsub now);
      [split; cbn; eauto; set_solver|].
    sm_tac t (None : option (list sid)). do 3 right. done.
  - destruct (register s types (Subm m)) as [sm|sm] eqn:Hreg; [|done]. injection Hst as <-.
    mv_plain (SubBody s types) (Done None). split; cbn; eauto; try set_solver.
    intros ty l x Hl Hx. destruct (register_elem s types (Subm m) sm (or_introl Hreg) ty l x Hl Hx) as [?| ->]; [by left|].
    by right.
Qed.

Lemma exec_Inv m t c m' : Inv m → exec t c m = Next m' → Inv m'.
Proof.
  intros I. unfold exec. destruct (threads m !! t) as [p|] eqn:Ht; [|done].
  destruct (subOf p) as [s|] eqn:Hsub; [|by apply muxStep_Inv].
  destruct (subs m !! s) as [v|] eqn:Hs; [|done].
  intros Hst. destruct p; try done;
    first [ exact (deliver_Inv m t c _ s v m' I Ht Hsub Hs Hst)
          | exact (closewait_Inv m t _ s v m' I Ht Hsub Hs Hst)
          | injection Hsub as ->; exact (Subscribe_Inv m t s _ v m' I Ht Hs Hst) ].
Qed.

(** A fresh subscription. *)
Lemma newsub_Inv m s now : Inv m → subs m !! s = None → Inv (setSub s (newsub now) m) ∧
  unknown s (setSub s (newsub now) m).
Proof.
  intros I Hs.
  assert (Hk : ∀ t p, threads m !! t = Some p → s ∉ mentions p).
  { intros t p Ht Hin. destruct (inv_known _ I _ _ _ Ht Hin). congruence. }
  assert (HS : ∀ ty l, Subm m !! ty = Some l → s ∉ l).
  { intros ty l Hl Hin. destruct (inv_Subm _ I _ _ _ Hl Hin) as (? & ? & _). congruence. }
  assert (Hext : ∀ x v, subs m !! x = Some v → <[s := newsub now]> (subs m) !! x = Some v).
  { intros x v Hx. rewrite lookup_insert_ne; [done|congruence]. }
  split; [|split_and!; cbn; [exists now; apply lookup_insert_eq|done|done]].
  assert (Hback : ∀ x v, <[s := newsub now]> (subs m) !! x = Some v →
    (x = s ∧ v = newsub now) ∨ subs m !! x = Some v).
  { intros x v [[-> ->]|[_ ?]]%lookup_insert_Some; auto. }
  destruct I. split; cbn; try done.
  - intros t p x v Ht [[-> ->]|Hx]%Hback Hp; [|eauto]. by apply Hk in Ht; apply inClose_mentions in Hp.
  - intros x v t [[-> ->]|Hx]%Hback Hc; [done|eauto].
  - intros t p x v Ht [[-> ->]|Hx]%Hback Hp; [|eauto].
    by apply Hk in Ht; apply inPostW_inClose, inClose_mentions in Hp.
  - intros x v t [[-> ->]|Hx]%Hback Hc; [done|eauto].
  - intros t p x v Ht [[-> ->]|Hx]%Hback Hp; [|eauto]. apply Hk in Ht. destruct p; try done. cbn in *. set_solver.
  - intros x v t [[-> ->]|Hx]%Hback Hc; [by apply elem_of_empty in Hc|eauto].
  - intros t p x v Ht [[-> ->]|Hx]%Hback Hp; [|eauto].
    by apply Hk in Ht; apply midClose_inClose, inClose_mentions in Hp.
  - intros x v [[-> ->]|Hx]%Hback; [by left|]. by apply inv_stage0.
  - intros t p x Ht Hx. destruct (inv_refs0 t p x Ht Hx) as (v & Hv & Hc). eauto.
  - intros t p x Ht Hx. destruct (inv_known0 t p x Ht Hx) as [v Hv]. eexists. by apply Hext.
  - intros ty l x Hl Hx. destruct (inv_Subm0 ty l x Hl Hx) as (v & Hv & Hc). eauto.
  - intros t p x Ht Hx. destruct (inv_new0 t p x Ht Hx) as ((n & Hn) & ? & ?). eauto.
Qed.

Lemma start_Inv m t now c m' : Inv m → start t now c m = Some m' → Inv m'.
Proof.
  intros I. unfold start. destruct (threads m !! t) as [|] eqn:Ht; [by case_decide as H; [|destruct H; eauto]|].
  rewrite decide_False by by intros [].
  assert (Hth : threads m !! t = Some (Done None) ∨ threads m !! t = None ∧ Done None = Done None) by by right.
  destruct c as [types|ty data| |s].
  - intros [= <-]. destruct (newsub_Inv m (fresh (dom (subs m))) now I) as [I' Hunk].
    { apply not_elem_of_dom, is_fresh. }
    set (s := fresh (dom (subs m))) in *. set (m1 := setSub s (newsub now) m) in *.
    apply (Inv_move m1 _ t (Done None) (SubLock s types)); [|done].
    apply move_plain; [done| |done..]. split; cbn; eauto; set_solver.
  - intros [= <-]. apply (Inv_move m _ t (Done None) (PostLock {| evTime := now; evType := ty; evData := data |})); [|done].
    apply move_plain; [done| |done..]. split; cbn; eauto; set_solver.
  - intros [= <-]. apply (Inv_move m _ t (Done None) StopLock); [|done].
    apply move_plain; [done| |done..]. split; cbn; eauto; set_solver.
  - case_decide as Hret; [|done]. intros [= <-].
    apply (Inv_move m _ t (Done None) (UnsubLock s)); [|done].
    apply move_plain; [done| |done..]. split; cbn; eauto; set_solver.
Qed.

Lemma reachable_Inv m : reachable m → Inv m.
Proof.
  unfold reachable. intros H. apply (rtc_ind_r (R := step) Inv zeroMux); [apply Inv_zero| |done].
  intros m1 m2 _ [t now c ? ? Hs|t c ? ? Hs] I; [by eapply start_Inv|by eapply exec_Inv].
Qed.

(** ** No panics *)

Lemma find_fresh slice s : s ∉ slice → find slice s = (-1)%Z.
Proof.
  intros H. destruct (find_spec slice s) as [[? _]|(i & _ & Hi & _)]; [done|].
  exfalso. apply H. by eapply list_elem_of_lookup_2.
Qed.

Lemma register_distinct s types m : NoDup types →
  (∀ ty, ty ∈ types → s ∉ default [] (m !! ty)) → ∃ sm, register s types m = inl sm.
Proof.
  intros Hnd. revert m. induction Hnd as [|t types Hni _ IH]; intros m Hs; cbn; [by eexists|].
  rewrite bool_decide_eq_false_2 by (rewrite find_fresh; [by intros []|apply Hs; left]).
  apply IH. intros ty Hty. rewrite lookup_insert_ne by by intros ->. apply Hs. by right.
Qed.

(** C22. No interleaving of [Subscribe], [Post], [Stop] and [Unsubscribe] calls
    sends on a closed channel or closes a channel twice or while nil: the only panic
    of the mux is the one [Subscribe] raises when a type is listed twice. *)
Theorem mux_no_panic m t c why m' : reachable m → exec t c m = Panic why m' →
  ∃ s types, threads m !! t = Some (SubBody s types) ∧ ¬ NoDup types.
Proof.
  intros I%reachable_Inv. unfold exec.
  destruct (threads m !! t) as [p|] eqn:Ht; [|done].
  destruct (subOf p) as [s|] eqn:Hsub.
  2:{ intros H. exfalso. destruct p as [| | | | |ev [|]| | | | |[|]| | | | | | | | | | |]; cbn in H;
        unfold announce, acquire in H; by repeat case_match. }
  destruct (subs m !! s) as [v|] eqn:Hs; [|done].
  pose proof (inv_mid _ I t p s v Ht Hs) as Hmid. pose proof (inv_stage _ I s v Hs) as Hst.
  pose proof (inv_refs _ I t p s Ht) as Href.
  destruct p as [| |s0 types| | |ev [|s0 rest]|ev s0 rest|ev s0 rest| | | | | | |s0 k|s0 k|s0 k|s0 k|s0 k|s0 k| |];
    try done; cbn in Hsub; injection Hsub as ->; cbn in Hmid; intros H; cbn in H.
  - exists s, types. split; [done|]. intros Hnd. unfold Subscribe in H.
    destruct (inv_new _ I _ _ _ Ht eq_refl) as ((now & Hv) & HSub & _).
    assert (v = newsub now) as -> by congruence. cbn in H. destruct (stopped m); [done|].
    destruct (register_distinct s types (Subm m) Hnd) as [sm Hsm]; [|by rewrite Hsm in H].
    intros ty _. destruct (Subm m !! ty) as [l|] eqn:Hl; [by eapply HSub|apply not_elem_of_nil].
  - by case_match.
  - by case_match.
  - destruct Href as (v' & Hv' & Hc); [left|]. assert (v' = v) as -> by congruence.
    by destruct c, (postC v), (closing v).
  - by case_match.
  - unfold stage in Hst. destruct (closed v); [done|]. destruct (closing v); [|done]. naive_solver.
  - by case_match.
  - by case_decide.
  - destruct Hmid as (_ & _ & Ho); [done|]. by rewrite Ho in H.
Qed.

(** ** Progress *)

(** A step that does not wait for a receiver is possible. *)
Definition canStep (m : TypeMux) : Prop := ∃ t c, c ≠ Receive ∧ exec t c m ≠ Blocked.

Lemma exec_sub m t p s v : threads m !! t = Some p → subOf p = Some s → subs m !! s = Some v →
  ∀ c, exec t c m = match p with
                    | SubBody _ types => Subscribe t s v types m
                    | PostLoop _ _ | DeliverLock _ _ _ | DeliverSelect _ _ _ => deliver t c p v m
                    | _ => closewait t p v m
                    end.
Proof. intros Ht Hsub Hs c. unfold exec. by rewrite Ht, Hsub, Hs. Qed.

Lemma exec_mux m t p : threads m !! t = Some p → subOf p = None → ∀ c, exec t c m = muxStep t c p m.
Proof. intros Ht Hsub c. unfold exec. by rewrite Ht, Hsub. Qed.

Lemma closer_steps m t p s : Inv m → threads m !! t = Some p → inClose p = Some s → canStep m.
Proof.
  intros I Ht Hp. destruct (inv_known _ I _ _ _ Ht (inClose_mentions _ _ Hp)) as [v Hs].
  pose proof (inv_C1 _ I _ _ _ _ Ht Hs Hp) as HC.
  pose proof (inv_mid _ I t p s v Ht Hs) as Hmid.
  destruct p as [| | | | | | | | | | | | | | |s0 k|s0 k|s0 k|s0 k|s0 k| |]; try done; cbn in Hp;
    injection Hp as ->; cbn in Hmid.
  - exists t, Plain. split; [done|]. erewrite exec_sub by done. cbn. by repeat case_match.
  - exists t, Plain. split; [done|]. erewrite exec_sub by done. cbn.
    destruct (postW v) as [t'|] eqn:HW; [|done].
    destruct (inv_PW2 _ I _ _ _ Hs HW) as (q & Hq & Hin).
    pose proof (inv_C1 _ I _ _ _ _ Hq Hs (inPostW_inClose _ _ Hin)). simplify_eq.
  - destruct (decide (postR v = ∅)) as [He|(t' & Hin)%set_choose_L].
    + exists t, Plain. split; [done|]. erewrite exec_sub by done. cbn. by rewrite decide_True.
    + destruct (inv_PR2 _ I _ _ _ Hs Hin) as (q & Hq & Hsel). destruct q; try done. cbn in Hsel. injection Hsel as ->.
      exists t', Plain. split; [done|]. erewrite exec_sub by done. cbn.
      destruct Hmid as (_ & Hcg & Ho); [done|]. by rewrite Ho, Hcg.
  - exists t, Plain. split; [done|]. erewrite exec_sub by done. cbn. by case_match.
  - exists t, Plain. split; [done|]. by erewrite exec_sub by done.
Qed.

Lemma acquire_steps m t p : Inv m → (muxR m = ∅ → canStep m) → threads m !! t = Some p → canStep m.
Proof.
  intros I He Ht. destruct (decide (muxR m = ∅)) as [Hr|(t' & Hin)%set_choose_L]; [by apply He|].
  destruct (inv_R2 _ I _ Hin) as (q & Hq & Hr). destruct q; try done.
  exists t', Plain. split; [done|]. erewrite exec_mux by done. cbn. by case_match.
Qed.

Lemma writer_steps m t p : Inv m → threads m !! t = Some p → holdsW p = true → canStep m.
Proof.
  intros I Ht Hp. destruct (inClose p) as [s|] eqn:Hc; [by eapply closer_steps|].
  destruct p as [|s types|s types| | | | | | |l|[|s l]| |s|s|s [l|]| | | | | | |]; try done.
  - eapply acquire_steps; [done| |done]. intros Hr. exists t, Plain. split; [done|].
    erewrite exec_mux by done. cbn. unfold acquire. by rewrite decide_True.
  - destruct (inv_known _ I t _ s Ht) as [v Hs]; [left|].
    exists t, Plain. split; [done|]. erewrite exec_sub by done. unfold Subscribe. by repeat case_match.
  - eapply acquire_steps; [done| |done]. intros Hr. exists t, (Order (map_to_list (Subm m)).*1). split; [done|].
    erewrite exec_mux by done. cbn. unfold acquire. by rewrite !decide_True.
  - exists t, Plain. split; [done|]. by erewrite exec_mux by done.
  - exists t, Plain. split; [done|]. by erewrite exec_mux by done.
  - eapply acquire_steps; [done| |done]. intros Hr. exists t, Plain. split; [done|].
    erewrite exec_mux by done. cbn. unfold acquire. by rewrite decide_True.
  - exists t, Plain. split; [done|]. by erewrite exec_mux by done.
  - destruct (inv_known _ I t _ s Ht) as [v Hs]; [left|].
    destruct (closeMu v) as [t'|] eqn:HC.
    + destruct (inv_C2 _ I _ _ _ Hs HC) as (q & Hq & Hin). by eapply closer_steps.
    + exists t, Plain. split; [done|]. erewrite exec_sub by done. cbn. by rewrite HC.
Qed.

Definition finished (p : pc) : bool := match p with Done _ | Died => true | _ => false end.

Lemma waiting_for_lock m t p : Inv m → threads m !! t = Some p → finished p = false → holdsW p = false →
  inClose p = None → inSelect p = None → canStep m.
Proof.
  intros I Ht Hf HW HC HS.
  assert (Hmux : (muxW m = None → canStep m) → canStep m).
  { intros Hfree. destruct (muxW m) as [t'|] eqn:Hw; [|by apply Hfree].
    destruct (inv_W2 _ I _ Hw) as (q & Hq & Hh). by eapply writer_steps. }
  destruct p as [s types|s types|s types|ev|ev|ev [|s rest]|ev s rest|ev s rest| | |l|s|s|s|s [l|]| | | | | | |]; try done.
  1,2,7,8: apply Hmux; intros Hw; exists t, Plain; (split; [done|]); erewrite exec_mux by done; cbn;
    unfold announce; by rewrite Hw.
  - exists t, Plain. split; [done|]. erewrite exec_mux by done. cbn. by case_match.
  - exists t, Plain. split; [done|]. by erewrite exec_mux by done.
  - destruct (inv_known _ I t _ s Ht) as [v Hs]; [left|].
    exists t, Plain. split; [done|]. erewrite exec_sub by done. cbn. by case_match.
  - destruct (inv_known _ I t _ s Ht) as [v Hs]; [left|].
    destruct (postW v) as [t'|] eqn:HPW.
    + destruct (inv_PW2 _ I _ _ _ Hs HPW) as (q & Hq & Hin). eapply closer_steps; [done|exact Hq|].
      by apply inPostW_inClose.
    + exists t, Plain. split; [done|]. erewrite exec_sub by done. cbn. by rewrite HPW.
  - destruct (inv_known _ I t _ s Ht) as [v Hs]; [left|].
    destruct (closeMu v) as [t'|] eqn:HCm.
    + destruct (inv_C2 _ I _ _ _ Hs HCm) as (q & Hq & Hin). by eapply closer_steps.
    + exists t, Plain. split; [done|]. erewrite exec_sub by done. cbn. by rewrite HCm.
Qed.

(** C21. The mux does not deadlock.  If no thread can move without a subscriber
    receiving from its channel, then every unfinished call is a [Post] waiting in [deliver] on
    a subscription nobody has begun to close: [Stop], [Subscribe] and [Unsubscribe] never
    wait for a receiver, since closing [closing] lets the pending deliveries go. *)
Theorem mux_progress m : reachable m → (∀ t c, c ≠ Receive → exec t c m = Blocked) →
  ∀ t p, threads m !! t = Some p → finished p = false →
  ∃ ev s rest v, p = DeliverSelect ev s rest ∧ subs m !! s = Some v ∧
    closed v = false ∧ closing v = false ∧ postC v = COpen.
Proof.
  intros I%reachable_Inv Hstuck t p Ht Hf.
  assert (Hno : ¬ canStep m) by (intros (t' & c & Hc & Hx); by apply Hx, Hstuck).
  destruct (inSelect p) as [s|] eqn:HS.
  - destruct p as [| | | | | | |ev s0 rest| | | | | | | | | | | | | |]; try done. cbn in HS. injection HS as ->.
    destruct (inv_refs _ I t _ s Ht) as (v & Hs & Hc); [left|].
    exists ev, s, rest, v. split; [done|]. split; [done|].
    specialize (Hstuck t Plain ltac:(done)). erewrite exec_sub in Hstuck by done. cbn in Hstuck.
    destruct (inv_stage _ I s v Hs) as [?|[(_ & Hcg & _)|[(_ & _ & ?)|(_ & Hcg & _)]]]; [done| |congruence|];
      rewrite Hcg in Hstuck; by destruct (postC v).
  - exfalso. apply Hno. destruct (holdsW p) eqn:HW; [by eapply writer_steps|].
    destruct (inClose p) as [s|] eqn:HC; [by eapply closer_steps|]. by eapply waiting_for_lock.
Qed.

(** ** After closing *)

(** What one step does to the trace and to a closed channel. *)
Lemma exec_closed m t c m' : Inv m → exec t c m = Next m' →
  (sent m' = sent m ∨ ∃ s ev v, sent m' = sent m ++ [(s, ev)] ∧ subs m !! s = Some v ∧ postC v = COpen) ∧
  ∀ s v, subs m !! s = Some v → postC v = CNil → closed v = true →
    ∃ v', subs m' !! s = Some v' ∧ postC v' = CNil ∧ closed v' = true.
Proof.
  intros I. unfold exec. destruct (threads m !! t) as [p|] eqn:Ht; [|done].
  destruct (subOf p) as [s0|] eqn:Hsub.
  2:{ intros H. assert (sent m' = sent m ∧ subs m' = subs m) as [-> ->]; [|split; [by left|eauto]].
      destruct p as [| | | | |ev [|]| | | | |[|]| | | | | | | | | | |]; cbn in H;
        unfold announce, acquire in H; repeat (case_match; try done); by simplify_eq. }
  destruct (subs m !! s0) as [v0|] eqn:Hs0; [|done].
  assert (Hone : ∀ v', (postC v0 = CNil → closed v0 = true → postC v' = CNil ∧ closed v' = true) →
    ∀ s v, subs m !! s = Some v → postC v = CNil → closed v = true →
    ∃ v'', <[s0 := v']> (subs m) !! s = Some v'' ∧ postC v'' = CNil ∧ closed v'' = true).
  { intros v' Hv' s v Hs Hn Hc. destruct (decide (s0 = s)) as [<-|]; simplify_map_eq; [|eauto].
    destruct Hv' as [? ?]; [done..|]. eauto. }
  destruct p as [| |s1 types| | |ev [|s1 rest]|ev s1 rest|ev s1 rest| | | | | | |s1 k|s1 k|s1 k|s1 k|s1 k|s1 k| |];
    try done; cbn in Hsub; injection Hsub as ->; intros H; cbn in H; unfold Subscribe in H;
    repeat (case_match; try done); simplify_eq; cbn; (split; [eauto 10|]); eauto; apply Hone; naive_solver.
Qed.

(** Events delivered to a subscription. *)
Definition received (s : sid) (m : TypeMux) : list (sid * Event) := filter (fun x => x.1 = s) (sent m).

Lemma start_closed m t now c m' : start t now c m = Some m' →
  sent m' = sent m ∧ ∀ s v, subs m !! s = Some v → subs m' !! s = Some v.
Proof.
  unfold start. intros H. repeat (case_match; try done); simplify_eq; cbn; (split; [done|]); try done.
  intros s v Hs. rewrite lookup_insert_ne; [done|]. intros Heq.
  apply (is_fresh (dom (subs m))). rewrite Heq. by apply elem_of_dom.
Qed.

(** Once [Unsubscribe] or [Stop] has closed a subscription's channel it stays
    closed and no event is delivered to it any more, whatever the other calls do. *)
Theorem closed_receives_nothing m m' s v : reachable m → rtc step m m' →
  subs m !! s = Some v → postC v = CNil →
  received s m' = received s m ∧ ∃ v', subs m' !! s = Some v' ∧ postC v' = CNil.
Proof.
  intros Hr Hstep Hs Hn.
  assert (closed v = true) as Hc.
  { destruct (inv_stage _ (reachable_Inv _ Hr) s v Hs) as [(_ & _ & ?)|[(? & _)|[(_ & _ & ?)|(? & _)]]]; congruence. }
  revert v Hs Hn Hc. induction Hstep as [m|m m1 m' H1 _ IH]; intros v Hs Hn Hc; [eauto|].
  pose proof (reachable_Inv _ Hr) as I.
  assert (Hr1 : reachable m1) by (eapply rtc_r; [exact Hr|exact H1]).
  destruct H1 as [t now c ? ? Hst|t c ? ? Hst].
  - apply start_closed in Hst as [Hsent Hsubs]. unfold received. rewrite <- Hsent.
    eapply IH; [done|by apply Hsubs|done|done].
  - destruct (exec_closed _ _ _ _ I Hst) as [Hsent Hkeep]. destruct (Hkeep s v Hs Hn Hc) as (v1 & Hv1 & Hn1 & Hc1).
    destruct (IH Hr1 v1 Hv1 Hn1 Hc1) as [-> Hex]. split; [|done]. unfold received.
    destruct Hsent as [->|(s0 & ev & v0 & -> & Hs0 & Ho)]; [done|].
    rewrite filter_app, filter_cons_False, filter_nil, app_nil_r; [done|]. cbn. intros ->. congruence.
Qed.

(** ** After [Stop] *)

Definition stoppedPost (ev : Event) (p : pc) : Prop :=
  p = PostLock ev ∨ p = PostRead ev ∨ p = Done (Some ErrMuxClosed).

Lemma exec_threads m t c m' t0 : exec t c m = Next m' → t0 ≠ t → threads m' !! t0 = threads m !! t0.
Proof.
  unfold exec. intros H Hne.
  repeat (case_match; try done); unfold muxStep, announce, acquire, deliver, closewait, Subscribe in *;
    repeat (case_match; try done); simplify_eq; cbn; by rewrite lookup_insert_ne.
Qed.

Lemma exec_stopped m t c m' : exec t c m = Next m' → stopped m = true → stopped m' = true.
Proof.
  unfold exec. intros H Hst.
  repeat (case_match; try done); unfold muxStep, announce, acquire, deliver, closewait, Subscribe in *;
    repeat (case_match; try done); by simplify_eq.
Qed.

Lemma exec_stopped_post m t c m' ev p : stopped m = true → threads m !! t = Some p → stoppedPost ev p →
  exec t c m = Next m' → ∃ p', threads m' !! t = Some p' ∧ stoppedPost ev p'.
Proof.
  intros Hst Ht Hp H. unfold exec in H. rewrite Ht in H. unfold stoppedPost in *.
  destruct Hp as [->|[->| ->]]; cbn in H; [| |done].
  - case_match; [done|]. simplify_eq. cbn. rewrite lookup_insert_eq. eauto.
  - rewrite Hst in H. simplify_eq. cbn. rewrite lookup_insert_eq. eauto.
Qed.

(** After [Stop], a [Post] delivers nothing and returns [ErrMuxClosed], and the
    mux stays stopped. *)
Theorem post_after_stop m m' t ev : stopped m = true → threads m !! t = Some (PostLock ev) →
  rtc step m m' → stopped m' = true ∧ ∃ p, threads m' !! t = Some p ∧ stoppedPost ev p.
Proof.
  intros Hst Ht Hstep.
  assert (Hp : ∃ p, threads m !! t = Some p ∧ stoppedPost ev p) by (eexists; split; [done|by left]).
  clear Ht. induction Hstep as [m|m m1 m' H1 _ IH]; [done|].
  destruct H1 as [t0 now c ? ? H|t0 c ? ? H]; destruct Hp as (p & Ht & Hp).
  - apply IH; unfold start in H; repeat (case_match; try done); simplify_eq; cbn; try done;
      (destruct (decide (t0 = t)) as [->|]; [exfalso; naive_solver|rewrite lookup_insert_ne by done; eauto]).
  - apply IH; [by eapply exec_stopped|]. destruct (decide (t0 = t)) as [->|Hne].
    + by eapply exec_stopped_post.
    + rewrite (exec_threads _ _ _ _ t H) by done. eauto.
Qed.

(** ** The map of subscriptions *)

(** Lists of the map are not empty and have no duplicates. *)
Definition Subm_wf (m : gmap typ (list sid)) : Prop :=
  ∀ ty l, m !! ty = Some l → l ≠ [] ∧ NoDup l.

Lemma posdelete_NoDup slice i : NoDup slice → NoDup (posdelete slice i).
Proof.
  intros Hnd. unfold posdelete. eapply sublist_NoDup; [exact Hnd|].
  rewrite <- (take_drop i slice) at 3. apply sublist_app; [done|].
  destruct (drop i slice) as [|x l] eqn:Hd; rewrite <- Nat.add_1_r, <- drop_drop, Hd; [done|].
  cbn. rewrite drop_0. by apply sublist_cons.
Qed.

(** [del] removes the subscription everywhere and nothing else. *)
Lemma delFrom_spec s slice : slice ≠ [] → NoDup slice →
  match delFrom s slice with
  | Some l => l ≠ [] ∧ NoDup l ∧ ∀ x, x ∈ l ↔ x ∈ slice ∧ x ≠ s
  | None => slice = [s]
  end.
Proof.
  intros Hne Hnd. unfold delFrom. destruct (find_spec slice s) as [[-> Hni]|(i & -> & Hi & _)].
  - rewrite bool_decide_eq_false_2 by by intros []. split_and!; [done..|].
    intros x. split; [|tauto]. intros Hx. split; [done|]. by intros ->.
  - rewrite bool_decide_eq_true_2, Nat2Z.id by lia.
    destruct (Nat.eqb_spec (length slice) 1) as [H1|H1].
    + destruct slice as [|x [|]]; try done. destruct i; cbn in Hi; [congruence|]. by destruct i.
    + pose proof (take_drop_middle slice i s Hi) as Hmid.
      assert (Hperm : slice ≡ₚ s :: posdelete slice i).
      { rewrite <- Hmid at 1. unfold posdelete. by rewrite Permutation_middle. }
      set (l := posdelete slice i) in *.
      assert (Hni : s ∉ l) by (rewrite Hperm in Hnd; by apply NoDup_cons in Hnd as [? _]).
      split_and!; [|by apply posdelete_NoDup|].
      * intros Hnil. rewrite Hnil in Hperm. apply Permutation_length in Hperm. by cbn in Hperm.
      * intros x. rewrite Hperm, elem_of_cons. split; [|naive_solver]. intros Hx. split; [by right|]. by intros ->.
Qed.

Lemma delLoop_spec s m : Subm_wf m → Subm_wf (delLoop s m) ∧
  ∀ ty x, (∃ l, delLoop s m !! ty = Some l ∧ x ∈ l) ↔ (∃ l, m !! ty = Some l ∧ x ∈ l) ∧ x ≠ s.
Proof.
  intros Hwf. split.
  - intros ty l. unfold delLoop. rewrite lookup_omap. intros (l0 & Hl0 & Hd)%bind_Some.
    destruct (Hwf _ _ Hl0) as [Hne Hnd]. pose proof (delFrom_spec s l0 Hne Hnd) as H. rewrite Hd in H. tauto.
  - intros ty x. unfold delLoop. rewrite lookup_omap. split.
    + intros (l & (l0 & Hl0 & Hd)%bind_Some & Hx). destruct (Hwf _ _ Hl0) as [Hne Hnd].
      pose proof (delFrom_spec s l0 Hne Hnd) as H. rewrite Hd in H. destruct H as (_ & _ & H).
      apply H in Hx as [? ?]. eauto.
    + intros [(l0 & Hl0 & Hx) Hns]. destruct (Hwf _ _ Hl0) as [Hne Hnd].
      pose proof (delFrom_spec s l0 Hne Hnd) as H. rewrite Hl0. cbn.
      destruct (delFrom s l0) as [l|]; [|subst l0; set_solver].
      exists l. split; [done|]. by apply H.
Qed.

Lemma register_wf s types m sm : Subm_wf m → register s types m = inl sm ∨ register s types m = inr sm →
  Subm_wf sm.
Proof.
  revert m. induction types as [|t types IH]; intros m Hwf Hreg; cbn in Hreg.
  - destruct Hreg; by simplify_eq.
  - case_bool_decide as Hf; [destruct Hreg; by simplify_eq|].
    apply (IH _) in Hreg; [done|]. intros ty l [[<- <-]|[_ Hl]]%lookup_insert_Some; [|exact (Hwf _ _ Hl)].
    split; [by destruct (default [] (m !! t))|]. apply NoDup_app. split_and!.
    + destruct (m !! t) as [l0|] eqn:Hl0; cbn; [by destruct (Hwf _ _ Hl0)|constructor].
    + intros x Hx Hin. assert (x = s) as -> by set_solver.
      destruct (find_spec (default [] (m !! t)) s) as [[_ ?]|(i & Hi & _)]; [done|lia].
    + apply NoDup_singleton.
Qed.

(** [Subscribe] with distinct types adds the subscription at the end of their lists. *)
Lemma register_spec s types m sm : register s types m = inl sm → NoDup types →
  ∀ ty, sm !! ty = if decide (ty ∈ types) then Some (default [] (m !! ty) ++ [s]) else m !! ty.
Proof.
  intros Hreg Hnd. revert m Hreg. induction Hnd as [|t types Hni _ IH]; intros m Hreg ty; cbn in Hreg.
  - by simplify_eq.
  - case_bool_decide; [done|]. rewrite (IH _ Hreg ty). destruct (decide (ty = t)) as [->|Hne].
    + rewrite (decide_False (P := t ∈ types)), (decide_True (P := t ∈ t :: types)) by (done || by left).
      by rewrite lookup_insert_eq.
    + rewrite lookup_insert_ne by done. destruct (decide (ty ∈ types)) as [Hin|Hin].
      * by rewrite decide_True by by right.
      * by rewrite decide_False by by intros [?|?]%elem_of_cons.
Qed.

(** In every reachable state the subscriptions registered for a type are a
    nonempty list without duplicates (an event is delivered to a subscriber at most once per
    [Post]), and the step of [Unsubscribe] that edits the map removes its subscription from
    every type and leaves all others registered. *)
Theorem Subm_invariant m : reachable m → Subm_wf (Subm m) ∧
  ∀ t s m', threads m !! t = Some (UnsubBody s) → exec t Plain m = Next m' →
    ∀ ty x, (∃ l, Subm m' !! ty = Some l ∧ x ∈ l) ↔ (∃ l, Subm m !! ty = Some l ∧ x ∈ l) ∧ x ≠ s.
Proof.
  intros Hr. assert (Hwf : Subm_wf (Subm m)).
  { apply (rtc_ind_r (R := step) (fun m => Subm_wf (Subm m)) zeroMux); [done| |exact Hr].
    clear. intros m1 m2 _ [t now c m m' H|t c m m' H] Hwf.
    - unfold start in H. by repeat (case_match; try done); simplify_eq.
    - unfold exec in H.
      repeat (case_match; try done); unfold muxStep, announce, acquire, deliver, closewait, Subscribe in *;
        repeat (case_match; try done); simplify_eq; cbn; try done.
      + eapply register_wf; [done|]. by left.
      + by apply delLoop_spec. }
  split; [done|]. intros t s m' Ht Hex. unfold exec in Hex. rewrite Ht in Hex. cbn in Hex.
  injection Hex as <-. cbn. by apply delLoop_spec.
Qed.

(** ** Instances: scheduled runs *)

Inductive act := Call (t : tid) (now : Z) (c : call) | Run (t : tid) (c : choice).

Fixpoint run (l : list act) (m : TypeMux) : option TypeMux :=
  match l with
  | [] => Some m
  | Call t now c :: l' => match start t now c m with Some m' => run l' m' | None => None end
  | Run t c :: l' => match exec t c m with Next m' => run l' m' | _ => None end
  end.

Lemma run_steps l m m' : run l m = Some m' → rtc step m m'.
Proof.
  revert m. induction l as [|[t now c|t c] l IH]; intros m H; cbn in H.
  - by simplify_eq.
  - destruct (start t now c m) eqn:Hs; [|done]. eapply rtc_l; [by eapply step_start|auto].
  - destruct (exec t c m) eqn:Hs; try done. eapply rtc_l; [by eapply step_exec|auto].
Qed.

(** The state after a run, [zeroMux] if the schedule is not possible. *)
Definition after (l : list act) : TypeMux := default zeroMux (run l zeroMux).

Lemma after_reachable l : bool_decide (is_Some (run l zeroMux)) = true → reachable (after l).
Proof.
  intros [m Hm]%bool_decide_eq_true. unfold after, reachable. rewrite Hm. by eapply run_steps.
Qed.

(** Thread 0 subscribes to ["A"]; thread 1 posts an ["A"] and waits for a receiver;
    thread 2 unsubscribes, which lets thread 1 go. *)
Definition exSubscribe (types : list typ) : list act :=
  [Call 0 1 (CallSubscribe types); Run 0 Plain; Run 0 Plain].
Definition exPost (t : tid) : list act :=
  [Call t 2 (CallPost "A" "x"); Run t Plain; Run t Plain; Run t Plain; Run t Plain].
Definition exWaiting : list act := exSubscribe ["A"] ++ [Run 0 Plain] ++ exPost 1.
Definition exSid : sid := fresh (∅ : gset sid).
Definition exUnsub : list act :=
  exWaiting ++ [Call 2 3 (CallUnsubscribe exSid); Run 2 Plain; Run 2 Plain].
Definition exClosed : list act :=
  exUnsub ++ [Run 2 Plain; Run 2 Plain; Run 2 Plain; Run 2 Plain; Run 1 Plain; Run 2 Plain; Run 2 Plain; Run 2 Plain].
Definition exStopped : list act :=
  exSubscribe ["A"] ++ [Run 0 Plain; Call 3 5 CallStop; Run 3 Plain; Run 3 (Order ["A"]); Run 3 Plain] ++
  repeat (Run 3 Plain) 7 ++ [Call 4 6 (CallPost "A" "y")].

Lemma mux_no_panic_witness :
  exec 0 Plain (after (exSubscribe ["A"; "A"])) ≠ Blocked ∧
  ∃ s types, threads (after (exSubscribe ["A"; "A"])) !! 0 = Some (SubBody s types) ∧ ¬ NoDup types.
Proof.
  split; [by vm_compute|].
  destruct (exec 0 Plain (after (exSubscribe ["A"; "A"]))) as [| |why m'] eqn:H; [by vm_compute in H..|].
  apply (mux_no_panic _ _ _ _ _ (after_reachable (exSubscribe ["A"; "A"]) eq_refl) H).
Defined.

Lemma mux_progress_witness :
  ∃ ev s rest v, threads (after exWaiting) !! 1 = Some (DeliverSelect ev s rest) ∧
    subs (after exWaiting) !! s = Some v ∧ closed v = false.
Proof.
  assert (Hth : threads (after exWaiting) =
    <[1 := DeliverSelect {| evTime := 2; evType := "A"; evData := "x" |} exSid []]> (<[0 := Done None]> ∅))
    by (vm_compute; reflexivity).
  destruct (mux_progress (after exWaiting) (after_reachable exWaiting eq_refl)) with
    (t := 1) (p := DeliverSelect {| evTime := 2; evType := "A"; evData := "x" |} exSid [])
    as (ev & s & rest & v & Hp & Hs & Hc & _).
  - intros t c Hc. destruct t as [|[|t]].
    + by destruct c.
    + by destruct c.
    + unfold exec. rewrite Hth, !lookup_insert_ne by done. by rewrite lookup_empty.
  - by rewrite Hth.
  - reflexivity.
  - exists ev, s, rest, v. rewrite <- Hp. by rewrite Hth.
Defined.

Definition exLater : TypeMux := default zeroMux (run (take 4 (exPost 5)) (after exClosed)).

Lemma closed_receives_nothing_witness :
  received exSid exLater = received exSid (after exClosed) ∧
  ∃ v, subs exLater !! exSid = Some v ∧ postC v = CNil.
Proof.
  destruct (subs (after exClosed) !! exSid) as [v|] eqn:Hv; [|by vm_compute in Hv].
  apply (closed_receives_nothing (after exClosed) exLater exSid v).
  - by apply after_reachable.
  - apply (run_steps (take 4 (exPost 5))). vm_compute. reflexivity.
  - exact Hv.
  - vm_compute in Hv. by injection Hv as <-.
Defined.

Lemma post_after_stop_witness :
  stopped (after exStopped) = true ∧
  ∃ p, threads (default zeroMux (run [Run 4 Plain; Run 4 Plain] (after exStopped))) !! 4 = Some p ∧
    stoppedPost {| evTime := 6; evType := "A"; evData := "y" |} p.
Proof.
  split; [vm_compute; reflexivity|].
  apply (post_after_stop (after exStopped)).
  - vm_compute. reflexivity.
  - vm_compute. reflexivity.
  - apply (run_steps [Run 4 Plain; Run 4 Plain]). vm_compute. reflexivity.
Defined.

Lemma Subm_invariant_witness : Subm_wf (Subm (after exUnsub)) ∧
  ¬ ∃ l, Subm (default zeroMux (run [Run 2 Plain] (after exUnsub))) !! "A" = Some l ∧ exSid ∈ l.
Proof.
  destruct (Subm_invariant (after exUnsub)) as [Hwf Hdel]; [by apply after_reachable|].
  split; [exact Hwf|].
  destruct (exec 2 Plain (after exUnsub)) as [|m'|] eqn:Hex; [by vm_compute in Hex| |by vm_compute in Hex].
  cbn [run]. rewrite Hex. cbn [default]. intros H.
  apply (Hdel 2 exSid m') in H as [_ Hne]; [by apply Hne|vm_compute; reflexivity|exact Hex].
Defined.
