(* ===== verification/Words.v ===== *)
(** * 32-bit words

    [uint32] as [Z] with the wrap-around written out, the rotation the hash and
    cipher packages define for themselves, and big-endian conversion
    ([encoding/binary]). *)

From stdpp Require Import base list.
From Stdlib Require Import ZArith Lia.
From S2P Require Import Prelude Common.
Local Open Scope Z_scope.

Definition two32 : Z := 4294967296.
Definition u32 (z : Z) : Z := z mod two32.
Definition is_u32 (z : Z) : Prop := 0 ≤ z < two32.

(** [x << i] and [x >> i] on [uint32]. *)
Definition shl32 (x i : Z) : Z := u32 (Z.shiftl x i).
Definition shr32 (x i : Z) : Z := Z.shiftr x i.

(** [(x << (i % 32)) | (x >> (32 - i%32))]. *)
Definition rotl (x i : Z) : Z := Z.lor (shl32 x (i mod 32)) (shr32 x (32 - i mod 32)).

(** [^x] *)
Definition not32 (x : Z) : Z := Z.lxor x (two32 - 1).

Definition add32 (x y : Z) : Z := u32 (x + y).

(** [binary.BigEndian.Uint32] of the first four bytes and [PutUint32]. *)
Definition be32 (b : bytes) : Z :=
  match b with
  | b0 :: b1 :: b2 :: b3 :: _ =>
      Z.lor (Z.lor (Z.lor b3 (Z.shiftl b2 8)) (Z.shiftl b1 16)) (Z.shiftl b0 24)
  | _ => 0
  end.

Definition put32 (x : Z) : bytes :=
  [Z.land (Z.shiftr x 24) 255; Z.land (Z.shiftr x 16) 255; Z.land (Z.shiftr x 8) 255; Z.land x 255].

(** ** Ranges and bits *)

Lemma u32_range z : is_u32 (u32 z).
Proof. unfold is_u32, u32, two32. apply Z.mod_pos_bound. lia. Qed.

Lemma u32_testbit z n : 0 ≤ n → Z.testbit (u32 z) n = (n <? 32) && Z.testbit z n.
Proof.
  intros Hn. unfold u32. change two32 with (2 ^ 32). destruct (Z.ltb_spec n 32).
  - by rewrite Z.mod_pow2_bits_low by lia.
  - by rewrite Z.mod_pow2_bits_high by lia.
Qed.

Lemma is_u32_testbit z n : is_u32 z → 32 ≤ n → Z.testbit z n = false.
Proof.
  intros [H0 H1] Hn. destruct (Z.eq_dec z 0) as [->|]; [apply Z.testbit_0_l|].
  apply Z.bits_above_log2; [lia|]. assert (Z.log2 z < 32); [|lia].
  apply Z.log2_lt_pow2; [lia|]. unfold two32 in H1. lia.
Qed.

(** A number without bits from 32 on is a word. *)
Lemma is_u32_bits z : 0 ≤ z → (∀ n, 32 ≤ n → Z.testbit z n = false) → is_u32 z.
Proof.
  intros H0 H. split; [done|]. destruct (Z.lt_ge_cases z two32) as [?|Hge]; [done|exfalso].
  assert (Hlog : 32 ≤ Z.log2 z).
  { change 32 with (Z.log2 two32). by apply Z.log2_le_mono. }
  specialize (H _ Hlog). rewrite Z.bit_log2 in H; [done|]. unfold two32 in Hge. lia.
Qed.

Lemma lxor_u32 x y : is_u32 x → is_u32 y → is_u32 (Z.lxor x y).
Proof.
  intros Hx Hy. apply is_u32_bits.
  - apply Z.lxor_nonneg. unfold is_u32 in *. lia.
  - intros n Hn. by rewrite Z.lxor_spec, !is_u32_testbit by done.
Qed.

Lemma lor_u32 x y : is_u32 x → is_u32 y → is_u32 (Z.lor x y).
Proof.
  intros Hx Hy. apply is_u32_bits.
  - apply Z.lor_nonneg. unfold is_u32 in *. lia.
  - intros n Hn. by rewrite Z.lor_spec, !is_u32_testbit by done.
Qed.

Lemma land_u32 x y : is_u32 x → is_u32 y → is_u32 (Z.land x y).
Proof.
  intros Hx Hy. apply is_u32_bits.
  - apply Z.land_nonneg. unfold is_u32 in *. lia.
  - intros n Hn. by rewrite Z.land_spec, !is_u32_testbit by done.
Qed.

Lemma shr32_u32 x i : is_u32 x → 0 ≤ i → is_u32 (shr32 x i).
Proof.
  intros Hx Hi. apply is_u32_bits.
  - apply Z.shiftr_nonneg. unfold is_u32 in Hx. lia.
  - intros n Hn. unfold shr32. rewrite Z.shiftr_spec by lia. apply is_u32_testbit; [done|lia].
Qed.

Lemma rotl_u32 x i : is_u32 x → is_u32 (rotl x i).
Proof.
  intros Hx. assert (0 ≤ i mod 32 < 32) by (apply Z.mod_pos_bound; lia).
  apply lor_u32; [apply u32_range|]. apply shr32_u32; [done|lia].
Qed.

Lemma not32_u32 x : is_u32 x → is_u32 (not32 x).
Proof. intros. apply lxor_u32; [done|]. unfold is_u32, two32. lia. Qed.

Lemma add32_u32 x y : is_u32 (add32 x y).
Proof. apply u32_range. Qed.

(** The bits of a rotation. *)
Lemma rotl_testbit x i n : is_u32 x → 0 ≤ n →
  Z.testbit (rotl x i) n = (n <? 32) && Z.testbit x ((n - i) mod 32).
Proof.
  intros Hx Hn. unfold rotl, shl32, shr32.
  assert (Hi : 0 ≤ i mod 32 < 32) by (apply Z.mod_pos_bound; lia).
  replace ((n - i) mod 32) with ((n - i mod 32) mod 32) by (by rewrite Zminus_mod_idemp_r).
  set (k := i mod 32) in *. rewrite Z.lor_spec, u32_testbit by done.
  rewrite Z.shiftr_spec by done. destruct (Z.ltb_spec n 32); cbn [andb].
  - rewrite Z.shiftl_spec by done. destruct (Z.lt_ge_cases n k).
    + rewrite (Z.testbit_neg_r x (n - k)) by lia. cbn. f_equal.
      apply (Z.mod_unique _ _ (-1)); lia.
    + rewrite (is_u32_testbit x (n + (32 - k))) by (done || lia). rewrite orb_false_r. f_equal.
      rewrite Z.mod_small; lia.
  - apply is_u32_testbit; [done|lia].
Qed.

Lemma rotl_lxor x y i : is_u32 x → is_u32 y → rotl (Z.lxor x y) i = Z.lxor (rotl x i) (rotl y i).
Proof.
  intros Hx Hy. apply Z.bits_inj'. intros n Hn.
  rewrite Z.lxor_spec, !rotl_testbit by (done || by apply lxor_u32). rewrite Z.lxor_spec.
  by destruct (n <? 32).
Qed.

(** ** Big-endian words *)

Lemma is_byte_testbit b n : is_byte b → 8 ≤ n → Z.testbit b n = false.
Proof.
  intros [H0 H1] Hn. destruct (Z.eq_dec b 0) as [->|]; [apply Z.testbit_0_l|].
  apply Z.bits_above_log2; [lia|]. assert (Z.log2 b < 8); [|lia]. apply Z.log2_lt_pow2; lia.
Qed.

Lemma be32_testbit b0 b1 b2 b3 r n : is_byte b0 → is_byte b1 → is_byte b2 → is_byte b3 → 0 ≤ n →
  Z.testbit (be32 (b0 :: b1 :: b2 :: b3 :: r)) n =
  if n <? 8 then Z.testbit b3 n else if n <? 16 then Z.testbit b2 (n - 8)
  else if n <? 24 then Z.testbit b1 (n - 16) else Z.testbit b0 (n - 24).
Proof.
  intros H0 H1 H2 H3 Hn. cbn [be32]. rewrite !Z.lor_spec, !Z.shiftl_spec by done.
  assert (Hneg : ∀ z k, k < 0 → Z.testbit z k = false) by (intros; by apply Z.testbit_neg_r).
  destruct (Z.ltb_spec n 8); [|destruct (Z.ltb_spec n 16); [|destruct (Z.ltb_spec n 24)]].
  - rewrite !(Hneg _ (n - _)) by lia. by rewrite !orb_false_r.
  - rewrite (is_byte_testbit b3), !(Hneg _ (n - 16)), !(Hneg _ (n - 24)) by (done || lia). by rewrite !orb_false_r.
  - rewrite (is_byte_testbit b3), (is_byte_testbit b2), !(Hneg _ (n - 24)) by (done || lia).
    by rewrite !orb_false_r.
  - rewrite (is_byte_testbit b3), (is_byte_testbit b2), (is_byte_testbit b1) by (done || lia). done.
Qed.

Lemma be32_u32 b : Forall is_byte b → is_u32 (be32 b).
Proof.
  intros Hb. destruct b as [|b0 [|b1 [|b2 [|b3 r]]]]; try (unfold is_u32, two32; cbn; lia).
  repeat match goal with H : Forall _ (_ :: _) |- _ => apply Forall_cons in H as [? H] end.
  apply is_u32_bits.
  - cbn. rewrite !Z.lor_nonneg, !Z.shiftl_nonneg. unfold is_byte in *. lia.
  - intros n Hn. rewrite be32_testbit by (done || lia). rewrite !(proj2 (Z.ltb_ge _ _)) by lia.
    apply is_byte_testbit; [done|lia].
Qed.

Lemma land255_byte x : is_byte (Z.land x 255).
Proof. unfold is_byte. change 255 with (Z.ones 8). rewrite Z.land_ones by lia. apply Z.mod_pos_bound. lia. Qed.

Lemma put32_bytes x : Forall is_byte (put32 x).
Proof. repeat constructor; apply land255_byte. Qed.

Lemma land255_testbit x n : 0 ≤ n → Z.testbit (Z.land x 255) n = (n <? 8) && Z.testbit x n.
Proof.
  intros Hn. rewrite Z.land_spec. change 255 with (Z.ones 8). destruct (Z.ltb_spec n 8).
  - rewrite Z.ones_spec_low by lia. apply andb_true_r.
  - rewrite Z.ones_spec_high by lia. apply andb_false_r.
Qed.

Lemma be32_put32 x r : is_u32 x → be32 (put32 x ++ r) = x.
Proof.
  intros Hx. apply Z.bits_inj'. intros n Hn. cbn [put32 app].
  rewrite be32_testbit by (done || apply land255_byte).
  destruct (Z.ltb_spec n 8); [|destruct (Z.ltb_spec n 16); [|destruct (Z.ltb_spec n 24)]];
    rewrite land255_testbit, ?Z.shiftr_spec by lia.
  - by rewrite (proj2 (Z.ltb_lt _ _)) by lia.
  - rewrite (proj2 (Z.ltb_lt _ _)) by lia. cbn. f_equal. lia.
  - rewrite (proj2 (Z.ltb_lt _ _)) by lia. cbn. f_equal. lia.
  - destruct (Z.ltb_spec (n - 24) 8); cbn; [f_equal; lia|]. symmetry. apply is_u32_testbit; [done|lia].
Qed.

Lemma put32_be32 b0 b1 b2 b3 r : is_byte b0 → is_byte b1 → is_byte b2 → is_byte b3 →
  put32 (be32 (b0 :: b1 :: b2 :: b3 :: r)) = [b0; b1; b2; b3].
Proof.
  intros H0 H1 H2 H3. unfold put32.
  assert (Hbyte : ∀ k b, 0 ≤ k → is_byte b →
    (∀ n, 0 ≤ n < 8 → Z.testbit (be32 (b0 :: b1 :: b2 :: b3 :: r)) (n + k) = Z.testbit b n) →
    Z.land (Z.shiftr (be32 (b0 :: b1 :: b2 :: b3 :: r)) k) 255 = b).
  { intros k b Hk Hb Hbits. apply Z.bits_inj'. intros n Hn. rewrite land255_testbit by done.
    rewrite Z.shiftr_spec by done. destruct (Z.ltb_spec n 8); cbn [andb]; [by apply Hbits|].
    symmetry. by apply is_byte_testbit. }
  f_equal; [|f_equal; [|f_equal; [|f_equal; rewrite <- (Z.shiftr_0_r (be32 _))]]];
    (apply Hbyte; [lia|done|]); intros n Hn; rewrite be32_testbit by (done || lia).
  - rewrite (proj2 (Z.ltb_ge _ 8)), (proj2 (Z.ltb_ge _ 16)), (proj2 (Z.ltb_ge _ 24)) by lia. f_equal. lia.
  - rewrite (proj2 (Z.ltb_ge _ 8)), (proj2 (Z.ltb_ge _ 16)), (proj2 (Z.ltb_lt _ 24)) by lia. f_equal. lia.
  - rewrite (proj2 (Z.ltb_ge _ 8)), (proj2 (Z.ltb_lt _ 16)) by lia. f_equal. lia.
  - rewrite (proj2 (Z.ltb_lt _ 8)) by lia. f_equal. lia.
Qed.

Create HintDb words.
#[export] Hint Resolve lxor_u32 lor_u32 land_u32 rotl_u32 not32_u32 add32_u32 u32_range be32_u32 : words.
