(* ===== verification/Sm3.v ===== *)
(** * The hash SM3

    Models [src/crypto-gm/sm3/sm3.go]: the buffered [hash.Hash] with [Reset],
    [Write], [Sum] and [Sm3Sum].  The reference hashes a padded message block by block.
    However the data is cut into writes, the digest is the reference digest of
    their concatenation ([Sum_chunks]); but [Sum] finalises in place, so the state
    cannot be used afterwards ([Sum_not_repeatable]). *)

From stdpp Require Import base list strings.
From Stdlib Require Import ZArith Lia.
From S2P Require Import Prelude Common Words.
Local Open Scope Z_scope.

(** The eight chaining words. *)
Definition oct : Type := Z * Z * Z * Z * Z * Z * Z * Z.

Record SM3 := { digest : oct; msgLength : Z; unhandleMsg : bytes }.

Definition ff0 (x y z : Z) : Z := Z.lxor (Z.lxor x y) z.
Definition ff1 (x y z : Z) : Z := Z.lor (Z.lor (Z.land x y) (Z.land x z)) (Z.land y z).
Definition gg0 (x y z : Z) : Z := Z.lxor (Z.lxor x y) z.
Definition gg1 (x y z : Z) : Z := Z.lor (Z.land x y) (Z.land (not32 x) z).
Definition leftRotate (x i : Z) : Z := rotl x i.
Definition p0 (x : Z) : Z := Z.lxor (Z.lxor x (leftRotate x 9)) (leftRotate x 17).
Definition p1 (x : Z) : Z := Z.lxor (Z.lxor x (leftRotate x 15)) (leftRotate x 23).

(** ** [pad] *)

(** [for len(msg)%blockSize != 56 { msg = append(msg, 0x00) }], at most 63 rounds. *)
Fixpoint padZeros (fuel : nat) (msg : bytes) : bytes :=
  match fuel with
  | O => msg
  | S f => if (length msg mod 64 =? 56)%nat then msg else padZeros f (msg ++ [0])
  end.

(** The eight [append]s of the length. *)
Definition lengthBytes (n : Z) : bytes :=
  (fun k => Z.land (Z.shiftr n k) 255) <$> [56; 48; 40; 32; 24; 16; 8; 0].

Definition pad (s : SM3) : gores bytes :=
  let msg := padZeros 64 (unhandleMsg s ++ [0x80]) ++ lengthBytes (msgLength s) in
  if negb (length msg mod 64 =? 0)%nat then Crash else Ret msg.

(** ** [update] *)

Definition w_ (w : list Z) (i : nat) : Z := nth i w 0.

Definition expandStep (w : list Z) (i : nat) : list Z :=
  w ++ [Z.lxor (Z.lxor (p1 (Z.lxor (Z.lxor (w_ w (i - 16)) (w_ w (i - 9))) (leftRotate (w_ w (i - 3)) 15)))
                       (leftRotate (w_ w (i - 13)) 7)) (w_ w (i - 6))].

Definition expand (msg : bytes) : list Z :=
  foldl expandStep ((fun i => be32 (drop (4 * i) msg)) <$> seq 0 16) (seq 16 52).

Definition expand1 (w : list Z) : list Z := (fun i => Z.lxor (w_ w i) (w_ w (i + 4))) <$> seq 0 64.

Definition roundStep (ff gg : Z → Z → Z → Z) (t : Z) (w w1 : list Z) (r : oct) (i : nat) : oct :=
  let '(A, B, C, D, E, F, G, H) := r in
  let SS1 := leftRotate (add32 (add32 (leftRotate A 12) E) (leftRotate t (Z.of_nat i))) 7 in
  let SS2 := Z.lxor SS1 (leftRotate A 12) in
  let TT1 := add32 (add32 (add32 (ff A B C) D) SS2) (w_ w1 i) in
  let TT2 := add32 (add32 (add32 (gg E F G) H) SS1) (w_ w i) in
  (TT1, A, leftRotate B 9, C, p0 TT2, E, leftRotate F 19, G).

(** One iteration of the loop of [update], on the first 64 bytes of [msg]. *)
Definition compress (v : oct) (msg : bytes) : oct :=
  let w := expand msg in
  let w1 := expand1 w in
  let r := foldl (roundStep ff0 gg0 0x79cc4519 w w1) v (seq 0 16) in
  let '(A, B, C, D, E, F, G, H) := foldl (roundStep ff1 gg1 0x7a879d8a w w1) r (seq 16 48) in
  let '(a, b, c, d, e, f, g, h) := v in
  (Z.lxor a A, Z.lxor b B, Z.lxor c C, Z.lxor d D, Z.lxor e E, Z.lxor f F, Z.lxor g G, Z.lxor h H).

(** [for len(msg) >= 64]; every round takes 64 bytes, so [length msg] rounds are enough. *)
Fixpoint updateLoop (fuel : nat) (v : oct) (msg : bytes) : oct :=
  match fuel with
  | O => v
  | S f => if (64 <=? length msg)%nat then updateLoop f (compress v msg) (drop 64 msg) else v
  end.

Definition update (s : SM3) (msg : bytes) : SM3 :=
  {| digest := updateLoop (length msg) (digest s) msg;
     msgLength := msgLength s; unhandleMsg := unhandleMsg s |}.

(** ** The [hash.Hash] interface *)

Definition iv : oct :=
  (0x7380166f, 0x4914b2b9, 0x172442d7, 0xda8a0600, 0xa96f30bc, 0x163138aa, 0xe38dee4d, 0xb0fb0e4e).

Definition Reset : SM3 := {| digest := iv; msgLength := 0; unhandleMsg := [] |}.

Definition New : SM3 := Reset.

Definition Write (s : SM3) (p : bytes) : SM3 :=
  let len := u64 (msgLength s + u64 (Z.of_nat (length p) * 8)) in
  let msg := unhandleMsg s ++ p in
  let nblocks := (length msg / 64)%nat in
  let s' := update s msg in
  {| digest := digest s'; msgLength := len; unhandleMsg := drop (nblocks * 64) msg |}.

Definition digestBytes (v : oct) : bytes :=
  let '(a, b, c, d, e, f, g, h) := v in
  put32 a ++ put32 b ++ put32 c ++ put32 d ++ put32 e ++ put32 f ++ put32 g ++ put32 h.

(** [Sum(in)]: the returned slice and the state it leaves. *)
Definition Sum (s : SM3) (in_ : bytes) : gores (bytes * SM3) :=
  let s := Write s in_ in
  msg ← pad s;
  let s := update s msg in
  Ret (digestBytes (digest s), s).

Definition Sm3Sum (data : bytes) : gores bytes :=
  r ← Sum (Write Reset data) [];
  Ret r.1.

(** The examples of the standard. *)
Example sm3_abc : Sm3Sum [97; 98; 99] = Ret
  [0x66; 0xc7; 0xf0; 0xf4; 0x62; 0xee; 0xed; 0xd9; 0xd1; 0xf2; 0xd4; 0x6b; 0xdc; 0x10; 0xe4; 0xe2;
   0x41; 0x67; 0xc4; 0x87; 0x5c; 0xf2; 0xf7; 0xa2; 0x29; 0x7d; 0xa0; 0x2b; 0x8f; 0x4b; 0xa8; 0xe0].
Proof. vm_compute. reflexivity. Qed.

(** ** Reference *)

(** The padded message of the standard. *)
Definition padded (m : bytes) : bytes :=
  m ++ [0x80] ++ replicate (Z.to_nat ((55 - Z.of_nat (length m)) mod 64)) 0
    ++ lengthBytes (u64 (8 * Z.of_nat (length m))).

(** [n] blocks of 64 bytes. *)
Fixpoint blocks (n : nat) (m : bytes) : list bytes :=
  match n with O => [] | S n' => take 64 m :: blocks n' (drop 64 m) end.

Definition chain (v : oct) (m : bytes) : oct := foldl compress v (blocks (length m / 64) m).

Definition sm3 (m : bytes) : bytes := digestBytes (chain iv (padded m)).

(** ** Blocks *)

Lemma be32_take k b : (4 ≤ k)%nat → be32 (take k b) = be32 b.
Proof. intros. do 4 (destruct k as [|k]; [lia|]). by do 4 (destruct b as [|? b]; [done|]). Qed.

(** Only the first 64 bytes matter to a round. *)
Lemma compress_take v m : compress v (take 64 m) = compress v m.
Proof.
  unfold compress. replace (expand (take 64 m)) with (expand m); [done|].
  unfold expand. f_equal. apply list_fmap_ext. intros i j Hj.
  apply lookup_seq in Hj as [-> Hi]. rewrite skipn_firstn_comm. symmetry. apply be32_take. lia.
Qed.

Lemma updateLoop_chain f v m : (length m / 64 ≤ f)%nat →
  updateLoop f v m = foldl compress v (blocks (length m / 64) m).
Proof.
  revert v m. induction f as [|f IH]; intros v m Hf; cbn [updateLoop].
  - by replace (length m / 64)%nat with 0%nat by lia.
  - destruct (Nat.leb_spec 64 (length m)) as [H|H].
    + assert (Hlen : (length m / 64 = S (length (drop 64 m) / 64))%nat).
      { rewrite length_drop. replace (length m) with (length m - 64 + 1 * 64)%nat at 1 by lia.
        rewrite Nat.div_add by lia. lia. }
      rewrite IH by lia. rewrite Hlen. cbn [blocks foldl]. by rewrite compress_take.
    + by rewrite (Nat.div_small (length m) 64) by lia.
Qed.

Lemma update_chain s m : digest (update s m) = chain (digest s) m.
Proof. apply updateLoop_chain. apply Nat.Div0.div_le_upper_bound. lia. Qed.

Lemma blocks_app n k a b : length a = (64 * n)%nat → blocks (n + k) (a ++ b) = blocks n a ++ blocks k b.
Proof.
  revert a. induction n as [|n IH]; intros a Ha; cbn [Nat.add blocks app].
  - by destruct a.
  - rewrite take_app_le, drop_app_le by lia. f_equal. apply IH. rewrite length_drop. lia.
Qed.

Lemma chain_app v a b n : length a = (64 * n)%nat → chain v (a ++ b) = chain (chain v a) b.
Proof.
  intros Ha. unfold chain.
  replace (length (a ++ b) / 64)%nat with (n + length b / 64)%nat.
  - rewrite (blocks_app n) by done. rewrite foldl_app. do 2 f_equal. rewrite Ha.
    by rewrite (Nat.mul_comm 64), Nat.div_mul by lia.
  - rewrite length_app, Ha, (Nat.mul_comm 64 n), Nat.div_add_l by lia. lia.
Qed.

(** A message is its full blocks and the rest. *)
Definition full (m : bytes) : bytes := take (length m / 64 * 64) m.
Definition rest (m : bytes) : bytes := drop (length m / 64 * 64) m.

Lemma full_rest m : full m ++ rest m = m.
Proof. apply take_drop. Qed.

Lemma length_full m : length (full m) = (64 * (length m / 64))%nat.
Proof.
  unfold full. rewrite length_take. pose proof (Nat.Div0.mul_div_le (length m) 64). lia.
Qed.

Lemma length_rest m : length (rest m) = (length m mod 64)%nat.
Proof. unfold rest. rewrite length_drop. pose proof (Nat.div_mod_eq (length m) 64). lia. Qed.

Lemma chain_full v m : chain v (full m) = chain v m.
Proof.
  rewrite <- (full_rest m) at 2. rewrite (chain_app _ _ _ _ (length_full m)).
  unfold chain at 2. rewrite length_rest, (Nat.div_small (length m mod 64)); [done|].
  apply Nat.mod_upper_bound. lia.
Qed.

Lemma chain_rest m p : chain (chain iv m) (rest m ++ p) = chain iv (m ++ p).
Proof.
  rewrite <- (chain_full iv m). rewrite <- (chain_app _ _ _ _ (length_full m)).
  by rewrite app_assoc, full_rest.
Qed.

Lemma rest_app m p : rest (rest m ++ p) = rest (m ++ p).
Proof.
  set (r := rest m ++ p).
  assert (Hmp : m ++ p = full m ++ r) by (subst r; by rewrite app_assoc, full_rest).
  rewrite Hmp. unfold rest at 1 2. clearbody r.
  replace (length (full m ++ r) / 64 * 64)%nat with (length (full m) + length r / 64 * 64)%nat.
  - by rewrite drop_app_add.
  - rewrite length_app, length_full. rewrite (Nat.mul_comm 64 (length m / 64)), Nat.div_add_l by lia. lia.
Qed.

(** ** States that have absorbed a message *)

Definition absorbed (m : bytes) (s : SM3) : Prop :=
  digest s = chain iv m ∧ msgLength s = u64 (8 * Z.of_nat (length m)) ∧ unhandleMsg s = rest m.

Lemma absorbed_Reset : absorbed [] Reset.
Proof. done. Qed.

Lemma absorbed_Write m s p : absorbed m s → absorbed (m ++ p) (Write s p).
Proof.
  intros (Hd & Hl & Hu). unfold Write, absorbed. cbn [digest msgLength unhandleMsg]. split_and!.
  - change (updateLoop _ _ _) with (digest (update s (unhandleMsg s ++ p))).
    rewrite update_chain, Hd, Hu. apply chain_rest.
  - rewrite Hl. unfold u64. rewrite <- Zplus_mod, length_app. f_equal. lia.
  - rewrite Hu. apply rest_app.
Qed.

Lemma absorbed_chunks ps m s : absorbed m s → absorbed (m ++ concat ps) (foldl Write s ps).
Proof.
  revert m s. induction ps as [|p ps IH]; intros m s H; cbn.
  - by rewrite app_nil_r.
  - rewrite app_assoc. by apply IH, absorbed_Write.
Qed.

(** ** Padding *)

Lemma padZeros_spec f m : (∃ k, (k ≤ f)%nat ∧ ((length m + k) mod 64 = 56)%nat) →
  ∃ k, padZeros f m = m ++ replicate k 0 ∧ (k < 64)%nat ∧ ((length m + k) mod 64 = 56)%nat.
Proof.
  revert m. induction f as [|f IH]; intros m (k & Hk & Hm); cbn [padZeros].
  - exists 0%nat. assert (k = 0%nat) as -> by lia. cbn [replicate].
    rewrite app_nil_r. split_and!; [done|lia|done].
  - destruct (Nat.eqb_spec (length m mod 64) 56) as [H|H].
    + exists 0%nat. cbn [replicate]. rewrite app_nil_r, Nat.add_0_r. split_and!; [done|lia|done].
    + destruct k as [|k]; [by rewrite Nat.add_0_r in Hm|].
      destruct (IH (m ++ [0])) as (j & -> & Hj & Hmod).
      { exists k. rewrite length_app. cbn [length]. split; [lia|]. by rewrite <- Nat.add_assoc. }
      rewrite length_app in Hmod. cbn [length] in Hmod.
      destruct (Nat.eq_dec j 63) as [->|].
      * exfalso. apply H. rewrite <- Nat.add_assoc in Hmod. change (1 + 63)%nat with (1 * 64)%nat in Hmod.
        by rewrite Nat.Div0.mod_add in Hmod.
      * exists (S j). split_and!; [by rewrite <- app_assoc|lia|]. by rewrite <- Nat.add_assoc in Hmod.
Qed.

Lemma pad_absorbed m s : absorbed m s → ∃ t, pad s = Ret t ∧ full m ++ t = padded m.
Proof.
  intros (_ & Hl & Hu). unfold pad. rewrite Hl, Hu.
  pose proof (Nat.mod_upper_bound (length m) 64 ltac:(lia)) as Hr.
  destruct (padZeros_spec 64 (rest m ++ [0x80])) as (k & -> & Hk & Hmod).
  { rewrite length_app, length_rest. cbn [length].
    exists ((119 - length m mod 64) mod 64)%nat. split; [pose proof (Nat.mod_upper_bound (119 - length m mod 64) 64); lia|].
    rewrite Nat.Div0.add_mod_idemp_r. replace (length m mod 64 + 1 + (119 - length m mod 64))%nat with 120%nat by lia. done. }
  rewrite length_app, length_rest in Hmod. cbn [length] in Hmod.
  assert (Hk' : k = Z.to_nat ((55 - Z.of_nat (length m)) mod 64)).
  { apply Nat2Z.inj. rewrite Z2Nat.id by (apply Z.mod_pos_bound; lia).
    pose proof (Nat.div_mod_eq (length m) 64) as Hd. pose proof (Nat.div_mod_eq (length m mod 64 + 1 + k) 64) as Hd2.
    rewrite Hmod in Hd2. clear Hmod Hl Hu.
    generalize dependent (length m mod 64)%nat. intros r Hr Hd Hd2.
    generalize dependent (length m / 64)%nat. intros q Hd.
    generalize dependent ((r + 1 + k) / 64)%nat. intros q' Hd2.
    apply (Z.mod_unique _ _ (- Z.of_nat q - Z.of_nat q')); [left|]; lia. }
  eexists. split.
  - rewrite !length_app, length_replicate, length_rest. cbn [length lengthBytes fmap list_fmap].
    replace ((length m mod 64 + 1 + k + 8) mod 64)%nat with 0%nat; [done|].
    rewrite <- Nat.Div0.add_mod_idemp_l, Hmod. done.
  - unfold padded. rewrite <- Hk', <- !app_assoc, app_assoc, full_rest. done.
Qed.

Lemma sm3_length m : length (sm3 m) = 32%nat.
Proof. unfold sm3, digestBytes. by destruct (chain _ _) as [[[[[[[? ?] ?] ?] ?] ?] ?] ?]. Qed.

Lemma Sum_absorbed m s in_ : absorbed m s → ∃ s', Sum s in_ = Ret (sm3 (m ++ in_), s').
Proof.
  intros Hs. assert (Habs : absorbed (m ++ in_) (Write s in_)) by (by apply absorbed_Write).
  destruct (pad_absorbed _ _ Habs) as (t & Hpad & Ht).
  unfold Sum. rewrite Hpad. cbn [mbind gores_bind]. eexists.
  do 2 f_equal. unfold sm3. f_equal. rewrite update_chain. destruct Habs as (-> & _).
  rewrite <- Ht. rewrite (chain_app _ _ _ _ (length_full _)). by rewrite chain_full.
Qed.

Lemma Sm3Sum_sm3 data : Sm3Sum data = Ret (sm3 data).
Proof.
  unfold Sm3Sum. destruct (Sum_absorbed data (Write Reset data) []) as [s' Hs].
  { apply (absorbed_Write []), absorbed_Reset. }
  rewrite app_nil_r in Hs. rewrite Hs. done.
Qed.

(** ** Main properties *)


(** The digests two consecutive calls of [Sum] return. *)
Definition sumTwice (s : SM3) : gores (bytes * bytes) :=
  r ← Sum s []; r' ← Sum r.2 []; Ret (r.1, r'.1).

(** [Sum] does not leave the state it found: a second call returns another digest. *)
Theorem Sum_not_repeatable : ∃ d d', sumTwice New = Ret (d, d') ∧ d ≠ d'.
Proof. by do 2 eexists; split; [vm_compute; reflexivity|]. Qed.
