(* ===== verification/BigInt.v ===== *)
(** * Modular inverses

    [big.Int.ModInverse] of Go's [math/big], which the curve and the signature
    code call: the inverse of [g] modulo [n] by the extended Euclidean algorithm, or
    nothing ([nil], the receiver unchanged) when [g] and [n] are not coprime. *)

From stdpp Require Import base tactics numbers.
From Stdlib Require Import ZArith Znumtheory Lia.
Local Open Scope Z_scope.

(** [r0 = s0 * g] and [r1 = s1 * g] modulo [n]. *)
Fixpoint egcd (fuel : nat) (r0 s0 r1 s1 : Z) : Z * Z :=
  match fuel with
  | O => (r0, s0)
  | S fuel => if r1 =? 0 then (r0, s0) else egcd fuel r1 s1 (r0 mod r1) (s0 - r0 / r1 * s1)
  end.

(** The product of the two remainders halves in every step. *)
Definition ModInverse (g n : Z) : option Z :=
  let g := g mod n in
  let '(d, s) := egcd (S (S (Z.to_nat (Z.log2 (n * g))))) n 0 g 1 in
  if d =? 1 then Some (s mod n) else None.

Lemma egcd_S fuel r0 s0 r1 s1 : egcd (S fuel) r0 s0 r1 s1 =
  if r1 =? 0 then (r0, s0) else egcd fuel r1 s1 (r0 mod r1) (s0 - r0 / r1 * s1).
Proof. reflexivity. Qed.

Section Correctness.
  Context (n g : Z) (Hn : 1 < n).

Lemma egcd_bezout fuel r0 s0 r1 s1 : (r0 - s0 * g) mod n = 0 → (r1 - s1 * g) mod n = 0 →
  let '(d, s) := egcd fuel r0 s0 r1 s1 in (d - s * g) mod n = 0.
Proof using Hn.
  revert r0 s0 r1 s1. induction fuel as [|fuel IH]; intros r0 s0 r1 s1 H0 H1; cbn [egcd]; [done|].
  destruct (Z.eqb_spec r1 0); [done|]. apply IH; [done|].
  apply Z.mod_divide in H0 as [x Hx], H1 as [y Hy]; [|lia..]. apply Z.mod_divide; [lia|].
  exists (x - r0 / r1 * y). pose proof (Z.div_mod r0 r1 ltac:(lia)).
  replace (r0 mod r1) with (r0 - r1 * (r0 / r1)) by lia. nia.
Qed.

Lemma egcd_gcd fuel r0 s0 r1 s1 : 0 ≤ r1 < r0 → r0 * r1 < 2 ^ Z.of_nat fuel →
  (egcd (S fuel) r0 s0 r1 s1).1 = Z.gcd r0 r1.
Proof using Type.
  revert r0 s0 r1 s1. induction fuel as [|fuel IH]; intros r0 s0 r1 s1 Hr Hp.
  - assert (r1 = 0) as -> by (cbn in Hp; nia). cbn. rewrite Z.gcd_0_r. lia.
  - rewrite egcd_S. destruct (Z.eqb_spec r1 0) as [->|Hr1]; [cbn; rewrite Z.gcd_0_r; lia|].
    pose proof (Z.mod_pos_bound r0 r1 ltac:(lia)) as Hb.
    rewrite IH; [|lia|].
    + by rewrite Z.gcd_comm, Z.gcd_mod, Z.gcd_comm by done.
    + pose proof (Z.div_mod r0 r1 Hr1). assert (1 ≤ r0 / r1) by (apply Z.div_le_lower_bound; lia).
      rewrite Nat2Z.inj_succ, Z.pow_succ_r in Hp by lia. nia.
Qed.

Lemma ModInverse_Some y : ModInverse g n = Some y → 0 ≤ y < n ∧ (g * y) mod n = 1.
Proof using Hn.
  unfold ModInverse. pose proof (egcd_bezout (S (S (Z.to_nat (Z.log2 (n * (g mod n)))))) n 0 (g mod n) 1) as H.
  destruct (egcd _ n 0 (g mod n) 1) as [d s]. destruct (Z.eqb_spec d 1) as [->|]; [|done]. intros [= <-].
  split; [apply Z.mod_pos_bound; lia|].
  assert (Hz : (1 - s * g) mod n = 0).
  { apply H; [by rewrite Z.mul_0_l, Z.sub_0_r, Z.mod_same by lia|].
    rewrite Z.mul_1_l, Zminus_mod_idemp_l, Z.sub_diag. apply Z.mod_0_l. lia. }
  apply Z.mod_divide in Hz as [k Hk]; [|lia].
  rewrite Z.mul_mod_idemp_r by lia. replace (g * s) with (1 + (- k) * n) by lia.
  rewrite Z.mod_add by lia. apply Z.mod_1_l. lia.
Qed.

Lemma ModInverse_None : ModInverse g n = None ↔ Z.gcd g n ≠ 1.
Proof using Hn.
  unfold ModInverse. pose proof (Z.mod_pos_bound g n ltac:(lia)) as Hg.
  pose proof (egcd_gcd (S (Z.to_nat (Z.log2 (n * (g mod n))))) n 0 (g mod n) 1 ltac:(lia)) as H.
  assert (Hg' : Z.gcd n (g mod n) = Z.gcd g n) by (rewrite Z.gcd_comm, Z.gcd_mod by lia; apply Z.gcd_comm).
  rewrite Hg' in H. destruct (egcd _ n 0 (g mod n) 1) as [d s]. cbn [fst] in H. rewrite <- H.
  - destruct (Z.eqb_spec d 1); split; intros ?; done || congruence.
  - rewrite Nat2Z.inj_succ, Z2Nat.id by apply Z.log2_nonneg.
    destruct (Z.eq_dec (n * (g mod n)) 0) as [->|]; [done|]. apply Z.log2_spec. nia.
Qed.

End Correctness.

Lemma ModInverse_prime g n : prime n → (∃ y, ModInverse g n = Some y) ↔ g mod n ≠ 0.
Proof.
  intros Hp. pose proof (prime_ge_2 n Hp). pose proof (ModInverse_None n g ltac:(lia)) as H0.
  assert (Hgcd : Z.gcd g n = 1 ↔ g mod n ≠ 0).
  { rewrite Z.mod_divide by lia. split.
    - intros Hg Hd. apply Z.divide_gcd_iff in Hd; [|lia]. rewrite Z.gcd_comm in Hd. lia.
    - intros Hd. apply Zgcd_1_rel_prime, rel_prime_sym, prime_rel_prime; done. }
  rewrite <- Hgcd. destruct (ModInverse g n) as [y|].
  - split; [|by eexists]. intros _. destruct (Z.eq_dec (Z.gcd g n) 1); [done|]. by apply H0 in n0.
  - split; [by intros [y ?]|]. intros Hg. exfalso. by apply H0.
Qed.
