(* ===== verification/P256Field.v ===== *)
(** * The field of the SM2 curve

    [src/crypto-gm/sm2/p256.go], the arithmetic below the points: an element of
    the field of [P] is nine [uint32] limbs of alternately 29 and 28 bits in
    Montgomery form with [R = 2^257] ([sm2P256FieldElement]).  The model keeps the
    limbs at their width, so that carries, borrows and wrap-around are the code's.

    Properties: addition and subtraction are those of the field and keep the limbs
    within 30 and 29 bits ([sm2P256Add_Sub_correct]); a
    Montgomery product is the product unless a borrow runs out of the limb
    [tmp[i+9]] of [sm2P256ReduceDegree] ([sm2P256Mul_correct]),
    which happens for some elements
    ([sm2P256Mul_wrong]); conversion from and to big integers round-trips
    ([ToBig_FromBig]). *)

From stdpp Require Import base list.
From Stdlib Require Import ZArith Znumtheory Lia.
From S2P Require Import Prelude Common Words Galois.
Local Open Scope Z_scope.

(** ** Data *)

(** [sm2P256FieldElement] is [[9]uint32], [sm2P256LargeFieldElement] is
    [[17]uint64]. *)
Definition sm2P256FieldElement : Type := list Z.
Definition sm2P256LargeFieldElement : Type := list Z.

Definition bottom28Bits : Z := 0xFFFFFFF.
Definition bottom29Bits : Z := 0x1FFFFFFF.

Definition P : Z := 0xFFFFFFFEFFFFFFFFFFFFFFFFFFFFFFFFFFFFFFFF00000000FFFFFFFFFFFFFFFF.
Definition RInverse : Z := 0x7ffffffd80000002fffffffe000000017ffffffe800000037ffffffc80000002.

(** A multiple of [P] whose limbs exceed those of a subtrahend. *)
Definition sm2P256Zero31 : sm2P256FieldElement := [
  0x7ffffff8; 0x3ffffffc; 0x800003fc; 0x3fffdffc; 0x7ffffffc; 0x3ffffffc; 0x7ffffffc; 0x37fffffc; 0x7ffffffc].

Definition sm2P256Carry : list Z := [
  0x0; 0x0; 0x0; 0x0; 0x0; 0x0; 0x0; 0x0; 0x0;
  0x2; 0x0; 0x1fffff00; 0x7ff; 0x0; 0x0; 0x0; 0x2000000; 0x0;
  0x4; 0x0; 0x1ffffe00; 0xfff; 0x0; 0x0; 0x0; 0x4000000; 0x0;
  0x6; 0x0; 0x1ffffd00; 0x17ff; 0x0; 0x0; 0x0; 0x6000000; 0x0;
  0x8; 0x0; 0x1ffffc00; 0x1fff; 0x0; 0x0; 0x0; 0x8000000; 0x0;
  0xa; 0x0; 0x1ffffb00; 0x27ff; 0x0; 0x0; 0x0; 0xa000000; 0x0;
  0xc; 0x0; 0x1ffffa00; 0x2fff; 0x0; 0x0; 0x0; 0xc000000; 0x0;
  0xe; 0x0; 0x1ffff900; 0x37ff; 0x0; 0x0; 0x0; 0xe000000; 0x0].

Definition sm2P256Factor : list sm2P256FieldElement := [
  [0x0; 0x0; 0x0; 0x0; 0x0; 0x0; 0x0; 0x0; 0x0];
  [0x2; 0x0; 0x1fffff00; 0x7ff; 0x0; 0x0; 0x0; 0x2000000; 0x0];
  [0x4; 0x0; 0x1ffffe00; 0xfff; 0x0; 0x0; 0x0; 0x4000000; 0x0];
  [0x6; 0x0; 0x1ffffd00; 0x17ff; 0x0; 0x0; 0x0; 0x6000000; 0x0];
  [0x8; 0x0; 0x1ffffc00; 0x1fff; 0x0; 0x0; 0x0; 0x8000000; 0x0];
  [0xa; 0x0; 0x1ffffb00; 0x27ff; 0x0; 0x0; 0x0; 0xa000000; 0x0];
  [0xc; 0x0; 0x1ffffa00; 0x2fff; 0x0; 0x0; 0x0; 0xc000000; 0x0];
  [0xe; 0x0; 0x1ffff900; 0x37ff; 0x0; 0x0; 0x0; 0xe000000; 0x0];
  [0x10; 0x0; 0x1ffff800; 0x3fff; 0x0; 0x0; 0x0; 0x0; 0x1]].

Definition sub32 (x y : Z) : Z := u32 (x - y).

(** [((x - 1) >> 31) - 1] *)
Definition nonZeroToAllOnes (x : Z) : Z := sub32 (shr32 (sub32 x 1) 31) 1.

(** ** Carries

    Limbs alternate between 29 and 28 bits; [even] tells which comes next. *)
Definition width (even : bool) : Z := if even then 29 else 28.
Definition bottomBits (even : bool) : Z := if even then bottom29Bits else bottom28Bits.

(** [c[i] += carry; carry = c[i] >> w; c[i] &= bottomBits], alternating. *)
Fixpoint carryLoop (even : bool) (xs : list Z) (carry : Z) : list Z * Z :=
  match xs with
  | [] => ([], carry)
  | x :: xs =>
      let c := add32 x carry in
      let '(r, k) := carryLoop (negb even) xs (shr32 c (width even)) in
      (Z.land c (bottomBits even) :: r, k)
  end.

(** [carry] has three bits, so the index is within the table. *)
Definition sm2P256ReduceCarry (a : sm2P256FieldElement) (carry : Z) : sm2P256FieldElement :=
  match a with
  | [a0; a1; a2; a3; a4; a5; a6; a7; a8] =>
      [add32 a0 (at_ sm2P256Carry (carry * 9 + 0)); a1;
       add32 a2 (at_ sm2P256Carry (carry * 9 + 2));
       add32 a3 (at_ sm2P256Carry (carry * 9 + 3)); a4; a5; a6;
       add32 a7 (at_ sm2P256Carry (carry * 9 + 7)); a8]
  | _ => a
  end.

Definition sm2P256Add (a b : sm2P256FieldElement) : sm2P256FieldElement :=
  let '(c, carry) := carryLoop true (zip_with add32 a b) 0 in
  sm2P256ReduceCarry c carry.

Definition sm2P256Sub (a b : sm2P256FieldElement) : sm2P256FieldElement :=
  let '(c, carry) := carryLoop true (zip_with add32 (zip_with sub32 a b) sm2P256Zero31) 0 in
  sm2P256ReduceCarry c carry.

(** ** Reduction

    [sm2P256ReduceDegree]: the 17 double words become 18 limbs ([spread]), nine
    steps add multiples of [P] that clear the nine lowest limbs ([reduceEven] for a
    29-bit limb, [reduceOdd] for a 28-bit one), and the upper nine are carried into
    an element ([collect]).  The steps work on [tmp[i:]] and drop the limb they
    clear. *)
Definition hi (b : Z) : Z := shr32 (u32 (Z.shiftr b 32)) 25.

Definition spreadAt (even : bool) (b2 b1 b0 : Z) : Z :=
  if even then
    add32 (add32 (add32 (hi b2) (shr32 (u32 b1) 28))
                 (Z.land (shl32 (u32 (Z.shiftr b1 32)) 4) bottom29Bits))
          (Z.land (u32 b0) bottom29Bits)
  else
    add32 (add32 (add32 (hi b2) (shr32 (u32 b1) 29))
                 (Z.land (shl32 (u32 (Z.shiftr b1 32)) 3) bottom28Bits))
          (Z.land (u32 b0) bottom28Bits).

(** The sums for [tmp[i]], from [i = 2] on. *)
Fixpoint spreadLoop (even : bool) (b2 b1 : Z) (bs : list Z) : list Z :=
  match bs with
  | [] => []
  | b0 :: bs => spreadAt even b2 b1 b0 :: spreadLoop (negb even) b1 b0 bs
  end.

Definition spread (b : sm2P256LargeFieldElement) : list Z :=
  match b with
  | b0 :: b1 :: bs =>
      let tmp0 := Z.land (u32 b0) bottom29Bits in
      let tmp1 := add32 (Z.lor (shr32 (u32 b0) 29) (Z.land (shl32 (u32 (Z.shiftr b0 32)) 3) bottom28Bits))
                        (Z.land (u32 b1) bottom28Bits) in
      let '(tmp, carry) := carryLoop false (tmp1 :: spreadLoop true b0 b1 bs) 0 in
      let tmp17 := add32 (add32 (add32 (hi (at_ b 15)) (shr32 (u32 (at_ b 16)) 29))
                                (shl32 (u32 (Z.shiftr (at_ b 16) 32)) 3)) carry in
      tmp0 :: tmp ++ [tmp17]
  | _ => []
  end.

(** The limbs [tmp[i+3]] to [tmp[i+9]] of the first half of the loop. *)
Definition evenLow (x xMask t3 : Z) : Z * Z :=
  let t3 := add32 t3 (shr32 x 22) in
  if t3 <? 0x10000000
  then (sub32 (add32 t3 (Z.land 0x10000000 xMask)) (Z.land (shl32 x 10) bottom28Bits), 1)
  else (sub32 t3 (Z.land (shl32 x 10) bottom28Bits), 0).

Definition evenMid (x xMask set4 t4 t5 t6 : Z) : Z * Z * Z * Z :=
  if t4 <? 0x20000000 then
    let t4 := sub32 (sub32 (add32 t4 (Z.land 0x20000000 xMask)) set4) (shr32 x 18) in
    if t5 <? 0x10000000 then
      let t5 := sub32 (add32 t5 (Z.land 0x10000000 xMask)) 1 in
      if t6 <? 0x20000000 then (t4, t5, sub32 (add32 t6 (Z.land 0x20000000 xMask)) 1, 1)
      else (t4, t5, sub32 t6 1, 0)
    else (t4, sub32 t5 1, t6, 0)
  else (sub32 (sub32 t4 set4) (shr32 x 18), t5, t6, 0).

Definition evenHigh (x xMask set7 t7 t8 t9 : Z) : Z * Z * Z :=
  if t7 <? 0x10000000 then
    let t7 := sub32 (sub32 (add32 t7 (Z.land 0x10000000 xMask)) set7) (Z.land (shl32 x 24) bottom28Bits) in
    let t8 := add32 t8 (Z.land (shl32 x 28) bottom29Bits) in
    if t8 <? 0x20000000 then
      (t7, sub32 (sub32 (add32 t8 (Z.land 0x20000000 xMask)) 1) (shr32 x 4),
       add32 t9 (Z.land (sub32 (shr32 x 1) 1) xMask))
    else (t7, sub32 (sub32 t8 1) (shr32 x 4), add32 t9 (Z.land (shr32 x 1) xMask))
  else
    let t7 := sub32 (sub32 t7 set7) (Z.land (shl32 x 24) bottom28Bits) in
    let t8 := add32 t8 (Z.land (shl32 x 28) bottom29Bits) in
    if t8 <? 0x20000000 then
      (t7, sub32 (add32 t8 (Z.land 0x20000000 xMask)) (shr32 x 4),
       add32 t9 (Z.land (sub32 (shr32 x 1) 1) xMask))
    else (t7, sub32 t8 (shr32 x 4), add32 t9 (Z.land (shr32 x 1) xMask)).

Definition reduceEven (t : list Z) : list Z :=
  match t with
  | t0 :: t1 :: t2 :: t3 :: t4 :: t5 :: t6 :: t7 :: t8 :: t9 :: rest =>
      let t1 := add32 t1 (shr32 t0 29) in
      let x := Z.land t0 bottom29Bits in
      if 0 <? x then
        let xMask := nonZeroToAllOnes x in
        let t2 := add32 t2 (Z.land (shl32 x 7) bottom29Bits) in
        let '(t3, set4) := evenLow x xMask t3 in
        let '(t4, t5, t6, set7) := evenMid x xMask set4 t4 t5 t6 in
        let '(t7, t8, t9) := evenHigh x xMask set7 t7 t8 t9 in
        t1 :: t2 :: t3 :: t4 :: t5 :: t6 :: t7 :: t8 :: t9 :: rest
      else t1 :: t2 :: t3 :: t4 :: t5 :: t6 :: t7 :: t8 :: t9 :: rest
  | _ => []
  end.

(** The second half: [t1] is [tmp[i+1]], [t10] is [tmp[i+10]]. *)
Definition oddLow (x xMask t4 : Z) : Z * Z :=
  let t4 := add32 t4 (shr32 x 21) in
  if t4 <? 0x20000000
  then (sub32 (add32 t4 (Z.land 0x20000000 xMask)) (Z.land (shl32 x 11) bottom29Bits), 1)
  else (sub32 t4 (Z.land (shl32 x 11) bottom29Bits), 0).

Definition oddMid (x xMask set5 t5 t6 t7 : Z) : Z * Z * Z * Z :=
  if t5 <? 0x10000000 then
    let t5 := sub32 (sub32 (add32 t5 (Z.land 0x10000000 xMask)) set5) (shr32 x 18) in
    if t6 <? 0x20000000 then
      let t6 := sub32 (add32 t6 (Z.land 0x20000000 xMask)) 1 in
      if t7 <? 0x10000000 then (t5, t6, sub32 (add32 t7 (Z.land 0x10000000 xMask)) 1, 1)
      else (t5, t6, sub32 t7 1, 0)
    else (t5, sub32 t6 1, t7, 0)
  else (sub32 (sub32 t5 set5) (shr32 x 18), t6, t7, 0).

Definition oddHigh (x xMask set8 t8 t9 t10 : Z) : Z * Z * Z :=
  let '(t8, set9) :=
    if t8 <? 0x20000000
    then (sub32 (sub32 (add32 t8 (Z.land 0x20000000 xMask)) set8) (Z.land (shl32 x 25) bottom29Bits), 1)
    else (sub32 (sub32 t8 set8) (Z.land (shl32 x 25) bottom29Bits), 0) in
  if t9 <? 0x10000000
  then (t8, sub32 (sub32 (add32 t9 (Z.land 0x10000000 xMask)) set9) (shr32 x 4),
        add32 t10 (Z.land (sub32 x 1) xMask))
  else (t8, sub32 (sub32 t9 set9) (shr32 x 4), add32 t10 (Z.land x xMask)).

Definition reduceOdd (t : list Z) : list Z :=
  match t with
  | t1 :: t2 :: t3 :: t4 :: t5 :: t6 :: t7 :: t8 :: t9 :: t10 :: rest =>
      let t2 := add32 t2 (shr32 t1 28) in
      let x := Z.land t1 bottom28Bits in
      if 0 <? x then
        let xMask := nonZeroToAllOnes x in
        let t3 := add32 t3 (Z.land (shl32 x 7) bottom28Bits) in
        let '(t4, set5) := oddLow x xMask t4 in
        let '(t5, t6, t7, set8) := oddMid x xMask set5 t5 t6 t7 in
        let '(t8, t9, t10) := oddHigh x xMask set8 t8 t9 t10 in
        t2 :: t3 :: t4 :: t5 :: t6 :: t7 :: t8 :: t9 :: t10 :: rest
      else t2 :: t3 :: t4 :: t5 :: t6 :: t7 :: t8 :: t9 :: t10 :: rest
  | _ => []
  end.

(** [n] halves of the loop, starting with an even one if [even]. *)
Fixpoint reduceLoop (n : nat) (even : bool) (t : list Z) : list Z :=
  match n with
  | O => t
  | S n => reduceLoop n (negb even) (if even then reduceEven t else reduceOdd t)
  end.

(** [tmp[9:]] as the limbs of the result before carrying: [tmp[i+10]] is split
    between the limb that starts a bit lower and its own. *)
Definition collect (t : list Z) : list Z :=
  match t with
  | [t9; t10; t11; t12; t13; t14; t15; t16; t17] =>
      [add32 t9 (Z.land (shl32 t10 28) bottom29Bits); shr32 t10 1;
       add32 t11 (Z.land (shl32 t12 28) bottom29Bits); shr32 t12 1;
       add32 t13 (Z.land (shl32 t14 28) bottom29Bits); shr32 t14 1;
       add32 t15 (Z.land (shl32 t16 28) bottom29Bits); shr32 t16 1; t17]
  | _ => []
  end.

Definition sm2P256ReduceDegree (b : sm2P256LargeFieldElement) : sm2P256FieldElement :=
  let '(a, carry) := carryLoop true (collect (reduceLoop 9 true (spread b))) 0 in
  sm2P256ReduceCarry a carry.

(** ** Products *)

Definition mulLimbs (a b : sm2P256FieldElement) : sm2P256LargeFieldElement :=
  match a, b with
  | [a0; a1; a2; a3; a4; a5; a6; a7; a8], [b0; b1; b2; b3; b4; b5; b6; b7; b8] => [
  u64 (a0 * b0);
  u64 (a0 * Z.shiftl b1 0 + a1 * Z.shiftl b0 0);
  u64 (a0 * Z.shiftl b2 0 + a1 * Z.shiftl b1 1 + a2 * Z.shiftl b0 0);
  u64 (a0 * Z.shiftl b3 0 + a1 * Z.shiftl b2 0 + a2 * Z.shiftl b1 0 + a3 * Z.shiftl b0 0);
  u64 (a0 * Z.shiftl b4 0 + a1 * Z.shiftl b3 1 + a2 * Z.shiftl b2 0 + a3 * Z.shiftl b1 1 +
       a4 * Z.shiftl b0 0);
  u64 (a0 * Z.shiftl b5 0 + a1 * Z.shiftl b4 0 + a2 * Z.shiftl b3 0 + a3 * Z.shiftl b2 0 +
       a4 * Z.shiftl b1 0 + a5 * Z.shiftl b0 0);
  u64 (a0 * Z.shiftl b6 0 + a1 * Z.shiftl b5 1 + a2 * Z.shiftl b4 0 + a3 * Z.shiftl b3 1 +
       a4 * Z.shiftl b2 0 + a5 * Z.shiftl b1 1 + a6 * Z.shiftl b0 0);
  u64 (a0 * Z.shiftl b7 0 + a1 * Z.shiftl b6 0 + a2 * Z.shiftl b5 0 + a3 * Z.shiftl b4 0 +
       a4 * Z.shiftl b3 0 + a5 * Z.shiftl b2 0 + a6 * Z.shiftl b1 0 + a7 * Z.shiftl b0 0);
  u64 (a0 * Z.shiftl b8 0 + a1 * Z.shiftl b7 1 + a2 * Z.shiftl b6 0 + a3 * Z.shiftl b5 1 +
       a4 * Z.shiftl b4 0 + a5 * Z.shiftl b3 1 + a6 * Z.shiftl b2 0 + a7 * Z.shiftl b1 1 +
       a8 * Z.shiftl b0 0);
  u64 (a1 * Z.shiftl b8 0 + a2 * Z.shiftl b7 0 + a3 * Z.shiftl b6 0 + a4 * Z.shiftl b5 0 +
       a5 * Z.shiftl b4 0 + a6 * Z.shiftl b3 0 + a7 * Z.shiftl b2 0 + a8 * Z.shiftl b1 0);
  u64 (a2 * Z.shiftl b8 0 + a3 * Z.shiftl b7 1 + a4 * Z.shiftl b6 0 + a5 * Z.shiftl b5 1 +
       a6 * Z.shiftl b4 0 + a7 * Z.shiftl b3 1 + a8 * Z.shiftl b2 0);
  u64 (a3 * Z.shiftl b8 0 + a4 * Z.shiftl b7 0 + a5 * Z.shiftl b6 0 + a6 * Z.shiftl b5 0 +
       a7 * Z.shiftl b4 0 + a8 * Z.shiftl b3 0);
  u64 (a4 * Z.shiftl b8 0 + a5 * Z.shiftl b7 1 + a6 * Z.shiftl b6 0 + a7 * Z.shiftl b5 1 +
       a8 * Z.shiftl b4 0);
  u64 (a5 * Z.shiftl b8 0 + a6 * Z.shiftl b7 0 + a7 * Z.shiftl b6 0 + a8 * Z.shiftl b5 0);
  u64 (a6 * Z.shiftl b8 0 + a7 * Z.shiftl b7 1 + a8 * Z.shiftl b6 0);
  u64 (a7 * Z.shiftl b8 0 + a8 * Z.shiftl b7 0);
  u64 (a8 * Z.shiftl b8 0)]
  | _, _ => []
  end.

Definition squareLimbs (a : sm2P256FieldElement) : sm2P256LargeFieldElement :=
  match a with
  | [a0; a1; a2; a3; a4; a5; a6; a7; a8] => [
  u64 (a0 * a0);
  u64 (a0 * Z.shiftl a1 1);
  u64 (a0 * Z.shiftl a2 1 + a1 * Z.shiftl a1 1);
  u64 (a0 * Z.shiftl a3 1 + a1 * Z.shiftl a2 1);
  u64 (a0 * Z.shiftl a4 1 + a1 * Z.shiftl a3 2 + a2 * a2);
  u64 (a0 * Z.shiftl a5 1 + a1 * Z.shiftl a4 1 + a2 * Z.shiftl a3 1);
  u64 (a0 * Z.shiftl a6 1 + a1 * Z.shiftl a5 2 + a2 * Z.shiftl a4 1 + a3 * Z.shiftl a3 1);
  u64 (a0 * Z.shiftl a7 1 + a1 * Z.shiftl a6 1 + a2 * Z.shiftl a5 1 + a3 * Z.shiftl a4 1);
  u64 (a0 * Z.shiftl a8 1 + a1 * Z.shiftl a7 2 + a2 * Z.shiftl a6 1 + a3 * Z.shiftl a5 2 +
       a4 * a4);
  u64 (a1 * Z.shiftl a8 1 + a2 * Z.shiftl a7 1 + a3 * Z.shiftl a6 1 + a4 * Z.shiftl a5 1);
  u64 (a2 * Z.shiftl a8 1 + a3 * Z.shiftl a7 2 + a4 * Z.shiftl a6 1 + a5 * Z.shiftl a5 1);
  u64 (a3 * Z.shiftl a8 1 + a4 * Z.shiftl a7 1 + a5 * Z.shiftl a6 1);
  u64 (a4 * Z.shiftl a8 1 + a5 * Z.shiftl a7 2 + a6 * a6);
  u64 (a5 * Z.shiftl a8 1 + a6 * Z.shiftl a7 1);
  u64 (a6 * Z.shiftl a8 1 + a7 * Z.shiftl a7 1);
  u64 (a7 * Z.shiftl a8 1);
  u64 (a8 * a8)]
  | _ => []
  end.

Definition sm2P256Mul (a b : sm2P256FieldElement) : sm2P256FieldElement :=
  sm2P256ReduceDegree (mulLimbs a b).

Definition sm2P256Square (a : sm2P256FieldElement) : sm2P256FieldElement :=
  sm2P256ReduceDegree (squareLimbs a).

(** [sm2P256Scalar(b, a)]: times a small constant. *)
Definition sm2P256Scalar (b : sm2P256FieldElement) (a : Z) : sm2P256FieldElement :=
  sm2P256Mul b (nth (Z.to_nat a) sm2P256Factor []).

(** ** Conversions *)

Fixpoint fromBigLoop (n : nat) (even : bool) (x : Z) : list Z :=
  match n with
  | O => []
  | S n => Z.land (u32 x) (bottomBits even) :: fromBigLoop n (negb even) (Z.shiftr x (width even))
  end.

Definition sm2P256FromBig (a : Z) : sm2P256FieldElement :=
  fromBigLoop 9 true (Z.shiftl a 257 mod P).

(** The limbs as a number, highest first in the code. *)
Fixpoint limbs (even : bool) (l : list Z) : Z :=
  match l with
  | [] => 0
  | x :: l => Z.shiftl (limbs (negb even) l) (width even) + x
  end.

Definition sm2P256ToBig (X : sm2P256FieldElement) : Z := (limbs true X * RInverse) mod P.

(** ** Words *)

Lemma add32_small x y : 0 ≤ x + y < two32 → add32 x y = x + y.
Proof. apply Z.mod_small. Qed.

Lemma sub32_small x y : 0 ≤ x - y < two32 → sub32 x y = x - y.
Proof. apply Z.mod_small. Qed.

Lemma u32_small x : 0 ≤ x < two32 → u32 x = x.
Proof. apply Z.mod_small. Qed.

Lemma land28 x : Z.land x bottom28Bits = x mod 268435456.
Proof. exact (Z.land_ones x 28 ltac:(lia)). Qed.

Lemma land29 x : Z.land x bottom29Bits = x mod 536870912.
Proof. exact (Z.land_ones x 29 ltac:(lia)). Qed.

Lemma land_bottom even x : Z.land x (bottomBits even) = x mod 2 ^ width even.
Proof. destruct even; [apply land29|apply land28]. Qed.

Lemma shr32_div x i : 0 ≤ i → shr32 x i = x / 2 ^ i.
Proof. intros. unfold shr32. by apply Z.shiftr_div_pow2. Qed.

Lemma mod_mod_pow x m n : 0 ≤ m ≤ n → (x mod 2 ^ n) mod 2 ^ m = x mod 2 ^ m.
Proof.
  intros. rewrite <- (Zmod_div_mod (2 ^ m) (2 ^ n) x); [done|apply Z.pow_pos_nonneg; lia..|].
  exists (2 ^ (n - m)). rewrite <- Z.pow_add_r by lia. f_equal. lia.
Qed.

(** A left shift keeps the low bits. *)
Lemma shl_mod x k m : 0 ≤ k ≤ m → m ≤ 32 → shl32 x k mod 2 ^ m = 2 ^ k * (x mod 2 ^ (m - k)).
Proof.
  intros. unfold shl32, u32. change two32 with (2 ^ 32). rewrite mod_mod_pow by lia.
  rewrite Z.shiftl_mul_pow2 by lia. rewrite (Z.mul_comm x).
  replace (2 ^ m) with (2 ^ k * 2 ^ (m - k)) by (rewrite <- Z.pow_add_r by lia; f_equal; lia).
  rewrite Z.mul_mod_distr_l; [done|apply Z.pow_nonzero; lia..].
Qed.

Lemma land_shl28 x k : 0 ≤ k ≤ 28 → Z.land (shl32 x k) bottom28Bits = 2 ^ k * (x mod 2 ^ (28 - k)).
Proof. intros. rewrite land28. apply (shl_mod x k 28); lia. Qed.

Lemma land_shl29 x k : 0 ≤ k ≤ 29 → Z.land (shl32 x k) bottom29Bits = 2 ^ k * (x mod 2 ^ (29 - k)).
Proof. intros. rewrite land29. apply (shl_mod x k 29); lia. Qed.

Lemma nonZeroToAllOnes_spec x :
  0 < x < 2147483648 → nonZeroToAllOnes x = 4294967295.
Proof.
  intros. unfold nonZeroToAllOnes. rewrite (sub32_small x 1) by (unfold two32; lia).
  rewrite shr32_div by lia. change (2 ^ 31) with 2147483648. rewrite Z.div_small by lia. done.
Qed.

Lemma land_allOnes y : 0 ≤ y < two32 → Z.land y 4294967295 = y.
Proof. intros. change 4294967295 with (Z.ones 32). rewrite Z.land_ones by lia. by apply Z.mod_small. Qed.

(** Names the quotient and the remainder of [x] by a power of two. *)
Ltac split_at x n h l :=
  let H := fresh "Hx" in let B := fresh "Bx" in
  pose proof (Z.div_mod x n ltac:(lia)) as H;
  pose proof (Z.mod_pos_bound x n ltac:(lia)) as B;
  set (h := x / n) in *; set (l := x mod n) in *; clearbody h l.

(** Removes the wrap-around where the value is in range. *)
Ltac words := repeat match goal with
  | |- context [add32 ?x ?y] => rewrite (add32_small x y) by (unfold two32; lia)
  | |- context [sub32 ?x ?y] => rewrite (sub32_small x y) by (unfold two32; lia)
  end.

Ltac ltb_case := match goal with |- context [?a <? ?b] => destruct (Z.ltb_spec a b) end.

(** ** Carries *)

Lemma limbs_cons even x l : limbs even (x :: l) = 2 ^ width even * limbs (negb even) l + x.
Proof. cbn [limbs]. rewrite Z.shiftl_mul_pow2 by (by destruct even). lia. Qed.

Fixpoint totalWidth (even : bool) (n : nat) : Z :=
  match n with O => 0 | S n => width even + totalWidth (negb even) n end.

(** Limbs below their width. *)
Fixpoint reduced (even : bool) (l : list Z) : Prop :=
  match l with [] => True | x :: l => 0 ≤ x < 2 ^ width even ∧ reduced (negb even) l end.

Lemma totalWidth_nonneg even n : 0 ≤ totalWidth even n.
Proof. revert even. induction n as [|n IH]; intros even; cbn; [lia|]. specialize (IH (negb even)). destruct even; cbn in *; lia. Qed.

Definition carriable (x : Z) : Prop := 0 ≤ x < 4294967280.

Lemma carryLoop_spec even xs c : Forall carriable xs → 0 ≤ c < 16 →
  ∃ r k, carryLoop even xs c = (r, k) ∧ length r = length xs ∧ reduced even r ∧ 0 ≤ k < 16 ∧
    limbs even r + 2 ^ totalWidth even (length xs) * k = limbs even xs + c.
Proof.
  revert even c. induction xs as [|x xs IH]; intros even c Hxs Hc.
  - exists [], c. cbn [limbs totalWidth length]. split_and!; try done; lia.
  - apply Forall_cons in Hxs as [Hx Hxs]. unfold carriable in Hx. cbn [carryLoop].
    rewrite add32_small by (unfold two32; lia).
    rewrite shr32_div by (by destruct even). rewrite land_bottom.
    assert (Hw : 0 < 2 ^ width even) by (destruct even; done).
    assert (Hk : 0 ≤ (x + c) / 2 ^ width even < 16).
    { split; [apply Z.div_pos; lia|]. apply Z.div_lt_upper_bound; [lia|]. destruct even; cbn; lia. }
    destruct (IH (negb even) _ Hxs Hk) as (r & k & -> & Hl & Hr & Hk' & Hv).
    eexists _, k. split; [done|]. split; [cbn; by rewrite Hl|].
    split; [|split; [done|]].
    + cbn [reduced]. split; [by apply Z.mod_pos_bound|done].
    + rewrite !limbs_cons. cbn [totalWidth length].
      rewrite Z.pow_add_r by first [apply totalWidth_nonneg | by destruct even].
      pose proof (Z.div_mod (x + c) (2 ^ width even) ltac:(lia)).
      generalize dependent (limbs (negb even) r). generalize dependent (limbs (negb even) xs). intros. nia.
Qed.

(** The last limb has 29 bits, so that its carry has three. *)
Lemma carryLoop_carry even xs c : xs ≠ [] → Nat.odd (length xs) = even →
  0 ≤ (carryLoop even xs c).2 < 8.
Proof.
  revert even c. induction xs as [|x xs IH]; intros even c Hne Hodd; [done|].
  cbn [carryLoop]. destruct xs as [|y xs].
  - subst even. cbn [carryLoop snd length]. rewrite shr32_div by done.
    pose proof (u32_range (x + c)) as Hu. unfold is_u32, two32 in Hu. change (add32 x c) with (u32 (x + c)).
    change (2 ^ width (Nat.odd 1)) with 536870912. split; [apply Z.div_pos; lia|]. apply Z.div_lt_upper_bound; lia.
  - specialize (IH (negb even) (shr32 (add32 x c) (width even)) ltac:(done)).
    destruct (carryLoop (negb even) (y :: xs) _) as [r k]. apply IH.
    subst even. change (length (x :: y :: xs)) with (S (length (y :: xs))).
    rewrite Nat.odd_succ, <- Nat.negb_odd. by rewrite negb_involutive.
Qed.

(** ** Elements

    What every operation accepts and returns: nine limbs of at most 30 and 29
    bits. *)
Fixpoint inRange (even : bool) (l : list Z) : Prop :=
  match l with [] => True | x :: l => 0 ≤ x < 2 * 2 ^ width even ∧ inRange (negb even) l end.

Definition element (a : sm2P256FieldElement) : Prop := length a = 9%nat ∧ inRange true a.

Lemma element_inv a : element a → ∃ a0 a1 a2 a3 a4 a5 a6 a7 a8,
  a = [a0; a1; a2; a3; a4; a5; a6; a7; a8] ∧
  0 ≤ a0 < 1073741824 ∧ 0 ≤ a1 < 536870912 ∧ 0 ≤ a2 < 1073741824 ∧ 0 ≤ a3 < 536870912 ∧
  0 ≤ a4 < 1073741824 ∧ 0 ≤ a5 < 536870912 ∧ 0 ≤ a6 < 1073741824 ∧ 0 ≤ a7 < 536870912 ∧
  0 ≤ a8 < 1073741824.
Proof.
  intros [Hl Hr]. do 9 (destruct a as [|? a]; [done|]). destruct a; [|done].
  do 9 eexists. split; [reflexivity|]. cbn in Hr. intuition lia.
Qed.

(** [sm2P256ReduceCarry] replaces [2^257] by the smaller [2^257 - 2P]. *)
Lemma ReduceCarry_spec a k : length a = 9%nat → reduced true a → 0 ≤ k < 8 →
  element (sm2P256ReduceCarry a k) ∧
  limbs true (sm2P256ReduceCarry a k) = limbs true a + k * (2 ^ 257 - 2 * P).
Proof.
  intros Hl Hr Hk. do 9 (destruct a as [|? a]; [done|]). destruct a; [|done]. clear Hl.
  cbn [reduced negb width] in Hr. change (2 ^ 29) with 536870912 in Hr. change (2 ^ 28) with 268435456 in Hr.
  assert (Hc : k = 0 ∨ k = 1 ∨ k = 2 ∨ k = 3 ∨ k = 4 ∨ k = 5 ∨ k = 6 ∨ k = 7) by lia.
  cbn [sm2P256ReduceCarry].
  assert (∃ c0 c2 c3 c7,
    at_ sm2P256Carry (k * 9 + 0) = c0 ∧ at_ sm2P256Carry (k * 9 + 2) = c2 ∧
    at_ sm2P256Carry (k * 9 + 3) = c3 ∧ at_ sm2P256Carry (k * 9 + 7) = c7 ∧
    (0 ≤ c0 < 16 ∧ 0 ≤ c2 < 536870912 ∧ 0 ≤ c3 < 65536 ∧ 0 ≤ c7 < 268435456) ∧
    limbs true [c0; 0; c2; c3; 0; 0; 0; c7; 0] = k * (2 ^ 257 - 2 * P))
    as (c0 & c2 & c3 & c7 & -> & -> & -> & -> & Hb & Hv).
  { do 4 eexists. do 4 (split; [reflexivity|]).
    destruct Hc as [->|[->|[->|[->|[->|[->|[->| ->]]]]]]]; vm_compute; (split; [done|done]). }
  words. split.
  - split; [done|]. cbn [inRange negb width]. change (2 ^ 29) with 536870912. change (2 ^ 28) with 268435456. lia.
  - rewrite <- Hv. rewrite !limbs_cons. cbn [negb width limbs]. lia.
Qed.

(** Carrying and reducing limbs gives an element of the same value modulo [P]. *)
Definition carried (xs : list Z) : sm2P256FieldElement :=
  let '(c, carry) := carryLoop true xs 0 in sm2P256ReduceCarry c carry.

Lemma carried_spec xs : length xs = 9%nat → Forall carriable xs →
  element (carried xs) ∧ ∃ k, limbs true (carried xs) = limbs true xs - k * P.
Proof.
  intros Hl Hxs. unfold carried.
  destruct (carryLoop_spec true xs 0 Hxs ltac:(lia)) as (r & k & Hr & Hlen & Hred & _ & Hv).
  pose proof (carryLoop_carry true xs 0) as Hk. rewrite Hr, Hl in Hk.
  destruct (ReduceCarry_spec r k ltac:(congruence) Hred) as [He Hrv].
  { apply Hk; [by intros ->|done]. }
  rewrite Hr. split; [done|]. exists (2 * k). rewrite Hrv. rewrite Hl in Hv.
  change (totalWidth true 9) with 257 in Hv. lia.
Qed.

(** ** Addition and subtraction *)

Ltac element_cases H :=
  apply element_inv in H as (? & ? & ? & ? & ? & ? & ? & ? & ? & -> & ? & ? & ? & ? & ? & ? & ? & ? & ?).

Lemma sm2P256Add_spec a b : element a → element b →
  element (sm2P256Add a b) ∧ ∃ k, limbs true (sm2P256Add a b) = limbs true a + limbs true b - k * P.
Proof.
  intros Ha Hb. element_cases Ha. element_cases Hb.
  unfold sm2P256Add. cbn [zip_with]. words.
  match goal with |- context [carryLoop true ?l 0] => change (let '(c, carry) := carryLoop true l 0 in _) with (carried l);
    destruct (carried_spec l) as (He & k & Hv); [done| |] end.
  - repeat apply Forall_cons_2; unfold carriable; first [lia|done].
  - split; [done|]. exists k. rewrite Hv. rewrite !limbs_cons. cbn [negb width limbs]. lia.
Qed.

Lemma Zero31_multiple : limbs true sm2P256Zero31 = 8 * P.
Proof. done. Qed.

Lemma add32_sub32 x y z : 0 ≤ x - y + z < two32 → add32 (sub32 x y) z = x - y + z.
Proof. intros. unfold add32, sub32, u32. rewrite Zplus_mod_idemp_l. by apply Z.mod_small. Qed.

Lemma sm2P256Sub_spec a b : element a → element b →
  element (sm2P256Sub a b) ∧ ∃ k, limbs true (sm2P256Sub a b) = limbs true a - limbs true b - k * P.
Proof.
  intros Ha Hb. element_cases Ha. element_cases Hb.
  unfold sm2P256Sub, sm2P256Zero31. cbn [zip_with].
  rewrite !add32_sub32 by (unfold two32; lia).
  match goal with |- context [carryLoop true ?l 0] => change (let '(c, carry) := carryLoop true l 0 in _) with (carried l);
    destruct (carried_spec l) as (He & k & Hv); [done| |] end.
  - repeat apply Forall_cons_2; unfold carriable; first [lia|done].
  - split; [done|]. exists (k - 8). rewrite Hv. pose proof Zero31_multiple as Hz. unfold sm2P256Zero31 in Hz.
    rewrite !limbs_cons in *. cbn [negb width limbs] in *. lia.
Qed.

(** ** The steps of the reduction

    With [x] the limb to clear, a step adds [x * P = x * (2^256 - 2^224 - 2^96 +
    2^64 - 1)], spread over the limbs above. *)

Lemma evenLow_spec x t3 m3 : 0 < x < 536870912 → 0 ≤ t3 ≤ m3 → Z.max (m3 + 127) 536870912 < two32 →
  ∃ t3' s4, evenLow x 4294967295 t3 = (t3', s4) ∧ (s4 = 0 ∨ s4 = 1) ∧
    t3' = t3 + x / 4194304 + 268435456 * s4 - 1024 * (x mod 262144) ∧
    0 ≤ t3' ≤ Z.max (m3 + 127) 536870912.
Proof.
  unfold two32. intros Hx Ht Hm. apply Z.max_lub_lt_iff in Hm as [Hm _]. unfold evenLow. rewrite !land_allOnes by (unfold two32; lia).
  rewrite land_shl28, shr32_div by lia.
  change (2 ^ 22) with 4194304. change (2 ^ (28 - 10)) with 262144. change (2 ^ 10) with 1024.
  split_at x 4194304 h22 l22. split_at x 262144 h18 l18.
  rewrite !(add32_small t3) by (unfold two32; lia).
  ltb_case; do 2 eexists; (split; [reflexivity|]); words; lia.
Qed.

Lemma evenMid_spec x s4 t4 t5 t6 m4 m5 m6 : 0 < x < 536870912 → (s4 = 0 ∨ s4 = 1) →
  0 ≤ t4 ≤ m4 → 0 ≤ t5 ≤ m5 → 0 ≤ t6 ≤ m6 →
  Z.max m4 1073741824 < two32 → Z.max m5 536870912 < two32 → Z.max m6 1073741824 < two32 →
  ∃ t4' t5' t6' s7, evenMid x 4294967295 s4 t4 t5 t6 = (t4', t5', t6', s7) ∧ (s7 = 0 ∨ s7 = 1) ∧
    t4' + 536870912 * t5' + 144115188075855872 * t6' =
      t4 + 536870912 * t5 + 144115188075855872 * t6 - s4 - x / 262144 + 77371252455336267181195264 * s7 ∧
    0 ≤ t4' ≤ Z.max m4 1073741824 ∧ 0 ≤ t5' ≤ Z.max m5 536870912 ∧ 0 ≤ t6' ≤ Z.max m6 1073741824.
Proof.
  unfold two32. intros Hx Hs H4 H5 H6 M4 M5 M6.
  apply Z.max_lub_lt_iff in M4 as [M4 _], M5 as [M5 _], M6 as [M6 _]. unfold evenMid. rewrite !land_allOnes by (unfold two32; lia).
  rewrite shr32_div by lia. change (2 ^ 18) with 262144. split_at x 262144 h18 l18.
  repeat ltb_case; do 4 eexists; (split; [reflexivity|]); words; lia.
Qed.

Lemma evenHigh_spec x s7 t7 t8 t9 m7 m8 m9 : 0 < x < 536870912 → (s7 = 0 ∨ s7 = 1) →
  0 ≤ t7 ≤ m7 → 0 ≤ t8 ≤ m8 → 0 ≤ t9 ≤ m9 →
  Z.max m7 536870912 < two32 → Z.max (m8 + 536870912) 1073741824 < two32 → m9 + 268435456 < two32 →
  (x ≠ 1 ∨ t9 ≠ 0) →
  ∃ t7' t8' t9', evenHigh x 4294967295 s7 t7 t8 t9 = (t7', t8', t9') ∧
    t7' + 268435456 * t8' + 144115188075855872 * t9' =
      t7 + 268435456 * t8 + 144115188075855872 * t9 - s7
      - 16777216 * x + 72057594037927936 * x ∧
    0 ≤ t7' ≤ Z.max m7 536870912 ∧ 0 ≤ t8' ≤ Z.max (m8 + 536870912) 1073741824 ∧ 0 ≤ t9' ≤ m9 + 268435456.
Proof.
  unfold two32. intros Hx Hs H7 H8 H9 M7 M8 M9 Hok.
  apply Z.max_lub_lt_iff in M7 as [M7 _], M8 as [M8 _]. unfold evenHigh.
  rewrite land_shl28, land_shl29, !shr32_div by lia.
  change (2 ^ (28 - 24)) with 16. change (2 ^ (29 - 28)) with 2. change (2 ^ 4) with 16. change (2 ^ 1) with 2.
  change (2 ^ 24) with 16777216. change (2 ^ 28) with 268435456.
  split_at x 16 h4 l4. split_at x 2 h1 l1.
  rewrite (land_allOnes h1) by (unfold two32; lia).
  rewrite !(land_allOnes 268435456), !(land_allOnes 536870912) by (unfold two32; lia).
  destruct (Z.eq_dec h1 0) as [->|].
  - assert (x = 1) as -> by lia. assert (l1 = 1) as -> by lia.
    change (sub32 0 1) with 4294967295. rewrite (land_allOnes 4294967295) by (unfold two32; lia).
    assert (add32 t9 4294967295 = t9 - 1) as ->.
    { unfold add32, u32, two32. replace (t9 + 4294967295) with (t9 - 1 + 1 * 4294967296) by lia.
      rewrite Z.mod_add by lia. apply Z.mod_small. lia. }
    repeat first [rewrite (add32_small t8) by (unfold two32; lia) | ltb_case]; do 3 eexists; (split; [reflexivity|]); words; lia.
  - rewrite (sub32_small h1 1) by (unfold two32; lia). rewrite (land_allOnes (h1 - 1)) by (unfold two32; lia).
    repeat first [rewrite (add32_small t8) by (unfold two32; lia) | ltb_case]; do 3 eexists; (split; [reflexivity|]); words; lia.
Qed.

Lemma oddLow_spec x t4 m4 : 0 < x < 268435456 → 0 ≤ t4 ≤ m4 → Z.max (m4 + 127) 1073741824 < two32 →
  ∃ t4' s5, oddLow x 4294967295 t4 = (t4', s5) ∧ (s5 = 0 ∨ s5 = 1) ∧
    t4' = t4 + x / 2097152 + 536870912 * s5 - 2048 * (x mod 262144) ∧
    0 ≤ t4' ≤ Z.max (m4 + 127) 1073741824.
Proof.
  unfold two32. intros Hx Ht Hm. apply Z.max_lub_lt_iff in Hm as [Hm _]. unfold oddLow. rewrite !land_allOnes by (unfold two32; lia).
  rewrite land_shl29, shr32_div by lia.
  change (2 ^ 21) with 2097152. change (2 ^ (29 - 11)) with 262144. change (2 ^ 11) with 2048.
  split_at x 2097152 h21 l21. split_at x 262144 h18 l18.
  rewrite !(add32_small t4) by (unfold two32; lia).
  ltb_case; do 2 eexists; (split; [reflexivity|]); words; lia.
Qed.

Lemma oddMid_spec x s5 t5 t6 t7 m5 m6 m7 : 0 < x < 268435456 → (s5 = 0 ∨ s5 = 1) →
  0 ≤ t5 ≤ m5 → 0 ≤ t6 ≤ m6 → 0 ≤ t7 ≤ m7 →
  Z.max m5 536870912 < two32 → Z.max m6 1073741824 < two32 → Z.max m7 536870912 < two32 →
  ∃ t5' t6' t7' s8, oddMid x 4294967295 s5 t5 t6 t7 = (t5', t6', t7', s8) ∧ (s8 = 0 ∨ s8 = 1) ∧
    t5' + 268435456 * t6' + 144115188075855872 * t7' =
      t5 + 268435456 * t6 + 144115188075855872 * t7 - s5 - x / 262144 + 38685626227668133590597632 * s8 ∧
    0 ≤ t5' ≤ Z.max m5 536870912 ∧ 0 ≤ t6' ≤ Z.max m6 1073741824 ∧ 0 ≤ t7' ≤ Z.max m7 536870912.
Proof.
  unfold two32. intros Hx Hs H5 H6 H7 M5 M6 M7.
  apply Z.max_lub_lt_iff in M5 as [M5 _], M6 as [M6 _], M7 as [M7 _]. unfold oddMid. rewrite !land_allOnes by (unfold two32; lia).
  rewrite shr32_div by lia. change (2 ^ 18) with 262144. split_at x 262144 h18 l18.
  repeat ltb_case; do 4 eexists; (split; [reflexivity|]); words; lia.
Qed.

Lemma oddHigh_spec x s8 t8 t9 t10 m8 m9 m10 : 0 < x < 268435456 → (s8 = 0 ∨ s8 = 1) →
  0 ≤ t8 ≤ m8 → 0 ≤ t9 ≤ m9 → 0 ≤ t10 ≤ m10 →
  Z.max m8 1073741824 < two32 → Z.max m9 536870912 < two32 → m10 + 268435456 < two32 →
  ∃ t8' t9' t10', oddHigh x 4294967295 s8 t8 t9 t10 = (t8', t9', t10') ∧
    t8' + 536870912 * t9' + 144115188075855872 * t10' =
      t8 + 536870912 * t9 + 144115188075855872 * t10 - s8 - 33554432 * x + 144115188075855872 * x ∧
    0 ≤ t8' ≤ Z.max m8 1073741824 ∧ 0 ≤ t9' ≤ Z.max m9 536870912 ∧ 0 ≤ t10' ≤ m10 + 268435456.
Proof.
  unfold two32. intros Hx Hs H8 H9 H10 M8 M9 M10.
  apply Z.max_lub_lt_iff in M8 as [M8 _], M9 as [M9 _]. unfold oddHigh.
  rewrite land_shl29, !shr32_div, (sub32_small x 1) by (unfold two32; lia).
  rewrite !land_allOnes by (unfold two32; lia).
  change (2 ^ (29 - 25)) with 16. change (2 ^ 4) with 16. change (2 ^ 25) with 33554432.
  split_at x 16 h4 l4.
  repeat ltb_case; do 3 eexists; (split; [reflexivity|]); words; lia.
Qed.

(** Upper bounds of the limbs, and how a step moves them. *)
Definition below (t ms : list Z) : Prop := Forall2 (fun x m => 0 ≤ x ≤ m) t ms.

Definition boundEven (ms : list Z) : list Z :=
  match ms with
  | m0 :: m1 :: m2 :: m3 :: m4 :: m5 :: m6 :: m7 :: m8 :: m9 :: rest =>
      m1 + m0 / 536870912 :: m2 + 536870912 :: Z.max (m3 + 127) 536870912 :: Z.max m4 1073741824
      :: Z.max m5 536870912 :: Z.max m6 1073741824 :: Z.max m7 536870912
      :: Z.max (m8 + 536870912) 1073741824 :: m9 + 268435456 :: rest
  | _ => []
  end.

Definition boundOdd (ms : list Z) : list Z :=
  match ms with
  | m0 :: m1 :: m2 :: m3 :: m4 :: m5 :: m6 :: m7 :: m8 :: m9 :: rest =>
      m1 + m0 / 268435456 :: m2 + 268435456 :: Z.max (m3 + 127) 1073741824 :: Z.max m4 536870912
      :: Z.max m5 1073741824 :: Z.max m6 536870912 :: Z.max m7 1073741824
      :: Z.max m8 536870912 :: m9 + 268435456 :: rest
  | _ => []
  end.

Definition word (m : Z) : Prop := m < two32.

(** The borrow of the last limb of an even step can be taken from it. *)
Definition borrows (t : list Z) : bool :=
  match t with
  | t0 :: _ :: _ :: _ :: _ :: _ :: _ :: _ :: _ :: t9 :: _ =>
      (Z.land t0 bottom29Bits =? 1) && (t9 =? 0)
  | _ => true
  end.

(** Names the first limb and its bound. *)
Tactic Notation "limb" hyp(Hb) ident(t) ident(m) ident(H) :=
  let t' := fresh "ts" in let m' := fresh "ms" in destruct Hb as [|t m t' m' H Hb]; [first [done|cbn [length] in *; lia]|].

Lemma divmod_bound t m n : 0 ≤ t ≤ m → 0 < n → t / n ≤ m / n ∧ 0 ≤ t / n.
Proof. intros. split; [apply Z.div_le_mono; lia|apply Z.div_pos; lia]. Qed.

Lemma reduceEven_spec t ms : borrows t = false → below t ms → Forall word (boundEven ms) →
  below (reduceEven t) (boundEven ms) ∧
  ∃ x, limbs true t + x * P = 536870912 * limbs false (reduceEven t).
Proof.
  intros Hok Hb Hw.
  limb Hb t0 m0 H0. limb Hb t1 m1 H1. limb Hb t2 m2 H2. limb Hb t3 m3 H3. limb Hb t4 m4 H4.
  limb Hb t5 m5 H5. limb Hb t6 m6 H6. limb Hb t7 m7 H7. limb Hb t8 m8 H8. limb Hb t9 m9 H9.
  cbn [boundEven] in *. repeat (apply Forall_cons in Hw as [? Hw]). unfold word in *.
  cbn [borrows] in Hok. cbn [reduceEven]. rewrite (land29 t0), shr32_div in * by lia. change (2 ^ 29) with 536870912.
  pose proof (divmod_bound t0 m0 536870912 H0 ltac:(lia)) as [Hm Hm0].
  split_at t0 536870912 q x. generalize dependent (m0 / 536870912). intros qm Hqm Hm.
  rewrite (add32_small t1) by (clear - H1 Hqm Hm Hm0; lia).
  destruct (Z.ltb_spec 0 x) as [Hpos|Hpos].
  - assert (Hlt : 0 < x < 536870912) by lia.
    rewrite nonZeroToAllOnes_spec, land_shl29 by lia.
    change (2 ^ (29 - 7)) with 4194304. change (2 ^ 7) with 128.
    destruct (evenLow_spec x t3 m3) as (t3' & s4 & -> & Hs4 & Hv3 & Hb3); [done..|].
    destruct (evenMid_spec x s4 t4 t5 t6 m4 m5 m6) as (t4' & t5' & t6' & s7 & -> & Hs7 & Hv4 & Hb4 & Hb5 & Hb6); [done..|].
    destruct (evenHigh_spec x s7 t7 t8 t9 m7 m8 m9) as (t7' & t8' & t9' & -> & Hv7 & Hb7 & Hb8 & Hb9);
      [done..|by apply andb_false_iff in Hok; rewrite !Z.eqb_neq in Hok|].
    clear H3 H4 H5 H6 H7 H8 H9.
    split_at x 4194304 h22 l22. split_at x 262144 h18 l18. rewrite (add32_small t2) by lia.
    split; [repeat (apply Forall2_cons_2; [first [assumption|clear - H1 H2 Hm Hm0 Hx0 Bx0 Bx; lia]|]); done|].
    exists x. rewrite !limbs_cons. cbn [negb width]. match goal with |- context [limbs true ?l] => generalize (limbs true l) end. intros L.
    clear - Hx Hx0 Hx1 Hv3 Hv4 Hv7. unfold P. lia.
  - split; [repeat (apply Forall2_cons_2; [lia|]); done|].
    exists 0. clear - Hx Bx Hpos. rewrite (limbs_cons _ t0), (limbs_cons _ t1), (limbs_cons _ (_ + _)). cbn [negb width]. lia.
Qed.

Lemma reduceOdd_spec t ms : (10 ≤ length t)%nat → below t ms → Forall word (boundOdd ms) →
  below (reduceOdd t) (boundOdd ms) ∧
  ∃ x, limbs false t + x * P = 268435456 * limbs true (reduceOdd t).
Proof.
  intros Hlen Hb Hw.
  limb Hb t0 m0 H0. limb Hb t1 m1 H1. limb Hb t2 m2 H2. limb Hb t3 m3 H3. limb Hb t4 m4 H4.
  limb Hb t5 m5 H5. limb Hb t6 m6 H6. limb Hb t7 m7 H7. limb Hb t8 m8 H8. limb Hb t9 m9 H9.
  cbn [boundOdd] in *. repeat (apply Forall_cons in Hw as [? Hw]). unfold word in *.
  clear Hlen. cbn [reduceOdd]. rewrite (land28 t0), shr32_div by lia. change (2 ^ 28) with 268435456.
  pose proof (divmod_bound t0 m0 268435456 H0 ltac:(lia)) as [Hm Hm0].
  split_at t0 268435456 q x. generalize dependent (m0 / 268435456). intros qm Hqm Hm.
  rewrite (add32_small t1) by (clear - H1 Hqm Hm Hm0; lia).
  destruct (Z.ltb_spec 0 x) as [Hpos|Hpos].
  - assert (Hlt : 0 < x < 268435456) by lia.
    rewrite nonZeroToAllOnes_spec, land_shl28 by lia.
    change (2 ^ (28 - 7)) with 2097152. change (2 ^ 7) with 128.
    destruct (oddLow_spec x t3 m3) as (t3' & s4 & -> & Hs4 & Hv3 & Hb3); [done..|].
    destruct (oddMid_spec x s4 t4 t5 t6 m4 m5 m6) as (t4' & t5' & t6' & s7 & -> & Hs7 & Hv4 & Hb4 & Hb5 & Hb6); [done..|].
    destruct (oddHigh_spec x s7 t7 t8 t9 m7 m8 m9) as (t7' & t8' & t9' & -> & Hv7 & Hb7 & Hb8 & Hb9); [done..|].
    clear H3 H4 H5 H6 H7 H8 H9.
    split_at x 2097152 h21 l21. split_at x 262144 h18 l18. rewrite (add32_small t2) by lia.
    split; [repeat (apply Forall2_cons_2; [first [assumption|clear - H1 H2 Hm Hm0 Hx0 Bx0 Bx; lia]|]); done|].
    exists x. rewrite !limbs_cons. cbn [negb width]. match goal with |- context [limbs false ?l] => generalize (limbs false l) end. intros L.
    clear - Hx Hx0 Hx1 Hv3 Hv4 Hv7. unfold P. lia.
  - split; [repeat (apply Forall2_cons_2; [lia|]); done|].
    exists 0. clear - Hx Bx Hpos. rewrite (limbs_cons _ t0), (limbs_cons _ t1), (limbs_cons _ (_ + _)). cbn [negb width]. lia.
Qed.

(** ** The loop *)

Fixpoint boundLoop (n : nat) (even : bool) (ms : list Z) : list Z :=
  match n with
  | O => ms
  | S n => boundLoop n (negb even) (if even then boundEven ms else boundOdd ms)
  end.

Fixpoint boundsOk (n : nat) (even : bool) (ms : list Z) : bool :=
  match n with
  | O => true
  | S n => let ms' := if even then boundEven ms else boundOdd ms in
           forallb (fun m => m <? two32) ms' && boundsOk n (negb even) ms'
  end.

Lemma forallb_word ms : forallb (fun m => m <? two32) ms = true → Forall word ms.
Proof. rewrite forallb_forall, Forall_forall. intros H x Hx. apply Z.ltb_lt, H. by apply list_elem_of_In. Qed.

(** No even step of the loop takes a borrow from an empty limb. *)
Fixpoint noBorrow (n : nat) (even : bool) (t : list Z) : bool :=
  match n with
  | O => true
  | S n => (negb even || negb (borrows t)) &&
           noBorrow n (negb even) (if even then reduceEven t else reduceOdd t)
  end.

Lemma length_bound (even : bool) ms : (10 ≤ length ms)%nat →
  S (length (if even then boundEven ms else boundOdd ms)) = length ms.
Proof. intros. do 10 (destruct ms as [|? ms]; [cbn in *; lia|]). by destruct even. Qed.

Lemma reduceLoop_spec n even t ms :
  noBorrow n even t = true → (9 + n ≤ length t)%nat → below t ms → boundsOk n even ms = true →
  below (reduceLoop n even t) (boundLoop n even ms) ∧
  ∃ x, limbs even t + x * P = 2 ^ totalWidth even n * limbs (Nat.iter n negb even) (reduceLoop n even t).
Proof.
  revert even t ms. induction n as [|n IH]; intros even t ms Hn Hl Hb Hok.
  - split; [done|]. exists 0. cbn [totalWidth reduceLoop]. rewrite Z.pow_0_r. cbn [Nat.iter nat_rect]. lia.
  - cbn [noBorrow] in Hn. apply andb_prop in Hn as [Hn1 Hn2]. cbn [boundsOk] in Hok.
    apply andb_prop in Hok as [Hw Hok]. apply forallb_word in Hw.
    set (t' := if even then reduceEven t else reduceOdd t) in *.
    assert (Hstep : below t' (if even then boundEven ms else boundOdd ms) ∧
      ∃ x, limbs even t + x * P = 2 ^ width even * limbs (negb even) t').
    { subst t'. destruct even; [apply reduceEven_spec|apply reduceOdd_spec]; try done; [|lia].
      by apply negb_true_iff in Hn1. }
    destruct Hstep as (Hb' & x & Hx).
    pose proof (Forall2_length _ _ _ Hb) as Hl1. pose proof (Forall2_length _ _ _ Hb') as Hl2.
    pose proof (length_bound even ms ltac:(lia)) as Hl3.
    destruct (IH (negb even) t' _ Hn2 ltac:(lia) Hb' Hok) as (Hbl & y & Hy).
    split; [done|]. exists (x + 2 ^ width even * y).
    cbn [totalWidth reduceLoop]. fold t'. rewrite Nat.iter_succ_r.
    rewrite Z.pow_add_r by first [apply totalWidth_nonneg | by destruct even].
    generalize dependent (limbs (Nat.iter n negb (negb even)) (reduceLoop n (negb even) t')). intros L Hy. nia.
Qed.

(** ** Spreading the double words *)

Lemma lor_disjoint a c k : 0 ≤ k → 0 ≤ a < 2 ^ k → Z.lor a (2 ^ k * c) = a + 2 ^ k * c.
Proof.
  intros Hk Ha. rewrite Z.mul_comm, <- Z.shiftl_mul_pow2 by done.
  assert (Hl : Z.land a (Z.shiftl c k) = 0).
  { apply Z.bits_inj'. intros n Hn. rewrite Z.land_spec, Z.bits_0, Z.shiftl_spec by done.
    destruct (Z.ltb_spec n k).
    - rewrite (Z.testbit_neg_r c) by lia. apply andb_false_r.
    - destruct (Z.eq_dec a 0) as [->|]; [by rewrite Z.bits_0|].
      rewrite (Z.bits_above_log2 a); [done|lia|]. 
      enough (Z.log2 a < k) by lia. apply Z.log2_lt_pow2; lia. }
  pose proof (Z.add_lor_land a (Z.shiftl c k)). lia.
Qed.

(** The three parts of a double word: for its limb, the next and the one after. *)
Definition lo (even : bool) (b : Z) : Z := Z.land (u32 b) (bottomBits even).
Definition mid (even : bool) (b : Z) : Z :=
  if even then shr32 (u32 b) 29 + Z.land (shl32 (u32 (Z.shiftr b 32)) 3) bottom28Bits
  else shr32 (u32 b) 28 + Z.land (shl32 (u32 (Z.shiftr b 32)) 4) bottom29Bits.

Lemma split_word even b : 0 ≤ b < two64 →
  b = lo even b + 2 ^ width even * mid even b + 144115188075855872 * hi b ∧
  0 ≤ lo even b < 2 ^ width even ∧ 0 ≤ mid even b < 2 ^ width (negb even) ∧ 0 ≤ hi b < 128 ∧
  0 ≤ shr32 (u32 b) 29 < 8 ∧ u32 (Z.shiftr b 32) = b / 4294967296 ∧ 0 ≤ b / 4294967296 < 4294967296 ∧
  shr32 (u32 b) 29 + 8 * (b / 4294967296) = b / 536870912.
Proof.
  unfold two64. intros Hb. unfold lo, mid, hi. rewrite land_bottom. rewrite Z.shiftr_div_pow2 by lia.
  rewrite !shr32_div, land_shl28, land_shl29 by lia.
  change (2 ^ 32) with 4294967296. change (2 ^ 29) with 536870912. change (2 ^ 28) with 268435456.
  change (2 ^ 25) with 33554432. change (2 ^ (28 - 3)) with 33554432. change (2 ^ (29 - 4)) with 33554432.
  change (2 ^ 3) with 8. change (2 ^ 4) with 16.
  assert (Hd : b / 536870912 = 8 * (b / 4294967296) + b mod 4294967296 / 536870912).
  { pose proof (Z.div_mod b 4294967296 ltac:(lia)) as E. rewrite E at 1.
    replace (4294967296 * (b / 4294967296) + b mod 4294967296)
      with (b mod 4294967296 + (8 * (b / 4294967296)) * 536870912) by lia.
    rewrite Z.div_add by lia. lia. }
  rewrite Hd. unfold u32, two32. rewrite (Z.mod_small (b / 4294967296)) by (split; [apply Z.div_pos|apply Z.div_lt_upper_bound]; lia).
  split_at b 4294967296 H L. split_at H 33554432 h7 h25.
  destruct even; cbn [negb width]; change (2 ^ 29) with 536870912; change (2 ^ 28) with 268435456.
  - split_at L 536870912 q r. clear Hd. lia.
  - split_at L 268435456 q r. split_at L 536870912 q' r'. clear Hd. lia.
Qed.

Lemma spreadAt_sum even b2 b1 b0 : 0 ≤ b2 < two64 → 0 ≤ b1 < two64 → 0 ≤ b0 < two64 →
  spreadAt even b2 b1 b0 = hi b2 + mid (negb even) b1 + lo even b0.
Proof.
  intros H2 H1 H0.
  destruct (split_word even b2 H2) as (_ & _ & _ & ? & _).
  destruct (split_word even b0 H0) as (_ & ? & _).
  destruct (split_word (negb even) b1 H1) as (_ & _ & Hm & _).
  unfold spreadAt. destruct even; cbn [negb] in *; unfold lo, mid in *; cbn [bottomBits] in *;
    change (2 ^ width true) with 536870912 in *; change (2 ^ width false) with 268435456 in *.
  - assert (0 ≤ shr32 (u32 b1) 28) by (apply Z.shiftr_nonneg, Z.mod_pos_bound; done).
    assert (0 ≤ Z.land (shl32 (u32 (Z.shiftr b1 32)) 4) bottom29Bits) by (apply Z.land_nonneg; by right).
    words. lia.
  - assert (0 ≤ shr32 (u32 b1) 29) by (apply Z.shiftr_nonneg, Z.mod_pos_bound; done).
    assert (0 ≤ Z.land (shl32 (u32 (Z.shiftr b1 32)) 3) bottom28Bits) by (apply Z.land_nonneg; by right).
    words. lia.
Qed.

Lemma limbs_snoc even l x : limbs even (l ++ [x]) = limbs even l + 2 ^ totalWidth even (length l) * x.
Proof.
  revert even. induction l as [|y l IH]; intros even; cbn [app length totalWidth].
  - rewrite limbs_cons. cbn [limbs]. rewrite Z.pow_0_r. lia.
  - rewrite !limbs_cons, IH. rewrite Z.pow_add_r by first [apply totalWidth_nonneg | by destruct even]. lia.
Qed.

(** The largest reduced limbs. *)
Fixpoint maxes (even : bool) (n : nat) : list Z :=
  match n with O => [] | S n => 2 ^ width even - 1 :: maxes (negb even) n end.

Lemma reduced_below even l : reduced even l → below l (maxes even (length l)).
Proof.
  revert even. induction l as [|x l IH]; intros even Hr; cbn [maxes length]; [constructor|].
  destruct Hr as [Hx Hr]. apply Forall2_cons_2; [lia|by apply IH].
Qed.

Definition spreadBounds : list Z := 536870911 :: maxes false 16 ++ [2147483848].

Definition dword (b : Z) : Prop := 0 ≤ b < two64.

Lemma word_div b : dword b → b / 536870912 = mid true b + 268435456 * hi b.
Proof.
  intros Hb. destruct (split_word true b Hb) as (E & Hlo & _).
  change (2 ^ width true) with 536870912 in *. symmetry. apply (Z.div_unique _ _ _ (lo true b)); lia.
Qed.

Lemma word_parts even b : dword b → ∃ l m h, lo even b = l ∧ mid even b = m ∧ hi b = h ∧
  b = l + 2 ^ width even * m + 144115188075855872 * h ∧
  0 ≤ l < 536870912 ∧ 0 ≤ m < 536870912 ∧ 0 ≤ h < 128.
Proof.
  intros Hb. destruct (split_word even b Hb) as (E & Hl & Hm & Hh & _).
  do 3 eexists. do 3 (split; [reflexivity|]). split; [done|].
  destruct even; cbn [negb] in *; change (2 ^ width true) with 536870912 in *;
    change (2 ^ width false) with 268435456 in *; lia.
Qed.

(** Replaces the double word [b] by its three parts. *)
Tactic Notation "open_word" constr(even) hyp(b) :=
  let El := fresh "El" in let Em := fresh "Em" in let Eh := fresh "Eh" in let E := fresh "E" in
  destruct (word_parts even b ltac:(assumption)) as (? & ? & ? & El & Em & Eh & E & ? & ? & ?);
  rewrite ?El, ?Em, ?Eh; clear El Em Eh; rewrite ?E; clear E.

(** The sums of [spread], with their carries still inside. *)
Lemma spread_sums b0 b1 bs : dword b0 → dword b1 → Forall dword bs → length bs = 15%nat →
  let xs := (mid true b0 + lo false b1) :: spreadLoop true b0 b1 bs in
  Forall carriable xs ∧ length xs = 16%nat ∧
  lo true b0 + 536870912 * (limbs false xs + 2 ^ 456 * (hi (nth 13 bs 0) + nth 14 bs 0 / 536870912))
    = limbs true (b0 :: b1 :: bs).
Proof.
  intros H0 H1 Hbs Hl. do 15 (destruct bs as [|? bs]; [done|]). destruct bs; [|done]. clear Hl. intros xs. subst xs.
  repeat (apply Forall_cons in Hbs as [? Hbs]). clear Hbs. cbn [spreadLoop negb nth].
  rewrite !spreadAt_sum by done. cbn [negb].
  rewrite word_div by done.
  open_word true b0. open_word false b1. open_word true z. open_word false z0. open_word true z1.
  open_word false z2. open_word true z3. open_word false z4. open_word true z5. open_word false z6.
  open_word true z7. open_word false z8. open_word true z9. open_word false z10. open_word true z11.
  open_word false z12. open_word true z13.
  split; [|split; [done|]].
  - repeat (apply Forall_cons_2; [unfold carriable; lia|]). done.
  - rewrite !limbs_cons. cbn [negb width limbs]. ring.
Qed.

Lemma spread_spec b : length b = 17%nat → Forall dword b → at_ b 16 < 1152921504606846976 →
  limbs true (spread b) = limbs true b ∧ below (spread b) spreadBounds.
Proof.
  intros Hl Hb Htop. destruct b as [|b0 [|b1 bs]]; [done..|].
  apply Forall_cons in Hb as [H0 Hb]. apply Forall_cons in Hb as [H1 Hbs].
  assert (Hlb : length bs = 15%nat) by (cbn in Hl; lia).
  destruct (spread_sums b0 b1 bs H0 H1 Hbs Hlb) as (Hc & Hlx & Hv).
  destruct (split_word true b0 H0) as (_ & Hlo0 & Hmid0 & _ & Hs & Hu & Hd & _).
  destruct (split_word false b1 H1) as (_ & Hlo1 & _).
  change (at_ (b0 :: b1 :: bs) 16) with (nth 14 bs 0) in Htop.
  cbn [spread]. change (at_ (b0 :: b1 :: bs) 15) with (nth 13 bs 0).
  change (at_ (b0 :: b1 :: bs) 16) with (nth 14 bs 0).
  assert (H15 : dword (nth 13 bs 0)) by (apply (proj1 (Forall_forall _ _) Hbs), list_elem_of_In, nth_In; lia).
  assert (H16 : dword (nth 14 bs 0)) by (apply (proj1 (Forall_forall _ _) Hbs), list_elem_of_In, nth_In; lia).
  rewrite Hu, land_shl28 by lia. rewrite (lor_disjoint _ _ 3) by (change (2 ^ 3) with 8; lia).
  rewrite <- land_shl28, <- Hu by lia.
  change (shr32 (u32 b0) 29 + Z.land (shl32 (u32 (Z.shiftr b0 32)) 3) bottom28Bits) with (mid true b0).
  change (Z.land (u32 b1) bottom28Bits) with (lo false b1).
  cbn [negb] in *. change (2 ^ width true) with 536870912 in *. change (2 ^ width false) with 268435456 in *.
  rewrite add32_small by (unfold two32; lia).
  destruct (carryLoop_spec false _ 0 Hc ltac:(lia)) as (r & k & -> & Hlr & Hr & Hk & Hrv).
  rewrite Hlx in *. change (totalWidth false 16) with 456 in Hrv.
  destruct (split_word true (nth 14 bs 0) H16) as (_ & _ & _ & _ & Hs16 & Hu16 & Hd16 & Hdiv).
  destruct (split_word true (nth 13 bs 0) H15) as (_ & _ & _ & Hh15 & _).
  rewrite Hu16.
  assert (Htop' : nth 14 bs 0 / 4294967296 < 268435456) by (apply Z.div_lt_upper_bound; lia).
  replace (shl32 (nth 14 bs 0 / 4294967296) 3) with (8 * (nth 14 bs 0 / 4294967296)).
  2:{ unfold shl32. rewrite Z.shiftl_mul_pow2 by lia. rewrite u32_small by (unfold two32; lia). lia. }
  words. rewrite <- Z.add_assoc in *. rewrite <- Hdiv in Hv.
  split.
  - rewrite limbs_cons, limbs_snoc, Hlr. cbn [negb].
    change (2 ^ totalWidth false 16) with (2 ^ 456). change (2 ^ width true) with 536870912.
    change (Z.land (u32 b0) bottom29Bits) with (lo true b0). rewrite <- Hv.
    match type of Hrv with _ = ?X + 0 => replace X with (limbs false r + 2 ^ 456 * k) by lia end. ring.
  - unfold spreadBounds, below. apply Forall2_cons_2; [unfold lo in Hlo0; cbn [bottomBits] in Hlo0; lia|].
    apply Forall2_app; [|apply Forall2_cons_2; [lia|done]].
    rewrite <- Hlr. by apply reduced_below.
Qed.

Lemma loop_bounds : boundsOk 9 true spreadBounds = true.
Proof. vm_compute. reflexivity. Qed.

(** The upper nine limbs become an element's, a bit of every second one going down. *)
Lemma collect_spec t : length t = 9%nat → below t (boundLoop 9 true spreadBounds) →
  length (collect t) = 9%nat ∧ Forall carriable (collect t) ∧ limbs true (collect t) = limbs false t.
Proof.
  intros Hl Hb. vm_compute boundLoop in Hb.
  do 9 (destruct t as [|? t]; [done|]). destruct t; [|done]. clear Hl.
  repeat (apply Forall2_cons in Hb as [? Hb]). cbn [collect].
  rewrite !land_shl29, !shr32_div by lia. change (2 ^ (29 - 28)) with 2. change (2 ^ 28) with 268435456. change (2 ^ 1) with 2.
  split_at z0 2 h0 l0. split_at z2 2 h2 l2. split_at z4 2 h4 l4. split_at z6 2 h6 l6.
  words. split; [done|]. split.
  - repeat (apply Forall_cons_2; [unfold carriable; lia|]). done.
  - rewrite !limbs_cons. cbn [negb width limbs]. lia.
Qed.

(** The reduction divides by [R = 2^257] modulo [P], when no borrow is lost. *)
Lemma ReduceDegree_spec b : length b = 17%nat → Forall dword b → at_ b 16 < 1152921504606846976 →
  noBorrow 9 true (spread b) = true →
  element (sm2P256ReduceDegree b) ∧ ∃ k, 2 ^ 257 * limbs true (sm2P256ReduceDegree b) = limbs true b + k * P.
Proof.
  intros Hl Hb Htop Hn. destruct (spread_spec b Hl Hb Htop) as [Hv Hbs].
  destruct (reduceLoop_spec 9 true (spread b) spreadBounds Hn) as (Hbl & x & Hx); [|done|apply loop_bounds|].
  { by rewrite (Forall2_length _ _ _ Hbs). }
  destruct (collect_spec (reduceLoop 9 true (spread b))) as (Hlc & Hc & Hvc); [by rewrite (Forall2_length _ _ _ Hbl)|done|].
  destruct (carried_spec _ Hlc Hc) as (He & k & Hk).
  unfold sm2P256ReduceDegree. fold (carried (collect (reduceLoop 9 true (spread b)))).
  split; [done|]. exists (x - 2 ^ 257 * k). rewrite Hk, Hvc, <- Hv.
  change (totalWidth true 9) with 257 in Hx. change (Nat.iter 9 negb true) with false in Hx. lia.
Qed.

(** ** Products *)

Lemma ub_add x y m n : 0 ≤ x ≤ m → 0 ≤ y ≤ n → 0 ≤ x + y ≤ m + n.
Proof. lia. Qed.

Lemma ub_mul x y m n : 0 ≤ x ≤ m → 0 ≤ y ≤ n → 0 ≤ x * y ≤ m * n.
Proof. intros. split; [lia|]. apply Z.mul_le_mono_nonneg; lia. Qed.

Lemma ub_shiftl x m k : 0 ≤ x ≤ m → 0 ≤ Z.shiftl x k ≤ Z.shiftl m k.
Proof.
  intros. split; [by apply Z.shiftl_nonneg; lia|]. destruct (Z.le_gt_cases 0 k).
  - rewrite !Z.shiftl_mul_pow2 by done. apply Z.mul_le_mono_nonneg_r; [apply Z.pow_nonneg|]; lia.
  - rewrite <- (Z.opp_involutive k), !Z.shiftl_opp_r. rewrite !Z.shiftr_div_pow2 by lia. apply Z.div_le_mono; [apply Z.pow_pos_nonneg|]; lia.
Qed.

Lemma ub_u64 x m : 0 ≤ x ≤ m → (m <? two64) = true → u64 x = x ∧ dword x.
Proof. intros Hx Hm. apply Z.ltb_lt in Hm. assert (dword x) by (unfold dword; lia). split; [by apply u64_small|done]. Qed.

(** Bounds a sum of products of limbs from the bounds of the limbs. *)
Ltac ub := lazymatch goal with
  | |- 0 ≤ _ + _ ≤ _ => apply ub_add; ub
  | |- 0 ≤ _ * _ ≤ _ => apply ub_mul; ub
  | |- 0 ≤ Z.shiftl _ _ ≤ _ => apply ub_shiftl; ub
  | H : 0 ≤ ?x < ?m |- 0 ≤ ?x ≤ _ => exact (conj (proj1 H) (Z.lt_le_incl _ _ (proj2 H)))
  end.

Ltac dwords := repeat match goal with
  | |- context [u64 ?x] => let H := fresh in
      assert (H : u64 x = x ∧ dword x) by (eapply ub_u64; [ub|vm_compute; reflexivity]);
      rewrite (proj1 H); apply proj2 in H
  end.

Definition product (n : Z) (b : sm2P256LargeFieldElement) : Prop :=
  length b = 17%nat ∧ Forall dword b ∧ at_ b 16 < 1152921504606846976 ∧ limbs true b = n.

Lemma mulLimbs_spec a b : element a → element b → product (limbs true a * limbs true b) (mulLimbs a b).
Proof.
  intros Ha Hb. element_cases Ha. element_cases Hb. cbn [mulLimbs]. dwords.
  split; [done|]. split; [by repeat apply Forall_cons_2|]. split.
  - unfold at_. change (Z.to_nat 16) with 16%nat. cbn [nth]. rewrite Z.shiftl_0_r. nia.
  - rewrite !limbs_cons, !Z.shiftl_mul_pow2 by lia. cbn [negb width limbs]. ring.
Qed.

Lemma squareLimbs_spec a : element a → product (limbs true a * limbs true a) (squareLimbs a).
Proof.
  intros Ha. element_cases Ha. cbn [squareLimbs]. dwords.
  split; [done|]. split; [by repeat apply Forall_cons_2|]. split.
  - unfold at_. change (Z.to_nat 16) with 16%nat. cbn [nth]. nia.
  - rewrite !limbs_cons, !Z.shiftl_mul_pow2 by lia. cbn [negb width limbs]. ring.
Qed.

(** The number an element stands for. *)
Lemma ToBig_of_limbs X n k : limbs true X = n + k * P → sm2P256ToBig X = (n * RInverse) mod P.
Proof.
  intros H. unfold sm2P256ToBig. rewrite H, Z.mul_add_distr_r.
  replace (k * P * RInverse) with (k * RInverse * P) by ring. by apply Z.mod_add.
Qed.

Lemma R_RInverse : (2 ^ 257 * RInverse) mod P = 1.
Proof. done. Qed.

Lemma ToBig_divided X n k : 2 ^ 257 * limbs true X = n + k * P →
  sm2P256ToBig X = (n * RInverse * RInverse) mod P.
Proof.
  intros H. unfold sm2P256ToBig.
  transitivity ((limbs true X * RInverse * (2 ^ 257 * RInverse)) mod P).
  { by rewrite <- (Z.mul_mod_idemp_r _ (2 ^ 257 * RInverse)), R_RInverse, Z.mul_1_r. }
  replace (limbs true X * RInverse * (2 ^ 257 * RInverse)) with (2 ^ 257 * limbs true X * RInverse * RInverse) by ring.
  rewrite H. replace ((n + k * P) * RInverse * RInverse) with (n * RInverse * RInverse + k * RInverse * RInverse * P) by ring.
  by apply Z.mod_add.
Qed.

Lemma ReduceDegree_product b n : product n b → noBorrow 9 true (spread b) = true →
  element (sm2P256ReduceDegree b) ∧ sm2P256ToBig (sm2P256ReduceDegree b) = (n * RInverse * RInverse) mod P.
Proof.
  intros (Hl & Hd & Ht & Hv) Hn. destruct (ReduceDegree_spec b Hl Hd Ht Hn) as (He & k & Hk).
  split; [done|]. rewrite Hv in Hk. by apply (ToBig_divided _ _ k).
Qed.

Lemma fromBigLoop_limbs n even x : 0 ≤ x < 2 ^ totalWidth even n →
  limbs even (fromBigLoop n even x) = x ∧ reduced even (fromBigLoop n even x) ∧
  length (fromBigLoop n even x) = n.
Proof.
  revert even x. induction n as [|n IH]; intros even x Hx; cbn [fromBigLoop totalWidth] in *.
  - rewrite Z.pow_0_r in Hx. split; [cbn; lia|done].
  - rewrite Z.pow_add_r in Hx by first [apply totalWidth_nonneg | by destruct even].
    assert (Hw : 0 < 2 ^ width even) by (by destruct even).
    destruct (IH (negb even) (Z.shiftr x (width even))) as (Hv & Hr & Hl).
    { rewrite Z.shiftr_div_pow2 by (by destruct even). split; [apply Z.div_pos; lia|]. apply Z.div_lt_upper_bound; lia. }
    rewrite limbs_cons, land_bottom. unfold u32. change two32 with (2 ^ 32).
    rewrite mod_mod_pow by (by destruct even). split; [|split].
    + rewrite Hv, Z.shiftr_div_pow2 by (by destruct even). symmetry. apply Z.div_mod. lia.
    + split; [by apply Z.mod_pos_bound|done].
    + cbn. by rewrite Hl.
Qed.

Lemma reduced_inRange even l : reduced even l → inRange even l.
Proof. revert even. induction l as [|x l IH]; intros even; [done|]. intros [Hx Hl]. split; [lia|by apply IH]. Qed.

Lemma FromBig_spec a : element (sm2P256FromBig a) ∧ limbs true (sm2P256FromBig a) = Z.shiftl a 257 mod P.
Proof.
  destruct (fromBigLoop_limbs 9 true (Z.shiftl a 257 mod P)) as (Hv & Hr & Hl).
  { pose proof (Z.mod_pos_bound (Z.shiftl a 257) P ltac:(done)). change (2 ^ totalWidth true 9) with (2 ^ 257). unfold P in *. lia. }
  split; [|done]. split; [done|by apply reduced_inRange].
Qed.

Lemma ToBig_FromBig a : sm2P256ToBig (sm2P256FromBig a) = a mod P.
Proof.
  unfold sm2P256ToBig. rewrite (proj2 (FromBig_spec a)), Z.mul_mod_idemp_l by done.
  rewrite Z.shiftl_mul_pow2, <- Z.mul_assoc by lia.
  rewrite <- Z.mul_mod_idemp_r, R_RInverse by done. by rewrite Z.mul_1_r.
Qed.

(** ** Main properties *)

(** Addition and subtraction of the field: on elements (nine limbs of at most 30
    and 29 bits), [sm2P256Add] and [sm2P256Sub] return elements, no carry is lost,
    and the numbers they stand for are the sum and the difference modulo [P]. *)
Theorem sm2P256Add_Sub_correct a b : element a → element b →
  (element (sm2P256Add a b) ∧ sm2P256ToBig (sm2P256Add a b) = (sm2P256ToBig a + sm2P256ToBig b) mod P) ∧
  (element (sm2P256Sub a b) ∧ sm2P256ToBig (sm2P256Sub a b) = (sm2P256ToBig a - sm2P256ToBig b) mod P).
Proof.
  intros Ha Hb. destruct (sm2P256Add_spec a b Ha Hb) as (He & k & Hk).
  destruct (sm2P256Sub_spec a b Ha Hb) as (He' & k' & Hk'). split; (split; [done|]).
  - rewrite (ToBig_of_limbs _ (limbs true a + limbs true b) (- k)) by lia.
    unfold sm2P256ToBig. rewrite <- Zplus_mod. f_equal. ring.
  - rewrite (ToBig_of_limbs _ (limbs true a - limbs true b) (- k')) by lia.
    unfold sm2P256ToBig. rewrite <- Zminus_mod. f_equal. ring.
Qed.

(** C23. Montgomery multiplication and squaring: on elements no product overflows 64
    bits and no limb overflows 32, and if no borrow is taken from an empty limb in
    [sm2P256ReduceDegree] the result is an element that stands for the product
    modulo [P]. *)
Theorem sm2P256Mul_correct a b : element a → element b →
  (noBorrow 9 true (spread (mulLimbs a b)) = true →
   element (sm2P256Mul a b) ∧ sm2P256ToBig (sm2P256Mul a b) = (sm2P256ToBig a * sm2P256ToBig b) mod P) ∧
  (noBorrow 9 true (spread (squareLimbs a)) = true →
   element (sm2P256Square a) ∧ sm2P256ToBig (sm2P256Square a) = (sm2P256ToBig a * sm2P256ToBig a) mod P).
Proof.
  intros Ha Hb. split; intros Hn.
  - destruct (ReduceDegree_product _ _ (mulLimbs_spec a b Ha Hb) Hn) as (He & Hv). split; [done|].
    unfold sm2P256Mul. rewrite Hv. unfold sm2P256ToBig. rewrite <- Zmult_mod. f_equal. ring.
  - destruct (ReduceDegree_product _ _ (squareLimbs_spec a Ha) Hn) as (He & Hv). split; [done|].
    unfold sm2P256Square. rewrite Hv. unfold sm2P256ToBig. rewrite <- Zmult_mod. f_equal. ring.
Qed.

(** A borrow can be lost: there are two field elements, as [sm2P256FromBig]
    produces them, whose [sm2P256Mul] does not stand for their product modulo [P]. *)
Theorem sm2P256Mul_wrong : ∃ x y, 0 ≤ x < P ∧ 0 ≤ y < P ∧
  sm2P256ToBig (sm2P256Mul (sm2P256FromBig x) (sm2P256FromBig y)) ≠ (x * y) mod P.
Proof.
  exists (sm2P256ToBig [0; 0; 0; 0; 0; 0; 1; 0; 0]), (sm2P256ToBig [1; 0; 1; 0; 0; 0; 0; 0; 1]).
  vm_compute. split_and!; done.
Qed.

Definition exA : sm2P256FieldElement := sm2P256FromBig 0x32C4AE2C1F1981195F9904466A39C9948FE30BBFF2660BE1715A4589334C74C7.
Definition exB : sm2P256FieldElement := sm2P256FromBig 0xBC3736A2F4F6779C59BDCEE36B692153D0A9877CC62A474002DF32E52139F0A0.

Lemma exA_element : element exA.
Proof. apply FromBig_spec. Qed.

Lemma exB_element : element exB.
Proof. apply FromBig_spec. Qed.

Lemma sm2P256Add_Sub_correct_witness : element exA ∧ element exB ∧
  sm2P256ToBig (sm2P256Add exA exB) = (sm2P256ToBig exA + sm2P256ToBig exB) mod P.
Proof.
  split; [exact exA_element|]. split; [exact exB_element|].
  exact (proj2 (proj1 (sm2P256Add_Sub_correct exA exB exA_element exB_element))).
Defined.

Lemma sm2P256Mul_correct_witness : noBorrow 9 true (spread (mulLimbs exA exB)) = true ∧
  sm2P256ToBig (sm2P256Mul exA exB) = (sm2P256ToBig exA * sm2P256ToBig exB) mod P.
Proof.
  assert (H : noBorrow 9 true (spread (mulLimbs exA exB)) = true) by (vm_compute; reflexivity).
  split; [exact H|].
  exact (proj2 (proj1 (sm2P256Mul_correct exA exB exA_element exB_element) H)).
Defined.
