(* ===== verification/P256Curve.v ===== *)
(** * Points of the SM2 curve

    [src/crypto-gm/sm2/p256.go], the point formulas in Jacobian coordinates, scalar
    multiplication and the methods of [elliptic.Curve] built on them.  The formulas
    are written once over the operations of a field ([FieldOps]); the code runs them
    on limbs ([limbOps]), and what they compute is stated for any field
    ([Theory]).

    Properties: doubling, mixed and general addition are the tangent and chord
    constructions on every branch but one, the addition of a point to itself, which
    gives the point at infinity ([Jacobian_group_law], [PointAdd_same_point]); the
    constant-time selections are table lookups ([SelectJacobianPoint_lookup]);
    [sm2P256ScalarMult] is the plain windowed method without masks
    ([ScalarMult_windowed]); because of the lost borrow of [sm2P256ReduceDegree] a point
    of the curve can fail [IsOnCurve] ([IsOnCurve_incomplete]). *)

From stdpp Require Import base list.
From Stdlib Require Import ZArith Lia Field QArith Qcanon.
From S2P Require Import Prelude Common Words Galois RlpEncode P256Field BigInt.
Local Open Scope Z_scope.

(** ** Formulas *)

(** The operations the formulas use: addition, subtraction, product, square, product
    with a small constant, the curve's [a], and the tests
    [sm2P256ToBig(z).Sign() == 0] and [sm2P256ToBig(u).Cmp(sm2P256ToBig(v)) == 0]. *)
Class FieldOps (F : Type) := {
  fadd : F → F → F;
  fsub : F → F → F;
  fmul : F → F → F;
  fsq : F → F;
  fscalar : F → Z → F;
  fa : F;
  fisZero : F → bool;
  feqb : F → F → bool
}.

Definition jac (F : Type) : Type := F * F * F.

Section Formulas.
  Context {F : Type} `{FieldOps F}.

Definition sm2P256PointAddMixed (p1 : jac F) (x2 y2 : F) : jac F :=
  let '(x1, y1, z1) := p1 in
  let z1z1 := fsq z1 in
  let tmp := fadd z1 z1 in
  let u2 := fmul x2 z1z1 in
  let z1z1z1 := fmul z1 z1z1 in
  let s2 := fmul y2 z1z1z1 in
  let h := fsub u2 x1 in
  let i := fadd h h in
  let i := fsq i in
  let j := fmul h i in
  let r := fsub s2 y1 in
  let r := fadd r r in
  let v := fmul x1 i in
  let zOut := fmul tmp h in
  let rr := fsq r in
  let xOut := fsub rr j in
  let xOut := fsub xOut v in
  let xOut := fsub xOut v in
  let tmp := fsub v xOut in
  let yOut := fmul tmp r in
  let tmp := fmul y1 j in
  let yOut := fsub yOut tmp in
  let yOut := fsub yOut tmp in
  (xOut, yOut, zOut).

Definition sm2P256PointDouble (p : jac F) : jac F :=
  let '(x, y, z) := p in
  let x2 := fsq x in
  let y2 := fsq y in
  let z2 := fsq z in
  let z4 := fsq z in
  let z4 := fmul z4 z in
  let z4 := fmul z4 z in
  let y4 := fsq y in
  let y4 := fmul y4 y in
  let y4 := fmul y4 y in
  let y4 := fscalar y4 8 in
  let s := fmul x y2 in
  let s := fscalar s 4 in
  let m := fscalar x2 3 in
  let az4 := fmul fa z4 in
  let m := fadd m az4 in
  let m2 := fsq m in
  let z3 := fadd y z in
  let z3 := fsq z3 in
  let z3 := fsub z3 z2 in
  let z3 := fsub z3 y2 in
  let x3 := fsub m2 s in
  let x3 := fsub x3 s in
  let y3 := fsub s x3 in
  let y3 := fmul y3 m in
  let y3 := fsub y3 y4 in
  (x3, y3, z3).

(** The sum is stored in [x3, y3, z3]; when the points are equal, the first one is
    doubled in place and the computation goes on.  The result is the first point
    afterwards and the sum. *)
Definition sm2P256PointAdd (p1 p2 : jac F) : jac F * jac F :=
  let '(x1, y1, z1) := p1 in
  let '(x2, y2, z2) := p2 in
  if fisZero z1 then (p1, p2)
  else if fisZero z2 then (p1, p1)
  else
    let z12 := fsq z1 in
    let z22 := fsq z2 in
    let z13 := fmul z12 z1 in
    let z23 := fmul z22 z2 in
    let u1 := fmul x1 z22 in
    let u2 := fmul x2 z12 in
    let s1 := fmul y1 z23 in
    let s2 := fmul y2 z13 in
    let p1' := if feqb u1 u2 && feqb s1 s2 then sm2P256PointDouble p1 else p1 in
    let z1 := p1'.2 in
    let h := fsub u2 u1 in
    let r := fsub s2 s1 in
    let r2 := fsq r in
    let h2 := fsq h in
    let tm := fmul h2 h in
    let x3 := fsub r2 tm in
    let tm := fmul u1 h2 in
    let tm := fscalar tm 2 in
    let x3 := fsub x3 tm in
    let tm := fmul u1 h2 in
    let tm := fsub tm x3 in
    let y3 := fmul r tm in
    let tm := fmul h2 h in
    let tm := fmul tm s1 in
    let y3 := fsub y3 tm in
    let z3 := fmul z1 z2 in
    let z3 := fmul z3 h in
    (p1', (x3, y3, z3)).

End Formulas.

(** ** The curve on limbs *)

Definition A : Z := 0xFFFFFFFEFFFFFFFFFFFFFFFFFFFFFFFFFFFFFFFF00000000FFFFFFFFFFFFFFFC.
Definition B : Z := 0x28E9FA9E9D9F5E344D5A9E4BCF6509A7F39789F515AB8F92DDBCBD414D940E93.
Definition N : Z := 0xFFFFFFFEFFFFFFFFFFFFFFFFFFFFFFFF7203DF6B21C6052B53BBF40939D54123.
Definition Gx : Z := 0x32C4AE2C1F1981195F9904466A39C9948FE30BBFF2660BE1715A4589334C74C7.
Definition Gy : Z := 0xBC3736A2F4F6779C59BDCEE36B692153D0A9877CC62A474002DF32E52139F0A0.

#[export] Instance limbOps : FieldOps sm2P256FieldElement := {
  fadd := sm2P256Add;
  fsub := sm2P256Sub;
  fmul := sm2P256Mul;
  fsq := sm2P256Square;
  fscalar := sm2P256Scalar;
  fa := sm2P256FromBig A;
  fisZero z := sm2P256ToBig z =? 0;
  feqb u v := sm2P256ToBig u =? sm2P256ToBig v
}.

Definition zeroFE : sm2P256FieldElement := replicate 9 0.
Definition oneFE : sm2P256FieldElement := nth 1 sm2P256Factor [].

Definition IsOnCurve (X Y : Z) : bool :=
  let x := sm2P256FromBig X in
  let y := sm2P256FromBig Y in
  let x3 := sm2P256Square x in
  let x3 := sm2P256Mul x3 x in
  let a := sm2P256Mul (sm2P256FromBig A) x in
  let x3 := sm2P256Add x3 a in
  let x3 := sm2P256Add x3 (sm2P256FromBig B) in
  let y2 := sm2P256Square y in
  sm2P256ToBig x3 =? sm2P256ToBig y2.

Definition zForAffine (x y : Z) : Z := if negb (x =? 0) || negb (y =? 0) then 1 else 0.

(** [zz.ModInverse(zz, P)] leaves [zz] as it is when there is no inverse. *)
Definition sm2P256PointToAffine (p : jac sm2P256FieldElement) : sm2P256FieldElement * sm2P256FieldElement :=
  let '(x, y, z) := p in
  let zz := sm2P256ToBig z in
  let zz := default zz (ModInverse zz P) in
  let zInv := sm2P256FromBig zz in
  let zInvSq := sm2P256Square zInv in
  let xOut := sm2P256Mul x zInvSq in
  let zInv := sm2P256Mul zInv zInvSq in
  let yOut := sm2P256Mul y zInv in
  (xOut, yOut).

Definition sm2P256ToAffine (p : jac sm2P256FieldElement) : Z * Z :=
  let '(xx, yy) := sm2P256PointToAffine p in (sm2P256ToBig xx, sm2P256ToBig yy).

Definition Add (x1 y1 x2 y2 : Z) : Z * Z :=
  let z1 := zForAffine x1 y1 in
  let z2 := zForAffine x2 y2 in
  sm2P256ToAffine
    (sm2P256PointAdd (sm2P256FromBig x1, sm2P256FromBig y1, sm2P256FromBig z1)
                     (sm2P256FromBig x2, sm2P256FromBig y2, sm2P256FromBig z2)).2.

Definition Double (x1 y1 : Z) : Z * Z :=
  let z1 := zForAffine x1 y1 in
  sm2P256ToAffine (sm2P256PointDouble (sm2P256FromBig x1, sm2P256FromBig y1, sm2P256FromBig z1)).

(** ** Scalar multiplication *)

(** [out = in] if [mask] is all ones. *)
Definition sm2P256CopyConditional (out in_ : sm2P256FieldElement) (mask : Z) : sm2P256FieldElement :=
  zip_with (fun o i => Z.lxor o (Z.land mask (Z.lxor i o))) out in_.

Definition copyPoint (out in_ : jac sm2P256FieldElement) (mask : Z) : jac sm2P256FieldElement :=
  let '(x, y, z) := out in let '(x', y', z') := in_ in
  (sm2P256CopyConditional x x' mask, sm2P256CopyConditional y y' mask, sm2P256CopyConditional z z' mask).

(** All ones for [i = index], zero otherwise, for numbers below 16. *)
Definition selectMask (i index : Z) : Z :=
  let mask := Z.lxor i index in
  let mask := Z.lor mask (shr32 mask 2) in
  let mask := Z.lor mask (shr32 mask 1) in
  let mask := Z.land mask 1 in
  sub32 mask 1.

Definition orMasked (out limbs_ : sm2P256FieldElement) (mask : Z) : sm2P256FieldElement :=
  zip_with (fun o t => Z.lor o (Z.land t mask)) out limbs_.

Definition sm2P256SelectAffinePoint (table : list Z) (index : Z) :
    sm2P256FieldElement * sm2P256FieldElement :=
  foldl (fun '(xOut, yOut) i =>
           let mask := selectMask (Z.of_nat (S i)) index in
           let entry := drop (18 * i) table in
           (orMasked xOut (take 9 entry) mask, orMasked yOut (take 9 (drop 9 entry)) mask))
        (zeroFE, zeroFE) (seq 0 15).

Definition sm2P256SelectJacobianPoint (table : list (jac sm2P256FieldElement)) (index : Z) :
    jac sm2P256FieldElement :=
  foldl (fun '(xOut, yOut, zOut) i =>
           let mask := selectMask (Z.of_nat i) index in
           let '(x, y, z) := nth i table (zeroFE, zeroFE, zeroFE) in
           (orMasked xOut x mask, orMasked yOut y mask, orMasked zOut z mask))
        (zeroFE, zeroFE, zeroFE) (seq 1 15).

Definition sm2P256GetBit (scalar : list Z) (bit : Z) : Z :=
  Z.land (Z.shiftr (at_ scalar (Z.shiftr bit 3)) (Z.land bit 7)) 1.

(** The scalar as 32 little-endian bytes; a longer one is out of range. *)
Definition sm2P256GetScalar (a : bytes) : gores (list Z) :=
  let n := beVal a in
  let scalarBytes := if n <? N then a else bigBytes (n mod N) in
  if Nat.leb (length scalarBytes) 32
  then Ret (reverse scalarBytes ++ replicate (32 - length scalarBytes) 0)
  else Crash.

Definition infinity : jac sm2P256FieldElement := (zeroFE, zeroFE, zeroFE).

(** The table [0, 1, ..., 15] times a point. *)
Definition precompStep (x y : sm2P256FieldElement) (precomp : list (jac sm2P256FieldElement)) (i : nat) :
    list (jac sm2P256FieldElement) :=
  let d := sm2P256PointDouble (nth (i / 2) precomp infinity) in
  <[S i := sm2P256PointAddMixed d x y]> (<[i := d]> precomp).

Definition precompute (x y : sm2P256FieldElement) : list (jac sm2P256FieldElement) :=
  foldl (precompStep x y) (<[1%nat := (x, y, oneFE)]> (replicate 16 infinity)) [2; 4; 6; 8; 10; 12; 14]%nat.

(** [index] of round [i]: four bits of the scalar, highest first. *)
Definition window (scalar : list Z) (i : nat) : Z :=
  let index := nth (31 - i / 2) scalar 0 in
  if Nat.odd i then Z.land index 15 else Z.shiftr index 4.

Definition scalarMultRound (precomp : list (jac sm2P256FieldElement)) (scalar : list Z)
    (st : jac sm2P256FieldElement * Z) (i : nat) : jac sm2P256FieldElement * Z :=
  let '(out, nIsInfinityMask) := st in
  let out :=
    if Nat.eqb i 0 then out
    else sm2P256PointDouble (sm2P256PointDouble (sm2P256PointDouble (sm2P256PointDouble out))) in
  let index := window scalar i in
  let p := sm2P256SelectJacobianPoint precomp index in
  let '(out, t) := sm2P256PointAdd out p in
  let out := copyPoint out p nIsInfinityMask in
  let pIsNoninfiniteMask := nonZeroToAllOnes index in
  let mask := Z.land pIsNoninfiniteMask (not32 nIsInfinityMask) in
  let out := copyPoint out t mask in
  (out, Z.land nIsInfinityMask (not32 pIsNoninfiniteMask)).

Definition sm2P256ScalarMult (x y : sm2P256FieldElement) (scalar : list Z) : jac sm2P256FieldElement :=
  (foldl (scalarMultRound (precompute x y) scalar) (infinity, 0xffffffff) (seq 0 64)).1.

Definition sm2P256Precomputed : list Z := [
  0x830053d; 0x328990f; 0x6c04fe1; 0xc0f72e5; 0x1e19f3c; 0x666b093; 0x175a87b; 0xec38276; 0x222cf4b;
  0x185a1bba; 0x354e593; 0x1295fac1; 0xf2bc469; 0x47c60fa; 0xc19b8a9; 0xf63533e; 0x903ae6b; 0xc79acba;
  0x15b061a4; 0x33e020b; 0xdffb34b; 0xfcf2c8; 0x16582e08; 0x262f203; 0xfb34381; 0xa55452; 0x604f0ff;
  0x41f1f90; 0xd64ced2; 0xee377bf; 0x75f05f0; 0x189467ae; 0xe2244e; 0x1e7700e8; 0x3fbc464; 0x9612d2e;
  0x1341b3b8; 0xee84e23; 0x1edfa5b4; 0x14e6030; 0x19e87be9; 0x92f533c; 0x1665d96c; 0x226653e; 0xa238d3e;
  0xf5c62c; 0x95bb7a; 0x1f0e5a41; 0x28789c3; 0x1f251d23; 0x8726609; 0xe918910; 0x8096848; 0xf63d028;
  0x152296a1; 0x9f561a8; 0x14d376fb; 0x898788a; 0x61a95fb; 0xa59466d; 0x159a003d; 0x1ad1698; 0x93cca08;
  0x1b314662; 0x706e006; 0x11ce1e30; 0x97b710; 0x172fbc0d; 0x8f50158; 0x11c7ffe7; 0xd182cce; 0xc6ad9e8;
  0x12ea31b2; 0xc4e4f38; 0x175b0d96; 0xec06337; 0x75a9c12; 0xb001fdf; 0x93e82f5; 0x34607de; 0xb8035ed;
  0x17f97924; 0x75cf9e6; 0xdceaedd; 0x2529924; 0x1a10c5ff; 0xb1a54dc; 0x19464d8; 0x2d1997; 0xde6a110;
  0x1e276ee5; 0x95c510c; 0x1aca7c7a; 0xfe48aca; 0x121ad4d9; 0xe4132c6; 0x8239b9d; 0x40ea9cd; 0x816c7b;
  0x632d7a4; 0xa679813; 0x5911fcf; 0x82b0f7c; 0x57b0ad5; 0xbef65; 0xd541365; 0x7f9921f; 0xc62e7a;
  0x3f4b32d; 0x58e50e1; 0x6427aed; 0xdcdda67; 0xe8c2d3e; 0x6aa54a4; 0x18df4c35; 0x49a6a8e; 0x3cd3d0c;
  0xd7adf2; 0xcbca97; 0x1bda5f2d; 0x3258579; 0x606b1e6; 0x6fc1b5b; 0x1ac27317; 0x503ca16; 0xa677435;
  0x57bc73; 0x3992a42; 0xbab987b; 0xfab25eb; 0x128912a4; 0x90a1dc4; 0x1402d591; 0x9ffbcfc; 0xaa48856;
  0x7a7c2dc; 0xcefd08a; 0x1b29bda6; 0xa785641; 0x16462d8c; 0x76241b7; 0x79b6c3b; 0x204ae18; 0xf41212b;
  0x1f567a4d; 0xd6ce6db; 0xedf1784; 0x111df34; 0x85d7955; 0x55fc189; 0x1b7ae265; 0xf9281ac; 0xded7740;
  0xf19468b; 0x83763bb; 0x8ff7234; 0x3da7df8; 0x9590ac3; 0xdc96f2a; 0x16e44896; 0x7931009; 0x99d5acc;
  0x10f7b842; 0xaef5e84; 0xc0310d7; 0xdebac2c; 0x2a7b137; 0x4342344; 0x19633649; 0x3a10624; 0x4b4cb56;
  0x1d809c59; 0xac007f; 0x1f0f4bcd; 0xa1ab06e; 0xc5042cf; 0x82c0c77; 0x76c7563; 0x22c30f3; 0x3bf1568;
  0x7a895be; 0xfcca554; 0x12e90e4c; 0x7b4ab5f; 0x13aeb76b; 0x5887e2c; 0x1d7fe1e3; 0x908c8e3; 0x95800ee;
  0xb36bd54; 0xf08905d; 0x4e73ae8; 0xf5a7e48; 0xa67cb0; 0x50e1067; 0x1b944a0a; 0xf29c83a; 0xb23cfb9;
  0xbe1db1; 0x54de6e8; 0xd4707f2; 0x8ebcc2d; 0x2c77056; 0x1568ce4; 0x15fcc849; 0x4069712; 0xe2ed85f;
  0x2c5ff09; 0x42a6929; 0x628e7ea; 0xbd5b355; 0xaf0bd79; 0xaa03699; 0xdb99816; 0x4379cef; 0x81d57b;
  0x11237f01; 0xe2a820b; 0xfd53b95; 0x6beb5ee; 0x1aeb790c; 0xe470d53; 0x2c2cfee; 0x1c1d8d8; 0xa520fc4;
  0x1518e034; 0xa584dd4; 0x29e572b; 0xd4594fc; 0x141a8f6f; 0x8dfccf3; 0x5d20ba3; 0x2eb60c3; 0x9f16eb0;
  0x11cec356; 0xf039f84; 0x1b0990c1; 0xc91e526; 0x10b65bae; 0xf0616e8; 0x173fa3ff; 0xec8ccf9; 0xbe32790;
  0x11da3e79; 0xe2f35c7; 0x908875c; 0xdacf7bd; 0x538c165; 0x8d1487f; 0x7c31aed; 0x21af228; 0x7e1689d;
  0xdfc23ca; 0x24f15dc; 0x25ef3c4; 0x35248cd; 0x99a0f43; 0xa4b6ecc; 0xd066b3; 0x2481152; 0x37a7688;
  0x15a444b6; 0xb62300c; 0x4b841b; 0xa655e79; 0xd53226d; 0xbeb348a; 0x127f3c2; 0xb989247; 0x71a277d;
  0x19e9dfcb; 0xb8f92d0; 0xe2d226c; 0x390a8b0; 0x183cc462; 0x7bd8167; 0x1f32a552; 0x5e02db4; 0xa146ee9;
  0x1a003957; 0x1c95f61; 0x1eeec155; 0x26f811f; 0xf9596ba; 0x3082bfb; 0x96df083; 0x3e3a289; 0x7e2d8be;
  0x157a63e0; 0x99b8941; 0x1da7d345; 0xcc6cd0; 0x10beed9a; 0x48e83c0; 0x13aa2e25; 0x7cad710; 0x4029988;
  0x13dfa9dd; 0xb94f884; 0x1f4adfef; 0xb88543; 0x16f5f8dc; 0xa6a67f4; 0x14e274e2; 0x5e56cf4; 0x2f24ef;
  0x1e9ef967; 0xfe09bad; 0xfe079b3; 0xcc0ae9e; 0xb3edf6d; 0x3e961bc; 0x130d7831; 0x31043d6; 0xba986f9;
  0x1d28055; 0x65240ca; 0x4971fa3; 0x81b17f8; 0x11ec34a5; 0x8366ddc; 0x1471809; 0xfa5f1c6; 0xc911e15;
  0x8849491; 0xcf4c2e2; 0x14471b91; 0x39f75be; 0x445c21e; 0xf1585e9; 0x72cc11f; 0x4c79f0c; 0xe5522e1;
  0x1874c1ee; 0x4444211; 0x7914884; 0x3d1b133; 0x25ba3c; 0x4194f65; 0x1c0457ef; 0xac4899d; 0xe1fa66c;
  0x130a7918; 0x9b8d312; 0x4b1c5c8; 0x61ccac3; 0x18c8aa6f; 0xe93cb0a; 0xdccb12c; 0xde10825; 0x969737d;
  0xf58c0c3; 0x7cee6a9; 0xc2c329a; 0xc7f9ed9; 0x107b3981; 0x696a40e; 0x152847ff; 0x4d88754; 0xb141f47;
  0x5a16ffe; 0x3a7870a; 0x18667659; 0x3b72b03; 0xb1c9435; 0x9285394; 0xa00005a; 0x37506c; 0x2edc0bb;
  0x19afe392; 0xeb39cac; 0x177ef286; 0xdf87197; 0x19f844ed; 0x31fe8; 0x15f9bfd; 0x80dbec; 0x342e96e;
  0x497aced; 0xe88e909; 0x1f5fa9ba; 0x530a6ee; 0x1ef4e3f1; 0x69ffd12; 0x583006d; 0x2ecc9b1; 0x362db70;
  0x18c7bdc5; 0xf4bb3c5; 0x1c90b957; 0xf067c09; 0x9768f2b; 0xf73566a; 0x1939a900; 0x198c38a; 0x202a2a1;
  0x4bbf5a6; 0x4e265bc; 0x1f44b6e7; 0x185ca49; 0xa39e81b; 0x24aff5b; 0x4acc9c2; 0x638bdd3; 0xb65b2a8;
  0x6def8be; 0xb94537a; 0x10b81dee; 0xe00ec55; 0x2f2cdf7; 0xc20622d; 0x2d20f36; 0xe03c8c9; 0x898ea76;
  0x8e3921b; 0x8905bff; 0x1e94b6c8; 0xee7ad86; 0x154797f2; 0xa620863; 0x3fbd0d9; 0x1f3caab; 0x30c24bd;
  0x19d3892f; 0x59c17a2; 0x1ab4b0ae; 0xf8714ee; 0x90c4098; 0xa9c800d; 0x1910236b; 0xea808d3; 0x9ae2f31;
  0x1a15ad64; 0xa48c8d1; 0x184635a4; 0xb725ef1; 0x11921dcc; 0x3f866df; 0x16c27568; 0xbdf580a; 0xb08f55c;
  0x186ee1c; 0xb1627fa; 0x34e82f6; 0x933837e; 0xf311be5; 0xfedb03b; 0x167f72cd; 0xa5469c0; 0x9c82531;
  0xb92a24b; 0x14fdc8b; 0x141980d1; 0xbdc3a49; 0x7e02bb1; 0xaf4e6dd; 0x106d99e1; 0xd4616fc; 0x93c2717;
  0x1c0a0507; 0xc6d5fed; 0x9a03d8b; 0xa1d22b0; 0x127853e3; 0xc4ac6b8; 0x1a048cf7; 0x9afb72c; 0x65d485d;
  0x72d5998; 0xe9fa744; 0xe49e82c; 0x253cf80; 0x5f777ce; 0xa3799a5; 0x17270cbb; 0xc1d1ef0; 0xdf74977;
  0x114cb859; 0xfa8e037; 0xb8f3fe5; 0xc734cc6; 0x70d3d61; 0xeadac62; 0x12093dd0; 0x9add67d; 0x87200d6;
  0x175bcbb; 0xb29b49f; 0x1806b79c; 0x12fb61f; 0x170b3a10; 0x3aaf1cf; 0xa224085; 0x79d26af; 0x97759e2;
  0x92e19f1; 0xb32714d; 0x1f00d9f1; 0xc728619; 0x9e6f627; 0xe745e24; 0x18ea4ace; 0xfc60a41; 0x125f5b2;
  0xc3cf512; 0x39ed486; 0xf4d15fa; 0xf9167fd; 0x1c1f5dd5; 0xc21a53e; 0x1897930; 0x957a112; 0x21059a0;
  0x1f9e3ddc; 0xa4dfced; 0x8427f6f; 0x726fbe7; 0x1ea658f8; 0x2fdcd4c; 0x17e9b66f; 0xb2e7c2e; 0x39923bf;
  0x1bae104; 0x3973ce5; 0xc6f264c; 0x3511b84; 0x124195d7; 0x11996bd; 0x20be23d; 0xdc437c4; 0x4b4f16b;
  0x11902a0; 0x6c29cc9; 0x1d5ffbe6; 0xdb0b4c7; 0x10144c14; 0x2f2b719; 0x301189; 0x2343336; 0xa0bf2ac].

(** One of the two additions of a round of [sm2P256ScalarBaseMult], for [j] 0 or 32. *)
Definition baseAdd (scalar : list Z) (i : Z) (st : jac sm2P256FieldElement * Z) (j : Z) :
    jac sm2P256FieldElement * Z :=
  let '(out, nIsInfinityMask) := st in
  let tableOffset := if j =? 0 then 0%nat else 270%nat in
  let bit0 := sm2P256GetBit scalar (31 - i + j) in
  let bit1 := sm2P256GetBit scalar (95 - i + j) in
  let bit2 := sm2P256GetBit scalar (159 - i + j) in
  let bit3 := sm2P256GetBit scalar (223 - i + j) in
  let index := Z.lor (Z.lor (Z.lor bit0 (Z.shiftl bit1 1)) (Z.shiftl bit2 2)) (Z.shiftl bit3 3) in
  let '(px, py) := sm2P256SelectAffinePoint (drop tableOffset sm2P256Precomputed) index in
  let t := sm2P256PointAddMixed out px py in
  let out := copyPoint out (px, py, oneFE) nIsInfinityMask in
  let pIsNoninfiniteMask := nonZeroToAllOnes index in
  let mask := Z.land pIsNoninfiniteMask (not32 nIsInfinityMask) in
  let out := copyPoint out t mask in
  (out, Z.land nIsInfinityMask (not32 pIsNoninfiniteMask)).

Definition baseRound (scalar : list Z) (st : jac sm2P256FieldElement * Z) (i : nat) :
    jac sm2P256FieldElement * Z :=
  let st := if Nat.eqb i 0 then st else (sm2P256PointDouble st.1, st.2) in
  foldl (baseAdd scalar (Z.of_nat i)) st [0; 32].

Definition sm2P256ScalarBaseMult (scalar : list Z) : jac sm2P256FieldElement :=
  (foldl (baseRound scalar) (infinity, 0xffffffff) (seq 0 32)).1.

Definition ScalarMult (x1 y1 : Z) (k : bytes) : gores (Z * Z) :=
  scalar ← sm2P256GetScalar k;
  Ret (sm2P256ToAffine (sm2P256ScalarMult (sm2P256FromBig x1) (sm2P256FromBig y1) scalar)).

Definition ScalarBaseMult (k : bytes) : gores (Z * Z) :=
  scalar ← sm2P256GetScalar k;
  Ret (sm2P256ToAffine (sm2P256ScalarBaseMult scalar)).

(** ** What the formulas compute

    Over any field in which 2 is not 0, for the curve [y^2 = x^3 + a x + b]. *)
Section Theory.
  Context {F : Type} (f0 f1 : F) (plus times minus : F → F → F) (opp : F → F) (div : F → F → F) (inv : F → F).
  Context (Fth : field_theory f0 f1 plus times minus opp div inv eq).
  Context (a : F) (isZero : F → bool) (eqb : F → F → bool).
  Context (isZero_spec : ∀ z, isZero z = true ↔ z = f0) (eqb_spec : ∀ u v, eqb u v = true ↔ u = v).

  Add Field Fld : Fth.

Definition two : F := plus f1 f1.

  (** The constants [sm2P256Scalar] is called with. *)
Definition small (n : Z) : F :=
    match n with
    | 2 => two | 3 => plus two f1 | 4 => times two two | 8 => times two (times two two) | _ => f0
    end.

  Local Notation "0" := f0. Local Notation "1" := f1.
  Local Infix "+" := plus. Local Infix "*" := times. Local Infix "-" := minus. Local Infix "/" := div.

Definition theoryOps : FieldOps F := {|
    fadd := plus; fsub := minus; fmul := times; fsq := fun x => x * x;
    fscalar := fun x n => small n * x;
    fa := a; fisZero := isZero; feqb := eqb |}.
  Local Existing Instance theoryOps.

  (** [p] stands for the affine point [(x, y)]. *)
Definition represents (p : jac F) (x y : F) : Prop :=
    let '(X, Y, Z) := p in Z ≠ 0 ∧ X = x * (Z * Z) ∧ Y = y * (Z * Z * Z).

  (** The third point on the line of slope [l] through [(x1, y1)] and a point with
      abscissa [x2], reflected. *)
Definition third (l x1 y1 x2 : F) : F * F :=
    let x3 := l * l - x1 - x2 in (x3, l * (x1 - x3) - y1).

Definition chord (x1 y1 x2 y2 : F) : F * F := third ((y2 - y1) / (x2 - x1)) x1 y1 x2.
Definition tangent (x y : F) : F * F := third (((two + 1) * (x * x) + a) / (two * y)) x y x.

Lemma times_nonzero x y : x ≠ 0 → y ≠ 0 → x * y ≠ 0.
Proof using Fth.
    intros Hx Hy H. apply Hy. transitivity (inv x * (x * y)); [field; done|]. rewrite H. ring.
Qed.

Lemma minus_nonzero x y : x ≠ y → x - y ≠ 0.
Proof using Fth. intros Hne H. apply Hne. transitivity (x - y + y); [ring|]. rewrite H. ring. Qed.

Lemma PointDouble_tangent p x y : two ≠ 0 → y ≠ 0 → represents p x y →
    represents (sm2P256PointDouble p) (tangent x y).1 (tangent x y).2.
Proof using Fth.
    destruct p as [[X Y] Z]. intros H2 Hy (HZ & -> & ->).
    assert (Hz3 : two * (y * (Z * Z * Z)) * Z ≠ 0) by (repeat apply times_nonzero; done).
    cbn. unfold two in *. split; [|split].
    - intros H. apply Hz3. rewrite <- H. ring.
    - field. split; done.
    - field. split; done.
Qed.
Lemma isZero_false z : z ≠ 0 → isZero z = false.
Proof using isZero_spec. intros Hz. destruct (isZero z) eqn:E; [|done]. by apply isZero_spec in E. Qed.

Lemma PointAddMixed_chord p x1 y1 x2 y2 : two ≠ 0 → x1 ≠ x2 → represents p x1 y1 →
    represents (sm2P256PointAddMixed p x2 y2) (chord x1 y1 x2 y2).1 (chord x1 y1 x2 y2).2.
Proof using Fth.
    destruct p as [[X Y] Z]. intros H2 Hx (HZ & -> & ->).
    assert (Hd : x2 - x1 ≠ 0) by (apply minus_nonzero; congruence).
    assert (Hz3 : two * Z * (Z * Z * (x2 - x1)) ≠ 0) by (repeat apply times_nonzero; done).
    cbn. unfold two in *. split; [|split].
    - intros H. apply Hz3. rewrite <- H. ring.
    - field. done.
    - field. done.
Qed.

  (** The general addition, past the tests for infinity. *)
Lemma PointAdd_chord p q x1 y1 x2 y2 : x1 ≠ x2 → represents p x1 y1 → represents q x2 y2 →
    represents (sm2P256PointAdd p q).2 (chord x1 y1 x2 y2).1 (chord x1 y1 x2 y2).2.
Proof using Fth isZero_spec eqb_spec.
    destruct p as [[X1 Y1] Z1], q as [[X2 Y2] Z2]. intros Hx (HZ1 & -> & ->) (HZ2 & -> & ->).
    assert (Hd : x2 - x1 ≠ 0) by (apply minus_nonzero; congruence).
    assert (Hz3 : Z1 * Z2 * (Z1 * Z1 * (Z2 * Z2) * (x2 - x1)) ≠ 0) by (repeat apply times_nonzero; done).
    unfold sm2P256PointAdd. cbn [fisZero theoryOps]. rewrite !isZero_false by done.
    assert (He : feqb (fmul (x1 * (Z1 * Z1)) (fsq Z2)) (fmul (x2 * (Z2 * Z2)) (fsq Z1)) = false).
    { cbn. destruct (eqb _ _) eqn:E; [|done]. apply eqb_spec in E. exfalso.
      assert (Hu : Z1 * Z1 * (Z2 * Z2) * (x2 - x1) ≠ 0) by (repeat apply times_nonzero; done).
      apply Hu. transitivity (x2 * (Z2 * Z2) * (Z1 * Z1) - x1 * (Z1 * Z1) * (Z2 * Z2)); [ring|]. rewrite E. ring. }
    rewrite He. cbn. unfold two in *. split; [|split].
    - intros H. apply Hz3. rewrite <- H. ring.
    - field. done.
    - field. done.
Qed.

  (** Equal abscissas: the last coordinate of the sum is zero, also when the points
      are equal. *)
Lemma PointAdd_vertical p q x y1 y2 : represents p x y1 → represents q x y2 → (sm2P256PointAdd p q).2.2 = 0.
Proof using Fth isZero_spec.
    destruct p as [[X1 Y1] Z1], q as [[X2 Y2] Z2]. intros (HZ1 & -> & ->) (HZ2 & -> & ->).
    unfold sm2P256PointAdd. cbn [fisZero theoryOps]. rewrite !isZero_false by done.
    destruct (_ && _); cbn; ring.
Qed.

  (** C24. Over any field where 2 is not 0, [sm2P256PointDouble] of a point with
      non-zero ordinate is the tangent construction, [sm2P256PointAdd] and
      [sm2P256PointAddMixed] of points with different abscissas are the chord
      construction, adding a point at infinity gives the other one, and
      [sm2P256PointAdd] of points with equal abscissas is the point at infinity. *)
Theorem Jacobian_group_law p q x1 y1 x2 y2 : two ≠ 0 → represents p x1 y1 → represents q x2 y2 →
    (y1 ≠ 0 → represents (sm2P256PointDouble p) (tangent x1 y1).1 (tangent x1 y1).2) ∧
    (x1 ≠ x2 → represents (sm2P256PointAdd p q).2 (chord x1 y1 x2 y2).1 (chord x1 y1 x2 y2).2 ∧
               represents (sm2P256PointAddMixed p x2 y2) (chord x1 y1 x2 y2).1 (chord x1 y1 x2 y2).2) ∧
    (x1 = x2 → (sm2P256PointAdd p q).2.2 = 0) ∧
    (∀ X Y, (sm2P256PointAdd (X, Y, 0) q).2 = q ∧ (sm2P256PointAdd p (X, Y, 0)).2 = p).
Proof using Fth isZero_spec eqb_spec.
    intros H2 Hp Hq. split; [|split; [|split]].
    - intros Hy. by apply PointDouble_tangent.
    - intros Hx. split; [by apply PointAdd_chord|by apply PointAddMixed_chord].
    - intros <-. by apply (PointAdd_vertical p q x1 y1 y2).
    - intros X Y. destruct p as [[X1 Y1] Z1], q as [[X2 Y2] Z2], Hp as [HZ1 _]. unfold sm2P256PointAdd. cbn [fisZero theoryOps].
      rewrite (proj2 (isZero_spec 0)), (isZero_false Z1) by done. done.
Qed.
End Theory.

(** The rationals, for a concrete instance: the points [(2, 3)] and [(0, 1)] of
    [y^2 = x^3 + 1], the first with last coordinate 2. *)
Definition qIsZero (z : Qc) : bool := if Qc_eq_dec z 0 then true else false.
Definition qEqb (u v : Qc) : bool := if Qc_eq_dec u v then true else false.
Definition exP : jac Qc := (Q2Qc 8, Q2Qc 24, Q2Qc 2)%Q.
Definition exQ : jac Qc := (Q2Qc 0, Q2Qc 1, Q2Qc 1)%Q.

Lemma qIsZero_spec z : qIsZero z = true ↔ z = 0%Qc.
Proof. unfold qIsZero. destruct (Qc_eq_dec z 0); split; by try congruence. Qed.

Lemma qEqb_spec u v : qEqb u v = true ↔ u = v.
Proof. unfold qEqb. destruct (Qc_eq_dec u v); split; by try congruence. Qed.

Definition qOps : FieldOps Qc := theoryOps 0%Qc 1%Qc Qcplus Qcmult Qcminus 0%Qc qIsZero qEqb.
Definition qChord : Qc * Qc :=
  chord Qcmult Qcminus Qcdiv (Q2Qc 2%Q) (Q2Qc 3%Q) (Q2Qc 0%Q) (Q2Qc 1%Q).

Lemma Jacobian_group_law_witness :
  represents 0%Qc Qcmult (@sm2P256PointAdd Qc qOps exP exQ).2 qChord.1 qChord.2 ∧
  (@sm2P256PointAdd Qc qOps exP exP).2.2 = 0%Qc.
Proof.
  assert (H2 : two 1%Qc Qcplus ≠ 0%Qc) by (vm_compute; discriminate).
  assert (HP : represents 0%Qc Qcmult exP (Q2Qc 2%Q) (Q2Qc 3%Q)) by (split; [vm_compute; discriminate|split; vm_compute; reflexivity]).
  assert (HQ : represents 0%Qc Qcmult exQ (Q2Qc 0%Q) (Q2Qc 1%Q)) by (split; [vm_compute; discriminate|split; vm_compute; reflexivity]).
  assert (Hne : Q2Qc 2%Q ≠ Q2Qc 0%Q) by (vm_compute; discriminate).
  split.
  - exact (proj1 (proj1 (proj2 (Jacobian_group_law 0%Qc 1%Qc Qcplus Qcmult Qcminus Qcopp Qcdiv Qcinv Qcft
      0%Qc qIsZero qEqb qIsZero_spec qEqb_spec exP exQ _ _ _ _ H2 HP HQ)) Hne)).
  - exact (proj1 (proj2 (proj2 (Jacobian_group_law 0%Qc 1%Qc Qcplus Qcmult Qcminus Qcopp Qcdiv Qcinv Qcft
      0%Qc qIsZero qEqb qIsZero_spec qEqb_spec exP exP _ _ _ _ H2 HP HP))) eq_refl).
Defined.

(** Adding a point to itself: [Add] gives the point at infinity [(0, 0)] for the
    base point, whose double is another point. *)
Theorem Add_self_infinity :
  IsOnCurve Gx Gy = true ∧ Add Gx Gy Gx Gy = (0, 0) ∧ Double Gx Gy ≠ (0, 0) ∧
  uncurry IsOnCurve (Double Gx Gy) = true.
Proof. vm_compute. split_and!; done. Qed.

(** There is a point of the curve that [IsOnCurve] rejects, because a product in
    the computation loses a borrow. *)
Theorem IsOnCurve_incomplete : ∃ x y, 0 ≤ x < P ∧ 0 ≤ y < P ∧
  (y * y) mod P = (x * x * x + A * x + B) mod P ∧ IsOnCurve x y = false.
Proof.
  exists 3533646948004612281363208268988085641056123057912646999818320536206573570,
    269805587694489471700735858965678980422136631953401086643147465356396073088.
  vm_compute. split_and!; done.
Qed.

(** ** Words

    Every operation returns nine 32-bit words, whatever the values. *)
Definition words9 (a : sm2P256FieldElement) : Prop := length a = 9%nat ∧ Forall is_u32 a.

Lemma land_bottom_u32 even c : is_u32 c → is_u32 (Z.land c (bottomBits even)).
Proof. intros. apply land_u32; [done|by destruct even]. Qed.

Lemma carryLoop_words even xs c : length (carryLoop even xs c).1 = length xs ∧ Forall is_u32 (carryLoop even xs c).1.
Proof.
  revert even c. induction xs as [|x xs IH]; intros even c; cbn [carryLoop]; [done|].
  specialize (IH (negb even) (shr32 (add32 x c) (width even))).
  destruct (carryLoop (negb even) xs _) as [r k]. cbn [fst length] in *. destruct IH as [-> Hr].
  split; [done|]. apply Forall_cons_2; [|done]. apply land_bottom_u32, add32_u32.
Qed.

Lemma carried_words9 xs : length xs = 9%nat → words9 (carried xs).
Proof.
  intros Hl. unfold carried. pose proof (carryLoop_words true xs 0) as [Hlr Hr].
  destruct (carryLoop true xs 0) as [r k]. cbn [fst] in *. rewrite Hl in Hlr.
  do 9 (destruct r as [|? r]; [done|]). destruct r; [|done]. cbn [sm2P256ReduceCarry].
  repeat (apply Forall_cons in Hr as [? Hr]). split; [done|].
  repeat (apply Forall_cons_2; [first [done|apply add32_u32]|]). done.
Qed.

Lemma Add_words9 a b : words9 a → words9 b → words9 (sm2P256Add a b).
Proof. intros [Ha _] [Hb _]. apply (carried_words9 (zip_with add32 a b)). by rewrite length_zip_with, Ha, Hb. Qed.

Lemma Sub_words9 a b : words9 a → words9 b → words9 (sm2P256Sub a b).
Proof.
  intros [Ha _] [Hb _]. apply (carried_words9 (zip_with add32 (zip_with sub32 a b) sm2P256Zero31)).
  by rewrite !length_zip_with, Ha, Hb.
Qed.

Lemma reduceEven_length t : length (reduceEven t) = if decide (10 ≤ length t)%nat then pred (length t) else 0%nat.
Proof.
  do 10 (destruct t as [|? t]; [done|]). cbn [reduceEven length]. rewrite decide_True by lia.
  destruct (0 <? _); [|done]. destruct (evenLow _ _ _). destruct (evenMid _ _ _ _ _ _) as [[[? ?] ?] ?].
  destruct (evenHigh _ _ _ _ _ _) as [[? ?] ?]. done.
Qed.

Lemma reduceOdd_length t : length (reduceOdd t) = if decide (10 ≤ length t)%nat then pred (length t) else 0%nat.
Proof.
  do 10 (destruct t as [|? t]; [done|]). cbn [reduceOdd length]. rewrite decide_True by lia.
  destruct (0 <? _); [|done]. destruct (oddLow _ _ _). destruct (oddMid _ _ _ _ _ _) as [[[? ?] ?] ?].
  destruct (oddHigh _ _ _ _ _ _) as [[? ?] ?]. done.
Qed.

Lemma reduceLoop_length n even t : length t = (9 + n)%nat → length (reduceLoop n even t) = 9%nat.
Proof.
  revert even t. induction n as [|n IH]; intros even t Hl; cbn [reduceLoop]; [lia|].
  apply IH. destruct even; rewrite ?reduceEven_length, ?reduceOdd_length, decide_True by lia; lia.
Qed.

Lemma spreadLoop_length even b2 b1 bs : length (spreadLoop even b2 b1 bs) = length bs.
Proof. revert even b2 b1. induction bs as [|b bs IH]; intros; cbn; [done|by rewrite IH]. Qed.

Lemma spread_length b : length b = 17%nat → length (spread b) = 18%nat.
Proof.
  intros Hl. destruct b as [|b0 [|b1 bs]]; [done..|]. cbn [spread].
  match goal with |- context [carryLoop ?e ?xs ?c] => pose proof (carryLoop_words e xs c) as [Hx _]; destruct (carryLoop e xs c) end.
  cbn [fst length] in *. rewrite length_app, Hx, spreadLoop_length. cbn [length]. lia.
Qed.

Lemma ReduceDegree_words9 b : length b = 17%nat → words9 (sm2P256ReduceDegree b).
Proof.
  intros Hl. apply (carried_words9 (collect (reduceLoop 9 true (spread b)))).
  assert (Hr : length (reduceLoop 9 true (spread b)) = 9%nat) by (apply reduceLoop_length; by rewrite spread_length).
  generalize dependent (reduceLoop 9 true (spread b)). intros t Hr.
  do 9 (destruct t as [|? t]; [done|]). by destruct t.
Qed.

Lemma Mul_words9 a b : words9 a → words9 b → words9 (sm2P256Mul a b).
Proof.
  intros [Ha _] [Hb _]. apply ReduceDegree_words9.
  do 9 (destruct a as [|? a]; [done|]). destruct a; [|done].
  do 9 (destruct b as [|? b]; [done|]). by destruct b.
Qed.

Lemma Square_words9 a : words9 a → words9 (sm2P256Square a).
Proof. intros [Ha _]. apply ReduceDegree_words9. do 9 (destruct a as [|? a]; [done|]). by destruct a. Qed.

Lemma Scalar_words9 a n : words9 a → n = 2 ∨ n = 3 ∨ n = 4 ∨ n = 8 → words9 (sm2P256Scalar a n).
Proof.
  intros Ha Hn. apply Mul_words9; [done|].
  destruct Hn as [->|[->|[->| ->]]]; (split; [done|repeat (apply Forall_cons_2; [done|]); done]).
Qed.

Lemma element_words9 a : element a → words9 a.
Proof.
  intros He. element_cases He. split; [done|].
  repeat (apply Forall_cons_2; [unfold is_u32, two32; lia|]). done.
Qed.

Lemma FromBig_words9 a : words9 (sm2P256FromBig a).
Proof. apply element_words9, FromBig_spec. Qed.

Definition pointWords (p : jac sm2P256FieldElement) : Prop := words9 p.1.1 ∧ words9 p.1.2 ∧ words9 p.2.

Create HintDb p256.
#[export] Hint Extern 1 (words9 (fadd _ _)) => apply Add_words9 : p256.
#[export] Hint Extern 1 (words9 (fsub _ _)) => apply Sub_words9 : p256.
#[export] Hint Extern 1 (words9 (fmul _ _)) => apply Mul_words9 : p256.
#[export] Hint Extern 1 (words9 (fsq _)) => apply Square_words9 : p256.
#[export] Hint Extern 1 (words9 (fscalar _ _)) => apply Scalar_words9; [|lia] : p256.
#[export] Hint Extern 1 (words9 fa) => apply FromBig_words9 : p256.

Lemma PointDouble_words p : pointWords p → pointWords (sm2P256PointDouble p).
Proof.
  destruct p as [[x y] z]. intros (Hx & Hy & Hz). cbn [fst snd] in *. unfold sm2P256PointDouble.
  split; [|split]; cbn [fst snd]; auto 20 with p256.
Qed.

Lemma PointAddMixed_words p x y : pointWords p → words9 x → words9 y → pointWords (sm2P256PointAddMixed p x y).
Proof.
  destruct p as [[x1 y1] z1]. intros (Hx & Hy & Hz) Hx2 Hy2. cbn [fst snd] in *. unfold sm2P256PointAddMixed.
  split; [|split]; cbn [fst snd]; auto 20 with p256.
Qed.

Lemma PointAdd_words p q : pointWords p → pointWords q →
  pointWords (sm2P256PointAdd p q).1 ∧ pointWords (sm2P256PointAdd p q).2.
Proof.
  intros Hp Hq. pose proof (PointDouble_words p Hp) as Hd. unfold sm2P256PointAdd.
  destruct p as [[x1 y1] z1], q as [[x2 y2] z2]. destruct (fisZero z1); [done|]. destruct (fisZero z2); [done|].
  match goal with |- context [if ?c then sm2P256PointDouble ?p else ?p] =>
    assert (Hp' : pointWords (if c then sm2P256PointDouble p else p)) by (by destruct c);
    generalize dependent (if c then sm2P256PointDouble p else p) end.
  intros p1 Hp1. cbn [fst snd]. split; [done|].
  destruct Hp as (? & ? & ?), Hq as (? & ? & ?), Hp1 as (? & ? & ?). cbn [fst snd] in *.
  split; [|split]; cbn [fst snd]; auto 20 with p256.
Qed.

Lemma zero_words : words9 zeroFE.
Proof. split; [done|]. repeat (apply Forall_cons_2; [done|]). done. Qed.

Lemma infinity_words : pointWords infinity.
Proof. split; [|split]; apply zero_words. Qed.

(** ** Masks *)

Definition allOnes : Z := 4294967295.

Lemma selectMask_spec i index : 0 ≤ i < 16 → 0 ≤ index < 16 →
  selectMask i index = if i =? index then allOnes else 0.
Proof.
  intros Hi Hx.
  assert (H : forallb (fun i => forallb (fun x => selectMask (Z.of_nat i) (Z.of_nat x) =?
    if Z.of_nat i =? Z.of_nat x then allOnes else 0) (seq 0 16)) (seq 0 16) = true) by (vm_compute; reflexivity).
  rewrite forallb_forall in H. specialize (H (Z.to_nat i)). rewrite forallb_forall in H.
  specialize (H ltac:(apply in_seq; lia) (Z.to_nat index) ltac:(apply in_seq; lia)).
  apply Z.eqb_eq in H. by rewrite !Z2Nat.id in H by lia.
Qed.

Lemma copy_zero o i : words9 o → words9 i → sm2P256CopyConditional o i 0 = o.
Proof.
  intros [Ho _] [Hi _]. unfold sm2P256CopyConditional.
  do 9 (destruct o as [|? o]; [done|]). destruct o; [|done].
  do 9 (destruct i as [|? i]; [done|]). destruct i; [|done].
  cbn [zip_with]. by rewrite !Z.lxor_0_r.
Qed.

Lemma copy_ones o i : words9 o → words9 i → sm2P256CopyConditional o i allOnes = i.
Proof.
  intros [Ho Wo] [Hi Wi]. unfold sm2P256CopyConditional.
  assert (Hx : ∀ a b, is_u32 a → is_u32 b → Z.lxor a (Z.land allOnes (Z.lxor b a)) = b).
  { intros a b Ha Hb. rewrite (Z.land_comm allOnes), land_allOnes by (by apply lxor_u32).
    by rewrite (Z.lxor_comm b), <- Z.lxor_assoc, Z.lxor_nilpotent, Z.lxor_0_l. }
  do 9 (destruct o as [|? o]; [done|]). destruct o; [|done].
  do 9 (destruct i as [|? i]; [done|]). destruct i; [|done].
  repeat (apply Forall_cons in Wo as [? Wo]). repeat (apply Forall_cons in Wi as [? Wi]).
  cbn [zip_with]. by rewrite !Hx.
Qed.

Lemma copyPoint_spec o i b : pointWords o → pointWords i →
  copyPoint o i (if (b : bool) then allOnes else 0) = if b then i else o.
Proof.
  destruct o as [[x y] z], i as [[x' y'] z']. intros (? & ? & ?) (? & ? & ?). cbn [fst snd copyPoint] in *.
  destruct b; [by rewrite !copy_ones|by rewrite !copy_zero].
Qed.

Lemma orMasked_spec o t b : words9 o → words9 t →
  orMasked o t (if (b : bool) then allOnes else 0) = if b then zip_with Z.lor o t else o.
Proof.
  intros [Ho _] [Ht Wt]. unfold orMasked.
  do 9 (destruct o as [|? o]; [done|]). destruct o; [|done].
  do 9 (destruct t as [|? t]; [done|]). destruct t; [|done].
  repeat (apply Forall_cons in Wt as [? Wt]). cbn [zip_with]. destruct b.
  - by rewrite !land_allOnes by done.
  - by rewrite !Z.land_0_r, !Z.lor_0_r.
Qed.

Lemma or_zero t : words9 t → zip_with Z.lor zeroFE t = t.
Proof. intros [Ht _]. do 9 (destruct t as [|? t]; [done|]). by destruct t. Qed.

Lemma select_prefix table index n : (n < 16)%nat → 0 ≤ index < 16 → Forall pointWords table →
  foldl (fun '(xOut, yOut, zOut) i =>
           let mask := selectMask (Z.of_nat i) index in
           let '(x, y, z) := nth i table infinity in
           (orMasked xOut x mask, orMasked yOut y mask, orMasked zOut z mask)) infinity (seq 1 n)
  = if (1 <=? index) && (index <=? Z.of_nat n) then nth (Z.to_nat index) table infinity else infinity.
Proof.
  intros Hn Hi Ht. induction n as [|n IH].
  - cbn [seq foldl]. destruct (Z.leb_spec 1 index), (Z.leb_spec index (Z.of_nat 0)); try done; lia.
  - rewrite seq_S, foldl_app, IH by lia. cbn [foldl].
    assert (Hnth : ∀ k, pointWords (nth k table infinity)).
    { intros k. destruct (nth_in_or_default k table infinity) as [Hin| ->]; [|apply infinity_words].
      apply list_elem_of_In in Hin. by apply (proj1 (Forall_forall _ _) Ht). }
    assert (Hp : pointWords (if (1 <=? index) && (index <=? Z.of_nat n) then nth (Z.to_nat index) table infinity else infinity))
      by (destruct (_ && _); [apply Hnth|apply infinity_words]).
    pose proof (Hnth (1 + n)%nat) as He.
    destruct (nth (1 + n) table infinity) as [[x y] z] eqn:En. destruct He as (? & ? & ?). cbn [fst snd] in *.
    destruct (if (1 <=? index) && _ then _ else _) as [[x' y'] z'] eqn:Ea. destruct Hp as (? & ? & ?). cbn [fst snd] in *.
    rewrite selectMask_spec by lia.
    destruct (Z.eqb_spec (Z.of_nat (1 + n)) index) as [Hx|Hx]; cbv beta iota zeta.
    + assert (((1 <=? index) && (index <=? Z.of_nat n)) = false) as Hf by (apply andb_false_iff; rewrite !Z.leb_gt; lia).
      assert (((1 <=? index) && (index <=? Z.of_nat (S n))) = true) as -> by (apply andb_true_iff; rewrite !Z.leb_le; lia).
      rewrite Hf in Ea. injection Ea as <- <- <-. rewrite En,  !(orMasked_spec _ _ true), !or_zero by done.
      replace (Z.to_nat index) with (1 + n)%nat by lia. by rewrite En.
    + replace (index <=? Z.of_nat (S n)) with (index <=? Z.of_nat n)
        by (destruct (Z.leb_spec index (Z.of_nat n)), (Z.leb_spec index (Z.of_nat (S n))); lia || done).
      rewrite Ea, En. by rewrite !(orMasked_spec _ _ false).
Qed.

(** The constant-time selection is the lookup, with infinity for index 0. *)
Lemma SelectJacobianPoint_lookup table index : 0 ≤ index < 16 → Forall pointWords table →
  sm2P256SelectJacobianPoint table index = if index =? 0 then infinity else nth (Z.to_nat index) table infinity.
Proof.
  intros Hi Ht. etransitivity; [exact (select_prefix table index 15 ltac:(lia) Hi Ht)|].
  destruct (Z.eqb_spec index 0) as [->|]; [done|].
  assert (((1 <=? index) && (index <=? Z.of_nat 15)) = true) as -> by (apply andb_true_iff; rewrite !Z.leb_le; lia). done.
Qed.

(** ** The windowed method

    [sm2P256ScalarMult] without masks: [None] is the point at infinity the code tracks
    with [nIsInfinityMask]. *)
Definition windowStep (table : list (jac sm2P256FieldElement)) (scalar : list Z)
    (st : option (jac sm2P256FieldElement)) (i : nat) : option (jac sm2P256FieldElement) :=
  let index := window scalar i in
  match st with
  | None => if index =? 0 then None else Some (nth (Z.to_nat index) table infinity)
  | Some q =>
      let q4 := sm2P256PointDouble (sm2P256PointDouble (sm2P256PointDouble (sm2P256PointDouble q))) in
      if index =? 0 then Some q4 else Some (sm2P256PointAdd q4 (nth (Z.to_nat index) table infinity)).2
  end.

Definition maskOf (st : option (jac sm2P256FieldElement)) : Z := match st with None => allOnes | Some _ => 0 end.

Lemma window_range scalar i : Forall is_byte scalar → 0 ≤ window scalar i < 16.
Proof.
  intros Hs. unfold window. set (b := nth _ scalar 0).
  assert (Hb : is_byte b).
  { destruct (nth_in_or_default (31 - i / 2) scalar 0) as [Hin|He]; [|by unfold b; rewrite He].
    apply list_elem_of_In in Hin. by apply (proj1 (Forall_forall _ _) Hs). }
  unfold is_byte in Hb. destruct (Nat.odd i).
  - change 15 with (Z.ones 4). rewrite Z.land_ones by lia. by apply Z.mod_pos_bound.
  - rewrite Z.shiftr_div_pow2 by lia. split; [apply Z.div_pos|apply Z.div_lt_upper_bound]; lia.
Qed.

Lemma nonZero_window i : 0 ≤ i < 16 → nonZeroToAllOnes i = if i =? 0 then 0 else allOnes.
Proof.
  intros Hi. destruct (Z.eqb_spec i 0) as [->|]; [done|]. by rewrite nonZeroToAllOnes_spec by lia.
Qed.

Lemma nth_words table k : Forall pointWords table → pointWords (nth k table infinity).
Proof.
  intros Ht. destruct (nth_in_or_default k table infinity) as [Hin| ->]; [|apply infinity_words].
  apply list_elem_of_In in Hin. by apply (proj1 (Forall_forall _ _) Ht).
Qed.

Lemma PointAdd_infinity q : (sm2P256PointAdd q infinity).1 = q.
Proof. destruct q as [[x y] z]. unfold sm2P256PointAdd, infinity. destruct (fisZero z); [done|]. by replace (fisZero zeroFE) with true. Qed.

(** A round keeps the point and its mask in step with the plain method. *)
Lemma scalarMultRound_step table scalar st i : Forall pointWords table → Forall is_byte scalar →
  (∀ q, st = Some q → pointWords q ∧ i ≠ 0%nat) →
  scalarMultRound table scalar (default infinity st, maskOf st) i =
    (default infinity (windowStep table scalar st i), maskOf (windowStep table scalar st i)) ∧
  (∀ q, windowStep table scalar st i = Some q → pointWords q).
Proof.
  intros Ht Hs Hst. pose proof (window_range scalar i Hs) as Hi.
  unfold scalarMultRound, windowStep. rewrite SelectJacobianPoint_lookup, nonZero_window by done.
  set (index := window scalar i) in *. clearbody index.
  assert (Hp : pointWords (if index =? 0 then infinity else nth (Z.to_nat index) table infinity))
    by (destruct (index =? 0); [apply infinity_words|by apply nth_words]).
  destruct st as [q|]; cbn [default maskOf from_option id].
  - destruct (Hst q eq_refl) as [Hq Hi0]. rewrite (proj2 (Nat.eqb_neq i 0)) by done.
    set (q4 := sm2P256PointDouble _). assert (Hq4 : pointWords q4) by (by do 4 apply PointDouble_words).
    clearbody q4. clear Hst Hq q.
    destruct (Z.eqb_spec index 0) as [->|Hne] in Hp |- *;
      pose proof (PointAdd_words q4 _ Hq4 Hp) as [H1 H2].
    + pose proof (PointAdd_infinity q4) as Hinf. destruct (sm2P256PointAdd q4 infinity) as [o t]. cbn [fst snd] in *. subst o.
      rewrite (copyPoint_spec q4 infinity false) by done. change (Z.land 0 (not32 0)) with 0.
      rewrite (copyPoint_spec _ _ false) by done. split; [done|]. by intros q [= <-].
    + destruct (sm2P256PointAdd q4 _) as [o t]. cbn [fst snd] in *.
      rewrite (copyPoint_spec o _ false) by done. change (Z.land allOnes (not32 0)) with allOnes.
      rewrite (copyPoint_spec _ _ true) by done. split; [done|]. by intros q [= <-].
  - set (d := if Nat.eqb i 0 then infinity else _).
    assert (Hd : pointWords d) by (unfold d; destruct (Nat.eqb i 0); [|do 4 apply PointDouble_words]; apply infinity_words).
    clearbody d. destruct (Z.eqb_spec index 0) as [->|Hne] in Hp |- *;
      (pose proof (PointAdd_words d _ Hd Hp) as [H1 H2]; destruct (sm2P256PointAdd d _) as [o t]; cbn [fst snd] in *;
       rewrite (copyPoint_spec o _ true) by done; change (not32 allOnes) with 0;
       rewrite Z.land_0_r, (copyPoint_spec _ _ false) by done; (split; [done|])); [done|].
    intros q [= <-]. by apply nth_words.
Qed.

Lemma scalarMult_rounds table scalar k n st : Forall pointWords table → Forall is_byte scalar →
  (∀ q, st = Some q → pointWords q ∧ k ≠ 0%nat) →
  foldl (scalarMultRound table scalar) (default infinity st, maskOf st) (seq k n) =
  let st' := foldl (windowStep table scalar) st (seq k n) in (default infinity st', maskOf st').
Proof.
  intros Ht Hs. revert k st. induction n as [|n IH]; intros k st Hst; [done|]. cbn [seq foldl].
  destruct (scalarMultRound_step table scalar st k Ht Hs Hst) as [-> Hw]. apply IH.
  intros q Hq. split; [by apply Hw|lia].
Qed.

Lemma insert_words k p table : pointWords p → Forall pointWords table → Forall pointWords (<[k := p]> table).
Proof. intros. by apply Forall_insert. Qed.

Lemma precompute_words x y : words9 x → words9 y → Forall pointWords (precompute x y).
Proof.
  intros Hx Hy. unfold precompute.
  assert (H0 : Forall pointWords (<[1%nat := (x, y, oneFE)]> (replicate 16 infinity))).
  { apply insert_words; [|apply Forall_replicate, infinity_words].
    split; [done|]. split; [done|]. split; [done|]. repeat (apply Forall_cons_2; [done|]). done. }
  generalize dependent (<[1%nat := (x, y, oneFE)]> (replicate 16 infinity)). intros t0 H0.
  generalize ([2; 4; 6; 8; 10; 12; 14]%nat). intros l. revert t0 H0. induction l as [|i l IH]; intros t0 H0; [done|].
  cbn [foldl]. apply IH. unfold precompStep.
  assert (Hd : pointWords (sm2P256PointDouble (nth (i / 2) t0 infinity))) by (by apply PointDouble_words, nth_words).
  apply insert_words; [by apply PointAddMixed_words|]. by apply insert_words.
Qed.

(** The constant-time scalar multiplication is the plain windowed method: with masks
    replaced by case distinctions, four doublings and one addition of the table's entry
    per four bits of the scalar, for all nine-word coordinates and all 32-byte scalars. *)
Theorem ScalarMult_windowed x y scalar : words9 x → words9 y → Forall is_byte scalar →
  sm2P256ScalarMult x y scalar = default infinity (foldl (windowStep (precompute x y) scalar) None (seq 0 64)).
Proof.
  intros Hx Hy Hs. unfold sm2P256ScalarMult.
  change (infinity, 0xffffffff) with (default infinity None, maskOf None).
  rewrite (scalarMult_rounds (precompute x y) scalar 0 64 None); [done|by apply precompute_words|done|done].
Qed.

Lemma ScalarMult_windowed_witness : words9 exA ∧ words9 exB ∧
  sm2P256ScalarMult exA exB (replicate 32 7) = default infinity (foldl (windowStep (precompute exA exB) (replicate 32 7)) None (seq 0 64)).
Proof.
  assert (Ha : words9 exA) by (apply element_words9, exA_element).
  assert (Hb : words9 exB) by (apply element_words9, exB_element).
  split; [exact Ha|]. split; [exact Hb|]. apply (ScalarMult_windowed exA exB (replicate 32 7) Ha Hb).
  apply Forall_replicate. done.
Defined.
