(* ===== verification/Sm2.v ===== *)
(** * SM2 signatures and encryption

    [src/crypto-gm/sm2/sm2.go]: key generation, signing and verification of a hash
    ([Sign], [Verify]) and of a message with an identity ([Sm2Sign], [Sm2Verify]),
    encryption and decryption with the key derivation [kdf].  The curve is the
    interface [elliptic.Curve] ([Curve]); what the code relies on of it is
    [CurveLaws], with addition only promised for different points, since the curve of
    this repository does not add a point to itself.  Random bytes are a parameter,
    the bytes of each successive read.

    Properties: the signature [Sign] returns for the nonce [k] is accepted by [Verify]
    exactly when [r + k] is not the order, up to the one sum of equal points
    ([Verify_Sign]); [Sign] returns as soon as a usable nonce is read and panics for
    the key [N - 1] ([Sign_first_nonce], [Sign_panics]); decryption undoes encryption
    ([Decrypt_Encrypt]); what [Decrypt] accepts carries the right hash
    ([Decrypt_sound]). *)

From stdpp Require Import base list strings.
From Stdlib Require Import ZArith Znumtheory Lia.
From S2P Require Import Prelude Common Words RlpEncode RlpRaw RlpDecode RlpRoundtrip RlpTotal RlpCanonical BigInt Sm3.
Local Open Scope Z_scope.

(** ** The curve interface *)

Class Curve := {
  curveN : Z;
  curveP : Z;
  curveBitSize : Z;
  curveIsOnCurve : Z → Z → bool;
  curveAdd : Z → Z → Z → Z → Z * Z;
  curveScalarMult : Z → Z → bytes → gores (Z * Z);
  curveScalarBaseMult : bytes → gores (Z * Z)
}.

(** The multiples of the base point form a group of prime order; coordinates fit
    256 bits. *)
Class CurveLaws (C : Curve) (smul : Z → Z * Z) := {
  N_prime : prime curveN;
  N_size : 2 < curveN ≤ 2 ^ 256;
  smul_mod : ∀ k, smul (k mod curveN) = smul k;
  P_size : curveP ≤ 2 ^ 256;
  bit_size : curveBitSize = 256;
  smul_coords : ∀ k, 0 ≤ (smul k).1 < curveP ∧ 0 ≤ (smul k).2 < curveP;
  smul_on_curve : ∀ k, k mod curveN ≠ 0 → curveIsOnCurve (smul k).1 (smul k).2 = true;
  base_law : ∀ b, Forall is_byte b → 0 ≤ beVal b < curveN → curveScalarBaseMult b = Ret (smul (beVal b));
  mult_law : ∀ a b, Forall is_byte b → 0 ≤ beVal b < curveN →
    curveScalarMult (smul a).1 (smul a).2 b = Ret (smul (a * beVal b));
  add_law : ∀ a b, a mod curveN ≠ b mod curveN →
    curveAdd (smul a).1 (smul a).2 (smul b).1 (smul b).2 = smul (a + b)
}.

(** ** Keys *)

Record PublicKey := { pubX : Z; pubY : Z }.
Record PrivateKey := { privPub : PublicKey; privD : Z }.

Section Sm2.
  Context {C : Curve}.

(** [randFieldElement] of the bytes read. *)
Definition randFieldElement (b : bytes) : Z := beVal b mod (curveN - 1) + 1.

(** How many bytes it reads. *)
Definition randFieldSize : Z := curveBitSize ÷ 8 + 8.

Definition GenerateKey (rand : option bytes) : gores PrivateKey :=
  match rand with
  | None => Fail "rand"
  | Some b =>
      let k := randFieldElement b in
      p ← curveScalarBaseMult (bigBytes k);
      Ret {| privPub := {| pubX := p.1; pubY := p.2 |}; privD := k |}
  end.

(** ** Signatures *)

(** [s = (k - r D) / (1 + D)] modulo [N]; [Mul] with the nil result of [ModInverse]
    panics. *)
Definition signS (D r k : Z) : gores Z :=
  let rD := D * r in
  let s := k - rD in
  let d1 := D + 1 in
  match ModInverse d1 curveN with
  | None => Crash
  | Some d1Inv => Ret ((s * d1Inv) mod curveN)
  end.

(** The two nested loops of [Sign] and [Sm2Sign]: every turn of either reads a nonce.
    [None] when the fuel runs out. *)
Fixpoint signLoop (rand : nat → option bytes) (D e : Z) (fuel i : nat) : option (gores (Z * Z)) :=
  match fuel with
  | O => None
  | S fuel =>
      match rand i with
      | None => Some (Fail "rand")
      | Some b =>
          let k := randFieldElement b in
          match curveScalarBaseMult (bigBytes k) with
          | Ret p =>
              let r := (p.1 + e) mod curveN in
              if negb (r =? 0) || (r + k =? curveN) then
                match signS D r k with
                | Ret s => if s =? 0 then signLoop rand D e fuel (S i) else Some (Ret (r, s))
                | Fail err => Some (Fail err)
                | Crash => Some Crash
                end
              else signLoop rand D e fuel (S i)
          | Fail err => Some (Fail err)
          | Crash => Some Crash
          end
      end
  end.

Definition errZeroParam : string := "zero parameter".

(** [csprng] is the AES-CTR stream keyed by the private key, the entropy and the
    hash. *)
Definition Sign (csprng : Z → bytes → bytes → nat → option bytes) (entropy : option bytes)
    (priv : PrivateKey) (hash : bytes) (fuel : nat) : option (gores (Z * Z)) :=
  match entropy with
  | None => Some (Fail "rand")
  | Some entropy =>
      if curveN =? 0 then Some (Fail errZeroParam)
      else signLoop (csprng (privD priv) entropy hash) (privD priv) (beVal hash) fuel 0
  end.

(** The equation both verifications end with. *)
Definition verifyEq (pub : PublicKey) (e r s t : Z) : gores bool :=
  p1 ← curveScalarBaseMult (bigBytes s);
  p2 ← curveScalarMult (pubX pub) (pubY pub) (bigBytes t);
  let p := curveAdd p1.1 p1.2 p2.1 p2.2 in
  Ret ((p.1 + e) mod curveN =? r).

Definition Verify (pub : PublicKey) (hash : bytes) (r s : Z) : gores bool :=
  if (r <=? 0) || (s <=? 0) then Ret false
  else if (curveN <=? r) || (curveN <=? s) then Ret false
  else
    let t := (r + s) mod curveN in
    if t =? 0 then Ret false
    else verifyEq pub (beVal hash) r s t.

(** ** Messages with an identity *)

Definition zeroByteSlice : bytes := replicate 32 0.

(** [if n := len(buf); n < 32 { buf = append(zeroByteSlice()[:32-n], buf...) }] *)
Definition pad32 (buf : bytes) : bytes := take (32 - length buf) zeroByteSlice ++ buf.

(** A fresh hash over chunks, [h.Sum(nil)]. *)
Definition hashOf (chunks : list bytes) : gores bytes :=
  r ← Sum (foldl Write New chunks) [];
  Ret r.1.

(** [a], [b] and the base point of the curve, as big integers. *)
Definition ZA (params : Z * Z * Z * Z) (pub : PublicKey) (uid : bytes) : gores bytes :=
  let uidLen := Z.of_nat (length uid) in
  if 8192 <=? uidLen then Fail "SM2: uid too large"
  else
    let '(a, b, gx, gy) := params in
    let Entla := (8 * uidLen) mod 65536 in
    h ← hashOf [[Z.land (Z.shiftr Entla 8) 255]; [Z.land Entla 255]; uid; bigBytes a; bigBytes b;
                bigBytes gx; bigBytes gy; pad32 (bigBytes (pubX pub)); bigBytes (pubY pub)];
    Ret (take 32 h).

Definition msgHash (za msg : bytes) : gores Z :=
  h ← hashOf [za; msg];
  Ret (beVal (take 32 h)).

Definition Sm2Sign (params : Z * Z * Z * Z) (rand : nat → option bytes) (priv : PrivateKey)
    (msg uid : bytes) (fuel : nat) : option (gores (Z * Z)) :=
  match (za ← ZA params (privPub priv) uid; msgHash za msg) with
  | Ret e => if curveN =? 0 then Some (Fail errZeroParam) else signLoop rand (privD priv) e fuel 0
  | Fail err => Some (Fail err)
  | Crash => Some Crash
  end.

Definition Sm2Verify (params : Z * Z * Z * Z) (pub : PublicKey) (msg uid : bytes) (r s : Z) : gores bool :=
  if (r <? 1) || (s <? 1) then Ret false
  else if (curveN <=? r) || (curveN <=? s) then Ret false
  else
    match (za ← ZA params pub uid; msgHash za msg) with
    | Fail _ => Ret false
    | Crash => Crash
    | Ret e =>
        let t := (r + s) mod curveN in
        if t =? 0 then Ret false else verifyEq pub e r s t
    end.

(** ** Encryption *)

Definition intToBytes (x : Z) : bytes := put32 (u32 x).

Definition kdfStep (x : bytes) (length j : Z) (st : SM3 * bytes) (i : nat) : gores (SM3 * bytes) :=
  let '(h, c) := st in
  let h := Reset in
  let h := Write h x in
  let h := Write h (intToBytes (Z.of_nat i + 1)) in
  r ← Sum h [];
  let '(hash, h) := r in
  if (Z.of_nat i + 1 =? j) && negb (Z.rem length 32 =? 0)
  then Ret (h, c ++ take (Z.to_nat (Z.rem length 32)) hash)
  else Ret (h, c ++ hash).

(** The key stream, and whether it has a non-zero byte. *)
Definition kdf (x y : bytes) (length : Z) : gores (bytes * bool) :=
  let x := x ++ y in
  let j := (length + 31) ÷ 32 in
  r ← foldM (kdfStep x length j) (seq 0 (Z.to_nat j)) (New, []);
  Ret (r.2, existsb (fun b => negb (b =? 0)) (take (Z.to_nat length) r.2)).

Definition xorBytes (a b : bytes) : bytes := zip_with Z.lxor a b.

(** One turn of the loop of [Encrypt]: the first 96 bytes of the ciphertext, the key
    stream and whether it can be used. *)
Definition encryptTry (pub : PublicKey) (data : bytes) (k : Z) : gores (bytes * (bytes * bool)) :=
  p1 ← curveScalarBaseMult (bigBytes k);
  p2 ← curveScalarMult (pubX pub) (pubY pub) (bigBytes k);
  let x1Buf := pad32 (bigBytes p1.1) in
  let y1Buf := pad32 (bigBytes p1.2) in
  let x2Buf := pad32 (bigBytes p2.1) in
  let y2Buf := pad32 (bigBytes p2.2) in
  h ← Sm3Sum (x2Buf ++ data ++ y2Buf);
  ct ← kdf x2Buf y2Buf (Z.of_nat (length data));
  Ret (x1Buf ++ y1Buf ++ h, ct).

Fixpoint encryptLoop (rand : nat → option bytes) (pub : PublicKey) (data : bytes) (fuel i : nat) :
    option (gores bytes) :=
  match fuel with
  | O => None
  | S fuel =>
      match rand i with
      | None => Some (Fail "rand")
      | Some b =>
          match encryptTry pub data (randFieldElement b) with
          | Ret (c, (ct, ok)) =>
              if ok then Some (Ret (4 :: c ++ xorBytes ct data))
              else encryptLoop rand pub data fuel (S i)
          | Fail err => Some (Fail err)
          | Crash => Some Crash
          end
      end
  end.

Definition Encrypt (rand : nat → option bytes) (pub : PublicKey) (data : bytes) (fuel : nat) :
    option (gores bytes) :=
  match data with
  | [] => Some (Ret data)
  | _ :: _ => encryptLoop rand pub data fuel 0
  end.

(** [data[lo:hi]] of a slice without spare capacity. *)
Definition sub (data : bytes) (lo hi : nat) : gores bytes :=
  if Nat.leb hi (length data) then Ret (take (hi - lo) (drop lo data)) else Crash.

(** The plaintext and whether the hash agreed. *)
Definition Decrypt (priv : PrivateKey) (data : bytes) : gores (bytes * bool) :=
  match data with
  | [] => Ret (data, true)
  | _ :: data =>
      let length_ := Z.of_nat (length data) - 96 in
      bx ← sub data 0 32;
      by_ ← sub data 32 64;
      let x := beVal bx in
      let y := beVal by_ in
      p ← curveScalarMult x y (bigBytes (privD priv));
      let x2Buf := pad32 (bigBytes p.1) in
      let y2Buf := pad32 (bigBytes p.2) in
      r ← kdf x2Buf y2Buf length_;
      let '(c, ok) := (r : bytes * bool) in
      if ok then
        let c := xorBytes c (drop 96 data) in
        h ← Sm3Sum (x2Buf ++ c ++ y2Buf);
        h' ← sub data 64 96;
        Ret (c, bool_decide (h = h'))
      else Fail "Decrypt: failed to decrypt"
  end.

End Sm2.

(** ** Bytes of numbers *)

Lemma bigBytes_bytes k : 0 ≤ k → Forall is_byte (bigBytes k).
Proof. intros Hk. by apply bigBytesLoop_bytes. Qed.

Lemma beVal_bigBytes k : 0 ≤ k → beVal (bigBytes k) = k.
Proof. intros Hk. destruct (Z.eq_dec k 0) as [->|]; [done|]. by apply bigBytes_spec; lia. Qed.

Lemma bigBytes_length k n : 0 ≤ k < 256 ^ Z.of_nat n → (length (bigBytes k) ≤ n)%nat.
Proof.
  intros Hk. destruct (Z.eq_dec k 0) as [->|]; [cbn; lia|].
  destruct (bigBytes_spec k ltac:(lia)) as (Hv & x & l & Hb & Hx).
  pose proof (bigBytes_bytes k ltac:(lia)) as Hby. rewrite Hb in *.
  pose proof (beVal_lower x l Hby ltac:(lia)) as Hlow. cbn [length].
  assert (256 ^ Z.of_nat (length l) < 256 ^ Z.of_nat n) as Hlt by lia. apply Z.pow_lt_mono_r_iff in Hlt; lia.
Qed.

Lemma pad32_length k : 0 ≤ k < 2 ^ 256 → length (pad32 (bigBytes k)) = 32%nat.
Proof.
  intros Hk. pose proof (bigBytes_length k 32 Hk). unfold pad32, zeroByteSlice.
  rewrite length_app, length_take, length_replicate. lia.
Qed.

Lemma beVal_pad32 k : 0 ≤ k → beVal (pad32 (bigBytes k)) = k.
Proof.
  intros Hk. unfold pad32, zeroByteSlice. rewrite take_replicate, beVal_zeros. by apply beVal_bigBytes.
Qed.

(** ** The key stream *)

Definition keyBlock (xy : bytes) (i : nat) : bytes := sm3 (xy ++ intToBytes (Z.of_nat i + 1)).

Definition keyStream (xy : bytes) (n : nat) : bytes :=
  concat (keyBlock xy <$> seq 0 (n / 32)) ++ take (n mod 32) (keyBlock xy (n / 32)).

Lemma kdfStep_spec x len j st i : ∃ h', kdfStep x len j st i =
  Ret (h', st.2 ++ if (Z.of_nat i + 1 =? j) && negb (Z.rem len 32 =? 0)
                then take (Z.to_nat (Z.rem len 32)) (keyBlock x i) else keyBlock x i).
Proof.
  destruct st as [h c]. unfold kdfStep. destruct (Sum_absorbed (x ++ intToBytes (Z.of_nat i + 1)) (Write (Write Reset x) (intToBytes (Z.of_nat i + 1))) []) as [h' Hs].
  { apply absorbed_Write, (absorbed_Write []), absorbed_Reset. }
  rewrite app_nil_r in Hs. rewrite Hs. exists h'. cbn [mbind gores_bind]. fold (keyBlock x i). by destruct (_ && _).
Qed.

Lemma kdf_full x len j n st : (∀ i, (i < n)%nat → ((Z.of_nat i + 1 =? j) && negb (Z.rem len 32 =? 0)) = false) →
  ∃ h', foldM (kdfStep x len j) (seq 0 n) st = Ret (h', st.2 ++ concat (keyBlock x <$> seq 0 n)).
Proof.
  intros Hn. induction n as [|n IH]; [exists st.1; destruct st; cbn; by rewrite app_nil_r|].
  destruct IH as [h1 H1]; [intros; apply Hn; lia|].
  rewrite seq_S, foldM_app, H1. cbn [mbind gores_bind foldM Nat.add].
  match goal with |- context [kdfStep x len j ?st n] => destruct (kdfStep_spec x len j st n) as [h' ->] end.
  exists h'. rewrite Hn by lia. cbn [mbind gores_bind snd]. rewrite fmap_app, concat_app. cbn [fmap list_fmap concat].
  by rewrite app_nil_r, app_assoc.
Qed.

Lemma keyBlocks_length xy n : length (concat (keyBlock xy <$> seq 0 n)) = (32 * n)%nat.
Proof.
  induction n as [|n IH]; [done|]. rewrite seq_S, fmap_app, concat_app, length_app, IH.
  cbn [fmap list_fmap concat]. rewrite app_nil_r. unfold keyBlock. rewrite sm3_length. lia.
Qed.

Lemma keyStream_length xy n : length (keyStream xy n) = n.
Proof.
  unfold keyStream. rewrite length_app, keyBlocks_length, length_take. unfold keyBlock. rewrite sm3_length.
  pose proof (Nat.mod_upper_bound n 32 ltac:(lia)). pose proof (Nat.div_mod_eq n 32). lia.
Qed.

Definition nonZeroKey (c : bytes) : bool := existsb (fun b => negb (b =? 0)) c.

Lemma kdf_spec x y n : kdf x y (Z.of_nat n) = Ret (keyStream (x ++ y) n, nonZeroKey (keyStream (x ++ y) n)).
Proof.
  unfold kdf. rewrite Z.quot_div_nonneg by lia.
  pose proof (Nat.mod_upper_bound n 32 ltac:(lia)) as Hm. pose proof (Nat.div_mod_eq n 32) as Hd.
  assert (Hrem : Z.rem (Z.of_nat n) 32 = Z.of_nat (n mod 32)) by (rewrite Z.rem_mod_nonneg by lia; by rewrite Nat2Z.inj_mod).
  assert (Hfold : ∃ h, foldM (kdfStep (x ++ y) (Z.of_nat n) ((Z.of_nat n + 31) / 32))
    (seq 0 (Z.to_nat ((Z.of_nat n + 31) / 32))) (New, []) = Ret (h, keyStream (x ++ y) n)).
  { destruct (Nat.eq_dec (n mod 32) 0) as [H0|H0].
    - replace ((Z.of_nat n + 31) / 32) with (Z.of_nat (n / 32)) by (apply Z.div_unique with 31; lia).
      rewrite Nat2Z.id. 
      match goal with |- context [foldM _ _ ?st] => destruct (kdf_full (x ++ y) (Z.of_nat n) (Z.of_nat (n / 32)) (n / 32) st) as [h ->] end.
      { intros. rewrite Hrem, H0. apply andb_false_r. }
      exists h. unfold keyStream. by rewrite H0, take_0, app_nil_r.
    - replace ((Z.of_nat n + 31) / 32) with (Z.of_nat (S (n / 32)))
        by (apply Z.div_unique with (Z.of_nat (n mod 32) - 1); lia).
      rewrite Nat2Z.id, seq_S, foldM_app.
      match goal with |- context [foldM _ _ ?st] =>
        destruct (kdf_full (x ++ y) (Z.of_nat n) (Z.of_nat (S (n / 32))) (n / 32) st) as [h1 ->] end.
      { intros. apply andb_false_iff. left. apply Z.eqb_neq. lia. }
      cbn [mbind gores_bind foldM Nat.add].
      match goal with |- context [kdfStep (x ++ y) ?a ?b ?st ?c] => destruct (kdfStep_spec (x ++ y) a b st c) as [h ->] end.
      exists h. cbn [mbind gores_bind snd]. rewrite Hrem, Nat2Z.id.
      replace ((Z.of_nat (n / 32) + 1 =? Z.of_nat (S (n / 32))) && negb (Z.of_nat (n mod 32) =? 0)) with true; [done|].
      symmetry. apply andb_true_iff. split; [apply Z.eqb_eq; lia|]. apply negb_true_iff, Z.eqb_neq. lia. }
  destruct Hfold as [h ->]. cbn [mbind gores_bind snd]. rewrite Nat2Z.id.
  rewrite take_ge by (by rewrite keyStream_length). done.
Qed.

Lemma xorBytes_involutive a b : length a = length b → xorBytes a (xorBytes a b) = b.
Proof.
  revert b. induction a as [|x a IH]; intros [|y b] Hl; try done. cbn in *. injection Hl as Hl.
  rewrite IH by done. by rewrite <- Z.lxor_assoc, Z.lxor_nilpotent, Z.lxor_0_l.
Qed.

(** ** Correctness over a lawful curve *)

Section Correct.
  Context {C : Curve} (smul : Z → Z * Z) {L : CurveLaws C smul}.

Lemma N_big : 2 < curveN ≤ 2 ^ 256.
Proof. apply N_size. Qed.

Lemma N_pos : 0 < curveN.
Proof. pose proof N_big. lia. Qed.

Lemma N_gt1 : 1 < curveN.
Proof. pose proof N_big. lia. Qed.

Lemma N_ne0 : curveN ≠ 0.
Proof. pose proof N_big. lia. Qed.

Lemma modN_range z : 0 ≤ z mod curveN < curveN.
Proof. apply Z.mod_pos_bound, N_pos. Qed.

Lemma nonce_range b : 0 < randFieldElement b < curveN.
Proof.
  pose proof N_big. assert (Hp : 0 < curveN - 1) by lia. unfold randFieldElement.
  pose proof (Z.mod_pos_bound (beVal b) (curveN - 1) Hp). lia.
Qed.

Lemma base_smul k : 0 ≤ k < curveN → curveScalarBaseMult (bigBytes k) = Ret (smul k).
Proof.
  intros Hk. rewrite base_law; [by rewrite beVal_bigBytes by lia|apply bigBytes_bytes; lia|].
  rewrite beVal_bigBytes; lia.
Qed.

Lemma mult_smul a k : 0 ≤ k < curveN → curveScalarMult (smul a).1 (smul a).2 (bigBytes k) = Ret (smul (a * k)).
Proof.
  intros Hk. rewrite mult_law; [by rewrite beVal_bigBytes by lia|apply bigBytes_bytes; lia|].
  rewrite beVal_bigBytes; lia.
Qed.

Lemma smul_range k : 0 ≤ (smul k).1 < 2 ^ 256 ∧ 0 ≤ (smul k).2 < 2 ^ 256.
Proof. pose proof (@P_size C smul L). pose proof (@smul_coords C smul L k). lia. Qed.

Lemma smul_congr a b : a mod curveN = b mod curveN → smul a = smul b.
Proof.
  intros H. pose proof (@smul_mod C smul L a) as Ha. pose proof (@smul_mod C smul L b) as Hb. congruence.
Qed.

(** *** Signing *)

(** The nonce [k] gives the signature [(r, s)]. *)
Definition signature (D e k r s : Z) : Prop :=
  r = ((smul k).1 + e) mod curveN ∧ r ≠ 0 ∧ s ≠ 0 ∧ signS D r k = Ret s.

Lemma signS_eq D r k s : signS D r k = Ret s → 0 ≤ s < curveN ∧ (s + D * (r + s)) mod curveN = k mod curveN.
Proof.
  pose proof N_big. unfold signS. destruct (ModInverse (D + 1) curveN) as [v|] eqn:E; [|done]. intros [= <-].
  destruct (ModInverse_Some curveN (D + 1) N_gt1 v E) as [Hv Hi].
  split; [apply Z.mod_pos_bound; lia|].
  set (N := curveN) in *. clearbody N.
  pose proof (Z.div_mod ((D + 1) * v) N ltac:(lia)) as E1. rewrite Hi in E1.
  pose proof (Z.div_mod ((k - D * r) * v) N ltac:(lia)) as E2.
  set (q1 := (D + 1) * v / N) in *. set (q2 := (k - D * r) * v / N) in *. set (s := ((k - D * r) * v) mod N) in *.
  replace (s + D * (r + s)) with (k + ((k - D * r) * q1 - (D + 1) * q2) * N); [apply Z.mod_add; lia|].
  assert (Es : s = (k - D * r) * v - N * q2) by lia. clearbody s. subst s.
  transitivity ((k - D * r) * ((D + 1) * v) - (D + 1) * N * q2 + D * r); [rewrite E1; ring|ring].
Qed.

Lemma signLoop_signature rand D e fuel i r s : signLoop rand D e fuel i = Some (Ret (r, s)) →
  ∃ k, 0 < k < curveN ∧ signature D e k r s.
Proof.
  revert i. induction fuel as [|fuel IH]; intros i; cbn [signLoop]; [done|].
  destruct (rand i) as [b|]; [|done]. pose proof (nonce_range b) as Hk. set (k := randFieldElement b) in *.
  rewrite base_smul by lia.
  destruct (_ || _) eqn:Hor; [|apply IH]. destruct (signS _ _ k) as [s'| |] eqn:Hs; try done.
  destruct (Z.eqb_spec s' 0); [apply IH|]. intros [= <- <-]. exists k. split; [done|]. split; [done|].
  split; [|done]. intros Hr. rewrite Hr in Hor. cbn in Hor. apply Z.eqb_eq in Hor. lia.
Qed.

(** The verification of a signature, for any hash value [e]. *)
Lemma verify_signature D e k r s : 0 < k < curveN → signature D e k r s →
  let t := (r + s) mod curveN in
  0 < r < curveN ∧ 0 < s < curveN ∧ (t = 0 ↔ r + k = curveN) ∧
  ((2 * s) mod curveN ≠ k → verifyEq {| pubX := (smul D).1; pubY := (smul D).2 |} e r s t = Ret true).
Proof.
  intros Hk (Hr & Hr0 & Hs0 & Hs) t. pose proof N_big as HN.
  destruct (signS_eq _ _ _ _ Hs) as [Hsr Heq].
  pose proof (modN_range ((smul k).1 + e)) as Hrr. rewrite <- Hr in Hrr.
  assert (Ht : 0 ≤ t < curveN) by (apply Z.mod_pos_bound; lia).
  assert (Heq' : (s + D * t) mod curveN = k).
  { transitivity ((s + D * (r + s)) mod curveN); [|rewrite Heq; apply Z.mod_small; lia]. unfold t.
    rewrite <- (Z.add_mod_idemp_r s (D * _)), Z.mul_mod_idemp_r, Z.add_mod_idemp_r by apply N_ne0. done. }
  split; [lia|]. split; [lia|]. split.
  - unfold signS in Hs. destruct (ModInverse (D + 1) curveN) as [v|] eqn:E; [|done]. injection Hs as Hsv.
    destruct (ModInverse_Some curveN (D + 1) N_gt1 v E) as [Hv Hi]. split.
    + intros H0. rewrite H0, Z.mul_0_r, Z.add_0_r, Z.mod_small in Heq' by lia.
      unfold t in H0. rewrite Heq' in H0. apply Z.mod_divide in H0 as [q Hq]; [|lia].
      clear - Hq Hrr Hr0 Hk HN. set (M := curveN) in *. clearbody M.
      assert (0 < q * M < 2 * M) by lia. assert (q = 1) as -> by nia. lia.
    + intros Hrk. unfold t. rewrite <- Hsv. replace (k - D * r) with (curveN - (D + 1) * r) by lia.
      rewrite <- Z.add_mod_idemp_r, Z.mod_mod by lia. rewrite Z.add_mod_idemp_r by lia.
      replace (r + (curveN - (D + 1) * r) * v) with (r * (1 - (D + 1) * v) + v * curveN) by ring.
      rewrite Z.mod_add by lia. rewrite <- Z.mul_mod_idemp_r by lia.
      rewrite <- Zminus_mod_idemp_r, Hi. by rewrite Z.mul_0_r.
  - intros H2. unfold verifyEq. cbn [pubX pubY]. rewrite base_smul by lia. cbn [mbind gores_bind].
    rewrite mult_smul by lia. cbn [mbind gores_bind]. rewrite (@add_law C smul L).
    + assert (smul (s + D * t) = smul k) as ->.
      { apply smul_congr. rewrite Heq'. symmetry. apply Z.mod_small. lia. }
      rewrite <- Hr, Z.eqb_refl. done.
    + intros He. apply H2. rewrite <- Heq'. replace (2 * s) with (s + s) by lia.
      rewrite <- (Z.add_mod_idemp_r s s), He, Z.add_mod_idemp_r by lia. done.
Qed.

(** The checks of [Verify] and [Sm2Verify] before the equation. *)
Lemma Verify_checks pub hash r s : 0 < r < curveN → 0 < s < curveN →
  Verify pub hash r s = if (r + s) mod curveN =? 0 then Ret false
                        else verifyEq pub (beVal hash) r s ((r + s) mod curveN).
Proof.
  intros Hr Hs. unfold Verify.
  rewrite (proj2 (Z.leb_gt r 0)), (proj2 (Z.leb_gt s 0)), (proj2 (Z.leb_gt curveN r)), (proj2 (Z.leb_gt curveN s)) by lia.
  done.
Qed.

Definition keyPair (priv : PrivateKey) : Prop :=
  0 ≤ privD priv < curveN ∧ privPub priv = {| pubX := (smul (privD priv)).1; pubY := (smul (privD priv)).2 |}.

(** What [Sign] returns, and what [Verify] makes of it. *)
Lemma Sign_verifies csprng entropy priv hash fuel r s : keyPair priv →
  Sign csprng entropy priv hash fuel = Some (Ret (r, s)) →
  ∃ k, 0 < k < curveN ∧ r = ((smul k).1 + beVal hash) mod curveN ∧ 0 < r < curveN ∧ 0 < s < curveN ∧
    (r + k = curveN → Verify (privPub priv) hash r s = Ret false) ∧
    (r + k ≠ curveN → (2 * s) mod curveN ≠ k → Verify (privPub priv) hash r s = Ret true).
Proof.
  intros [HD Hpub]. unfold Sign. destruct entropy as [entropy|]; [|done].
  destruct (Z.eqb_spec curveN 0) as [|_]; [done|]. intros HS.
  apply signLoop_signature in HS as (k & Hk & Hsig). exists k. split; [done|].
  destruct (verify_signature _ _ _ _ _ Hk Hsig) as (Hr & Hs & Ht & Hv). destruct Hsig as [Hre _].
  split; [done|]. split; [done|]. split; [done|]. rewrite Verify_checks, Hpub by done. split.
  - intros Hrk. by rewrite (proj2 (Z.eqb_eq _ 0) (proj2 Ht Hrk)).
  - intros Hrk H2. rewrite (proj2 (Z.eqb_neq _ 0)); [by apply Hv|]. intros H0. by apply Hrk, Ht.
Qed.


(** The checks before the equation accept a signature a nonce gives, for either kind of
    verification. *)
Lemma Sm2Verify_Sm2Sign params rand priv msg uid fuel r s : keyPair priv →
  Sm2Sign params rand priv msg uid fuel = Some (Ret (r, s)) →
  ∃ k, 0 < k < curveN ∧
    (r + k = curveN → Sm2Verify params (privPub priv) msg uid r s = Ret false) ∧
    (r + k ≠ curveN → (2 * s) mod curveN ≠ k → Sm2Verify params (privPub priv) msg uid r s = Ret true).
Proof.
  intros [HD Hpub]. unfold Sm2Sign, Sm2Verify. destruct (_ ← ZA _ _ _; _) as [e| |]; try done.
  destruct (Z.eqb_spec curveN 0) as [|_]; [done|]. intros HS.
  apply signLoop_signature in HS as (k & Hk & Hsig). exists k. split; [done|].
  destruct (verify_signature _ _ _ _ _ Hk Hsig) as (Hr & Hs & Ht & Hv).
  rewrite (proj2 (Z.ltb_ge r 1)), (proj2 (Z.ltb_ge s 1)), (proj2 (Z.leb_gt curveN r)), (proj2 (Z.leb_gt curveN s)) by lia.
  cbn [orb]. rewrite Hpub. split.
  - intros Hrk. by rewrite (proj2 (Z.eqb_eq _ 0) (proj2 Ht Hrk)).
  - intros Hrk H2. rewrite (proj2 (Z.eqb_neq _ 0)); [by apply Hv|]. intros H0. by apply Hrk, Ht.
Qed.

(** A nonce [Sign] does not pass over. *)
Definition usable (D e : Z) (b : bytes) : Prop :=
  let k := randFieldElement b in
  ((smul k).1 + e) mod curveN ≠ 0 ∧
  ∃ s, signS D (((smul k).1 + e) mod curveN) k = Ret s ∧ s ≠ 0.

(** [Sign] returns: when the reads up to the [j]-th succeed and the [j]-th gives a
    usable nonce, [j + 1] turns are enough, for any private key but [N - 1]. *)
Theorem Sign_first_nonce csprng entropy priv hash j b : keyPair priv → privD priv ≠ curveN - 1 →
  (∀ i, (i ≤ j)%nat → csprng (privD priv) entropy hash i ≠ None) →
  csprng (privD priv) entropy hash j = Some b → usable (privD priv) (beVal hash) b →
  ∃ r s, Sign csprng (Some entropy) priv hash (S j) = Some (Ret (r, s)).
Proof.
  intros [HD _] Hne Hall Hj Hu. unfold Sign. destruct (Z.eqb_spec curveN 0) as [HN0|_]; [by apply N_ne0 in HN0|].
  set (rand := csprng (privD priv) entropy hash) in *. set (D := privD priv) in *. clearbody rand D.
  assert (Hinv : ∃ v, ModInverse (D + 1) curveN = Some v).
  { apply ModInverse_prime; [apply N_prime|]. rewrite Z.mod_small by lia. lia. }
  assert (Hloop : ∀ n i, (i + n = j)%nat → ∃ r s, signLoop rand D (beVal hash) (S n) i = Some (Ret (r, s))); [|by apply Hloop].
  induction n as [|n IH]; intros i Hin.
  - assert (i = j) as -> by lia. cbn [signLoop]. rewrite Hj, base_smul by (pose proof (nonce_range b); lia).
    destruct Hu as (Hr & s & Hs & Hs0). rewrite (proj2 (Z.eqb_neq _ 0)) by done. cbn [negb orb].
    rewrite Hs, (proj2 (Z.eqb_neq s 0)) by done. by do 2 eexists.
  - change (signLoop rand D (beVal hash) (S (S n)) i) with
      (match rand i with
       | None => Some (Fail "rand")
       | Some b =>
          match curveScalarBaseMult (bigBytes (randFieldElement b)) with
          | Ret p =>
              let r := (p.1 + beVal hash) mod curveN in
              if negb (r =? 0) || (r + randFieldElement b =? curveN) then
                match signS D r (randFieldElement b) with
                | Ret s => if s =? 0 then signLoop rand D (beVal hash) (S n) (S i) else Some (Ret (r, s))
                | Fail err => Some (Fail err)
                | Crash => Some Crash
                end
              else signLoop rand D (beVal hash) (S n) (S i)
          | Fail err => Some (Fail err)
          | Crash => Some Crash
          end
       end).
    specialize (Hall i ltac:(lia)). destruct (rand i) as [b'|]; [|done].
    rewrite base_smul by (pose proof (nonce_range b'); lia).
    cbv zeta. destruct (_ || _); [|apply IH; lia]. unfold signS. destruct Hinv as [v ->].
    match goal with |- context [if ?x =? 0 then _ else _] => destruct (x =? 0) end; [apply IH; lia|]. by do 2 eexists.
Qed.

(** For the private key [N - 1], which [GenerateKey] can return, [1 + D] has no
    inverse: [Sign] panics at the first nonce with a non-zero [r]. *)
Theorem Sign_panics csprng entropy priv hash fuel b : privD priv = curveN - 1 →
  csprng (privD priv) entropy hash 0%nat = Some b → ((smul (randFieldElement b)).1 + beVal hash) mod curveN ≠ 0 →
  Sign csprng (Some entropy) priv hash (S fuel) = Some Crash.
Proof.
  intros HD Hb Hr. unfold Sign. destruct (Z.eqb_spec curveN 0) as [HN0|_]; [by apply N_ne0 in HN0|].
  cbn [signLoop]. rewrite Hb, base_smul by (pose proof (nonce_range b); lia).
  rewrite (proj2 (Z.eqb_neq _ 0)) by done. cbn [negb orb]. unfold signS.
  rewrite (proj2 (ModInverse_None curveN (privD priv + 1) N_gt1)); [done|].
  rewrite HD. replace (curveN - 1 + 1) with curveN by lia. rewrite Z.gcd_diag. pose proof N_big. lia.
Qed.

(** *** Encryption *)

Lemma sub_spec data lo hi : (hi ≤ length data)%nat → sub data lo hi = Ret (take (hi - lo) (drop lo data)).
Proof. intros H. unfold sub. by rewrite (proj2 (Nat.leb_le _ _) H). Qed.

(** What a turn of the encryption loop computes. *)
Lemma encryptTry_spec D data k : 0 < k < curveN →
  let p1 := smul k in let p2 := smul (D * k) in
  let x2 := pad32 (bigBytes p2.1) in let y2 := pad32 (bigBytes p2.2) in
  encryptTry {| pubX := (smul D).1; pubY := (smul D).2 |} data k =
  Ret (pad32 (bigBytes p1.1) ++ pad32 (bigBytes p1.2) ++ sm3 (x2 ++ data ++ y2),
       (keyStream (x2 ++ y2) (length data), nonZeroKey (keyStream (x2 ++ y2) (length data)))).
Proof.
  intros Hk p1 p2 x2 y2. unfold encryptTry. cbn [pubX pubY]. rewrite base_smul, mult_smul by lia.
  cbn [mbind gores_bind]. rewrite Sm3Sum_sm3. cbn [mbind gores_bind]. by rewrite kdf_spec.
Qed.

Lemma encryptLoop_Ret rand D data fuel i ct :
  encryptLoop rand {| pubX := (smul D).1; pubY := (smul D).2 |} data fuel i = Some (Ret ct) →
  ∃ k, 0 < k < curveN ∧ let p1 := smul k in let p2 := smul (D * k) in
    let x2 := pad32 (bigBytes p2.1) in let y2 := pad32 (bigBytes p2.2) in
    nonZeroKey (keyStream (x2 ++ y2) (length data)) = true ∧
    ct = 4 :: (pad32 (bigBytes p1.1) ++ pad32 (bigBytes p1.2) ++ sm3 (x2 ++ data ++ y2)) ++
              xorBytes (keyStream (x2 ++ y2) (length data)) data.
Proof.
  revert i. induction fuel as [|fuel IH]; intros i; cbn [encryptLoop]; [done|].
  destruct (rand i) as [b|]; [|done]. pose proof (nonce_range b) as Hk.
  rewrite encryptTry_spec by done. destruct (nonZeroKey _) eqn:Hz; [|apply IH].
  intros [= <-]. by exists (randFieldElement b).
Qed.

(** The turn of the decryption of a ciphertext laid out as [Encrypt] lays it out. *)
Lemma Decrypt_layout priv k h c : 0 ≤ privD priv < curveN → length h = 32%nat →
  let p2 := smul (k * privD priv) in
  let x2 := pad32 (bigBytes p2.1) in let y2 := pad32 (bigBytes p2.2) in
  let key := keyStream (x2 ++ y2) (length c) in
  Decrypt priv (4 :: (pad32 (bigBytes (smul k).1) ++ pad32 (bigBytes (smul k).2) ++ h) ++ c) =
  if nonZeroKey key
  then Ret (xorBytes key c, bool_decide (sm3 (x2 ++ xorBytes key c ++ y2) = h))
  else Fail "Decrypt: failed to decrypt".
Proof.
  intros HD Hh p2 x2 y2 key. destruct (smul_range k) as [Hx Hy].
  pose proof (pad32_length _ Hx) as Lx. pose proof (pad32_length _ Hy) as Ly.
  pose proof (beVal_pad32 (smul k).1 (proj1 Hx)) as Vx. pose proof (beVal_pad32 (smul k).2 (proj1 Hy)) as Vy.
  unfold Decrypt. set (X := pad32 (bigBytes (smul k).1)) in *. set (Y := pad32 (bigBytes (smul k).2)) in *.
  assert (Hlen : length ((X ++ Y ++ h) ++ c) = (96 + length c)%nat) by (rewrite !length_app; lia).
  rewrite !sub_spec by lia.
  replace (take (32 - 0) (drop 0 ((X ++ Y ++ h) ++ c))) with X
    by (rewrite drop_0, <- !app_assoc, take_app_length'; lia || done).
  replace (take (64 - 32) (drop 32 ((X ++ Y ++ h) ++ c))) with Y
    by (rewrite <- !app_assoc, drop_app_length', take_app_length'; lia || done).
  cbn [mbind gores_bind]. rewrite Vx, Vy, mult_smul by done. fold p2. cbn [mbind gores_bind]. fold x2 y2.
  replace (Z.of_nat (length ((X ++ Y ++ h) ++ c)) - 96) with (Z.of_nat (length c)) by lia.
  rewrite kdf_spec. cbn [mbind gores_bind]. fold key. destruct (nonZeroKey key); [|done].
  rewrite (drop_app_length' (X ++ Y ++ h) c 96) by (rewrite !length_app; lia).
  rewrite Sm3Sum_sm3. cbn [mbind gores_bind].
  replace (take (96 - 64) (drop 64 ((X ++ Y ++ h) ++ c))) with h; [done|].
  replace ((X ++ Y ++ h) ++ c) with ((X ++ Y) ++ h ++ c) by (by rewrite <- !app_assoc).
  rewrite drop_app_length' by (rewrite length_app; lia). by rewrite take_app_length' by lia.
Qed.

(** What [Encrypt] returns is decrypted. *)
Lemma Encrypt_decrypts rand priv data fuel ct : keyPair priv →
  Encrypt rand (privPub priv) data fuel = Some (Ret ct) → Decrypt priv ct = Ret (data, true).
Proof.
  intros [HD Hpub]. unfold Encrypt. destruct data as [|d data]; [by intros [= <-]|].
  rewrite Hpub. intros HE. apply encryptLoop_Ret in HE as (k & Hk & HE).
  remember (d :: data) as msg eqn:Hmsg. clear Hmsg. destruct HE as [Hz ->].
  rewrite (Z.mul_comm (privD priv) k) in *. rewrite Decrypt_layout by (done || apply sm3_length).
  match goal with |- context [xorBytes (keyStream ?xy (length msg)) msg] =>
    set (key := keyStream xy (length msg)) in *;
    assert (Hl : length (xorBytes key msg) = length msg)
      by (unfold xorBytes; rewrite length_zip_with; unfold key; rewrite keyStream_length; lia);
    rewrite !Hl; fold key
  end.
  rewrite Hz, xorBytes_involutive by (unfold key; apply keyStream_length). by rewrite bool_decide_eq_true_2.
Qed.

Lemma Encrypt_length rand priv data fuel ct : keyPair priv → data ≠ [] →
  Encrypt rand (privPub priv) data fuel = Some (Ret ct) → length ct = (97 + length data)%nat.
Proof.
  intros [HD Hpub] Hd. unfold Encrypt. destruct data as [|d data]; [done|]. rewrite Hpub. intros HE.
  apply encryptLoop_Ret in HE as (k & Hk & _ & ->). destruct (smul_range k) as [Hx Hy].
  cbn [length]. rewrite !length_app, !pad32_length, sm3_length by done. unfold xorBytes. rewrite length_zip_with, keyStream_length.
  cbn [length]. lia.
Qed.

(** Decryption undoes encryption: for a key pair, whatever [Encrypt] returns for
    the public key, [Decrypt] with the private key gives the plaintext back and its
    hash agrees. *)
Theorem Decrypt_Encrypt rand priv data fuel ct : keyPair priv →
  Encrypt rand (privPub priv) data fuel = Some (Ret ct) → Decrypt priv ct = Ret (data, true).
Proof. apply Encrypt_decrypts. Qed.

(** Encryption goes on until a nonce gives a key stream that is not all zero. *)
Definition usableKey (D : Z) (data b : bytes) : Prop :=
  let p2 := smul (D * randFieldElement b) in
  nonZeroKey (keyStream (pad32 (bigBytes p2.1) ++ pad32 (bigBytes p2.2)) (length data)) = true.

(** [Encrypt] returns: when the reads up to the [j]-th succeed and the [j]-th
    gives a key stream with a non-zero byte, [j + 1] turns are enough. *)
Theorem Encrypt_returns rand priv data j b : keyPair priv →
  (∀ i, (i ≤ j)%nat → rand i ≠ None) → rand j = Some b → usableKey (privD priv) data b →
  ∃ ct, Encrypt rand (privPub priv) data (S j) = Some (Ret ct).
Proof.
  intros [HD Hpub] Hall Hj Hu. unfold Encrypt. destruct data as [|d data]; [by eexists|]. rewrite Hpub.
  remember (d :: data) as msg eqn:Hmsg. clear Hmsg.
  assert (Hloop : ∀ n i, (i + n = j)%nat → ∃ ct, encryptLoop rand {| pubX := (smul (privD priv)).1; pubY := (smul (privD priv)).2 |} msg (S n) i = Some (Ret ct));
    [|by apply Hloop].
  induction n as [|n IH]; intros i Hin; cbn [encryptLoop]; specialize (Hall i ltac:(lia)).
  - assert (i = j) as -> by lia. rewrite Hj, encryptTry_spec by apply nonce_range. rewrite Hu. by eexists.
  - destruct (rand i) as [b'|]; [|done]. rewrite encryptTry_spec by apply nonce_range.
    destruct (nonZeroKey _); [by eexists|]. apply IH. lia.
Qed.

(** What [Decrypt] accepts as intact carries the hash of the plaintext it returns. *)
Lemma Decrypt_sound priv ct msg : Decrypt priv ct = Ret (msg, true) → ct = [] ∧ msg = [] ∨
  ∃ x2 y2, (97 ≤ length ct)%nat ∧ take 32 (drop 65 ct) = sm3 (x2 ++ msg ++ y2).
Proof.
  unfold Decrypt. destruct ct as [|tag ct]; [intros [= <-]; by left|]. unfold sub. intros HD. right.
  destruct (Nat.leb 32 (length ct)); [|done]. destruct (Nat.leb 64 (length ct)); [|done].
  cbn [mbind gores_bind] in HD. destruct (curveScalarMult _ _ _) as [p| |]; try done. cbn [mbind gores_bind] in HD.
  destruct (kdf _ _ _) as [[c ok]| |]; try done. cbn [mbind gores_bind] in HD. destruct ok; [|done].
  rewrite Sm3Sum_sm3 in HD. cbn [mbind gores_bind] in HD.
  destruct (Nat.leb 96 (length ct)) eqn:H96; [|done]. apply Nat.leb_le in H96. injection HD as <- Hb.
  apply bool_decide_eq_true_1 in Hb. do 2 eexists. split; [cbn; lia|]. symmetry. exact Hb.
Qed.
End Correct.

(** ** A small lawful curve

    The group of integers modulo 101, as points [(k, 3 k)]. *)

Module Toy.

Definition order : Z := 101.

Definition mul (k : Z) : Z * Z := (k mod order, (3 * k) mod order).

#[export] Instance curve : Curve := {
  curveN := order;
  curveP := order;
  curveBitSize := 256;
  curveIsOnCurve x y := y =? (3 * x) mod order;
  curveAdd x1 y1 x2 y2 := ((x1 + x2) mod order, (y1 + y2) mod order);
  curveScalarMult x y b := Ret ((x * beVal b) mod order, (y * beVal b) mod order);
  curveScalarBaseMult b := Ret (mul (beVal b))
}.

Lemma order_prime : prime order.
Proof.
  apply prime_alt. split; [done|]. intros n Hn [q Hq]. unfold order in *.
  assert (Hall : forallb (fun n => negb (Z.rem 101 (Z.of_nat n + 2) =? 0)) (seq 0 99) = true) by (vm_compute; reflexivity).
  rewrite forallb_forall in Hall. specialize (Hall (Z.to_nat (n - 2))). rewrite Z2Nat.id in Hall by lia.
  replace (n - 2 + 2) with n in Hall by lia. rewrite Hq, Z.rem_mul in Hall by lia.
  discriminate Hall. apply in_seq. lia.
Qed.

#[export] Instance laws : CurveLaws curve mul.
Proof.
  split.
  - apply order_prime.
  - vm_compute. split; [done|discriminate].
  - intros k. unfold mul, curveN, curve. f_equal; [by apply Z.mod_mod|by rewrite Z.mul_mod_idemp_r].
  - done.
  - done.
  - intros k. by split; apply Z.mod_pos_bound.
  - intros k _. unfold mul, curveIsOnCurve, curve. cbn [fst snd]. rewrite Z.mul_mod_idemp_r by done. apply Z.eqb_refl.
  - done.
  - intros a b _ _. unfold mul, curveScalarMult, curve. cbn [fst snd]. f_equal. f_equal.
    + by rewrite Z.mul_mod_idemp_l.
    + rewrite Z.mul_mod_idemp_l by done. f_equal. lia.
  - intros a b _. unfold mul, curveAdd, curve. cbn [fst snd]. rewrite <- !Zplus_mod. f_equal. f_equal. lia.
Qed.

Definition keyOf (D : Z) : PrivateKey := {| privPub := {| pubX := (mul D).1; pubY := (mul D).2 |}; privD := D |}.

(** Reads that give the nonces 1, 2, 3, … *)
Definition reads (i : nat) : option bytes := Some [Z.of_nat i].

Lemma keyOf_pair D : 0 ≤ D < order → keyPair mul (keyOf D).
Proof. by split. Qed.

End Toy.

(** *** Witnesses *)

Import Toy.


Lemma Sign_first_nonce_witness : ∃ r s, Sign (fun _ _ _ => reads) (Some []) (keyOf 7) [100] 2 = Some (Ret (r, s)).
Proof.
  apply (Sign_first_nonce mul (fun _ _ _ => reads) [] (keyOf 7) [100] 1 [1]); try done.
  split; [done|]. eexists. split; [vm_compute; reflexivity|done].
Defined.

Lemma Sign_panics_witness : Sign (fun _ _ _ => reads) (Some []) (keyOf 100) [50] 5 = Some Crash.
Proof. by apply (Sign_panics mul (fun _ _ _ => reads) [] (keyOf 100) [50] 4 [0]). Defined.

Lemma Decrypt_Encrypt_witness : ∃ ct, Encrypt reads (privPub (keyOf 7)) [1; 2; 3] 1 = Some (Ret ct) ∧
  Decrypt (keyOf 7) ct = Ret ([1; 2; 3], true).
Proof.
  eexists. split; [vm_compute; reflexivity|].
  apply (Decrypt_Encrypt mul reads (keyOf 7) [1; 2; 3] 1); [by apply keyOf_pair|vm_compute; reflexivity].
Defined.

Lemma Encrypt_returns_witness : ∃ ct, Encrypt reads (privPub (keyOf 7)) [1; 2; 3] 1 = Some (Ret ct).
Proof.
  apply (Encrypt_returns mul reads (keyOf 7) [1; 2; 3] 0 [0]); try done; vm_compute; reflexivity.
Defined.
