(* ===== verification/Encoding.v ===== *)
(** * Encodings of keys and signatures

    What the sources use of [encoding/asn1] and [encoding/base64]: the DER form of the
    struct [sm2Signature] of [src/crypto-gm/sm2/sm2.go] ([SignDigitToSignData],
    [SignDataToSignDigit]) and the standard base64 alphabet with padding, in which
    [author.json] keeps the public keys.  An error of a parser is [None]; the base64
    decoder also returns the bytes before the error, which [ValidateSig] uses.

    Properties: both encodings are read back as they were written
    ([SignDataToSignDigit_SignDigitToSignData], [b64Decode_b64Encode]). *)

From stdpp Require Import base list strings.
From Stdlib Require Import ZArith Lia.
From S2P Require Import Prelude Common Words RlpEncode RlpRaw RlpDecode RlpRoundtrip RlpTotal RlpCanonical BigInt Sm3 Sm2.
Local Open Scope Z_scope.

(** ** DER *)

Definition derLen (n : Z) : bytes :=
  if n <? 128 then [n] else let b := bigBytes n in (128 + Z.of_nat (length b)) :: b.

Definition derElem (tag : Z) (content : bytes) : bytes :=
  tag :: derLen (Z.of_nat (length content)) ++ content.

(** [makeBigInt]: two's complement with as few bytes as possible. *)
Definition derInt (n : Z) : bytes :=
  if n <? 0 then
    let b := (fun x => Z.lxor x 255) <$> bigBytes (- n - 1) in
    match b with
    | x :: _ => if x <? 128 then 255 :: b else b
    | [] => [255]
    end
  else
    match bigBytes n with
    | [] => [0]
    | x :: b => if 128 <=? x then 0 :: x :: b else x :: b
    end.

(** The bytes of a long length; a length that would pass 31 bits or starts with a zero
    is refused. *)
Fixpoint parseLenLoop (n : nat) (acc : Z) (b : bytes) : option (Z * bytes) :=
  match n with
  | O => Some (acc, b)
  | S n =>
      match b with
      | [] => None
      | x :: b =>
          if 2 ^ 23 <=? acc then None
          else let acc := acc * 256 + x in
               if acc =? 0 then None else parseLenLoop n acc b
      end
  end.

Definition parseLen (b : bytes) : option (Z * bytes) :=
  match b with
  | [] => None
  | x :: b =>
      if x <? 128 then Some (x, b)
      else if x =? 128 then None
      else match parseLenLoop (Z.to_nat (x - 128)) 0 b with
           | Some (n, b) => if n <? 128 then None else Some (n, b)
           | None => None
           end
  end.

(** An element of the expected tag: its content and what follows. *)
Definition parseElem (tag : Z) (b : bytes) : option (bytes * bytes) :=
  match b with
  | [] => None
  | t :: b =>
      if t =? tag then
        match parseLen b with
        | Some (n, b) => if n <=? Z.of_nat (length b) then Some (take (Z.to_nat n) b, drop (Z.to_nat n) b) else None
        | None => None
        end
      else None
  end.

(** [checkInteger] and [parseBigInt]. *)
Definition parseBigInt (b : bytes) : option Z :=
  match b with
  | [] => None
  | x :: b' =>
      let minimal := match b' with
                     | [] => true
                     | y :: _ => negb (((x =? 0) && (y <? 128)) || ((x =? 255) && (128 <=? y)))
                     end in
      if minimal then
        if 128 <=? x then Some (- (beVal ((fun x => Z.lxor x 255) <$> b) + 1)) else Some (beVal b)
      else None
  end.

(** [SignDigitToSignData] and [SignDataToSignDigit]; a nil integer is refused, bytes
    after the third field or after the sequence are not. *)
Definition SignDigitToSignData (v : bytes) (r s : option Z) : option bytes :=
  match r, s with
  | Some r, Some s => Some (derElem 48 (derElem 4 v ++ derElem 2 (derInt r) ++ derElem 2 (derInt s)))
  | _, _ => None
  end.

Definition SignDataToSignDigit (sign : bytes) : option (bytes * Z * Z) :=
  '(seq, _) ← parseElem 48 sign;
  '(v, b) ← parseElem 4 seq;
  '(rb, b) ← parseElem 2 b;
  r ← parseBigInt rb;
  '(sb, _) ← parseElem 2 b;
  s ← parseBigInt sb;
  Some (v, r, s).

Example der_sig : SignDigitToSignData [7] (Some 1) (Some 128) = Some [48; 10; 4; 1; 7; 2; 1; 1; 2; 2; 0; 128].
Proof. vm_compute. reflexivity. Qed.

(** ** base64 *)

Definition enc6 (v : Z) : Z :=
  if v <? 26 then 65 + v else if v <? 52 then 71 + v else if v <? 62 then v - 4 else if v =? 62 then 43 else 47.

Definition dec6 (c : Z) : option Z :=
  if (65 <=? c) && (c <=? 90) then Some (c - 65)
  else if (97 <=? c) && (c <=? 122) then Some (c - 71)
  else if (48 <=? c) && (c <=? 57) then Some (c + 4)
  else if c =? 43 then Some 62 else if c =? 47 then Some 63 else None.

Fixpoint b64Encode (b : bytes) : bytes :=
  match b with
  | x :: y :: z :: b =>
      let v := x * 65536 + y * 256 + z in
      enc6 (v / 262144) :: enc6 (v / 4096 mod 64) :: enc6 (v / 64 mod 64) :: enc6 (v mod 64) :: b64Encode b
  | [x; y] =>
      let v := x * 65536 + y * 256 in
      [enc6 (v / 262144); enc6 (v / 4096 mod 64); enc6 (v / 64 mod 64); 61]
  | [x] => let v := x * 65536 in [enc6 (v / 262144); enc6 (v / 4096 mod 64); 61; 61]
  | [] => []
  end.

(** Quanta of four characters; the bytes decoded and whether there was no error. *)
Fixpoint b64Quanta (s : bytes) : bytes * bool :=
  match s with
  | [] => ([], true)
  | a :: b :: c :: d :: s =>
      match dec6 a, dec6 b with
      | Some va, Some vb =>
          let v := va * 262144 + vb * 4096 in
          match dec6 c with
          | Some vc =>
              match dec6 d with
              | Some vd =>
                  let v := v + vc * 64 + vd in
                  let r := b64Quanta s in
                  (v / 65536 :: v / 256 mod 256 :: v mod 256 :: r.1, r.2)
              | None =>
                  if d =? 61 then
                    let v := v + vc * 64 in
                    ([v / 65536; v / 256 mod 256], match s with [] => true | _ :: _ => false end)
                  else ([], false)
              end
          | None =>
              if (c =? 61) && (d =? 61) then ([v / 65536], match s with [] => true | _ :: _ => false end)
              else ([], false)
          end
      | _, _ => ([], false)
      end
  | _ => ([], false)
  end.

(** [DecodeString]: line ends are skipped anywhere. *)
Definition b64Decode (s : bytes) : bytes * bool :=
  b64Quanta (List.filter (fun c => negb ((c =? 10) || (c =? 13))) s).

Example b64_pad : b64Decode (bytes_of_string "TWFuTQ==") = (bytes_of_string "ManM", true).
Proof. vm_compute. reflexivity. Qed.
Example b64_garbage : b64Decode (bytes_of_string "TWFuT=") = (bytes_of_string "Man", false).
Proof. vm_compute. reflexivity. Qed.

(** ** Round trips *)

Lemma parseLenLoop_spec l : ∀ acc rest, Forall is_byte l → 0 ≤ acc → (acc = 0 → ∃ x l', l = x :: l' ∧ x ≠ 0) →
  acc * 256 ^ Z.of_nat (length l) + beVal l < 2 ^ 31 →
  parseLenLoop (length l) acc (l ++ rest) = Some (acc * 256 ^ Z.of_nat (length l) + beVal l, rest).
Proof.
  induction l as [|x l IH]; intros acc rest Hl Hacc Hx Hlt; cbn [parseLenLoop length app].
  - do 2 f_equal. change (beVal []) with 0. lia.
  - apply Forall_cons in Hl as [Hxb Hl]. unfold is_byte in Hxb. rewrite beVal_cons in Hlt |- *.
    pose proof (beVal_range l Hl) as Hr. cbn [length] in Hlt |- *. rewrite Nat2Z.inj_succ, Z.pow_succ_r in Hlt |- * by lia.
    set (p := 256 ^ Z.of_nat (length l)) in *. assert (0 < p) by (apply Z.pow_pos_nonneg; lia).
    assert (acc * 256 < 2 ^ 31) by nia. rewrite (proj2 (Z.leb_gt (2 ^ 23) acc)) by lia.
    rewrite (proj2 (Z.eqb_neq (acc * 256 + x) 0)).
    + rewrite IH; [do 2 f_equal; unfold p; lia|done|lia| |unfold p in *; lia].
      intros Hz. destruct (Z.eq_dec acc 0) as [Ha|]; [|lia]. destruct (Hx Ha) as (x0 & l0 & [= <- <-] & Hne). lia.
    + destruct (Z.eq_dec acc 0) as [Ha|]; [|lia]. destruct (Hx Ha) as (x' & l' & [= <- <-] & Hne). lia.
Qed.

Lemma parseLen_derLen n rest : 0 ≤ n < 2 ^ 31 → parseLen (derLen n ++ rest) = Some (n, rest).
Proof.
  intros Hn. unfold derLen. destruct (Z.ltb_spec n 128) as [Hs|Hb].
  - cbn [app parseLen]. by rewrite (proj2 (Z.ltb_lt n 128)).
  - pose proof (bigBytes_length n 4 ltac:(change (256 ^ Z.of_nat 4) with 4294967296; lia)) as Hl.
    destruct (bigBytes_spec n ltac:(lia)) as (Hv & x & l & Hbl & Hx).
    pose proof (bigBytes_bytes n ltac:(lia)) as Hby.
    cbn [app parseLen]. assert (0 < length (bigBytes n))%nat by (rewrite Hbl; cbn; lia).
    rewrite (proj2 (Z.ltb_ge _ 128)), (proj2 (Z.eqb_neq _ 128)) by lia.
    replace (Z.to_nat (128 + Z.of_nat (length (bigBytes n)) - 128)) with (length (bigBytes n)) by lia.
    rewrite parseLenLoop_spec; [|done|lia|intros _; exists x, l; split; [done|lia]|rewrite Hv; lia].
    rewrite Z.mul_0_l, Z.add_0_l, Hv. by rewrite (proj2 (Z.ltb_ge n 128)).
Qed.

Lemma parseElem_derElem tag content rest : Z.of_nat (length content) < 2 ^ 31 →
  parseElem tag (derElem tag content ++ rest) = Some (content, rest).
Proof.
  intros Hl. unfold derElem, parseElem. cbn [app]. rewrite Z.eqb_refl, <- app_assoc, parseLen_derLen by lia.
  rewrite length_app, (proj2 (Z.leb_le _ _)) by lia. by rewrite Nat2Z.id, take_app_length, drop_app_length.
Qed.

Lemma parseBigInt_derInt n : 0 ≤ n → parseBigInt (derInt n) = Some n.
Proof.
  intros Hn. unfold derInt. rewrite (proj2 (Z.ltb_ge n 0)) by done.
  pose proof (beVal_bigBytes n Hn) as Hv. pose proof (bigBytes_bytes n Hn) as Hb.
  destruct (bigBytes n) as [|x b] eqn:E; [by rewrite <- Hv|].
  apply Forall_cons in Hb as [Hx Hb]. unfold is_byte in Hx.
  assert (Hx0 : x ≠ 0).
  { destruct (Z.eq_dec n 0) as [->|]; [by vm_compute in E|].
    destruct (bigBytes_spec n ltac:(lia)) as (_ & x' & l & E' & Hx'). rewrite E in E'. injection E' as -> ->. lia. }
  destruct (Z.leb_spec 128 x) as [H128|H128]; unfold parseBigInt.
  - rewrite (proj2 (Z.ltb_ge x 128)) by lia. cbn [andb orb negb Z.eqb Z.leb].
    change (128 <=? 0) with false. cbn iota. rewrite beVal_cons, Hv. by rewrite Z.mul_0_l.
  - rewrite (proj2 (Z.leb_gt 128 x)), Hv by lia.
    destruct b as [|y b]; [done|]. rewrite (proj2 (Z.eqb_neq x 0)), (proj2 (Z.eqb_neq x 255)) by lia. done.
Qed.

Lemma derInt_length n k : 0 ≤ n < 256 ^ Z.of_nat k → (length (derInt n) ≤ S k)%nat.
Proof.
  intros Hn. pose proof (bigBytes_length n k Hn) as Hl. unfold derInt. rewrite (proj2 (Z.ltb_ge n 0)) by lia.
  destruct (bigBytes n) as [|x b]; [cbn; lia|]. destruct (_ <=? _); cbn in *; lia.
Qed.

Lemma derElem_length tag content : Z.of_nat (length content) < 2 ^ 31 →
  (length (derElem tag content) ≤ length content + 6)%nat.
Proof.
  intros Hl. unfold derElem, derLen. cbn [length]. rewrite length_app. destruct (_ <? _); [cbn; lia|].
  cbn [length]. pose proof (bigBytes_length (Z.of_nat (length content)) 4 ltac:(change (256 ^ Z.of_nat 4) with 4294967296; lia)).
  lia.
Qed.

(** A signature is read back from its DER form. *)
Lemma SignDataToSignDigit_SignDigitToSignData v r s sig : 0 ≤ r → 0 ≤ s →
  Z.of_nat (length v + length (derInt r) + length (derInt s)) < 2 ^ 30 → SignDigitToSignData v (Some r) (Some s) = Some sig →
  SignDataToSignDigit sig = Some (v, r, s).
Proof.
  unfold SignDigitToSignData. intros Hr Hs Hv Hsig%(inj Some). subst sig.
  pose proof (derElem_length 4 v ltac:(lia)). pose proof (derElem_length 2 (derInt r) ltac:(lia)).
  pose proof (derElem_length 2 (derInt s) ltac:(lia)).
  unfold SignDataToSignDigit.
  match goal with |- context [parseElem 48 ?x] => rewrite <- (app_nil_r x) end.
  rewrite parseElem_derElem by (rewrite !length_app; lia). cbn [mbind option_bind].
  rewrite parseElem_derElem by lia. cbn [mbind option_bind]. rewrite parseElem_derElem by lia. cbn [mbind option_bind].
  rewrite parseBigInt_derInt by lia. cbn [mbind option_bind].
  match goal with |- context [parseElem 2 ?x] => rewrite <- (app_nil_r x) end.
  rewrite parseElem_derElem by lia. cbn [mbind option_bind].
  by rewrite parseBigInt_derInt by lia.
Qed.

(** *** base64 *)

Definition sixBits : list Z := Z.of_nat <$> seq 0 64.

Lemma sixBits_In v : 0 ≤ v < 64 → In v sixBits.
Proof.
  intros Hv. apply list_elem_of_In, list_elem_of_fmap. exists (Z.to_nat v). split; [lia|]. apply elem_of_seq. lia.
Qed.

Lemma dec6_enc6 v : 0 ≤ v < 64 → dec6 (enc6 v) = Some v ∧ enc6 v ≠ 10 ∧ enc6 v ≠ 13.
Proof.
  intros Hv. assert (Hall : forallb (fun v => bool_decide (dec6 (enc6 v) = Some v) && negb ((enc6 v =? 10) || (enc6 v =? 13))) sixBits = true)
    by (vm_compute; reflexivity).
  rewrite forallb_forall in Hall. specialize (Hall v (sixBits_In v Hv)).
  apply andb_prop in Hall as [H1 H2]. apply bool_decide_eq_true_1 in H1. apply negb_true_iff, orb_false_iff in H2 as [H2 H3].
  apply Z.eqb_neq in H2, H3. done.
Qed.

(** Induction on lists three elements at a time. *)
Lemma list_ind3 {A} (Q : list A → Prop) : Q [] → (∀ x, Q [x]) → (∀ x y, Q [x; y]) →
  (∀ x y z l, Q l → Q (x :: y :: z :: l)) → ∀ l, Q l.
Proof.
  intros H0 H1 H2 H3 l. assert (Q l ∧ (∀ x, Q (x :: l)) ∧ ∀ x y, Q (x :: y :: l)) as [? _]; [|done].
  induction l as [|a l (IH1 & IH2 & IH3)]; [done|]. split; [done|]. split; [done|]. intros x y. by apply H3.
Qed.

Ltac sextets :=
  repeat match goal with
  | |- context [enc6 ?v] =>
      let H := fresh in
      destruct (dec6_enc6 v) as [H _]; [first [apply Z.mod_pos_bound; lia|split; [apply Z.div_pos; lia|apply Z.div_lt_upper_bound; lia]]|];
      rewrite !H; clear H; generalize (enc6 v); intro
  end.

Lemma sextets_value v : v / 262144 * 262144 + v / 4096 mod 64 * 4096 + v / 64 mod 64 * 64 + v mod 64 = v.
Proof.
  pose proof (Z.div_mod v 64 ltac:(lia)). pose proof (Z.div_mod (v / 64) 64 ltac:(lia)) as H1.
  pose proof (Z.div_mod (v / 4096) 64 ltac:(lia)) as H2. rewrite !Z.div_div in H1, H2 by lia.
  change (64 * 64) with 4096 in H1. change (4096 * 64) with 262144 in H2. lia.
Qed.

Ltac dlia := Z.to_euclidean_division_equations; lia.

Lemma b64Quanta_b64Encode b : Forall is_byte b → b64Quanta (b64Encode b) = (b, true).
Proof.
  revert b. apply (list_ind3 (fun b => Forall is_byte b → b64Quanta (b64Encode b) = (b, true))); [done|..].
  - intros x Hb. decompose_Forall. unfold is_byte in *. cbn [b64Encode b64Quanta]. sextets. 
    cbn [Z.eqb andb]. pose proof (sextets_value (x * 65536)) as Hv.
    replace (x * 65536 mod 64) with 0 in Hv by dlia. replace (x * 65536 / 64 mod 64) with 0 in Hv by dlia.
    rewrite Z.mul_0_l, !Z.add_0_r in Hv. rewrite Hv. f_equal. f_equal. dlia.
  - intros x y Hb. decompose_Forall. unfold is_byte in *. cbn [b64Encode b64Quanta]. sextets.
    cbn [Z.eqb andb]. pose proof (sextets_value (x * 65536 + y * 256)) as Hv.
    replace ((x * 65536 + y * 256) mod 64) with 0 in Hv by dlia. rewrite Z.add_0_r in Hv. rewrite Hv.
    f_equal. f_equal; [dlia|]. f_equal. dlia.
  - intros x y z b IH Hb. decompose_Forall. unfold is_byte in *. cbn [b64Encode b64Quanta]. sextets.
    rewrite IH, sextets_value by done. cbn [fst snd]. f_equal. f_equal; [dlia|]. f_equal; [dlia|]. f_equal. dlia.
Qed.

Lemma b64Encode_noLines b : Forall is_byte b →
  List.filter (fun c => negb ((c =? 10) || (c =? 13))) (b64Encode b) = b64Encode b.
Proof.
  assert (He : ∀ v, 0 ≤ v < 64 → (enc6 v =? 10) || (enc6 v =? 13) = false).
  { intros v Hv. destruct (dec6_enc6 v Hv) as (_ & H1 & H2). by rewrite (proj2 (Z.eqb_neq _ 10)), (proj2 (Z.eqb_neq _ 13)). }
  revert b. apply (list_ind3 (fun b => Forall is_byte b → List.filter _ (b64Encode b) = b64Encode b)); [done|..].
  - intros x Hb. decompose_Forall. unfold is_byte in *. cbn [b64Encode List.filter]. by rewrite !He by dlia.
  - intros x y Hb. decompose_Forall. unfold is_byte in *. cbn [b64Encode List.filter]. by rewrite !He by dlia.
  - intros x y z b IH Hb. decompose_Forall. unfold is_byte in *. cbn [b64Encode List.filter]. rewrite !He by dlia.
    cbn [negb]. by rewrite IH.
Qed.

(** base64 text is read back, without an error. *)
Lemma b64Decode_b64Encode b : Forall is_byte b → b64Decode (b64Encode b) = (b, true).
Proof. intros Hb. unfold b64Decode. rewrite b64Encode_noLines by done. by apply b64Quanta_b64Encode. Qed.
