(* ===== verification/Signature.v ===== *)
(** * Signed messages

    [src/crypto-gm/crypto.go] (keys as bytes, [Sign], [Verify], [Ecrecover]),
    [src/signature/types.go] ([RlpHash]) and [src/eth/MsgED.go] (the signature of a
    message between nodes: [SigHash], [Sign], [ValidateSig]).  The curve is the
    interface of [Sm2]; [elliptic.Marshal] and [elliptic.Unmarshal] are the
    uncompressed form of a point.  A nil public key is [None], a key whose coordinates
    are nil is [Some None]: using either panics.

    Properties: a message signed with a node's key passes [ValidateSig] with the key
    registered for the node ([ValidateSig_MsgSign]); [ValidateSig] accepts exactly the
    messages whose payload verifies under the registered key ([ValidateSig_iff]); a
    message whose [V] is not a point panics instead of being refused
    ([ValidateSig_panics]). *)

From stdpp Require Import base list strings.
From Stdlib Require Import ZArith Znumtheory Lia.
From S2P Require Import Prelude Common Words RlpEncode RlpRaw RlpDecode RlpRoundtrip RlpTotal RlpCanonical BigInt Sm3 Sm2 Encoding.
Local Open Scope Z_scope.

(** ** Keys as bytes *)

Section Keys.
  Context {C : Curve}.

(** [elliptic.Marshal]. *)
Definition ecMarshal (x y : Z) : bytes := 4 :: pad32 (bigBytes x) ++ pad32 (bigBytes y).

(** [elliptic.Unmarshal]. *)
Definition ecUnmarshal (data : bytes) : option (Z * Z) :=
  let byteLen := Z.to_nat ((curveBitSize + 7) / 8) in
  if negb (Nat.eqb (length data) (1 + 2 * byteLen)) then None
  else
    match data with
    | 4 :: data =>
        let x := beVal (take byteLen data) in
        let y := beVal (drop byteLen data) in
        if (curveP <=? x) || (curveP <=? y) then None
        else if negb (curveIsOnCurve x y) then None
        else Some (x, y)
    | _ => None
    end.

(** [elliptic.Unmarshal] on failure leaves the coordinates nil. *)
Definition ToECDSAPub (pub : bytes) : option (option PublicKey) :=
  match pub with
  | [] => None
  | _ => Some ((fun p => {| pubX := p.1; pubY := p.2 |}) <$> ecUnmarshal pub)
  end.

Definition FromECDSAPub (pub : PublicKey) : bytes := ecMarshal (pubX pub) (pubY pub).

(** [ToECDSA], [FromECDSA]: a private key from its bytes. *)
Definition ToECDSA (prv : bytes) : gores (option PrivateKey) :=
  match prv with
  | [] => Ret None
  | _ =>
      p ← curveScalarBaseMult prv;
      Ret (Some {| privPub := {| pubX := p.1; pubY := p.2 |}; privD := beVal prv |})
  end.

Definition FromECDSA (prv : PrivateKey) : bytes := bigBytes (privD prv).

(** [sm2.Verify] of a key that may be nil or have nil coordinates: the ranges are
    checked before the coordinates are used. *)
Definition VerifyPtr (pub : option (option PublicKey)) (hash : bytes) (r s : Z) : gores bool :=
  match pub with
  | None => Crash
  | Some None =>
      if (r <=? 0) || (s <=? 0) then Ret false
      else if (curveN <=? r) || (curveN <=? s) then Ret false
      else if (r + s) mod curveN =? 0 then Ret false
      else Crash
  | Some (Some pub) => Verify pub hash r s
  end.

Definition cryptoVerify (hash sig : bytes) : gores bool :=
  match SignDataToSignDigit sig with
  | None => Ret false
  | Some (pub, r, s) => VerifyPtr (ToECDSAPub pub) hash r s
  end.

Definition Ecrecover (hash sig : bytes) : gores bytes :=
  match cryptoVerify hash sig with
  | Crash => Crash
  | Fail e => Fail e
  | Ret false => Fail "verify failed"
  | Ret true =>
      match SignDataToSignDigit sig with
      | None => Fail "asn1"
      | Some (pub, _, _) => Ret pub
      end
  end.

(** The random choices of [sm2.Sign] are its stream, its entropy and the turns given to
    its loop. *)
Record signer := { sgStream : Z → bytes → bytes → nat → option bytes; sgEntropy : option bytes; sgTurns : nat }.

Definition cryptoSign (g : signer) (hash : bytes) (prv : PrivateKey) : option (gores bytes) :=
  match Sign (sgStream g) (sgEntropy g) prv hash (sgTurns g) with
  | None => None
  | Some Crash => Some Crash
  | Some (Fail e) => Some (Fail e)
  | Some (Ret (r, s)) =>
      Some (match SignDigitToSignData (FromECDSAPub (privPub prv)) (Some r) (Some s) with
            | None => Fail "asn1"
            | Some sig => Ret sig
            end)
  end.

(** ** Messages *)

Record CommunicationInfo := {
  ciPayLoad : bytes;
  ciV : bytes;
  ciR : option Z;
  ciS : option Z;
  ciVRS : bytes
}.

(** [rlp.Encode] writes the chunks of the encode buffer to the hash; its error is
    dropped. *)
Definition RlpHash (x : gval) : gores bytes :=
  match write x reset with
  | Ok w => hashOf (toWriter w)
  | Err _ => hashOf []
  end.

Definition SigHash (payload : bytes) : gores bytes := RlpHash (VSlice [VInterface (Some (VBytes payload))]).

(** [Sign] of [MsgED.go]: an error of [crypto.Sign] is only logged, the empty signature
    then fails to parse. *)
Definition MsgSign (g : signer) (data : bytes) (prk : PrivateKey) : option (gores CommunicationInfo) :=
  match SigHash data with
  | Crash => Some Crash
  | Fail e => Some (Fail e)
  | Ret hash =>
      match cryptoSign g hash prk with
      | None => None
      | Some Crash => Some Crash
      | Some sdata =>
          Some (match SignDataToSignDigit (match sdata with Ret sig => sig | _ => [] end) with
                | None => Fail "asn1"
                | Some (v, r, s) =>
                    Ret {| ciPayLoad := data; ciV := v; ciR := Some r; ciS := Some s; ciVRS := [] |}
                end)
      end
  end.

Definition ValidateSig (nodepk : bytes) (cinfo : CommunicationInfo) : gores bool :=
  hash ← SigHash (ciPayLoad cinfo);
  match SignDigitToSignData (ciV cinfo) (ciR cinfo) (ciS cinfo) with
  | None => Ret false
  | Some sig =>
      match Ecrecover hash sig with
      | Crash => Crash
      | Fail _ => Ret false
      | Ret pub =>
          let b := (b64Decode nodepk).1 in
          Ret (bool_decide (pub = b))
      end
  end.

End Keys.

(** ** Hashes *)

Lemma hashOf_sm3 chunks : hashOf chunks = Ret (sm3 (concat chunks)).
Proof.
  unfold hashOf. destruct (Sum_absorbed (concat chunks) (foldl Write New chunks) []) as [s' Hs].
  { apply (absorbed_chunks chunks []), absorbed_Reset. }
  rewrite Hs, app_nil_r. done.
Qed.

Lemma RlpHash_encoding v e : wtVal v → encoding v = Ok e → RlpHash v = Ret (sm3 e).
Proof.
  intros Hw He. destruct (write_buffer v e Hw He) as (w & Hwr & Hb & _). unfold RlpHash. rewrite Hwr, hashOf_sm3.
  unfold toWriter. unfold toBytes in Hb. by rewrite writeChunks_concat, Hb.
Qed.

(** The hash a message is signed with covers its payload only. *)
Definition payloadHash (payload : bytes) : bytes := sm3 (encList (encStr payload)).

Lemma SigHash_payload payload : SigHash payload = Ret (payloadHash payload).
Proof.
  unfold SigHash, payloadHash. apply RlpHash_encoding; [done|]. cbn. by rewrite app_nil_r.
Qed.

(** ** Points as bytes *)

Section Validate.
  Context {C : Curve}.

(** A message with both integers present, of a size that DER and the transport allow. *)
Definition wireSized (ci : CommunicationInfo) (r s : Z) : Prop :=
  ciR ci = Some r ∧ ciS ci = Some s ∧ 0 ≤ r ∧ 0 ≤ s ∧
  Z.of_nat (length (ciV ci) + length (derInt r) + length (derInt s)) < 2 ^ 30.

Lemma ValidateSig_eq nodepk ci r s : wireSized ci r s →
  ValidateSig nodepk ci =
  match VerifyPtr (ToECDSAPub (ciV ci)) (payloadHash (ciPayLoad ci)) r s with
  | Ret true => Ret (bool_decide (ciV ci = (b64Decode nodepk).1))
  | Crash => Crash
  | _ => Ret false
  end.
Proof.
  intros (Hr & Hs & Hr0 & Hs0 & Hl). unfold ValidateSig. rewrite SigHash_payload, Hr, Hs. cbn [mbind gores_bind].
  destruct (SignDigitToSignData (ciV ci) (Some r) (Some s)) as [sig|] eqn:E; [|done].
  apply SignDataToSignDigit_SignDigitToSignData in E; [|done..].
  unfold Ecrecover, cryptoVerify. rewrite E. by destruct (VerifyPtr _ _ _ _) as [[]| |].
Qed.

(** When [ValidateSig] accepts. *)
Lemma ValidateSig_accepts nodepk ci r s : wireSized ci r s →
  ValidateSig nodepk ci = Ret true ↔
  ciV ci = (b64Decode nodepk).1 ∧ ∃ x y, ecUnmarshal (ciV ci) = Some (x, y) ∧
    Verify {| pubX := x; pubY := y |} (payloadHash (ciPayLoad ci)) r s = Ret true.
Proof.
  intros Hw. rewrite (ValidateSig_eq nodepk ci r s Hw). unfold VerifyPtr, ToECDSAPub.
  destruct (ciV ci) as [|v0 v] eqn:EV; [split; [done|]; by intros (_ & ? & ? & ? & _)|].
  rewrite <- EV. clear EV. destruct (ecUnmarshal (ciV ci)) as [[x y]|]; cbn [fmap option_fmap option_map fst snd].
  - split.
    + destruct (Verify _ _ _ _) as [[]| |] eqn:E; try done. intros [= Hb%bool_decide_eq_true_1]. eauto.
    + intros (Hv & x' & y' & [= <- <-] & ->). by rewrite bool_decide_eq_true_2.
  - split; [|by intros (_ & ? & ? & ? & _)]. by repeat case_match.
Qed.

(** What [ValidateSig] authenticates: it accepts a message exactly when [V] is the key
    registered for the peer, a point of the curve, and the signature of the payload
    verifies under it.  The field [VRS] is not covered. *)
Theorem ValidateSig_iff nodepk ci r s : wireSized ci r s →
  ValidateSig nodepk ci = Ret true ↔
  ciV ci = (b64Decode nodepk).1 ∧ ∃ x y, ecUnmarshal (ciV ci) = Some (x, y) ∧
    Verify {| pubX := x; pubY := y |} (payloadHash (ciPayLoad ci)) r s = Ret true.
Proof. apply ValidateSig_accepts. Qed.

(** A message whose [V] is no point of the curve is not refused: [ValidateSig] panics
    when [V] is empty, or when [r] and [s] pass the range checks, whatever key is
    registered for the peer. *)
Theorem ValidateSig_panics nodepk ci r s : wireSized ci r s → ecUnmarshal (ciV ci) = None →
  ciV ci = [] ∨ (0 < r < curveN ∧ 0 < s < curveN ∧ (r + s) mod curveN ≠ 0) →
  ValidateSig nodepk ci = Crash.
Proof.
  intros Hw Hu Hc. rewrite (ValidateSig_eq nodepk ci r s Hw). unfold VerifyPtr, ToECDSAPub.
  destruct (ciV ci) as [|v0 v] eqn:EV; [done|]. destruct Hc as [|(Hr & Hs & Ht)]; [done|].
  rewrite Hu. cbn [fmap option_fmap option_map].
  rewrite (proj2 (Z.leb_gt r 0)), (proj2 (Z.leb_gt s 0)), (proj2 (Z.leb_gt curveN r)), (proj2 (Z.leb_gt curveN s)) by lia.
  by rewrite (proj2 (Z.eqb_neq _ 0)).
Qed.
End Validate.

(** ** Signing and validating *)

Section Lawful.
  Context {C : Curve} (smul : Z → Z * Z) {L : CurveLaws C smul}.

Lemma ecUnmarshal_ecMarshal k : k mod curveN ≠ 0 →
  ecUnmarshal (ecMarshal (smul k).1 (smul k).2) = Some (smul k).
Proof.
  intros Hk. destruct (smul_range smul k) as [Hx Hy]. destruct (@smul_coords C smul L k) as [Hx' Hy'].
  pose proof (pad32_length _ Hx) as Lx. pose proof (pad32_length _ Hy) as Ly.
  unfold ecUnmarshal. rewrite (@bit_size C smul L). change (Z.to_nat ((256 + 7) / 8)) with 32%nat.
  unfold ecMarshal. cbn [length]. rewrite length_app, Lx, Ly. cbn [Nat.eqb negb Nat.add Nat.mul].
  rewrite take_app_length', drop_app_length' by done. rewrite !beVal_pad32 by lia.
  rewrite (proj2 (Z.leb_gt curveP (smul k).1)), (proj2 (Z.leb_gt curveP (smul k).2)) by lia. cbn [orb].
  rewrite (@smul_on_curve C smul L) by done. cbn [negb]. by destruct (smul k).
Qed.

(** A public key is read back from its bytes. *)
Lemma key_encoding prv : keyPair smul prv → privD prv ≠ 0 → ToECDSAPub (FromECDSAPub (privPub prv)) = Some (Some (privPub prv)).
Proof.
  intros [HD Hpub] H0. rewrite Hpub. unfold FromECDSAPub, ToECDSAPub. cbn [pubX pubY]. change (ecMarshal (smul (privD prv)).1 (smul (privD prv)).2) with
    (4 :: pad32 (bigBytes (smul (privD prv)).1) ++ pad32 (bigBytes (smul (privD prv)).2)) at 1.
  cbn iota. by rewrite ecUnmarshal_ecMarshal by (rewrite Z.mod_small; lia).
Qed.

Lemma FromECDSAPub_length k : length (ecMarshal (smul k).1 (smul k).2) = 65%nat.
Proof.
  destruct (smul_range smul k) as [Hx Hy]. unfold ecMarshal. cbn [length].
  by rewrite length_app, (pad32_length _ Hx), (pad32_length _ Hy).
Qed.

(** What a signed message carries. *)
Lemma MsgSign_Ret g data priv ci : keyPair smul priv → MsgSign g data priv = Some (Ret ci) →
  ∃ r s, Sign (sgStream g) (sgEntropy g) priv (payloadHash data) (sgTurns g) = Some (Ret (r, s)) ∧
    ci = {| ciPayLoad := data; ciV := FromECDSAPub (privPub priv); ciR := Some r; ciS := Some s; ciVRS := [] |} ∧
    wireSized ci r s.
Proof.
  intros Hkey. unfold MsgSign. rewrite SigHash_payload. unfold cryptoSign.
  destruct (Sign _ _ _ _ _) as [[[r s]|e|]|] eqn:HS; try done.
  destruct (SignDigitToSignData _ _ _) as [sig|] eqn:Hsig; [|done].
  destruct (Sign_verifies smul _ _ _ _ _ _ _ Hkey HS) as (k & _ & _ & Hr & Hs & _).
  pose proof (N_big smul) as HN. destruct Hkey as [_ Hpub].
  assert (Hl : Z.of_nat (length (FromECDSAPub (privPub priv)) + length (derInt r) + length (derInt s)) < 2 ^ 30).
  { rewrite Hpub. unfold FromECDSAPub. cbn [pubX pubY]. rewrite FromECDSAPub_length.
    assert (Hb : ∀ z, 0 < z < curveN → (length (derInt z) ≤ 33)%nat).
    { intros z Hz. apply (derInt_length z 32). change (256 ^ Z.of_nat 32) with (2 ^ 256). lia. }
    pose proof (Hb r Hr). pose proof (Hb s Hs). lia. }
  rewrite (SignDataToSignDigit_SignDigitToSignData _ r s sig) by (done || lia).
  intros [= <-]. exists r, s. split; [done|]. split; [done|]. unfold wireSized. cbn [ciR ciS ciV]. split_and!; (done || lia).
Qed.

(** What a signed message carries and what [ValidateSig] makes of it. *)
Lemma MsgSign_validates g data priv nodepk ci : keyPair smul priv → privD priv ≠ 0 →
  (b64Decode nodepk).1 = FromECDSAPub (privPub priv) → MsgSign g data priv = Some (Ret ci) →
  ciPayLoad ci = data ∧ ∃ k r s, ciR ci = Some r ∧ ciS ci = Some s ∧ 0 < k < curveN ∧
    r = ((smul k).1 + beVal (payloadHash data)) mod curveN ∧
    (r + k = curveN → ValidateSig nodepk ci = Ret false) ∧
    (r + k ≠ curveN → (2 * s) mod curveN ≠ k → ValidateSig nodepk ci = Ret true).
Proof.
  intros Hkey HD Hpk HM. destruct (MsgSign_Ret _ _ _ _ Hkey HM) as (r & s & HS & -> & Hw).
  destruct (Sign_verifies smul _ _ _ _ _ _ _ Hkey HS) as (k & Hk & Hr & _ & _ & Hno & Hyes).
  split; [done|]. exists k, r, s. split; [done|]. split; [done|]. split; [done|]. split; [done|]. split;
    rewrite (ValidateSig_eq _ _ r s Hw); cbn [ciV ciPayLoad]; destruct Hkey as [HDr Hpub];
    unfold FromECDSAPub; rewrite Hpub; cbn [pubX pubY]; unfold ToECDSAPub;
    change (ecMarshal (smul (privD priv)).1 (smul (privD priv)).2) with
      (4 :: pad32 (bigBytes (smul (privD priv)).1) ++ pad32 (bigBytes (smul (privD priv)).2)) at 1;
    cbn iota; rewrite ecUnmarshal_ecMarshal by (rewrite Z.mod_small; done);
    cbn [fmap option_fmap option_map VerifyPtr]; rewrite <- Hpub.
  - intros E. by rewrite (Hno E).
  - intros E1 E2. rewrite (Hyes E1 E2). rewrite bool_decide_eq_true_2; [done|].
    rewrite Hpk, Hpub. done.
Qed.

(** Signing and validation between nodes agree: a message signed with a node's private
    key carries the payload and passes [ValidateSig] under the key registered for the
    node, except for nonces with [r + k = N], which are always refused, and unless
    [Verify] adds two equal points. *)
Theorem ValidateSig_MsgSign g data priv nodepk ci : keyPair smul priv → privD priv ≠ 0 →
  (b64Decode nodepk).1 = FromECDSAPub (privPub priv) → MsgSign g data priv = Some (Ret ci) →
  ciPayLoad ci = data ∧ ∃ k r s, ciR ci = Some r ∧ ciS ci = Some s ∧ 0 < k < curveN ∧
    r = ((smul k).1 + beVal (payloadHash data)) mod curveN ∧
    (r + k = curveN → ValidateSig nodepk ci = Ret false) ∧
    (r + k ≠ curveN → (2 * s) mod curveN ≠ k → ValidateSig nodepk ci = Ret true).
Proof. apply MsgSign_validates. Qed.
End Lawful.

(** *** Witnesses *)

Import Toy.

Definition toySigner : signer := {| sgStream := fun _ _ _ => reads; sgEntropy := Some []; sgTurns := 1 |}.

(** The key of the node with private key 7, as [author.json] would hold it once decoded. *)
Definition toyPK : bytes := b64Encode (FromECDSAPub (privPub (keyOf 7))).

Lemma ValidateSig_MsgSign_witness : ∃ ci, MsgSign toySigner [1; 2; 3] (keyOf 7) = Some (Ret ci) ∧
  ciPayLoad ci = [1; 2; 3] ∧ ∃ k r s, ciR ci = Some r ∧ ciS ci = Some s ∧ 0 < k < curveN ∧
    r = ((mul k).1 + beVal (payloadHash [1; 2; 3])) mod curveN ∧
    (r + k = curveN → ValidateSig toyPK ci = Ret false) ∧
    (r + k ≠ curveN → (2 * s) mod curveN ≠ k → ValidateSig toyPK ci = Ret true).
Proof.
  eexists. split; [vm_compute; reflexivity|].
  apply (ValidateSig_MsgSign mul toySigner [1; 2; 3] (keyOf 7) toyPK); try done; vm_compute; reflexivity.
Defined.

Definition toyMsg : CommunicationInfo :=
  {| ciPayLoad := [1; 2; 3]; ciV := FromECDSAPub (privPub (keyOf 7)); ciR := Some 5; ciS := Some 9; ciVRS := [] |}.

Lemma ValidateSig_iff_witness : ValidateSig toyPK toyMsg = Ret true ↔
  ciV toyMsg = (b64Decode toyPK).1 ∧ ∃ x y, ecUnmarshal (ciV toyMsg) = Some (x, y) ∧
    Verify {| pubX := x; pubY := y |} (payloadHash (ciPayLoad toyMsg)) 5 9 = Ret true.
Proof. by apply (ValidateSig_iff toyPK toyMsg 5 9). Defined.

Lemma ValidateSig_panics_witness : ValidateSig toyPK
  {| ciPayLoad := [1; 2; 3]; ciV := [0]; ciR := Some 5; ciS := Some 9; ciVRS := [] |} = Crash.
Proof. apply (ValidateSig_panics toyPK _ 5 9); [done|vm_compute; reflexivity|by right]. Defined.
