(* ===== verification/Pns.v ===== *)
(** * Permissioned nodes

    [src/pns/PNService.go]: the table of permitted nodes that [author.json] fills at
    start-up and the questions the protocol manager asks of it.  The parsed file is the
    argument of [NewPermissionedNodeService]; nothing changes the table afterwards
    ([ReloadPNodes] does nothing), so the lock is not modelled.

    Properties: the service answers for the last enabled entry of a node in the file
    ([permission_spec]), and the key maps agree with the single lookups
    ([GetConNodesPK64_spec]). *)

From stdpp Require Import base gmap strings list.
From Stdlib Require Import ZArith Lia.
From S2P Require Import Prelude Common Sm2 Encoding.

Record PNode := { pnID : string; pnType : string; pnPK : string }.

(** An entry of [author.json]. *)
Record Node := { ndID : string; ndPK : string; ndType : string; ndStatus : string }.

Record PermissionedNodeService := { pNodes : gmap string PNode; NodePrk : PrivateKey }.

Definition addNode (pNodes : gmap string PNode) (node : Node) : gmap string PNode :=
  if bool_decide (ndStatus node = "N_ABLED")
  then <[ndID node := {| pnID := ndID node; pnType := ndType node; pnPK := ndPK node |}]> pNodes
  else pNodes.

Definition NewPermissionedNodeService (nodeprk : PrivateKey) (nodes : list Node) : PermissionedNodeService :=
  {| pNodes := foldl addNode ∅ nodes; NodePrk := nodeprk |}.

Definition GetPermissionedNodes (self : PermissionedNodeService) : gmap string string := pnPK <$> pNodes self.

Definition isConNode (n : PNode) : bool := bool_decide (pnType n = "ConsensusNode").

Definition GetPermissionedConNodes (self : PermissionedNodeService) : gmap string string :=
  pnPK <$> filter (fun kv => isConNode kv.2 = true) (pNodes self).

Definition JudgeConPermissioned (self : PermissionedNodeService) (nid : string) : bool :=
  match pNodes self !! nid with
  | Some node => isConNode node
  | None => false
  end.

Definition JudgePermissioned (self : PermissionedNodeService) (nid : string) : bool :=
  match pNodes self !! nid with Some _ => true | None => false end.

Definition GetPKByPID (self : PermissionedNodeService) (nid : string) : result string :=
  match pNodes self !! nid with
  | Some node => Ok (pnPK node)
  | None => Err ("peer is not permissioned:" +:+ String.substring 0 (String.length nid / 16) nid)
  end.

(** [None] is the nil slice. *)
Definition decodePK (node : PNode) : option bytes :=
  match b64Decode (bytes_of_string (pnPK node)) with
  | (b, true) => Some b
  | (_, false) => None
  end.

Definition GetBase64PKByPID (self : PermissionedNodeService) (nid : string) : option bytes :=
  match pNodes self !! nid with
  | Some node => decodePK node
  | None => None
  end.

(** The two loops over the table, in iteration order; [None] is the nil map returned at
    the first key that is not base64. *)
Fixpoint pkLoop (skip : PNode → bool) (nodes : list (string * PNode)) (nodeandpk : gmap string bytes) :
    option (gmap string bytes) :=
  match nodes with
  | [] => Some nodeandpk
  | (nid, node) :: nodes =>
      if skip node then pkLoop skip nodes nodeandpk
      else match decodePK node with
           | None => None
           | Some b => pkLoop skip nodes (<[nid := b]> nodeandpk)
           end
  end.

Definition GetAllNodesPK64 (order : list (string * PNode)) : option (gmap string bytes) :=
  pkLoop (fun _ => false) order ∅.

Definition GetConNodesPK64 (order : list (string * PNode)) : option (gmap string bytes) :=
  pkLoop (fun n => negb (isConNode n)) order ∅.

(** ** Lookups *)

(** The last enabled entry for a node. *)
Definition entry (nodes : list Node) (nid : string) : option PNode :=
  match List.filter (fun n => bool_decide (ndStatus n = "N_ABLED") && bool_decide (ndID n = nid)) (rev nodes) with
  | [] => None
  | n :: _ => Some {| pnID := ndID n; pnType := ndType n; pnPK := ndPK n |}
  end.

Lemma NewPermissionedNodeService_lookup prk nodes nid :
  pNodes (NewPermissionedNodeService prk nodes) !! nid = entry nodes nid.
Proof.
  unfold NewPermissionedNodeService, entry. cbn [pNodes]. induction nodes as [|n nodes IH] using rev_ind; [done|].
  rewrite foldl_app, rev_app_distr. cbn [foldl rev app List.filter]. unfold addNode at 1.
  destruct (bool_decide (ndStatus n = "N_ABLED")); [|exact IH]. cbn [andb].
  destruct (bool_decide_reflect (ndID n = nid)) as [->|Hne]; [by rewrite lookup_insert_eq|by rewrite lookup_insert_ne].
Qed.

Lemma pkLoop_spec skip order : ∀ m, NoDup order.*1 →
  match pkLoop skip order m with
  | Some m' => (∀ nid node, (nid, node) ∈ order → skip node = false → m' !! nid = decodePK node ∧ is_Some (decodePK node)) ∧
               ∀ nid, (∀ node, (nid, node) ∈ order → skip node = true) → m' !! nid = m !! nid
  | None => ∃ nid node, (nid, node) ∈ order ∧ skip node = false ∧ decodePK node = None
  end.
Proof.
  induction order as [|[nid node] order IH]; intros m Hnd; cbn [pkLoop].
  { split; [|done]. intros ? ? H. by apply elem_of_nil in H. }
  apply NoDup_cons in Hnd as [Hnin Hnd]. destruct (skip node) eqn:Hsk; [|destruct (decodePK node) as [b|] eqn:Hd].
  - specialize (IH m Hnd). destruct (pkLoop skip order m) as [m'|].
    + destruct IH as [IH1 IH2]. split.
      * intros n' d' [[= -> ->]|H]%elem_of_cons Hs; [congruence|by apply IH1].
      * intros n' H. apply IH2. intros d' Hd'. apply H. by right.
    + destruct IH as (n' & d' & H & ?). exists n', d'. split; [by right|done].
  - specialize (IH (<[nid:=b]> m) Hnd). destruct (pkLoop skip order _) as [m'|].
    + destruct IH as [IH1 IH2]. split.
      * intros n' d' [[= -> ->]|H]%elem_of_cons Hs; [|by apply IH1]. rewrite Hd. split; [|done].
        rewrite IH2; [apply lookup_insert_eq|]. intros d' Hin. exfalso. apply Hnin.
        apply list_elem_of_fmap. by exists (nid, d').
      * intros n' H. rewrite IH2; [|intros d' Hd'; apply H; by right]. rewrite lookup_insert_ne; [done|].
        intros <-. specialize (H node ltac:(by left)). congruence.
    + destruct IH as (n' & d' & H & ?). exists n', d'. split; [by right|done].
  - exists nid, node. split; [by left|done].
Qed.

(** The service answers for the last enabled entry of the file: a node takes part in the
    consensus when that entry makes it a consensus node, and its key is that entry's. *)
Lemma permission_spec prk nodes nid :
  let self := NewPermissionedNodeService prk nodes in
  JudgePermissioned self nid = bool_decide (is_Some (entry nodes nid)) ∧
  JudgeConPermissioned self nid = match entry nodes nid with Some n => isConNode n | None => false end ∧
  (JudgeConPermissioned self nid = true ↔ is_Some (GetPermissionedConNodes self !! nid)) ∧
  GetPermissionedNodes self !! nid = pnPK <$> entry nodes nid ∧
  (∀ pk, GetPKByPID self nid = Ok pk ↔ GetPermissionedNodes self !! nid = Some pk).
Proof.
  cbn zeta. unfold JudgePermissioned, JudgeConPermissioned, GetPermissionedConNodes, GetPermissionedNodes, GetPKByPID.
  rewrite !lookup_fmap, map_lookup_filter, NewPermissionedNodeService_lookup.
  destruct (entry nodes nid) as [n|]; cbn; split_and!; try done.
  - unfold is_Some. destruct (isConNode n) eqn:E; cbn; rewrite ?E.
    + split; [intros _|done]. rewrite option_guard_True by done. cbn. eauto.
    + split; [done|]. rewrite option_guard_False by congruence. by intros [? ?].
  - intros pk. split; [by intros [= ->]|by intros [= ->]].
Qed.

(** For any iteration order, the map of the consensus nodes' keys holds what the single
    lookups give, and is nil exactly when one of these keys is not base64. *)
Lemma GetConNodesPK64_spec self order : order ≡ₚ map_to_list (pNodes self) →
  match GetConNodesPK64 order with
  | Some m => ∀ nid, m !! nid = (if JudgeConPermissioned self nid then GetBase64PKByPID self nid else None)
  | None => ∃ nid, JudgeConPermissioned self nid = true ∧ GetBase64PKByPID self nid = None
  end.
Proof.
  intros Ho. assert (Hin : ∀ nid node, (nid, node) ∈ order ↔ pNodes self !! nid = Some node)
    by (intros; rewrite Ho; apply elem_of_map_to_list).
  pose proof (pkLoop_spec (fun n => negb (isConNode n)) order ∅) as Hs. unfold GetConNodesPK64.
  unfold JudgeConPermissioned, GetBase64PKByPID.
  destruct (pkLoop _ order ∅) as [m|].
  - destruct Hs as [H1 H2]; [rewrite Ho; apply NoDup_fst_map_to_list|]. intros nid.
    destruct (pNodes self !! nid) as [node|] eqn:E; [|rewrite H2; [done|intros n Hn; apply Hin in Hn; congruence]].
    destruct (isConNode node) eqn:Ec.
    + destruct (H1 nid node) as [-> _]; [by apply Hin|by rewrite Ec|done].
    + rewrite H2; [done|]. intros n Hn. apply Hin in Hn. assert (n = node) as -> by congruence. by rewrite Ec.
  - destruct Hs as (nid & node & Hn & Hc & Hd); [rewrite Ho; apply NoDup_fst_map_to_list|].
    exists nid. apply Hin in Hn. rewrite Hn. by apply negb_false_iff in Hc.
Qed.
