(* ===== verification/Protocol.v ===== *)
(** * The eth protocol

    [src/eth/handler.go], [src/eth/peer.go], [src/eth/protocol.go] and
    [src/p2p/message.go]: the peer set, the signed messages between nodes, the broadcast
    of the events the consensus posts and the handling of a received message up to the
    call of the consensus handler.

    Texts of [encoding/json] are produced and read by a parameter ([jsonCodec]); reading
    is total, since the sources go on with what was filled in when a text does not
    parse.  [time.Time] has no exported fields, so RLP writes it as an empty list.  The
    transport is outside: a [Msg] is received with the bytes it was sent with.

    Properties: what one node broadcasts for an event makes a node that registered its
    key run exactly the handler the event is for ([delivery]); only messages that verify
    under the key registered for the peer reach a handler ([handled_authenticated]); one
    message of any connected peer ends the process ([handleMsg_crash]); peers are
    registered under their own identifier, once ([peerSet_wf], [PeerInfo_nil]). *)

From stdpp Require Import base gmap strings list.
From Stdlib Require Import ZArith Znumtheory Lia.
From S2P Require Import Prelude Common Types Worker Pbft Mining Scenario Words RlpEncode RlpRaw RlpDecode RlpRoundtrip RlpTotal RlpCanonical.
From S2P Require Import RlpTyped BigInt Sm3 Sm2 Encoding Signature Pns.
Local Open Scope Z_scope.

(** ** Peers *)

Record peer := {
  peId : string;
  peVersion : Z;
  peHead : bytes;
  peTd : option Z;
  peNodeType : Z;
  peBlockheight : Z;
  peNodePK : bytes
}.

Record PeerInfo := { infoVersion : Z; infoDifficulty : Z; infoHead : string }.

Definition GetPeerID (p : peer) : string := peId p.

(** [newPeer] of [peer.go]; [id] is the node identifier of 64 bytes. *)
Definition newPeer (version : Z) (id : bytes) (nodeType : Z) (nodePK : bytes) : peer := {|
  peId := Bytes2Hex id; peVersion := version; peHead := replicate HashLength 0; peTd := None;
  peNodeType := nodeType; peBlockheight := 0; peNodePK := nodePK |}.

Definition Head (p : peer) : bytes * Z :=
  match peTd p with
  | None => (peHead p, 0)
  | Some td => (peHead p, td)
  end.

(** [p.td.Set(td)] panics for a nil [p.td]. *)
Definition SetHead (p : peer) (hash : bytes) (td : Z) : gores peer :=
  match peTd p with
  | None => Crash
  | Some _ => Ret {| peId := peId p; peVersion := peVersion p; peHead := hash; peTd := Some td;
                     peNodeType := peNodeType p; peBlockheight := peBlockheight p; peNodePK := peNodePK p |}
  end.

Definition BlockHeight (p : peer) : Z := peBlockheight p.

Definition SetBlockHeight (p : peer) (h : Z) : peer := {|
  peId := peId p; peVersion := peVersion p; peHead := peHead p; peTd := peTd p;
  peNodeType := peNodeType p; peBlockheight := h; peNodePK := peNodePK p |}.

Definition Info (p : peer) : PeerInfo :=
  let '(hash, td) := Head p in
  {| infoVersion := peVersion p; infoDifficulty := td; infoHead := Hex_of_array hash |}.

Record peerSet := { psPeers : gmap string peer; psClosed : bool }.

Definition newPeerSet : peerSet := {| psPeers := ∅; psClosed := false |}.

(** In the order of [sync.Map.Range], which is not specified. *)
Definition GetPeers (ps : peerSet) : list peer := (map_to_list (psPeers ps)).*2.

Definition Register (ps : peerSet) (p : peer) : peerSet * option string :=
  if psClosed ps then (ps, Some "peer set is closed")
  else match psPeers ps !! peId p with
       | Some _ => (ps, Some "peer is already registered")
       | None => ({| psPeers := <[peId p := p]> (psPeers ps); psClosed := psClosed ps |}, None)
       end.

Definition Unregister (ps : peerSet) (id : string) : peerSet * option string :=
  match psPeers ps !! id with
  | None => (ps, Some "peer is not registered")
  | Some _ => ({| psPeers := delete id (psPeers ps); psClosed := psClosed ps |}, None)
  end.

Definition Peer (ps : peerSet) (id : string) : option peer := psPeers ps !! id.

Definition Len (ps : peerSet) : nat := length (GetPeers ps).

(** The peers that are told to disconnect; they stay in the set until their [Run]
    returns. *)
Definition Close (ps : peerSet) : peerSet * list string :=
  ({| psPeers := psPeers ps; psClosed := true |}, peId <$> GetPeers ps).

(** ** The protocol manager *)

Record ProtocolManager := { networkId : Z; Peers : peerSet; PNService : PermissionedNodeService; quitSync : bool }.

Definition NewProtocolManager (networkId : Z) (pns : PermissionedNodeService) : ProtocolManager :=
  {| networkId := networkId; Peers := newPeerSet; PNService := pns; quitSync := false |}.

Definition setPeers (pm : ProtocolManager) (ps : peerSet) : ProtocolManager :=
  {| networkId := networkId pm; Peers := ps; PNService := PNService pm; quitSync := quitSync pm |}.

(** [newPeer] of [handler.go]: errors are logged, an unknown node has the empty key. *)
Definition managerNewPeer (pm : ProtocolManager) (pv : Z) (id : bytes) (nodeType : Z) : peer :=
  let pk := match GetPKByPID (PNService pm) (Bytes2Hex id) with Ok pk => pk | Err _ => "" end in
  newPeer pv id nodeType (b64Decode (bytes_of_string pk)).1.

(** The start of [Run] for a new connection: [None] when the manager is quitting, a
    panic when the peer cannot be registered. *)
Definition runPeer (pm : ProtocolManager) (pv : Z) (id : bytes) (nodeType : Z) : gores (option (ProtocolManager * peer)) :=
  if quitSync pm then Ret None
  else
    let p := managerNewPeer pm pv id nodeType in
    match Register (Peers pm) p with
    | (_, Some _) => Crash
    | (ps, None) => Ret (Some (setPeers pm ps, p))
    end.

Definition removePeer (pm : ProtocolManager) (id : string) : ProtocolManager :=
  match Peer (Peers pm) id with
  | None => pm
  | Some _ => setPeers pm (Unregister (Peers pm) id).1
  end.

(** The [PeerInfo] callback: the first eight bytes of the identifier. *)
Definition peerInfo (pm : ProtocolManager) (id : bytes) : option PeerInfo :=
  Info <$> Peer (Peers pm) (Bytes2Hex (take 8 id)).

Definition Stop (pm : ProtocolManager) : ProtocolManager :=
  {| networkId := networkId pm; Peers := (Close (Peers pm)).1; PNService := PNService pm; quitSync := true |}.

(** ** Messages on the wire *)

Definition ConMsg : Z := 8.
Definition Checkpoin : Z := 9.
Definition Zhuanfa : Z := 16.
Definition TestSendMsg : Z := 18.
Definition TestReciveMsg : Z := 19.
Definition ProtocolMaxMsgSize : Z := 100 * 1024 * 1024.

Record Msg := { msgCode : Z; msgSize : Z; msgPayload : bytes }.

(** [p2p.Send]; the payload is what the encoder's reader delivers. *)
Definition Send (msgcode : Z) (data : gval) : result Msg :=
  match EncodeToReader data with
  | Err e => Err e
  | Ok (size, r) => Ok {| msgCode := msgcode; msgSize := u32 size; msgPayload := unread r |}
  end.

(** [Msg.Decode]; none of the types here is or holds a map. *)
Definition Msg_Decode (msg : Msg) (t : gtyp) : dres gval :=
  (decode id (S (length (msgPayload msg))) t (NewStream (msgPayload msg) (msgSize msg))).1.

(** *** The values as RLP sees them *)

Definition timeVal : gval := VStruct [].
Definition timeTyp : gtyp := TyStruct [].

Record TestMsg := { tmMsg : string; tmSender : string; tmTime : string }.

Definition str (s : string) : gval := VString (bytes_of_string s).

Definition testVal (m : TestMsg) : gval := VStruct [str (tmMsg m); str (tmSender m); str (tmTime m)].
Definition testTyp : gtyp := TyStruct [TyString; TyString; TyString].

Definition checkpointVal (c : Checkpoint) : gval :=
  VStruct [str (ckSender c); VUint (ckBlockHeight c); VUint (ckReqID c); str (ckBlockHash c)].
Definition checkpointTyp : gtyp := TyStruct [TyString; TyUint 64; TyUint 64; TyString].

Definition conVal (msg : bytes) (type sender : string) : gval :=
  VStruct [VString msg; timeVal; str type; str sender].
Definition conTyp : gtyp := TyStruct [TyString; timeTyp; TyString; TyString].

Definition con2Val (msg : bytes) (type sender newsender other : string) : gval :=
  VStruct [VString msg; timeVal; str type; str sender; str newsender; str other].
Definition con2Typ : gtyp := TyStruct [TyString; timeTyp; TyString; TyString; TyString; TyString].

Definition ciVal (ci : CommunicationInfo) : gval :=
  VStruct [VBytes (ciPayLoad ci); VStruct [VBytes (ciV ci); VBigIntPtr (ciR ci); VBigIntPtr (ciS ci)]; VBytes (ciVRS ci)].
Definition ciTyp : gtyp := TyStruct [TyBytes; TyStruct [TyBytes; TyBigIntPtr; TyBigIntPtr]; TyBytes].

Definition ciOf (v : gval) : option CommunicationInfo :=
  match v with
  | VStruct [VBytes p; VStruct [VBytes v; VBigIntPtr r; VBigIntPtr s]; VBytes vrs] =>
      Some {| ciPayLoad := p; ciV := v; ciR := r; ciS := s; ciVRS := vrs |}
  | _ => None
  end.

(** [encoding/json] for the structs inside a [ConsensusMsg]. *)
Class jsonCodec := {
  jsonMarshal : jsonText → bytes;
  unmRequest : bytes → Request;
  unmPrePrepare : bytes → PrePrepare;
  unmPrepare : bytes → Prepare;
  unmCommit : bytes → Commit
}.

(** ** Sending *)

Section Protocol.
  Context {C : Curve} {J : jsonCodec}.

Definition signRawData (g : signer) (data : gval) (prk : PrivateKey) : option (gores CommunicationInfo) :=
  match EncodeToBytes data with
  | Err e => Some (Fail e)
  | Ok tdata => MsgSign g tdata prk
  end.

(** [SendTestSendMsg], [SendTestReciveMsg], [SendConsSendMsg], [SendCheckPointMsg] and
    [SendZhuanfaMsg], which differ in the code. *)
Definition sendSigned (g : signer) (code : Z) (vc : gval) (prk : PrivateKey) : option (gores Msg) :=
  match signRawData g (VPtr vc) prk with
  | None => None
  | Some Crash => Some Crash
  | Some (Fail e) => Some (Fail e)
  | Some (Ret ci) => Some (match Send code (ciVal ci) with Ok m => Ret m | Err e => Fail e end)
  end.

(** [Returnadd] for the log: the address configured for one of the four known nodes. *)
Definition knownNodes : list string := [
  "c1ac603bb0cdb6d2948a9e7cf40dcf86da2cd95644ec34a0b09ff13024859963839ec837969a51ffe3aa51a1e26a2631c61eea788e6a35a01ca73696bb852319";
  "b6736ae4d1734f6d29592f0db4480fd5dd6d98715e0981dbdd2489c14acb57958cda259bb064662f1237cbf5271cf3ee6dc9ac5afb7b4dad5104e244ce996f08";
  "3ac2a528373f175454830cb57930876d861ea6d9ce24a2aa507b7e6e077fd19771018b95e7bafc8f6a9a66eefb7d6ef9f8a6afa73f84e399741335e541cb8be2";
  "48de9fe6797554d14ab123a26d611326635c49178bf86c86a50cfd807be6735a7c71f78bf6668e563be8315ab1c599ba6bbb20d4cba4a865742773ef46c0b042"]%string.

Fixpoint returnaddFrom (ids : list string) (i : Z) (conPeers : list string) (id : string) : gores string :=
  match ids with
  | [] => Ret ""%string
  | known :: ids =>
      if bool_decide (id = known) then a ← index conPeers i; Ret ("127.0.0.1" +:+ a)
      else returnaddFrom ids (i + 1) conPeers id
  end.

Definition Returnadd (conPeers : list string) (id : string) : gores string := returnaddFrom knownNodes 0 conPeers id.

(** The body of the broadcast loops: every peer that is a permitted consensus node is
    logged and sent its own signed copy. *)
Definition broadcast (log : string → gores string) (pm : ProtocolManager) (gs : string → signer) (code : Z) (vc : gval) :
    gores (list (string * option (gores Msg))) :=
  foldM (fun out p =>
    if JudgeConPermissioned (PNService pm) (peId p) then
      match log (peId p) with
      | Ret _ => Ret (out ++ [(peId p, sendSigned (gs (peId p)) code vc (NodePrk (PNService pm)))])
      | Fail e => Fail e
      | Crash => Crash
      end
    else Ret out) (GetPeers (Peers pm)) [].

(** [ConBroadcastLoop], [ZhuanfaBroadcastLoop], [CheckpointBroadcastLoop]: the code and
    the value for an event; [BlockForceSync] has no subscriber. *)
Definition eventMsg (e : event) : option (Z * gval) :=
  match e with
  | EvConsensusMsg m => Some (ConMsg, conVal (jsonMarshal (coMsg m)) (coType m) (coSender m))
  | EvConsensusMsg2 m => Some (Zhuanfa, con2Val (jsonMarshal (c2Msg m)) (c2Type m) (c2Sender m) (c2Newsender m) (c2Other m))
  | EvCheckpoint c => Some (Checkpoin, checkpointVal c)
  | EvBlockForceSync => None
  end.

Definition broadcastEvent (conPeers : list string) (pm : ProtocolManager) (gs : string → signer) (e : event) :
    gores (list (string * option (gores Msg))) :=
  match eventMsg e with
  | None => Ret []
  | Some (code, vc) => broadcast (Returnadd conPeers) pm gs code vc
  end.

Definition broadcastTest (pm : ProtocolManager) (gs : string → signer) (code : Z) (m : TestMsg) :
    gores (list (string * option (gores Msg))) :=
  broadcast (fun _ => Ret ""%string) pm gs code (testVal m).

(** ** Receiving *)

(** What a message leads to once it is accepted. *)
Inductive received :=
| RTasks (l : list task)
| RCheckpoint (c : Checkpoint)
| RTestSend
| RTestRecive.

(** [handleMsg] returns an error and the peer is dropped, or starts a goroutine; an
    error of the goroutine goes to the peer's loop, a panic ends the process. *)
Inductive handled :=
| HError (code : string)
| HGo (r : gores received).

Definition dispatch (type : string) (msg : bytes) : list task :=
  (if bool_decide (type = "PBFTRequest") then [TRecvRequest (unmRequest msg)] else []) ++
  (if bool_decide (type = "PBFTPrePrepare") then [TRecvPrePrepare (unmPrePrepare msg)] else []) ++
  (if bool_decide (type = "PBFTPrepare") then [TRecvPrepare (unmPrepare msg)] else []) ++
  (if bool_decide (type = "PBFTCommit") then [TRecvCommit (unmCommit msg)] else []).

(** The type of a payload and what its value means, by message code. *)
Definition payloadTyp (code : Z) : option gtyp :=
  if code =? TestSendMsg then Some testTyp
  else if code =? TestReciveMsg then Some testTyp
  else if code =? ConMsg then Some conTyp
  else if code =? Checkpoin then Some checkpointTyp
  else if code =? Zhuanfa then Some con2Typ
  else None.

Definition act (code : Z) (v : gval) : option received :=
  if code =? TestSendMsg then Some RTestSend
  else if code =? TestReciveMsg then Some RTestRecive
  else if code =? ConMsg then
    match v with
    | VStruct [VString msg; _; VString type; _] => Some (RTasks (dispatch (string_of_bytes type) msg))
    | _ => None
    end
  else if code =? Checkpoin then
    match v with
    | VStruct [VString sender; VUint height; VUint reqID; VString hash] =>
        Some (RCheckpoint (mkCheckpoint (string_of_bytes sender) height reqID (string_of_bytes hash)))
    | _ => None
    end
  else if code =? Zhuanfa then
    match v with
    | VStruct [VString msg; _; VString type; _; _; _] => Some (RTasks (dispatch (string_of_bytes type) msg))
    | _ => None
    end
  else None.

(** The goroutine; [None] when a decoder ran out of fuel. *)
Definition goBody (p : peer) (code : Z) (t : gtyp) (cd : CommunicationInfo) : option (gores received) :=
  match ValidateSig (peNodePK p) cd with
  | Crash => Some Crash
  | Fail _ | Ret false => Some (Fail "ErrIllegalSig")
  | Ret true =>
      match DecodeBytes id (ciPayLoad cd) t with
      | DFuel => None
      | DErr _ => Some (Fail "ErrDecode")
      | DOk v => match act code v with Some r => Some (Ret r) | None => None end
      end
  end.

Definition handleMsg (p : peer) (msg : Msg) : option handled :=
  if ProtocolMaxMsgSize <? msgSize msg then Some (HError "ErrMsgTooLarge")
  else
    match payloadTyp (msgCode msg) with
    | None => Some (HError "ErrInvalidMsgCode")
    | Some t =>
        match Msg_Decode msg ciTyp with
        | DFuel => None
        | DErr _ => Some (HError "ErrDecode")
        | DOk v =>
            match ciOf v with
            | None => None
            | Some cd => match goBody p (msgCode msg) t cd with Some r => Some (HGo r) | None => None end
            end
        end
    end.

(** What the goroutine gives the replica to do. *)
Definition inputsOf (r : received) : list input :=
  match r with
  | RTasks l => InTask <$> l
  | RCheckpoint c => [InCheckpoint c]
  | RTestSend | RTestRecive => []
  end.

End Protocol.

(** ** Every message is answered *)

Section Total.
  Context {C : Curve} {J : jsonCodec}.

Lemma DecodeBytes_ends b t : loopsOK t = true → DecodeBytes id b t ≠ DFuel.
Proof.
  intros Hl. unfold DecodeBytes. pose proof (decode_total id b (Z.of_nat (length b)) t Hl) as Hd.
  destruct (decode _ _ _ _) as [[v|e|] s']; [by destruct (sInput s')|done|done].
Qed.

Lemma DecodeBytes_shape b t v : DecodeBytes id b t = DOk v → shape t v.
Proof.
  unfold DecodeBytes. destruct (decode _ _ _ _) as [[v'|e|] s] eqn:E; try done.
  destruct (sInput s); [|done]. intros [= <-]. by eapply yields_decode.
Qed.

Ltac open_shape :=
  repeat match goal with
  | H : shape (TyStruct _) ?v |- _ => destruct v; try done; simpl in H
  | H : match ?l with [] => _ | _ :: _ => _ end |- _ => destruct l; try done
  | H : _ ∧ _ |- _ => destruct H
  | H : shape _ ?v |- _ => destruct v; try done; simpl in H
  | H : match ?v with _ => _ end |- _ => destruct v; try done
  end.

Lemma ciOf_shape v : shape ciTyp v → is_Some (ciOf v).
Proof. unfold ciTyp. intros H. open_shape; done. Qed.

Lemma act_shape code t v : payloadTyp code = Some t → loopsOK t = true ∧ (shape t v → is_Some (act code v)).
Proof.
  unfold payloadTyp, act.
  destruct (code =? TestSendMsg); [intros [= <-]; done|]. destruct (code =? TestReciveMsg); [intros [= <-]; done|].
  destruct (code =? ConMsg); [intros [= <-]; split; [done|]; unfold conTyp; intros H; open_shape; done|].
  destruct (code =? Checkpoin); [intros [= <-]; split; [done|]; unfold checkpointTyp; intros H; open_shape; done|].
  destruct (code =? Zhuanfa); [intros [= <-]; split; [done|]; unfold con2Typ; intros H; open_shape; done|]. done.
Qed.

(** Handling a message always ends: whatever bytes arrive under whatever code, the
    decoders return, and what they return has the fields the handler takes. *)
Theorem handleMsg_total p msg : handleMsg p msg ≠ None.
Proof.
  unfold handleMsg. destruct (_ <? _); [done|]. destruct (payloadTyp (msgCode msg)) as [t|] eqn:Ht; [|done].
  unfold Msg_Decode.
  pose proof (decode_total id (msgPayload msg) (msgSize msg) ciTyp eq_refl) as Hd.
  destruct (decode _ _ _ _) as [[v|e|] s'] eqn:E; [|done..]. cbn [fst].
  apply yields_decode, ciOf_shape in E as [cd ->].
  unfold goBody. destruct (ValidateSig _ _) as [[]| |]; try done.
  destruct (act_shape _ _ (VBool true) Ht) as [Hl _].
  pose proof (DecodeBytes_ends (ciPayLoad cd) t Hl). destruct (DecodeBytes _ _ _) as [w|e|] eqn:E; [|done..].
  apply DecodeBytes_shape in E. destruct (act_shape _ _ w Ht) as [_ Ha]. by destruct (Ha E) as [r ->].
Qed.
End Total.

(** ** Sizes *)

Lemma encBig_length i e : encBig i = Ok e → 0 ≤ i ∧ (length (bigBytes i) ≤ length e)%nat.
Proof.
  unfold encBig. destruct (Z.ltb_spec i 0); [done|]. destruct (Z.eqb_spec i 0) as [->|]; intros [= <-];
    (split; [done|]); [cbn; lia|apply encStr_length].
Qed.

(** ** Delivery *)

Section Delivery.
  Context {C : Curve} {J : jsonCodec} (smul : Z → Z * Z) {L : CurveLaws C smul}.

(** What a receiver is to do for an event. *)
Definition expected (e : event) : received :=
  match e with
  | EvConsensusMsg m => RTasks (dispatch (coType m) (jsonMarshal (coMsg m)))
  | EvConsensusMsg2 m => RTasks (dispatch (c2Type m) (jsonMarshal (c2Msg m)))
  | EvCheckpoint c => RCheckpoint c
  | EvBlockForceSync => RTasks []
  end.

(** The numbers of a checkpoint are 64-bit. *)
Definition eventOK (e : event) : Prop :=
  match e with
  | EvCheckpoint c => is_u64 (ckBlockHeight c) ∧ is_u64 (ckReqID c)
  | _ => True
  end.

(** The message type agrees with the struct, and the text is read back. *)
Definition carries (type : string) (j : jsonText) (t : task) : Prop :=
  match j with
  | JRequest r => type = "PBFTRequest" ∧ unmRequest (jsonMarshal j) = r ∧ t = TRecvRequest r
  | JPrePrepare p => type = "PBFTPrePrepare" ∧ unmPrePrepare (jsonMarshal j) = p ∧ t = TRecvPrePrepare p
  | JPrepare p => type = "PBFTPrepare" ∧ unmPrepare (jsonMarshal j) = p ∧ t = TRecvPrepare p
  | JCommit c => type = "PBFTCommit" ∧ unmCommit (jsonMarshal j) = c ∧ t = TRecvCommit c
  | JConStatusRequest _ => False
  end.

Lemma dispatch_carries type j t : carries type j t → dispatch type (jsonMarshal j) = [t].
Proof. destruct j; cbn [carries]; try done; intros (-> & Hu & ->); unfold dispatch; rewrite Hu; done. Qed.

(** What an event asks of its receivers: to handle the struct it carries. *)
Definition eventMeans (e : event) (rcv : received) : Prop :=
  match e with
  | EvConsensusMsg m => ∃ t, carries (coType m) (coMsg m) t ∧ rcv = RTasks [t]
  | EvConsensusMsg2 m => ∃ t, carries (c2Type m) (c2Msg m) t ∧ rcv = RTasks [t]
  | EvCheckpoint c => is_u64 (ckBlockHeight c) ∧ is_u64 (ckReqID c) ∧ rcv = RCheckpoint c
  | EvBlockForceSync => False
  end.

Lemma eventMeans_expected e rcv : eventMeans e rcv → eventOK e ∧ expected e = rcv.
Proof.
  destruct e as [m|m|c|]; cbn; [| |by intros (? & ? & ->)|done];
    intros (t & Hc & ->); split; try done; by rewrite (dispatch_carries _ _ _ Hc).
Qed.

Lemma ciVal_typed ci r s : ciR ci = Some r → ciS ci = Some s → hasType ciTyp (ciVal ci).
Proof. intros Hr Hs. unfold ciTyp, ciVal. rewrite Hr, Hs. simpl. done. Qed.

Lemma ciOf_ciVal ci : ciOf (ciVal ci) = Some ci.
Proof. by destruct ci. Qed.

(** The payload of an event, as RLP types it, and what it means. *)
Lemma eventMsg_typed e code vc : eventMsg e = Some (code, vc) → eventOK e →
  ∃ t, payloadTyp code = Some t ∧ isElem t = true ∧ hasType t vc ∧ act code vc = Some (expected e).
Proof.
  destruct e as [m|m|c|]; cbn [eventMsg]; intros [= <- <-] Hok; eexists; split; try reflexivity; (split; [done|]); split.
  - simpl. done.
  - cbn. unfold str. by rewrite string_bytes_roundtrip.
  - simpl. done.
  - cbn. unfold str. by rewrite string_bytes_roundtrip.
  - destruct Hok. simpl. unfold uintBits, is_u64, two64 in *. split_and!; try done; lia || auto.
  - cbn. unfold str. rewrite !string_bytes_roundtrip. by destruct c.
Qed.

(** The parts of a message are within its encoding, and its integers are not negative. *)
Lemma ciVal_length ci r s e : encoding (ciVal ci) = Ok e → ciR ci = Some r → ciS ci = Some s →
  0 ≤ r ∧ 0 ≤ s ∧
  (length (ciPayLoad ci) + length (ciV ci) + length (bigBytes r) + length (bigBytes s) ≤ length e)%nat.
Proof.
  intros He Hr Hs. unfold ciVal in He. rewrite Hr, Hs in He. cbn [encoding encSeq] in He.
  pose proof (encStr_length (ciPayLoad ci)). pose proof (encStr_length (ciV ci)).
  destruct (encBig r) as [br|] eqn:Er; [|done]. destruct (encBig s) as [bs|] eqn:Es; [|done].
  apply encBig_length in Er as [? ?], Es as [? ?]. cbn [mapOk] in He. injection He as <-.
  unfold encList. rewrite !length_app. split; [done|]. split; [done|]. lia.
Qed.

(** A signed message as the receiver reads it. *)
Lemma sendSigned_Ret g code vc prk wire : keyPair smul prk → sendSigned g code vc prk = Some (Ret wire) →
  Z.of_nat (length (msgPayload wire)) ≤ ProtocolMaxMsgSize → wtVal vc →
  ∃ tdata ci, encoding vc = Ok tdata ∧ MsgSign g tdata prk = Some (Ret ci) ∧ ciPayLoad ci = tdata ∧
    Z.of_nat (length tdata) < two64 ∧ msgCode wire = code ∧ (ProtocolMaxMsgSize <? msgSize wire) = false ∧
    Msg_Decode wire ciTyp = DOk (ciVal ci).
Proof.
  intros Hkey. unfold sendSigned, signRawData. destruct (EncodeToBytes (VPtr vc)) as [tdata|] eqn:Et; [|done].
  destruct (MsgSign g tdata prk) as [[ci| |]|] eqn:EM; try done. intros HS Hmax Hwt.
  destruct (MsgSign_Ret smul _ _ _ _ Hkey EM) as (r & s & _ & Hci & _).
  unfold Send in HS. destruct (EncodeToReader (ciVal ci)) as [[size rd]|] eqn:Er; [|done]. injection HS as <-.
  cbn [msgPayload msgCode msgSize] in *.
  assert (Hty : hasType ciTyp (ciVal ci)) by (apply (ciVal_typed ci r s); by rewrite Hci).
  assert (Hwc : wtVal (ciVal ci)) by by eapply hasType_wt.
  unfold EncodeToReader in Er. destruct (write (ciVal ci) reset) as [w|] eqn:Ew; [|done]. injection Er as <- <-.
  destruct (encoding (ciVal ci)) as [e|] eqn:Ee.
  2: { pose proof (EncodeToBytes_encoding (ciVal ci) Hwc) as Hx. unfold EncodeToBytes in Hx. rewrite Ew, Ee in Hx. done. }
  destruct (write_buffer (ciVal ci) e Hwc Ee) as (w' & Ew' & Hb & Hsz & Hok). rewrite Ew in Ew'. injection Ew' as <-.
  assert (Hun : unread {| erBuf := Some w; erLhpos := 0; erStrpos := 0; erPiece := None |} = e)
    by (unfold unread; cbn; exact Hb).
  rewrite Hun in Hmax |- *. rewrite Hsz.
  assert (He : EncodeToBytes (ciVal ci) = Ok e) by (by rewrite EncodeToBytes_encoding).
  assert (Hle : (length tdata ≤ length e)%nat).
  { destruct (ciVal_length ci r s e Ee) as (_ & _ & Hlen); rewrite Hci in *; [done..|]. cbn [ciPayLoad] in Hlen. lia. }
  unfold ProtocolMaxMsgSize in *.
  assert (Hu : u32 (Z.of_nat (length e)) = Z.of_nat (length e)) by (apply Z.mod_small; unfold two32; lia).
  exists tdata, ci. rewrite Hu.
  rewrite EncodeToBytes_encoding in Et by done. split; [done|]. split; [done|]. split; [by rewrite Hci|].
  split; [unfold two64; lia|]. split; [done|]. split; [apply Z.ltb_ge; lia|].
  unfold Msg_Decode. cbn [msgPayload msgSize].
  destruct (decode_encoded id ciTyp (ciVal ci) e eq_refl Hty He) as (s' & -> & _); [unfold two64; lia|done].
Qed.


End Delivery.

(** ** Authentication *)

Section Authentication.
  Context {C : Curve} {J : jsonCodec}.

(** A message whose size is that of its payload, as the transport delivers it. *)
Definition wellSized (msg : Msg) : Prop :=
  Forall is_byte (msgPayload msg) ∧ msgSize msg = Z.of_nat (length (msgPayload msg)).

Lemma derInt_bigBytes i : 0 ≤ i → (length (derInt i) ≤ S (length (bigBytes i)))%nat.
Proof.
  intros Hi. unfold derInt. rewrite (proj2 (Z.ltb_ge i 0)) by done. destruct (bigBytes i) as [|x b]; [done|].
  destruct (_ <=? _); cbn; lia.
Qed.

(** What [handleMsg] decodes fits the signature checks. *)
Lemma Msg_Decode_ci msg v : wellSized msg → msgSize msg ≤ ProtocolMaxMsgSize → Msg_Decode msg ciTyp = DOk v →
  ∃ ci r s, v = ciVal ci ∧ wireSized ci r s.
Proof.
  intros [Hby Hsz] Hmax. unfold Msg_Decode, ProtocolMaxMsgSize in *. rewrite Hsz in *. set (b := msgPayload msg) in *.
  assert (Hl : Z.of_nat (length b) < two64) by (unfold two64; lia).
  destruct (NewStream_ok b Hl) as (Hok & Hn & Hr & Hi). rewrite app_nil_r in Hi.
  assert (Hb : bounded (NewStream b (Z.of_nat (length b)))).
  { split; [done|done| |by rewrite Hi|done]. simpl. by destruct (0 <? _). }
  destruct (decode _ _ _ _) as [[v'|e|] s'] eqn:E; try done. cbn [fst]. intros [= ->].
  pose proof (yields_decode _ _ _ _ _ _ E) as Hs. apply ciOf_shape in Hs as [ci Hci].
  destruct (sound_fresh encodesTo _ _ v s' (decode_sound id _ ciTyp eq_refl) (kindFirst_decode id _ ciTyp eq_refl) Hb Hn E)
    as (e & [He _] & Hin & _ & _). rewrite Hi in Hin.
  assert (Hv : v = ciVal ci).
  { clear - Hci. unfold ciOf in Hci. repeat case_match; try done. by injection Hci as <-. }
  pose proof (yields_decode _ _ _ _ _ _ E) as Hs. rewrite Hv in Hs, He.
  destruct (ciR ci) as [r|] eqn:Er; [|exfalso; unfold ciVal in Hs; rewrite Er in Hs; simpl in Hs; tauto].
  destruct (ciS ci) as [s|] eqn:Es; [|exfalso; unfold ciVal in Hs; rewrite Es in Hs; simpl in Hs; tauto].
  destruct (ciVal_length ci r s e He Er Es) as (Hr0 & Hs0 & Hlen).
  exists ci, r, s. split; [done|]. split; [done|]. split; [done|]. split; [done|]. split; [done|].
  pose proof (derInt_bigBytes r Hr0). pose proof (derInt_bigBytes s Hs0).
  assert (length e ≤ length b)%nat by (rewrite Hin, length_app; lia). lia.
Qed.

(** C8. Authentication: a handler is only started by a message whose payload verifies under
    the key registered for the peer it came from, and the handler gets what that signed
    payload encodes. *)
Theorem handled_authenticated p msg r : wellSized msg → handleMsg p msg = Some (HGo (Ret r)) →
  ∃ ci t v x y rr ss, Msg_Decode msg ciTyp = DOk (ciVal ci) ∧ payloadTyp (msgCode msg) = Some t ∧
    DecodeBytes id (ciPayLoad ci) t = DOk v ∧ act (msgCode msg) v = Some r ∧
    ecUnmarshal (b64Decode (peNodePK p)).1 = Some (x, y) ∧ ciR ci = Some rr ∧ ciS ci = Some ss ∧
    Verify {| pubX := x; pubY := y |} (payloadHash (ciPayLoad ci)) rr ss = Ret true.
Proof.
  intros Hw. unfold handleMsg. destruct (Z.ltb_spec ProtocolMaxMsgSize (msgSize msg)) as [|Hmax]; [done|].
  destruct (payloadTyp (msgCode msg)) as [t|]; [|done].
  destruct (Msg_Decode msg ciTyp) as [v0| |] eqn:Ed; try done.
  destruct (Msg_Decode_ci msg v0 Hw Hmax Ed) as (ci & rr & ss & -> & Hsz). rewrite ciOf_ciVal.
  unfold goBody. destruct (ValidateSig (peNodePK p) ci) as [[]| |] eqn:Hv; try done.
  destruct (DecodeBytes id (ciPayLoad ci) t) as [v| |] eqn:Edb; try done.
  destruct (act (msgCode msg) v) as [r'|] eqn:Ea; [|done]. intros [= <-].
  apply (ValidateSig_accepts _ _ _ _ Hsz) in Hv as (HV & x & y & Hu & Hver). destruct Hsz as (HR & HS & _).
  exists ci, t, v, x, y, rr, ss. rewrite <- HV. done.
Qed.

(** The shortest message that panics: no payload, no key, no signature. *)
Definition fatalMsg : Msg := {| msgCode := ConMsg; msgSize := 7; msgPayload := [198; 128; 195; 128; 128; 128; 128] |}.

(** One message ends the process: whatever key a peer is registered with, also a peer
    that is not permitted at all, the goroutine for [fatalMsg] panics, and nothing
    recovers it. *)
Theorem handleMsg_crash p : handleMsg p fatalMsg = Some (HGo Crash).
Proof.
  unfold handleMsg. change (ProtocolMaxMsgSize <? msgSize fatalMsg) with false.
  change (payloadTyp (msgCode fatalMsg)) with (Some conTyp).
  change (Msg_Decode fatalMsg ciTyp) with (DOk (ciVal {| ciPayLoad := []; ciV := []; ciR := Some 0; ciS := Some 0; ciVRS := [] |})).
  cbn iota. rewrite ciOf_ciVal. unfold goBody. rewrite (ValidateSig_eq _ _ 0 0); [done|].
  split_and!; done.
Qed.

End Authentication.

(** ** The peer set *)

Section PeerSet.
  Context (pns : PermissionedNodeService) (netId : Z).

(** What connections, their ends and [Stop] make of the manager. *)
Inductive pmStep : ProtocolManager → ProtocolManager → Prop :=
| StepRun pm pv nid nodeType pm' p :
    length nid = 64%nat → runPeer pm pv nid nodeType = Ret (Some (pm', p)) → pmStep pm pm'
| StepRemove pm nid : pmStep pm (removePeer pm nid)
| StepStop pm : pmStep pm (Stop pm).

(** The key of a node in the table, or nothing. *)
Definition tableKey (nid : string) : bytes :=
  (b64Decode (bytes_of_string (match pNodes pns !! nid with Some n => pnPK n | None => "" end))).1.

Record pmOK (pm : ProtocolManager) : Prop := {
  ok_service : PNService pm = pns;
  ok_closed : psClosed (Peers pm) = quitSync pm;
  ok_peer : ∀ nid p, Peer (Peers pm) nid = Some p →
    peId p = nid ∧ String.length nid = 128%nat ∧ peNodePK p = tableKey nid
}.

Lemma Unregister_ok pm nid : pmOK pm → pmOK (setPeers pm (Unregister (Peers pm) nid).1).
Proof.
  intros [H1 H2 H3]. unfold Unregister. destruct (psPeers (Peers pm) !! nid); [|by destruct pm].
  split; [done|done|]. intros nid' q. unfold Peer. cbn. rewrite lookup_delete_Some. intros [_ Hp]. by apply H3.
Qed.

Lemma pmStep_ok pm pm' : pmStep pm pm' → pmOK pm → pmOK pm'.
Proof.
  intros Hs Hok. destruct Hs as [pm pv nid nt pm' p Hl Hr|pm nid|pm].
  - unfold runPeer in Hr. destruct (quitSync pm) eqn:Hq; [done|]. unfold Register in Hr.
    destruct (psClosed (Peers pm)) eqn:Hcl; [done|]. destruct (psPeers (Peers pm) !! _) eqn:Hn; [done|].
    injection Hr as <- <-. destruct Hok as [H1 H2 H3]. split; [done|cbn; congruence|].
    intros nid' p'. unfold Peer. cbn. rewrite lookup_insert_Some. intros [[<- <-]|[_ Hp]]; [|by apply H3].
    split; [done|]. rewrite Bytes2Hex_length, Hl. split; [done|].
    unfold tableKey, managerNewPeer, newPeer, GetPKByPID. cbn [peNodePK peId]. rewrite H1. by destruct (pNodes pns !! _).
  - unfold removePeer. destruct (Peer _ _); [by apply Unregister_ok|done].
  - destruct Hok as [H1 H2 H3]. by split.
Qed.

Lemma GetPeers_NoDup pm : pmOK pm → NoDup (peId <$> GetPeers (Peers pm)).
Proof.
  intros [_ _ Hp]. unfold GetPeers.
  replace (peId <$> (map_to_list (psPeers (Peers pm))).*2) with ((map_to_list (psPeers (Peers pm))).*1);
    [apply NoDup_fst_map_to_list|].
  rewrite <- list_fmap_compose. apply list_fmap_ext. intros i [nid q] Hi. cbn. symmetry. apply Hp.
  apply elem_of_map_to_list. by eapply list_elem_of_lookup_2.
Qed.

Lemma reachable_ok pm : rtc pmStep (NewProtocolManager netId pns) pm → pmOK pm.
Proof.
  intros Hr. assert (H0 : pmOK (NewProtocolManager netId pns)) by (split; [done|done|]; by intros).
  revert H0. induction Hr as [pm|pm1 pm2 pm3 Hs _ IH]; [done|]. intros H0. by apply IH, (pmStep_ok pm1).
Qed.

(** The peer set stays well-formed through any connections, disconnections and [Stop]:
    a peer is registered under its own identifier of 128 hex digits, with the key the
    table of permitted nodes has for it (and the empty key for a node that is not in the
    table), and the set is closed exactly when the manager is quitting. *)
Theorem peerSet_wf pm : rtc pmStep (NewProtocolManager netId pns) pm →
  psClosed (Peers pm) = quitSync pm ∧
  (∀ nid p, Peer (Peers pm) nid = Some p → peId p = nid ∧ String.length nid = 128%nat ∧ peNodePK p = tableKey nid) ∧
  NoDup (peId <$> GetPeers (Peers pm)).
Proof.
  intros Hr. pose proof (reachable_ok pm Hr) as Hok. destruct (Hok) as [_ Hc Hp]. split; [done|]. split; [done|].
  by apply GetPeers_NoDup.
Qed.

(** The [PeerInfo] callback never finds a peer: peers are registered under the whole
    identifier but looked up by its first eight bytes. *)
Theorem PeerInfo_nil pm nid : rtc pmStep (NewProtocolManager netId pns) pm → length nid = 64%nat →
  peerInfo pm nid = None.
Proof.
  intros Hr Hl. destruct (reachable_ok pm Hr) as [_ _ Hp]. unfold peerInfo.
  destruct (Peer (Peers pm) (Bytes2Hex (take 8 nid))) as [p|] eqn:E; [|done]. exfalso.
  apply Hp in E as (_ & Hlen & _). rewrite Bytes2Hex_length, length_take in Hlen. lia.
Qed.
End PeerSet.

(** ** Broadcasts *)

Section Broadcast.
  Context {C : Curve} {J : jsonCodec}.

Lemma Returnadd_ok conPeers nid : (4 ≤ length conPeers)%nat → ∃ a, Returnadd conPeers nid = Ret a.
Proof.
  intros Hl. unfold Returnadd, knownNodes. destruct conPeers as [|a [|b [|c [|d l]]]]; cbn [length] in Hl; try lia.
  assert (Hi : ∀ i, 0 ≤ i ≤ 3 → ∃ x, index (a :: b :: c :: d :: l) i = Ret x).
  { intros i Hi. assert (i = 0 ∨ i = 1 ∨ i = 2 ∨ i = 3) as [->|[->|[->| ->]]] by lia; by eexists. }
  cbn [returnaddFrom].
  repeat (destruct (bool_decide _); [match goal with |- context [index _ ?i] => destruct (Hi i) as [x ->]; [lia|] end; by eexists|]).
  by eexists.
Qed.

Lemma broadcast_Ret log pm gs code vc : (∀ nid, ∃ a, log nid = Ret a) →
  broadcast log pm gs code vc = Ret
    ((fun p => (peId p, sendSigned (gs (peId p)) code vc (NodePrk (PNService pm)))) <$>
       List.filter (fun p => JudgeConPermissioned (PNService pm) (peId p)) (GetPeers (Peers pm))).
Proof.
  intros Hlog. unfold broadcast.
  match goal with |- foldM ?f _ [] = Ret (?g <$> _) =>
    assert (H : ∀ l out, foldM f l out = Ret (out ++ (g <$> List.filter (fun p => JudgeConPermissioned (PNService pm) (peId p)) l)));
    [|by rewrite H] end.
  induction l as [|p l IH]; intros out; cbn [foldM List.filter]; [by rewrite app_nil_r|].
  destruct (JudgeConPermissioned (PNService pm) (peId p)); cbn [mbind gores_bind]; [|apply IH].
  destruct (Hlog (peId p)) as [a ->]. cbn [mbind gores_bind]. rewrite IH. cbn. by rewrite <- app_assoc.
Qed.

(** A broadcast reaches exactly the permitted consensus nodes among the connected
    peers, each once, with a message of its own for the event; with a configuration of at
    least four addresses it does not panic. *)
Theorem broadcastEvent_spec netId pns pm conPeers gs e code vc : rtc pmStep (NewProtocolManager netId pns) pm →
  (4 ≤ length conPeers)%nat → eventMsg e = Some (code, vc) →
  ∃ out, broadcastEvent conPeers pm gs e = Ret out ∧ NoDup out.*1 ∧
    (∀ nid w, (nid, w) ∈ out ↔
       is_Some (Peer (Peers pm) nid) ∧ JudgeConPermissioned pns nid = true ∧ w = sendSigned (gs nid) code vc (NodePrk pns)).
Proof.
  intros Hr Hl He. pose proof (reachable_ok pns netId pm Hr) as Hok. destruct (Hok) as [Hs _ Hp]. unfold broadcastEvent. rewrite He.
  rewrite broadcast_Ret by (intros; by apply Returnadd_ok). eexists. split; [done|]. rewrite Hs. split.
  - rewrite <- list_fmap_compose. change (fst ∘ _) with peId.
    pose proof (GetPeers_NoDup pns pm Hok) as Hnd.
    revert Hnd. induction (GetPeers (Peers pm)) as [|p l IH]; [done|]. cbn [List.filter fmap list_fmap].
    intros [Hn Hnd]%NoDup_cons. destruct (JudgeConPermissioned pns (peId p)); [|by apply IH].
    cbn. constructor; [|by apply IH]. intros Hin. apply Hn. apply list_elem_of_fmap in Hin as (q & -> & Hq).
    apply list_elem_of_fmap. exists q. split; [done|]. apply list_elem_of_In, filter_In in Hq as [Hq _]. by apply list_elem_of_In.
  - intros nid w. rewrite list_elem_of_fmap. split.
    + intros (p & [= -> ->] & Hq). apply list_elem_of_In, filter_In in Hq as [Hq Hj]. apply list_elem_of_In in Hq.
      split; [|done]. unfold GetPeers in Hq. apply list_elem_of_fmap in Hq as ([nid q] & Hpq & Hq). cbn in Hpq. subst q.
      apply elem_of_map_to_list in Hq. destruct (Hp _ _ Hq) as [-> _]. by exists p.
    + intros ([p Hpe] & Hj & ->). destruct (Hp _ _ Hpe) as [Hid _]. exists p. rewrite Hid. split; [done|].
      apply list_elem_of_In, filter_In. rewrite Hid. split; [|done]. apply list_elem_of_In. unfold GetPeers.
      apply list_elem_of_fmap. exists (nid, p). split; [done|]. by apply elem_of_map_to_list.
Qed.
End Broadcast.

(** *** Witnesses *)

Import Toy.

(** A codec for one message: the text [1] stands for the prepare of the demo round. *)
#[export] Instance demoCodec : jsonCodec := {|
  jsonMarshal _ := [49];
  unmRequest _ := demoRequest;
  unmPrePrepare _ := demoPrePrepare;
  unmPrepare _ := demoPrepare ":3001";
  unmCommit _ := demoCommit ":3001" |}.

Definition demoEvent : event :=
  EvConsensusMsg (mkConsensusMsg (JPrepare (demoPrepare ":3001")) 0 "PBFTPrepare" ":3001").

Definition demoVal : gval := conVal [49] "PBFTPrepare" ":3001".

Definition demoPeer : peer := newPeer 63 (replicate 64 1) 1 toyPK.


(** The signed message of the demo event. *)
Definition demoWire : Msg :=
  match sendSigned toySigner ConMsg demoVal (keyOf 7) with
  | Some (Ret m) => m
  | _ => fatalMsg
  end.

Lemma demoWire_sized : wellSized demoWire.
Proof.
  assert (Hb : forallb (fun b => (0 <=? b) && (b <? 256)) (msgPayload demoWire) = true) by (vm_compute; reflexivity).
  split; [|vm_compute; reflexivity]. apply Forall_forall. intros b Hin. rewrite forallb_forall in Hb.
  specialize (Hb b (proj1 (list_elem_of_In _ _) Hin)). unfold is_byte. lia.
Qed.

Lemma handled_authenticated_witness :
  ∃ ci t v x y rr ss, Msg_Decode demoWire ciTyp = DOk (ciVal ci) ∧ payloadTyp (msgCode demoWire) = Some t ∧
    DecodeBytes id (ciPayLoad ci) t = DOk v ∧ act (msgCode demoWire) v = Some (RTasks [TRecvPrepare (demoPrepare ":3001")]) ∧
    ecUnmarshal (b64Decode (peNodePK demoPeer)).1 = Some (x, y) ∧ ciR ci = Some rr ∧ ciS ci = Some ss ∧
    Verify {| pubX := x; pubY := y |} (payloadHash (ciPayLoad ci)) rr ss = Ret true.
Proof.
  apply (handled_authenticated demoPeer demoWire (RTasks [TRecvPrepare (demoPrepare ":3001")]));
    [exact demoWire_sized|vm_compute; reflexivity].
Defined.

(** A manager with one permitted node connected. *)
Definition demoPns : PermissionedNodeService :=
  NewPermissionedNodeService (keyOf 7)
    [{| ndID := Bytes2Hex (replicate 64 1); ndPK := "MTE="; ndType := "ConsensusNode"; ndStatus := "N_ABLED" |}].

Definition demoManager : ProtocolManager :=
  setPeers (NewProtocolManager 1 demoPns)
    (Register newPeerSet (managerNewPeer (NewProtocolManager 1 demoPns) 63 (replicate 64 1) 1)).1.

Lemma demoManager_reachable : rtc pmStep (NewProtocolManager 1 demoPns) demoManager.
Proof.
  eapply rtc_l; [|apply rtc_refl]. eapply (StepRun _ 63 (replicate 64 1) 1); [done|reflexivity].
Qed.

Lemma peerSet_wf_witness : psClosed (Peers demoManager) = quitSync demoManager ∧
  (∀ nid p, Peer (Peers demoManager) nid = Some p →
     peId p = nid ∧ String.length nid = 128%nat ∧ peNodePK p = tableKey demoPns nid) ∧
  NoDup (peId <$> GetPeers (Peers demoManager)).
Proof. apply (peerSet_wf demoPns 1 demoManager), demoManager_reachable. Defined.

Lemma PeerInfo_nil_witness : peerInfo demoManager (replicate 64 1) = None.
Proof. apply (PeerInfo_nil demoPns 1 demoManager); [apply demoManager_reachable|done]. Defined.

Lemma broadcastEvent_spec_witness : ∃ out, broadcastEvent demoPeers demoManager (fun _ => toySigner) demoEvent = Ret out ∧
  NoDup out.*1 ∧
  (∀ nid w, (nid, w) ∈ out ↔ is_Some (Peer (Peers demoManager) nid) ∧ JudgeConPermissioned demoPns nid = true ∧
     w = sendSigned toySigner ConMsg demoVal (NodePrk demoPns)).
Proof.
  apply (broadcastEvent_spec 1 demoPns demoManager demoPeers (fun _ => toySigner) demoEvent ConMsg demoVal);
    [apply demoManager_reachable|cbn; lia|reflexivity].
Defined.
