(* ===== verification/Discover.v ===== *)
(** * Node identifiers and distances

    [src/p2p/discover/node.go]: identifiers of nodes (64 bytes, a public key) as hex and
    as keys, and the distance between the hashes of identifiers that orders the
    discovery table: [distcmp], [logdist] and [hashAtDistance].  A hash is a list of 32
    bytes.

    Properties: the byte loops compute the comparison and the bit length of the bitwise
    difference ([distcmp_xor], [logdist_bitlen]); [logdist] is a symmetric ultrametric
    ([logdist_ultrametric]); [hashAtDistance] is at the distance asked for
    ([logdist_hashAtDistance]); identifiers are read back from hex and from keys
    ([HexID_String], [Pubkey_PubkeyID]). *)

From stdpp Require Import base list strings.
From Stdlib Require Import ZArith Lia Ascii.
From S2P Require Import Prelude Common Words RlpEncode RlpRaw RlpDecode RlpRoundtrip RlpTotal RlpCanonical BigInt Sm3 Sm2 Encoding Signature.
Local Open Scope Z_scope.

(** ** Distances *)

Fixpoint distcmp (target a b : bytes) : Z :=
  match target, a, b with
  | t :: target, x :: a, y :: b =>
      let da := Z.lxor x t in
      let db := Z.lxor y t in
      if db <? da then 1 else if da <? db then -1 else distcmp target a b
  | _, _, _ => 0
  end.

Definition lzcount : list Z := [
  8; 7; 6; 6; 5; 5; 5; 5;
  4; 4; 4; 4; 4; 4; 4; 4;
  3; 3; 3; 3; 3; 3; 3; 3;
  3; 3; 3; 3; 3; 3; 3; 3;
  2; 2; 2; 2; 2; 2; 2; 2;
  2; 2; 2; 2; 2; 2; 2; 2;
  2; 2; 2; 2; 2; 2; 2; 2;
  2; 2; 2; 2; 2; 2; 2; 2;
  1; 1; 1; 1; 1; 1; 1; 1;
  1; 1; 1; 1; 1; 1; 1; 1;
  1; 1; 1; 1; 1; 1; 1; 1;
  1; 1; 1; 1; 1; 1; 1; 1;
  1; 1; 1; 1; 1; 1; 1; 1;
  1; 1; 1; 1; 1; 1; 1; 1;
  1; 1; 1; 1; 1; 1; 1; 1;
  1; 1; 1; 1; 1; 1; 1; 1;
  0; 0; 0; 0; 0; 0; 0; 0;
  0; 0; 0; 0; 0; 0; 0; 0;
  0; 0; 0; 0; 0; 0; 0; 0;
  0; 0; 0; 0; 0; 0; 0; 0;
  0; 0; 0; 0; 0; 0; 0; 0;
  0; 0; 0; 0; 0; 0; 0; 0;
  0; 0; 0; 0; 0; 0; 0; 0;
  0; 0; 0; 0; 0; 0; 0; 0;
  0; 0; 0; 0; 0; 0; 0; 0;
  0; 0; 0; 0; 0; 0; 0; 0;
  0; 0; 0; 0; 0; 0; 0; 0;
  0; 0; 0; 0; 0; 0; 0; 0;
  0; 0; 0; 0; 0; 0; 0; 0;
  0; 0; 0; 0; 0; 0; 0; 0;
  0; 0; 0; 0; 0; 0; 0; 0;
  0; 0; 0; 0; 0; 0; 0; 0].

(** The loop of [logdist]: leading zero bits of the difference. *)
Fixpoint lzLoop (a b : bytes) : Z :=
  match a, b with
  | x :: a, y :: b =>
      let x := Z.lxor x y in
      if x =? 0 then 8 + lzLoop a b else nth (Z.to_nat x) lzcount 0
  | _, _ => 0
  end.

Definition logdist (a b : bytes) : Z := Z.of_nat (length a) * 8 - lzLoop a b.

(** [rand.Intn(255)] for the bytes after the changed one: [tail]. *)
Definition hashAtDistance (a : bytes) (n : Z) (tail : nat → Z) : gores bytes :=
  if n =? 0 then Ret a
  else
    let pos := Z.of_nat (length a) - n ÷ 8 - 1 in
    let bit := Z.shiftl 1 ((Z.rem n 8 - 1) mod 256) mod 256 in
    let '(pos, bit) := if bit =? 0 then (pos + 1, 128) else (pos, bit) in
    x ← index a pos;
    let b := Z.lor (Z.land x (Z.lxor bit 255)) (Z.land (Z.lxor x 255) bit) in
    let pos := Z.to_nat pos in
    Ret (take pos a ++ b :: (tail <$> seq (S pos) (length a - S pos))).

(** ** Identifiers *)

Definition NodeIDLength : nat := 64.

Definition NodeID_String (id : bytes) : string := Bytes2Hex id.

(** [hex.DecodeString]: an odd length or another character is an error. *)
Fixpoint hexDecode (s : string) : option bytes :=
  match s with
  | EmptyString => Some []
  | String a (String b s) =>
      match fromHexChar a, fromHexChar b with
      | Some x, Some y => (fun l => (16 * x + y) :: l) <$> hexDecode s
      | _, _ => None
      end
  | String _ EmptyString => None
  end.

Definition HexID (in_ : string) : result bytes :=
  let in_ := if hexPrefix in_ then dropStr 2 in_ else in_ in
  match hexDecode in_ with
  | None => Err "hex"
  | Some b => if Nat.eqb (length b) NodeIDLength then Ok b else Err "wrong length, want 128 hex chars"
  end.

Section Keys.
  Context {C : Curve}.

Definition PubkeyID (pub : PublicKey) : gores bytes :=
  let pbytes := ecMarshal (pubX pub) (pubY pub) in
  if negb (Nat.eqb (length pbytes - 1) NodeIDLength) then Crash else Ret (drop 1 pbytes).

Definition Pubkey (id : bytes) : PublicKey :=
  let half := Nat.div (length id) 2 in
  {| pubX := beVal (take half id); pubY := beVal (drop half id) |}.

Definition recoverNodeID (hash sig : bytes) : gores bytes :=
  match Ecrecover hash sig with
  | Crash => Crash
  | Fail e => Fail e
  | Ret pubkey =>
      if negb (Nat.eqb (length pubkey - 1) NodeIDLength) then Fail "recovered pubkey has the wrong length"
      else Ret (drop 1 pubkey)
  end.

End Keys.

(** ** The distance as a number *)

(** The difference of two hashes. *)
Definition xorVal (a b : bytes) : Z := beVal (zip_with Z.lxor a b).

Lemma xor_bytes a b : Forall is_byte a → Forall is_byte b → Forall is_byte (zip_with Z.lxor a b).
Proof.
  intros Ha. revert b. induction Ha as [|x a Hx Ha IH]; intros [|y b] Hb; cbn; try constructor.
  - apply Forall_cons in Hb as [Hy _]. by apply lxor_byte.
  - apply Forall_cons in Hb as [_ Hb]. by apply IH.
Qed.

Lemma xorVal_cons x a y b : length a = length b →
  xorVal (x :: a) (y :: b) = Z.lxor x y * 256 ^ Z.of_nat (length a) + xorVal a b.
Proof. intros Hl. unfold xorVal. cbn [zip_with]. rewrite beVal_cons, length_zip_with, Hl, Nat.min_id. done. Qed.

Lemma xorVal_range a b : Forall is_byte a → Forall is_byte b → length a = length b →
  0 ≤ xorVal a b < 256 ^ Z.of_nat (length a).
Proof.
  intros Ha Hb Hl. pose proof (beVal_range _ (xor_bytes a b Ha Hb)) as H. rewrite length_zip_with, <- Hl, Nat.min_id in H. done.
Qed.

Lemma testbit_concat x r k i : 0 ≤ k → 0 ≤ r < 2 ^ k → 0 ≤ i →
  Z.testbit (x * 2 ^ k + r) i = if i <? k then Z.testbit r i else Z.testbit x (i - k).
Proof.
  intros Hk Hr Hi. destruct (Z.ltb_spec i k) as [Hlt|Hge].
  - rewrite <- (Z.mod_pow2_bits_low _ k) by lia. rewrite <- (Z.mod_pow2_bits_low r k) by lia. f_equal.
    rewrite Z.add_comm, Z.mod_add by lia. done.
  - replace i with (i - k + k) at 1 by lia. rewrite <- Z.div_pow2_bits by lia. f_equal.
    rewrite Z.div_add_l by lia. rewrite (Z.div_small r) by lia. lia.
Qed.

Lemma lxor_concat x r y s k : 0 ≤ k → 0 ≤ r < 2 ^ k → 0 ≤ s < 2 ^ k → 0 ≤ Z.lxor r s < 2 ^ k →
  Z.lxor (x * 2 ^ k + r) (y * 2 ^ k + s) = Z.lxor x y * 2 ^ k + Z.lxor r s.
Proof.
  intros Hk Hr Hs Hx. apply Z.bits_inj'. intros i Hi. rewrite Z.lxor_spec, !testbit_concat, !Z.lxor_spec by done.
  by destruct (_ <? _).
Qed.

(** The difference is the bitwise one of the hashes as numbers. *)
Lemma xorVal_lxor a b : Forall is_byte a → Forall is_byte b → length a = length b →
  xorVal a b = Z.lxor (beVal a) (beVal b).
Proof.
  intros Ha. revert b. induction Ha as [|x a Hx Ha IH]; intros [|y b] Hb Hl; try done.
  apply Forall_cons in Hb as [Hy Hb]. injection Hl as Hl. rewrite xorVal_cons, !beVal_cons, IH by done.
  pose proof (beVal_range a Ha). pose proof (beVal_range b Hb). pose proof (xorVal_range a b Ha Hb Hl) as Hr.
  rewrite IH in Hr by done. rewrite <- Hl in *. rewrite <- pow256 in *. symmetry. apply lxor_concat; lia.
Qed.

(** [distcmp] compares the distances to the target as numbers. *)
Lemma distcmp_xor t a b : Forall is_byte t → Forall is_byte a → Forall is_byte b →
  length a = length t → length b = length t → distcmp t a b = Z.sgn (xorVal a t - xorVal b t).
Proof.
  intros Ht. revert a b. induction Ht as [|z t Hz Ht IH]; intros [|x a] [|y b] Ha Hb Hla Hlb; try done.
  apply Forall_cons in Ha as [Hx Ha]. apply Forall_cons in Hb as [Hy Hb]. injection Hla as Hla. injection Hlb as Hlb.
  cbn [distcmp]. rewrite !xorVal_cons by done. pose proof (xorVal_range a t Ha Ht Hla) as Ra.
  pose proof (xorVal_range b t Hb Ht Hlb) as Rb. rewrite Hla in Ra |- *. rewrite Hlb in Rb |- *.
  set (p := 256 ^ Z.of_nat (length t)) in *. set (da := Z.lxor x z). set (db := Z.lxor y z).
  destruct (Z.ltb_spec db da); [symmetry; apply Z.sgn_pos_iff; nia|].
  destruct (Z.ltb_spec da db); [symmetry; apply Z.sgn_neg_iff; nia|].
  assert (da = db) as -> by lia. rewrite IH by done. f_equal. lia.
Qed.

(** The number of bits of a number. *)
Definition bitlen (z : Z) : Z := if z =? 0 then 0 else Z.log2 z + 1.

Lemma lzcount_bitlen x : 0 < x < 256 → nth (Z.to_nat x) lzcount 0 = 8 - bitlen x.
Proof.
  intros Hx. assert (Hall : forallb (fun n => nth n lzcount 0 =? 8 - bitlen (Z.of_nat n)) (seq 1 255) = true)
    by (vm_compute; reflexivity).
  rewrite forallb_forall in Hall. specialize (Hall (Z.to_nat x)). rewrite Z2Nat.id in Hall by lia.
  apply Z.eqb_eq, Hall, in_seq. lia.
Qed.

Lemma bitlen_concat x r k : 0 < x → 0 ≤ k → 0 ≤ r < 2 ^ k → bitlen (x * 2 ^ k + r) = bitlen x + k.
Proof.
  intros Hx Hk Hr. unfold bitlen. assert (0 < 2 ^ k) by (apply Z.pow_pos_nonneg; lia).
  rewrite (proj2 (Z.eqb_neq x 0)), (proj2 (Z.eqb_neq (x * 2 ^ k + r) 0)) by nia.
  enough (Z.log2 (x * 2 ^ k + r) = Z.log2 x + k) by lia. apply Z.log2_unique; [pose proof (Z.log2_nonneg x); lia|].
  pose proof (Z.log2_spec x Hx) as [Hl Hu]. pose proof (Z.log2_nonneg x).
  rewrite Z.pow_add_r, <- Z.add_succ_l, Z.pow_add_r by lia. nia.
Qed.

(** [logdist] is the number of bits of the difference. *)
Lemma logdist_bitlen a b : Forall is_byte a → Forall is_byte b → length a = length b →
  logdist a b = bitlen (xorVal a b).
Proof.
  unfold logdist. intros Ha. revert b. induction Ha as [|x a Hx Ha IH]; intros [|y b] Hb Hl; try done.
  apply Forall_cons in Hb as [Hy Hb]. injection Hl as Hl. rewrite xorVal_cons by done. specialize (IH b Hb Hl).
  pose proof (xorVal_range a b Ha Hb Hl) as Hr. pose proof (lxor_byte x y Hx Hy) as Hxy. unfold is_byte in Hxy.
  cbn [length lzLoop]. destruct (Z.eqb_spec (Z.lxor x y) 0) as [->|Hne].
  - rewrite Z.mul_0_l, Z.add_0_l. lia.
  - rewrite lzcount_bitlen by lia. rewrite <- pow256 in *. rewrite bitlen_concat by lia. lia.
Qed.

Lemma bitlen_nonneg z : 0 ≤ bitlen z.
Proof. unfold bitlen. destruct (z =? 0); [done|]. pose proof (Z.log2_nonneg z). lia. Qed.

Lemma bitlen_lxor u v : 0 ≤ u → 0 ≤ v → bitlen (Z.lxor u v) ≤ Z.max (bitlen u) (bitlen v).
Proof.
  intros Hu Hv. pose proof (bitlen_nonneg u). pose proof (bitlen_nonneg v).
  destruct (Z.eq_dec u 0) as [->|Hu0]; [rewrite Z.lxor_0_l; lia|].
  destruct (Z.eq_dec v 0) as [->|Hv0]; [rewrite Z.lxor_0_r; lia|].
  unfold bitlen in *. destruct (Z.eqb_spec (Z.lxor u v) 0); [lia|].
  rewrite (proj2 (Z.eqb_neq u 0)), (proj2 (Z.eqb_neq v 0)) by done. pose proof (Z.log2_lxor u v Hu Hv). lia.
Qed.

Lemma beVal_inj_length a b : Forall is_byte a → Forall is_byte b → length a = length b → beVal a = beVal b → a = b.
Proof. intros Ha Hb Hl He. by rewrite <- (beBytes_beVal a Ha), He, Hl, (beBytes_beVal b Hb). Qed.

(** A hash: 32 bytes. *)
Definition isHash (h : bytes) : Prop := length h = HashLength ∧ Forall is_byte h.

(** Distances: [distcmp] compares the bitwise differences to the target as numbers;
    [logdist] is the number of bits of the difference, so it is between 0 and 256, zero
    exactly for equal hashes, symmetric, and at most the larger of two distances over an
    intermediate hash. *)
Theorem logdist_ultrametric a b c : isHash a → isHash b → isHash c →
  distcmp a b c = Z.sgn (Z.lxor (beVal b) (beVal a) - Z.lxor (beVal c) (beVal a)) ∧
  logdist a b = bitlen (Z.lxor (beVal a) (beVal b)) ∧
  0 ≤ logdist a b ≤ 256 ∧ (logdist a b = 0 ↔ a = b) ∧ logdist a b = logdist b a ∧
  logdist a c ≤ Z.max (logdist a b) (logdist b c).
Proof.
  intros [La Ha] [Lb Hb] [Lc Hc].
  rewrite !logdist_bitlen, distcmp_xor, !xorVal_lxor by (done || congruence).
  pose proof (beVal_range a Ha) as Ra. pose proof (beVal_range b Hb) as Rb. pose proof (beVal_range c Hc) as Rc.
  split; [done|]. split; [done|]. split; [|split; [|split]].
  - split; [apply bitlen_nonneg|]. pose proof (xorVal_range a b Ha Hb ltac:(congruence)) as Hx.
    rewrite xorVal_lxor, La in Hx by (done || congruence). change (256 ^ Z.of_nat HashLength) with (2 ^ 256) in Hx.
    unfold bitlen. destruct (Z.eqb_spec (Z.lxor (beVal a) (beVal b)) 0); [done|].
    pose proof (proj1 (Z.log2_lt_pow2 (Z.lxor (beVal a) (beVal b)) 256 ltac:(lia)) ltac:(lia)). lia.
  - split; [|intros ->; by rewrite Z.lxor_nilpotent].
    unfold bitlen. destruct (Z.eqb_spec (Z.lxor (beVal a) (beVal b)) 0) as [H0|].
    + intros _. apply beVal_inj_length; [done..|congruence|]. by apply Z.lxor_eq.
    + pose proof (Z.log2_nonneg (Z.lxor (beVal a) (beVal b))). lia.
  - by rewrite Z.lxor_comm.
  - replace (Z.lxor (beVal a) (beVal c)) with (Z.lxor (Z.lxor (beVal a) (beVal b)) (Z.lxor (beVal b) (beVal c)));
      [apply bitlen_lxor; apply Z.lxor_nonneg; lia|].
    rewrite Z.lxor_assoc, <- (Z.lxor_assoc (beVal b)), Z.lxor_nilpotent, Z.lxor_0_l. done.
Qed.

Lemma logdist_ultrametric_witness :
  let a := replicate 32 0 in let b := replicate 31 0 ++ [5] in let c := replicate 30 0 ++ [1; 0] in
  distcmp a b c = Z.sgn (Z.lxor (beVal b) (beVal a) - Z.lxor (beVal c) (beVal a)) ∧
  logdist a b = bitlen (Z.lxor (beVal a) (beVal b)) ∧
  0 ≤ logdist a b ≤ 256 ∧ (logdist a b = 0 ↔ a = b) ∧ logdist a b = logdist b a ∧
  logdist a c ≤ Z.max (logdist a b) (logdist b c).
Proof. apply logdist_ultrametric; (split; [done|repeat constructor; done]). Defined.

(** ** A hash at a distance *)

Definition flip (x bit : Z) : Z := Z.lor (Z.land x (Z.lxor bit 255)) (Z.land (Z.lxor x 255) bit).

Lemma flip_spec x k : is_byte x → 0 ≤ k < 8 → is_byte (flip x (2 ^ k)) ∧ Z.lxor x (flip x (2 ^ k)) = 2 ^ k.
Proof.
  intros Hx Hk. unfold is_byte in *.
  assert (Hall : forallb (fun x => forallb (fun k =>
    let y := flip (Z.of_nat x) (2 ^ Z.of_nat k) in
    (0 <=? y) && (y <? 256) && (Z.lxor (Z.of_nat x) y =? 2 ^ Z.of_nat k)) (seq 0 8)) (seq 0 256) = true)
    by (vm_compute; reflexivity).
  rewrite forallb_forall in Hall. specialize (Hall (Z.to_nat x) ltac:(apply in_seq; lia)).
  rewrite forallb_forall in Hall. specialize (Hall (Z.to_nat k) ltac:(apply in_seq; lia)).
  rewrite !Z2Nat.id in Hall by lia. apply andb_prop in Hall as [[H1 H2]%andb_prop H3].
  apply Z.leb_le in H1. apply Z.ltb_lt in H2. by apply Z.eqb_eq in H3.
Qed.

Lemma lzLoop_app p a b : lzLoop (p ++ a) (p ++ b) = 8 * Z.of_nat (length p) + lzLoop a b.
Proof.
  induction p as [|x p IH]; cbn [app lzLoop length]; [lia|]. rewrite Z.lxor_nilpotent. cbn [Z.eqb]. rewrite IH. lia.
Qed.

(** The changed bit and its byte. *)
Lemma hashAtDistance_bit n : 0 < n ≤ 256 →
  let bit := Z.shiftl 1 ((Z.rem n 8 - 1) mod 256) mod 256 in
  (if bit =? 0 then (32 - n ÷ 8 - 1 + 1, 128) else (32 - n ÷ 8 - 1, bit)) = (31 - (n - 1) / 8, 2 ^ ((n - 1) mod 8)).
Proof.
  intros Hn. assert (Hall : forallb (fun m => let n := Z.of_nat m in
    let bit := Z.shiftl 1 ((Z.rem n 8 - 1) mod 256) mod 256 in
    bool_decide ((if bit =? 0 then (32 - n ÷ 8 - 1 + 1, 128) else (32 - n ÷ 8 - 1, bit)) =
                 (31 - (n - 1) / 8, 2 ^ ((n - 1) mod 8)))) (seq 1 256) = true) by (vm_compute; reflexivity).
  rewrite forallb_forall in Hall. specialize (Hall (Z.to_nat n) ltac:(apply in_seq; lia)).
  rewrite Z2Nat.id in Hall by lia. by apply bool_decide_eq_true_1 in Hall.
Qed.

(** [hashAtDistance] is at the distance asked for, whatever the random bytes. *)
Lemma logdist_hashAtDistance a n tail : isHash a → 0 ≤ n ≤ 256 → (∀ i, is_byte (tail i)) →
  ∃ b, hashAtDistance a n tail = Ret b ∧ isHash b ∧ logdist a b = n.
Proof.
  intros [Hl Ha] Hn Ht. unfold hashAtDistance. destruct (Z.eqb_spec n 0) as [->|Hn0].
  { exists a. split; [done|]. split; [done|]. rewrite logdist_bitlen, xorVal_lxor by done. by rewrite Z.lxor_nilpotent. }
  rewrite Hl. change (Z.of_nat HashLength) with 32. cbv zeta.
  rewrite (hashAtDistance_bit n) by lia. cbv beta iota.
  pose proof (Z.div_mod (n - 1) 8 ltac:(lia)) as Hdm. pose proof (Z.mod_pos_bound (n - 1) 8 ltac:(lia)) as Hm.
  set (q := (n - 1) / 8) in *. set (k := (n - 1) mod 8) in *. assert (0 ≤ q ≤ 31) by lia.
  destruct (lookup_lt_is_Some_2 a (Z.to_nat (31 - q))) as [x Hx]; [rewrite Hl; unfold HashLength; lia|].
  assert (Hi : index a (31 - q) = Ret x) by (rewrite <- (Z2Nat.id (31 - q)) by lia; by apply index_Ret).
  rewrite Hi. cbn [mbind gores_bind]. change (Z.lor _ _) with (flip x (2 ^ k)).
  pose proof (proj1 (Forall_lookup is_byte a) Ha _ _ Hx) as Hxb. destruct (flip_spec x k Hxb Hm) as [Hfb Hfx].
  eexists. split; [done|].
  assert (Hb : length (take (Z.to_nat (31 - q)) a) = Z.to_nat (31 - q)) by (rewrite length_take, Hl; unfold HashLength; lia).
  split.
  - split; [rewrite length_app, Hb; cbn [length]; rewrite length_fmap, length_seq; unfold HashLength; lia|].
    apply Forall_app. split; [by apply Forall_take|]. constructor; [done|]. apply Forall_fmap, Forall_true. intros i. apply Ht.
  - unfold logdist. rewrite <- (take_drop_middle a _ x Hx) at 2. rewrite lzLoop_app, Hb. cbn [lzLoop]. rewrite Hfx.
    assert (0 < 2 ^ k < 256) by (split; [apply Z.pow_pos_nonneg; lia|apply (Z.pow_lt_mono_r 2 k 8); lia]).
    rewrite (proj2 (Z.eqb_neq (2 ^ k) 0)), lzcount_bitlen by lia. unfold bitlen.
    rewrite (proj2 (Z.eqb_neq (2 ^ k) 0)), Z.log2_pow2, Hl by lia. unfold HashLength. lia.
Qed.

(** ** Identifiers *)

Lemma hexDecode_Bytes2Hex b : Forall is_byte b → hexDecode (Bytes2Hex b) = Some b.
Proof.
  induction 1 as [|x b Hx Hb IH]; [done|]. unfold is_byte in Hx. cbn [Bytes2Hex hexDecode].
  rewrite !fromHexChar_hexDigit, IH by dlia.
  cbn. do 2 f_equal. dlia.
Qed.

Lemma hexPrefix_Bytes2Hex b : Forall is_byte b → hexPrefix (Bytes2Hex b) = false.
Proof.
  intros Hb. destruct b as [|x b]; [done|]. apply Forall_cons in Hb as [Hx _]. unfold is_byte in Hx.
  assert (Hall : forallb (fun d => negb (bool_decide (hexDigit (Z.of_nat d) = "x"%char))) (seq 0 16) = true)
    by (vm_compute; reflexivity).
  rewrite forallb_forall in Hall. specialize (Hall (Z.to_nat (x mod 16)) ltac:(apply in_seq; dlia)).
  rewrite Z2Nat.id in Hall by dlia. apply negb_true_iff, bool_decide_eq_false_1 in Hall.
  unfold hexPrefix. cbn [Bytes2Hex String.prefix].
  destruct (ascii_dec "0" _); [|done]. destruct (ascii_dec "x" _) as [E|]; [|done]. by rewrite <- E in Hall.
Qed.

(** An identifier is read back from its hex form, and a key from its identifier. *)
Lemma HexID_String id : length id = NodeIDLength → Forall is_byte id → HexID (NodeID_String id) = Ok id.
Proof.
  intros Hl Hb. unfold HexID, NodeID_String. rewrite hexPrefix_Bytes2Hex, hexDecode_Bytes2Hex by done.
  by rewrite Hl.
Qed.

Lemma Pubkey_PubkeyID {C : Curve} smul {L : CurveLaws C smul} k :
  ∃ id, PubkeyID {| pubX := (smul k).1; pubY := (smul k).2 |} = Ret id ∧ length id = NodeIDLength ∧
    Pubkey id = {| pubX := (smul k).1; pubY := (smul k).2 |}.
Proof.
  destruct (smul_range smul k) as [Hx Hy]. pose proof (pad32_length _ Hx) as Lx. pose proof (pad32_length _ Hy) as Ly.
  exists (pad32 (bigBytes (smul k).1) ++ pad32 (bigBytes (smul k).2)).
  assert (Hl : length (pad32 (bigBytes (smul k).1) ++ pad32 (bigBytes (smul k).2)) = NodeIDLength)
    by (rewrite length_app, Lx, Ly; done).
  split; [|split; [done|]].
  - unfold PubkeyID, ecMarshal. cbn [pubX pubY length Nat.sub drop]. rewrite Nat.sub_0_r, Hl. done.
  - unfold Pubkey. rewrite Hl. change (NodeIDLength / 2)%nat with 32%nat.
    rewrite take_app_length', drop_app_length', !beVal_pad32 by (done || lia). done.
Qed.
