(* ===== verification/Table.v ===== *)
(** * The table of known nodes

    [src/p2p/discover/table.go]: the Kademlia table of the discovery protocol, 257 buckets
    of at most 16 nodes by the distance of their hash to the own one.  A node is a pointer
    in the sources: [nRef] is its address, and the [contested] flags, which [add] sets
    through the pointer, are the set of the addresses that have it.  [add] releases the
    lock while it pings the oldest node of a full bucket: it is [addBegin], the ping, and
    [addEnd], between which anything else may happen.  The database, the transport and the
    refresh timer are outside.

    Properties: through any interleaving of operations every bucket holds at most 16
    nodes, each in the bucket of its distance, no node twice and never the own one, and no
    node is pinged by two adds at once ([table_wf]); [closest] returns the nodes of the
    table nearest to the target, in order ([closest_nearest]); [ReadRandomNodes] hands out
    nodes of the table without repetition, but counts one too many when it fills the
    buffer ([ReadRandomNodes_spec]). *)

From stdpp Require Import base gmap sets list strings sorting.
From Stdlib Require Import ZArith Lia.
From S2P Require Import Prelude Common Words RlpEncode RlpRaw Sm3 Discover.
Local Open Scope Z_scope.

Definition alpha : nat := 3.
Definition bucketSize : nat := 16.
Definition nBuckets : nat := 257.

Record Node := {
  nRef : nat;
  nIP : option bytes;
  nUDP : Z;
  nTCP : Z;
  nID : bytes;
  nSha : bytes;
  nNodeType : Z
}.

(** [ip.To4] shortens an IPv4 address in 16 bytes. *)
Definition To4 (ip : option bytes) : option bytes :=
  match ip with
  | None => None
  | Some ip =>
      if Nat.eqb (length ip) 4 then Some ip
      else if Nat.eqb (length ip) 16 && bool_decide (take 12 ip = replicate 10 0 ++ [255; 255]) then Some (drop 12 ip)
      else None
  end.

(** [crypto.Keccak256Hash] is SM3. *)
Definition NewNodeByType (ref : nat) (id : bytes) (ip : option bytes) (udpPort tcpPort nodetype : Z) : Node := {|
  nRef := ref; nIP := match To4 ip with Some ipv4 => Some ipv4 | None => ip end;
  nUDP := udpPort; nTCP := tcpPort; nID := id; nSha := sm3 id; nNodeType := nodetype |}.

Definition NewNode (ref : nat) (id : bytes) (ip : option bytes) (udpPort tcpPort : Z) : Node :=
  NewNodeByType ref id ip udpPort tcpPort 0.

Definition Incomplete (n : Node) : bool := match nIP n with None => true | Some _ => false end.

Record Table := {
  buckets : list (list Node);
  nursery : list Node;
  self : Node;
  contested : gset nat
}.

Definition newTable (self : Node) : Table :=
  {| buckets := replicate nBuckets []; nursery := []; self := self; contested := ∅ |}.

(** ** Buckets *)

(** The position of a node in a bucket, by identifier. *)
Fixpoint position (id : bytes) (entries : list Node) : option nat :=
  match entries with
  | [] => None
  | n :: entries => if bool_decide (nID n = id) then Some 0%nat else S <$> position id entries
  end.

(** [bump]: the node moves to the front; [None] when it is not there. *)
Definition bump (entries : list Node) (n : Node) : option (list Node) :=
  match position (nID n) entries with
  | Some i => Some (n :: take i entries ++ drop (S i) entries)
  | None => None
  end.

(** [replace]: [None] when nothing is added. *)
Definition replace (entries : list Node) (n : Node) (last : option Node) : option (list Node) :=
  match position (nID n) entries with
  | Some _ => None
  | None =>
      if Nat.eqb (length entries) bucketSize &&
         match last with
         | None => true
         | Some last => bool_decide ((nID <$> entries !! (bucketSize - 1)%nat) ≠ Some (nID last))
         end
      then None
      else
        let len := if Nat.ltb (length entries) bucketSize then S (length entries) else length entries in
        Some (n :: take (len - 1) entries)
  end.

(** ** Operations *)

Definition bucketOf (tab : Table) (n : Node) : nat := Z.to_nat (logdist (nSha (self tab)) (nSha n)).

Definition getBucket (tab : Table) (i : nat) : list Node := nth i (buckets tab) [].

Definition setBucket (tab : Table) (i : nat) (entries : list Node) : Table :=
  {| buckets := <[i := entries]> (buckets tab); nursery := nursery tab; self := self tab; contested := contested tab |}.

Definition setContested (tab : Table) (c : gset nat) : Table :=
  {| buckets := buckets tab; nursery := nursery tab; self := self tab; contested := c |}.

Definition tryReplace (tab : Table) (new : Node) (last : option Node) : Table :=
  match replace (getBucket tab (bucketOf tab new)) new last with
  | Some entries => setBucket tab (bucketOf tab new) entries
  | None => tab
  end.

(** [add] up to the ping of the oldest node, if there is one. *)
Definition addBegin (tab : Table) (new : Node) : Table * option Node :=
  let b := getBucket tab (bucketOf tab new) in
  match bump b new with
  | Some entries => (setBucket tab (bucketOf tab new) entries, None)
  | None =>
      if Nat.eqb (length b) bucketSize then
        match b !! (bucketSize - 1)%nat with
        | None => (tab, None)
        | Some oldest =>
            if bool_decide (nRef oldest ∈ contested tab) then (tab, None)
            else (setContested tab ({[nRef oldest]} ∪ contested tab), Some oldest)
        end
      else (tryReplace tab new None, None)
  end.

(** [add] after the ping. *)
Definition addEnd (tab : Table) (new oldest : Node) (pingOK : bool) : Table :=
  let tab := setContested tab (contested tab ∖ {[nRef oldest]}) in
  if pingOK then tab else tryReplace tab new (Some oldest).

Definition stuffOne (tab : Table) (n : Node) : Table :=
  if bool_decide (nID n = nID (self tab)) then tab
  else
    let b := getBucket tab (bucketOf tab n) in
    match position (nID n) b with
    | Some _ => tab
    | None => if Nat.ltb (length b) bucketSize then setBucket tab (bucketOf tab n) (b ++ [n]) else tab
    end.

Definition stuff (tab : Table) (nodes : list Node) : Table := foldl stuffOne tab nodes.

Definition delete (tab : Table) (node : Node) : Table :=
  let b := getBucket tab (bucketOf tab node) in
  match position (nID node) b with
  | Some i => setBucket tab (bucketOf tab node) (take i b ++ drop (S i) b)
  | None => tab
  end.

Definition tabLen (tab : Table) : nat := foldl (fun n b => n + length b)%nat 0%nat (buckets tab).

(** ** The nearest nodes *)

(** [sort.Search]. *)
Fixpoint searchLoop (f : nat → bool) (fuel i j : nat) : nat :=
  match fuel with
  | O => i
  | S fuel =>
      if Nat.ltb i j then
        let h := Nat.div (i + j) 2 in
        if f h then searchLoop f fuel i h else searchLoop f fuel (S h) j
      else i
  end.

Definition Search (n : nat) (f : nat → bool) : nat := searchLoop f (S n) 0 n.

(** [nodesByDistance.push]. *)
Definition push (target : bytes) (entries : list Node) (n : Node) (maxElems : nat) : list Node :=
  let ix := Search (length entries) (fun i =>
    match entries !! i with Some e => 0 <? distcmp target (nSha e) (nSha n) | None => false end) in
  let len := if Nat.ltb (length entries) maxElems then S (length entries) else length entries in
  if Nat.eqb ix len then entries
  else take ix entries ++ n :: take (len - S ix) (drop ix entries).

Definition closest (tab : Table) (target : bytes) (nresults : nat) : list Node :=
  foldl (fun close b => foldl (fun close n => push target close n nresults) close b) [] (buckets tab).

(** ** Random nodes *)

(** The shuffle of [ReadRandomNodes], for the numbers [randUint(i)] gives. *)
Fixpoint shuffle {A} (l : list A) (i : nat) (rand : nat → nat) : list A :=
  match i with
  | O => l
  | S i' =>
      let j := rand i in
      match l !! i, l !! j with
      | Some x, Some y => shuffle (<[j := x]> (<[i := y]> l)) i' rand
      | _, _ => l
      end
  end.

(** The heads of the buckets in turn; [n] is the room left in the buffer.  The nodes
    written and the value of [i] at the end. *)
Fixpoint readLoop (n : nat) (bs : list (list Node)) (j : nat) (written : list Node) : list Node * nat :=
  match n with
  | O => (written, length written)
  | S n =>
      match bs !! j with
      | Some (x :: b) =>
          let bs := match b with
                    | [] => take j bs ++ drop (S j) bs
                    | _ => <[j := b]> bs
                    end in
          let written' := written ++ [x] in
          match bs with
          | [] => (written', length written)
          | _ => readLoop n bs ((j + 1) mod length bs) written'
          end
      | _ => (written, length written)
      end
  end.

(** The nodes written and the count returned. *)
Definition ReadRandomNodes (tab : Table) (bufLen : nat) (rand : nat → nat) : list Node * nat :=
  let bs := List.filter (fun b => negb (Nat.eqb (length b) 0)) (buckets tab) in
  match bs with
  | [] => ([], 0%nat)
  | _ =>
      let bs := shuffle bs (length bs - 1) rand in
      let '(written, i) := readLoop bufLen bs 0 [] in
      (written, S i)
  end.

(** ** The invariant *)

(** A node built by [NewNode]: its hash is the one of its identifier. *)
Definition nodeOK (n : Node) : Prop := nSha n = sm3 (nID n).

Definition entryOK (tab : Table) (i : nat) (n : Node) : Prop :=
  nodeOK n ∧ bucketOf tab n = i ∧ nID n ≠ nID (self tab).

Definition bucketOK (tab : Table) (i : nat) (b : list Node) : Prop :=
  (length b ≤ bucketSize)%nat ∧ NoDup (nID <$> b) ∧ Forall (entryOK tab i) b.

Record tableOK (tab : Table) : Prop := {
  t_self : nodeOK (self tab);
  t_length : length (buckets tab) = nBuckets;
  t_buckets : ∀ i b, buckets tab !! i = Some b → bucketOK tab i b
}.

Lemma sm3_isHash m : isHash (sm3 m).
Proof.
  split; [apply sm3_length|]. unfold sm3, digestBytes. destruct (chain _ _) as [[[[[[[? ?] ?] ?] ?] ?] ?] ?].
  repeat apply Forall_app_2; apply put32_bytes.
Qed.

Lemma logdist_range a b : isHash a → isHash b → 0 ≤ logdist a b ≤ 256.
Proof.
  intros [La Ha] [Lb Hb]. rewrite logdist_bitlen by (done || congruence). split; [apply bitlen_nonneg|].
  pose proof (xorVal_range a b Ha Hb ltac:(congruence)) as Hx. rewrite La in Hx. change (256 ^ Z.of_nat HashLength) with (2 ^ 256) in Hx.
  unfold bitlen. destruct (Z.eqb_spec (xorVal a b) 0); [done|].
  pose proof (proj1 (Z.log2_lt_pow2 (xorVal a b) 256 ltac:(lia)) ltac:(lia)). lia.
Qed.

Lemma bucketOf_lt tab n : tableOK tab → nodeOK n → (bucketOf tab n < nBuckets)%nat.
Proof.
  intros Ht Hn. unfold bucketOf. rewrite (t_self _ Ht), Hn.
  pose proof (logdist_range _ _ (sm3_isHash (nID (self tab))) (sm3_isHash (nID n))). unfold nBuckets. lia.
Qed.

Lemma getBucket_lookup tab i : (i < length (buckets tab))%nat → buckets tab !! i = Some (getBucket tab i).
Proof.
  intros [b Hb]%lookup_lt_is_Some. unfold getBucket. by rewrite (nth_lookup_Some _ _ _ _ Hb).
Qed.

Lemma getBucket_OK tab n : tableOK tab → nodeOK n → bucketOK tab (bucketOf tab n) (getBucket tab (bucketOf tab n)).
Proof.
  intros Ht Hn. apply (t_buckets _ Ht), getBucket_lookup. rewrite (t_length _ Ht). by apply bucketOf_lt.
Qed.

Lemma setBucket_OK tab i entries : tableOK tab → bucketOK tab i entries → tableOK (setBucket tab i entries).
Proof.
  intros [Hs Hl Hb] He. split; [done|cbn; by rewrite length_insert|]. intros j b Hj.
  apply list_lookup_insert_Some in Hj as [(-> & -> & _)|(_ & Hj)]; [done|]. by apply (Hb j).
Qed.

Lemma setContested_OK tab c : tableOK tab → tableOK (setContested tab c).
Proof. by intros [? ? ?]. Qed.

(** The position found splits the bucket. *)
Lemma position_Some id b i : position id b = Some i →
  ∃ x, b = take i b ++ x :: drop (S i) b ∧ nID x = id.
Proof.
  revert i. induction b as [|n b IH]; cbn; [done|]. intros i. case_bool_decide as Hid.
  - intros [= <-]. by exists n.
  - intros (j & Hj & ->)%fmap_Some. destruct (IH j Hj) as (x & Hb & Hx). exists x. split; [|done].
    cbn. by rewrite Hb at 1.
Qed.

Lemma position_None id b : position id b = None → id ∉ nID <$> b.
Proof.
  induction b as [|n b IH]; cbn; [set_solver|]. case_bool_decide as Hid; [done|].
  intros Hn%fmap_None. apply not_elem_of_cons. split; [congruence|by apply IH].
Qed.

Lemma bucketOK_split tab i l x r : bucketOK tab i (l ++ x :: r) → bucketOK tab i (l ++ r) ∧ nID x ∉ nID <$> (l ++ r).
Proof.
  intros (Hl & Hd & Hf). assert (Hp : l ++ x :: r ≡ₚ x :: l ++ r) by (symmetry; apply Permutation_middle).
  rewrite Hp in Hd, Hf. rewrite fmap_cons in Hd. apply NoDup_cons in Hd as [Hx Hd]. apply Forall_cons in Hf as [_ Hf].
  split; [|done]. split; [|done]. rewrite length_app in *. cbn in Hl. lia.
Qed.

Lemma bucketOK_cons tab i n b : entryOK tab i n → nID n ∉ nID <$> b → (length b < bucketSize)%nat →
  bucketOK tab i b → bucketOK tab i (n :: b).
Proof.
  intros Hn Hin Hl (_ & Hd & Hf). split; [cbn; lia|]. split; [rewrite fmap_cons; by constructor|by constructor].
Qed.

Lemma bump_OK tab i b n b' : entryOK tab i n → bucketOK tab i b → bump b n = Some b' → bucketOK tab i b'.
Proof.
  unfold bump. intros Hn Hb. destruct (position (nID n) b) as [k|] eqn:Hk; [|done]. intros [= <-].
  destruct (position_Some _ _ _ Hk) as (x & Hsplit & Hx).
  assert (Hlen : length b = S (length (take k b ++ drop (S k) b)))
    by (rewrite Hsplit at 1; rewrite !length_app; cbn; lia).
  pose proof Hb as (Hl & _ & _). rewrite Hsplit in Hb. apply bucketOK_split in Hb as [Hb Hnin].
  apply bucketOK_cons; [done|congruence|lia|done].
Qed.

Lemma bucketOK_take tab i b k : bucketOK tab i b → bucketOK tab i (take k b).
Proof.
  intros (Hl & Hd & Hf). split; [rewrite length_take; lia|]. split; [|by apply Forall_take].
  rewrite <- (take_drop k b), fmap_app in Hd. by apply NoDup_app in Hd as (Hd & _ & _).
Qed.

Lemma replace_OK tab i b n last b' : entryOK tab i n → bucketOK tab i b → replace b n last = Some b' → bucketOK tab i b'.
Proof.
  unfold replace. intros Hn Hb. destruct (position (nID n) b) eqn:Hp; [done|]. destruct (_ && _) eqn:Hg; [done|].
  intros [= <-]. apply position_None in Hp. pose proof Hb as (Hl & _ & _).
  apply bucketOK_cons; [done| | |by apply bucketOK_take].
  - rewrite fmap_take. intros Hin. apply Hp. eapply subseteq_take, Hin.
  - rewrite length_take. destruct (Nat.ltb_spec (length b) bucketSize); unfold bucketSize in *; lia.
Qed.

Lemma tryReplace_OK tab n last : tableOK tab → nodeOK n → nID n ≠ nID (self tab) → tableOK (tryReplace tab n last).
Proof.
  intros Ht Hn Hs. unfold tryReplace. destruct (replace _ _ _) as [b|] eqn:Hr; [|done].
  apply setBucket_OK; [done|]. eapply replace_OK; [|by apply getBucket_OK|done]. done.
Qed.

Lemma addBegin_OK tab n : tableOK tab → nodeOK n → nID n ≠ nID (self tab) → tableOK (addBegin tab n).1.
Proof.
  intros Ht Hn Hs. unfold addBegin. destruct (bump _ _) as [b|] eqn:Hb.
  - apply setBucket_OK; [done|]. eapply bump_OK; [|by apply getBucket_OK|done]. done.
  - destruct (Nat.eqb _ _); [|by apply tryReplace_OK]. destruct (_ !! _); [|done].
    case_bool_decide; [done|]. by apply setContested_OK.
Qed.

Lemma addEnd_OK tab n oldest ok : tableOK tab → nodeOK n → nID n ≠ nID (self tab) → tableOK (addEnd tab n oldest ok).
Proof.
  intros Ht Hn Hs. unfold addEnd. destruct ok; [by apply setContested_OK|].
  apply tryReplace_OK; [by apply setContested_OK|done|done].
Qed.

Lemma stuffOne_OK tab n : tableOK tab → nodeOK n → tableOK (stuffOne tab n).
Proof.
  intros Ht Hn. unfold stuffOne. case_bool_decide as Hs; [done|]. destruct (position _ _) eqn:Hp; [done|].
  destruct (Nat.ltb_spec (length (getBucket tab (bucketOf tab n))) bucketSize) as [Hlt|]; [|done].
  apply setBucket_OK; [done|]. destruct (getBucket_OK tab n Ht Hn) as (Hl & Hd & Hf). apply position_None in Hp.
  split; [rewrite length_app; cbn; lia|]. split.
  - rewrite fmap_app. apply NoDup_app. split; [done|]. split; [|apply NoDup_singleton]. cbn. set_solver.
  - apply Forall_app_2; [done|]. by repeat constructor.
Qed.

Lemma stuff_OK tab nodes : tableOK tab → Forall nodeOK nodes → tableOK (stuff tab nodes).
Proof.
  unfold stuff. intros Ht Hf. revert tab Ht. induction Hf as [|n nodes Hn Hf IH]; intros tab Ht; cbn; [done|].
  by apply IH, stuffOne_OK.
Qed.

Lemma delete_OK tab n : tableOK tab → nodeOK n → tableOK (delete tab n).
Proof.
  intros Ht Hn. unfold delete. destruct (position _ _) as [i|] eqn:Hp; [|done]. apply setBucket_OK; [done|].
  pose proof (getBucket_OK tab n Ht Hn) as Hb. destruct (position_Some _ _ _ Hp) as (x & Hsplit & _).
  rewrite Hsplit in Hb. by apply bucketOK_split in Hb as [Hb _].
Qed.

(** The own node never changes, and only [add] touches the flags. *)
Lemma tryReplace_rest tab n last : self (tryReplace tab n last) = self tab ∧ contested (tryReplace tab n last) = contested tab.
Proof. unfold tryReplace. by destruct (replace _ _ _). Qed.

Lemma stuff_rest tab nodes : self (stuff tab nodes) = self tab ∧ contested (stuff tab nodes) = contested tab.
Proof.
  unfold stuff. revert tab. induction nodes as [|n nodes IH]; intros tab; cbn; [done|].
  destruct (IH (stuffOne tab n)) as [-> ->]. unfold stuffOne. case_bool_decide; [done|].
  destruct (position _ _); [done|]. by destruct (Nat.ltb _ _).
Qed.

Lemma delete_rest tab n : self (delete tab n) = self tab ∧ contested (delete tab n) = contested tab.
Proof. unfold delete. by destruct (position _ _). Qed.

(** The adds that wait for a ping: the new node and the oldest one of the bucket. *)
Definition Adds := list (Node * Node).

Definition pinged (p : Adds) : list nat := (fun x => nRef (snd x)) <$> p.

(** The operations in any order; [bond] does not add the own identifier. *)
Inductive tableStep : Table * Adds → Table * Adds → Prop :=
  | ts_add tab p n : nodeOK n → nID n ≠ nID (self tab) → (addBegin tab n).2 = None →
      tableStep (tab, p) ((addBegin tab n).1, p)
  | ts_ping tab p n oldest : nodeOK n → nID n ≠ nID (self tab) → (addBegin tab n).2 = Some oldest →
      tableStep (tab, p) ((addBegin tab n).1, (n, oldest) :: p)
  | ts_pong tab p q n oldest ok : tableStep (tab, p ++ (n, oldest) :: q) (addEnd tab n oldest ok, p ++ q)
  | ts_stuff tab p nodes : Forall nodeOK nodes → tableStep (tab, p) (stuff tab nodes, p)
  | ts_delete tab p n : nodeOK n → tableStep (tab, p) (delete tab n, p).

Record stateOK (id : bytes) (s : Table * Adds) : Prop := {
  s_table : tableOK s.1;
  s_self : nID (self s.1) = id;
  s_contested : contested s.1 = list_to_set (pinged s.2);
  s_once : NoDup (pinged s.2);
  s_adds : Forall (fun x => nodeOK (fst x) ∧ nID (fst x) ≠ id) s.2
}.

Lemma addBegin_None tab n : (addBegin tab n).2 = None →
  self (addBegin tab n).1 = self tab ∧ contested (addBegin tab n).1 = contested tab.
Proof.
  unfold addBegin. destruct (bump _ _); [done|]. destruct (Nat.eqb _ _); [|intros _; apply tryReplace_rest].
  destruct (_ !! _); [|done]. by case_bool_decide.
Qed.

Lemma addBegin_Some tab n oldest : (addBegin tab n).2 = Some oldest →
  self (addBegin tab n).1 = self tab ∧ contested (addBegin tab n).1 = {[nRef oldest]} ∪ contested tab ∧
  nRef oldest ∉ contested tab.
Proof.
  unfold addBegin. destruct (bump _ _); [done|]. destruct (Nat.eqb _ _); [|done].
  destruct (_ !! _); [|done]. case_bool_decide; [done|]. by intros [= ->].
Qed.

Lemma addEnd_rest tab n oldest ok :
  self (addEnd tab n oldest ok) = self tab ∧ contested (addEnd tab n oldest ok) = contested tab ∖ {[nRef oldest]}.
Proof.
  unfold addEnd. destruct ok; [done|].
  by destruct (tryReplace_rest (setContested tab (contested tab ∖ {[nRef oldest]})) n (Some oldest)) as [-> ->].
Qed.

Lemma tableStep_OK id s s' : stateOK id s → tableStep s s' → stateOK id s'.
Proof.
  intros [Ht Hs Hc Ho Ha] Hstep. destruct Hstep as [tab p n Hn Hid HN|tab p n o Hn Hid HS|tab p q n o ok|tab p ns Hns|tab p n Hn];
    cbn in *.
  - destruct (addBegin_None _ _ HN) as [E1 E2]. split; cbn; rewrite ?E1, ?E2; try done. by apply addBegin_OK.
  - destruct (addBegin_Some _ _ _ HS) as (E1 & E2 & E3). split; cbn; rewrite ?E1, ?E2; try done.
    + by apply addBegin_OK.
    + by rewrite Hc.
    + constructor; [|done]. rewrite Hc in E3. set_solver.
    + constructor; [|done]. cbn. by rewrite <- Hs.
  - destruct (addEnd_rest tab n o ok) as [E1 E2]. apply Forall_app in Ha as [Ha1 Ha2].
    apply Forall_cons in Ha2 as [[Hn Hid] Ha2]. unfold pinged in *. rewrite fmap_app, fmap_cons in Ho, Hc.
    assert (Hp : ((fun x : Node * Node => nRef x.2) <$> p) ++ nRef o :: ((fun x => nRef x.2) <$> q)
       ≡ₚ nRef o :: ((fun x => nRef x.2) <$> p) ++ ((fun x => nRef x.2) <$> q)) by (symmetry; apply Permutation_middle).
    cbn [snd] in Ho, Hc. rewrite Hp in Ho. apply NoDup_cons in Ho as [Hnin Ho].
    split; cbn; rewrite ?E1, ?E2; unfold pinged; rewrite ?fmap_app; try done.
    + apply addEnd_OK; [done|done|by rewrite Hs].
    + rewrite Hc. rewrite !list_to_set_app_L in *. cbn. set_solver.
    + by apply Forall_app_2.
  - destruct (stuff_rest tab ns) as [E1 E2]. split; cbn; rewrite ?E1, ?E2; try done. by apply stuff_OK.
  - destruct (delete_rest tab n) as [E1 E2]. split; cbn; rewrite ?E1, ?E2; try done. by apply delete_OK.
Qed.

Lemma newTable_OK self : nodeOK self → stateOK (nID self) (newTable self, []).
Proof.
  intros Hs. split; cbn; try done; [|constructor].
  split; [done|by cbn [buckets newTable]; rewrite length_replicate|]. cbn [buckets newTable]. intros i b [-> _]%lookup_replicate. split; [cbn; lia|]. split; [apply NoDup_nil_2|constructor].
Qed.

Lemma reachable_OK me tab p : nodeOK me → rtc tableStep (newTable me, []) (tab, p) → stateOK (nID me) (tab, p).
Proof.
  intros Hme Hsteps. pose proof (newTable_OK me Hme) as H0. revert H0.
  induction Hsteps as [|s1 s2 s3 H12 _ IH]; [done|]. intros H1. by eapply IH, tableStep_OK.
Qed.

Lemma concat_NoDup tab : tableOK tab → NoDup (nID <$> concat (buckets tab)).
Proof.
  intros Ht. pose proof (t_buckets _ Ht) as Hb.
  assert (Hk : ∀ k bs, (∀ i b, bs !! i = Some b → bucketOK tab (k + i) b) →
    NoDup (nID <$> concat bs) ∧ Forall (fun n => (k ≤ bucketOf tab n)%nat ∧ nodeOK n) (concat bs)).
  { intros k bs. revert k. induction bs as [|b bs IH]; intros k Hi; cbn; [split; [apply NoDup_nil_2|constructor]|].
    destruct (Hi 0%nat b eq_refl) as (_ & Hd & Hf). rewrite Nat.add_0_r in Hf.
    destruct (IH (S k)) as [Hd' Hf'].
    { intros i b' Hb'. replace (S k + i)%nat with (k + S i)%nat by lia. by apply Hi. }
    split.
    - rewrite fmap_app. apply NoDup_app. split; [done|]. split; [|done].
      intros id (x & -> & Hx)%list_elem_of_fmap (y & Hid & Hy)%list_elem_of_fmap.
      rewrite Forall_forall in Hf, Hf'. apply Hf in Hx as (Hxo & Hxi & _). apply Hf' in Hy as [Hyi Hyo].
      unfold bucketOf in *. rewrite Hxo in Hxi. rewrite Hyo, <- Hid in Hyi. lia.
    - apply Forall_app_2; [|eapply Forall_impl; [done|]; intros ? [? ?]; split; [lia|done]].
      eapply Forall_impl; [exact Hf|]. intros x (Hx & Hxi & _). split; [lia|done]. }
  by apply (Hk 0%nat).
Qed.

(** C33. Through any interleaving of adds (pings in flight included), refreshes and
    deletions the table stays well formed: 257 buckets of at most 16 nodes; every node in
    the bucket of its distance, never the own one, and no identifier twice in the whole
    table; a node is flagged exactly while an add waits for its ping, and by one only. *)
Theorem table_wf me tab p : nodeOK me → rtc tableStep (newTable me, []) (tab, p) →
  length (buckets tab) = nBuckets ∧
  (∀ i b, buckets tab !! i = Some b → (length b ≤ bucketSize)%nat ∧
     ∀ n, n ∈ b → i = Z.to_nat (logdist (sm3 (nID me)) (sm3 (nID n))) ∧ nID n ≠ nID me) ∧
  NoDup (nID <$> concat (buckets tab)) ∧
  contested tab = list_to_set (pinged p) ∧ NoDup (pinged p).
Proof.
  intros Hme Hsteps.
  destruct (reachable_OK me tab p Hme Hsteps) as [Ht Hs Hc Ho _]. cbn in *. split; [apply Ht|]. split; [|split; [by apply concat_NoDup|done]].
  intros i b Hb. destruct (t_buckets _ Ht i b Hb) as (Hl & _ & Hf). split; [done|].
  intros n Hn. rewrite Forall_forall in Hf. destruct (Hf n Hn) as (Hno & <- & Hid). split; [|congruence].
  unfold bucketOf. by rewrite Hno, (t_self _ Ht), Hs.
Qed.

(** ** The nearest nodes *)

Lemma searchLoop_spec f n fuel i j : (i ≤ j ≤ n)%nat → (j - i < fuel)%nat →
  (∀ k l, (k ≤ l < n)%nat → f k = true → f l = true) →
  (∀ k, (k < i)%nat → f k = false) → (∀ k, (j ≤ k < n)%nat → f k = true) →
  let r := searchLoop f fuel i j in
  (r ≤ n)%nat ∧ (∀ k, (k < r)%nat → f k = false) ∧ (∀ k, (r ≤ k < n)%nat → f k = true).
Proof.
  intros Hij Hfuel Hm. revert i j Hij Hfuel. induction fuel as [|fuel IH]; intros i j Hij Hfuel Hlo Hhi; [lia|].
  cbn [searchLoop]. destruct (Nat.ltb_spec i j) as [Hlt|Hge].
  - pose proof (Nat.div_mod_eq (i + j) 2) as Hd. pose proof (Nat.mod_upper_bound (i + j) 2 ltac:(lia)) as Hmod.
    set (h := ((i + j) / 2)%nat) in *. cbv zeta. destruct (f h) eqn:Hf.
    + apply IH; [lia|lia|done|]. intros k Hk. apply (Hm h); [lia|done].
    + apply IH; [lia|lia| |done]. intros k Hk. destruct (f k) eqn:Hfk; [|done].
      rewrite (Hm k h) in Hf; [done|lia|done].
  - cbn. split; [lia|]. split; [done|]. intros k Hk. apply Hhi. lia.
Qed.

(** [sort.Search] finds the first index with the property. *)
Lemma Search_spec f n : (∀ k l, (k ≤ l < n)%nat → f k = true → f l = true) →
  (Search n f ≤ n)%nat ∧ (∀ k, (k < Search n f)%nat → f k = false) ∧ (∀ k, (Search n f ≤ k < n)%nat → f k = true).
Proof. intros Hm. apply searchLoop_spec; [lia|lia|done|lia|lia]. Qed.

(** The distance of a node to the target. *)
Definition dist (target : bytes) (n : Node) : Z := xorVal (nSha n) target.

Definition nearer (target : bytes) (x y : Node) : Prop := dist target x ≤ dist target y.

#[export] Instance nearer_trans target : Transitive (nearer target).
Proof. unfold nearer. intros x y z. lia. Qed.

Section Nearest.
  Context (target : bytes) (Htarget : isHash target).

Lemma distcmp_dist x y : nodeOK x → nodeOK y → (0 <? distcmp target (nSha x) (nSha y)) = (dist target y <? dist target x).
Proof.
  intros Hx Hy. destruct Htarget as [Ht1 Ht2]. destruct (sm3_isHash (nID x)) as [Hx1 Hx2].
  destruct (sm3_isHash (nID y)) as [Hy1 Hy2]. unfold dist. rewrite Hx, Hy in *. rewrite distcmp_xor by (done || congruence).
  destruct (Z.ltb_spec (xorVal (sm3 (nID y)) target) (xorVal (sm3 (nID x)) target)).
  - apply Z.ltb_lt, Z.sgn_pos_iff. lia.
  - apply Z.ltb_ge. apply Z.sgn_nonpos. lia.
Qed.

Lemma sorted_lookup R i j x y : StronglySorted (nearer target) R → (i ≤ j)%nat →
  R !! i = Some x → R !! j = Some y → nearer target x y.
Proof.
  intros HR. revert i j. induction HR as [|z R HR IH Hz]; intros i j Hij Hi Hj; [done|].
  destruct i as [|i], j as [|j]; cbn in *; [|..|by apply (IH i j); [lia|..]].
  - simplify_eq. unfold nearer. lia.
  - simplify_eq. rewrite Forall_forall in Hz. by apply Hz, (list_elem_of_lookup_2 _ j).
  - lia.
Qed.

(** Where a node goes in a list in order. *)
Lemma sorted_insert R ix n : StronglySorted (nearer target) R →
  (∀ x, x ∈ take ix R → nearer target x n) → (∀ y, y ∈ drop ix R → nearer target n y) →
  StronglySorted (nearer target) (take ix R ++ n :: drop ix R).
Proof.
  intros HR H1 H2. rewrite <- (take_drop ix R) in HR. apply StronglySorted_app in HR as (Hc & Hs1 & Hs2).
  apply StronglySorted_app. split; [|split; [done|]].
  - intros x y Hx [->|Hy]%elem_of_cons; [by apply H1|by apply Hc].
  - constructor; [done|]. by apply Forall_forall.
Qed.

Lemma push_take R n max : Forall nodeOK (n :: R) → StronglySorted (nearer target) R → (length R ≤ max)%nat →
  ∃ ix, push target R n max = take max (take ix R ++ n :: drop ix R) ∧
        StronglySorted (nearer target) (take ix R ++ n :: drop ix R).
Proof.
  intros [Hn Hf]%Forall_cons HR Hmax. rewrite Forall_forall in Hf.
  set (f := fun i => match R !! i with Some e => 0 <? distcmp target (nSha e) (nSha n) | None => false end).
  assert (Hfk : ∀ k x, R !! k = Some x → f k = (dist target n <? dist target x)).
  { intros k x Hk. unfold f. rewrite Hk. apply distcmp_dist; [|done]. apply Hf, (list_elem_of_lookup_2 _ _ _ Hk). }
  destruct (Search_spec f (length R)) as (Hle & Hlo & Hhi).
  { intros k l Hkl. destruct (lookup_lt_is_Some_2 R k) as [x Hx]; [lia|].
    destruct (lookup_lt_is_Some_2 R l) as [y Hy]; [lia|]. rewrite (Hfk _ _ Hx), (Hfk _ _ Hy), !Z.ltb_lt.
    pose proof (sorted_lookup R k l x y HR ltac:(lia) Hx Hy). unfold nearer in *. lia. }
  unfold push. fold f. set (ix := Search (length R) f) in *. exists ix. split.
  - destruct (Nat.ltb_spec (length R) max) as [Hlt|Hge].
    + rewrite (proj2 (Nat.eqb_neq _ _)) by lia. rewrite (take_ge (drop ix R)) by (rewrite length_drop; lia).
      rewrite (take_ge (_ ++ _)); [done|]. rewrite length_app, length_take. cbn [length]. rewrite length_drop. lia.
    + assert (max = length R) as -> by lia. destruct (Nat.eqb_spec ix (length R)) as [->|Hne].
      * by rewrite firstn_all, take_app_length.
      * rewrite take_app, length_take, Nat.min_l by lia. rewrite (take_ge (take ix R)) by (rewrite length_take; lia).
        replace (length R - ix)%nat with (S (length R - S ix)) by lia. done.
  - apply sorted_insert; [done|..].
    + intros x (k & Hk & Hlt)%elem_of_take. specialize (Hlo k Hlt). rewrite (Hfk _ _ Hk) in Hlo.
      apply Z.ltb_ge in Hlo. done.
    + intros y (k & Hk)%list_elem_of_lookup_1. rewrite lookup_drop in Hk. apply lookup_lt_Some in Hk as Hlt.
      specialize (Hhi (ix + k)%nat ltac:(lia)). rewrite (Hfk _ _ Hk) in Hhi. apply Z.ltb_lt in Hhi. unfold nearer. lia.
Qed.

(** The [max] nodes of [l] nearest to the target, in order. *)
Definition nearestOf (max : nat) (l R : list Node) : Prop :=
  StronglySorted (nearer target) R ∧ length R = Nat.min max (length l) ∧
  ∃ rest, R ++ rest ≡ₚ l ∧ ∀ x y, x ∈ R → y ∈ rest → nearer target x y.

Lemma push_nearest max l R n : Forall nodeOK (n :: l) → nearestOf max l R → nearestOf max (n :: l) (push target R n max).
Proof.
  intros Hok (HR & Hlen & rest & Hperm & Hfar).
  assert (HokR : Forall nodeOK (n :: R)).
  { apply Forall_cons in Hok as [Hn Hl]. constructor; [done|]. rewrite <- Hperm in Hl. by apply Forall_app in Hl as [? _]. }
  destruct (push_take R n max HokR HR ltac:(lia)) as (ix & -> & Hs). set (ins := take ix R ++ n :: drop ix R) in *.
  assert (Hins : ins ≡ₚ n :: R) by (unfold ins; rewrite <- Permutation_middle, take_drop; done).
  pose proof (Permutation_length Hperm) as Hl. rewrite length_app in Hl.
  pose proof (Permutation_length Hins) as Hl'. cbn [length] in Hl'.
  pose proof Hs as Hs'. rewrite <- (take_drop max ins) in Hs'. apply StronglySorted_app in Hs' as (Hc & Hs1 & _).
  split; [done|]. split; [rewrite length_take; cbn; lia|].
  exists (drop max ins ++ rest). split; [rewrite app_assoc, take_drop, Hins; cbn; by constructor|].
  intros x y Hx [Hy|Hy]%elem_of_app; [by apply Hc|].
  destruct (drop max ins) as [|z tl] eqn:Hd.
  { destruct rest; [by apply elem_of_nil in Hy|]. apply (f_equal length) in Hd. rewrite length_drop in Hd. cbn in *. lia. }
  assert (tl = []) as ->.
  { apply (f_equal length) in Hd. rewrite length_drop in Hd. cbn in *. destruct tl; [done|]. cbn in *. lia. }
  assert (Hp : take max ins ++ [z] ≡ₚ n :: R) by (by rewrite <- Hd, take_drop).
  assert (Hz : z ∈ n :: R) by (rewrite <- Hp; set_solver). apply elem_of_cons in Hz as [->|Hz].
  - apply Hfar; [|done]. rewrite <- Permutation_cons_append in Hp. apply Permutation_cons_inv in Hp. by rewrite <- Hp.
  - transitivity z; [apply Hc; [done|set_solver]|by apply Hfar].
Qed.

Definition pushAll (max : nat) (R : list Node) (l : list Node) : list Node :=
  foldl (fun close n => push target close n max) R l.

Lemma pushAll_nearest max l done_ R : Forall nodeOK (done_ ++ l) → nearestOf max done_ R →
  nearestOf max (done_ ++ l) (pushAll max R l).
Proof.
  revert done_ R. induction l as [|n l IH]; intros done_ R Hok HR; cbn.
  - by rewrite app_nil_r.
  - assert (Hp : n :: done_ ++ l ≡ₚ done_ ++ n :: l) by apply Permutation_middle.
    rewrite <- Hp in Hok. specialize (IH (n :: done_) (push target R n max) Hok).
    destruct IH as (H1 & H2 & rest & H3 & H4).
    { apply push_nearest; [|done]. change (n :: done_ ++ l) with ((n :: done_) ++ l) in Hok. by apply Forall_app in Hok as [? _]. }
    split; [done|]. split; [etransitivity; [exact H2|]; by rewrite <- Hp|]. exists rest. split; [|done]. etransitivity; [exact H3|done].
Qed.

Lemma nearestOf_nil max : nearestOf max [] [].
Proof. split; [constructor|]. split; [cbn; lia|]. exists []. split; [done|]. set_solver. Qed.

End Nearest.

Lemma closest_pushAll tab target max : closest tab target max = pushAll target max [] (concat (buckets tab)).
Proof.
  unfold closest, pushAll. generalize (buckets tab) as bs, ([] : list Node) as R.
  induction bs as [|b bs IH]; intros R; cbn; [done|]. by rewrite foldl_app, IH.
Qed.

Lemma concat_nodeOK tab : tableOK tab → Forall nodeOK (concat (buckets tab)).
Proof.
  intros Ht. apply Forall_concat. apply Forall_lookup_2. intros i b Hb.
  destruct (t_buckets _ Ht i b Hb) as (_ & _ & Hf). eapply Forall_impl; [exact Hf|]. by intros n [? _].
Qed.

Lemma closest_nearestOf tab target max : tableOK tab → isHash target →
  nearestOf target max (concat (buckets tab)) (closest tab target max).
Proof.
  intros Ht Hh. rewrite closest_pushAll. apply (pushAll_nearest target Hh max _ [] []); [by apply concat_nodeOK|].
  by apply nearestOf_nil.
Qed.

Lemma tabLen_concat tab : tabLen tab = length (concat (buckets tab)).
Proof.
  unfold tabLen. generalize (buckets tab) as bs. enough (Hn : ∀ bs n, foldl (fun n b => n + length b)%nat n bs =
    (n + length (concat (bs : list (list Node))))%nat) by (intros bs; apply (Hn bs 0%nat)).
  induction bs as [|b bs IH]; intros n; cbn; [lia|]. rewrite IH, length_app. lia.
Qed.

(** [closest] returns the nodes of the table nearest to the target, in order of
    distance: as many as asked for or all there are, none left out that is nearer, none
    twice. *)
Theorem closest_nearest me tab p target max : nodeOK me → rtc tableStep (newTable me, []) (tab, p) → isHash target →
  let R := closest tab target max in
  let d := fun n => Z.lxor (beVal (sm3 (nID n))) (beVal target) in
  StronglySorted (fun x y => d x ≤ d y) R ∧ length R = Nat.min max (tabLen tab) ∧ NoDup (nID <$> R) ∧
  ∃ rest, R ++ rest ≡ₚ concat (buckets tab) ∧ ∀ x y, x ∈ R → y ∈ rest → d x ≤ d y.
Proof.
  intros Hme Hr Hh R d. pose proof (s_table _ _ (reachable_OK _ _ _ Hme Hr)) as Ht. cbn in Ht.
  destruct (closest_nearestOf tab target max Ht Hh) as (Hs & Hl & rest & Hp & Hf). fold R in Hs, Hl, Hp, Hf.
  pose proof (concat_nodeOK tab Ht) as Hok. rewrite <- Hp in Hok. rewrite Forall_forall in Hok.
  assert (Hd : ∀ n, n ∈ R ++ rest → dist target n = d n).
  { intros n Hn. unfold dist, d. rewrite (Hok n Hn). destruct Hh, (sm3_isHash (nID n)). apply xorVal_lxor; [done..|congruence]. }
  split; [|split; [by rewrite tabLen_concat|split]].
  - assert (Hsub : ∀ n, n ∈ R → dist target n = d n) by (intros; apply Hd; set_solver). clearbody R d. clear -Hs Hsub.
    induction Hs as [|x R Hs IH Hx]; constructor; [apply IH; set_solver|]. rewrite Forall_forall in *. intros y Hy.
    rewrite <- !Hsub by set_solver. by apply Hx.
  - pose proof (concat_NoDup tab Ht) as Hn. rewrite <- Hp, fmap_app in Hn. by apply NoDup_app in Hn as [? _].
  - exists rest. split; [done|]. intros x y Hx Hy. rewrite <- !Hd by set_solver. by apply Hf.
Qed.


(** *** A small table *)

Definition exID (k : Z) : bytes := replicate 63 0 ++ [k].

Definition exNode (k : nat) : Node := NewNode k (exID (Z.of_nat k)) (Some [127; 0; 0; 1]) 30303 30303.

(** The nodes that share the bucket of [exNode 1]. *)
Definition exTable (ks : list nat) : Table := stuff (newTable (exNode 0)) (exNode <$> ks).

Lemma exTable_reachable ks : rtc tableStep (newTable (exNode 0), []) (exTable ks, []).
Proof. eapply rtc_once, ts_stuff. apply Forall_fmap, Forall_true. done. Qed.

Lemma table_wf_witness : let tab := exTable [1; 2; 3]%nat in
  length (buckets tab) = nBuckets ∧
  (∀ i b, buckets tab !! i = Some b → (length b ≤ bucketSize)%nat ∧
     ∀ n, n ∈ b → i = Z.to_nat (logdist (sm3 (nID (exNode 0))) (sm3 (nID n))) ∧ nID n ≠ nID (exNode 0)) ∧
  NoDup (nID <$> concat (buckets tab)) ∧
  contested tab = list_to_set (pinged []) ∧ NoDup (pinged []).
Proof. apply (table_wf (exNode 0)); [done|]. apply exTable_reachable. Defined.

Lemma closest_nearest_witness :
  let tab := exTable [1; 2; 3]%nat in
  let target := sm3 (exID 7) in
  let R := closest tab target 2 in
  let d := fun n => Z.lxor (beVal (sm3 (nID n))) (beVal target) in
  StronglySorted (fun x y => d x ≤ d y) R ∧ length R = Nat.min 2 (tabLen tab) ∧ NoDup (nID <$> R) ∧
  ∃ rest, R ++ rest ≡ₚ concat (buckets tab) ∧ ∀ x y, x ∈ R → y ∈ rest → d x ≤ d y.
Proof. apply (closest_nearest (exNode 0) _ []); [done|apply exTable_reachable|apply sm3_isHash]. Defined.

(** ** Random nodes *)

Lemma shuffle_Permutation {A} (rand : nat → nat) i (l : list A) : (∀ k, (0 < k)%nat → (rand k < k)%nat) → shuffle l i rand ≡ₚ l.
Proof.
  intros Hr. revert l. induction i as [|i IH]; intros l; cbn [shuffle]; [done|].
  destruct (l !! S i) as [x|] eqn:Hx; [|done]. destruct (l !! rand (S i)) as [y|] eqn:Hy; [|done].
  rewrite IH. apply swap_Permutation; [apply Hr; lia|done|done].
Qed.

Definition nonEmpty (bs : list (list Node)) : Prop := Forall (fun b => b ≠ []) bs.

Lemma nonEmpty_total bs : nonEmpty bs → (0 < length bs)%nat → (0 < length (concat bs))%nat.
Proof. destruct bs as [|[|x b] bs]; cbn; [lia|by intros [? _]%Forall_cons|lia]. Qed.

(** One round of the loop takes one node out. *)
Lemma readStep bs j x b : nonEmpty bs → bs !! j = Some (x :: b) →
  let bs' := match b with [] => take j bs ++ drop (S j) bs | _ => <[j := b]> bs end in
  nonEmpty bs' ∧ concat bs ≡ₚ x :: concat bs'.
Proof.
  intros Hne Hj. pose proof (take_drop_middle bs j _ Hj) as Hs.
  assert (Hins : <[j := b]> bs = take j bs ++ b :: drop (S j) bs).
  { pose proof (lookup_lt_Some _ _ _ Hj). rewrite <- Hs at 1.
    apply insert_middle. rewrite length_take. lia. }
  rewrite <- Hs in Hne. apply Forall_app in Hne as [H1 H2]. apply Forall_cons in H2 as [_ H2].
  assert (Hc : concat bs ≡ₚ x :: concat (take j bs ++ b :: drop (S j) bs)).
  { rewrite <- Hs at 1. rewrite !concat_app. cbn [concat]. rewrite <- !app_comm_cons. by rewrite <- Permutation_middle. }
  destruct b as [|z b]; cbv zeta.
  - split; [by apply Forall_app_2|]. rewrite Hc, !concat_app. done.
  - rewrite Hins. split; [|done]. apply Forall_app_2; [done|]. by constructor.
Qed.

Lemma readLoop_spec n bs j written : nonEmpty bs → (j < length bs)%nat →
  let total := length (concat bs) in
  ∃ more rest, readLoop n bs j written =
      (written ++ more, length written + if Nat.ltb n total then n else total - 1)%nat ∧
    more ++ rest ≡ₚ concat bs ∧ length more = Nat.min n total.
Proof.
  revert bs j written. induction n as [|n IH]; intros bs j written Hne Hj total.
  { assert (0 < total)%nat by (apply nonEmpty_total; [done|lia]).
    exists [], (concat bs). cbn [readLoop]. rewrite app_nil_r. split; [|done].
    rewrite (proj2 (Nat.ltb_lt _ _)) by lia. f_equal. lia. }
  destruct (lookup_lt_is_Some_2 bs j Hj) as [[|x b] Hx].
  { by apply (Forall_lookup_1 _ _ _ _ Hne) in Hx. }
  destruct (readStep bs j x b Hne Hx) as [Hne' Hc]. cbn [readLoop]. rewrite Hx. cbv zeta in Hne', Hc |- *.
  set (bs' := match b with [] => take j bs ++ drop (S j) bs | _ => <[j := b]> bs end) in *.
  assert (Ht : total = S (length (concat bs'))) by (unfold total; by rewrite Hc).
  clearbody bs'. destruct bs' as [|b0 bs'].
  - exists [x], []. cbn in Ht. rewrite Ht. split; [f_equal; destruct (Nat.ltb_spec (S n) 1); lia|].
    split; [by rewrite Hc|cbn; lia].
  - destruct (IH (b0 :: bs') ((j + 1) mod length (b0 :: bs'))%nat (written ++ [x])) as (more & rest & E & Hp & Hl);
      [done|apply Nat.mod_upper_bound; done|].
    set (bs2 := b0 :: bs') in *. pose proof (nonEmpty_total bs2 Hne' ltac:(cbn; lia)). exists (x :: more), rest. rewrite E. rewrite length_app. cbn [length]. split; [|split].
    + rewrite <- app_assoc. f_equal. rewrite Ht.
      destruct (Nat.ltb_spec n (length (concat bs2))), (Nat.ltb_spec (S n) (S (length (concat bs2)))); lia.
    + cbn [app]. by rewrite Hp, Hc.
    + lia.
Qed.

Lemma concat_filter (bs : list (list Node)) : concat (List.filter (fun b => negb (Nat.eqb (length b) 0)) bs) = concat bs.
Proof. induction bs as [|[|x b] bs IH]; cbn; [done|done|by rewrite IH]. Qed.

Lemma filter_nonEmpty bs : nonEmpty (List.filter (fun b => negb (Nat.eqb (length b) 0)) bs).
Proof. apply Forall_forall. intros b [_ Hb]%list_elem_of_In%filter_In ->. done. Qed.

Lemma ReadRandomNodes_counts tab bufLen rand : (∀ k, (0 < k)%nat → (rand k < k)%nat) →
  let '(written, n) := ReadRandomNodes tab bufLen rand in
  (∃ rest, written ++ rest ≡ₚ concat (buckets tab)) ∧ length written = Nat.min bufLen (tabLen tab) ∧
  n = if Nat.ltb bufLen (tabLen tab) then S bufLen else tabLen tab.
Proof.
  intros Hr. rewrite tabLen_concat. unfold ReadRandomNodes.
  pose proof (filter_nonEmpty (buckets tab)) as Hne. pose proof (concat_filter (buckets tab)) as Hc.
  set (bs := List.filter _ _) in *. rewrite <- Hc. clear Hc. clearbody bs. destruct bs as [|b0 bs'] eqn:Hbs.
  { cbn. split; [by exists []|]. split; [lia|]. by destruct bufLen. }
  rewrite <- Hbs in *. assert (Hlen : (0 < length bs)%nat) by (rewrite Hbs; cbn; lia). clear Hbs b0 bs'.
  pose proof (shuffle_Permutation rand (length bs - 1) bs Hr) as Hp. set (sh := shuffle _ _ _) in *. clearbody sh.
  assert (Hne' : nonEmpty sh) by (unfold nonEmpty; by rewrite Hp).
  destruct (readLoop_spec bufLen sh 0 [] Hne') as (more & rest & E & Hm & Hl); [by rewrite Hp|].
  assert (Hcc : concat sh ≡ₚ concat bs) by (by rewrite Hp). rewrite E. rewrite Hcc in Hl |- *. rewrite Hcc in Hm.
  cbn [app length]. split; [by exists rest|]. split; [done|].
  pose proof (nonEmpty_total bs Hne Hlen).
  pose proof (Permutation_length Hcc). destruct (Nat.ltb_spec bufLen (length (concat bs))); lia.
Qed.

(** [ReadRandomNodes] hands out nodes of the table, none more often than the table
    has it, and as many as fit the buffer; the count it returns is right unless nodes are
    left over: then it is one more than the buffer holds. *)
Theorem ReadRandomNodes_spec tab bufLen rand : (∀ k, (0 < k)%nat → (rand k < k)%nat) →
  let '(written, n) := ReadRandomNodes tab bufLen rand in
  (∃ rest, written ++ rest ≡ₚ concat (buckets tab)) ∧ length written = Nat.min bufLen (tabLen tab) ∧
  n = if Nat.ltb bufLen (tabLen tab) then S bufLen else tabLen tab.
Proof. apply ReadRandomNodes_counts. Qed.

(** A buffer of one node, a table of three: two nodes are reported. *)
Lemma ReadRandomNodes_spec_witness :
  let '(written, n) := ReadRandomNodes (exTable [1; 2; 3]%nat) 1 (fun _ => 0%nat) in
  (∃ rest, written ++ rest ≡ₚ concat (buckets (exTable [1; 2; 3]%nat))) ∧
  length written = Nat.min 1 (tabLen (exTable [1; 2; 3]%nat)) ∧
  n = if Nat.ltb 1 (tabLen (exTable [1; 2; 3]%nat)) then 2%nat else tabLen (exTable [1; 2; 3]%nat).
Proof. apply (ReadRandomNodes_spec (exTable [1; 2; 3]%nat) 1 (fun _ => 0%nat)). intros k Hk. exact Hk. Defined.
