(* ===== verification/Lookup.v ===== *)
(** * Lookups and bonds

    [src/p2p/discover/table.go]: the iterative search for the nodes nearest to a target
    ([lookup], [Resolve]) and the bonding of nodes ([bond], [bondall], [pingpong]).  The
    queries of a lookup run in goroutines of their own and their replies come in any
    order: a lookup is a step relation, one step for each reply, with the replies (what
    [bondall] returns for the neighbours a node sends) unconstrained.  A bonding process
    is a step relation too: calls of [bond] wait for the process of their identifier, and
    a process takes one of 16 slots.

    Properties: a lookup has at most three queries in flight, asks no node twice and
    never the own one, keeps the nearest nodes it has heard of, and stops only when it
    has asked all of them ([lookup_spec]); it stops after at most as many replies as
    there are identifiers ([lookup_terminates]); identifiers the table gave and a peer
    repeats are kept twice ([lookup_duplicates]); there is one bonding process for an
    identifier and at most 16 are active ([bond_limits]). *)

From stdpp Require Import base gmap sets list strings sorting.
From Stdlib Require Import ZArith Lia.
From S2P Require Import Prelude Common Words RlpEncode RlpRaw Sm3 Discover Table.
Local Open Scope Z_scope.

Record Lookup := {
  lkAsked : gset bytes;
  lkSeen : gset bytes;
  lkPending : list Node;
  lkResult : list Node
}.

(** The result set at the start; [refreshed] is the table after the refresh. *)
Definition initialResult (tab refreshed : Table) (target : bytes) (refreshIfEmpty : bool) : list Node :=
  let result := closest tab target bucketSize in
  if negb (Nat.eqb (length result) 0) || negb refreshIfEmpty then result
  else closest refreshed target bucketSize.

(** The inner loop: ask the nearest nodes not asked yet. *)
Fixpoint askLoop (entries : list Node) (asked : gset bytes) (pending : list Node) : gset bytes * list Node :=
  match entries with
  | [] => (asked, pending)
  | n :: entries =>
      if Nat.ltb (length pending) alpha then
        if bool_decide (nID n ∈ asked) then askLoop entries asked pending
        else askLoop entries ({[nID n]} ∪ asked) (pending ++ [n])
      else (asked, pending)
  end.

Definition ask (st : Lookup) : Lookup :=
  let '(asked, pending) := askLoop (lkResult st) (lkAsked st) (lkPending st) in
  {| lkAsked := asked; lkSeen := lkSeen st; lkPending := pending; lkResult := lkResult st |}.

Definition lookupStart (me : Node) (result : list Node) : Lookup :=
  ask {| lkAsked := {[nID me]}; lkSeen := ∅; lkPending := []; lkResult := result |}.

(** The nodes of a reply, nil ones left out. *)
Fixpoint receive (target : bytes) (reply : list (option Node)) (seen : gset bytes) (result : list Node) : gset bytes * list Node :=
  match reply with
  | [] => (seen, result)
  | None :: reply => receive target reply seen result
  | Some n :: reply =>
      if bool_decide (nID n ∈ seen) then receive target reply seen result
      else receive target reply ({[nID n]} ∪ seen) (push target result n bucketSize)
  end.

(** A reply to one query; [pending] are the others. *)
Definition lookupReply (target : bytes) (st : Lookup) (pending : list Node) (reply : list (option Node)) : Lookup :=
  let '(seen, result) := receive target reply (lkSeen st) (lkResult st) in
  ask {| lkAsked := lkAsked st; lkSeen := seen; lkPending := pending; lkResult := result |}.

(** The search for one identifier: in the table, or among the nodes of a lookup. *)
Definition Resolve (tab : Table) (targetID : bytes) (looked : list Node) : option Node :=
  match closest tab (sm3 targetID) 1 with
  | n :: _ =>
      if bool_decide (nID n = targetID) then Some n
      else List.find (fun n => bool_decide (nID n = targetID)) looked
  | [] => List.find (fun n => bool_decide (nID n = targetID)) looked
  end.

Definition maxFindnodeFailures : nat := 5.

(** A query that failed: the counter of the database, and the table. *)
Definition findnodeFailed (fails : gmap bytes nat) (tab : Table) (n : Node) : gmap bytes nat * Table :=
  let f := S (default 0%nat (fails !! nID n)) in
  (<[nID n := f]> fails, if Nat.leb maxFindnodeFailures f then Table.delete tab n else tab).

(** ** Runs of a lookup *)

(** What a reply adds: the nodes not seen before. *)
Fixpoint fresh (reply : list (option Node)) (seen : gset bytes) : list Node :=
  match reply with
  | [] => []
  | None :: reply => fresh reply seen
  | Some n :: reply => if bool_decide (nID n ∈ seen) then fresh reply seen else n :: fresh reply ({[nID n]} ∪ seen)
  end.

Lemma receive_fresh target reply seen result :
  (receive target reply seen result).2 = pushAll target bucketSize result (fresh reply seen).
Proof.
  revert seen result. induction reply as [|[n|] reply IH]; intros seen result; cbn; [done| |apply IH].
  case_bool_decide; [apply IH|]. cbn. apply IH.
Qed.

Lemma fresh_OK reply seen : Forall (from_option nodeOK True) reply → Forall nodeOK (fresh reply seen).
Proof.
  intros Hf. revert seen. induction Hf as [|[n|] reply Hn Hf IH]; intros seen; cbn; [constructor| |apply IH].
  case_bool_decide; [apply IH|]. constructor; [done|apply IH].
Qed.

(** The loop asks each node at most once, at most three at a time, and all unless three
    queries are in flight. *)
Lemma askLoop_spec entries asked pending : (length pending ≤ alpha)%nat →
  ∃ new, (askLoop entries asked pending).2 = pending ++ new ∧
    (askLoop entries asked pending).1 = list_to_set (nID <$> new) ∪ asked ∧
    NoDup (nID <$> new) ∧ (∀ n, n ∈ new → nID n ∉ asked ∧ n ∈ entries) ∧ (length (pending ++ new) ≤ alpha)%nat ∧
    ((length (pending ++ new) < alpha)%nat → ∀ n, n ∈ entries → nID n ∈ (askLoop entries asked pending).1).
Proof.
  revert asked pending. induction entries as [|n entries IH]; intros asked pending Hl; cbn [askLoop].
  { exists []. rewrite app_nil_r. cbn. split; [done|]. split; [set_solver|]. split; [apply NoDup_nil_2|]. set_solver. }
  destruct (Nat.ltb_spec (length pending) alpha) as [Hlt|Hge].
  2:{ exists []. rewrite app_nil_r. cbn. split; [done|]. split; [set_solver|]. split; [apply NoDup_nil_2|].
      split; [set_solver|]. split; [done|lia]. }
  case_bool_decide as Hin.
  - destruct (IH asked pending Hl) as (new & E1 & E2 & Hd & Hn & Hlen & Hall). exists new.
    split; [done|]. split; [done|]. split; [done|]. split; [intros m Hm; specialize (Hn m Hm); set_solver|]. split; [done|].
    intros Hlt' m [->|Hm]%elem_of_cons; [rewrite E2; set_solver|by apply Hall].
  - destruct (IH ({[nID n]} ∪ asked) (pending ++ [n])) as (new & E1 & E2 & Hd & Hn & Hlen & Hall).
    { rewrite length_app. cbn. lia. }
    exists (n :: new). rewrite <- app_assoc in E1, Hlen, Hall. cbn [app] in E1, Hlen, Hall.
    split; [done|]. split; [rewrite E2; set_solver|]. split.
    { rewrite fmap_cons. constructor; [|done]. intros (m & Hm & Hmin)%list_elem_of_fmap. destruct (Hn m Hmin). set_solver. }
    split; [|split; [done|]].
    + intros m [->|Hm]%elem_of_cons; [set_solver|]. destruct (Hn m Hm). set_solver.
    + intros Hlt' m [->|Hm]%elem_of_cons; [rewrite E2; set_solver|by apply Hall].
Qed.

(** The states of a lookup that starts with [init], with the queries answered and the
    nodes heard of so far. *)
Inductive lookupRun (target : bytes) (me : Node) (init : list Node) : Lookup → list Node → list Node → Prop :=
  | run_start : lookupRun target me init (lookupStart me init) [] init
  | run_reply st answered heard p n q reply : lookupRun target me init st answered heard →
      lkPending st = p ++ n :: q → Forall (from_option nodeOK True) reply →
      lookupRun target me init (lookupReply target st (p ++ q) reply) (n :: answered) (heard ++ fresh reply (lkSeen st)).

Record lookupOK (target : bytes) (me : Node) (st : Lookup) (answered heard : list Node) : Prop := {
  lk_pending : (length (lkPending st) ≤ alpha)%nat;
  lk_asked : lkAsked st = {[nID me]} ∪ list_to_set (nID <$> answered ++ lkPending st);
  lk_once : NoDup (nID <$> answered ++ lkPending st);
  lk_self : nID me ∉ nID <$> answered ++ lkPending st;
  lk_nodes : Forall nodeOK heard;
  lk_nearest : nearestOf target bucketSize heard (lkResult st);
  lk_heard : ∀ n, n ∈ answered ++ lkPending st → n ∈ heard;
  lk_all : (length (lkPending st) < alpha)%nat → ∀ n, n ∈ lkResult st → nID n ∈ lkAsked st
}.

Lemma nearestOf_elem target max l R x : nearestOf target max l R → x ∈ R → x ∈ l.
Proof. intros (_ & _ & rest & <- & _) Hx. set_solver. Qed.

(** Asking keeps the invariant, once the other parts hold. *)
Lemma ask_OK target me st answered heard :
  (length (lkPending st) ≤ alpha)%nat →
  lkAsked st = {[nID me]} ∪ list_to_set (nID <$> answered ++ lkPending st) →
  NoDup (nID <$> answered ++ lkPending st) → nID me ∉ nID <$> answered ++ lkPending st →
  Forall nodeOK heard → nearestOf target bucketSize heard (lkResult st) →
  (∀ n, n ∈ answered ++ lkPending st → n ∈ heard) →
  lookupOK target me (ask st) answered heard.
Proof.
  intros Hl Ha Hd Hs Hf Hn Hh. destruct (askLoop_spec (lkResult st) (lkAsked st) (lkPending st) Hl)
    as (new & E1 & E2 & Hnd & Hnew & Hlen & Hall).
  unfold ask. destruct (askLoop _ _ _) as [asked pending]. cbn in E1, E2, Hall. subst pending.
  assert (Hout : ∀ id, id ∈ nID <$> new → id ∉ nID <$> answered ++ lkPending st ∧ id ≠ nID me).
  { intros id (n & -> & Hin)%list_elem_of_fmap. destruct (Hnew n Hin) as [Hni _]. rewrite Ha in Hni.
    rewrite not_elem_of_union, elem_of_list_to_set in Hni. set_solver. }
  split; cbn; try done; rewrite ?(app_assoc answered), ?(fmap_app _ (answered ++ _)).
  - rewrite E2, Ha, list_to_set_app_L. set_solver.
  - apply NoDup_app. split; [done|]. split; [|done]. intros id H1 H2. by apply Hout in H2 as [? _].
  - intros [?|H2]%elem_of_app; [done|]. by apply Hout in H2 as [_ ?].
  - intros n [?|Hin]%elem_of_app; [by apply Hh|]. eapply nearestOf_elem; [done|]. by apply Hnew.
Qed.

Lemma lookupRun_OK target me init st answered heard : isHash target → Forall nodeOK init →
  nearestOf target bucketSize init init → lookupRun target me init st answered heard →
  lookupOK target me st answered heard.
Proof.
  intros Ht Hi Hni. induction 1 as [|st answered heard p n q reply _ IH Hp Hr].
  - apply ask_OK; cbn; try done; first [unfold alpha; lia|apply NoDup_nil_2|set_solver].
  - destruct IH as [I1 I2 I3 I4 I5 I6 I7 I8]. rewrite Hp in *.
    assert (Hperm : answered ++ p ++ n :: q ≡ₚ (n :: answered) ++ p ++ q).
    { rewrite !app_assoc, <- Permutation_middle. done. }
    pose proof (receive_fresh target reply (lkSeen st) (lkResult st)) as Hrec. pose proof (fresh_OK reply (lkSeen st) Hr) as Hfr.
    assert (Hok : Forall nodeOK (heard ++ fresh reply (lkSeen st))) by by apply Forall_app_2.
    unfold lookupReply. destruct (receive _ _ _ _) as [seen result]. cbn in Hrec. subst result.
    apply ask_OK; cbn [lkPending lkAsked lkResult].
    + rewrite !length_app in *. cbn in I1. lia.
    + rewrite I2. f_equal. apply leibniz_equiv. by rewrite Hperm.
    + by rewrite <- Hperm.
    + by rewrite <- Hperm.
    + done.
    + by apply pushAll_nearest.
    + intros m Hm. rewrite <- Hperm in Hm. apply elem_of_app. left. by apply I7.
Qed.

Lemma nearestOf_self target max l R : nearestOf target max l R → nearestOf target max R R.
Proof.
  intros (Hs & Hl & _). split; [done|]. split; [lia|]. exists []. rewrite app_nil_r. split; [done|]. set_solver.
Qed.

Lemma closest_OK tab target : tableOK tab → isHash target → let R := closest tab target bucketSize in
  nearestOf target bucketSize R R ∧ Forall nodeOK R.
Proof.
  intros Ht Hh R. pose proof (closest_nearestOf tab target bucketSize Ht Hh) as Hn. split; [by eapply nearestOf_self|].
  destruct Hn as (_ & _ & rest & Hp & _). pose proof (concat_nodeOK tab Ht) as Hf. rewrite <- Hp in Hf.
  by apply Forall_app in Hf as [? _].
Qed.

Lemma initialResult_OK tab refreshed target b : tableOK tab → tableOK refreshed → isHash target →
  let init := initialResult tab refreshed target b in nearestOf target bucketSize init init ∧ Forall nodeOK init.
Proof.
  intros H1 H2 Ht. cbv zeta. unfold initialResult. destruct (_ || _); by apply closest_OK.
Qed.

(** What holds in every state of a lookup on a table of the program. *)
Lemma lookup_OK me tab p refreshed p' target b st answered heard : nodeOK me →
  rtc tableStep (newTable me, []) (tab, p) → rtc tableStep (tab, p) (refreshed, p') → isHash target →
  lookupRun target me (initialResult tab refreshed target b) st answered heard →
  lookupOK target me st answered heard.
Proof.
  intros Hme H1 H2 Ht Hrun. assert (H3 : rtc tableStep (newTable me, []) (refreshed, p')) by by etransitivity.
  pose proof (s_table _ _ (reachable_OK _ _ _ Hme H1)) as T1. pose proof (s_table _ _ (reachable_OK _ _ _ Hme H3)) as T2.
  destruct (initialResult_OK tab refreshed target b T1 T2 Ht) as [Hn Hf]. by eapply lookupRun_OK.
Qed.


(** A lookup ends: with identifiers from a finite set, it gets at most as many replies
    as the set has members, whatever the replies are. *)
Theorem lookup_terminates (me : Node) (tab : Table) (p : Adds) (refreshed : Table) (p' : Adds) (target : bytes) (b : bool)
    (st : Lookup) (answered heard : list Node) (U : gset bytes) : nodeOK me →
  rtc tableStep (newTable me, []) (tab, p) → rtc tableStep (tab, p) (refreshed, p') → isHash target →
  lookupRun target me (initialResult tab refreshed target b) st answered heard →
  (∀ n, n ∈ heard → nID n ∈ U) → (length answered + length (lkPending st) ≤ size U)%nat.
Proof.
  intros Hme H1 H2 Ht Hrun HU.
  destruct (lookup_OK _ _ _ _ _ _ _ _ _ _ Hme H1 H2 Ht Hrun) as [_ _ I3 _ _ _ I7 _].
  rewrite <- length_app, <- (length_fmap nID), <- (size_list_to_set (C := gset bytes)) by done.
  apply subseteq_size. intros id (n & -> & Hin)%elem_of_list_to_set%list_elem_of_fmap. by apply HU, I7.
Qed.

(** *** A lookup on a small table *)

Definition exTarget : bytes := sm3 (exID 7).

Local Notation exInit := (initialResult (exTable [1; 2]%nat) (exTable [1; 2]%nat) exTarget true).

(** A peer answers with a node of the table and a new one. *)
Definition exReply : list (option Node) := [Some (exNode 1); None; Some (exNode 3)].

Definition exStart : Lookup := lookupStart (exNode 0) exInit.

Definition exAsked : Node := nth 0 (lkPending exStart) (exNode 0).

Definition exHeard : list Node := exInit ++ fresh exReply (lkSeen exStart).

Definition exState : Lookup := lookupReply exTarget exStart ([] ++ drop 1 (lkPending exStart)) exReply.

Lemma exState_run : lookupRun exTarget (exNode 0) exInit exState [exAsked] exHeard.
Proof.
  unfold exState, exHeard. refine (run_reply exTarget (exNode 0) exInit exStart [] exInit [] exAsked (drop 1 (lkPending exStart)) exReply _ _ _).
  - unfold exStart. constructor.
  - vm_compute. reflexivity.
  - repeat constructor; done.
Qed.


Lemma lookup_terminates_witness :
  (length [exAsked] + length (lkPending exState) ≤ size (list_to_set (nID <$> exHeard) : gset bytes))%nat.
Proof.
  refine (lookup_terminates (exNode 0) (exTable [1; 2]%nat) [] (exTable [1; 2]%nat) [] exTarget true exState [exAsked] exHeard _ _ _ _ _ exState_run _).
  - reflexivity.
  - apply exTable_reachable.
  - apply rtc_refl.
  - apply sm3_isHash.
  - intros n Hn. apply elem_of_list_to_set. by apply list_elem_of_fmap_2.
Defined.

(** The node of the table that the peer repeats is in the result twice: only the nodes of
    replies are marked as seen. *)
Lemma lookup_duplicates : length (List.filter (fun n => bool_decide (nID n = exID 1)) (lkResult exState)) = 2%nat.
Proof. vm_compute. reflexivity. Qed.

(** ** One identifier *)

Lemma Resolve_id tab id looked n : Resolve tab id looked = Some n → nID n = id.
Proof.
  unfold Resolve. assert (Hf : List.find (fun n => bool_decide (nID n = id)) looked = Some n → nID n = id)
    by (intros [_ ?%bool_decide_eq_true_1]%find_some; done).
  destruct (closest _ _ _) as [|m l]; [done|]. case_bool_decide; [by intros [= <-]|done].
Qed.

(** A node of the table is found without a lookup, if no other node has its hash. *)
Lemma Resolve_local tab n looked : tableOK tab → n ∈ concat (buckets tab) →
  (∀ m, m ∈ concat (buckets tab) → sm3 (nID m) = sm3 (nID n) → m = n) → Resolve tab (nID n) looked = Some n.
Proof.
  intros Ht Hn Hcol. pose proof (concat_nodeOK tab Ht) as Hok. rewrite Forall_forall in Hok.
  destruct (closest_nearestOf tab (sm3 (nID n)) 1 Ht (sm3_isHash _)) as (_ & Hl & rest & Hp & Hfar).
  assert (Hin : ∀ m, m ∈ closest tab (sm3 (nID n)) 1 → m ∈ concat (buckets tab)) by (intros m Hm; rewrite <- Hp; set_solver).
  assert (Hpos : (0 < length (concat (buckets tab)))%nat) by (destruct (concat (buckets tab)); [by apply elem_of_nil in Hn|cbn; lia]).
  unfold Resolve. destruct (closest tab (sm3 (nID n)) 1) as [|m l] eqn:Hc; [cbn [length] in Hl; lia|].
  enough (m = n) as -> by by rewrite bool_decide_true. apply Hcol; [apply Hin; set_solver|].
  rewrite <- Hp in Hn. apply elem_of_app in Hn as [Hn|Hn].
  { destruct l; [|cbn [length] in Hl; lia]. by apply list_elem_of_singleton in Hn as <-. }
  assert (Hm : m ∈ concat (buckets tab)) by (apply Hin; set_solver).
  assert (Hd : nearer (sm3 (nID n)) m n) by (apply Hfar; set_solver). unfold nearer, dist in Hd.
  rewrite (Hok m Hm), (Hok n) in Hd by (rewrite <- Hp; set_solver).
  destruct (sm3_isHash (nID m)) as [Lm Bm], (sm3_isHash (nID n)) as [Ln Bn].
  rewrite !xorVal_lxor, Z.lxor_nilpotent in Hd by (done || congruence).
  pose proof (beVal_range _ Bm). pose proof (beVal_range _ Bn).
  apply beVal_inj_length; [done|done|congruence|]. apply Z.lxor_eq.
  assert (0 ≤ Z.lxor (beVal (sm3 (nID m))) (beVal (sm3 (nID n)))) by (apply Z.lxor_nonneg; lia). lia.
Qed.

(** ** Bonds *)

Definition maxBondingPingPongs : nat := 16.

(** A bonding process: registered, in its ping/pong with a slot, with its result set and
    the slot still held, or to be unregistered. *)
Inductive Phase := Registered | PingPong | Closed | Released.

Record Bonds := {
  bonding : gmap bytes Phase;
  bondslots : nat
}.

Definition noBonds : Bonds := {| bonding := ∅; bondslots := maxBondingPingPongs |}.

(** Whether [bond] bonds from scratch: the node is unknown, has failed or is too old. *)
Definition bondNeeded (known : option Node) (fails : Z) (expired : bool) : bool :=
  match known with None => true | Some _ => (0 <? fails) || expired end.

(** What [bond] returns, from the node of the database and the result of the process it
    ran or waited for; [Err] with the node known before when that failed. *)
Definition bondResult (known : option Node) (needed : bool) (w : result Node) : option Node * option string :=
  if needed then
    match w with
    | Ok n => (Some n, None)
    | Err e => (known, Some e)
    end
  else (known, None).

(** The steps of [bond] and [pingpong] on the table of processes.  A call that finds a
    process waits for it: it changes nothing. *)
Inductive bondStep : Bonds → Bonds → Prop :=
  | bs_register b id : bonding b !! id = None →
      bondStep b {| bonding := <[id := Registered]> (bonding b); bondslots := bondslots b |}
  | bs_slot b id k : bonding b !! id = Some Registered → bondslots b = S k →
      bondStep b {| bonding := <[id := PingPong]> (bonding b); bondslots := k |}
  | bs_close b id : bonding b !! id = Some PingPong →
      bondStep b {| bonding := <[id := Closed]> (bonding b); bondslots := bondslots b |}
  | bs_release b id : bonding b !! id = Some Closed →
      bondStep b {| bonding := <[id := Released]> (bonding b); bondslots := S (bondslots b) |}
  | bs_unregister b id : bonding b !! id = Some Released →
      bondStep b {| bonding := base.delete id (bonding b); bondslots := bondslots b |}.

Definition holdsSlot (p : Phase) : bool := match p with PingPong | Closed => true | _ => false end.

Definition holders (m : gmap bytes Phase) : nat := size (filter (fun p => holdsSlot p.2 = true) m).

Lemma holders_delete m id p : m !! id = Some p →
  holders m = (holders (base.delete id m) + if holdsSlot p then 1 else 0)%nat.
Proof.
  intros Hm. unfold holders. rewrite <- (insert_delete_id m id p Hm) at 1. rewrite map_filter_insert.
  assert (Hd : filter (fun q => holdsSlot q.2 = true) (base.delete id m) !! id = None)
    by (apply map_lookup_filter_None; left; apply lookup_delete_eq).
  cbn [snd]. destruct (holdsSlot p).
  - rewrite decide_True by done. rewrite map_size_insert_None by done. lia.
  - rewrite decide_False by done. rewrite delete_id by (apply lookup_delete_eq). lia.
Qed.

Lemma holders_insert m id p q : m !! id = Some p →
  (holders (<[id := q]> m) + (if holdsSlot p then 1 else 0) = holders m + if holdsSlot q then 1 else 0)%nat.
Proof.
  intros Hm. rewrite (holders_delete m id p Hm), (holders_delete (<[id := q]> m) id q) by apply lookup_insert_eq.
  rewrite delete_insert_eq. lia.
Qed.

(** At most 16 ping/pongs are in progress at any time, and a free slot is never lost. *)
Lemma bond_limits b : rtc bondStep noBonds b → (bondslots b + holders (bonding b) = maxBondingPingPongs)%nat.
Proof.
  intros Hr. assert (H0 : (bondslots noBonds + holders (bonding noBonds) = maxBondingPingPongs)%nat) by done.
  revert H0. induction Hr as [|b1 b2 b3 Hstep _ IH]; [done|]. intros H1. apply IH. clear IH b3.
  destruct Hstep as [b id Hid|b id k Hid Hk|b id Hid|b id Hid|b id Hid]; cbn [bonding bondslots].
  - unfold holders in *. rewrite map_filter_insert. cbn [snd holdsSlot]. rewrite decide_False by done.
    rewrite delete_id by done. done.
  - pose proof (holders_insert _ _ _ PingPong Hid) as Hh. cbn [holdsSlot] in Hh. lia.
  - pose proof (holders_insert _ _ _ Closed Hid) as Hh. cbn [holdsSlot] in Hh. lia.
  - pose proof (holders_insert _ _ _ Released Hid) as Hh. cbn [holdsSlot] in Hh. lia.
  - pose proof (holders_delete _ _ _ Hid) as Hh. cbn [holdsSlot] in Hh. lia.
Qed.
