(* ===== verification/History.v ===== *)
(** * The dial history

    [src/p2p/dial.go]: [dialHistory], the nodes dialed lately with the time at which they
    may be dialed again, a binary heap kept with the standard library's [container/heap]
    ([Push], [Pop], their loops [up] and [down]).  Times are nanoseconds.

    Properties: the heap order is kept, the entry in front is one that expires first, and
    [expire] removes exactly the entries whose time has passed
    ([expire_spec], [add_spec], [min_spec]). *)

From stdpp Require Import base list strings.
From Stdlib Require Import ZArith Lia.
From S2P Require Import Prelude Common.
Local Open Scope Z_scope.

Record pastDial := {
  pdID : bytes;
  pdExp : Z
}.

Notation dialHistory := (list pastDial).

(** ** Operations *)

(** [Less]; the indices are in range. *)
Definition Less (h : dialHistory) (i j : nat) : bool :=
  match h !! i, h !! j with
  | Some x, Some y => pdExp x <? pdExp y
  | _, _ => false
  end.

Definition Swap (h : dialHistory) (i j : nat) : dialHistory :=
  match h !! i, h !! j with
  | Some x, Some y => <[j := x]> (<[i := y]> h)
  | _, _ => h
  end.

(** [heap.up]. *)
Fixpoint up (fuel : nat) (h : dialHistory) (j : nat) : dialHistory :=
  match fuel with
  | O => h
  | S fuel =>
      let i := Nat.div (j - 1) 2 in
      if Nat.eqb i j || negb (Less h j i) then h else up fuel (Swap h i j) i
  end.

(** [heap.down]. *)
Fixpoint down (fuel : nat) (h : dialHistory) (i n : nat) : dialHistory :=
  match fuel with
  | O => h
  | S fuel =>
      let j1 := (2 * i + 1)%nat in
      if Nat.leb n j1 then h
      else
        let j2 := (j1 + 1)%nat in
        let j := if Nat.ltb j2 n && Less h j2 j1 then j2 else j1 in
        if negb (Less h j i) then h else down fuel (Swap h i j) j n
  end.

(** [add]: [heap.Push]. *)
Definition add (h : dialHistory) (id : bytes) (exp : Z) : dialHistory :=
  let h := h ++ [{| pdID := id; pdExp := exp |}] in
  up (length h) h (length h - 1).

(** [heap.Pop]: the entry in front goes. *)
Definition pop (h : dialHistory) : dialHistory :=
  let n := (length h - 1)%nat in
  let h := down (length h) (Swap h 0 n) 0 n in
  take (length h - 1) h.

Definition min (h : dialHistory) : option pastDial := h !! 0%nat.

Definition contains (h : dialHistory) (id : bytes) : bool := existsb (fun v => bool_decide (pdID v = id)) h.

Fixpoint expireLoop (fuel : nat) (h : dialHistory) (now : Z) : dialHistory :=
  match fuel with
  | O => h
  | S fuel =>
      match min h with
      | Some v => if pdExp v <? now then expireLoop fuel (pop h) now else h
      | None => h
      end
  end.

Definition expire (h : dialHistory) (now : Z) : dialHistory := expireLoop (length h) h now.

(** ** The heap order *)

Definition expAt (h : dialHistory) (i : nat) : Z := from_option pdExp 0 (h !! i).

(** The first [n] entries are in heap order, but for the entry [k] and its children. *)
Definition ordered (h : dialHistory) (n : nat) (bad : nat → nat → Prop) : Prop :=
  ∀ i c, (c = 2 * i + 1 ∨ c = 2 * i + 2)%nat → (c < n)%nat → bad i c ∨ expAt h i ≤ expAt h c.

Definition heap (h : dialHistory) : Prop := ordered h (length h) (fun _ _ => False).

Lemma Less_exp h i j : (i < length h)%nat → (j < length h)%nat → Less h i j = (expAt h i <? expAt h j).
Proof.
  intros [x Hx]%lookup_lt_is_Some [y Hy]%lookup_lt_is_Some. unfold Less, expAt. by rewrite Hx, Hy.
Qed.

Lemma Swap_length h i j : length (Swap h i j) = length h.
Proof. unfold Swap. destruct (h !! i), (h !! j); try done. by rewrite !length_insert. Qed.

Lemma Swap_exp h i j k : (i < length h)%nat → (j < length h)%nat →
  expAt (Swap h i j) k = if Nat.eqb k j then expAt h i else if Nat.eqb k i then expAt h j else expAt h k.
Proof.
  intros Hi Hj. destruct (lookup_lt_is_Some_2 _ _ Hi) as [x Hx]. destruct (lookup_lt_is_Some_2 _ _ Hj) as [y Hy].
  unfold Swap, expAt. rewrite Hx, Hy. destruct (Nat.eqb_spec k j) as [->|Hkj].
  - rewrite list_lookup_insert_eq by (rewrite length_insert; lia). done.
  - rewrite list_lookup_insert_ne by done. destruct (Nat.eqb_spec k i) as [->|Hki].
    + by rewrite list_lookup_insert_eq by lia.
    + by rewrite list_lookup_insert_ne by done.
Qed.

Lemma Swap_Permutation h i j : Swap h i j ≡ₚ h.
Proof.
  unfold Swap. destruct (h !! i) as [x|] eqn:Hi; [|done]. destruct (h !! j) as [y|] eqn:Hj; [|done].
  destruct (Nat.lt_trichotomy i j) as [Hlt|[->|Hgt]].
  - rewrite list_insert_insert_ne by lia. by apply swap_Permutation.
  - assert (x = y) as -> by congruence. by rewrite list_insert_insert_eq, list_insert_id.
  - by apply swap_Permutation.
Qed.

Lemma up_Permutation fuel h j : up fuel h j ≡ₚ h.
Proof.
  revert h j. induction fuel as [|fuel IH]; intros h j; cbn; [done|].
  destruct (_ || _); [done|]. by rewrite IH, Swap_Permutation.
Qed.

Lemma down_Permutation fuel h i n : down fuel h i n ≡ₚ h.
Proof.
  revert h i. induction fuel as [|fuel IH]; intros h i; cbn [down]; [done|].
  destruct (Nat.leb _ _); [done|]. destruct (negb _); [done|]. by rewrite IH, Swap_Permutation.
Qed.

Lemma parent_child j : (0 < j)%nat → (j = 2 * ((j - 1) / 2) + 1 ∨ j = 2 * ((j - 1) / 2) + 2)%nat.
Proof.
  intros Hj. pose proof (Nat.div_mod_eq (j - 1) 2). pose proof (Nat.mod_upper_bound (j - 1) 2 ltac:(lia)). lia.
Qed.

(** Only the edge into [j] may be out of order, and what hangs below [j] is in order with
    what is above. *)
Lemma up_heap fuel h j : (j < length h)%nat → (j < fuel)%nat →
  ordered h (length h) (fun _ c => c = j) →
  (∀ i c, (j = 2 * i + 1 ∨ j = 2 * i + 2)%nat → (c = 2 * j + 1 ∨ c = 2 * j + 2)%nat → (c < length h)%nat → expAt h i ≤ expAt h c) →
  heap (up fuel h j).
Proof.
  revert h j. induction fuel as [|fuel IH]; intros h j Hj Hf Ho Hg; [lia|]. cbn [up]. cbv zeta.
  assert (Hi : (j = 0 ∧ (j - 1) / 2 = 0 ∨ 0 < j ∧ (j = 2 * ((j - 1) / 2) + 1 ∨ j = 2 * ((j - 1) / 2) + 2))%nat).
  { destruct j as [|j']; [by left|right]. split; [lia|]. apply parent_child. lia. }
  set (i := ((j - 1) / 2)%nat) in *. clearbody i. destruct (Nat.eqb_spec i j) as [Hij|Hij]; cbn [orb].
  - assert (j = 0%nat) by lia. subst j. intros a c Hc Hlt. right. destruct (Ho a c Hc Hlt) as [->|]; [lia|done].
  - assert (Hp : (j = 2 * i + 1 ∨ j = 2 * i + 2)%nat) by lia.
    rewrite Less_exp by lia. destruct (Z.ltb_spec (expAt h j) (expAt h i)) as [Hlt|Hge]; cbn [negb].
    + apply IH; rewrite ?Swap_length; [lia|lia|..].
      * intros a c Hc Hcl. rewrite !Swap_exp by lia.
        destruct (Nat.eqb_spec c j), (Nat.eqb_spec c i), (Nat.eqb_spec a j), (Nat.eqb_spec a i); subst; try lia.
        -- right. apply (Hg i c); [done|lia|lia].
        -- destruct (Ho i c Hc Hcl) as [|]; [lia|]. right. lia.
        -- destruct (Ho a c Hc Hcl) as [|]; [lia|]. right. lia.
      * intros a c Ha Hc Hcl. rewrite !Swap_exp by lia.
        destruct (Nat.eqb_spec c j), (Nat.eqb_spec c i), (Nat.eqb_spec a j), (Nat.eqb_spec a i); subst; try lia.
        -- destruct (Ho a i Ha ltac:(lia)) as [|]; lia.
        -- destruct (Ho i c Hc Hcl) as [|]; [lia|]. destruct (Ho a i Ha ltac:(lia)) as [|]; lia.
    + intros a c Hc Hcl. right. destruct (Ho a c Hc Hcl) as [->|]; [|done]. assert (a = i) as -> by lia. lia.
Qed.

(** Only the edges out of [i] may be out of order. *)
Lemma down_heap fuel h i n : (n ≤ length h)%nat → (n - i < fuel)%nat →
  ordered h n (fun a _ => a = i) →
  (∀ a c, (i = 2 * a + 1 ∨ i = 2 * a + 2)%nat → (c = 2 * i + 1 ∨ c = 2 * i + 2)%nat → (c < n)%nat → expAt h a ≤ expAt h c) →
  ordered (down fuel h i n) n (fun _ _ => False).
Proof.
  revert h i. induction fuel as [|fuel IH]; intros h i Hn Hf Ho Hg; [lia|]. cbn [down]. cbv zeta.
  destruct (Nat.leb_spec n (2 * i + 1)) as [Hle|Hgt].
  { intros a c Hc Hcl. right. destruct (Ho a c Hc Hcl) as [->|]; [lia|done]. }
  set (j := if Nat.ltb (2 * i + 1 + 1) n && Less h (2 * i + 1 + 1) (2 * i + 1) then (2 * i + 1 + 1)%nat else (2 * i + 1)%nat).
  assert (Hj : (j = 2 * i + 1 ∨ j = 2 * i + 2)%nat ∧ (j < n)%nat ∧
    ∀ c, (c = 2 * i + 1 ∨ c = 2 * i + 2)%nat → (c < n)%nat → expAt h j ≤ expAt h c).
  { subst j. destruct (Nat.ltb_spec (2 * i + 1 + 1) n) as [Hlt|Hge]; cbn [andb].
    - rewrite Less_exp by lia. replace (2 * i + 1 + 1)%nat with (2 * i + 2)%nat in * by lia.
      destruct (Z.ltb_spec (expAt h (2 * i + 2)) (expAt h (2 * i + 1))); (split; [lia|]; split; [lia|]);
        intros c [->| ->] _; lia.
    - split; [lia|]. split; [lia|]. intros c [->| ->] ?; lia. }
  clearbody j. destruct Hj as (Hji & Hjn & Hmin). rewrite Less_exp by lia.
  destruct (Z.ltb_spec (expAt h j) (expAt h i)) as [Hlt|Hge]; cbn [negb].
  - apply IH; rewrite ?Swap_length; [lia|lia|..].
    + intros a c Hc Hcl. rewrite !Swap_exp by lia.
      destruct (Nat.eqb_spec c j), (Nat.eqb_spec c i), (Nat.eqb_spec a j), (Nat.eqb_spec a i); subst; try lia.
      * right. apply Hg; [done|lia|lia].
      * right. by apply Hmin.
      * destruct (Ho a c Hc Hcl) as [|]; [lia|]. right. lia.
    + intros a c Ha Hc Hcl. rewrite !Swap_exp by lia.
      destruct (Nat.eqb_spec c j), (Nat.eqb_spec c i), (Nat.eqb_spec a j), (Nat.eqb_spec a i); subst; try lia.
      destruct (Ho j c Hc Hcl) as [|]; lia.
  - intros a c Hc Hcl. right. destruct (Ho a c Hc Hcl) as [->|]; [|done]. specialize (Hmin c Hc Hcl). lia.
Qed.

Lemma Swap_lookup h i j k : k ≠ i → k ≠ j → Swap h i j !! k = h !! k.
Proof.
  intros Hi Hj. unfold Swap. destruct (h !! i), (h !! j); try done. by rewrite !list_lookup_insert_ne by congruence.
Qed.

Lemma down_lookup fuel h i n k : (i < n)%nat → (n ≤ k)%nat → down fuel h i n !! k = h !! k.
Proof.
  revert h i. induction fuel as [|fuel IH]; intros h i Hi Hk; cbn [down]; [done|]. cbv zeta.
  destruct (Nat.leb_spec n (2 * i + 1)); [done|].
  assert (Hj : ∀ b : bool, ((if Nat.ltb (2 * i + 1 + 1) n && b then 2 * i + 1 + 1 else 2 * i + 1) < n)%nat).
  { intros b. destruct (Nat.ltb_spec (2 * i + 1 + 1) n), b; cbn; lia. }
  specialize (Hj (Less h (2 * i + 1 + 1) (2 * i + 1))). destruct (negb _); [done|].
  rewrite IH by (done || lia). apply Swap_lookup; lia.
Qed.

(** ** The operations *)

Lemma add_spec h id exp : heap h → heap (add h id exp) ∧ add h id exp ≡ₚ {| pdID := id; pdExp := exp |} :: h.
Proof.
  intros Hh. unfold add. set (x := {| pdID := id; pdExp := exp |}). split.
  - assert (Hl : length (h ++ [x]) = S (length h)) by (rewrite length_app; cbn; lia).
    apply up_heap; rewrite Hl; [lia|lia|..].
    + intros a c Hc Hcl. destruct (Nat.eq_dec c (length h)) as [->|Hne]; [left; lia|right].
      unfold expAt. rewrite !lookup_app_l by lia. destruct (Hh a c Hc ltac:(lia)); done.
    + intros a c Ha Hc Hcl. lia.
  - rewrite up_Permutation. symmetry. apply Permutation_cons_append.
Qed.

Lemma min_spec h x : heap h → min h = Some x → ∀ y, y ∈ h → pdExp x ≤ pdExp y.
Proof.
  intros Hh Hx y (k & Hk)%list_elem_of_lookup_1. unfold min in Hx.
  enough (He : ∀ k, (k < length h)%nat → expAt h 0 ≤ expAt h k).
  { specialize (He k (lookup_lt_Some _ _ _ Hk)). unfold expAt in He. by rewrite Hx, Hk in He. }
  clear y k Hk. intros k. induction (lt_wf k) as [k _ IH]. intros Hk.
  destruct (Nat.eq_dec k 0) as [->|Hk0]; [lia|]. pose proof (parent_child k ltac:(lia)) as Hp.
  destruct (Hh ((k - 1) / 2)%nat k Hp Hk) as [|He]; [done|]. specialize (IH ((k - 1) / 2)%nat ltac:(lia) ltac:(lia)). lia.
Qed.

Lemma pop_spec h x : heap h → min h = Some x → heap (pop h) ∧ h ≡ₚ x :: pop h.
Proof.
  intros Hh Hx. unfold min in Hx. pose proof (lookup_lt_Some _ _ _ Hx) as Hl. unfold pop.
  set (n := (length h - 1)%nat). set (d := down (length h) (Swap h 0 n) 0 n).
  assert (Hd : d ≡ₚ h) by (unfold d; by rewrite down_Permutation, Swap_Permutation).
  assert (Hdl : length d = length h) by (by rewrite Hd).
  assert (Hord : ordered d n (fun _ _ => False)).
  { unfold d. apply down_heap; rewrite ?Swap_length; [lia|lia|..].
    - intros a c Hc Hcl. destruct (Nat.eq_dec a 0) as [->|Ha]; [by left|right].
      rewrite !Swap_exp by lia. rewrite !(proj2 (Nat.eqb_neq _ _)) by lia. destruct (Hh a c Hc ltac:(lia)); done.
    - intros a c Ha. lia. }
  assert (Hlast : d !! n = Some x).
  { unfold d. destruct (Nat.eq_dec n 0) as [Hn0|Hn0].
    - rewrite Hn0. destruct (length h) as [|k] eqn:El; [lia|]. cbn [down Nat.mul Nat.add]. cbn [Nat.leb]. unfold Swap. rewrite Hx.
      rewrite list_insert_insert_eq, list_insert_id by done. done.
    - rewrite down_lookup by lia. unfold Swap. rewrite Hx. destruct (lookup_lt_is_Some_2 h n ltac:(lia)) as [y Hy]. rewrite Hy.
      apply list_lookup_insert_eq. rewrite length_insert. lia. }
  rewrite Hdl. fold n. split.
  - intros a c Hc Hcl. rewrite length_take, Hdl in Hcl. right. unfold expAt. rewrite !lookup_take_lt by lia.
    destruct (Hord a c Hc ltac:(lia)); done.
  - rewrite <- Hd at 1. rewrite <- (take_drop_middle d n x Hlast) at 1. rewrite (drop_ge d) by lia.
    symmetry. apply Permutation_cons_append.
Qed.

Lemma filter_all {A} (P : A → Prop) `{∀ x, Decision (P x)} (l : list A) : (∀ x, x ∈ l → P x) → filter P l = l.
Proof.
  induction l as [|x l IH]; intros Hl; [done|]. rewrite filter_cons_True by (apply Hl; left). f_equal.
  apply IH. intros y Hy. apply Hl. by right.
Qed.

Lemma expireLoop_spec fuel h now : heap h → (length h ≤ fuel)%nat →
  heap (expireLoop fuel h now) ∧ expireLoop fuel h now ≡ₚ filter (fun v => now ≤ pdExp v) h.
Proof.
  revert h. induction fuel as [|fuel IH]; intros h Hh Hf; cbn [expireLoop].
  { destruct h; [done|cbn in Hf; lia]. }
  destruct (min h) as [x|] eqn:Hx.
  - destruct (Z.ltb_spec (pdExp x) now) as [Hlt|Hge].
    + destruct (pop_spec h x Hh Hx) as [Hp Hperm]. destruct (IH (pop h) Hp) as [H1 H2].
      { rewrite Hperm in Hf. cbn in Hf. lia. }
      split; [done|]. rewrite H2. rewrite Hperm at 2. rewrite filter_cons_False by lia. done.
    + split; [done|]. rewrite filter_all; [done|]. intros y Hy. pose proof (min_spec h x Hh Hx y Hy). lia.
  - destruct h; [done|]. by cbn in Hx.
Qed.

(** The entries whose time has passed go, the others stay. *)
Lemma expire_spec h now : heap h → heap (expire h now) ∧ expire h now ≡ₚ filter (fun v => now ≤ pdExp v) h.
Proof. intros Hh. by apply expireLoop_spec. Qed.

Lemma contains_iff h id : contains h id = true ↔ id ∈ pdID <$> h.
Proof.
  unfold contains. rewrite existsb_exists, list_elem_of_fmap. split.
  - intros (v & Hv & Hid%bool_decide_eq_true_1). exists v. by rewrite list_elem_of_In.
  - intros (v & -> & Hv). exists v. rewrite <- list_elem_of_In. split; [done|]. by apply bool_decide_eq_true_2.
Qed.

(** *** Operations one after the other *)

Inductive histOp := HAdd (id : bytes) (exp : Z) | HExpire (now : Z).

Definition histStep (h : dialHistory) (op : histOp) : dialHistory :=
  match op with
  | HAdd id exp => add h id exp
  | HExpire now => expire h now
  end.

(** The history as a plain bag of entries. *)
Definition bagStep (b : dialHistory) (op : histOp) : dialHistory :=
  match op with
  | HAdd id exp => {| pdID := id; pdExp := exp |} :: b
  | HExpire now => filter (fun v => now ≤ pdExp v) b
  end.

Lemma heap_nil : heap [].
Proof. intros i c _ Hc. cbn in Hc. lia. Qed.

(** Through any sequence of additions and expirations the heap holds exactly the
    entries a plain bag would: [expire] drops those whose time has passed and no other,
    and the entry in front is one that expires first. *)
Theorem history_refines_bag ops :
  let h := foldl histStep [] ops in
  h ≡ₚ foldl bagStep [] ops ∧ ∀ x y, min h = Some x → y ∈ h → pdExp x ≤ pdExp y.
Proof.
  cbv zeta. enough (Hk : ∀ h b, heap h → h ≡ₚ b → heap (foldl histStep h ops) ∧ foldl histStep h ops ≡ₚ foldl bagStep b ops).
  { destruct (Hk [] [] heap_nil ltac:(done)) as [Hh Hb]. split; [done|]. intros x y Hx Hy. by apply (min_spec _ _ Hh Hx). }
  induction ops as [|[id exp|now] ops IH]; intros h b Hh Hb; cbn; [done|..]; apply IH.
  - by apply add_spec.
  - rewrite <- Hb. by apply add_spec.
  - by apply expire_spec.
  - rewrite <- Hb. by apply expire_spec.
Qed.
