(* ===== verification/Dial.v ===== *)
(** * The dial scheduler

    [src/p2p/dial.go]: [dialstate] computes the dial and discovery tasks of the server
    ([newTasks], [taskDone], [addStatic]), and a dial task resolves and dials its node
    ([Do], [resolve]).  The tasks are shared by pointer between the static set and the
    running goroutines: [dsStore] holds them by address.  The iteration order of the map of
    static nodes is a parameter, and so is the discovery table, behind the interface
    [DiscoverTable] that [Table] implements.

    Properties: [newTasks] does not panic, although the table reports one random node too
    many; it dials no node that is being dialed, connected or in the history, none twice,
    and no more nodes than there is room for; it starts one lookup at a time
    ([newTasks_spec]); the delay between resolutions is bounded and the task keeps its
    destination ([resolve_spec]). *)

From stdpp Require Import base gmap sets list strings.
From Stdlib Require Import ZArith Lia.
From S2P Require Import Prelude Common Sm3 Discover Table Lookup History.
Local Open Scope Z_scope.

Definition second : Z := 1000000000.
Definition dialHistoryExpiration : Z := 30 * second.
Definition initialResolveDelay : Z := 60 * second.
Definition maxResolveDelay : Z := 3600 * second.

(** [connFlag]. *)
Definition dynDialedConn : Z := 1.
Definition staticDialedConn : Z := 2.
Definition inboundConn : Z := 4.
Definition trustedConn : Z := 8.

Definition hasFlag (f g : Z) : bool := negb (Z.land f g =? 0).

(** ** The discovery table, as the dialer sees it *)

(** What the dialer relies on: the buffer it hands over is written from the front, and an
    index below the count and the length of the buffer has been written. *)
Class DiscoverTable (T : Type) := {
  readRandomNodes : T → nat → (nat → nat) → list Node * nat;
  readRandomNodes_ok : ∀ tab bufLen rand, (∀ k, (0 < k)%nat → (rand k < k)%nat) →
    (length (readRandomNodes tab bufLen rand).1 ≤ bufLen)%nat ∧
    ∀ i, (i < (readRandomNodes tab bufLen rand).2)%nat → (i < bufLen)%nat → (i < length (readRandomNodes tab bufLen rand).1)%nat
}.

Lemma ReadRandomNodes_ok tab bufLen rand : (∀ k, (0 < k)%nat → (rand k < k)%nat) →
  (length (ReadRandomNodes tab bufLen rand).1 ≤ bufLen)%nat ∧
  ∀ i, (i < (ReadRandomNodes tab bufLen rand).2)%nat → (i < bufLen)%nat → (i < length (ReadRandomNodes tab bufLen rand).1)%nat.
Proof.
  intros Hr. pose proof (ReadRandomNodes_counts tab bufLen rand Hr) as H.
  destruct (ReadRandomNodes tab bufLen rand) as [written n]. destruct H as (_ & Hl & ->). cbn [fst snd]. rewrite Hl.
  split; [lia|]. intros i. destruct (Nat.ltb_spec bufLen (tabLen tab)); intros Hi Hb; lia.
Qed.

#[export] Instance Table_DiscoverTable : DiscoverTable Table := {
  readRandomNodes := ReadRandomNodes;
  readRandomNodes_ok := ReadRandomNodes_ok
}.

(** ** Tasks and state *)

Record dialTask := {
  dtFlags : Z;
  dtDest : Node;
  dtLastResolved : Z;
  dtResolveDelay : Z;
  dtNodeType : Z
}.

Inductive task :=
  | TDial (ref : nat)
  | TDiscover (ref : nat)
  | TWait (ref : nat) (d : Z).

#[export] Instance task_eq_dec : EqDecision task.
Proof. solve_decision. Defined.

Record dialstate := {
  maxDynDials : Z;
  lookupRunning : bool;
  dialing : gmap bytes Z;
  lookupBuf : list Node;
  randomNodes : list (option Node);
  static : gmap bytes nat;
  hist : list pastDial;
  dsStore : gmap nat dialTask;
  dsNext : nat
}.

(** [&dialTask{...}]. *)
Definition allocTask (s : dialstate) (t : dialTask) : dialstate * nat :=
  ({| maxDynDials := maxDynDials s; lookupRunning := lookupRunning s; dialing := dialing s; lookupBuf := lookupBuf s;
      randomNodes := randomNodes s; static := static s; hist := hist s;
      dsStore := <[dsNext s := t]> (dsStore s); dsNext := S (dsNext s) |}, dsNext s).

Definition addStatic (s : dialstate) (n : Node) : dialstate :=
  let '(s, ref) := allocTask s {| dtFlags := staticDialedConn; dtDest := n; dtLastResolved := 0; dtResolveDelay := 0;
                                  dtNodeType := nNodeType n |} in
  {| maxDynDials := maxDynDials s; lookupRunning := lookupRunning s; dialing := dialing s; lookupBuf := lookupBuf s;
     randomNodes := randomNodes s; static := <[nID n := ref]> (static s); hist := hist s;
     dsStore := dsStore s; dsNext := dsNext s |}.

Definition newDialState (statics : list Node) (maxdyn : Z) : gores dialstate :=
  if maxdyn ÷ 2 <? 0 then Crash
  else Ret (foldl addStatic {|
    maxDynDials := maxdyn; lookupRunning := false; dialing := ∅; lookupBuf := [];
    randomNodes := replicate (Z.to_nat (maxdyn ÷ 2)) None; static := ∅; hist := []; dsStore := ∅; dsNext := 0 |} statics).

Definition setDialing (s : dialstate) (id : bytes) (flag : Z) : dialstate :=
  {| maxDynDials := maxDynDials s; lookupRunning := lookupRunning s; dialing := <[id := flag]> (dialing s);
     lookupBuf := lookupBuf s; randomNodes := randomNodes s; static := static s; hist := hist s;
     dsStore := dsStore s; dsNext := dsNext s |}.

Definition setHist (s : dialstate) (h : list pastDial) : dialstate :=
  {| maxDynDials := maxDynDials s; lookupRunning := lookupRunning s; dialing := dialing s; lookupBuf := lookupBuf s;
     randomNodes := randomNodes s; static := static s; hist := h; dsStore := dsStore s; dsNext := dsNext s |}.

Definition setBuf (s : dialstate) (buf : list Node) : dialstate :=
  {| maxDynDials := maxDynDials s; lookupRunning := lookupRunning s; dialing := dialing s; lookupBuf := buf;
     randomNodes := randomNodes s; static := static s; hist := hist s; dsStore := dsStore s; dsNext := dsNext s |}.

Definition setRandom (s : dialstate) (r : list (option Node)) : dialstate :=
  {| maxDynDials := maxDynDials s; lookupRunning := lookupRunning s; dialing := dialing s; lookupBuf := lookupBuf s;
     randomNodes := r; static := static s; hist := hist s; dsStore := dsStore s; dsNext := dsNext s |}.

Definition setLookup (s : dialstate) (b : bool) : dialstate :=
  {| maxDynDials := maxDynDials s; lookupRunning := b; dialing := dialing s; lookupBuf := lookupBuf s;
     randomNodes := randomNodes s; static := static s; hist := hist s; dsStore := dsStore s; dsNext := dsNext s |}.

(** A fresh address for a task without fields of interest. *)
Definition allocRef (s : dialstate) : dialstate * nat :=
  ({| maxDynDials := maxDynDials s; lookupRunning := lookupRunning s; dialing := dialing s; lookupBuf := lookupBuf s;
      randomNodes := randomNodes s; static := static s; hist := hist s; dsStore := dsStore s; dsNext := S (dsNext s) |}, dsNext s).

(** ** New tasks *)

(** Connected peers with the flags of their connections. *)
Notation Peers := (gmap bytes Z).

Definition isDialing (s : dialstate) (peers : Peers) (id : bytes) : bool :=
  bool_decide (is_Some (dialing s !! id)) || bool_decide (is_Some (peers !! id)) || contains (hist s) id.

Definition addDial (s : dialstate) (peers : Peers) (ts : list task) (flag : Z) (n : Node) : dialstate * list task * bool :=
  if isDialing s peers (nID n) then (s, ts, false)
  else
    let s := setDialing s (nID n) flag in
    let '(s, ref) := allocTask s {| dtFlags := flag; dtDest := n; dtLastResolved := 0; dtResolveDelay := 0; dtNodeType := 0 |} in
    (s, ts ++ [TDial ref], true).

(** The nodes with the flag for a dynamic dial. *)
Definition dynCount (m : gmap bytes Z) : nat := size (filter (fun p => hasFlag p.2 dynDialedConn = true) m).

(** The loop over the static nodes. *)
Fixpoint staticLoop (s : dialstate) (peers : Peers) (ts : list task) (order : list (bytes * nat)) : gores (dialstate * list task) :=
  match order with
  | [] => Ret (s, ts)
  | (id, ref) :: order =>
      if isDialing s peers id then staticLoop s peers ts order
      else
        match dsStore s !! ref with
        | None => Crash
        | Some t => staticLoop (setDialing s id (dtFlags t)) peers (ts ++ [TDial ref]) order
        end
  end.

(** The loop over the random nodes, from index [i]; [k] rounds are left. *)
Fixpoint randomLoop (k i : nat) (s : dialstate) (peers : Peers) (ts : list task) (needDynDials : Z) : gores (dialstate * list task * Z) :=
  match k with
  | O => Ret (s, ts, needDynDials)
  | S k =>
      match randomNodes s !! i with
      | Some (Some n) =>
          let '(s, ts, added) := addDial s peers ts dynDialedConn n in
          randomLoop k (S i) s peers ts (if added then needDynDials - 1 else needDynDials)
      | _ => Crash
      end
  end.

(** The loop over the lookup results; the rest of the buffer. *)
Fixpoint bufLoop (buf : list Node) (s : dialstate) (peers : Peers) (ts : list task) (needDynDials : Z)
    : dialstate * list task * Z * list Node :=
  match buf with
  | [] => (s, ts, needDynDials, [])
  | n :: rest =>
      if 0 <? needDynDials then
        let '(s, ts, added) := addDial s peers ts dynDialedConn n in
        bufLoop rest s peers ts (if added then needDynDials - 1 else needDynDials)
      else (s, ts, needDynDials, buf)
  end.

Section NewTasks.
  Context {T : Type} `{DiscoverTable T}.

(** Random nodes for half of the dynamic dials. *)
Definition randomDials (s : dialstate) (peers : Peers) (ts : list task) (needDynDials : Z) (ntab : T) (rand : nat → nat)
    : gores (dialstate * list task * Z) :=
  let randomCandidates := needDynDials ÷ 2 in
  if 0 <? randomCandidates then
    let '(written, n) := readRandomNodes ntab (length (randomNodes s)) rand in
    let s := setRandom s ((Some <$> written) ++ drop (length written) (randomNodes s)) in
    randomLoop (Nat.min (Z.to_nat randomCandidates) n) 0 s peers ts needDynDials
  else Ret (s, ts, needDynDials).

Definition newTasks (s : dialstate) (nRunning : nat) (peers : Peers) (now : Z) (order : list (bytes * nat)) (ntab : T)
    (rand : nat → nat) : gores (dialstate * list task) :=
  let needDynDials := maxDynDials s - Z.of_nat (dynCount peers) - Z.of_nat (dynCount (dialing s)) in
  let s := setHist s (expire (hist s) now) in
  '(s, ts) ← staticLoop s peers [] order;
  '(s, ts, needDynDials) ← randomDials s peers ts needDynDials ntab rand;
  let '(s, ts, needDynDials, buf) := bufLoop (lookupBuf s) s peers ts needDynDials in
  let s := setBuf s buf in
  let '(s, ts) :=
    if (Z.of_nat (length (lookupBuf s)) <? needDynDials) && negb (lookupRunning s) then
      let '(s, ref) := allocRef (setLookup s true) in (s, ts ++ [TDiscover ref])
    else (s, ts) in
  if Nat.eqb nRunning 0 && Nat.eqb (length ts) 0 && Nat.ltb 0 (length (hist s)) then
    match History.min (hist s) with
    | None => Crash
    | Some v => let '(s, ref) := allocRef s in Ret (s, ts ++ [TWait ref (pdExp v - now)])
    end
  else Ret (s, ts).

End NewTasks.

(** [taskDone]; [results] are those of a discovery task. *)
Definition taskDone (s : dialstate) (t : task) (results : list Node) (now : Z) : gores dialstate :=
  match t with
  | TDial ref =>
      match dsStore s !! ref with
      | None => Crash
      | Some d =>
          let s := setHist s (History.add (hist s) (nID (dtDest d)) (now + dialHistoryExpiration)) in
          Ret {| maxDynDials := maxDynDials s; lookupRunning := lookupRunning s;
                 dialing := base.delete (nID (dtDest d)) (dialing s); lookupBuf := lookupBuf s;
                 randomNodes := randomNodes s; static := static s; hist := hist s; dsStore := dsStore s; dsNext := dsNext s |}
      end
  | TDiscover _ => Ret (setBuf (setLookup s false) (lookupBuf s ++ results))
  | TWait _ _ => Ret s
  end.

(** ** A dial task *)

(** [resolve]; [now1] and [now2] are the times it reads, [found] what the table returns. *)
Definition resolve (ntab : bool) (t : dialTask) (now1 now2 : Z) (found : option Node) : dialTask * bool :=
  if negb ntab then (t, false)
  else
    let delay := if dtResolveDelay t =? 0 then initialResolveDelay else dtResolveDelay t in
    let t := {| dtFlags := dtFlags t; dtDest := dtDest t; dtLastResolved := dtLastResolved t; dtResolveDelay := delay;
                dtNodeType := dtNodeType t |} in
    if now1 - dtLastResolved t <? delay then (t, false)
    else
      match found with
      | None =>
          let delay := if maxResolveDelay <? delay * 2 then maxResolveDelay else delay * 2 in
          ({| dtFlags := dtFlags t; dtDest := dtDest t; dtLastResolved := now2; dtResolveDelay := delay;
              dtNodeType := dtNodeType t |}, false)
      | Some n =>
          ({| dtFlags := dtFlags t; dtDest := n; dtLastResolved := now2; dtResolveDelay := initialResolveDelay;
              dtNodeType := dtNodeType t |}, true)
      end.

(** [Do]: the task at the end and the nodes dialed, in order.  [dial] says which dials
    connect; [r1] and [r2] are the times and answers of the resolutions. *)
Definition Do (ntab : bool) (dial : Node → bool) (r1 r2 : Z * Z * option Node) (t : dialTask) : dialTask * list Node :=
  let '(t, go) := if Incomplete (dtDest t) then resolve ntab t r1.1.1 r1.1.2 r1.2 else (t, true) in
  if negb go then (t, [])
  else
    let dest := dtDest t in
    if negb (dial dest) && hasFlag (dtFlags t) staticDialedConn then
      let '(t, ok) := resolve ntab t r2.1.1 r2.1.2 r2.2 in
      if ok then (t, [dest; dtDest t]) else (t, [dest])
    else (t, [dest]).

(** ** Dynamic dials *)

Lemma dynCount_insert m id f : m !! id = None →
  dynCount (<[id := f]> m) = (dynCount m + if hasFlag f dynDialedConn then 1 else 0)%nat.
Proof.
  intros Hm. unfold dynCount. rewrite map_filter_insert. cbn [snd].
  assert (Hf : filter (fun p => hasFlag p.2 dynDialedConn = true) m !! id = None)
    by (apply map_lookup_filter_None; by left).
  destruct (hasFlag f dynDialedConn).
  - rewrite decide_True by done. rewrite map_size_insert_None by done. lia.
  - rewrite decide_False by done. rewrite delete_id by done. lia.
Qed.

(** ** What a round of [newTasks] does *)

(** The state between two calls: the store knows the static tasks, by the identifier of
    their destination. *)
Record dialOK (s : dialstate) : Prop := {
  d_dyn : 0 ≤ maxDynDials s;
  d_random : Z.of_nat (length (randomNodes s)) = maxDynDials s ÷ 2;
  d_hist : heap (hist s);
  d_static : ∀ id ref, static s !! id = Some ref →
    ∃ t, dsStore s !! ref = Some t ∧ nID (dtDest t) = id ∧ dtFlags t = staticDialedConn;
  d_fresh : ∀ ref t, dsStore s !! ref = Some t → (ref < dsNext s)%nat
}.

(** The identifiers and flags of the dial tasks. *)
Definition dials (s : dialstate) (ts : list task) : list (bytes * Z) :=
  omap (fun t => match t with TDial ref => (fun d => (nID (dtDest d), dtFlags d)) <$> dsStore s !! ref | _ => None end) ts.

(** [s], [ts] and [need] after some dials have been added to [s0]. *)
Record adds (s0 : dialstate) (peers : Peers) (need0 : Z) (s : dialstate) (ts : list task) (need : Z) : Prop := {
  a_ok : dialOK s;
  a_max : maxDynDials s = maxDynDials s0;
  a_lookup : lookupRunning s = lookupRunning s0;
  a_buf : lookupBuf s = lookupBuf s0;
  a_static : static s = static s0;
  a_hist : hist s = hist s0;
  a_store : dsStore s0 ⊆ dsStore s;
  a_next : (dsNext s0 ≤ dsNext s)%nat;
  a_refs : ∀ t, t ∈ ts → ∃ ref d, t = TDial ref ∧ dsStore s !! ref = Some d;
  a_once : NoDup (dials s ts).*1;
  a_new : ∀ id, id ∈ (dials s ts).*1 → isDialing s0 peers id = false;
  a_dialing : ∀ id f, dialing s !! id = Some f ↔ (id, f) ∈ dials s ts ∨ dialing s0 !! id = Some f;
  a_count : Z.of_nat (dynCount (dialing s)) + need = Z.of_nat (dynCount (dialing s0)) + need0
}.

Lemma adds_refl s peers need : dialOK s → adds s peers need s [] need.
Proof. intros Hok. split; try done; [set_solver|apply NoDup_nil_2|set_solver|]. cbn. set_solver. Qed.

Lemma isDialing_false s peers id :
  isDialing s peers id = false ↔ dialing s !! id = None ∧ peers !! id = None ∧ contains (hist s) id = false.
Proof.
  unfold isDialing. rewrite !orb_false_iff, !bool_decide_eq_false, <- !eq_None_not_Some. tauto.
Qed.

Lemma dials_app s ts ts' : dials s (ts ++ ts') = dials s ts ++ dials s ts'.
Proof. apply omap_app. Qed.

(** The tasks are the same in a larger store. *)
Lemma dials_mono s s' ts : dsStore s ⊆ dsStore s' → (∀ ref, TDial ref ∈ ts → is_Some (dsStore s !! ref)) → dials s' ts = dials s ts.
Proof.
  intros Hs. induction ts as [|t ts IH]; intros Ht; [done|].
  assert (Ht' : ∀ ref, TDial ref ∈ ts → is_Some (dsStore s !! ref)) by (intros; apply Ht; by right).
  unfold dials in *. destruct t as [ref|ref|ref d]; cbn; [|by apply IH..].
  destruct (Ht ref) as [d Hd]; [left|]. rewrite Hd, (lookup_weaken _ _ _ _ Hd Hs). cbn. f_equal. by apply IH.
Qed.

(** One more dial task. *)
Lemma adds_one s0 peers need0 s ts need s' ref d :
  adds s0 peers need0 s ts need → isDialing s peers (nID (dtDest d)) = false →
  dialOK s' → maxDynDials s' = maxDynDials s → lookupRunning s' = lookupRunning s → lookupBuf s' = lookupBuf s →
  static s' = static s → hist s' = hist s → dsStore s ⊆ dsStore s' → (dsNext s ≤ dsNext s')%nat →
  dsStore s' !! ref = Some d → dialing s' = <[nID (dtDest d) := dtFlags d]> (dialing s) →
  adds s0 peers need0 s' (ts ++ [TDial ref]) (need - if hasFlag (dtFlags d) dynDialedConn then 1 else 0).
Proof.
  intros [A1 A2 A3 A4 A5 A6 A7 A8 A9 A10 A11 A12 A13] Hd Hok E1 E2 E3 E4 E5 Hst Hnx Href Hdial.
  apply isDialing_false in Hd as (Hd1 & Hd2 & Hd3). rewrite A6 in Hd3.
  assert (Hds : dials s' (ts ++ [TDial ref]) = dials s ts ++ [(nID (dtDest d), dtFlags d)]).
  { rewrite dials_app, (dials_mono s s'); [|done|].
    - unfold dials at 2. cbn. by rewrite Href.
    - intros r Hr. destruct (A9 _ Hr) as (r' & x & [= ->] & Hx). eauto. }
  assert (Hnew : nID (dtDest d) ∉ (dials s ts).*1).
  { intros ([id f] & Hid & Hin)%list_elem_of_fmap. cbn in Hid. subst id.
    assert (dialing s !! nID (dtDest d) = Some f) by (apply A12; by left). congruence. }
  split; rewrite ?Hds, ?fmap_app; try congruence; try done.
  - by etransitivity.
  - lia.
  - intros t [Ht|Ht]%elem_of_app.
    + destruct (A9 t Ht) as (r & x & -> & Hx). exists r, x. split; [done|]. by eapply lookup_weaken.
    + apply list_elem_of_singleton in Ht as ->. eauto.
  - apply NoDup_app. split; [done|]. split; [|apply NoDup_singleton]. cbn. set_solver.
  - intros id [Hid|Hid]%elem_of_app; [by apply A11|]. apply list_elem_of_singleton in Hid as ->. cbn.
    apply isDialing_false. split; [|done]. destruct (dialing s0 !! nID (dtDest d)) eqn:E; [|done].
    assert (dialing s !! nID (dtDest d) = Some z) by (apply A12; by right). congruence.
  - intros id f. rewrite Hdial, lookup_insert_Some, elem_of_app, list_elem_of_singleton, A12. split.
    + intros [[<- <-]|[_ [?|?]]]; tauto.
    + intros [[Hin|[= -> ->]]|H0]; [|tauto|].
      * right. split; [|by left]. intros <-. apply Hnew. apply list_elem_of_fmap. by exists (nID (dtDest d), f).
      * right. split; [|by right]. intros <-. assert (dialing s !! nID (dtDest d) = Some f) by (apply A12; by right). congruence.
  - rewrite Hdial, dynCount_insert by done. destruct (hasFlag _ _); lia.
Qed.

Lemma dialOK_alloc s t id f : dialOK s → dialOK (allocTask (setDialing s id f) t).1.
Proof.
  intros [D1 D2 D3 D4 D5]. split; cbn; try done.
  - intros id' ref Hs. destruct (D4 id' ref Hs) as (x & Hx & ?). exists x. split; [|done].
    rewrite lookup_insert_ne; [done|]. intros <-. apply D5 in Hx. lia.
  - intros ref x [[<- _]|[_ Hx]]%lookup_insert_Some; [lia|]. apply D5 in Hx. lia.
Qed.

Lemma addDial_adds s0 peers need0 s ts need n : adds s0 peers need0 s ts need →
  let '(s', ts', added) := addDial s peers ts dynDialedConn n in
  adds s0 peers need0 s' ts' (if added then need - 1 else need) ∧ randomNodes s' = randomNodes s.
Proof.
  intros Ha. unfold addDial. destruct (isDialing s peers (nID n)) eqn:Hd; [done|]. cbn [allocTask fst snd].
  split; [|done]. apply (adds_one s0 peers need0 s ts need _ _
    {| dtFlags := dynDialedConn; dtDest := n; dtLastResolved := 0; dtResolveDelay := 0; dtNodeType := 0 |}); try done.
  - apply (dialOK_alloc s _ (nID n) dynDialedConn), Ha.
  - cbn. apply insert_subseteq. destruct (dsStore s !! dsNext s) eqn:E; [|done].
    apply (d_fresh _ (a_ok _ _ _ _ _ _ Ha)) in E. lia.
  - cbn. lia.
  - apply lookup_insert_eq.
Qed.

Lemma staticLoop_adds s0 peers need0 order s ts need : adds s0 peers need0 s ts need →
  (∀ id ref, (id, ref) ∈ order → static s0 !! id = Some ref) →
  ∃ s' ts', staticLoop s peers ts order = Ret (s', ts') ∧ adds s0 peers need0 s' ts' need ∧
    randomNodes s' = randomNodes s.
Proof.
  revert s ts. induction order as [|[id ref] order IH]; intros s ts Ha Ho; cbn [staticLoop]; [eauto|].
  assert (Ho' : ∀ id ref, (id, ref) ∈ order → static s0 !! id = Some ref) by (intros; apply Ho; by right).
  destruct (isDialing s peers id) eqn:Hd; [by apply IH|].
  destruct (d_static _ (a_ok _ _ _ _ _ _ Ha) id ref) as (t & Ht & <- & Hf).
  { rewrite (a_static _ _ _ _ _ _ Ha). apply Ho. left. }
  rewrite Ht. destruct (IH (setDialing s (nID (dtDest t)) (dtFlags t)) (ts ++ [TDial ref])) as (s' & ts' & E & Ha' & Hr); [|done|eauto].
  replace need with (need - if hasFlag (dtFlags t) dynDialedConn then 1 else 0)
    by (rewrite Hf; change (hasFlag staticDialedConn dynDialedConn) with false; cbv iota; lia).
  apply (adds_one s0 peers need0 s ts need _ ref t); try done. by destruct (a_ok _ _ _ _ _ _ Ha).
Qed.

Lemma randomLoop_adds s0 peers need0 k i s ts need : adds s0 peers need0 s ts need →
  (∀ j, (i ≤ j < i + k)%nat → ∃ n, randomNodes s !! j = Some (Some n)) →
  ∃ s' ts' need', randomLoop k i s peers ts need = Ret (s', ts', need') ∧ adds s0 peers need0 s' ts' need' ∧
    need - Z.of_nat k ≤ need' ≤ need.
Proof.
  revert i s ts need. induction k as [|k IH]; intros i s ts need Ha Hj; cbn [randomLoop].
  { exists s, ts, need. split; [done|]. split; [done|lia]. }
  destruct (Hj i ltac:(lia)) as [n Hn]. rewrite Hn. pose proof (addDial_adds _ _ _ _ _ _ n Ha) as Hadd.
  destruct (addDial s peers ts dynDialedConn n) as [[s1 ts1] added]. destruct Hadd as [Ha1 Hr].
  destruct (IH (S i) s1 ts1 (if added then need - 1 else need) Ha1) as (s' & ts' & need' & E & Ha' & Hneed).
  { intros j Hij. rewrite Hr. apply Hj. lia. }
  exists s', ts', need'. split; [done|]. split; [done|]. destruct added; lia.
Qed.

Lemma bufLoop_adds s0 peers need0 buf s ts need : adds s0 peers need0 s ts need →
  let '(s', ts', need', rest) := bufLoop buf s peers ts need in
  adds s0 peers need0 s' ts' need' ∧ Z.min need 0 ≤ need' ≤ need ∧ rest `suffix_of` buf.
Proof.
  revert s ts need. induction buf as [|n buf IH]; intros s ts need Ha; cbn [bufLoop]; [split; [done|]; split; [lia|done]|].
  destruct (Z.ltb_spec 0 need); [|split; [done|]; split; [lia|done]].
  pose proof (addDial_adds _ _ _ _ _ _ n Ha) as Hadd.
  destruct (addDial s peers ts dynDialedConn n) as [[s1 ts1] added]. destruct Hadd as [Ha1 _].
  specialize (IH s1 ts1 _ Ha1). destruct (bufLoop buf s1 peers ts1 _) as [[[s' ts'] need'] rest].
  destruct IH as (I1 & I2 & I3). split; [done|]. split; [destruct added; lia|]. by apply suffix_cons_r.
Qed.

(** ** [newTasks] *)

Section Spec.
  Context {T : Type} `{DiscoverTable T}.

(** The dynamic dials and connections there are. *)
Definition dynTotal (s : dialstate) (peers : Peers) : Z := Z.of_nat (dynCount peers) + Z.of_nat (dynCount (dialing s)).

Definition isDiscover (t : task) : bool := match t with TDiscover _ => true | _ => false end.

(** What the tasks [ts] and the state [s'] are to [s]. *)
Record newTasksOK (s : dialstate) (nRunning : nat) (peers : Peers) (now : Z) (s' : dialstate) (ts : list task) : Prop := {
  n_ok : dialOK s';
  n_hist : hist s' ≡ₚ filter (fun v => now ≤ pdExp v) (hist s);
  n_once : NoDup (dials s' ts).*1;
  n_new : ∀ id, id ∈ (dials s' ts).*1 → dialing s !! id = None ∧ peers !! id = None ∧ id ∉ pdID <$> hist s';
  n_dialing : ∀ id f, dialing s' !! id = Some f ↔ (id, f) ∈ dials s' ts ∨ dialing s !! id = Some f;
  n_room : dynTotal s' peers ≤ Z.max (dynTotal s peers) (maxDynDials s);
  n_lookup : lookupRunning s' = lookupRunning s || existsb isDiscover ts;
  n_single : (length (List.filter isDiscover ts) ≤ if lookupRunning s then 0 else 1)%nat;
  n_wait : ∀ ref d, TWait ref d ∈ ts → nRunning = 0%nat ∧ ts = [TWait ref d] ∧ 0 ≤ d;
  n_max : maxDynDials s' = maxDynDials s;
  n_static : static s' = static s;
  n_store : dsStore s ⊆ dsStore s';
  n_refs : ∀ ref, TDial ref ∈ ts → is_Some (dsStore s' !! ref)
}.

Lemma adds_setRandom s0 peers need0 s ts need r : adds s0 peers need0 s ts need →
  length r = length (randomNodes s) → adds s0 peers need0 (setRandom s r) ts need.
Proof.
  intros [[D1 D2 D3 D4 D5] A2 A3 A4 A5 A6 A7 A8 A9 A10 A11 A12 A13] Hl. split; try done. split; try done. cbn. by rewrite Hl.
Qed.

Lemma adds_no_discover s0 peers need0 s ts need : adds s0 peers need0 s ts need → List.filter isDiscover ts = [] ∧ existsb isDiscover ts = false.
Proof.
  intros Ha. pose proof (a_refs _ _ _ _ _ _ Ha) as Hr. clear Ha. induction ts as [|t ts IH]; [done|].
  destruct (Hr t) as (ref & d & -> & _); [left|]. cbn. apply IH. intros t Ht. apply Hr. by right.
Qed.

(** The tasks and the state at the end of a round, from those of the loops. *)
Lemma finish_ok s nRunning peers now s2 ts need s' more :
  dialOK s →
  adds (setHist s (expire (hist s) now)) peers (maxDynDials s - dynTotal s peers) s2 ts need →
  Z.min (maxDynDials s - dynTotal s peers) 0 ≤ need →
  dialOK s' → dialing s' = dialing s2 → hist s' = hist s2 → dsStore s' = dsStore s2 → static s' = static s2 →
  maxDynDials s' = maxDynDials s2 →
  lookupRunning s' = lookupRunning s || existsb isDiscover more →
  (length (List.filter isDiscover more) ≤ if lookupRunning s then 0 else 1)%nat →
  Forall (fun t => match t with TDial _ => False | TDiscover _ => True
                   | TWait _ d => nRunning = 0%nat ∧ ts = [] ∧ more = [t] ∧ 0 ≤ d end) more →
  newTasksOK s nRunning peers now s' (ts ++ more).
Proof.
  intros Hok Ha Hneed Hok' E1 E2 E3 E4 E6 E5 Hs Hm. destruct (adds_no_discover _ _ _ _ _ _ Ha) as [Hf He].
  destruct (expire_spec (hist s) now (d_hist _ Hok)) as [_ Hexp].
  assert (Hds : dials s' (ts ++ more) = dials s2 ts).
  { rewrite dials_app. assert (dials s' more = []) as ->.
    { assert (Hn : ∀ ref, TDial ref ∉ more) by (intros ref Hin; rewrite Forall_forall in Hm; by destruct (Hm _ Hin)).
      clear -Hn. unfold dials. induction more as [|[r|r|r d] more IH]; cbn; [done|..];
        first [by destruct (Hn r); left | apply IH; intros ref Hin; by apply (Hn ref); right]. }
    rewrite app_nil_r. unfold dials. by rewrite E3. }
  destruct Ha as [A1 A2 A3 A4 A5 A6 A7 A8 A9 A10 A11 A12 A13]. cbn in *.
  split; rewrite ?Hds; try done.
  - by rewrite E2, A6.
  - intros id Hid. specialize (A11 id Hid). apply isDialing_false in A11 as (B1 & B2 & B3). split; [exact B1|]. split; [done|].
    change (contains (expire (hist s) now) id = false) in B3. rewrite <- contains_iff, E2, A6, B3. done.
  - intros id f. by rewrite E1.
  - unfold dynTotal in *. rewrite E1. lia.
  - by rewrite E5, existsb_app, He.
  - by rewrite List.filter_app, Hf.
  - intros ref d [Hin|Hin]%elem_of_app.
    + destruct (A9 _ Hin) as (r & x & [=] & _).
    + rewrite Forall_forall in Hm. destruct (Hm _ Hin) as (-> & -> & -> & ?). done.
  - by rewrite E6.
  - by rewrite E4.
  - by rewrite E3.
  - intros ref [Hin|Hin]%elem_of_app.
    + destruct (A9 _ Hin) as (r & x & [= ->] & ?). rewrite E3. eauto.
    + rewrite Forall_forall in Hm. destruct (Hm _ Hin).
Qed.

(** No index is out of range: the random nodes tried have been written. *)
Lemma randomDials_adds s0 peers need0 s ts need (ntab : T) rand : adds s0 peers need0 s ts need →
  need ≤ maxDynDials s0 → (∀ k, (0 < k)%nat → (rand k < k)%nat) →
  ∃ s' ts' need', randomDials s peers ts need ntab rand = Ret (s', ts', need') ∧ adds s0 peers need0 s' ts' need' ∧
    Z.min need 0 ≤ need' ≤ need.
Proof.
  intros Ha Hmax Hr. unfold randomDials. cbv zeta. destruct (Z.ltb_spec 0 (need ÷ 2)) as [Hpos|Hneg].
  2:{ exists s, ts, need. split; [done|]. split; [done|lia]. }
  assert (Hq : 0 < need ∧ need ÷ 2 ≤ need ∧ need ÷ 2 ≤ Z.of_nat (length (randomNodes s))).
  { rewrite (d_random _ (a_ok _ _ _ _ _ _ Ha)), (a_max _ _ _ _ _ _ Ha).
    assert (0 < need) by (destruct (Z.lt_ge_cases 0 need); [done|]; pose proof (Z.quot_opp_l need 2 ltac:(lia));
      pose proof (Z.quot_pos (- need) 2 ltac:(lia) ltac:(lia)); lia).
    split; [done|]. rewrite !Z.quot_div_nonneg by lia. split; [apply Z.div_le_upper_bound; lia|apply Z.div_le_mono; lia]. }
  destruct (readRandomNodes_ok ntab (length (randomNodes s)) rand Hr) as [Hw Hi].
  destruct (readRandomNodes ntab (length (randomNodes s)) rand) as [written n]. cbn [fst snd] in Hw, Hi.
  destruct (randomLoop_adds s0 peers need0 (Nat.min (Z.to_nat (need ÷ 2)) n) 0
    (setRandom s ((Some <$> written) ++ drop (length written) (randomNodes s))) ts need) as (s' & ts' & need' & E & Ha' & Hn).
  - apply adds_setRandom; [done|]. rewrite length_app, length_fmap, length_drop. lia.
  - intros j Hj. cbn [randomNodes setRandom]. specialize (Hi j ltac:(lia) ltac:(lia)).
    destruct (lookup_lt_is_Some_2 written j Hi) as [x Hx]. exists x.
    rewrite lookup_app_l by (rewrite length_fmap; lia). by rewrite list_lookup_fmap, Hx.
  - exists s', ts', need'. split; [done|]. split; [done|lia].
Qed.

Lemma newTasks_ok s nRunning peers now order (ntab : T) rand : dialOK s →
  (∀ id ref, (id, ref) ∈ order → static s !! id = Some ref) → (∀ k, (0 < k)%nat → (rand k < k)%nat) →
  ∃ s' ts, newTasks s nRunning peers now order ntab rand = Ret (s', ts) ∧ newTasksOK s nRunning peers now s' ts.
Proof.
  intros Hok Ho Hr. destruct (expire_spec (hist s) now (d_hist _ Hok)) as [Hheap Hexp]. unfold newTasks.
  set (need0 := maxDynDials s - Z.of_nat (dynCount peers) - Z.of_nat (dynCount (dialing s))).
  assert (Hn0 : need0 = maxDynDials s - dynTotal s peers) by (unfold need0, dynTotal; lia).
  set (s1 := setHist s (expire (hist s) now)).
  assert (Hok1 : dialOK s1) by (destruct Hok; by split).
  destruct (staticLoop_adds s1 peers need0 order s1 [] need0 (adds_refl _ _ _ Hok1) Ho) as (s2 & ts2 & -> & Ha2 & Hr2).
  cbn [mbind gores_bind].
  destruct (randomDials_adds s1 peers need0 s2 ts2 need0 ntab rand Ha2) as (s3 & ts3 & need3 & -> & Ha3 & Hn3);
    [rewrite Hn0; unfold dynTotal, s1; cbn; lia|done|]. cbn [mbind gores_bind].
  pose proof (bufLoop_adds s1 peers need0 (lookupBuf s3) s3 ts3 need3 Ha3) as Hb.
  destruct (bufLoop (lookupBuf s3) s3 peers ts3 need3) as [[[s4 ts4] need4] rest]. destruct Hb as (Ha4 & Hn4 & _).
  assert (Hneed : Z.min (maxDynDials s - dynTotal s peers) 0 ≤ need4) by lia. rewrite Hn0 in Ha4.
  assert (Hok4 : ∀ b, dialOK (allocRef (setLookup (setBuf s4 rest) b)).1 ∧ dialOK (setBuf s4 rest)).
  { intros b. destruct (a_ok _ _ _ _ _ _ Ha4) as [D1 D2 D3 D4 D5]. split; split; try done.
    cbn. intros ref t Ht. apply D5 in Ht. lia. }
  pose proof (a_lookup _ _ _ _ _ _ Ha4) as Hl4. pose proof (a_hist _ _ _ _ _ _ Ha4) as Hh4. cbn in Hl4, Hh4.
  cbv zeta. cbn [lookupBuf setBuf lookupRunning]. destruct (_ && negb _) eqn:Hgo; cbn [allocRef fst snd].
  - apply andb_prop in Hgo as [_ Hgo]. apply negb_true_iff in Hgo. rewrite length_app. cbn [length].
    rewrite Nat.add_1_r. cbn [Nat.eqb]. rewrite andb_false_r. cbn [andb]. eexists _, _. split; [done|].
    apply (finish_ok s nRunning peers now s4 ts4 need4); try done; [by apply (Hok4 true)|cbn; by rewrite orb_true_r|..].
    + rewrite <- Hl4, Hgo. done.
    + by repeat constructor.
  - destruct (Nat.eqb nRunning 0 && Nat.eqb (length ts4) 0 && Nat.ltb 0 (length (hist (setBuf s4 rest)))) eqn:Hw.
    + apply andb_prop in Hw as [[Hw1%Nat.eqb_eq Hw2%Nat.eqb_eq]%andb_prop Hw3%Nat.ltb_lt]. apply nil_length_inv in Hw2. subst ts4.
      destruct (lookup_lt_is_Some_2 _ _ Hw3) as [v Hv]. unfold History.min. rewrite Hv. eexists _, _. split; [done|].
      apply (finish_ok s nRunning peers now s4 [] need4); try done; [by apply (Hok4 (lookupRunning s4))|cbn; by rewrite orb_false_r|cbn; lia|].
      constructor; [|done]. split; [done|]. split; [done|]. split; [done|]. cbn in Hv. rewrite Hh4 in Hv.
      apply list_elem_of_lookup_2 in Hv. rewrite Hexp in Hv. apply list_elem_of_filter in Hv as [? _]. lia.
    + exists (setBuf s4 rest), ts4. split; [done|]. rewrite <- (app_nil_r ts4).
      apply (finish_ok s nRunning peers now s4 ts4 need4); try done; [by apply (Hok4 true)|cbn; by rewrite orb_false_r|cbn; lia].
Qed.

End Spec.

(** ** The other operations *)

Lemma addStatic_OK s n : dialOK s → dialOK (addStatic s n).
Proof.
  intros [D1 D2 D3 D4 D5]. split; cbn; try done.
  - intros id ref [[<- <-]|[_ Hs]]%lookup_insert_Some.
    + eexists. split; [apply lookup_insert_eq|]. done.
    + destruct (D4 id ref Hs) as (t & Ht & ?). exists t. split; [|done].
      rewrite lookup_insert_ne; [done|]. intros <-. apply D5 in Ht. lia.
  - intros ref t [[<- _]|[_ Ht]]%lookup_insert_Some; [lia|]. apply D5 in Ht. lia.
Qed.

Lemma newDialState_OK statics maxdyn : 0 ≤ maxdyn → ∃ s, newDialState statics maxdyn = Ret s ∧ dialOK s ∧
  maxDynDials s = maxdyn ∧ dialing s = ∅ ∧ lookupRunning s = false.
Proof.
  intros Hm. unfold newDialState. pose proof (Z.quot_pos maxdyn 2 Hm ltac:(lia)).
  rewrite (proj2 (Z.ltb_ge _ _)) by lia. eexists. split; [done|].
  set (s0 := Build_dialstate _ _ _ _ _ _ _ _ _).
  assert (H0 : dialOK s0 ∧ maxDynDials s0 = maxdyn ∧ dialing s0 = ∅ ∧ lookupRunning s0 = false).
  { split; [|done]. split; cbn; try done; [rewrite length_replicate; lia|apply heap_nil]. }
  clearbody s0. revert s0 H0. induction statics as [|n statics IH]; intros s0 (H0 & H1 & H2 & H3); [done|]. cbn [foldl].
  apply IH. split; [by apply addStatic_OK|done].
Qed.

(** What a running task may change of its own: not the identifier it dials. *)
Definition setTask (s : dialstate) (ref : nat) (t : dialTask) : dialstate :=
  {| maxDynDials := maxDynDials s; lookupRunning := lookupRunning s; dialing := dialing s; lookupBuf := lookupBuf s;
     randomNodes := randomNodes s; static := static s; hist := hist s; dsStore := <[ref := t]> (dsStore s); dsNext := dsNext s |}.

Lemma setTask_OK s ref t t' : dialOK s → dsStore s !! ref = Some t → nID (dtDest t') = nID (dtDest t) → dtFlags t' = dtFlags t →
  dialOK (setTask s ref t').
Proof.
  intros [D1 D2 D3 D4 D5] Ht Hid Hf. split; cbn; try done.
  - intros id r Hs. destruct (D4 id r Hs) as (x & Hx & Hxid & Hxf). destruct (decide (r = ref)) as [->|Hne].
    + exists t'. split; [apply lookup_insert_eq|]. assert (x = t) as -> by congruence. split; congruence.
    + exists x. by rewrite lookup_insert_ne by done.
  - intros r x [[<- _]|[_ Hx]]%lookup_insert_Some; eapply D5; eauto.
Qed.

Lemma taskDone_OK s t results now : dialOK s → (∀ ref, t = TDial ref → is_Some (dsStore s !! ref)) →
  ∃ s', taskDone s t results now = Ret s' ∧ dialOK s' ∧ maxDynDials s' = maxDynDials s ∧ dsStore s' = dsStore s ∧
    (∀ id f, dialing s' !! id = Some f ↔ dialing s !! id = Some f ∧ id ∉ (dials s [t]).*1) ∧
    lookupRunning s' = lookupRunning s && negb (isDiscover t) ∧
    (∀ ref d, t = TDial ref → dsStore s !! ref = Some d → nID (dtDest d) ∈ pdID <$> hist s').
Proof.
  intros [D1 D2 D3 D4 D5] Hs. destruct t as [ref|ref|ref d]; cbn [taskDone].
  - destruct (Hs ref eq_refl) as [d Hd]. rewrite Hd. eexists. split; [done|].
    destruct (add_spec (hist s) (nID (dtDest d)) (now + dialHistoryExpiration) D3) as [Hh Hp].
    split; [by split|]. split; [done|]. split; [done|]. split; [|split].
    + intros id f. cbn [dialing setHist]. unfold dials. cbn. rewrite Hd. cbn. rewrite lookup_delete_Some, list_elem_of_singleton.
      split; intros [? ?]; split; congruence.
    + by rewrite andb_true_r.
    + intros r x [= <-] Hx. assert (x = d) as -> by congruence. cbn [hist setHist]. rewrite Hp. cbn. left.
  - eexists. split; [done|]. split; [by split|]. split; [done|]. split; [done|]. split; [cbn; set_solver|].
    split; [cbn; by rewrite andb_false_r|done].
  - eexists. split; [done|]. split; [by split|]. split; [done|]. split; [done|]. split; [cbn; set_solver|].
    split; [cbn; by rewrite andb_true_r|done].
Qed.

(** A resolution keeps the identifier, if the table answers with the node asked for, and
    the delay to the next one between a minute and an hour, once it is set. *)
Lemma resolve_spec ntab t now1 now2 found :
  (∀ n, found = Some n → nID n = nID (dtDest t)) →
  (dtResolveDelay t = 0 ∨ initialResolveDelay ≤ dtResolveDelay t ≤ maxResolveDelay) →
  let '(t', ok) := resolve ntab t now1 now2 found in
  nID (dtDest t') = nID (dtDest t) ∧ dtFlags t' = dtFlags t ∧
  (dtResolveDelay t' = 0 ∨ initialResolveDelay ≤ dtResolveDelay t' ≤ maxResolveDelay) ∧
  (ok = true → found = Some (dtDest t') ∧ dtResolveDelay t' = initialResolveDelay).
Proof.
  intros Hid Hd. unfold resolve. destruct ntab; [|done]. cbn [negb].
  set (delay := if dtResolveDelay t =? 0 then initialResolveDelay else dtResolveDelay t).
  assert (Hdelay : initialResolveDelay ≤ delay ≤ maxResolveDelay).
  { unfold delay. destruct (Z.eqb_spec (dtResolveDelay t) 0); [unfold initialResolveDelay, maxResolveDelay, second; lia|lia]. }
  clearbody delay. cbn [dtLastResolved dtFlags dtDest dtNodeType]. destruct (_ <? _); [cbn; split; [done|]; split; [done|]; split; [by right|done]|].
  destruct found as [n|]; cbn.
  - split; [by apply Hid|]. split; [done|]. split; [|done]. right. unfold initialResolveDelay, maxResolveDelay, second. lia.
  - split; [done|]. split; [done|]. split; [|done]. right. destruct (Z.ltb_spec maxResolveDelay (delay * 2)); unfold initialResolveDelay, maxResolveDelay, second in *; lia.
Qed.

(** A task dials only nodes with the identifier it was made for, at most two. *)
Lemma Do_spec ntab dial r1 r2 t :
  (∀ n, r1.2 = Some n → nID n = nID (dtDest t)) → (∀ n, r2.2 = Some n → nID n = nID (dtDest t)) →
  (dtResolveDelay t = 0 ∨ initialResolveDelay ≤ dtResolveDelay t ≤ maxResolveDelay) →
  let '(t', dialed) := Do ntab dial r1 r2 t in
  nID (dtDest t') = nID (dtDest t) ∧ dtFlags t' = dtFlags t ∧
  Forall (fun n => nID n = nID (dtDest t)) dialed ∧ (length dialed ≤ 2)%nat.
Proof.
  intros H1 H2 Hd. unfold Do.
  assert (Hfirst : let '(t1, go) := if Incomplete (dtDest t) then resolve ntab t r1.1.1 r1.1.2 r1.2 else (t, true) in
    nID (dtDest t1) = nID (dtDest t) ∧ dtFlags t1 = dtFlags t ∧
    (dtResolveDelay t1 = 0 ∨ initialResolveDelay ≤ dtResolveDelay t1 ≤ maxResolveDelay)).
  { destruct (Incomplete _); [|done]. pose proof (resolve_spec ntab t r1.1.1 r1.1.2 r1.2 H1 Hd) as Hr.
    destruct (resolve _ _ _ _ _) as [t1 go]. tauto. }
  destruct (if Incomplete (dtDest t) then _ else _) as [t1 go]. destruct Hfirst as (E1 & E2 & E3).
  destruct go; cbn [negb]; [|split; [done|]; split; [done|]; split; [constructor|cbn; lia]].
  destruct (negb (dial (dtDest t1)) && _).
  - pose proof (resolve_spec ntab t1 r2.1.1 r2.1.2 r2.2 ltac:(intros n Hn; rewrite E1; by apply H2) E3) as Hr.
    destruct (resolve _ _ _ _ _) as [t2 ok]. destruct Hr as (F1 & F2 & _).
    destruct ok; (split; [congruence|]; split; [congruence|]; split; [repeat constructor; congruence|cbn; lia]).
  - split; [done|]. split; [done|]. split; [by repeat constructor|cbn; lia].
Qed.

(** A round of the scheduler does not panic.  The nodes it dials are not being dialed,
    not connected and not in the history (from which exactly the expired entries are gone),
    and none is dialed twice; afterwards the nodes being dialed are those of before and the
    new ones; dynamic dials are added only while they and the dynamic connections are
    fewer than the maximum; a lookup starts only if none is running; a wait is never
    scheduled beside another task, and not for a time in the past. *)
Theorem newTasks_spec {T} `{DiscoverTable T} s nRunning peers now order (ntab : T) rand : dialOK s →
  order ≡ₚ map_to_list (static s) → (∀ k, (0 < k)%nat → (rand k < k)%nat) →
  ∃ s' ts, newTasks s nRunning peers now order ntab rand = Ret (s', ts) ∧ dialOK s' ∧
    hist s' ≡ₚ filter (fun v => now ≤ pdExp v) (hist s) ∧ NoDup (dials s' ts).*1 ∧
    (∀ id, id ∈ (dials s' ts).*1 → dialing s !! id = None ∧ peers !! id = None ∧ id ∉ pdID <$> hist s') ∧
    (∀ id f, dialing s' !! id = Some f ↔ (id, f) ∈ dials s' ts ∨ dialing s !! id = Some f) ∧
    dynTotal s' peers ≤ Z.max (dynTotal s peers) (maxDynDials s) ∧
    (length (List.filter isDiscover ts) ≤ if lookupRunning s then 0 else 1)%nat ∧
    (∀ ref d, TWait ref d ∈ ts → nRunning = 0%nat ∧ ts = [TWait ref d] ∧ 0 ≤ d).
Proof.
  intros Hok Ho Hr. destruct (newTasks_ok s nRunning peers now order ntab rand Hok) as (s' & ts & E & N); [|done|].
  { intros id ref Hin. rewrite Ho in Hin. by apply elem_of_map_to_list. }
  exists s', ts. split; [done|]. by destruct N.
Qed.

(** A server with one static node, a table of three nodes and one node in the lookup buffer. *)
Definition exDial : dialstate := addStatic {|
  maxDynDials := 4; lookupRunning := false; dialing := ∅; lookupBuf := [exNode 6];
  randomNodes := replicate 2 None; static := ∅; hist := []; dsStore := ∅; dsNext := 0 |} (exNode 5).

Definition exTab : Table := Build_Table [[exNode 1]; [exNode 2; exNode 3]] [] (exNode 0) ∅.

Lemma exDial_OK : dialOK exDial.
Proof.
  apply addStatic_OK. split; cbn; [lia|reflexivity|apply heap_nil|..].
  - intros id ref Hid. by rewrite lookup_empty in Hid.
  - intros ref t Ht. by rewrite lookup_empty in Ht.
Qed.

Lemma newTasks_spec_witness :
  ∃ s' ts, newTasks exDial 0 ∅ 0 (map_to_list (static exDial)) exTab (fun _ => 0%nat) = Ret (s', ts) ∧ dialOK s' ∧
    hist s' ≡ₚ filter (fun v => 0 ≤ pdExp v) (hist exDial) ∧ NoDup (dials s' ts).*1 ∧
    (∀ id, id ∈ (dials s' ts).*1 → dialing exDial !! id = None ∧ (∅ : Peers) !! id = None ∧ id ∉ pdID <$> hist s') ∧
    (∀ id f, dialing s' !! id = Some f ↔ (id, f) ∈ dials s' ts ∨ dialing exDial !! id = Some f) ∧
    dynTotal s' ∅ ≤ Z.max (dynTotal exDial ∅) (maxDynDials exDial) ∧
    (length (List.filter isDiscover ts) ≤ if lookupRunning exDial then 0 else 1)%nat ∧
    (∀ ref d, TWait ref d ∈ ts → 0%nat = 0%nat ∧ ts = [TWait ref d] ∧ 0 ≤ d).
Proof.
  refine (newTasks_spec exDial 0 ∅ 0 (map_to_list (static exDial)) exTab (fun _ => 0%nat) exDial_OK _ _).
  - reflexivity.
  - intros k Hk. exact Hk.
Defined.

(** The round of the example: the static node, two random nodes of the table, the node of
    the lookup buffer. *)
Lemma exDial_round :
  (fun r => (dials r.1 r.2).*2) <$> (match newTasks exDial 0 ∅ 0 (map_to_list (static exDial)) exTab (fun _ => 0%nat) with
                            | Ret r => Some r | _ => None end) = Some [staticDialedConn; dynDialedConn; dynDialedConn; dynDialedConn].
Proof. vm_compute. reflexivity. Qed.
