(* ===== verification/Subprotocols.v ===== *)
(** * Sub-protocols of a connection

    [src/p2p/peer.go] and [src/p2p/protocol.go]: the two ends of a connection match the
    protocols they run against the capabilities the other announced, give each a range of
    message codes ([matchProtocols]), and route the messages read by their code
    ([handle], [getProto]; [WriteMsg] and [ReadMsg] of a protocol shift the code).  The
    codes are uint64.

    Properties: the highest common version of each protocol runs, and the ranges do not
    overlap ([matchProtocols_ranges]); the two ends agree on the ranges, so a message
    written by a protocol is read by the same protocol at the other end with the same code
    ([subprotocol_roundtrip]). *)

From stdpp Require Import base gmap sets list strings sorting.
From Stdlib Require Import ZArith Lia Ascii.
From S2P Require Import Prelude Common.
Local Open Scope Z_scope.

Record Cap := {
  capName : string;
  capVersion : Z
}.

#[export] Instance Cap_eq_dec : EqDecision Cap.
Proof. solve_decision. Defined.

(** The fields of [Protocol] that matter here; [Run] is elsewhere. *)
Record Proto := {
  pName : string;
  pVersion : Z;
  pLength : Z
}.

Definition protoCap (p : Proto) : Cap := {| capName := pName p; capVersion := pVersion p |}.

Definition baseProtocolLength : Z := 17.

(** [<] on strings: bytewise. *)
Fixpoint strLt (a b : string) : bool :=
  match a, b with
  | EmptyString, EmptyString => false
  | EmptyString, String _ _ => true
  | String _ _, EmptyString => false
  | String x a, String y b =>
      let x := N_of_ascii x in
      let y := N_of_ascii y in
      if N.ltb x y then true else if N.eqb x y then strLt a b else false
  end.

(** [capsByNameAndVersion.Less]. *)
Definition capLess (a b : Cap) : bool :=
  strLt (capName a) (capName b) || (bool_decide (capName a = capName b) && (capVersion a <? capVersion b)).

(** The order [sort.Sort] establishes: nothing behind is less. *)
Definition capLe (a b : Cap) : Prop := capLess b a = false.

#[export] Instance capLe_dec : RelDecision capLe.
Proof. intros a b. unfold capLe. apply _. Defined.

Definition sortCaps (caps : list Cap) : list Cap := merge_sort capLe caps.

Definition countMatchingProtocols (protocols : list Proto) (caps : list Cap) : nat :=
  foldl (fun n c => n + length (List.filter (fun p => bool_decide (protoCap p = c)) protocols))%nat 0%nat caps.

(** A protocol with its first code. *)
Record protoRW := {
  rwProto : Proto;
  rwOffset : Z
}.

Fixpoint matchLoop (protocols : list Proto) (caps : list Cap) (offset : Z) (result : gmap string protoRW) : gmap string protoRW :=
  match caps with
  | [] => result
  | c :: caps =>
      match List.find (fun p => bool_decide (protoCap p = c)) protocols with
      | None => matchLoop protocols caps offset result
      | Some proto =>
          let offset := match result !! capName c with
                        | Some old => u64 (offset - pLength (rwProto old))
                        | None => offset
                        end in
          matchLoop protocols caps (u64 (offset + pLength proto))
            (<[capName c := {| rwProto := proto; rwOffset := offset |}]> result)
      end
  end.

Definition matchProtocols (protocols : list Proto) (caps : list Cap) : gmap string protoRW :=
  matchLoop protocols (sortCaps caps) baseProtocolLength ∅.

(** [getProto], for the order in which the map is walked. *)
Definition getProto (running : list (string * protoRW)) (code : Z) : option (string * protoRW) :=
  List.find (fun p => (rwOffset p.2 <=? code) && (code <? u64 (rwOffset p.2 + pLength (rwProto p.2)))) running.

Definition discMsg : Z := 1.
Definition pingMsg : Z := 2.

(** What [handle] does with a message. *)
Inductive Handled :=
  | HPong
  | HDisconnect
  | HIgnore
  | HProto (name : string) (code : Z)
  | HError (e : string).

(** [handle], and the code as [ReadMsg] of the protocol returns it. *)
Definition handle (running : list (string * protoRW)) (code : Z) : Handled :=
  if code =? pingMsg then HPong
  else if code =? discMsg then HDisconnect
  else if code <? baseProtocolLength then HIgnore
  else
    match getProto running code with
    | None => HError "msg code out of range"
    | Some (name, rw) => HProto name (u64 (code - rwOffset rw))
    end.

(** [WriteMsg]: the code on the wire. *)
Definition WriteMsg (rw : protoRW) (code : Z) : result Z :=
  if pLength (rwProto rw) <=? code then Err "not handled" else Ok (u64 (code + rwOffset rw)).

(** ** The order of capabilities *)

Lemma strLt_irrefl a : strLt a a = false.
Proof. induction a as [|x a IH]; cbn; [done|]. rewrite N.ltb_irrefl, N.eqb_refl. done. Qed.

Lemma strLt_trans a b c : strLt a b = true → strLt b c = true → strLt a c = true.
Proof.
  revert b c. induction a as [|x a IH]; intros [|y b] [|z c]; cbn; try done.
  destruct (N.ltb_spec (N_of_ascii x) (N_of_ascii y)), (N.ltb_spec (N_of_ascii y) (N_of_ascii z)),
    (N.ltb_spec (N_of_ascii x) (N_of_ascii z)), (N.eqb_spec (N_of_ascii x) (N_of_ascii y)),
    (N.eqb_spec (N_of_ascii y) (N_of_ascii z)), (N.eqb_spec (N_of_ascii x) (N_of_ascii z)); try done; try lia.
  apply IH.
Qed.

Lemma strLt_total a b : strLt a b = true ∨ a = b ∨ strLt b a = true.
Proof.
  revert b. induction a as [|x a IH]; intros [|y b]; cbn; [tauto..|].
  destruct (N.ltb_spec (N_of_ascii x) (N_of_ascii y)); [tauto|].
  destruct (N.ltb_spec (N_of_ascii y) (N_of_ascii x)); [tauto|].
  assert (Hxy : N_of_ascii x = N_of_ascii y) by lia. rewrite Hxy, N.eqb_refl.
  assert (x = y) as -> by (by rewrite <- (ascii_N_embedding x), Hxy, ascii_N_embedding).
  destruct (IH b) as [?|[->|?]]; tauto.
Qed.

Lemma capLess_trans a b c : capLess a b = true → capLess b c = true → capLess a c = true.
Proof.
  unfold capLess. rewrite !orb_true_iff, !andb_true_iff, !bool_decide_eq_true, !Z.ltb_lt.
  intros [H1|[H1 H2]] [H3|[H3 H4]].
  - left. by eapply strLt_trans.
  - left. by rewrite <- H3.
  - left. by rewrite H1.
  - right. split; [congruence|lia].
Qed.

Lemma capLess_total a b : capLess a b = true ∨ a = b ∨ capLess b a = true.
Proof.
  destruct a as [n v], b as [m w]. unfold capLess. cbn. rewrite !orb_true_iff, !andb_true_iff, !bool_decide_eq_true, !Z.ltb_lt.
  destruct (strLt_total n m) as [?|[->|?]]; [tauto| |tauto]. destruct (Z.lt_trichotomy v w) as [?|[->|?]]; tauto.
Qed.

Lemma capLess_irrefl a : capLess a a = false.
Proof. unfold capLess. rewrite strLt_irrefl, Z.ltb_irrefl. by rewrite andb_false_r. Qed.

#[export] Instance capLe_total : Total capLe.
Proof.
  intros a b. unfold capLe. destruct (capLess b a) eqn:H1; [|by left]. right. destruct (capLess a b) eqn:H2; [|done].
  pose proof (capLess_trans _ _ _ H1 H2) as H. by rewrite capLess_irrefl in H.
Qed.

#[export] Instance capLe_trans : Transitive capLe.
Proof.
  intros a b c H1 H2. unfold capLe in *. destruct (capLess c a) eqn:H; [|done].
  destruct (capLess_total a b) as [Hab|[->|Hab]]; [|congruence..].
  pose proof (capLess_trans _ _ _ H Hab). congruence.
Qed.

Lemma sortCaps_sorted caps : StronglySorted capLe (sortCaps caps).
Proof. apply StronglySorted_merge_sort; apply _. Qed.

Lemma sortCaps_Permutation caps : sortCaps caps ≡ₚ caps.
Proof. apply merge_sort_Permutation. Qed.

(** ** The ranges *)

(** The protocols that match, in the order of the capabilities. *)
Definition matched (protocols : list Proto) (caps : list Cap) : list Proto :=
  omap (fun c => List.find (fun p => bool_decide (protoCap p = c)) protocols) caps.

Fixpoint assign (ps : list Proto) (offset : Z) (result : gmap string protoRW) : gmap string protoRW :=
  match ps with
  | [] => result
  | p :: ps =>
      let offset := match result !! pName p with Some old => u64 (offset - pLength (rwProto old)) | None => offset end in
      assign ps (u64 (offset + pLength p)) (<[pName p := {| rwProto := p; rwOffset := offset |}]> result)
  end.

Lemma find_cap protocols c p : List.find (fun p => bool_decide (protoCap p = c)) protocols = Some p → p ∈ protocols ∧ protoCap p = c.
Proof. intros [Hin Hc%bool_decide_eq_true_1]%find_some. by rewrite list_elem_of_In. Qed.

Lemma matchLoop_assign protocols caps offset result :
  matchLoop protocols caps offset result = assign (matched protocols caps) offset result.
Proof.
  revert offset result. induction caps as [|c caps IH]; intros offset result; cbn; [done|].
  destruct (List.find _ _) as [p|] eqn:Hf; cbn; [|apply IH]. apply find_cap in Hf as [_ <-]. cbn. apply IH.
Qed.

(** The ranges one after the other, the last one in front. *)
Inductive chain : list protoRW → Z → Prop :=
  | chain_nil : chain [] baseProtocolLength
  | chain_cons rw es : chain es (rwOffset rw) → chain (rw :: es) (rwOffset rw + pLength (rwProto rw)).

Notation rwName := (fun rw => pName (rwProto rw)).

Definition total (ps : list Proto) : Z := foldr (fun p n => pLength p + n) 0 ps.

Lemma chain_total es offset : chain es offset → offset = baseProtocolLength + total (rwProto <$> es).
Proof.
  induction 1 as [|rw es _ IH]; [done|].
  change (total (rwProto <$> rw :: es)) with (pLength (rwProto rw) + total (rwProto <$> es)). lia.
Qed.

Lemma total_app a b : total (a ++ b) = total a + total b.
Proof. unfold total. induction a as [|p a IH]; [done|]. cbn. rewrite IH. lia. Qed.

#[export] Instance total_Permutation : Proper (Permutation ==> eq) total.
Proof. intros a b. induction 1 as [|p a b _ IH|p q a|a b c _ IH1 _ IH2]; cbn [total foldr]; [done|by f_equal|fold (total a); lia|congruence]. Qed.

Lemma total_nonneg ps : Forall (fun p => 0 ≤ pLength p) ps → 0 ≤ total ps.
Proof. induction 1 as [|p ps Hp _ IH]; [done|]. change (total (p :: ps)) with (pLength p + total ps). lia. Qed.

(** Distinct protocols of a list are not longer than the list. *)
Lemma total_submseteq a b : a ⊆+ b → Forall (fun p => 0 ≤ pLength p) b → total a ≤ total b.
Proof.
  intros [k ->]%submseteq_Permutation Hf. rewrite total_app. apply Forall_app in Hf as [_ Hf]. pose proof (total_nonneg _ Hf). lia.
Qed.

Section Assign.
  Context (protocols : list Proto).
  Context (Hlen : Forall (fun p => 0 ≤ pLength p) protocols) (Hfit : baseProtocolLength + total protocols < two64).

(** The state of the loop: [es] are the ranges, [seen] the protocols so far. *)
Record assigned (seen : list Proto) (es : list protoRW) (offset : Z) (result : gmap string protoRW) : Prop := {
  as_chain : chain es offset;
  as_map : result = list_to_map ((fun rw => (rwName rw, rw)) <$> es);
  as_sorted : StronglySorted (fun a b => strLt (rwName b) (rwName a) = true) es;
  as_seen : ∀ rw, rw ∈ es → rwProto rw ∈ seen;
  as_best : ∀ p, p ∈ seen → ∃ rw, rw ∈ es ∧ rwName rw = pName p ∧ pVersion p ≤ pVersion (rwProto rw);
  as_in : ∀ p, p ∈ seen → p ∈ protocols
}.

Lemma sorted_names es : StronglySorted (fun a b => strLt (rwName b) (rwName a) = true) es → NoDup (rwName <$> es).
Proof.
  induction 1 as [|rw es _ IH Hf]; [apply NoDup_nil_2|]. rewrite fmap_cons. constructor; [|done].
  intros (rw' & Hn & Hin)%list_elem_of_fmap. rewrite Forall_forall in Hf. specialize (Hf _ Hin). cbn in Hf, Hn.
  by rewrite Hn, strLt_irrefl in Hf.
Qed.

Lemma names_NoDup es : NoDup (rwName <$> es) → NoDup (rwProto <$> es).
Proof.
  intros Hn. apply (NoDup_fmap_1 pName). by rewrite <- list_fmap_compose.
Qed.

Lemma assigned_fits seen es offset result : assigned seen es offset result → baseProtocolLength ≤ offset < two64.
Proof.
  intros [A1 A2 A3 A4 A5 A6]. rewrite (chain_total _ _ A1).
  assert (Hsub : rwProto <$> es ⊆+ protocols).
  { apply NoDup_submseteq; [by apply names_NoDup, sorted_names|]. intros p (rw & -> & Hin)%list_elem_of_fmap. by apply A6, A4. }
  pose proof (total_submseteq _ _ Hsub Hlen). apply submseteq_Permutation in Hsub as [k Hk].
  pose proof Hlen as Hl. rewrite Hk in Hl. apply Forall_app in Hl as [Hl _]. pose proof (total_nonneg _ Hl). lia.
Qed.

Lemma result_lookup es n rw : NoDup (rwName <$> es) →
  (list_to_map ((fun rw => (rwName rw, rw)) <$> es) : gmap string protoRW) !! n = Some rw ↔ rw ∈ es ∧ rwName rw = n.
Proof.
  intros Hn. rewrite <- elem_of_list_to_map by (by rewrite <- list_fmap_compose).
  rewrite list_elem_of_fmap. split; [intros (x & [= -> ->] & Hx); done|]. intros [Hx <-]. by exists rw.
Qed.

Lemma capLe_name a b : capLe a b → capName a = capName b ∨ strLt (capName a) (capName b) = true.
Proof.
  unfold capLe, capLess. rewrite orb_false_iff. intros [H _]. destruct (strLt_total (capName a) (capName b)) as [?|[?|?]]; [tauto..|congruence].
Qed.

Lemma capLe_version a b : capLe a b → capName a = capName b → capVersion a ≤ capVersion b.
Proof.
  unfold capLe, capLess. rewrite orb_false_iff. intros [_ H] Hn. rewrite bool_decide_true in H by done. cbn in H.
  by apply Z.ltb_ge in H.
Qed.

(** A protocol of a new name goes behind the others. *)
Lemma assign_new seen es offset result p : assigned seen es offset result → p ∈ protocols →
  (∀ rw, rw ∈ es → capLe (protoCap (rwProto rw)) (protoCap p)) → result !! pName p = None →
  assigned (seen ++ [p]) ({| rwProto := p; rwOffset := offset |} :: es) (offset + pLength p)
    (<[pName p := {| rwProto := p; rwOffset := offset |}]> result).
Proof.
  intros [A1 A2 A3 A4 A5 A6] Hp Hle Hnone. set (new := {| rwProto := p; rwOffset := offset |}). split.
  - by apply (chain_cons new).
  - by rewrite A2.
  - constructor; [done|]. apply Forall_forall. intros rw Hrw. destruct (capLe_name _ _ (Hle rw Hrw)) as [Hn|]; [|done].
    rewrite A2 in Hnone. apply not_elem_of_list_to_map in Hnone. destruct Hnone. rewrite <- list_fmap_compose.
    apply list_elem_of_fmap. exists rw. done.
  - intros rw [->|Hrw]%elem_of_cons; [set_solver|]. apply elem_of_app. left. by apply A4.
  - intros q [Hq|Hq]%elem_of_app.
    + destruct (A5 q Hq) as (rw & Hrw & ?). exists rw. split; [by right|done].
    + apply list_elem_of_singleton in Hq as ->. exists new. split; [left|]. split; [done|cbn; lia].
  - intros q [Hq|Hq]%elem_of_app; [by apply A6|]. by apply list_elem_of_singleton in Hq as ->.
Qed.

(** A later version of the last name takes its place. *)
Lemma assign_again seen es offset result p old : assigned seen es offset result → p ∈ protocols →
  (∀ rw, rw ∈ es → capLe (protoCap (rwProto rw)) (protoCap p)) → result !! pName p = Some old →
  offset - pLength (rwProto old) = rwOffset old ∧ baseProtocolLength ≤ rwOffset old ≤ offset ∧
  ∃ es', assigned (seen ++ [p]) es' (rwOffset old + pLength p)
    (<[pName p := {| rwProto := p; rwOffset := rwOffset old |}]> result) ∧
    ∀ rw, rw ∈ es' → rw ∈ es ∨ rwProto rw = p.
Proof.
  intros HA Hp Hle Hold. pose proof (assigned_fits _ _ _ _ HA) as Hfits. destruct HA as [A1 A2 A3 A4 A5 A6].
  pose proof (sorted_names _ A3) as Hnd. rewrite A2 in Hold. apply (result_lookup es) in Hold as [Hin Hname]; [|done].
  destruct es as [|h es]; [by apply elem_of_nil in Hin|]. apply StronglySorted_inv in A3 as [A3 Hh]. rewrite Forall_forall in Hh.
  assert (old = h) as ->.
  { apply elem_of_cons in Hin as [?|Hin]; [done|]. specialize (Hh _ Hin). cbn in Hh, Hname.
    destruct (capLe_name _ _ (Hle h ltac:(left))) as [Hn|Hn]; cbn in Hn.
    - rewrite Hn, Hname in Hh. by rewrite strLt_irrefl in Hh.
    - rewrite Hname in Hh. pose proof (strLt_trans _ _ _ Hh Hn) as H. by rewrite strLt_irrefl in H. }
  inversion A1 as [|h' es' A1' E1 E2]. subst h' es'.
  assert (Hbase : baseProtocolLength ≤ rwOffset h).
  { rewrite (chain_total _ _ A1'). assert (0 ≤ total (rwProto <$> es)); [|lia]. apply total_nonneg, Forall_forall.
    intros q (rw & -> & Hrw)%list_elem_of_fmap. rewrite Forall_forall in Hlen. apply Hlen, A6, A4. by right. }
  assert (Hlh : 0 ≤ pLength (rwProto h)).
  { rewrite Forall_forall in Hlen. apply Hlen, A6, A4. left. }
  split; [lia|]. split; [lia|]. set (new := {| rwProto := p; rwOffset := rwOffset h |}). exists (new :: es). split.
  2:{ intros rw [->|Hrw]%elem_of_cons; [by right|]. left. by right. }
  split.
  - by apply (chain_cons new).
  - rewrite A2. cbn. cbn in Hname. rewrite Hname. by rewrite insert_insert_eq.
  - constructor; [done|]. apply Forall_forall. intros rw Hrw. specialize (Hh _ Hrw). cbn in Hh, Hname |- *. by rewrite <- Hname.
  - intros rw [->|Hrw]%elem_of_cons; [set_solver|]. apply elem_of_app. left. apply A4. by right.
  - intros q [Hq|Hq]%elem_of_app.
    + destruct (A5 q Hq) as (rw & [->|Hrw]%elem_of_cons & Hn & Hv).
      * exists new. split; [left|]. cbn in Hn, Hname |- *. split; [congruence|].
        pose proof (capLe_version _ _ (Hle h ltac:(left)) Hname) as Hver. cbn in Hver. lia.
      * exists rw. split; [by right|done].
    + apply list_elem_of_singleton in Hq as ->. exists new. split; [left|]. split; [done|cbn; lia].
  - intros q [Hq|Hq]%elem_of_app; [by apply A6|]. by apply list_elem_of_singleton in Hq as ->.
Qed.

Lemma assign_spec ps seen es offset result : assigned seen es offset result →
  StronglySorted (fun p q => capLe (protoCap p) (protoCap q)) ps → (∀ p, p ∈ ps → p ∈ protocols) →
  (∀ rw p, rw ∈ es → p ∈ ps → capLe (protoCap (rwProto rw)) (protoCap p)) →
  ∃ es' offset', assigned (seen ++ ps) es' offset' (assign ps offset result).
Proof.
  intros HA Hs. revert seen es offset result HA. induction Hs as [|p ps Hs IH Hf]; intros seen es offset result HA Hin Hle.
  { exists es, offset. cbn. by rewrite app_nil_r. }
  rewrite Forall_forall in Hf. cbn [assign]. change (p :: ps) with ([p] ++ ps). rewrite app_assoc.
  assert (Hp : p ∈ protocols) by (apply Hin; left).
  destruct (result !! pName p) as [old|] eqn:Hold.
  - destruct (assign_again seen es offset result p old HA Hp) as (E & Hb & es' & HA' & Hes'); [intros; apply Hle; [done|left]|done|].
    pose proof (assigned_fits _ _ _ _ HA) as Hfits. pose proof (assigned_fits _ _ _ _ HA') as Hfits'.
    rewrite E, (u64_small (rwOffset old)) by (unfold is_u64, baseProtocolLength in *; lia).
    rewrite u64_small by (unfold is_u64, baseProtocolLength in *; lia). apply (IH _ es'); [done|intros; apply Hin; by right|].
    intros rw q Hrw Hq. destruct (Hes' rw Hrw) as [Hrw'| ->]; [apply Hle; [done|by right]|by apply Hf].
  - pose proof (assign_new seen es offset result p HA Hp ltac:(intros; apply Hle; [done|left]) Hold) as HA'.
    pose proof (assigned_fits _ _ _ _ HA') as Hfits'.
    rewrite u64_small by (unfold is_u64, baseProtocolLength in *; lia). apply (IH _ _ _ _ HA'); [intros; apply Hin; by right|].
    intros rw q [->|Hrw]%elem_of_cons Hq; [by apply Hf|]. apply Hle; [done|by right].
Qed.

Lemma assigned_nil : assigned [] [] baseProtocolLength ∅.
Proof. split; [constructor|done|constructor|set_solver..]. Qed.

(** Ranges in a chain do not overlap. *)
Lemma chain_below es offset rw : chain es offset → (∀ rw, rw ∈ es → 0 ≤ pLength (rwProto rw)) → rw ∈ es →
  baseProtocolLength ≤ rwOffset rw ∧ rwOffset rw + pLength (rwProto rw) ≤ offset.
Proof.
  intros Hc Hl. revert rw. induction Hc as [|h es Hc IH]; intros rw Hin; [by apply elem_of_nil in Hin|].
  assert (Hl' : ∀ rw, rw ∈ es → 0 ≤ pLength (rwProto rw)) by (intros; apply Hl; by right).
  pose proof (Hl h ltac:(left)). apply elem_of_cons in Hin as [->|Hin]; [|specialize (IH Hl' _ Hin); lia].
  split; [|lia]. rewrite (chain_total _ _ Hc). assert (0 ≤ total (rwProto <$> es)); [|lia].
  apply total_nonneg, Forall_forall. intros q (x & -> & Hx)%list_elem_of_fmap. by apply Hl'.
Qed.

Lemma chain_disjoint es offset a b : chain es offset → (∀ rw, rw ∈ es → 0 ≤ pLength (rwProto rw)) → a ∈ es → b ∈ es → a ≠ b →
  rwOffset a + pLength (rwProto a) ≤ rwOffset b ∨ rwOffset b + pLength (rwProto b) ≤ rwOffset a.
Proof.
  intros Hc Hl. induction Hc as [|h es Hc IH]; intros Ha Hb Hne; [by apply elem_of_nil in Ha|].
  assert (Hl' : ∀ rw, rw ∈ es → 0 ≤ pLength (rwProto rw)) by (intros; apply Hl; by right).
  apply elem_of_cons in Ha as [->|Ha], Hb as [->|Hb]; [done|..].
  - right. by apply (chain_below es).
  - left. by apply (chain_below es).
  - by apply IH.
Qed.

End Assign.

Lemma matched_elem protocols caps p : p ∈ matched protocols caps → p ∈ protocols ∧ protoCap p ∈ caps.
Proof. intros (c & Hc & Hf)%list_elem_of_omap. apply find_cap in Hf as [? <-]. done. Qed.

(** Each announced protocol is matched, by one of the same name and version. *)
Lemma matched_cap protocols caps p : p ∈ protocols → protoCap p ∈ caps → ∃ q, q ∈ matched protocols caps ∧ protoCap q = protoCap p.
Proof.
  intros Hp Hc. destruct (List.find (fun q => bool_decide (protoCap q = protoCap p)) protocols) as [q|] eqn:Hf.
  - exists q. split; [|by apply find_cap in Hf as [_ ?]]. apply list_elem_of_omap. by exists (protoCap p).
  - pose proof (find_none _ _ Hf p ltac:(by apply list_elem_of_In)) as Hn. cbn in Hn. by rewrite bool_decide_true in Hn.
Qed.

Lemma matched_sorted protocols caps : StronglySorted capLe caps →
  StronglySorted (fun p q => capLe (protoCap p) (protoCap q)) (matched protocols caps).
Proof.
  induction 1 as [|c caps _ IH Hf]; cbn; [constructor|]. unfold matched in *. cbn.
  destruct (List.find _ _) as [p|] eqn:E; [|done]. constructor; [done|]. apply find_cap in E as [_ <-].
  apply Forall_forall. intros q Hq. rewrite Forall_forall in Hf. apply Hf. by apply matched_elem in Hq as [_ ?].
Qed.

(** The result of [matchProtocols] as a chain of ranges. *)
Lemma matchProtocols_assigned protocols caps : Forall (fun p => 0 ≤ pLength p) protocols →
  baseProtocolLength + total protocols < two64 →
  ∃ es offset, assigned protocols (matched protocols (sortCaps caps)) es offset (matchProtocols protocols caps).
Proof.
  intros Hl Hf. unfold matchProtocols. rewrite matchLoop_assign.
  destruct (assign_spec protocols Hl Hf (matched protocols (sortCaps caps)) [] [] baseProtocolLength ∅) as (es & offset & HA).
  - by apply assigned_nil.
  - apply matched_sorted, sortCaps_sorted.
  - intros p Hp. by apply matched_elem in Hp as [? _].
  - intros rw p Hrw. by apply elem_of_nil in Hrw.
  - by exists es, offset.
Qed.

(** The ranges, without the versions. *)
Lemma matchProtocols_facts protocols caps : Forall (fun p => 0 ≤ pLength p) protocols →
  baseProtocolLength + total protocols < two64 →
  let running := matchProtocols protocols caps in
  (∀ n rw, running !! n = Some rw → rwProto rw ∈ protocols ∧ protoCap (rwProto rw) ∈ caps ∧
     baseProtocolLength ≤ rwOffset rw ∧ rwOffset rw + pLength (rwProto rw) < two64) ∧
  (∀ n m rw rw', running !! n = Some rw → running !! m = Some rw' → n ≠ m →
     rwOffset rw + pLength (rwProto rw) ≤ rwOffset rw' ∨ rwOffset rw' + pLength (rwProto rw') ≤ rwOffset rw).
Proof.
  intros Hl Hf running. destruct (matchProtocols_assigned protocols caps Hl Hf) as (es & offset & HA).
  fold running in HA. pose proof (assigned_fits _ Hl Hf _ _ _ _ HA) as Hfits. destruct HA as [A1 A2 A3 A4 A5 A6].
  assert (Hlook : ∀ n rw, running !! n = Some rw ↔ rw ∈ es ∧ rwName rw = n) by (intros; rewrite A2; by apply result_lookup, sorted_names).
  assert (Hles : ∀ rw, rw ∈ es → 0 ≤ pLength (rwProto rw)) by (intros rw Hrw; rewrite Forall_forall in Hl; by apply Hl, A6, A4).
  split.
  - intros n rw [Hin Hn]%Hlook. destruct (chain_below _ _ _ A1 Hles Hin) as [B1 B2].
    destruct (matched_elem _ _ _ (A4 rw Hin)) as [C1 C2]. rewrite sortCaps_Permutation in C2. repeat (split; [done|]). lia.
  - intros n m rw rw' [H1 H1']%Hlook [H2 H2']%Hlook Hne. eapply chain_disjoint; eauto. congruence.
Qed.

(** The sub-protocols of a connection: of each name both ends know, the highest common
    version; the code ranges lie behind the base protocol, fit in 64 bits and are
    disjoint. *)
Theorem matchProtocols_ranges protocols caps : Forall (fun p => 0 ≤ pLength p) protocols →
  baseProtocolLength + total protocols < two64 →
  let running := matchProtocols protocols caps in
  (∀ n rw, running !! n = Some rw →
     pName (rwProto rw) = n ∧ rwProto rw ∈ protocols ∧ protoCap (rwProto rw) ∈ caps ∧
     baseProtocolLength ≤ rwOffset rw ∧ rwOffset rw + pLength (rwProto rw) < two64 ∧
     ∀ p, p ∈ protocols → protoCap p ∈ caps → pName p = n → pVersion p ≤ pVersion (rwProto rw)) ∧
  (∀ p, p ∈ protocols → protoCap p ∈ caps → is_Some (running !! pName p)) ∧
  (∀ n m rw rw', running !! n = Some rw → running !! m = Some rw' → n ≠ m →
     rwOffset rw + pLength (rwProto rw) ≤ rwOffset rw' ∨ rwOffset rw' + pLength (rwProto rw') ≤ rwOffset rw).
Proof.
  intros Hl Hf running. destruct (matchProtocols_facts protocols caps Hl Hf) as (F1 & F2). fold running in F1, F2.
  destruct (matchProtocols_assigned protocols caps Hl Hf) as (es & offset & [_ A2 A3 _ A5 _]). fold running in A2.
  assert (Hlook : ∀ n rw, running !! n = Some rw ↔ rw ∈ es ∧ rwName rw = n) by (intros; rewrite A2; by apply result_lookup, sorted_names).
  assert (Hbest : ∀ p, p ∈ protocols → protoCap p ∈ caps → ∃ rw, running !! pName p = Some rw ∧ pVersion p ≤ pVersion (rwProto rw)).
  { intros p Hp Hc. destruct (matched_cap protocols (sortCaps caps) p Hp) as (q & Hq & Hqc); [by rewrite sortCaps_Permutation|].
    destruct (A5 q Hq) as (rw & Hin & Hn & Hv). injection Hqc as Hqn Hqv. exists rw. split; [|lia].
    apply Hlook. split; [done|]. congruence. }
  split; [|split; [|done]].
  - intros n rw Hrw. pose proof Hrw as [_ Hn]%Hlook. destruct (F1 n rw Hrw) as (B1 & B2 & B3 & B4). repeat (split; [done|]).
    intros p Hp Hc <-. destruct (Hbest p Hp Hc) as (rw' & Hr' & ?). congruence.
  - intros p Hp Hc. destruct (Hbest p Hp Hc) as (rw & -> & _). done.
Qed.

Definition exProtos : list Proto := [
  {| pName := "eth"; pVersion := 63; pLength := 17 |};
  {| pName := "eth"; pVersion := 62; pLength := 8 |};
  {| pName := "les"; pVersion := 1; pLength := 15 |}].

Lemma matchProtocols_ranges_witness :
  let running := matchProtocols exProtos (protoCap <$> exProtos) in
  (∀ n rw, running !! n = Some rw →
     pName (rwProto rw) = n ∧ rwProto rw ∈ exProtos ∧ protoCap (rwProto rw) ∈ protoCap <$> exProtos ∧
     baseProtocolLength ≤ rwOffset rw ∧ rwOffset rw + pLength (rwProto rw) < two64 ∧
     ∀ p, p ∈ exProtos → protoCap p ∈ protoCap <$> exProtos → pName p = n → pVersion p ≤ pVersion (rwProto rw)) ∧
  (∀ p, p ∈ exProtos → protoCap p ∈ protoCap <$> exProtos → is_Some (running !! pName p)) ∧
  (∀ n m rw rw', running !! n = Some rw → running !! m = Some rw' → n ≠ m →
     rwOffset rw + pLength (rwProto rw) ≤ rwOffset rw' ∨ rwOffset rw' + pLength (rwProto rw') ≤ rwOffset rw).
Proof. apply (matchProtocols_ranges exProtos (protoCap <$> exProtos)); [repeat constructor; cbn; lia|reflexivity]. Defined.

(** ** Agreement *)

(** The two ends: names and versions are unique at each, and a protocol both have has the
    same length. *)
Record compatible (ps qs : list Proto) : Prop := {
  c_left : NoDup (protoCap <$> ps);
  c_right : NoDup (protoCap <$> qs);
  c_same : ∀ p q, p ∈ ps → q ∈ qs → protoCap p = protoCap q → pLength p = pLength q
}.

Lemma compatible_sym ps qs : compatible ps qs → compatible qs ps.
Proof. intros [C1 C2 C3]. split; [done|done|]. intros p q Hp Hq Hc. symmetry. by apply C3. Qed.

Lemma cap_unique ps p q : NoDup (protoCap <$> ps) → p ∈ ps → q ∈ ps → protoCap p = protoCap q → p = q.
Proof.
  intros Hn (i & Hi)%list_elem_of_lookup_1 (j & Hj)%list_elem_of_lookup_1 Hc.
  assert (i = j) as ->; [|congruence]. eapply (NoDup_lookup (protoCap <$> ps)); [done|..]; rewrite list_lookup_fmap;
    [by rewrite Hi|by rewrite Hj, Hc].
Qed.

(** The protocols matched are those both have. *)
Lemma matched_both ps qs p : compatible ps qs → p ∈ matched ps (sortCaps (protoCap <$> qs)) ↔ p ∈ ps ∧ p ∈ qs.
Proof.
  intros [C1 C2 C3]. split.
  - intros [Hp Hc]%matched_elem. split; [done|]. rewrite sortCaps_Permutation in Hc.
    apply list_elem_of_fmap in Hc as (q & Hc & Hq). specialize (C3 p q Hp Hq Hc). injection Hc as Hn Hv.
    destruct p, q. cbn in *. by subst.
  - intros [Hp Hq]. destruct (matched_cap ps (sortCaps (protoCap <$> qs)) p Hp) as (r & Hr & Hc).
    { rewrite sortCaps_Permutation. by apply list_elem_of_fmap_2. }
    pose proof (matched_elem _ _ _ Hr) as [Hrp _]. by rewrite (cap_unique ps p r).
Qed.

Lemma matched_NoDup ps caps : NoDup caps → NoDup (protoCap <$> matched ps caps).
Proof.
  induction 1 as [|c caps Hc _ IH]; [apply NoDup_nil_2|]. unfold matched in *. cbn.
  destruct (List.find _ _) as [p|] eqn:E; [|done]. rewrite fmap_cons. constructor; [|done]. apply find_cap in E as [_ ->].
  intros (q & -> & Hq)%list_elem_of_fmap. apply matched_elem in Hq as [_ ?]. done.
Qed.

(** Both ends match the same protocols in the same order. *)
Lemma matched_agree ps qs : compatible ps qs →
  matched ps (sortCaps (protoCap <$> qs)) = matched qs (sortCaps (protoCap <$> ps)).
Proof.
  intros HC. pose proof (compatible_sym _ _ HC) as HC'.
  apply (StronglySorted_unique_strong (fun p q => capLe (protoCap p) (protoCap q))).
  - intros p q Hp Hq H1 H2. apply (matched_both _ _ _ HC) in Hp as [Hp _]. apply (matched_both _ _ _ HC') in Hq as [_ Hq].
    apply (cap_unique ps); [apply HC|done|done|]. unfold capLe in *.
    destruct (capLess_total (protoCap p) (protoCap q)) as [?|[?|?]]; congruence.
  - apply matched_sorted, sortCaps_sorted.
  - apply matched_sorted, sortCaps_sorted.
  - apply NoDup_Permutation.
    + apply (NoDup_fmap_1 protoCap), matched_NoDup. rewrite sortCaps_Permutation. apply HC.
    + apply (NoDup_fmap_1 protoCap), matched_NoDup. rewrite sortCaps_Permutation. apply HC.
    + intros p. rewrite (matched_both _ _ _ HC), (matched_both _ _ _ HC'). tauto.
Qed.

Lemma getProto_unique (running : gmap string protoRW) order n rw code :
  order ≡ₚ map_to_list running → running !! n = Some rw →
  (∀ m rw', running !! m = Some rw' → is_u64 (rwOffset rw' + pLength (rwProto rw')) ∧
     (m ≠ n → code < rwOffset rw' ∨ rwOffset rw' + pLength (rwProto rw') ≤ code)) →
  rwOffset rw ≤ code < rwOffset rw + pLength (rwProto rw) → getProto order code = Some (n, rw).
Proof.
  intros Ho Hn Hd Hc. unfold getProto.
  assert (Hin : (n, rw) ∈ order) by (rewrite Ho; by apply elem_of_map_to_list).
  assert (Hall : ∀ m rw', (m, rw') ∈ order → running !! m = Some rw') by (intros m rw'; rewrite Ho; apply elem_of_map_to_list).
  clear Ho. induction order as [|[m rw'] order IH]; [by apply elem_of_nil in Hin|]. cbn.
  pose proof (Hall m rw' ltac:(left)) as Hm. destruct (Hd m rw' Hm) as [Hu Hdis]. rewrite u64_small by done.
  destruct (decide (m = n)) as [->|Hne].
  - assert (rw' = rw) as -> by congruence. rewrite (proj2 (Z.leb_le _ _)), (proj2 (Z.ltb_lt _ _)) by lia. done.
  - specialize (Hdis Hne). replace ((rwOffset rw' <=? code) && (code <? rwOffset rw' + pLength (rwProto rw'))) with false.
    2:{ destruct (Z.leb_spec (rwOffset rw') code), (Z.ltb_spec code (rwOffset rw' + pLength (rwProto rw'))); try done; lia. }
    apply IH.
    + apply elem_of_cons in Hin as [[= -> ->]|?]; done.
    + intros k x Hk. apply Hall. by right.
Qed.

(** C32. The two ends of a connection agree: a message a sub-protocol writes is handed to the
    sub-protocol of the same name and version at the other end, with the code it was
    written with, whatever the order in which the running protocols are walked. *)
Theorem subprotocol_roundtrip ps qs name rw code order : compatible ps qs →
  Forall (fun p => 0 ≤ pLength p) ps → Forall (fun p => 0 ≤ pLength p) qs →
  baseProtocolLength + total ps < two64 → baseProtocolLength + total qs < two64 →
  matchProtocols ps (protoCap <$> qs) !! name = Some rw → 0 ≤ code < pLength (rwProto rw) →
  order ≡ₚ map_to_list (matchProtocols qs (protoCap <$> ps)) →
  ∃ w, WriteMsg rw code = Ok w ∧ handle order w = HProto name code ∧ rwProto rw ∈ qs.
Proof.
  intros HC Hlp Hlq Hfp Hfq Hrw Hcode Ho.
  assert (Heq : matchProtocols qs (protoCap <$> ps) = matchProtocols ps (protoCap <$> qs))
    by (unfold matchProtocols; by rewrite !matchLoop_assign, (matched_agree _ _ HC)).
  rewrite Heq in Ho. clear Heq. destruct (matchProtocols_facts ps (protoCap <$> qs) Hlp Hfp) as (F1 & F2).
  destruct (F1 name rw Hrw) as (Hp & Hq & B1 & B2). apply list_elem_of_fmap in Hq as (q & Hc & Hq).
  exists (code + rwOffset rw). unfold WriteMsg. rewrite (proj2 (Z.leb_gt _ _)) by lia. unfold baseProtocolLength in *.
  rewrite u64_small by (unfold is_u64; lia). split; [done|]. split.
  - unfold handle, pingMsg, discMsg, baseProtocolLength.
    rewrite (proj2 (Z.eqb_neq _ 2)), (proj2 (Z.eqb_neq _ 1)), (proj2 (Z.ltb_ge _ 17)) by lia.
    rewrite (getProto_unique (matchProtocols ps (protoCap <$> qs)) order name rw); [|done|done| |lia].
    + rewrite u64_small by (unfold is_u64; lia). f_equal. lia.
    + intros m rw' Hm. destruct (F1 m rw' Hm) as (Hp' & _ & B1' & B2'). rewrite Forall_forall in Hlp. specialize (Hlp _ Hp').
      split; [unfold is_u64; lia|]. intros Hne. destruct (F2 _ _ _ _ Hrw Hm ltac:(done)); lia.
  - pose proof (c_same _ _ HC _ q Hp Hq Hc) as Hl. injection Hc as Hn Hv. destruct (rwProto rw), q. cbn in *. by subst.
Qed.

Lemma subprotocol_roundtrip_witness :
  ∃ w, WriteMsg {| rwProto := {| pName := "les"; pVersion := 1; pLength := 15 |}; rwOffset := 34 |} 3 = Ok w ∧
    handle (map_to_list (matchProtocols exProtos (protoCap <$> exProtos))) w = HProto "les" 3 ∧
    {| pName := "les"; pVersion := 1; pLength := 15 |} ∈ exProtos.
Proof.
  apply (subprotocol_roundtrip exProtos exProtos "les" {| rwProto := {| pName := "les"; pVersion := 1; pLength := 15 |}; rwOffset := 34 |}
    3 (map_to_list (matchProtocols exProtos (protoCap <$> exProtos)))).
  - assert (Hn : NoDup (protoCap <$> exProtos)) by (apply (bool_decide_unpack _); vm_compute; reflexivity).
    split; [exact Hn|exact Hn|]. intros p q Hp Hq Hc. by rewrite (cap_unique exProtos p q).
  - repeat constructor; cbn; lia.
  - repeat constructor; cbn; lia.
  - reflexivity.
  - reflexivity.
  - vm_compute. reflexivity.
  - cbn. lia.
  - reflexivity.
Defined.
