(* ===== verification/Server.v ===== *)
(** * The peer-to-peer server

    [src/p2p/server.go]: the loop [run] that owns the set of peers, the running and the
    queued tasks, and the dial state; [setupConn] takes a connection through its two
    handshakes, with a check of the loop after each ([encHandshakeChecks],
    [protoHandshakeChecks]).  The loop is a step relation, one step for each case of its
    [select] and one for [scheduleTasks]; connections in their handshakes and running tasks
    are in the state, and what the remote side announces (node type, capabilities) is
    arbitrary.

    Properties: at most 16 tasks run, no two dial the same node, the nodes being dialed are
    exactly those of the tasks, one lookup at a time, and dynamic dials and dynamically
    dialed peers together stay within the maximum; peers that are not trusted, static or
    of type 0 or 4 stay within [MaxPeers] ([server_invariant]); no step panics
    ([schedule_total]).  A remote that announces type 0 or 4 is not checked again: two
    connections of one node are added, and the end of the first removes the entry of the
    second ([moving_peer_lost]). *)

From stdpp Require Import base gmap sets list strings.
From Stdlib Require Import ZArith Lia.
From S2P Require Import Prelude Common Sm3 Discover Table Lookup History Dial Subprotocols.
Local Open Scope Z_scope.

Definition maxActiveDialTasks : nat := 16.

Record conn := {
  cID : bytes;
  cFlags : Z;
  cNodeType : Z;
  cCaps : list Cap
}.

Record Config := {
  cfgMaxPeers : nat;
  cfgTrusted : gset bytes;
  cfgSelf : bytes;
  cfgProtocols : list Proto
}.

(** ** The checks *)

Definition encHandshakeChecks (cfg : Config) (peers : gmap bytes conn) (c : conn) : option string :=
  if negb (hasFlag (cFlags c) (Z.lor trustedConn staticDialedConn)) && Nat.leb (cfgMaxPeers cfg) (size peers) then Some "too many peers"
  else if bool_decide (is_Some (peers !! cID c)) then Some "already connected"
  else if bool_decide (cID c = cfgSelf cfg) then Some "connected to self"
  else None.

Definition protoHandshakeChecks (cfg : Config) (peers : gmap bytes conn) (c : conn) : option string :=
  if (cNodeType c =? 0) || (cNodeType c =? 4) then None
  else if Nat.ltb 0 (length (cfgProtocols cfg)) && Nat.eqb (countMatchingProtocols (cfgProtocols cfg) (cCaps c)) 0 then Some "useless peer"
  else encHandshakeChecks cfg peers c.

(** ** The state of the loop *)

Record server := {
  svPeers : gmap bytes conn;
  svDial : dialstate;
  svRunning : list task;
  svQueued : list task;
  svHandshakes : list (conn * option nat)
}.

Definition svAll (s : server) : list task := svRunning s ++ svQueued s.

(** [startTasks]: the running tasks and the rest. *)
Definition startTasks (running ts : list task) : list task * list task :=
  let k := (maxActiveDialTasks - length running)%nat in (running ++ take k ts, drop k ts).

Section Loop.
  Context {T : Type} `{DiscoverTable T}.

Definition scheduleTasks (s : server) (now : Z) (order : list (bytes * nat)) (ntab : T) (rand : nat → nat) : gores server :=
  let '(running, queued) := startTasks (svRunning s) (svQueued s) in
  if Nat.ltb (length running) maxActiveDialTasks then
    '(d, nt) ← newTasks (svDial s) (length running + length queued) (cFlags <$> svPeers s) now order ntab rand;
    let '(running, rest) := startTasks running nt in
    Ret {| svPeers := svPeers s; svDial := d; svRunning := running; svQueued := queued ++ rest; svHandshakes := svHandshakes s |}
  else Ret {| svPeers := svPeers s; svDial := svDial s; svRunning := running; svQueued := queued; svHandshakes := svHandshakes s |}.

End Loop.

Definition setDial (s : server) (d : dialstate) : server :=
  {| svPeers := svPeers s; svDial := d; svRunning := svRunning s; svQueued := svQueued s; svHandshakes := svHandshakes s |}.

Definition setPeers (s : server) (p : gmap bytes conn) : server :=
  {| svPeers := p; svDial := svDial s; svRunning := svRunning s; svQueued := svQueued s; svHandshakes := svHandshakes s |}.

Definition setHandshakes (s : server) (h : list (conn * option nat)) : server :=
  {| svPeers := svPeers s; svDial := svDial s; svRunning := svRunning s; svQueued := svQueued s; svHandshakes := h |}.

(** [delTask]. *)
Fixpoint delTask (t : task) (running : list task) : list task :=
  match running with
  | [] => []
  | x :: running => if bool_decide (x = t) then running else x :: delTask t running
  end.

Definition runTaskDone (s : server) (t : task) (results : list Node) (now : Z) : gores server :=
  d ← taskDone (svDial s) t results now;
  Ret {| svPeers := svPeers s; svDial := d; svRunning := delTask t (svRunning s); svQueued := svQueued s;
         svHandshakes := svHandshakes s |}.

(** The case of [posthandshake]; [ref] is the dial task the connection belongs to. *)
Definition runPosthandshake (cfg : Config) (s : server) (c : conn) (ref : option nat) : server :=
  let c := if bool_decide (cID c ∈ cfgTrusted cfg)
           then {| cID := cID c; cFlags := Z.lor (cFlags c) trustedConn; cNodeType := cNodeType c; cCaps := cCaps c |} else c in
  match encHandshakeChecks cfg (svPeers s) c with
  | Some _ => s
  | None => setHandshakes s (svHandshakes s ++ [(c, ref)])
  end.

(** The case of [addpeer], for the node type and the capabilities of the handshake;
    [rest] are the other connections in handshakes. *)
Definition runAddpeer (cfg : Config) (s : server) (c : conn) (nodeType : Z) (caps : list Cap) (rest : list (conn * option nat)) : server :=
  let c := {| cID := cID c; cFlags := cFlags c; cNodeType := nodeType; cCaps := caps |} in
  let s := setHandshakes s rest in
  match protoHandshakeChecks cfg (svPeers s) c with
  | Some _ => s
  | None => setPeers s (<[cID c := c]> (svPeers s))
  end.

Definition runDelpeer (s : server) (id : bytes) : server := setPeers s (base.delete id (svPeers s)).

(** ** Setting up a connection *)

(** The protocol handshake of the remote side. *)
Record protoHandshake := {
  phsID : bytes;
  phsNodeType : Z;
  phsCaps : list Cap
}.

(** [setupConn]: the error it closes the connection with, or the connection that was added.
    [enc] is the outcome of the encryption handshake, [post] and [add] the answers of the
    loop at the two checkpoints ([None]: no error), [phs] the protocol handshake. *)
Definition setupConn (running : bool) (flags : Z) (dialDest : option Node) (enc : result bytes)
    (post : conn → option string) (phs : result protoHandshake) (add : conn → option string) : result conn :=
  let nodeType := match dialDest with Some n => nNodeType n | None => 0 end in
  if negb running then Err "server stopped"
  else
    match enc with
    | Err e => Err e
    | Ok id =>
        let c := {| cID := id; cFlags := flags; cNodeType := nodeType; cCaps := [] |} in
        let mismatch := match dialDest with Some n => negb (bool_decide (id = nID n)) | None => false end in
        if mismatch then Err "unexpected identity"
        else
          match post c with
          | Some e => Err e
          | None =>
              match phs with
              | Err e => Err e
              | Ok h =>
                  if negb (bool_decide (phsID h = id)) then Err "unexpected identity"
                  else
                    let c := {| cID := id; cFlags := flags; cNodeType := phsNodeType h; cCaps := phsCaps h |} in
                    match add c with Some e => Err e | None => Ok c end
              end
          end
    end.

(** A connection that is added has the identity dialed, and the one of both handshakes. *)
Lemma setupConn_identity running flags dialDest enc post phs add c :
  setupConn running flags dialDest enc post phs add = Ok c →
  running = true ∧ enc = Ok (cID c) ∧ (∀ n, dialDest = Some n → cID c = nID n) ∧ add c = None ∧
  cFlags c = flags ∧ ∃ h, phs = Ok h ∧ phsID h = cID c ∧ cNodeType c = phsNodeType h ∧ cCaps c = phsCaps h.
Proof.
  unfold setupConn. destruct running; [|done]. cbn [negb]. destruct enc as [id|]; [|done].
  destruct (match dialDest with Some n => _ | None => false end) eqn:Hd; [done|]. destruct (post _); [done|].
  destruct phs as [h|]; [|done]. case_bool_decide as Hid; [|done]. cbn [negb]. destruct (add _) eqn:Ha; [done|]. intros [= <-]. cbn.
  split; [done|]. split; [done|]. split; [|split; [done|]; split; [done|]; eauto].
  intros n ->. apply negb_false_iff, bool_decide_eq_true_1 in Hd. done.
Qed.

(** Where a connection comes from: the listener, or a running dial task, whose flags and
    whose destination it has ([setupConn] checks the identity). *)
Definition origin (s : server) (c : conn) (ref : option nat) : Prop :=
  match ref with
  | None => cFlags c = inboundConn
  | Some ref => TDial ref ∈ svRunning s ∧
      ∃ d, dsStore (svDial s) !! ref = Some d ∧ cID c = nID (dtDest d) ∧ cFlags c = dtFlags d
  end.

Section Steps.
  Context {T : Type} `{DiscoverTable T} (cfg : Config).

Inductive serverStep : server → server → Prop :=
  | ss_schedule s now order ntab rand s' : order ≡ₚ map_to_list (static (svDial s)) → (∀ k, (0 < k)%nat → (rand k < k)%nat) →
      scheduleTasks (T := T) s now order ntab rand = Ret s' → serverStep s s'
  | ss_addstatic s n : serverStep s (setDial s (addStatic (svDial s) n))
  | ss_run s ref d d' : TDial ref ∈ svRunning s → dsStore (svDial s) !! ref = Some d →
      nID (dtDest d') = nID (dtDest d) → dtFlags d' = dtFlags d →
      serverStep s (setDial s (setTask (svDial s) ref d'))
  | ss_taskdone s t results now s' : t ∈ svRunning s → (∀ c ref, t = TDial ref → (c, Some ref) ∉ svHandshakes s) →
      runTaskDone s t results now = Ret s' → serverStep s s'
  | ss_posthandshake s c ref : origin s c ref → serverStep s (runPosthandshake cfg s c ref)
  | ss_addpeer s c ref p q nodeType caps : svHandshakes s = p ++ (c, ref) :: q →
      serverStep s (runAddpeer cfg s c nodeType caps (p ++ q))
  | ss_drop s c ref p q : svHandshakes s = p ++ (c, ref) :: q → serverStep s (setHandshakes s (p ++ q))
  | ss_delpeer s id : serverStep s (runDelpeer s id).

End Steps.

(** ** The invariant *)

Definition dynIDs (m : gmap bytes Z) : gset bytes := dom (filter (fun p => hasFlag p.2 dynDialedConn = true) m).

Lemma dynIDs_size m : size (dynIDs m) = dynCount m.
Proof. apply size_dom. Qed.

Lemma elem_of_dynIDs m id : id ∈ dynIDs m ↔ ∃ f, m !! id = Some f ∧ hasFlag f dynDialedConn = true.
Proof.
  unfold dynIDs. rewrite elem_of_dom. split.
  - intros [f [Hf Hd]%map_lookup_filter_Some]. eauto.
  - intros (f & Hf & Hd). exists f. by apply map_lookup_filter_Some.
Qed.

Definition discovers (ts : list task) : nat := length (List.filter isDiscover ts).

(** Peers [MaxPeers] does not apply to. *)
Definition exempt (c : conn) : bool :=
  hasFlag (cFlags c) (Z.lor trustedConn staticDialedConn) || (cNodeType c =? 0) || (cNodeType c =? 4).

Definition counted (m : gmap bytes conn) : nat := size (filter (fun p => exempt p.2 = false) m).

(** The dynamic dials and the dynamically dialed peers. *)
Definition dynamic (s : server) : gset bytes := dynIDs (cFlags <$> svPeers s) ∪ dynIDs (dialing (svDial s)).

Record serverOK (cfg : Config) (maxDyn : Z) (s : server) : Prop := {
  v_dial : dialOK (svDial s);
  v_max : maxDynDials (svDial s) = maxDyn;
  v_run : (length (svRunning s) ≤ maxActiveDialTasks)%nat;
  v_tasks : ∀ ref, TDial ref ∈ svAll s → is_Some (dsStore (svDial s) !! ref);
  v_once : NoDup (dials (svDial s) (svAll s)).*1;
  v_dialing : ∀ id f, dialing (svDial s) !! id = Some f ↔ (id, f) ∈ dials (svDial s) (svAll s);
  v_lookup : discovers (svAll s) = if lookupRunning (svDial s) then 1%nat else 0%nat;
  v_hands : ∀ c ref, (c, ref) ∈ svHandshakes s →
    hasFlag (cFlags c) dynDialedConn = true → ∃ r, ref = Some r ∧ TDial r ∈ svRunning s ∧
      ∃ d, dsStore (svDial s) !! r = Some d ∧ cID c = nID (dtDest d) ∧ hasFlag (dtFlags d) dynDialedConn = true;
  v_dyn : Z.of_nat (size (dynamic s)) ≤ maxDyn;
  v_peers : (counted (svPeers s) ≤ cfgMaxPeers cfg)%nat
}.

Lemma discovers_app a b : discovers (a ++ b) = (discovers a + discovers b)%nat.
Proof. unfold discovers. by rewrite List.filter_app, length_app. Qed.

#[export] Instance discovers_Permutation : Proper (Permutation ==> eq) discovers.
Proof.
  intros a b. unfold discovers. induction 1 as [|x a b _ IH|x y a|a b c _ IH1 _ IH2]; [done|..|congruence]; cbn.
  - destruct (isDiscover x); cbn; congruence.
  - by destruct (isDiscover x), (isDiscover y).
Qed.

#[export] Instance dials_Permutation d : Proper (Permutation ==> Permutation) (dials d).
Proof. intros a b Hab. unfold dials. by rewrite Hab. Qed.

Lemma discovers_existsb ts : existsb isDiscover ts = Nat.ltb 0 (discovers ts).
Proof. unfold discovers. induction ts as [|t ts IH]; [done|]. cbn. by destruct (isDiscover t). Qed.

Lemma startTasks_spec running ts : (length running ≤ maxActiveDialTasks)%nat →
  (startTasks running ts).1 ++ (startTasks running ts).2 = running ++ ts ∧
  (length (startTasks running ts).1 ≤ maxActiveDialTasks)%nat ∧ running `prefix_of` (startTasks running ts).1.
Proof.
  intros Hr. unfold startTasks. cbn [fst snd]. split; [by rewrite <- app_assoc, take_drop|].
  split; [rewrite length_app, length_take; lia|]. by apply prefix_app_r.
Qed.

(** Dials added keep within the maximum: if there is room the sum of both parts is within
    it, and otherwise no dynamic dial is added. *)
Lemma dynamic_room (peers dialing dialing' : gmap bytes Z) maxDyn : dialing ⊆ dialing' →
  Z.of_nat (size (dynIDs peers ∪ dynIDs dialing)) ≤ maxDyn →
  Z.of_nat (dynCount peers) + Z.of_nat (dynCount dialing') ≤
    Z.max (Z.of_nat (dynCount peers) + Z.of_nat (dynCount dialing)) maxDyn →
  Z.of_nat (size (dynIDs peers ∪ dynIDs dialing')) ≤ maxDyn.
Proof.
  intros Hsub Hold Hroom. rewrite <- !dynIDs_size in Hroom.
  assert (Hd : dynIDs dialing ⊆ dynIDs dialing').
  { intros id (f & Hf & Hx)%elem_of_dynIDs. apply elem_of_dynIDs. exists f. split; [|done]. by eapply lookup_weaken. }
  destruct (Z.le_gt_cases (Z.of_nat (size (dynIDs peers)) + Z.of_nat (size (dynIDs dialing'))) maxDyn) as [Hle|Hgt].
  - pose proof (size_union_alt (dynIDs peers) (dynIDs dialing')) as Hu.
    assert (size (dynIDs dialing' ∖ dynIDs peers) ≤ size (dynIDs dialing'))%nat by (apply subseteq_size; set_solver). lia.
  - assert (Hs : (size (dynIDs dialing') ≤ size (dynIDs dialing))%nat) by lia.
    assert (dynIDs dialing' = dynIDs dialing) as ->; [|done].
    symmetry. apply leibniz_equiv, set_subseteq_size_equiv; done.
Qed.

Section Preservation.
  Context {T : Type} `{DiscoverTable T} (cfg : Config) (maxDyn : Z).

Lemma schedule_OK s now order (ntab : T) rand : serverOK cfg maxDyn s → order ≡ₚ map_to_list (static (svDial s)) →
  (∀ k, (0 < k)%nat → (rand k < k)%nat) →
  ∃ s', scheduleTasks s now order ntab rand = Ret s' ∧ serverOK cfg maxDyn s'.
Proof.
  intros [V1 V2 V3 V4 V5 V6 V7 V8 V9 V10] Ho Hr. unfold scheduleTasks, svAll in *.
  destruct (startTasks_spec (svRunning s) (svQueued s) V3) as (E1 & L1 & P1).
  destruct (startTasks (svRunning s) (svQueued s)) as [running queued]. cbn [fst snd] in E1, L1, P1.
  assert (Hpre : ∀ t, t ∈ svRunning s → t ∈ running) by (intros t Ht; destruct P1 as [k ->]; set_solver).
  destruct (Nat.ltb_spec (length running) maxActiveDialTasks) as [Hlt|Hge].
  2:{ eexists. split; [done|]. split; unfold svAll; cbn; rewrite ?E1; try done.
      intros c ref Hc Hf. destruct (V8 c ref Hc Hf) as (r & -> & Hin & ?). eauto 6. }
  destruct (newTasks_ok (svDial s) (length running + length queued) (cFlags <$> svPeers s) now order ntab rand V1)
    as (d & nt & -> & [N1 N2 N3 N4 N5 N6 N7 N8 N9 Nmax N10 N11 N12]); [|done|].
  { intros id ref Hin. rewrite Ho in Hin. by apply elem_of_map_to_list. }
  cbn [mbind gores_bind]. destruct (startTasks_spec running nt L1) as (E2 & L2 & P2).
  destruct (startTasks running nt) as [running' rest]. cbn [fst snd] in E2, L2, P2.
  eexists. split; [done|].
  assert (Hperm : running' ++ (queued ++ rest) ≡ₚ (svRunning s ++ svQueued s) ++ nt).
  { rewrite <- E1, (Permutation_app_comm queued rest), app_assoc, E2, <- !app_assoc. f_equiv. apply Permutation_app_comm. }
  assert (Hmono : dials d (svRunning s ++ svQueued s) = dials (svDial s) (svRunning s ++ svQueued s)) by (by apply dials_mono).
  split; unfold svAll; cbn [svPeers svDial svRunning svQueued svHandshakes]; try done.
  - congruence.
  - intros ref. rewrite Hperm. intros [Hin|Hin]%elem_of_app; [|by apply N12].
    destruct (V4 ref Hin) as [x Hx]. exists x. by eapply lookup_weaken.
  - rewrite Hperm, dials_app, fmap_app, Hmono. apply NoDup_app. split; [done|]. split; [|done].
    intros id ([id' f] & -> & Hin)%list_elem_of_fmap Hnew. cbn in Hnew. apply V6 in Hin. destruct (N4 _ Hnew) as [Hnone _]. congruence.
  - intros id f. rewrite Hperm, dials_app, Hmono, elem_of_app, N5, V6. tauto.
  - rewrite Hperm, discovers_app, V7, N7, discovers_existsb. unfold discovers in *.
    set (n := length (List.filter isDiscover nt)) in *. clearbody n.
    destruct (lookupRunning (svDial s)); cbn [orb]; cbv iota in N8 |- *; [lia|]. destruct (Nat.ltb_spec 0 n); lia.
  - intros c ref Hc Hf. destruct (V8 c ref Hc Hf) as (r & -> & Hin & x & Hx & ? & ?). exists r. split; [done|].
    split; [destruct P2 as [k ->]; set_solver|]. exists x. split; [by eapply lookup_weaken|done].
  - unfold dynamic in *. cbn [svPeers svDial]. unfold dynTotal in N6. rewrite V2 in N6. eapply dynamic_room; [|exact V9|exact N6].
    apply map_subseteq_spec. intros id f Hid. apply N5. by right.
Qed.


Lemma delTask_Permutation t l : t ∈ l → l ≡ₚ t :: delTask t l.
Proof.
  induction l as [|x l IH]; [by intros ?%elem_of_nil|]. cbn. case_bool_decide as Hx; [by subst|].
  intros [?|Hin]%elem_of_cons; [congruence|]. rewrite (IH Hin) at 1. apply perm_swap.
Qed.

Lemma taskdone_OK s t results now : serverOK cfg maxDyn s → t ∈ svRunning s →
  (∀ c ref, t = TDial ref → (c, Some ref) ∉ svHandshakes s) →
  ∃ s', runTaskDone s t results now = Ret s' ∧ serverOK cfg maxDyn s'.
Proof.
  intros [V1 V2 V3 V4 V5 V6 V7 V8 V9 V10] Ht Hh. unfold runTaskDone, svAll in *.
  pose proof (delTask_Permutation t _ Ht) as Hdel.
  assert (Hperm : svRunning s ++ svQueued s ≡ₚ t :: delTask t (svRunning s) ++ svQueued s) by (by rewrite Hdel at 1).
  destruct (taskDone_OK (svDial s) t results now V1) as (d & -> & D1 & D2 & D3 & D4 & D5 & _).
  { intros ref ->. apply V4. set_solver. }
  cbn [mbind gores_bind]. eexists. split; [done|].
  assert (Hds : ∀ ts, dials d ts = dials (svDial s) ts) by (intros ts; unfold dials; by rewrite D3).
  rewrite (dials_Permutation _ _ _ Hperm) in V5. change (t :: ?l) with ([t] ++ l) in V5, Hperm. rewrite dials_app, fmap_app in V5.
  apply NoDup_app in V5 as (_ & V5a & V5b).
  split; unfold svAll; cbn [svPeers svDial svRunning svQueued svHandshakes]; rewrite ?Hds; try done.
  - by rewrite D2.
  - rewrite Hdel in V3. cbn in V3. lia.
  - intros ref Hin. rewrite D3. apply V4. rewrite Hperm. set_solver.
  - intros id f. rewrite D4, V6, (dials_Permutation _ _ _ Hperm), dials_app, elem_of_app. split.
    + intros [[Hin|Hin] Hn]; [|done]. destruct Hn. apply list_elem_of_fmap. by exists (id, f).
    + intros Hin. split; [by right|]. intros Hn. apply (V5a id Hn). apply list_elem_of_fmap. by exists (id, f).
  - rewrite Hperm, discovers_app in V7. rewrite D5. unfold discovers in V7 at 1. cbn in V7.
    destruct (lookupRunning (svDial s)), (isDiscover t); cbn in V7 |- *; lia.
  - intros c ref Hc Hf. destruct (V8 c ref Hc Hf) as (r & -> & Hin & Hd). exists r. split; [done|]. rewrite D3. split; [|done].
    rewrite Hdel in Hin. apply elem_of_cons in Hin as [Heq|]; [|done]. destruct (Hh c r); [congruence|done].
  - etransitivity; [|exact V9]. apply Nat2Z.inj_le, subseteq_size. unfold dynamic. cbn [svPeers svDial].
    apply union_mono_l. intros id (f & Hf & Hx)%elem_of_dynIDs. apply elem_of_dynIDs. exists f. split; [|done]. by apply D4.
Qed.


Lemma addstatic_OK s n : serverOK cfg maxDyn s → serverOK cfg maxDyn (setDial s (addStatic (svDial s) n)).
Proof.
  intros [V1 V2 V3 V4 V5 V6 V7 V8 V9 V10]. unfold svAll in *.
  assert (Hsub : dsStore (svDial s) ⊆ dsStore (addStatic (svDial s) n)).
  { cbn. apply insert_subseteq. destruct (dsStore (svDial s) !! dsNext (svDial s)) eqn:E; [|done]. apply (d_fresh _ V1) in E. lia. }
  assert (Hds : dials (addStatic (svDial s) n) (svRunning s ++ svQueued s) = dials (svDial s) (svRunning s ++ svQueued s))
    by (by apply dials_mono).
  split; unfold svAll; cbn [setDial svPeers svDial svRunning svQueued svHandshakes]; rewrite ?Hds; try done.
  - by apply addStatic_OK.
  - intros ref Hin. destruct (V4 ref Hin) as [x Hx]. exists x. by eapply lookup_weaken.
  - intros c ref Hc Hf. destruct (V8 c ref Hc Hf) as (r & -> & Hin & x & Hx & ?). exists r. split; [done|]. split; [done|].
    exists x. split; [by eapply lookup_weaken|done].
Qed.

Lemma run_OK s ref d d' : serverOK cfg maxDyn s → dsStore (svDial s) !! ref = Some d →
  nID (dtDest d') = nID (dtDest d) → dtFlags d' = dtFlags d → serverOK cfg maxDyn (setDial s (setTask (svDial s) ref d')).
Proof.
  intros [V1 V2 V3 V4 V5 V6 V7 V8 V9 V10] Hd Hid Hfl. unfold svAll in *.
  assert (Hds : ∀ ts, dials (setTask (svDial s) ref d') ts = dials (svDial s) ts).
  { intros ts. unfold dials. induction ts as [|[r|r|r w] ts IH]; cbn; [done| |done..].
    destruct (decide (r = ref)) as [->|Hne].
    - rewrite lookup_insert_eq, Hd. cbn. rewrite Hid, Hfl. f_equal. apply IH.
    - rewrite lookup_insert_ne by done. destruct (dsStore (svDial s) !! r); cbn; [f_equal|]; apply IH. }
  split; unfold svAll; cbn [setDial svPeers svDial svRunning svQueued svHandshakes]; rewrite ?Hds; try done.
  - by eapply setTask_OK.
  - intros r Hin. cbn. destruct (decide (r = ref)) as [->|]; [rewrite lookup_insert_eq; eauto|].
    rewrite lookup_insert_ne by done. by apply V4.
  - intros c o Hc Hf. destruct (V8 c o Hc Hf) as (r & -> & Hin & x & Hx & E1 & E2). exists r. split; [done|]. split; [done|].
    cbn. destruct (decide (r = ref)) as [->|].
    + exists d'. rewrite lookup_insert_eq. split; [done|]. assert (x = d) as -> by congruence. rewrite Hid, Hfl. done.
    + exists x. by rewrite lookup_insert_ne by done.
Qed.

(** Connections in handshakes and peers apart, nothing changes. *)
Lemma setHandshakes_OK s h : serverOK cfg maxDyn s →
  (∀ c ref, (c, ref) ∈ h → hasFlag (cFlags c) dynDialedConn = true → ∃ r, ref = Some r ∧ TDial r ∈ svRunning s ∧
      ∃ d, dsStore (svDial s) !! r = Some d ∧ cID c = nID (dtDest d) ∧ hasFlag (dtFlags d) dynDialedConn = true) →
  serverOK cfg maxDyn (setHandshakes s h).
Proof. intros [V1 V2 V3 V4 V5 V6 V7 V8 V9 V10] Hh. by split. Qed.

Lemma hasFlag_trusted f : hasFlag (Z.lor f trustedConn) dynDialedConn = hasFlag f dynDialedConn.
Proof.
  unfold hasFlag. f_equal. f_equal. rewrite Z.land_lor_distr_l. change (Z.land trustedConn dynDialedConn) with 0. apply Z.lor_0_r.
Qed.

Lemma posthandshake_OK s c ref : serverOK cfg maxDyn s → origin s c ref → serverOK cfg maxDyn (runPosthandshake cfg s c ref).
Proof.
  intros HV Ho. unfold runPosthandshake. set (c' := if bool_decide _ then _ else c).
  assert (Hc : cID c' = cID c ∧ hasFlag (cFlags c') dynDialedConn = hasFlag (cFlags c) dynDialedConn).
  { unfold c'. case_bool_decide; [|done]. split; [done|]. apply hasFlag_trusted. }
  clearbody c'. destruct Hc as [Hid Hfl]. destruct (encHandshakeChecks _ _ _); [done|]. apply setHandshakes_OK; [done|].
  intros x r [Hx|Hx]%elem_of_app Hdyn; [by apply (v_hands _ _ _ HV)|]. apply list_elem_of_singleton in Hx as [= -> ->].
  rewrite Hfl in Hdyn. destruct ref as [r|]; cbn in Ho.
  - destruct Ho as (Hin & d & Hd & E1 & E2). exists r. split; [done|]. split; [done|]. exists d. split; [done|]. split; [congruence|].
    by rewrite <- E2.
  - rewrite Ho in Hdyn. done.
Qed.

Lemma elem_of_middle {A} (x y : A) p q : x ∈ p ++ q → x ∈ p ++ y :: q.
Proof. set_solver. Qed.

Lemma drop_OK s c ref p q : serverOK cfg maxDyn s → svHandshakes s = p ++ (c, ref) :: q → serverOK cfg maxDyn (setHandshakes s (p ++ q)).
Proof.
  intros HV Hh. apply setHandshakes_OK; [done|]. intros x r Hx. apply (v_hands _ _ _ HV). rewrite Hh. by apply elem_of_middle.
Qed.

Lemma setPeers_OK s peers : serverOK cfg maxDyn s →
  dynIDs (cFlags <$> peers) ⊆ dynamic s → (counted peers ≤ cfgMaxPeers cfg)%nat → serverOK cfg maxDyn (setPeers s peers).
Proof.
  intros [V1 V2 V3 V4 V5 V6 V7 V8 V9 V10] Hd Hc. split; try done.
  etransitivity; [|exact V9]. apply Nat2Z.inj_le, subseteq_size. unfold dynamic in *. cbn [setPeers svPeers svDial]. set_solver.
Qed.

Lemma counted_insert m id c : (counted (<[id := c]> m) ≤ counted (base.delete id m) + if exempt c then 0 else 1)%nat.
Proof.
  unfold counted. rewrite map_filter_insert. cbn [snd]. destruct (exempt c).
  - rewrite decide_False by done. lia.
  - rewrite decide_True by done. rewrite map_filter_delete, <- insert_delete_eq.
    rewrite map_size_insert_None by (apply lookup_delete_eq). lia.
Qed.

Lemma counted_delete m id : (counted (base.delete id m) ≤ counted m)%nat.
Proof. unfold counted. rewrite map_filter_delete. apply map_subseteq_size, delete_subseteq. Qed.

Lemma addpeer_OK s c ref p q nodeType caps : serverOK cfg maxDyn s → svHandshakes s = p ++ (c, ref) :: q →
  serverOK cfg maxDyn (runAddpeer cfg s c nodeType caps (p ++ q)).
Proof.
  intros HV Hh. unfold runAddpeer. pose proof (drop_OK s c ref p q HV Hh) as HV'.
  set (c' := {| cID := cID c; cFlags := cFlags c; cNodeType := nodeType; cCaps := caps |}).
  cbn [svPeers setHandshakes]. destruct (protoHandshakeChecks cfg (svPeers s) c') eqn:Hchk; [done|].
  apply setPeers_OK; [done|..].
  - intros id (f & Hf & Hx)%elem_of_dynIDs. rewrite lookup_fmap in Hf. apply fmap_Some in Hf as (x & Hx' & ->).
    apply lookup_insert_Some in Hx' as [[<- <-]|[_ Hx']].
    + destruct (v_hands _ _ _ HV c ref ltac:(rewrite Hh; set_solver) Hx) as (r & -> & Hin & d & Hd & Hid & Hfl).
      apply elem_of_union_r, elem_of_dynIDs. exists (dtFlags d). split; [|done]. cbn. rewrite Hid.
      apply (v_dialing _ _ _ HV). unfold dials. apply list_elem_of_omap. exists (TDial r). split; [unfold svAll; set_solver|]. by rewrite Hd.
    + apply elem_of_union_l, elem_of_dynIDs. exists (cFlags x). split; [|done]. cbn. by rewrite lookup_fmap, Hx'.
  - pose proof (counted_insert (svPeers s) (cID c') c') as Hins. pose proof (counted_delete (svPeers s) (cID c')) as Hdel.
    pose proof (v_peers _ _ _ HV) as Hp. destruct (exempt c') eqn:He; [lia|].
    unfold exempt in He. rewrite !orb_false_iff in He. destruct He as [[He1 He2] He3]. unfold protoHandshakeChecks in Hchk.
    rewrite He2, He3 in Hchk. cbn [orb] in Hchk. destruct (_ && _); [done|]. unfold encHandshakeChecks in Hchk.
    rewrite He1 in Hchk. cbn [negb andb] in Hchk. destruct (Nat.leb_spec (cfgMaxPeers cfg) (size (svPeers s))); [done|].
    assert (counted (svPeers s) ≤ size (svPeers s))%nat; [|lia]. apply map_size_filter.
Qed.

Lemma delpeer_OK s id : serverOK cfg maxDyn s → serverOK cfg maxDyn (runDelpeer s id).
Proof.
  intros HV. apply setPeers_OK; [done|..].
  - intros x (f & Hf & Hx)%elem_of_dynIDs. rewrite lookup_fmap in Hf. apply fmap_Some in Hf as (y & Hy & ->).
    apply lookup_delete_Some in Hy as [_ Hy]. apply elem_of_union_l, elem_of_dynIDs. exists (cFlags y). by rewrite lookup_fmap, Hy.
  - pose proof (counted_delete (svPeers s) id). pose proof (v_peers _ _ _ HV). lia.
Qed.

Lemma serverStep_OK s s' : serverOK cfg maxDyn s → serverStep (T := T) cfg s s' → serverOK cfg maxDyn s'.
Proof.
  intros HV Hstep. destruct Hstep as [s now order ntab rand s' Ho Hr E|s n|s ref d d' _ Hd Hid Hf|s t results now s' Ht Hh E|s c ref Ho
    |s c ref p q nt caps Hh|s c ref p q Hh|s id].
  - destruct (schedule_OK s now order ntab rand HV Ho Hr) as (x & Ex & ?). rewrite E in Ex. by injection Ex as ->.
  - by apply addstatic_OK.
  - by eapply run_OK.
  - destruct (taskdone_OK s t results now HV Ht Hh) as (x & Ex & ?). rewrite E in Ex. by injection Ex as ->.
  - by apply posthandshake_OK.
  - by eapply addpeer_OK.
  - by eapply drop_OK.
  - by apply delpeer_OK.
Qed.

End Preservation.

(** ** The server *)

(** [Start]: no peers and no tasks; the dial state of [newDialState]. *)
Definition startServer (d : dialstate) : server :=
  {| svPeers := ∅; svDial := d; svRunning := []; svQueued := []; svHandshakes := [] |}.

(** [dynPeers]: half of the peers are dialed dynamically, if discovery is on. *)
Definition dynPeers (cfg : Config) (discovery : bool) : Z :=
  if discovery then (Z.of_nat (cfgMaxPeers cfg) + 1) ÷ 2 else 0.

Lemma dynPeers_nonneg cfg b : 0 ≤ dynPeers cfg b.
Proof. unfold dynPeers. destruct b; [|done]. apply Z.quot_pos; lia. Qed.

Lemma startServer_OK cfg statics b : ∃ d, newDialState statics (dynPeers cfg b) = Ret d ∧ serverOK cfg (dynPeers cfg b) (startServer d).
Proof.
  destruct (newDialState_OK statics (dynPeers cfg b) (dynPeers_nonneg cfg b)) as (d & E & D1 & D2 & D3 & D4).
  exists d. split; [done|]. split; unfold svAll; cbn [startServer svPeers svDial svRunning svQueued svHandshakes app]; try done.
  - cbn. lia.
  - intros ref Hin. by apply elem_of_nil in Hin.
  - apply NoDup_nil_2.
  - intros id f. rewrite D3, lookup_empty. cbn. by rewrite elem_of_nil.
  - by rewrite D4.
  - intros c ref Hin. by apply elem_of_nil in Hin.
  - unfold dynamic. cbn [startServer svPeers svDial]. rewrite D3, fmap_empty. unfold dynIDs.
    rewrite !map_filter_empty, !dom_empty_L, union_idemp_L, size_empty. apply dynPeers_nonneg.
  - unfold counted. cbn. rewrite map_filter_empty, map_size_empty. lia.
Qed.

Lemma serverReach_OK {T} `{DiscoverTable T} cfg statics b d s : newDialState statics (dynPeers cfg b) = Ret d →
  rtc (serverStep (T := T) cfg) (startServer d) s → serverOK cfg (dynPeers cfg b) s.
Proof.
  intros E Hsteps. destruct (startServer_OK cfg statics b) as (d' & E' & H0). rewrite E in E'. injection E' as <-. revert H0.
  induction Hsteps as [|s1 s2 s3 H12 _ IH]; [done|]. intros H1. by eapply IH, serverStep_OK.
Qed.

(** C31. Whatever the network does, the server runs at most 16 tasks; no two tasks, running
    or queued, dial the same node, and [dialing] holds exactly the nodes they dial; at most
    one discovery task exists, and [lookupRunning] says whether; the nodes dialed
    dynamically or being so never exceed half of [MaxPeers]; the peers that are neither
    trusted nor static nor of type 0 or 4 never exceed [MaxPeers]; and the next round of
    the scheduler does not panic. *)
Theorem server_invariant {T} `{DiscoverTable T} cfg statics b d s : newDialState statics (dynPeers cfg b) = Ret d →
  rtc (serverStep (T := T) cfg) (startServer d) s →
  let tasks := svRunning s ++ svQueued s in
  (length (svRunning s) ≤ 16)%nat ∧ NoDup (dials (svDial s) tasks).*1 ∧
  (∀ id f, dialing (svDial s) !! id = Some f ↔ (id, f) ∈ dials (svDial s) tasks) ∧
  length (List.filter isDiscover tasks) = (if lookupRunning (svDial s) then 1%nat else 0%nat) ∧
  Z.of_nat (size (dynamic s)) ≤ dynPeers cfg b ∧ (counted (svPeers s) ≤ cfgMaxPeers cfg)%nat ∧
  ∀ now order (ntab : T) rand, order ≡ₚ map_to_list (static (svDial s)) → (∀ k, (0 < k)%nat → (rand k < k)%nat) →
    ∃ s', scheduleTasks s now order ntab rand = Ret s'.
Proof.
  intros E Hsteps. pose proof (serverReach_OK cfg statics b d s E Hsteps) as HV. pose proof HV as [V1 V2 V3 V4 V5 V6 V7 V8 V9 V10].
  repeat (split; [done|]). intros now order ntab rand Ho Hr.
  destruct (schedule_OK cfg (dynPeers cfg b) s now order ntab rand HV Ho Hr) as (s' & ? & _). by exists s'.
Qed.

(** ** An example *)

Definition exCfg : Config := {| cfgMaxPeers := 1; cfgTrusted := ∅; cfgSelf := exID 0; cfgProtocols := exProtos |}.

Definition exServer : dialstate :=
  {| maxDynDials := 1; lookupRunning := false; dialing := ∅; lookupBuf := []; randomNodes := []; static := ∅; hist := [];
     dsStore := ∅; dsNext := 0 |}.

Definition inbound (k : Z) : conn := {| cID := exID k; cFlags := inboundConn; cNodeType := 0; cCaps := [] |}.

(** A node of type 4 connects twice: both connections pass the first check, and the second
    check is not made; the first of them ends. *)
Definition movingRun : server :=
  let s := runPosthandshake exCfg (startServer exServer) (inbound 7) None in
  let s := runPosthandshake exCfg s (inbound 7) None in
  let s := runAddpeer exCfg s (inbound 7) 4 [] [(inbound 7, None)] in
  let s := runAddpeer exCfg s (inbound 7) 4 [{| capName := "eth"; capVersion := 63 |}] [] in
  runDelpeer s (exID 7).

Lemma movingRun_reachable : rtc (serverStep (T := Table) exCfg) (startServer exServer) movingRun.
Proof.
  unfold movingRun. eapply rtc_l; [by apply (ss_posthandshake exCfg (startServer exServer) (inbound 7) None)|].
  eapply rtc_l; [by apply (ss_posthandshake exCfg _ (inbound 7) None)|].
  eapply rtc_l; [apply (ss_addpeer exCfg _ (inbound 7) None [] [(inbound 7, None)] 4 []); vm_compute; reflexivity|].
  eapply rtc_l; [apply (ss_addpeer exCfg _ (inbound 7) None [] [] 4 [{| capName := "eth"; capVersion := 63 |}]); vm_compute; reflexivity|].
  eapply rtc_l; [apply ss_delpeer|]. apply rtc_refl.
Qed.

(** Two connections of the node were added, one ended, and no peer is left. *)
Lemma moving_peer_lost : rtc (serverStep (T := Table) exCfg) (startServer exServer) movingRun ∧ svPeers movingRun = ∅.
Proof. split; [apply movingRun_reachable|]. vm_compute. reflexivity. Qed.

Lemma server_invariant_witness :
  let tasks := svRunning movingRun ++ svQueued movingRun in
  (length (svRunning movingRun) ≤ 16)%nat ∧ NoDup (dials (svDial movingRun) tasks).*1 ∧
  (∀ id f, dialing (svDial movingRun) !! id = Some f ↔ (id, f) ∈ dials (svDial movingRun) tasks) ∧
  length (List.filter isDiscover tasks) = (if lookupRunning (svDial movingRun) then 1%nat else 0%nat) ∧
  Z.of_nat (size (dynamic movingRun)) ≤ dynPeers exCfg true ∧ (counted (svPeers movingRun) ≤ cfgMaxPeers exCfg)%nat ∧
  ∀ now order (ntab : Table) rand, order ≡ₚ map_to_list (static (svDial movingRun)) → (∀ k, (0 < k)%nat → (rand k < k)%nat) →
    ∃ s', scheduleTasks movingRun now order ntab rand = Ret s'.
Proof.
  refine (server_invariant (T := Table) exCfg [] true exServer movingRun _ _).
  - reflexivity.
  - apply movingRun_reachable.
Defined.
