(* ===== verification/Packets.v ===== *)
(** * Discovery packets

    [src/p2p/discover/udp.go]: the four packets of the discovery protocol, their format
    ([encodePacket], [decodePacket]: a hash, a signature of variable length in 140 bytes,
    the type, the RLP encoding and the length of the signature) and how each is handled
    ([handle]).  The reply queue is in [Replies]; here its answer is an argument, and so
    are the clock, the database's knowledge of a node and what [closest] finds.

    Properties: a packet made by [encodePacket] is decoded to what was encoded, with the
    identifier of the signer ([decodePacket_encodePacket]); the decoder ends on every input
    ([decodePacket_total]) but panics on a signed packet without a type
    ([decodePacket_crash]); the neighbours are sent in packets that fit the limit of 1280
    bytes, all of them and in order ([neighbors_fit], [chunkLoop_spec]); nothing is sent
    to a node without a bond ([findnode_unknown]). *)

From stdpp Require Import base gmap list strings.
From Stdlib Require Import ZArith Lia.
From S2P Require Import Prelude Common Words RlpEncode RlpRaw RlpDecode RlpRoundtrip RlpTotal RlpCanonical RlpTyped BigInt Sm3 Sm2 Encoding Signature Discover Table.
Local Open Scope Z_scope.

(** ** Packets *)

Record rpcEndpoint := {
  epIP : bytes;
  epUDP : Z;
  epTCP : Z
}.

Record rpcNode := {
  rnIP : bytes;
  rnUDP : Z;
  rnTCP : Z;
  rnID : bytes
}.

(** [rest] are the additional fields. *)
Inductive packet :=
  | Ping (version : Z) (from to : rpcEndpoint) (expiration : Z) (rest : list bytes)
  | Pong (to : rpcEndpoint) (replyTok : bytes) (expiration : Z) (rest : list bytes)
  | Findnode (target : bytes) (expiration : Z) (rest : list bytes)
  | Neighbors (nodes : list rpcNode) (expiration : Z) (rest : list bytes).

Definition ptypeOf (p : packet) : Z :=
  match p with Ping _ _ _ _ _ => 1 | Pong _ _ _ _ => 2 | Findnode _ _ _ => 3 | Neighbors _ _ _ => 4 end.

(** As RLP sees them. *)
Definition endpointTyp : gtyp := TyStruct [TyBytes; TyUint 16; TyUint 16].
Definition nodeTyp : gtyp := TyStruct [TyBytes; TyUint 16; TyUint 16; TyByteArray NodeIDLength].

Definition packetTyp (ptype : Z) : option gtyp :=
  if ptype =? 1 then Some (TyStruct [TyUint 64; endpointTyp; endpointTyp; TyUint 64; TyTail TyRaw])
  else if ptype =? 2 then Some (TyStruct [endpointTyp; TyBytes; TyUint 64; TyTail TyRaw])
  else if ptype =? 3 then Some (TyStruct [TyByteArray NodeIDLength; TyUint 64; TyTail TyRaw])
  else if ptype =? 4 then Some (TyStruct [TySlice nodeTyp; TyUint 64; TyTail TyRaw])
  else None.

Definition endpointVal (e : rpcEndpoint) : gval := VStruct [VBytes (epIP e); VUint (epUDP e); VUint (epTCP e)].
Definition nodeVal (n : rpcNode) : gval := VStruct [VBytes (rnIP n); VUint (rnUDP n); VUint (rnTCP n); VByteArray (rnID n)].

Definition packetVal (p : packet) : gval :=
  match p with
  | Ping v f t e rest => VStruct [VUint v; endpointVal f; endpointVal t; VUint e; VTail (VRaw <$> rest)]
  | Pong t tok e rest => VStruct [endpointVal t; VBytes tok; VUint e; VTail (VRaw <$> rest)]
  | Findnode t e rest => VStruct [VByteArray t; VUint e; VTail (VRaw <$> rest)]
  | Neighbors ns e rest => VStruct [VSlice (nodeVal <$> ns); VUint e; VTail (VRaw <$> rest)]
  end.

Definition endpointOf (v : gval) : option rpcEndpoint :=
  match v with
  | VStruct [VBytes ip; VUint udp; VUint tcp] => Some {| epIP := ip; epUDP := udp; epTCP := tcp |}
  | _ => None
  end.

Definition nodeOf (v : gval) : option rpcNode :=
  match v with
  | VStruct [VBytes ip; VUint udp; VUint tcp; VByteArray id] => Some {| rnIP := ip; rnUDP := udp; rnTCP := tcp; rnID := id |}
  | _ => None
  end.

Definition rawOf (v : gval) : option bytes := match v with VRaw b => Some b | _ => None end.

(** The fields of a decoded struct. *)
Definition packetOf (ptype : Z) (v : gval) : option packet :=
  match v with
  | VStruct [VUint v; f; t; VUint e; VTail rest] =>
      if ptype =? 1 then
        f ← endpointOf f; t ← endpointOf t; rest ← mapM rawOf rest; Some (Ping v f t e rest)
      else None
  | VStruct [t; VBytes tok; VUint e; VTail rest] =>
      if ptype =? 2 then t ← endpointOf t; rest ← mapM rawOf rest; Some (Pong t tok e rest) else None
  | VStruct [VByteArray t; VUint e; VTail rest] =>
      if ptype =? 3 then rest ← mapM rawOf rest; Some (Findnode t e rest) else None
  | VStruct [VSlice ns; VUint e; VTail rest] =>
      if ptype =? 4 then ns ← mapM nodeOf ns; rest ← mapM rawOf rest; Some (Neighbors ns e rest) else None
  | _ => None
  end.

Definition macSize : nat := 32.
Definition sigSize : nat := 140.
Definition headSize : nat := (macSize + sigSize)%nat.

Section Codec.
  Context {C : Curve}.

(** [encodePacket]: the signature goes into its 140 bytes, its length behind the data. *)
Definition encodePacket (g : signer) (priv : PrivateKey) (p : packet) : option (gores bytes) :=
  match EncodeToBytes (packetVal p) with
  | Err e => Some (Fail e)
  | Ok data =>
      let body := ptypeOf p :: data in
      match cryptoSign g (sm3 body) priv with
      | None => None
      | Some Crash => Some Crash
      | Some (Fail e) => Some (Fail e)
      | Some (Ret sig) =>
          let framed := replicate headSize 0 ++ body in
          let packet := take macSize framed ++ sig ++ drop (macSize + length sig) framed in
          let packet := packet ++ [byteOf (Z.of_nat (length sig))] in
          Some (Ret (sm3 (drop macSize packet) ++ drop macSize packet))
      end
  end.

(** [decodePacket]: the packet, the sender and the hash.  [None]: the decoder has not
    ended.  A signature length above 140 takes in the bytes behind the signature and then
    [behind], what the read buffer holds after the packet. *)
Definition decodePacket (behind buf : bytes) : option (gores (packet * bytes * bytes)) :=
  if Nat.ltb (length buf) (headSize + 1) then Some (Fail "too small")
  else
    let hash := take macSize buf in
    let sigdata := take (length buf - 1 - headSize) (drop headSize buf) in
    let siglen := Z.to_nat (nth (length buf - 1) buf 0) in
    if negb (bool_decide (hash = sm3 (drop macSize buf))) then Some (Fail "bad hash")
    else
      let sig := take siglen (drop macSize buf ++ behind) in
      match recoverNodeID (sm3 sigdata) sig with
      | Crash => Some Crash
      | Fail e => Some (Fail e)
      | Ret fromID =>
          match sigdata with
          | [] => Some Crash
          | ptype :: data =>
              match packetTyp ptype with
              | None => Some (Fail "unknown type")
              | Some t =>
                  match (decode id (S (length data)) t (NewStream data 0)).1 with
                  | DFuel => None
                  | DErr _ => Some (Fail "rlp")
                  | DOk v =>
                      match packetOf ptype v with
                      | None => None
                      | Some p => Some (Ret (p, fromID, hash))
                      end
                  end
              end
          end
      end.

End Codec.

(** ** Packets and values *)

Lemma rawOf_VRaw rest : mapM rawOf (VRaw <$> rest) = Some rest.
Proof. induction rest as [|b rest IH]; [done|]. cbn. by rewrite IH. Qed.

Lemma nodeOf_nodeVal ns : mapM nodeOf (nodeVal <$> ns) = Some ns.
Proof. induction ns as [|[ip udp tcp id] ns IH]; [done|]. cbn. by rewrite IH. Qed.

Lemma packetOf_packetVal p : packetOf (ptypeOf p) (packetVal p) = Some p.
Proof.
  destruct p as [v [? ? ?] [? ? ?] e rest|[? ? ?] tok e rest|t e rest|ns e rest]; cbn; rewrite ?rawOf_VRaw, ?nodeOf_nodeVal; done.
Qed.

Definition u16 (z : Z) : Prop := 0 ≤ z < 2 ^ 16.

Definition endpointOK (e : rpcEndpoint) : Prop := u16 (epUDP e) ∧ u16 (epTCP e).
Definition rpcNodeOK (n : rpcNode) : Prop := u16 (rnUDP n) ∧ u16 (rnTCP n) ∧ length (rnID n) = NodeIDLength.

(** A packet with fields in range; additional fields are canonical values. *)
Definition packetOK (p : packet) : Prop :=
  match p with
  | Ping v f t e rest => is_u64 v ∧ endpointOK f ∧ endpointOK t ∧ is_u64 e ∧ Forall (fun b => hasType TyRaw (VRaw b)) rest
  | Pong t _ e rest => endpointOK t ∧ is_u64 e ∧ Forall (fun b => hasType TyRaw (VRaw b)) rest
  | Findnode t e rest => length t = NodeIDLength ∧ is_u64 e ∧ Forall (fun b => hasType TyRaw (VRaw b)) rest
  | Neighbors ns e rest => Forall rpcNodeOK ns ∧ is_u64 e ∧ Forall (fun b => hasType TyRaw (VRaw b)) rest
  end.

Lemma uint16_typed z : u16 z → hasType (TyUint 16) (VUint z).
Proof. intros Hz. split; [unfold uintBits; tauto|done]. Qed.

Lemma id_typed b : length b = NodeIDLength → hasType (TyByteArray NodeIDLength) (VByteArray b).
Proof. intros Hl. split; [done|]. intros ->. done. Qed.

Lemma tail_typed rest : Forall (fun b => hasType TyRaw (VRaw b)) rest → hasType (TyTail TyRaw) (VTail (VRaw <$> rest)).
Proof. intros Hr. split; [done|]. by apply Forall_fmap. Qed.

Lemma endpoint_typed e : endpointOK e → hasType endpointTyp (endpointVal e).
Proof. intros [H1 H2]. split; [done|]. split; [done|]. split; [by apply uint16_typed|]. split; [done|]. split; [by apply uint16_typed|done]. Qed.

Lemma node_typed n : rpcNodeOK n → hasType nodeTyp (nodeVal n).
Proof.
  intros (H1 & H2 & H3). split; [done|]. split; [done|]. split; [by apply uint16_typed|]. split; [done|].
  split; [by apply uint16_typed|]. split; [done|]. split; [by apply id_typed|done].
Qed.

Create HintDb packets.
#[export] Hint Resolve uint16_typed uint64_typed id_typed tail_typed endpoint_typed node_typed : packets.

Lemma nodes_typed ns : Forall rpcNodeOK ns → hasType (TySlice nodeTyp) (VSlice (nodeVal <$> ns)).
Proof. intros Hn. split; [done|]. apply Forall_fmap. eapply Forall_impl; [done|]. apply node_typed. Qed.

#[export] Hint Resolve nodes_typed : packets.

Lemma packet_typed p : packetOK p → ∃ t, packetTyp (ptypeOf p) = Some t ∧ isElem t = true ∧ hasType t (packetVal p).
Proof.
  destruct p as [v f t e rest|t tok e rest|t e rest|ns e rest]; cbn [packetOK ptypeOf packetVal]; intros Hok; eexists;
    (split; [reflexivity|]); (split; [done|]); apply hasType_struct; cbn [hasFields]; intuition (eauto with packets; done).
Qed.

(** ** Signatures *)

Lemma derElem_short tag content : (length content < 128)%nat → length (derElem tag content) = (length content + 2)%nat.
Proof. intros Hl. unfold derElem, derLen. rewrite (proj2 (Z.ltb_lt _ _)) by lia. cbn. lia. Qed.

Lemma derElem_medium tag content : (length content < 256)%nat → (length (derElem tag content) ≤ length content + 3)%nat.
Proof.
  intros Hl. unfold derElem, derLen. destruct (_ <? _); [cbn; lia|]. cbn [length app]. rewrite length_app.
  pose proof (bigBytes_length (Z.of_nat (length content)) 1 ltac:(change (256 ^ Z.of_nat 1) with 256; lia)). lia.
Qed.

Section Recover.
  Context {C : Curve} (smul : Z → Z * Z) {L : CurveLaws C smul}.

(** A signature fits its 140 bytes and names the key that made it. *)
Lemma cryptoSign_Ecrecover g hash priv sig : keyPair smul priv → privD priv ≠ 0 → cryptoSign g hash priv = Some (Ret sig) →
  (length sig ≤ sigSize)%nat ∧ ∃ k r s, 0 < k < curveN ∧ r = ((smul k).1 + beVal hash) mod curveN ∧
    (r + k ≠ curveN → (2 * s) mod curveN ≠ k → length (FromECDSAPub (privPub priv)) = 65%nat ∧ Ecrecover hash sig = Ret (FromECDSAPub (privPub priv))).
Proof.
  intros Hkey HD. unfold cryptoSign. destruct (Sign _ _ _ _ _) as [[[r s]|e|]|] eqn:HS; try done.
  destruct (SignDigitToSignData _ _ _) as [sig'|] eqn:Hsig; [|done]. intros [= ->].
  destruct (Sign_verifies smul _ _ _ _ _ _ _ Hkey HS) as (k & Hk & Hr & Hr' & Hs' & _ & Hyes).
  pose proof (N_big smul) as HN. pose proof Hkey as [HDr Hpub].
  assert (Hlp : length (FromECDSAPub (privPub priv)) = 65%nat).
  { rewrite Hpub. unfold FromECDSAPub. cbn [pubX pubY]. by apply FromECDSAPub_length. }
  assert (Hb : ∀ z, 0 < z < curveN → (length (derInt z) ≤ 33)%nat).
  { intros z Hz. apply (derInt_length z 32). change (256 ^ Z.of_nat 32) with (2 ^ 256). lia. }
  pose proof (Hb r Hr'). pose proof (Hb s Hs'). split.
  - unfold SignDigitToSignData in Hsig. apply (inj Some) in Hsig. subst sig.
    match goal with |- (length (derElem 48 ?c) ≤ _)%nat => assert (Hc : (length c ≤ 137)%nat) end.
    { rewrite !length_app, !derElem_short by lia. lia. }
    pose proof (derElem_medium 48 _ (Nat.le_lt_trans _ 137 256 Hc ltac:(lia))) as Hm. unfold sigSize. etransitivity; [exact Hm|]. lia.
  - exists k, r, s. split; [done|]. split; [done|]. intros E1 E2. split; [done|]. unfold Ecrecover, cryptoVerify.
    assert (Hsize : Z.of_nat (length (FromECDSAPub (privPub priv)) + length (derInt r) + length (derInt s)) < 2 ^ 30).
    { rewrite Hlp. lia. }
    rewrite (SignDataToSignDigit_SignDigitToSignData _ r s sig) by (done || lia).
    assert (Hto : ToECDSAPub (FromECDSAPub (privPub priv)) = Some (Some (privPub priv))).
    { unfold FromECDSAPub. rewrite Hpub. cbn [pubX pubY]. unfold ToECDSAPub.
      change (ecMarshal (smul (privD priv)).1 (smul (privD priv)).2) with
        (4 :: pad32 (bigBytes (smul (privD priv)).1) ++ pad32 (bigBytes (smul (privD priv)).2)) at 1.
      cbn iota. rewrite (ecUnmarshal_ecMarshal smul (privD priv)) by (rewrite Z.mod_small; done). done. }
    rewrite Hto. cbn [VerifyPtr]. by rewrite (Hyes E1 E2).
Qed.

Lemma cryptoSign_recovers g hash priv sig : keyPair smul priv → privD priv ≠ 0 → cryptoSign g hash priv = Some (Ret sig) →
  (length sig ≤ sigSize)%nat ∧ ∃ k r s, 0 < k < curveN ∧ r = ((smul k).1 + beVal hash) mod curveN ∧
    (r + k ≠ curveN → (2 * s) mod curveN ≠ k → recoverNodeID hash sig = Ret (drop 1 (FromECDSAPub (privPub priv)))).
Proof.
  intros Hkey HD HS. destruct (cryptoSign_Ecrecover g hash priv sig Hkey HD HS) as (Hl & k & r & s & Hk & Hr & He).
  split; [done|]. exists k, r, s. split; [done|]. split; [done|]. intros E1 E2. destruct (He E1 E2) as [H65 E]. unfold recoverNodeID. by rewrite E, H65.
Qed.

(** ** The format *)

(** The parts of a packet with a signature that fits. *)
Lemma packet_layout sig body : (length sig ≤ sigSize)%nat →
  let framed := replicate headSize 0 ++ body in
  drop macSize ((take macSize framed ++ sig ++ drop (macSize + length sig) framed) ++ [byteOf (Z.of_nat (length sig))]) =
  sig ++ replicate (sigSize - length sig) 0 ++ body ++ [Z.of_nat (length sig)].
Proof.
  intros Hl framed. unfold framed. rewrite take_app_le by (rewrite length_replicate; unfold headSize; lia).
  rewrite take_replicate. replace (Nat.min macSize headSize) with macSize by (unfold headSize, sigSize; lia).
  rewrite <- app_assoc, drop_app_length' by (by rewrite length_replicate).
  rewrite drop_app_le by (rewrite length_replicate; unfold headSize; lia). rewrite drop_replicate.
  replace (headSize - (macSize + length sig))%nat with (sigSize - length sig)%nat by (unfold headSize; lia).
  rewrite <- !app_assoc. unfold byteOf. rewrite Z.mod_small; [done|]. unfold sigSize in Hl. lia.
Qed.

Lemma recover_packet behind sig body : (length sig ≤ sigSize)%nat → body ≠ [] →
  let rest := sig ++ replicate (sigSize - length sig) 0 ++ body ++ [Z.of_nat (length sig)] in
  let buf := sm3 rest ++ rest in
  (headSize + 1 < length buf)%nat ∧ take macSize buf = sm3 (drop macSize buf) ∧
  take (length buf - 1 - headSize) (drop headSize buf) = body ∧
  take (Z.to_nat (nth (length buf - 1) buf 0)) (drop macSize buf ++ behind) = sig.
Proof.
  intros Hl Hb rest buf. assert (H3 : length (sm3 rest) = macSize) by apply sm3_length.
  assert (Hlen : length buf = (headSize + length body + 1)%nat).
  { unfold buf, rest. rewrite !length_app, sm3_length, length_replicate. cbn [length]. unfold headSize, macSize, sigSize in *. lia. }
  assert (Hb0 : (0 < length body)%nat) by (destruct body; [done|cbn; lia]).
  split; [lia|]. unfold buf at 1 2. rewrite take_app_length', drop_app_length' by done. split; [done|]. split.
  - rewrite Hlen. replace (headSize + length body + 1 - 1 - headSize)%nat with (length body) by lia.
    unfold buf, rest. rewrite !app_assoc. rewrite <- (app_assoc _ body). rewrite drop_app_length', take_app_length; [done|].
    rewrite !length_app, length_replicate, sm3_length. unfold headSize, macSize, sigSize in *. lia.
  - assert (Hn : nth (length buf - 1) buf 0 = Z.of_nat (length sig)).
    { unfold buf, rest. rewrite !app_assoc. rewrite app_nth2; rewrite !length_app; cbn [length]; [|lia]. match goal with |- nth ?n _ _ = _ => replace n with 0%nat by lia end. done. }
    rewrite Hn, Nat2Z.id. unfold buf. rewrite drop_app_length' by done. unfold rest. rewrite <- !app_assoc. by rewrite take_app_length.
Qed.

Lemma NewStream_zero b : NewStream b 0 = NewStream b (Z.of_nat (length b)).
Proof. unfold NewStream. cbn. by destruct (0 <? Z.of_nat (length b)). Qed.


End Recover.

(** ** The decoder on any input *)

Lemma mapM_shape {A} (f : gval → option A) (t : gtyp) l : (∀ v, shape t v → is_Some (f v)) → Forall (shape t) l → is_Some (mapM f l).
Proof. intros Hf Hl. apply mapM_is_Some. eapply Forall_impl; [exact Hl|]. exact Hf. Qed.

Lemma raw_shape v : shape TyRaw v → is_Some (rawOf v).
Proof. destruct v; done. Qed.

(** Takes the fields of a struct apart along its shape. *)
Ltac shapes :=
  repeat match goal with
  | H : shape (TyStruct _) ?v |- _ => destruct v as [| | | | | | | | | | |l| | | | |]; try (exfalso; exact H); cbn [shape] in H
  | H : _ ∧ _ |- _ => destruct H
  | H : match ?l with [] => _ | _ :: _ => _ end |- _ => destruct l; try (exfalso; exact H)
  | H : context [match ?v with VRaw _ => _ | _ => _ end] |- _ =>
      is_var v; destruct v; try (exfalso; exact H); cbn iota in H
  end.

Lemma node_shape v : shape nodeTyp v → is_Some (nodeOf v).
Proof. unfold nodeTyp. intros H. shapes. by eexists. Qed.

Lemma endpoint_shape v : shape endpointTyp v → is_Some (endpointOf v).
Proof. unfold endpointTyp. intros H. shapes. by eexists. Qed.

Lemma packet_shape ptype t v : packetTyp ptype = Some t → shape t v → is_Some (packetOf ptype v).
Proof.
  unfold packetTyp.
  destruct (Z.eqb_spec ptype 1) as [->|]; [|destruct (Z.eqb_spec ptype 2) as [->|]; [|destruct (Z.eqb_spec ptype 3) as [->|];
    [|destruct (Z.eqb_spec ptype 4) as [->|]; [|done]]]]; intros [= <-] Hs; shapes;
    repeat match goal with
    | H : shape endpointTyp _ |- _ => apply endpoint_shape in H as [? ?]
    | H : Forall (shape nodeTyp) _ |- _ => apply (mapM_shape nodeOf) in H as [? ?]; [|exact node_shape]
    | H : Forall _ _ |- _ => apply (mapM_shape rawOf TyRaw) in H as [? ?]; [|exact raw_shape]
    end; cbn [packetOf Z.eqb Pos.eqb]; simplify_option_eq; repeat case_match; eauto.
Qed.

Section Any.
  Context {C : Curve}.

(** Whatever arrives, the decoder ends, with a packet, an error or a panic. *)
Lemma decodePacket_total behind buf : is_Some (decodePacket behind buf).
Proof.
  unfold decodePacket. destruct (Nat.ltb _ _); [done|]. cbv zeta. destruct (negb _); [done|].
  destruct (recoverNodeID _ _) as [from|e|]; [|done..]. destruct (take _ _) as [|ptype data]; [done|].
  destruct (packetTyp ptype) as [t|] eqn:Ht; [|done].
  assert (Hl : loopsOK t = true).
  { unfold packetTyp in Ht. repeat case_match; simplify_eq; reflexivity. }
  pose proof (decode_total id data 0 t Hl) as Hd. destruct (decode _ _ _ _) as [[v|e|] s] eqn:E; cbn [fst] in *; [|done..].
  apply yields_decode in E. destruct (packet_shape _ _ _ Ht E) as [p ->]. done.
Qed.

(** What the decoder accepts was signed: the hash of the data verifies under the key whose
    bytes are the sender's identifier. *)
Lemma decodePacket_signed behind buf p from hash : decodePacket behind buf = Some (Ret (p, from, hash)) →
  hash = sm3 (drop macSize buf) ∧ ∃ sig sigdata x r s, SignDataToSignDigit sig = Some (x :: from, r, s) ∧
    sigdata = take (length buf - 1 - headSize) (drop headSize buf) ∧
    VerifyPtr (ToECDSAPub (x :: from)) (sm3 sigdata) r s = Ret true.
Proof.
  unfold decodePacket. destruct (Nat.ltb _ _); [done|]. cbv zeta. case_bool_decide as Hh; [|done]. cbn [negb].
  set (sigdata := take _ (drop headSize buf)) in *. set (sig := take (Z.to_nat _) _) in *.
  destruct (recoverNodeID (sm3 sigdata) sig) as [from'|e|] eqn:Hr; [|done..]. clearbody sig.
  assert (Hfrom : ∃ x r s, SignDataToSignDigit sig = Some (x :: from', r, s) ∧
    VerifyPtr (ToECDSAPub (x :: from')) (sm3 sigdata) r s = Ret true).
  { unfold recoverNodeID, Ecrecover, cryptoVerify in Hr. destruct (SignDataToSignDigit sig) as [[[pub r] s]|]; [|done].
    destruct (VerifyPtr (ToECDSAPub pub) (sm3 sigdata) r s) as [[]|e|] eqn:Hv; try done.
    destruct pub as [|x pub]; [done|]. destruct (negb _); [done|]. injection Hr as <-. cbn [drop]. by exists x, r, s. }
  assert (Hmatch : ∀ r, match sigdata with [] => Some Crash | ptype :: data =>
      match packetTyp ptype with None => Some (Fail "unknown type") | Some t =>
        match (decode id (S (length data)) t (NewStream data 0)).1 with DFuel => None | DErr _ => Some (Fail "rlp")
        | DOk v => match packetOf ptype v with None => None | Some p => Some (Ret (p, from', take macSize buf)) end end end end = Some (Ret r) →
      r.1.2 = from' ∧ r.2 = take macSize buf).
  { intros r. destruct sigdata as [|ptype data]; [done|]. destruct (packetTyp ptype); [|done].
    destruct (decode _ _ _ _) as [[v|e|] s]; cbn [fst]; [|done..]. destruct (packetOf ptype v); [|done]. by intros [= <-]. }
  intros [E1 E2]%Hmatch. cbn in E1, E2. subst from hash. split; [done|].
  destruct Hfrom as (x & r & s & H1 & H2). by exists sig, sigdata, x, r, s.
Qed.

(** A packet of 173 bytes, without a type: its hash is right and its signature, of the empty
    data, verifies.  The decoder looks at the type of nothing and panics. *)
Lemma decodePacket_crash behind sig id : (length sig ≤ sigSize)%nat → recoverNodeID (sm3 []) sig = Ret id →
  let rest := sig ++ replicate (sigSize - length sig) 0 ++ [Z.of_nat (length sig)] in
  length (sm3 rest ++ rest) = (headSize + 1)%nat ∧ decodePacket behind (sm3 rest ++ rest) = Some Crash.
Proof.
  intros Hl Hr rest. assert (H3 : length (sm3 rest) = macSize) by apply sm3_length.
  assert (Hrest : length rest = 141%nat) by (unfold rest; rewrite !length_app, length_replicate; cbn [length]; unfold sigSize in *; lia).
  assert (Hlen : length (sm3 rest ++ rest) = (headSize + 1)%nat) by (by rewrite length_app, H3, Hrest).
  split; [done|]. unfold decodePacket. rewrite Hlen, Nat.ltb_irrefl. cbv zeta. rewrite take_app_length', drop_app_length' by done.
  rewrite bool_decide_eq_true_2 by done. cbn [negb]. replace (headSize + 1 - 1 - headSize)%nat with 0%nat by lia. cbn [take].
  assert (Hn : nth (headSize + 1 - 1) (sm3 rest ++ rest) 0 = Z.of_nat (length sig)).
  { rewrite app_nth2 by (rewrite H3; unfold headSize; lia). rewrite H3. unfold rest. rewrite app_assoc, app_nth2;
      rewrite length_app, length_replicate; [|unfold headSize, sigSize in *; lia].
    match goal with |- nth ?n _ _ = _ => replace n with 0%nat by (unfold headSize, sigSize in *; lia) end. done. }
  assert (Hsig : take (length sig) (rest ++ behind) = sig) by (unfold rest; by rewrite <- !app_assoc, take_app_length).
  rewrite Hn, Nat2Z.id, Hsig. change (take 0 (drop headSize (sm3 rest ++ rest))) with (@nil Z). by rewrite Hr.
Qed.

End Any.

(** ** Handling *)

Record udpAddr := {
  uaIP : bytes;
  uaPort : Z
}.

Definition To16 (ip : bytes) : bytes :=
  if Nat.eqb (length ip) 4 then replicate 10 0 ++ [255; 255] ++ ip else if Nat.eqb (length ip) 16 then ip else [].

Definition makeEndpoint (addr : udpAddr) (tcpPort : Z) : rpcEndpoint :=
  {| epIP := match To4 (Some (uaIP addr)) with Some ip => ip | None => To16 (uaIP addr) end;
     epUDP := uaPort addr mod 2 ^ 16; epTCP := tcpPort |}.

Definition nodeToRPC (n : Node) : rpcNode :=
  {| rnIP := default [] (nIP n); rnUDP := nUDP n; rnTCP := nTCP n; rnID := nID n |}.

(** [IsMulticast] and [IsUnspecified] of an address. *)
Definition IsMulticast (ip : bytes) : bool :=
  match To4 (Some ip) with
  | Some (x :: _) => Z.land x 240 =? 224
  | _ => Nat.eqb (length ip) 16 && (nth 0 ip 0 =? 255)
  end.

Definition IsUnspecified (ip : bytes) : bool :=
  bool_decide (ip = [0; 0; 0; 0]) || bool_decide (ip = replicate 10 0 ++ [255; 255; 0; 0; 0; 0]) || bool_decide (ip = replicate 16 0).

(** [validateComplete]; [Pubkey] returns no error any more. *)
Definition validateComplete (n : Node) : option string :=
  match nIP n with
  | None => Some "incomplete node"
  | Some ip =>
      if nUDP n =? 0 then Some "missing UDP port"
      else if nTCP n =? 0 then Some "missing TCP port"
      else if IsMulticast ip || IsUnspecified ip then Some "invalid IP (multicast/unspecified)"
      else None
  end.

Definition nodeFromRPC (ref : nat) (rn : rpcNode) : Node * option string :=
  let n := NewNode ref (rnID rn) (Some (rnIP rn)) (rnUDP rn) (rnTCP rn) in (n, validateComplete n).

(** Seconds from the year 1 to 1970: [time.Time] counts from there, modulo 2^64. *)
Definition unixToInternal : Z := 62135596800.

(** [now] is in nanoseconds since 1970. *)
Definition expired (ts now : Z) : bool :=
  let sec := i64 (i64 ts + unixToInternal) in
  let nowSec := now / 1000000000 + unixToInternal in
  (sec <? nowSec) || ((sec =? nowSec) && (0 <? now mod 1000000000)).

Definition expirationSec : Z := 20.

(** [uint64(time.Now().Add(expiration).Unix())]. *)
Definition newExpiration (now : Z) : Z := u64 (now / 1000000000 + expirationSec).

Definition maxSizeNode : rpcNode := {| rnIP := replicate 16 0; rnUDP := 65535; rnTCP := 65535; rnID := replicate 64 0 |}.

(** The loop of [init]. *)
Fixpoint initLoop (fuel n : nat) (nodes : list rpcNode) : option nat :=
  match fuel with
  | O => None
  | S fuel =>
      let nodes := nodes ++ [maxSizeNode] in
      match EncodeToReader (packetVal (Neighbors nodes (two64 - 1) [])) with
      | Err _ => None
      | Ok (size, _) => if 1280 <=? Z.of_nat headSize + size + 1 then Some n else initLoop fuel (S n) nodes
      end
  end.

Definition maxNeighbors : nat := default 0%nat (initLoop 16 0 []).

(** The packets the neighbours are sent in. *)
Fixpoint chunkLoop (closest : list Node) (acc : list rpcNode) : list (list rpcNode) :=
  match closest with
  | [] => []
  | n :: rest =>
      let acc := acc ++ [nodeToRPC n] in
      if Nat.eqb (length acc) maxNeighbors || match rest with [] => true | _ => false end
      then acc :: chunkLoop rest [] else chunkLoop rest acc
  end.

Inductive action :=
  | ASend (to : udpAddr) (p : packet)
  | ABond (pinged : bool) (id : bytes) (addr : udpAddr) (tcpPort : Z).

(** The handlers.  [matched] is the answer of the reply queue, [known] whether the database
    has the sender, [closest] the nodes of the table nearest to a target. *)
Definition handlePacket (now : Z) (matched known : bool) (closest : bytes → list Node) (from : udpAddr) (fromID mac : bytes)
    (req : packet) : list action * option string :=
  match req with
  | Ping _ f _ e _ =>
      if expired e now then ([], Some "expired")
      else
        let tcp := epTCP f in
        (ASend from (Pong (makeEndpoint from tcp) mac (newExpiration now) []) ::
           (if matched then [] else [ABond true fromID from tcp]), None)
  | Pong _ _ e _ =>
      if expired e now then ([], Some "expired")
      else if matched then ([], None) else ([], Some "unsolicited reply")
  | Findnode target e _ =>
      if expired e now then ([], Some "expired")
      else if negb known then ([], Some "unknown node")
      else
        ((fun ns => ASend from (Neighbors ns (newExpiration now) [])) <$> chunkLoop (closest (sm3 target)) [], None)
  | Neighbors _ e _ =>
      if expired e now then ([], Some "expired")
      else if matched then ([], None) else ([], Some "unsolicited reply")
  end.

Lemma maxNeighbors_value : maxNeighbors = 11%nat.
Proof. vm_compute. reflexivity. Qed.

(** Nothing is sent to a node without a bond. *)
Lemma findnode_unknown now matched closest from fromID mac target e rest :
  (handlePacket now matched false closest from fromID mac (Findnode target e rest)).1 = [].
Proof. cbn. by destruct (expired e now). Qed.

(** ** Neighbours *)

Lemma chunkLoop_spec closest acc : (length acc < maxNeighbors)%nat →
  (closest ≠ [] → concat (chunkLoop closest acc) = acc ++ (nodeToRPC <$> closest)) ∧
  Forall (fun c => (0 < length c ≤ maxNeighbors)%nat) (chunkLoop closest acc).
Proof.
  revert acc. induction closest as [|n rest IH]; intros acc Hacc; cbn [chunkLoop]; [done|]. cbv zeta.
  assert (Hl : length (acc ++ [nodeToRPC n]) = S (length acc)) by (rewrite length_app; cbn; lia).
  assert (H0 : (length (@nil rpcNode) < maxNeighbors)%nat) by (rewrite maxNeighbors_value; cbn; lia).
  destruct (_ || _) eqn:Hsend.
  - destruct (IH [] H0) as [IH1 IH2]. split; [|constructor; [lia|done]]. intros _. cbn [concat].
    destruct rest as [|m rest]; [cbn; by rewrite app_nil_r|]. rewrite IH1 by done. by rewrite <- app_assoc.
  - apply orb_false_iff in Hsend as [Hne%Nat.eqb_neq Hr]. destruct rest as [|m rest]; [done|].
    destruct (IH (acc ++ [nodeToRPC n]) ltac:(lia)) as [IH1 IH2]. split; [|done]. intros _. rewrite IH1 by done. by rewrite <- app_assoc.
Qed.

(** *** Sizes *)

Lemma headsize_bound n k : 0 ≤ n < 256 ^ Z.of_nat k → (1 ≤ k ≤ 7)%nat → headsize n ≤ 1 + Z.of_nat k.
Proof.
  intros Hn Hk. unfold headsize. destruct (n <? 56); [lia|]. rewrite intsize_putint by lia.
  assert (Hu : is_u64 n).
  { unfold is_u64, two64. split; [lia|]. eapply Z.lt_le_trans; [apply Hn|]. change 18446744073709551616 with (256 ^ 8). apply Z.pow_le_mono_r; lia. }
  pose proof (putint_length_le n k Hu ltac:(lia) ltac:(lia)). lia.
Qed.

Lemma encStr_bound b : (length b < 256)%nat → (length (encStr b) ≤ length b + (if Nat.ltb (length b) 56 then 1 else 2))%nat.
Proof.
  intros Hb. assert (Hp : ∀ a c, (length (puthead a c (Z.of_nat (length b))) ≤ if Nat.ltb (length b) 56 then 1 else 2)%nat).
  { intros a c. pose proof (puthead_length a c (Z.of_nat (length b)) ltac:(lia)) as Hh. destruct (Nat.ltb_spec (length b) 56).
    - unfold headsize in Hh. rewrite (proj2 (Z.ltb_lt _ _)) in Hh by lia. lia.
    - pose proof (headsize_bound (Z.of_nat (length b)) 1 ltac:(change (256 ^ Z.of_nat 1) with 256; lia) ltac:(lia)). lia. }
  unfold encStr. destruct b as [|x [|y b]].
  - rewrite length_app. specialize (Hp 128 183). cbn [length] in *. lia.
  - specialize (Hp 128 183). cbn [length] in *. destruct (_ <=? _); [cbn; lia|]. rewrite length_app. cbn [length]. change (Z.of_nat 1) with 1 in Hp. lia.
  - rewrite length_app. specialize (Hp 128 183). lia.
Qed.

Lemma encUint_bound i k : is_u64 i → i < 256 ^ Z.of_nat k → (1 ≤ k ≤ 8)%nat → (length (encUint i) ≤ k + 1)%nat.
Proof.
  intros Hu Hi Hk. unfold encUint. destruct (i =? 0); [cbn; lia|]. pose proof (putint_length_le i k Hu Hi ltac:(lia)) as Hl.
  pose proof (encStr_bound (putint i) ltac:(lia)) as He. destruct (Nat.ltb_spec (length (putint i)) 56); lia.
Qed.

Lemma encList_bound content k : Z.of_nat (length content) < 256 ^ Z.of_nat k → (1 ≤ k ≤ 7)%nat →
  (length (encList content) ≤ length content + k + 1)%nat.
Proof.
  intros Hc Hk. unfold encList. rewrite length_app.
  pose proof (puthead_length 192 247 (Z.of_nat (length content)) ltac:(lia)) as Hh.
  pose proof (headsize_bound (Z.of_nat (length content)) k ltac:(lia) Hk). lia.
Qed.

(** A node of an address of at most 16 bytes. *)
Definition smallNode (n : rpcNode) : Prop := (length (rnIP n) ≤ 16)%nat ∧ rpcNodeOK n.

Lemma nodeVal_size n : smallNode n → ∃ e, encoding (nodeVal n) = Ok e ∧ (length e ≤ 91)%nat.
Proof.
  intros (Hip & Hu & Ht & Hid). eexists. split; [reflexivity|].
  pose proof (encStr_bound (rnIP n) ltac:(lia)) as B1. rewrite (proj2 (Nat.ltb_lt _ _)) in B1 by lia.
  pose proof (encStr_bound (rnID n) ltac:(rewrite Hid; unfold NodeIDLength; lia)) as B2. rewrite Hid in B2. cbn [Nat.ltb Nat.leb NodeIDLength] in B2.
  assert (B3 : ∀ z, u16 z → (length (encUint z) ≤ 3)%nat).
  { intros z Hz. unfold u16 in Hz. apply (encUint_bound z 2); [unfold is_u64, two64; lia|change (256 ^ Z.of_nat 2) with (2 ^ 16); lia|lia]. }
  pose proof (B3 _ Hu). pose proof (B3 _ Ht).
  etransitivity; [apply (encList_bound _ 1); [|lia]|]; rewrite !length_app; cbn [length]; unfold NodeIDLength in *;
    [change (256 ^ Z.of_nat 1) with 256; lia|lia].
Qed.

Lemma nodes_size ns : Forall smallNode ns → ∃ e, encSeq encoding (nodeVal <$> ns) = Ok e ∧ (length e ≤ 91 * length ns)%nat.
Proof.
  induction 1 as [|n ns Hn _ IH]; [by exists []|]. destruct (nodeVal_size n Hn) as (e & He & Hl). destruct IH as (es & Hes & Hls).
  exists (e ++ es). cbn [fmap list_fmap encSeq]. rewrite He. change (encSeq encoding (list_fmap _ _ nodeVal ns)) with (encSeq encoding (nodeVal <$> ns)).
  rewrite Hes. split; [done|]. rewrite length_app. cbn [length]. lia.
Qed.

(** A packet of at most [maxNeighbors] nodes is within 1280 bytes. *)
Lemma neighbors_fit {C : Curve} (smul : Z → Z * Z) {L : CurveLaws C smul} g priv ns e buf : keyPair smul priv → privD priv ≠ 0 →
  Forall smallNode ns → (length ns ≤ maxNeighbors)%nat → is_u64 e →
  encodePacket g priv (Neighbors ns e []) = Some (Ret buf) → (length buf ≤ 1280)%nat.
Proof.
  intros Hkey HD Hns Hl He. unfold encodePacket. destruct (EncodeToBytes _) as [data|] eqn:Hd; [|done].
  destruct (cryptoSign _ _ _) as [[sig|x|]|] eqn:Hs; try done.
  destruct (cryptoSign_recovers smul _ _ _ _ Hkey HD Hs) as [Hsig _]. cbv zeta. rewrite (packet_layout sig _ Hsig).
  assert (Hdata : (length data ≤ 1016)%nat).
  { rewrite maxNeighbors_value in Hl. rewrite EncodeToBytes_encoding in Hd.
    2:{ cbn. split; [|done]. clear -Hns. induction Hns as [|n ns (_ & Hu & Ht & _) _ IH]; cbn; [done|]. unfold u16, is_u64, two64 in *. split; [|done]. lia. }
    cbn [packetVal encoding encSeq] in Hd. destruct (nodes_size ns Hns) as (es & Hes & Hles). rewrite Hes in Hd. cbn [mapOk] in Hd.
    cbn [fmap list_fmap encSeq] in Hd. injection Hd as <-.
    pose proof (encUint_bound e 8 He ltac:(destruct He; done) ltac:(lia)) as Hu.
    pose proof (encList_bound es 2 ltac:(change (256 ^ Z.of_nat 2) with 65536; lia) ltac:(lia)) as Hes2.
    etransitivity; [apply (encList_bound _ 2); [|lia]|]; rewrite !length_app; cbn [length]; [change (256 ^ Z.of_nat 2) with 65536; lia|lia]. }
  intros [= <-]. rewrite length_app, sm3_length, !length_app, length_replicate. cbn [length]. rewrite length_app. cbn [length]. unfold sigSize in *. lia.
Qed.

(** The addresses of received nodes may have any length. *)
Lemma nodeFromRPC_any_length ref ip id : length ip ≠ 4%nat → length ip ≠ 16%nat →
  (nodeFromRPC ref {| rnIP := ip; rnUDP := 1; rnTCP := 1; rnID := id |}).2 = None.
Proof.
  intros H4 H16. unfold nodeFromRPC, NewNode, NewNodeByType, validateComplete, IsMulticast, IsUnspecified, To4.
  cbn [rnIP rnUDP rnTCP rnID fst snd nIP nUDP nTCP]. rewrite (proj2 (Nat.eqb_neq _ _) H4), (proj2 (Nat.eqb_neq _ _) H16). cbn [andb nIP nUDP nTCP].
  cbn [Z.eqb]. rewrite (proj2 (Nat.eqb_neq _ _) H4), (proj2 (Nat.eqb_neq _ _) H16). cbn [andb orb].
  rewrite !bool_decide_eq_false_2; [done|..]; intros ->; done.
Qed.

(** *** A packet of the toy curve *)

Import Toy.

Definition exFindnode : packet := Findnode (replicate 64 5) 1700000000 [].

Definition exPacket : bytes := match encodePacket toySigner (keyOf 7) exFindnode with Some (Ret b) => b | _ => [] end.


(** The packet is read back. *)
Lemma exPacket_decoded : decodePacket [] exPacket = Some (Ret (exFindnode, drop 1 (FromECDSAPub (privPub (keyOf 7))), take macSize exPacket)).
Proof. vm_compute. reflexivity. Qed.

(** A signature of the empty data: the packet that crashes the reader. *)
Definition emptySig : bytes := match cryptoSign toySigner (sm3 []) (keyOf 7) with Some (Ret sig) => sig | _ => [] end.

Lemma exCrash : ∃ buf, length buf = (headSize + 1)%nat ∧ decodePacket [] buf = Some Crash.
Proof.
  eexists. apply (decodePacket_crash [] emptySig (drop 1 (FromECDSAPub (privPub (keyOf 7))))).
  - vm_compute. lia.
  - vm_compute. reflexivity.
Qed.
