(* ===== verification/Replies.v ===== *)
(** * The queue of pending replies

    [src/p2p/discover/udp.go]: [loop], the goroutine that owns the queue of requests that
    wait for a reply, with its timer.  A request has a channel on which it gets one
    outcome; [sent] records the outcomes.  The queue is a [container/list]: removing an
    element clears its link to the next one, so a loop that removes the element it is at
    ends there, and that is how the three loops of the code are written here.  Times are
    nanoseconds; a step takes the time the loop reads before its [select] and the event,
    which carries the times its case reads.

    Properties: a request gets exactly one outcome or is still in the queue, so the loop
    never blocks on a channel of one place; a request times out only after its deadline;
    while the clock does not go back, no request is dropped for its deadline being too far
    off, and the timer is set for the front of the queue whenever there is one
    ([queue_invariant]).  A reply completes at most one request, although it is to be
    given to all that wait for it ([one_of_two]), and a clock that goes back can leave the
    queue without a timer ([warp_stalls]). *)

From stdpp Require Import base gmap sets list strings sorting.
From Stdlib Require Import ZArith Lia.
From S2P Require Import Prelude Common Table Packets.
Local Open Scope Z_scope.

Definition respTimeout : Z := 500000000.
Definition ntpFailureThreshold : nat := 32.
Definition ntpWarningCooldown : Z := 600000000000.

Inductive outcome := ONil | OTimeout | OClockWarp | OClosed.

(** A pending reply; [pdCount] is [nreceived] of the callback of [findnode], and [pdNodes]
    what it has collected. *)
Record pending := {
  pdRef : nat;
  pdFrom : bytes;
  pdType : Z;
  pdDeadline : Z;
  pdCount : nat;
  pdNodes : list rpcNode
}.

(** [timer] is the time the timer was last set for, or [None] when it is stopped. *)
Record queue := {
  plist : list pending;
  nextTimeout : option nat;
  timer : option Z;
  contTimeouts : nat;
  ntpWarnTime : Z;
  checks : nat;
  sent : list (nat * outcome * Z)
}.

Definition emptyQueue : queue :=
  {| plist := []; nextTimeout := None; timer := None; contTimeouts := 0; ntpWarnTime := 0; checks := 0; sent := [] |}.

(** The callbacks: those of [ping] and [waitping] are done at once, the one of [findnode]
    when 16 nodes have come, valid or not. *)
Definition callback (p : pending) (data : packet) : pending * bool :=
  match data with
  | Neighbors nodes _ _ =>
      let n := (pdCount p + length nodes)%nat in
      let good := List.filter (fun rn => match (nodeFromRPC 0 rn).2 with None => true | Some _ => false end) nodes in
      ({| pdRef := pdRef p; pdFrom := pdFrom p; pdType := pdType p; pdDeadline := pdDeadline p; pdCount := n; pdNodes := pdNodes p ++ good |},
       Nat.leb bucketSize n)
  | _ => (p, true)
  end.

Definition withList (q : queue) (l : list pending) (out : list (nat * outcome * Z)) : queue :=
  {| plist := l; nextTimeout := nextTimeout q; timer := timer q; contTimeouts := contTimeouts q; ntpWarnTime := ntpWarnTime q;
     checks := checks q; sent := sent q ++ out |}.

Definition withTimer (q : queue) (next : option nat) (t : option Z) : queue :=
  {| plist := plist q; nextTimeout := next; timer := t; contTimeouts := contTimeouts q; ntpWarnTime := ntpWarnTime q;
     checks := checks q; sent := sent q |}.

Definition withCount (q : queue) (n : nat) : queue :=
  {| plist := plist q; nextTimeout := nextTimeout q; timer := timer q; contTimeouts := n; ntpWarnTime := ntpWarnTime q;
     checks := checks q; sent := sent q |}.

(** [resetTimeout]: the first element either sets the timer or is removed, and the loop
    ends. *)
Definition resetTimeout (now : Z) (q : queue) : queue :=
  match plist q with
  | [] => q
  | p :: rest =>
      if bool_decide (nextTimeout q = Some (pdRef p)) then q
      else if pdDeadline p - now <? 2 * respTimeout then withTimer q (Some (pdRef p)) (Some (pdDeadline p))
      else withTimer (withList q rest [(pdRef p, OClockWarp, now)]) None None
  end.

(** The loop over the queue for a reply: the queue, the outcome, whether one matched. *)
Fixpoint gotLoop (l : list pending) (from : bytes) (ptype : Z) (data : packet) (now : Z) : list pending * list (nat * outcome * Z) * bool :=
  match l with
  | [] => ([], [], false)
  | p :: rest =>
      if bool_decide (pdFrom p = from) && (pdType p =? ptype) then
        let '(p', isDone) := callback p data in
        if isDone then (rest, [(pdRef p, ONil, now)], true)
        else let '(rest, out, _) := gotLoop rest from ptype data now in (p' :: rest, out, true)
      else let '(rest, out, m) := gotLoop rest from ptype data now in (p :: rest, out, m)
  end.

(** The loop over the queue when the timer fires. *)
Fixpoint timeoutLoop (l : list pending) (now : Z) : list pending * list (nat * outcome * Z) :=
  match l with
  | [] => ([], [])
  | p :: rest =>
      if pdDeadline p <=? now then (rest, [(pdRef p, OTimeout, now)])
      else let '(rest, out) := timeoutLoop rest now in (p :: rest, out)
  end.

(** The cases of the [select].  A tick of the timer carries its own time, which can be an old
    one: setting the timer again does not empty its channel. *)
Inductive rqEvent :=
  | EAdd (ref : nat) (from : bytes) (ptype now : Z)
  | EReply (from : bytes) (ptype : Z) (data : packet) (now : Z)
  | ETimer (tick now : Z)
  | EClose (now : Z).

Definition runEvent (ev : rqEvent) (q : queue) : queue :=
  match ev with
  | EAdd ref from ptype now =>
      withList q (plist q ++ [{| pdRef := ref; pdFrom := from; pdType := ptype; pdDeadline := now + respTimeout;
                                 pdCount := 0; pdNodes := [] |}]) []
  | EReply from ptype data now =>
      let '(l, out, matched) := gotLoop (plist q) from ptype data now in
      let q := withList q l out in
      if matched then withCount q 0 else q
  | ETimer tick now =>
      let '(l, out) := timeoutLoop (plist q) tick in
      let q := withList (withTimer q None (timer q)) l out in
      let n := (contTimeouts q + length out)%nat in
      if Nat.ltb ntpFailureThreshold n then
        let due := ntpWarningCooldown <=? now - ntpWarnTime q in
        {| plist := plist q; nextTimeout := None; timer := timer q; contTimeouts := 0;
           ntpWarnTime := if due then now else ntpWarnTime q; checks := if due then S (checks q) else checks q; sent := sent q |}
      else withCount q n
  | EClose now => withList q [] ((fun p => (pdRef p, OClosed, now)) <$> plist q)
  end.

(** One turn of the loop: the time of [resetTimeout] and the event.  [EClose] ends the loop:
    nothing is waiting any more. *)
Definition turn (t : Z) (ev : rqEvent) (q : queue) : queue := runEvent ev (resetTimeout t q).

(** ** Runs *)

(** The clock after a turn. *)
Definition evTime (ev : rqEvent) : Z := match ev with EAdd _ _ _ now | EReply _ _ _ now | ETimer _ now | EClose now => now end.

(** The requests an event adds, with their times. *)
Definition addedBy (ev : rqEvent) : list (nat * Z) := match ev with EAdd ref _ _ now => [(ref, now)] | _ => [] end.

(** Runs of the loop: the requests added, the time and the queue.  With [mono] the clock does
    not go back. *)
Inductive run (mono : bool) : list (nat * Z) → Z → queue → Prop :=
  | run_start c : run mono [] c emptyQueue
  | run_turn added c q t ev : run mono added c q → (mono = true → c ≤ t ≤ evTime ev) →
      (∀ ref, ref ∈ (addedBy ev).*1 → ref ∉ added.*1) → run mono (added ++ addedBy ev) (evTime ev) (turn t ev q).

Definition keys (l : list pending) : list (nat * Z) := (fun p => (pdRef p, pdDeadline p)) <$> l.

Definition answered (q : queue) : list nat := (fun x => x.1.1) <$> sent q.

Record queueOK (mono : bool) (added : list (nat * Z)) (c : Z) (q : queue) : Prop := {
  q_once : answered q ++ (keys (plist q)).*1 ≡ₚ added.*1;
  q_fresh : NoDup added.*1;
  q_deadline : ∀ r d, (r, d) ∈ keys (plist q) → (r, d - respTimeout) ∈ added;
  q_late : ∀ r now, (r, OTimeout, now) ∈ sent q → ∃ t, (r, t) ∈ added ∧ t + respTimeout ≤ now;
  q_next : ∀ r, nextTimeout q = Some r → r ∈ added.*1 ∧
    (r ∈ (keys (plist q)).*1 → ∃ d k, keys (plist q) = (r, d) :: k ∧ timer q = Some d);
  q_near : mono = true → ∀ r d, (r, d) ∈ keys (plist q) → d ≤ c + respTimeout;
  q_nowarp : mono = true → ∀ r now, (r, OClockWarp, now) ∉ sent q
}.

Lemma gotLoop_keys l from ptype data now : let '(l', out, _) := gotLoop l from ptype data now in
  (out = [] ∧ keys l' = keys l) ∨
  ∃ k1 r d k2, keys l = k1 ++ (r, d) :: k2 ∧ keys l' = k1 ++ k2 ∧ out = [(r, ONil, now)].
Proof.
  induction l as [|p l IH]; cbn [gotLoop]; [by left|]. destruct (_ && _).
  - assert (Hc : pdRef (callback p data).1 = pdRef p ∧ pdDeadline (callback p data).1 = pdDeadline p) by (by destruct data).
    destruct (callback p data) as [p' isDone]. cbn [fst] in Hc. destruct Hc as [E1 E2]. destruct isDone.
    + right. exists [], (pdRef p), (pdDeadline p), (keys l). done.
    + destruct (gotLoop l from ptype data now) as [[l' out] m]. unfold keys in *. cbn. rewrite E1, E2.
      destruct IH as [[-> ->]|(k1 & r & d & k2 & -> & -> & ->)]; [by left|]. right. exists ((pdRef p, pdDeadline p) :: k1), r, d, k2. done.
  - destruct (gotLoop l from ptype data now) as [[l' out] m]. unfold keys in *. cbn.
    destruct IH as [[-> ->]|(k1 & r & d & k2 & -> & -> & ->)]; [by left|]. right. exists ((pdRef p, pdDeadline p) :: k1), r, d, k2. done.
Qed.

Lemma timeoutLoop_keys l now : let '(l', out) := timeoutLoop l now in
  (out = [] ∧ keys l' = keys l) ∨
  ∃ k1 r d k2, keys l = k1 ++ (r, d) :: k2 ∧ keys l' = k1 ++ k2 ∧ out = [(r, OTimeout, now)] ∧ d ≤ now.
Proof.
  induction l as [|p l IH]; cbn [timeoutLoop]; [by left|]. destruct (Z.leb_spec (pdDeadline p) now).
  - right. exists [], (pdRef p), (pdDeadline p), (keys l). done.
  - destruct (timeoutLoop l now) as [l' out]. unfold keys in *. cbn.
    destruct IH as [[-> ->]|(k1 & r & d & k2 & -> & -> & -> & ?)]; [by left|]. right. exists ((pdRef p, pdDeadline p) :: k1), r, d, k2. done.
Qed.

(** One request leaves the queue with its outcome. *)
Lemma remove_OK mono added c q q' k1 r d k2 o now : queueOK mono added c q →
  keys (plist q) = k1 ++ (r, d) :: k2 → keys (plist q') = k1 ++ k2 → sent q' = sent q ++ [(r, o, now)] →
  (nextTimeout q' = nextTimeout q ∧ timer q' = timer q ∨ nextTimeout q' = None) →
  (o = OTimeout → d ≤ now) → (mono = true → o ≠ OClockWarp) → queueOK mono added c q'.
Proof.
  intros [Q1 Q2 Q3 Q4 Q5 Q6 Q7] Hk Hk' Hs Hn Ho Hw. unfold answered in *.
  assert (Hin : ∀ x, x ∈ k1 ++ k2 → x ∈ keys (plist q)) by (intros x Hx; rewrite Hk; set_solver).
  assert (Hnd : NoDup (keys (plist q)).*1).
  { rewrite <- Q1 in Q2. by apply NoDup_app in Q2 as (_ & _ & Q2). }
  split; rewrite ?Hk', ?Hs; try done.
  - rewrite <- Q1, Hk. unfold answered. rewrite Hs, !fmap_app, <- app_assoc. cbn. f_equiv. by rewrite <- Permutation_middle.
  - intros r' d' Hx. apply Q3. by apply Hin.
  - intros r' now' [Hx|Hx]%elem_of_app; [by apply Q4|]. apply list_elem_of_singleton in Hx as [= -> <- ->].
    exists (d - respTimeout). split; [apply Q3; rewrite Hk; set_solver|]. specialize (Ho eq_refl). lia.
  - intros r' Hr'. destruct Hn as [[E1 E2]|E1]; [|congruence]. rewrite E1 in Hr'. rewrite E2. destruct (Q5 r' Hr') as [Ha Hf].
    split; [done|]. intros (x & -> & Hx)%list_elem_of_fmap. destruct Hf as (d' & k & Hk2 & Ht).
    { apply list_elem_of_fmap. exists x. split; [done|]. by apply Hin. }
    rewrite Hk in Hk2. destruct k1 as [|y k1]; cbn in Hk2.
    + exfalso. injection Hk2 as -> -> ->. rewrite Hk in Hnd. cbn in Hnd. apply NoDup_cons in Hnd as [Hnd _].
      apply Hnd. apply list_elem_of_fmap. by exists x.
    + injection Hk2 as -> <-. exists d', (k1 ++ k2). done.
  - intros Hm r' d' Hx. apply (Q6 Hm r'). by apply Hin.
  - intros Hm r' now' [Hx|Hx]%elem_of_app; [by apply (Q7 Hm r' now')|]. apply list_elem_of_singleton in Hx as [= -> <- ->]. by destruct (Hw Hm).
Qed.

(** Nothing leaves the queue. *)
Lemma same_OK mono added c q q' : queueOK mono added c q → keys (plist q') = keys (plist q) → sent q' = sent q →
  (nextTimeout q' = nextTimeout q ∧ timer q' = timer q ∨ nextTimeout q' = None) → queueOK mono added c q'.
Proof.
  intros [Q1 Q2 Q3 Q4 Q5 Q6 Q7] Hk Hs Hn. unfold answered in *. split; unfold answered; rewrite ?Hk, ?Hs; try done.
  intros r Hr. destruct Hn as [[E1 E2]|E1]; [|congruence]. rewrite E2. apply Q5. congruence.
Qed.

Lemma later_OK mono added c c' q : queueOK mono added c q → (mono = true → c ≤ c') → queueOK mono added c' q.
Proof. intros [Q1 Q2 Q3 Q4 Q5 Q6 Q7] Hc. split; try done. intros Hm r d Hx. specialize (Q6 Hm r d Hx). specialize (Hc Hm). lia. Qed.

Lemma keys_refs l : (keys l).*1 = pdRef <$> l.
Proof. unfold keys. rewrite <- list_fmap_compose. done. Qed.

Lemma resetTimeout_OK mono added c t q : queueOK mono added c q → (mono = true → c ≤ t) → queueOK mono added t (resetTimeout t q).
Proof.
  intros Q Hm%(later_OK _ _ _ t _ Q). clear Q. unfold resetTimeout. destruct (plist q) as [|p l] eqn:El; [done|].
  destruct (decide (nextTimeout q = Some (pdRef p))) as [E|E]; [by rewrite bool_decide_true by done|]. rewrite bool_decide_false by done.
  destruct (Z.ltb_spec (pdDeadline p - t) (2 * respTimeout)) as [Hd|Hd].
  - pose proof Hm as [Q1 Q2 Q3 Q4 Q5 Q6 Q7]. split; try done. cbn [nextTimeout withTimer timer plist]. intros r [= <-]. rewrite El. split.
    + rewrite <- Q1, El. unfold keys. cbn. set_solver.
    + intros _. exists (pdDeadline p), (keys l). done.
  - eapply (remove_OK _ _ _ q _ [] (pdRef p) (pdDeadline p) (keys l) OClockWarp t); try done; [by rewrite El|by right|].
    intros Hmono. pose proof (q_near _ _ _ _ Hm Hmono (pdRef p) (pdDeadline p)) as Hn. rewrite El in Hn. unfold keys in Hn. cbn in Hn.
    specialize (Hn ltac:(left)). unfold respTimeout in *. lia.
Qed.

(** The timer is set for the front of the queue, while the clock does not go back. *)
Lemma resetTimeout_armed added c t q p l : queueOK true added c q → c ≤ t → plist q = p :: l →
  plist (resetTimeout t q) = p :: l ∧ nextTimeout (resetTimeout t q) = Some (pdRef p) ∧ timer (resetTimeout t q) = Some (pdDeadline p).
Proof.
  intros Q Hc El. unfold resetTimeout. rewrite El. destruct (decide (nextTimeout q = Some (pdRef p))) as [E|E].
  - rewrite bool_decide_true by done. destruct (q_next _ _ _ _ Q _ E) as [_ Hf]. rewrite El in Hf. unfold keys in Hf. cbn in Hf.
    destruct Hf as (d & k & [= <- <-] & ?); [left|done].
  - rewrite bool_decide_false by done. pose proof (q_near _ _ _ _ Q eq_refl (pdRef p) (pdDeadline p)) as Hn. rewrite El in Hn.
    unfold keys in Hn. cbn in Hn. specialize (Hn ltac:(left)). destruct (Z.ltb_spec (pdDeadline p - t) (2 * respTimeout)); [done|].
    unfold respTimeout in *. lia.
Qed.

Lemma start_OK mono c : queueOK mono [] c emptyQueue.
Proof. split; try done; try set_solver. constructor. Qed.

(** A new request goes to the back, with its deadline. *)
Lemma add_OK mono added c q ref from ptype now : queueOK mono added c q → (mono = true → c ≤ now) → ref ∉ added.*1 →
  queueOK mono (added ++ [(ref, now)]) now (runEvent (EAdd ref from ptype now) q).
Proof.
  intros Q Hm Hr. apply (later_OK _ _ _ now _ Q) in Hm. clear Q. destruct Hm as [Q1 Q2 Q3 Q4 Q5 Q6 Q7]. unfold runEvent, withList. unfold answered in *.
  split; unfold answered; cbn [sent plist nextTimeout timer]; unfold keys in *; rewrite ?app_nil_r, ?fmap_app; cbn.
  - by rewrite app_assoc, Q1.
  - apply NoDup_app. split; [done|]. split; [set_solver|]. apply NoDup_singleton.
  - intros r d [Hx|Hx]%elem_of_app; [set_solver|]. apply list_elem_of_singleton in Hx as [= -> ->].
    replace (now + respTimeout - respTimeout) with now by lia. set_solver.
  - intros r t Hx. destruct (Q4 r t Hx) as (x & ? & ?). exists x. set_solver.
  - intros r Hx. destruct (Q5 r Hx) as [Ha Hf]. split; [set_solver|]. rewrite elem_of_app. intros [Hi|Hi].
    + destruct (Hf Hi) as (d & k & -> & ?). by exists d, (k ++ [(ref, now + respTimeout)]).
    + cbn in Hi. apply list_elem_of_singleton in Hi as ->. done.
  - intros E r d [Hx|Hx]%elem_of_app; [by apply (Q6 E r)|]. apply list_elem_of_singleton in Hx as [= -> ->]. lia.
  - done.
Qed.

Lemma reply_OK mono added c q from ptype data now : queueOK mono added c q → queueOK mono added c (runEvent (EReply from ptype data now) q).
Proof.
  intros Q. cbn [runEvent]. pose proof (gotLoop_keys (plist q) from ptype data now) as Hk.
  destruct (gotLoop (plist q) from ptype data now) as [[l out] m]. cbv zeta.
  destruct Hk as [[-> Hk]|(k1 & r & d & k2 & Hk & Hk' & ->)].
  - apply (same_OK _ _ _ q); destruct m; cbn; rewrite ?app_nil_r; auto.
  - apply (remove_OK _ _ _ q _ k1 r d k2 ONil now); destruct m; cbn; auto; done.
Qed.

Lemma timer_OK mono added c q tick now : queueOK mono added c q → queueOK mono added c (runEvent (ETimer tick now) q).
Proof.
  intros Q. cbn [runEvent]. pose proof (timeoutLoop_keys (plist q) tick) as Hk.
  destruct (timeoutLoop (plist q) tick) as [l out]. cbv zeta.
  destruct Hk as [[-> Hk]|(k1 & r & d & k2 & Hk & Hk' & -> & Hd)].
  - destruct (Nat.ltb ntpFailureThreshold _); apply (same_OK _ _ _ q); cbn; rewrite ?app_nil_r; auto.
  - destruct (Nat.ltb ntpFailureThreshold _); apply (remove_OK _ _ _ q _ k1 r d k2 OTimeout tick); cbn; auto; done.
Qed.

Lemma close_OK mono added c q now : queueOK mono added c q → queueOK mono added c (runEvent (EClose now) q).
Proof.
  intros [Q1 Q2 Q3 Q4 Q5 Q6 Q7]. unfold answered in *.
  assert (Hc : ∀ r o t, (r, o, t) ∈ (fun p => (pdRef p, OClosed, now)) <$> plist q → o = OClosed).
  { intros r o t (p & [= -> -> ->] & _)%list_elem_of_fmap. done. }
  assert (Hn : ∀ A (x : A), x ∉ []) by (intros; apply not_elem_of_nil).
  split; unfold answered; cbn [runEvent withList plist sent nextTimeout timer].
  - rewrite <- Q1, (keys_refs (plist q)), fmap_app, <- list_fmap_compose. cbn. rewrite app_nil_r. reflexivity.
  - done.
  - intros r d Hx. by destruct (Hn _ _ Hx).
  - intros r t [Hx|Hx%Hc]%elem_of_app; [by apply Q4|done].
  - intros r Hx. destruct (Q5 r Hx). split; [done|]. intros Hx'. by destruct (Hn _ _ Hx').
  - intros _ r d Hx. by destruct (Hn _ _ Hx).
  - intros Hm r t [Hx|Hx%Hc]%elem_of_app; [by apply (Q7 Hm r t)|done].
Qed.

Lemma queue_run_OK mono added c q : run mono added c q → queueOK mono added c q.
Proof.
  induction 1 as [c|added c q t ev Hr IH Hm Hf]; [apply start_OK|]. unfold turn.
  assert (Q : queueOK mono added t (resetTimeout t q)) by (apply (resetTimeout_OK _ _ c); [done|]; intros E; specialize (Hm E); lia).
  assert (Ht : mono = true → t ≤ evTime ev) by (intros E; specialize (Hm E); lia).
  destruct ev as [ref from ptype now|from ptype data now|tick now|now]; cbn [evTime addedBy] in *.
  - apply (add_OK _ _ t); [done|done|]. apply Hf. cbn. left.
  - rewrite app_nil_r. apply reply_OK. by apply (later_OK _ _ t).
  - rewrite app_nil_r. apply timer_OK. by apply (later_OK _ _ t).
  - rewrite app_nil_r. apply close_OK. by apply (later_OK _ _ t).
Qed.

(** C35. Whatever the requests, replies, ticks and clock, every request added has had exactly
    one outcome or is in the queue (so the loop never blocks on an outcome channel, which has
    one place), and a request times out only when its 500 ms have passed.  While the clock
    does not go back, no request is dropped for a deadline too far off, and before every
    [select] a non-empty queue has its timer set for the deadline of its front. *)
Theorem queue_invariant mono added c q : run mono added c q →
  (answered q ++ (pdRef <$> plist q) ≡ₚ added.*1 ∧ NoDup added.*1) ∧
  (∀ r now, (r, OTimeout, now) ∈ sent q → ∃ t, (r, t) ∈ added ∧ t + respTimeout ≤ now) ∧
  (mono = true → (∀ r now, (r, OClockWarp, now) ∉ sent q) ∧
    ∀ t p l, c ≤ t → plist q = p :: l →
      plist (resetTimeout t q) = p :: l ∧ timer (resetTimeout t q) = Some (pdDeadline p)).
Proof.
  intros Q%queue_run_OK. split_and!.
  - rewrite <- keys_refs. apply (q_once _ _ _ _ Q).
  - apply (q_fresh _ _ _ _ Q).
  - apply (q_late _ _ _ _ Q).
  - intros ->. split; [by apply (q_nowarp _ _ _ _ Q)|]. intros t p l Hc El. by destruct (resetTimeout_armed _ _ t _ _ _ Q Hc El) as (? & _ & ?).
Qed.

(** A request answered, one timed out, one waiting. *)
Definition exTurns : list (Z * rqEvent) :=
  [(0, EAdd 1 [1] 2 0); (5, EAdd 2 [2] 4 5); (6, EReply [1] 2 (Pong {| epIP := []; epUDP := 0; epTCP := 0 |} [] 0 []) 6);
   (6, ETimer 500000005 500000006); (500000006, EAdd 3 [1] 2 500000007)].

Definition exQueue : queue := fold_left (fun q te => turn te.1 te.2 q) exTurns emptyQueue.

Lemma queue_invariant_witness : run true [(1%nat, 0); (2%nat, 5); (3%nat, 500000007)] 500000007 exQueue ∧
  sent exQueue = [(1%nat, ONil, 6); (2%nat, OTimeout, 500000005)] ∧
  answered exQueue ++ (pdRef <$> plist exQueue) ≡ₚ [1%nat; 2%nat; 3%nat].
Proof.
  assert (R : run true [(1%nat, 0); (2%nat, 5); (3%nat, 500000007)] 500000007 exQueue).
  { refine (run_turn true [(1%nat, 0); (2%nat, 5)] 500000006 _ 500000006 (EAdd 3 [1] 2 500000007) _ _ _); [|by cbn; lia|by vm_compute; set_solver].
    refine (run_turn true [(1%nat, 0); (2%nat, 5)] 6 _ 6 (ETimer 500000005 500000006) _ _ _); [|by cbn; lia|by intros ? ?%not_elem_of_nil].
    refine (run_turn true [(1%nat, 0); (2%nat, 5)] 5 _ 6 (EReply [1] 2 (Pong {| epIP := []; epUDP := 0; epTCP := 0 |} [] 0 []) 6) _ _ _); [|by cbn; lia|by intros ? ?%not_elem_of_nil].
    refine (run_turn true [(1%nat, 0)] 0 _ 5 (EAdd 2 [2] 4 5) _ _ _); [|by cbn; lia|by vm_compute; set_solver].
    refine (run_turn true [] 0 _ 0 (EAdd 1 [1] 2 0) _ _ _); [apply run_start|by cbn; lia|by vm_compute; set_solver]. }
  split; [done|]. split; [by vm_compute|]. apply (queue_invariant true _ 500000007 exQueue R).
Defined.

(** Two requests to one node for the same kind of reply: one reply completes the first only,
    the loop having ended where it removed it. *)
Lemma one_of_two from ptype data now p1 p2 rest : pdFrom p1 = from → pdType p1 = ptype → pdFrom p2 = from → pdType p2 = ptype →
  (callback p1 data).2 = true → (callback p2 data).2 = true →
  gotLoop (p1 :: p2 :: rest) from ptype data now = (p2 :: rest, [(pdRef p1, ONil, now)], true).
Proof.
  intros E1 E2 _ _ C1 _. cbn [gotLoop]. rewrite bool_decide_true, E2, Z.eqb_refl by done. cbn [andb].
  destruct (callback p1 data) as [p' b]. cbn in C1. by subst b.
Qed.

(** When the clock has gone back by more than the time a request may take, the front is
    dropped and the rest of the queue waits with the timer stopped. *)
Lemma warp_stalls now q p1 p2 rest : plist q = p1 :: p2 :: rest → nextTimeout q ≠ Some (pdRef p1) → 2 * respTimeout ≤ pdDeadline p1 - now →
  plist (resetTimeout now q) = p2 :: rest ∧ timer (resetTimeout now q) = None ∧ sent (resetTimeout now q) = sent q ++ [(pdRef p1, OClockWarp, now)].
Proof.
  intros El Hn Hd. unfold resetTimeout. rewrite El, bool_decide_false by done. destruct (Z.ltb_spec (pdDeadline p1 - now) (2 * respTimeout)); [lia|done].
Qed.
