(* ===== verification/Frames.v ===== *)
(** * Frames of the encrypted transport

    [src/p2p/rlpx.go]: [rlpxFrameRW] with [WriteMsg] and [ReadMsg].  A frame is an encrypted
    header with its MAC, the encrypted code and payload padded to 16 bytes, and a MAC; the
    MACs are running hashes of what was sent, stirred with a block cipher.  The block cipher
    is an argument [aes] of the definitions (a key and a block give a block): the theorems
    hold for every one.  The counter mode over it is written out.  [Sum] of the hash changes its state
    (see [Sm3]), and so the states here carry what [Sum] leaves.  A read returns an error
    when the input ends, and then the connection is dropped.

    Properties: whatever messages the two ends write and read, in any interleaving, each end
    receives what the other sent, in order, and no MAC check fails ([transport_fifo]); it
    does not matter in which pieces a payload is copied. *)

From stdpp Require Import base list strings.
From Stdlib Require Import ZArith Lia.
From S2P Require Import Prelude Common Words RlpEncode RlpRaw RlpDecode RlpRoundtrip RlpTotal RlpCanonical RlpTyped BigInt Sm3 Sm2 P256Field Encoding Signature Pns Protocol Discover Table Packets.
Local Open Scope Z_scope.

Definition maxUint24 : Z := 2 ^ 24 - 1.

Definition zeroHeader : bytes := [0xC2; 0x80; 0x80].

Definition zero16 : bytes := replicate 16 0.

Definition readInt24 (b : bytes) : Z :=
  Z.lor (Z.lor (nth 2 b 0) (u32 (Z.shiftl (nth 1 b 0) 8))) (u32 (Z.shiftl (nth 0 b 0) 16)).

(** The three bytes [putInt24] stores. *)
Definition putInt24 (v : Z) : bytes := [byteOf (Z.shiftr v 16); byteOf (Z.shiftr v 8); byteOf v].

(** The two ends of the stream: [enc] and [dec] are how far the two key streams have been
    used. *)
Record rlpxFrameRW := {
  fKey : bytes;
  fMacKey : bytes;
  enc : Z;
  dec : Z;
  egressMAC : SM3;
  ingressMAC : SM3
}.

(** [io.ReadFull]: what is read and what is left. *)
Definition ReadFull (input : bytes) (n : nat) : gores (bytes * bytes) :=
  if Nat.leb n (length input) then Ret (take n input, drop n input) else Fail "unexpected EOF".

Section Frames.
  Context (aes : bytes → bytes → bytes).

(** A counter as a block, big-endian. *)
Definition counterBlock (n : Z) : bytes :=
  (fun k => Z.land (Z.shiftr n k) 255) <$> [120; 112; 104; 96; 88; 80; 72; 64; 56; 48; 40; 32; 24; 16; 8; 0].

(** Byte [i] of the key stream of counter mode with a zero initial counter. *)
Definition keyByte (key : bytes) (i : Z) : Z := nth (Z.to_nat (i mod 16)) (aes key (counterBlock (i / 16))) 0.

(** [XORKeyStream] from position [pos]. *)
Definition XORKeyStream (key : bytes) (pos : Z) (data : bytes) : bytes :=
  imap (fun j b => Z.lxor b (keyByte key (pos + Z.of_nat j))) data.

(** [updateMAC]: the MAC and the hash. *)
Definition updateMAC (mac : SM3) (key seed : bytes) : gores (bytes * SM3) :=
  r ← Sum mac [];
  let aesbuf := take 16 (aes key (take 16 r.1)) in
  r ← Sum (Write r.2 (xorBytes aesbuf seed)) [];
  Ret (take 16 r.1, r.2).

(** [tee.Write]: the bytes written, the position and the hash. *)
Definition teeWrite (key : bytes) (st : bytes * Z * SM3) (data : bytes) : bytes * Z * SM3 :=
  let '(out, pos, mac) := st in
  let c := XORKeyStream key pos data in
  (out ++ c, pos + Z.of_nat (length data), Write mac c).

(** [WriteMsg] of a message whose payload is read in [chunks]: the state and the bytes
    written. *)
Definition FrameWriteMsg (rw : rlpxFrameRW) (code size : Z) (chunks : list bytes) : gores (rlpxFrameRW * bytes) :=
  let ptype := match EncodeToBytes (VUint code) with Ok b => b | Err _ => [] end in
  let fsize := u32 (Z.of_nat (length ptype) + size) in
  if maxUint24 <? fsize then Fail "message size overflows uint24"
  else
    let head := putInt24 fsize ++ zeroHeader ++ replicate 10 0 in
    let head := XORKeyStream (fKey rw) (enc rw) head in
    r ← updateMAC (egressMAC rw) (fMacKey rw) head;
    let st := foldl (teeWrite (fKey rw)) ([], enc rw + 16, r.2) (ptype :: chunks) in
    let padding := fsize mod 16 in
    let '(frame, pos, mac) := if 0 <? padding then teeWrite (fKey rw) st (take (16 - Z.to_nat padding) zero16) else st in
    f ← Sum mac [];
    m ← updateMAC f.2 (fMacKey rw) f.1;
    Ret ({| fKey := fKey rw; fMacKey := fMacKey rw; enc := pos; dec := dec rw; egressMAC := m.2; ingressMAC := ingressMAC rw |},
         head ++ r.1 ++ frame ++ m.1).

(** [ReadMsg]: the message, the state and the input that is left. *)
Definition FrameReadMsg (rw : rlpxFrameRW) (input : bytes) : gores (Msg * rlpxFrameRW * bytes) :=
  h ← ReadFull input 32;
  let head := take 16 h.1 in
  r ← updateMAC (ingressMAC rw) (fMacKey rw) head;
  if negb (bool_decide (r.1 = drop 16 h.1)) then Fail "bad header MAC"
  else
    let head := XORKeyStream (fKey rw) (dec rw) head in
    let fsize := readInt24 head in
    let padding := fsize mod 16 in
    let rsize := if 0 <? padding then u32 (fsize + (16 - padding)) else fsize in
    b ← ReadFull h.2 (Z.to_nat rsize);
    let mac := Write r.2 b.1 in
    f ← Sum mac [];
    t ← ReadFull b.2 16;
    m ← updateMAC f.2 (fMacKey rw) f.1;
    if negb (bool_decide (m.1 = t.1)) then Fail "bad frame MAC"
    else
      let frame := XORKeyStream (fKey rw) (dec rw + 16) b.1 in
      let content := take (Z.to_nat fsize) frame in
      match decode id (S (length content)) (TyUint 64) (NewStream content 0) with
      | (DOk (VUint code), s) =>
          let payload := sInput s in
          Ret ({| msgCode := code; msgSize := u32 (Z.of_nat (length payload)); msgPayload := payload |},
               {| fKey := fKey rw; fMacKey := fMacKey rw; enc := enc rw; dec := dec rw + 16 + Z.of_nat (length b.1);
                  egressMAC := egressMAC rw; ingressMAC := m.2 |}, t.2)
      | _ => Fail "rlp"
      end.

End Frames.

(** ** The running hash *)

Lemma Write_Write s a b : Write (Write s a) b = Write s (a ++ b).
Proof.
  set (m := unhandleMsg s ++ a). assert (Em : unhandleMsg s ++ a ++ b = m ++ b) by (unfold m; by rewrite app_assoc).
  unfold Write at 1 3. cbn [unhandleMsg msgLength]. rewrite Em.
  change (unhandleMsg (Write s a)) with (rest m). change (msgLength (Write s a)) with (u64 (msgLength s + u64 (Z.of_nat (length a) * 8))).
  f_equal.
  - change (updateLoop (length ?x) (digest ?t) ?x) with (digest (update t x)). rewrite !update_chain.
    change (digest (Write s a)) with (digest (update s m)). rewrite update_chain, <- (chain_full _ m).
    rewrite <- (chain_app _ _ _ _ (length_full m)), app_assoc, full_rest. done.
  - rewrite length_app. unfold u64. rewrite Zplus_mod_idemp_l, (Zplus_mod_idemp_r _ (_ + _ mod _)).
    set (x := Z.of_nat (length a) * 8). set (y := Z.of_nat (length b) * 8).
    replace (msgLength s + x mod two64 + y) with (msgLength s + y + x mod two64) by lia.
    rewrite !Zplus_mod_idemp_r. f_equal. subst x y. lia.
  - change (drop (length ?x / 64 * 64) ?x) with (rest x). apply rest_app.
Qed.

Lemma pad_total s : ∃ m, pad s = Ret m.
Proof.
  unfold pad. set (m := unhandleMsg s ++ [0x80]). destruct (padZeros_spec 64 m) as (k & -> & _ & Hm).
  { pose proof (Nat.mod_upper_bound (length m) 64 ltac:(lia)) as Hr. exists ((120 - length m mod 64) mod 64)%nat.
    split; [pose proof (Nat.mod_upper_bound (120 - length m mod 64) 64); lia|].
    rewrite Nat.Div0.add_mod_idemp_r, <- Nat.Div0.add_mod_idemp_l.
    replace (length m mod 64 + (120 - length m mod 64))%nat with 120%nat by lia. done. }
  eexists. rewrite !length_app, length_replicate. cbn [length lengthBytes fmap list_fmap].
  rewrite <- Nat.Div0.add_mod_idemp_l, Hm. done.
Qed.

Lemma Sum_total s : ∃ d s', Sum s [] = Ret (d, s') ∧ length d = 32%nat.
Proof.
  unfold Sum. destruct (pad_total (Write s [])) as [m ->]. cbn [mbind gores_bind]. do 2 eexists. split; [done|].
  unfold digestBytes. by destruct (digest _) as [[[[[[[? ?] ?] ?] ?] ?] ?] ?].
Qed.

Lemma updateMAC_total aes mac key seed : ∃ m s', updateMAC aes mac key seed = Ret (m, s') ∧ length m = 16%nat.
Proof.
  unfold updateMAC. destruct (Sum_total mac) as (d & s1 & -> & _). cbn [mbind gores_bind fst snd].
  destruct (Sum_total (Write s1 (xorBytes (take 16 (aes key (take 16 d))) seed))) as (d2 & s2 & -> & H2). cbn [mbind gores_bind fst snd].
  do 2 eexists. split; [done|]. rewrite length_take. lia.
Qed.

(** ** The key stream *)

Lemma XOR_length aes key pos data : length (XORKeyStream aes key pos data) = length data.
Proof. apply length_imap. Qed.

Lemma XOR_app aes key pos a b :
  XORKeyStream aes key pos (a ++ b) = XORKeyStream aes key pos a ++ XORKeyStream aes key (pos + Z.of_nat (length a)) b.
Proof. unfold XORKeyStream. rewrite imap_app. f_equal. apply imap_ext. intros i x _. do 2 f_equal. unfold compose. lia. Qed.

Lemma XOR_XOR aes key pos (data : list Z) : XORKeyStream aes key pos (XORKeyStream aes key pos data) = data.
Proof.
  apply list_eq. intros i. unfold XORKeyStream. rewrite !list_lookup_imap. destruct (data !! i) as [x|]; [|done].
  cbn [fmap option_fmap option_map]. f_equal. by rewrite Z.lxor_assoc, Z.lxor_nilpotent, Z.lxor_0_r.
Qed.

(** Writing in pieces is writing the whole. *)
Lemma tee_tee aes key out pos mac a b :
  teeWrite aes key (teeWrite aes key (out, pos, mac) a) b = teeWrite aes key (out, pos, mac) (a ++ b).
Proof.
  unfold teeWrite. rewrite XOR_app, Write_Write, <- app_assoc, length_app. f_equal. f_equal. lia.
Qed.

Lemma tee_all aes key out pos mac d ds :
  foldl (teeWrite aes key) (out, pos, mac) (d :: ds) = teeWrite aes key (out, pos, mac) (d ++ concat ds).
Proof.
  cbn [foldl]. revert d. induction ds as [|x ds IH]; intros d; cbn [foldl concat]; [by rewrite app_nil_r|].
  by rewrite tee_tee, IH, <- app_assoc.
Qed.

(** ** Sizes *)

Lemma int24_roundtrip v l : 0 ≤ v ≤ maxUint24 → readInt24 (putInt24 v ++ l) = v.
Proof.
  unfold maxUint24. intros Hv. unfold readInt24, putInt24, byteOf. cbn [app nth]. rewrite !Z.shiftr_div_pow2, !Z.shiftl_mul_pow2 by lia.
  assert (H0 : 0 ≤ v mod 256 < 256) by (apply Z.mod_pos_bound; lia).
  assert (H1 : 0 ≤ (v / 2 ^ 8) mod 256 < 256) by (apply Z.mod_pos_bound; lia).
  assert (H2 : (v / 2 ^ 16) mod 256 = v / 2 ^ 16).
  { apply Z.mod_small. split; [apply Z.div_pos; lia|]. apply Z.div_lt_upper_bound; lia. }
  assert (H3 : 0 ≤ v / 2 ^ 16 < 256) by (rewrite <- H2; apply Z.mod_pos_bound; lia). rewrite H2.
  assert (H4 : v = v mod 256 + 2 ^ 8 * ((v / 2 ^ 8) mod 256) + 2 ^ 16 * (v / 2 ^ 16)).
  { pose proof (Z.div_mod v 256 ltac:(lia)). pose proof (Z.div_mod (v / 256) 256 ltac:(lia)) as H5. rewrite Z.div_div in H5 by lia.
    change (2 ^ 8) with 256. change (2 ^ 16) with (256 * 256). lia. }
  clear H2. revert H0 H1 H3 H4. generalize (v mod 256), ((v / 2 ^ 8) mod 256), (v / 2 ^ 16). intros x y z H0 H1 H3 H4.
  unfold u32, two32. rewrite (Z.mod_small (y * 2 ^ 8)), (Z.mod_small (z * 2 ^ 16)) by lia.
  rewrite (Z.mul_comm _ (2 ^ 8)), (Z.mul_comm _ (2 ^ 16)), (lor_disjoint x y 8), (lor_disjoint _ z 16) by lia. lia.
Qed.

(** The padding of a frame. *)
Definition padding (fsize : Z) : bytes := if 0 <? fsize mod 16 then take (16 - Z.to_nat (fsize mod 16)) zero16 else [].

Definition rounded (fsize : Z) : Z := if 0 <? fsize mod 16 then u32 (fsize + (16 - fsize mod 16)) else fsize.

Lemma rounded_length fsize l : 0 ≤ fsize ≤ maxUint24 → Z.of_nat (length l) = fsize → Z.of_nat (length (l ++ padding fsize)) = rounded fsize.
Proof.
  unfold maxUint24, rounded, padding, zero16. intros Hf Hl. pose proof (Z.mod_pos_bound fsize 16 ltac:(lia)).
  rewrite length_app. destruct (0 <? fsize mod 16); [|cbn; lia]. rewrite length_take, length_replicate.
  unfold u32, two32. revert H. generalize (fsize mod 16). intros k Hk. rewrite Z.mod_small by lia. lia.
Qed.

(** ** One message *)

Definition outHalf (rw : rlpxFrameRW) : bytes * bytes * Z * SM3 := (fKey rw, fMacKey rw, enc rw, egressMAC rw).
Definition inHalf (rw : rlpxFrameRW) : bytes * bytes * Z * SM3 := (fKey rw, fMacKey rw, dec rw, ingressMAC rw).

Definition ptypeBytes (code : Z) : bytes := match EncodeToBytes (VUint code) with Ok b => b | Err _ => [] end.

Lemma ptype_ok code : is_u64 code → EncodeToBytes (VUint code) = Ok (ptypeBytes code) ∧ ptypeBytes code = encUint code.
Proof.
  intros Hc. unfold ptypeBytes. assert (wtVal (VUint code)) by (by eapply (hasType_wt (TyUint 64)), uint64_typed).
  rewrite EncodeToBytes_encoding by done. done.
Qed.

(** A value at the front of the input is decoded and the rest left. *)
Lemma decode_front t v e rest : isElem t = true → hasType t v → EncodeToBytes v = Ok e → Z.of_nat (length (e ++ rest)) < two64 →
  ∃ s, decode id (S (length (e ++ rest))) t (NewStream (e ++ rest) 0) = (DOk v, s) ∧ sInput s = rest.
Proof.
  intros Ht Hv He Hl. rewrite EncodeToBytes_encoding in He by (by eapply hasType_wt).
  set (c := e ++ rest) in *. rewrite NewStream_zero. destruct (NewStream_ok c Hl) as (Hok & Hn & Hr & Hi).
  assert (Hd : decodes (decode id (S (length c)) t) v e).
  { apply readsBack_elem; [apply readsBack_all|done..| |]; subst c; rewrite length_app in *; [unfold is_u64|]; lia. }
  destruct (decodes_fresh _ _ _ rest _ Hd Hok Hn) as (s' & Hs & [[Hin _ _ _] _]).
  { eapply room_mono; [|exact Hr]. subst c. rewrite length_app. lia. }
  { by rewrite Hi, app_nil_r. }
  exists s'. split; [done|]. rewrite Hin, Hi, Nat2Z.id, app_nil_r. subst c. by rewrite drop_app_length.
Qed.

(** The code is decoded and the payload left. *)
Lemma code_decoded code payload : is_u64 code → Z.of_nat (length (ptypeBytes code ++ payload)) < two64 →
  ∃ s, decode id (S (length (ptypeBytes code ++ payload))) (TyUint 64) (NewStream (ptypeBytes code ++ payload) 0) = (DOk (VUint code), s) ∧
       sInput s = payload.
Proof. intros Hc Hl. apply decode_front; [done|by apply uint64_typed|apply (ptype_ok code Hc)|done]. Qed.

Definition sendable (code : Z) (chunks : list bytes) : Prop :=
  is_u64 code ∧ Z.of_nat (length (ptypeBytes code)) + Z.of_nat (length (concat chunks)) ≤ maxUint24.

Definition received (code : Z) (chunks : list bytes) : Msg :=
  {| msgCode := code; msgSize := Z.of_nat (length (concat chunks)); msgPayload := concat chunks |}.

(** The plaintext of a frame. *)
Definition frameBody (code : Z) (chunks : list bytes) : bytes :=
  (ptypeBytes code ++ concat chunks) ++ padding (Z.of_nat (length (ptypeBytes code ++ concat chunks))).

Lemma FrameWriteMsg_eq aes rw code chunks : sendable code chunks →
  FrameWriteMsg aes rw code (Z.of_nat (length (concat chunks))) chunks =
  (let fsize := Z.of_nat (length (ptypeBytes code ++ concat chunks)) in
   let head := XORKeyStream aes (fKey rw) (enc rw) (putInt24 fsize ++ zeroHeader ++ replicate 10 0) in
   let frame := XORKeyStream aes (fKey rw) (enc rw + 16) (frameBody code chunks) in
   r ← updateMAC aes (egressMAC rw) (fMacKey rw) head;
   f ← Sum (Write r.2 frame) [];
   m ← updateMAC aes f.2 (fMacKey rw) f.1;
   Ret ({| fKey := fKey rw; fMacKey := fMacKey rw; enc := enc rw + 16 + Z.of_nat (length frame); dec := dec rw;
           egressMAC := m.2; ingressMAC := ingressMAC rw |}, head ++ r.1 ++ frame ++ m.1)).
Proof.
  intros [Hc Hs]. unfold FrameWriteMsg, frameBody, padding. fold (ptypeBytes code). cbv zeta.
  rewrite <- Nat2Z.inj_add, <- length_app in *. set (body := ptypeBytes code ++ concat chunks) in *. set (n := Z.of_nat (length body)) in *.
  assert (Hn : u32 n = n) by (unfold u32, two32, maxUint24 in *; apply Z.mod_small; lia). rewrite Hn.
  destruct (Z.ltb_spec maxUint24 n); [lia|]. destruct (updateMAC _ _ _ _) as [[mac s1]| |]; [|done..]. cbn [mbind gores_bind fst snd].
  rewrite tee_all. fold body. destruct (0 <? n mod 16).
  - rewrite tee_tee. unfold teeWrite. cbn [app]. by rewrite XOR_length.
  - unfold teeWrite. cbn [app]. by rewrite app_nil_r, XOR_length.
Qed.

Lemma ReadFull_app a b n : n = length a → ReadFull (a ++ b) n = Ret (a, b).
Proof. intros ->. unfold ReadFull. rewrite length_app, (proj2 (Nat.leb_le _ _)) by lia. by rewrite take_app_length, drop_app_length. Qed.

(** A message written is read by an end in the matching state, the states match again, and
    the other directions are as they were. *)
Lemma frame_roundtrip aes a b code chunks : outHalf a = inHalf b → sendable code chunks →
  ∃ a' b' out, FrameWriteMsg aes a code (Z.of_nat (length (concat chunks))) chunks = Ret (a', out) ∧
    (∀ rest, FrameReadMsg aes b (out ++ rest) = Ret (received code chunks, b', rest)) ∧
    outHalf a' = inHalf b' ∧ inHalf a' = inHalf a ∧ outHalf b' = outHalf b ∧ out ≠ [].
Proof.
  intros Hm Hs. rewrite FrameWriteMsg_eq by done. destruct Hs as [Hc Hs]. rewrite <- Nat2Z.inj_add, <- length_app in Hs. cbv zeta.
  injection Hm as E1 E2 E3 E4. rewrite E1, E2, E3, E4.
  set (body := ptypeBytes code ++ concat chunks) in *. set (n := Z.of_nat (length body)) in *.
  set (head := XORKeyStream _ _ _ (putInt24 n ++ _)). set (frame := XORKeyStream _ _ _ (frameBody _ _)).
  destruct (updateMAC_total aes (ingressMAC b) (fMacKey b) head) as (m1 & s1 & H1 & L1).
  destruct (Sum_total (Write s1 frame)) as (seed & s2 & H2 & _).
  destruct (updateMAC_total aes s2 (fMacKey b) seed) as (m3 & s3 & H3 & L3).
  rewrite H1. cbn [mbind gores_bind fst snd]. rewrite H2. cbn [mbind gores_bind fst snd]. rewrite H3. cbn [mbind gores_bind fst snd].
  assert (Lh : length head = 16%nat) by (subst head; by rewrite XOR_length).
  assert (Lf : Z.of_nat (length frame) = rounded n) by (subst frame; rewrite XOR_length; apply rounded_length; [lia|done]).
  assert (Hh : XORKeyStream aes (fKey b) (dec b) head = putInt24 n ++ zeroHeader ++ replicate 10 0) by apply XOR_XOR.
  assert (Hf : XORKeyStream aes (fKey b) (dec b + 16) frame = body ++ padding n) by apply XOR_XOR.
  clearbody head frame. eexists. exists {| fKey := fKey b; fMacKey := fMacKey b; enc := enc b; dec := dec b + 16 + Z.of_nat (length frame);
    egressMAC := egressMAC b; ingressMAC := s3 |}, (head ++ m1 ++ frame ++ m3).
  split_and!; [reflexivity| |done|by unfold inHalf; cbn; rewrite E1, E2|done|].
  - intros rest. unfold FrameReadMsg. rewrite <- !app_assoc, (app_assoc head m1), ReadFull_app by (by rewrite length_app, Lh, L1).
    cbn [mbind gores_bind fst snd]. rewrite (take_app_length' head), (drop_app_length' head) by done. rewrite H1. cbn [mbind gores_bind fst snd].
    rewrite bool_decide_true by done. cbn [negb]. rewrite Hh, int24_roundtrip by lia. fold (rounded n).
    rewrite ReadFull_app by lia. cbn [mbind gores_bind fst snd]. rewrite H2. cbn [mbind gores_bind fst snd].
    rewrite ReadFull_app by done. cbn [mbind gores_bind fst snd]. rewrite H3. cbn [mbind gores_bind fst snd].
    rewrite bool_decide_true by done. cbn [negb]. rewrite Hf, take_app_length' by (subst n; lia).
    destruct (code_decoded code (concat chunks) Hc) as (s & Hd & Hp). { fold body. fold n. unfold maxUint24, two64 in *. lia. }
    fold body in Hd. rewrite Hd, Hp. unfold received. do 4 f_equal. unfold u32, two32, maxUint24 in *.
    apply Z.mod_small. subst n body. rewrite length_app in Hs. lia.
  - destruct head; [done|]. done.
Qed.

(** ** Two ends *)

(** A message on its way: its code and the pieces its payload is read in. *)
Definition outgoing : Type := Z * list bytes.

Record end_ := { eRW : rlpxFrameRW; eSent : list outgoing; eGot : list Msg; eIn : bytes }.

(** Both ends; [eIn] is what has been sent to an end and not read. *)
Record link := { lA : end_; lB : end_ }.

Definition swap (l : link) : link := {| lA := lB l; lB := lA l |}.

Section Link.
  Context (aes : bytes → bytes → bytes).

(** The end [A] writes or reads a message. *)
Inductive endStep : link → link → Prop :=
  | end_write l code chunks rw out : sendable code chunks →
      FrameWriteMsg aes (eRW (lA l)) code (Z.of_nat (length (concat chunks))) chunks = Ret (rw, out) →
      endStep l {| lA := {| eRW := rw; eSent := eSent (lA l) ++ [(code, chunks)]; eGot := eGot (lA l); eIn := eIn (lA l) |};
                   lB := {| eRW := eRW (lB l); eSent := eSent (lB l); eGot := eGot (lB l); eIn := eIn (lB l) ++ out |} |}
  | end_read l m rw rest : FrameReadMsg aes (eRW (lA l)) (eIn (lA l)) = Ret (m, rw, rest) →
      endStep l {| lA := {| eRW := rw; eSent := eSent (lA l); eGot := eGot (lA l) ++ [m]; eIn := rest |}; lB := lB l |}.

Inductive linkStep : link → link → Prop :=
  | link_A l l' : endStep l l' → linkStep l l'
  | link_B l l' : endStep (swap l) l' → linkStep l (swap l').

(** Two ends whose states match and that have sent nothing. *)
Definition fresh (l : link) : Prop :=
  outHalf (eRW (lA l)) = inHalf (eRW (lB l)) ∧ outHalf (eRW (lB l)) = inHalf (eRW (lA l)) ∧
  eSent (lA l) = [] ∧ eGot (lA l) = [] ∧ eIn (lA l) = [] ∧ eSent (lB l) = [] ∧ eGot (lB l) = [] ∧ eIn (lB l) = [].

Inductive linkRun : link → Prop :=
  | linkRun_start l : fresh l → linkRun l
  | linkRun_step l l' : linkRun l → linkStep l l' → linkRun l'.

(** The bytes [wire] hold the messages [ms] for a reader in state [b], and having read them it
    matches a writer in state [h]. *)
Inductive carries : rlpxFrameRW → list outgoing → bytes → bytes * bytes * Z * SM3 → Prop :=
  | carries_nil b : carries b [] [] (inHalf b)
  | carries_cons b b' code chunks ms out wire h : out ≠ [] →
      (∀ rest, FrameReadMsg aes b (out ++ rest) = Ret (received code chunks, b', rest)) → outHalf b' = outHalf b →
      carries b' ms wire h → carries b ((code, chunks) :: ms) (out ++ wire) h.

(** Reading does not depend on what the end has written. *)
Lemma read_inHalf b b2 input : inHalf b = inHalf b2 →
  FrameReadMsg aes b2 input =
  ('(m, b', rest) ← FrameReadMsg aes b input;
   Ret (m, {| fKey := fKey b2; fMacKey := fMacKey b2; enc := enc b2; dec := dec b'; egressMAC := egressMAC b2; ingressMAC := ingressMAC b' |}, rest)).
Proof.
  intros [= E1 E2 E3 E4]. unfold FrameReadMsg. cbv zeta. rewrite <- E1, <- E2, <- E3, <- E4.
  repeat (match goal with |- context [negb ?c] => destruct (negb c); [done|] | |- mbind ?k ?x = _ => destruct x; [|done..]; cbn [mbind gores_bind] end).
  destruct (decode _ _ _ _) as [[v| |] s]; [|done..]. by destruct v.
Qed.

Lemma carries_inHalf b b2 ms wire h : inHalf b = inHalf b2 → carries b ms wire h → carries b2 ms wire h.
Proof.
  intros E Hc. revert b2 E. induction Hc as [b|b b1 code chunks ms out wire h Ho Hr Hb Hc IH]; intros b2 E.
  - rewrite E. apply carries_nil.
  - set (b3 := {| fKey := fKey b2; fMacKey := fMacKey b2; enc := enc b2; dec := dec b1; egressMAC := egressMAC b2; ingressMAC := ingressMAC b1 |}).
    apply (carries_cons b2 b3); [done| |done|].
    + intros rest. rewrite (read_inHalf b b2 _ E), Hr. done.
    + apply IH. unfold inHalf. injection Hb as K1 K2 _ _. injection E as K3 K4 _ _. cbn. by rewrite K1, K2, K3, K4.
Qed.

Lemma carries_snoc b ms wire a code chunks : carries b ms wire (outHalf a) → sendable code chunks →
  ∃ a' out, FrameWriteMsg aes a code (Z.of_nat (length (concat chunks))) chunks = Ret (a', out) ∧ inHalf a' = inHalf a ∧
    carries b (ms ++ [(code, chunks)]) (wire ++ out) (outHalf a').
Proof.
  intros Hc Hs. remember (outHalf a) as h eqn:Hh. induction Hc as [b|b b1 c ch ms out wire h Ho Hr Hb Hc IH].
  - destruct (frame_roundtrip aes a b code chunks) as (a' & b' & out & Hw & Hr & Hm & Hi & Hb & Ho); [done..|].
    exists a', out. split_and!; [done|done|]. cbn [app]. rewrite <- (app_nil_r out), Hm.
    by apply (carries_cons b b'); [..|apply carries_nil].
  - destruct (IH Hh) as (a' & out' & Hw & Hi & Hc'). exists a', out'. split_and!; [done|done|].
    cbn [app]. rewrite <- app_assoc. by apply (carries_cons b b1).
Qed.

Definition recv (x : outgoing) : Msg := received x.1 x.2.

(** What is on its way from [A] to [B]. *)
Definition flowOK (l : link) : Prop :=
  ∃ ms, recv <$> eSent (lA l) = eGot (lB l) ++ (recv <$> ms) ∧
    carries (eRW (lB l)) ms (eIn (lB l)) (outHalf (eRW (lA l))).

Lemma endStep_flow l l' : flowOK l → flowOK (swap l) → endStep l l' → flowOK l' ∧ flowOK (swap l').
Proof.
  intros F1 F2 Hs. destruct Hs as [l code chunks rw out Hse Hw|l m rw rest Hr].
  - destruct F1 as (ms & Hms & Hc). destruct (carries_snoc _ _ _ _ _ _ Hc Hse) as (a' & out' & Hw' & Hi & Hc').
    rewrite Hw in Hw'. injection Hw' as <- <-. split.
    + exists (ms ++ [(code, chunks)]). cbn. split; [|done]. by rewrite !fmap_app, Hms, <- app_assoc.
    + destruct F2 as (ms2 & Hms2 & Hc2). exists ms2. split; [done|]. cbn. by apply (carries_inHalf (eRW (lA l))).
  - destruct F2 as (ms & Hms & Hc). cbn [swap lA lB] in Hms, Hc. inversion Hc as [b Eb Em Ew|b b' code chunks ms' out wire h Ho Hr' Hb Hc' E1 E2 E3]; subst.
    + exfalso. rewrite <- Ew in Hr. unfold FrameReadMsg, ReadFull in Hr. cbn in Hr. done.
    + rewrite <- E3, Hr' in Hr. injection Hr as <- <- <-. split.
      * destruct F1 as (ms & Hms1 & Hc1). exists ms. split; [done|]. cbn. by rewrite Hb.
      * exists ms'. split; [|done]. cbn. cbn in Hms. by rewrite Hms, <- app_assoc.
Qed.

Lemma linkRun_flow l : linkRun l → flowOK l ∧ flowOK (swap l).
Proof.
  induction 1 as [l (E1 & E2 & S1 & G1 & I1 & S2 & G2 & I2)|l l' _ [F1 F2] Hs].
  - split; exists []; cbn; rewrite ?S1, ?S2, ?G1, ?G2, ?I1, ?I2, ?E1, ?E2; (split; [done|apply carries_nil]).
  - destruct Hs as [l l' Hs|l l' Hs]; [by apply (endStep_flow l)|].
    destruct (endStep_flow (swap l) l') as [H1 H2]; [done| |done|by split; [|destruct l']]. by destruct l.
Qed.

(** [B] has received a prefix of what [A] sent, and either has all of it, with nothing left to
    read, or reads the next message. *)
Definition delivers (l : link) : Prop :=
  (eIn (lB l) = [] ∧ eGot (lB l) = recv <$> eSent (lA l)) ∨
  ∃ m rw rest more, FrameReadMsg aes (eRW (lB l)) (eIn (lB l)) = Ret (m, rw, rest) ∧ recv <$> eSent (lA l) = eGot (lB l) ++ m :: more.

Lemma flow_delivers l : flowOK l → delivers l.
Proof.
  intros (ms & Hms & Hc). unfold delivers. inversion Hc as [b|b b' code chunks ms' out wire h Ho Hr Hb Hc' E1 E2 E3]; subst.
  - left. rewrite Hms. cbn. by rewrite app_nil_r.
  - right. exists (received code chunks), b', wire, (recv <$> ms'). by rewrite Hr.
Qed.

(** C30. Two ends with matching states, writing and reading messages in any interleaving: each end
    has received, in order and unchanged, a prefix of what the other sent; when there is
    more, the next read returns the next message (no MAC check fails, whatever pieces
    the payloads were copied in), and when nothing is on the wire all has been received;
    and every message whose frame fits 24 bits of size can be written. *)
Theorem transport_fifo l : linkRun l → delivers l ∧ delivers (swap l) ∧
  ∀ code chunks, sendable code chunks →
    ∃ rw out, FrameWriteMsg aes (eRW (lA l)) code (Z.of_nat (length (concat chunks))) chunks = Ret (rw, out).
Proof.
  intros [F1 F2]%linkRun_flow. split_and!; [by apply flow_delivers..|]. intros code chunks Hs.
  destruct F1 as (ms & _ & Hc). destruct (carries_snoc _ _ _ _ _ _ Hc Hs) as (rw & out & Hw & _). by exists rw, out.
Qed.

End Link.

(** A message from one end to the other, with a cipher that adds the key. *)
Definition exAes (key block : bytes) : bytes := (fun x => (x + nth 0 key 0) mod 256) <$> block.

Definition exRW (out in_ : bytes) : rlpxFrameRW :=
  {| fKey := [7]; fMacKey := [9]; enc := 0; dec := 0; egressMAC := Write New out; ingressMAC := Write New in_ |}.

Definition exEnd (out in_ : bytes) : end_ := {| eRW := exRW out in_; eSent := []; eGot := []; eIn := [] |}.

Definition exLink : link := {| lA := exEnd [1] [2]; lB := exEnd [2] [1] |}.

Definition exWritten : rlpxFrameRW * bytes := match FrameWriteMsg exAes (exRW [1] [2]) 16 3 [[1; 2]; [3]] with Ret r => r | _ => (exRW [] [], []) end.

Definition exSent : link :=
  {| lA := {| eRW := exWritten.1; eSent := [(16, [[1; 2]; [3]])]; eGot := []; eIn := [] |};
     lB := {| eRW := exRW [2] [1]; eSent := []; eGot := []; eIn := exWritten.2 |} |}.

Lemma transport_fifo_witness : linkRun exAes exSent ∧ length exWritten.2 = 64%nat ∧
  ∃ rw rest, FrameReadMsg exAes (exRW [2] [1]) exWritten.2 = Ret ({| msgCode := 16; msgSize := 3; msgPayload := [1; 2; 3] |}, rw, rest).
Proof.
  assert (Hs : sendable 16 [[1; 2]; [3]]) by (split; vm_compute; [by split|congruence]).
  assert (Hf : fresh exLink) by (split_and!; reflexivity).
  assert (W : FrameWriteMsg exAes (exRW [1] [2]) 16 3 [[1; 2]; [3]] = Ret exWritten) by (vm_compute; reflexivity).
  assert (L : length exWritten.2 = 64%nat) by (vm_compute; reflexivity).
  unfold exSent. revert W L. generalize exWritten. intros [rw out] W L. cbn [fst snd] in *.
  pose proof (linkRun_step exAes _ _ (linkRun_start exAes exLink Hf) (link_A exAes _ _ (end_write exAes exLink 16 [[1; 2]; [3]] rw out Hs W))) as R.
  split; [exact R|]. split; [exact L|].
  destruct (proj1 (transport_fifo exAes _ R)) as [[H _]|(m & rw' & rest & more & H & E)].
  - cbn [lB eIn exLink exEnd app] in H. rewrite H in L. discriminate L.
  - exists rw', rest. cbn [lA eSent lB eGot exLink exEnd app fmap list_fmap] in E. injection E as <- _. exact H.
Defined.
