(* ===== verification/Handshake.v ===== *)
(** * The encryption handshake

    [src/p2p/rlpx.go]: the messages of the two sides ([makeAuthMsg], [handleAuthMsg],
    [makeAuthResp], [handleAuthResp]), their sealing ([sealEIP8], [sealPlain]) and reading
    ([readHandshakeMsg]), and what both sides derive from them ([secrets],
    [newRLPXFrameRW]); with [GenerateShared] of [src/crypto-gm/sm2/sm2.go].  Random values
    (the nonce, the ephemeral key, the signer, the length of the padding, the reads of
    the encryption) are an argument [rnd]; [None] is a loop that has used up the reads it
    was given.  A side is a function of the bytes it receives.

    Properties: when both sides follow the protocol, each ends with the other's identity,
    the same keys and matching hash states, so that the frames of one are read by the other
    ([handshake_agrees]), but for the two exceptional kinds of signature
    of [Sm2] and a first read that decrypts by chance.  A message that announces a
    signature of more than 140 bytes panics the receiver ([handleAuthMsg_crash]), and a
    message in the old format is never accepted ([plain_rejected]). *)

From stdpp Require Import base list strings.
From Stdlib Require Import ZArith Znumtheory Lia.
From S2P Require Import Prelude Common Words RlpEncode RlpRaw RlpDecode RlpRoundtrip RlpTotal RlpCanonical RlpTyped BigInt Sm3 Sm2.
From S2P Require Import Encoding Signature Pns Protocol Discover Table Packets Frames.
Local Open Scope Z_scope.

Definition sskLen : Z := 16.
Definition sigLen : nat := 140.
Definition pubLen : nat := 64.
Definition shaLen : nat := 32.
Definition authMsgLen : nat := (sigLen + shaLen + pubLen + shaLen + 1)%nat.
Definition authRespLen : nat := (pubLen + shaLen + 1)%nat.
Definition eciesOverhead : nat := (65 + 16 + 32)%nat.
Definition encAuthMsgLen : nat := (authMsgLen + eciesOverhead)%nat.
Definition encAuthRespLen : nat := (authRespLen + eciesOverhead)%nat.

Record authMsgV4 := {
  amGotPlain : bool;
  amSignature : bytes;
  amInitiatorPubkey : bytes;
  amNonce : bytes;
  amVersion : Z;
  amSigSize : Z;
  amRest : list bytes
}.

Record authRespV4 := {
  arRandomPubkey : bytes;
  arNonce : bytes;
  arVersion : Z;
  arRest : list bytes
}.

(** *** The messages as RLP sees them: [gotPlain] is not exported *)

Definition authTyp : gtyp :=
  TyStruct [TyByteArray sigLen; TyByteArray pubLen; TyByteArray shaLen; TyUint 64; TyUint 64; TyTail TyRaw].

Definition authVal (m : authMsgV4) : gval :=
  VStruct [VByteArray (amSignature m); VByteArray (amInitiatorPubkey m); VByteArray (amNonce m); VUint (amVersion m); VUint (amSigSize m);
           VTail (VRaw <$> amRest m)].

Definition authOf (v : gval) : option authMsgV4 :=
  match v with
  | VStruct [VByteArray sig; VByteArray pub; VByteArray nonce; VUint version; VUint size; VTail rest] =>
      rest ← mapM rawOf rest;
      Some {| amGotPlain := false; amSignature := sig; amInitiatorPubkey := pub; amNonce := nonce; amVersion := version; amSigSize := size; amRest := rest |}
  | _ => None
  end.

Definition respTyp : gtyp := TyStruct [TyByteArray pubLen; TyByteArray shaLen; TyUint 64; TyTail TyRaw].

Definition respVal (m : authRespV4) : gval :=
  VStruct [VByteArray (arRandomPubkey m); VByteArray (arNonce m); VUint (arVersion m); VTail (VRaw <$> arRest m)].

Definition respOf (v : gval) : option authRespV4 :=
  match v with
  | VStruct [VByteArray pub; VByteArray nonce; VUint version; VTail rest] =>
      rest ← mapM rawOf rest; Some {| arRandomPubkey := pub; arNonce := nonce; arVersion := version; arRest := rest |}
  | _ => None
  end.

(** [s.Decode(msg)] on a stream over [dec]: what follows the value is ignored. *)
Definition rlpMsg {M} (t : gtyp) (read : gval → option M) (dec : bytes) : gores M :=
  match (decode id (S (length dec)) t (NewStream dec 0)).1 with
  | DOk v => match read v with Some m => Ret m | None => Fail "rlp" end
  | _ => Fail "rlp"
  end.

(** [copy] into an array of [k] zero bytes. *)
Definition copyArr (k : nat) (src : bytes) : bytes := take k (src ++ replicate k 0).

(** [input[n:]]. *)
Definition from_ (input : bytes) (n : nat) : gores bytes := if Nat.leb n (length input) then Ret (drop n input) else Crash.

Definition authDecodePlain (input : bytes) : gores authMsgV4 :=
  let n := (Nat.min sigLen (length input) + shaLen)%nat in
  rest ← from_ input n;
  let n := (n + Nat.min pubLen (length rest))%nat in
  rest' ← from_ input n;
  Ret {| amGotPlain := true; amSignature := copyArr sigLen input; amInitiatorPubkey := copyArr pubLen rest; amNonce := copyArr shaLen rest';
         amVersion := 4; amSigSize := 0; amRest := [] |}.

Definition respDecodePlain (input : bytes) : gores authRespV4 :=
  let n := Nat.min pubLen (length input) in
  rest ← from_ input n;
  Ret {| arRandomPubkey := copyArr pubLen input; arNonce := copyArr shaLen rest; arVersion := 4; arRest := [] |}.

(** [xor]: the second slice must be as long as the first. *)
Definition xor (one other : bytes) : gores bytes :=
  if Nat.leb (length one) (length other) then Ret (zip_with Z.lxor one other) else Crash.

(** The state of a handshake. *)
Record encHandshake := {
  hInitiator : bool;
  hRemoteID : bytes;
  hRemotePub : PublicKey;
  hInitNonce : bytes;
  hRespNonce : bytes;
  hRandomPrivKey : PrivateKey;
  hRemoteRandomPub : option PublicKey
}.

Record secretsT := {
  sRemoteID : bytes;
  sAES : bytes;
  sMAC : bytes;
  sEgressMAC : SM3;
  sIngressMAC : SM3
}.

(** The random values of one side. *)
Record hsRandom := {
  hrNonce : gores bytes;
  hrKey : gores PrivateKey;
  hrSigner : signer;
  hrPad : nat;
  hrReads : nat → option bytes;
  hrTurns : nat
}.

(** Sequencing of calls that may use up their reads. *)
Definition obind {A B} (m : option (gores A)) (k : A → option (gores B)) : option (gores B) :=
  match m with None => None | Some Crash => Some Crash | Some (Fail e) => Some (Fail e) | Some (Ret a) => k a end.

Notation "x <-- m ;; k" := (obind m (fun x => k)) (at level 100, m at next level, k at level 200, right associativity).

Section Handshake.
  Context {C : Curve}.

Definition MaxSharedKeyLength : Z := (curveBitSize + 7) / 8.

Definition GenerateShared (prv : PrivateKey) (pub : PublicKey) (skLen macLen : Z) : gores bytes :=
  if MaxSharedKeyLength <? skLen + macLen then Fail "ErrSharedKeyTooBig"
  else
    p ← curveScalarMult (pubX pub) (pubY pub) (bigBytes (privD prv));
    let skBytes := bigBytes p.1 in
    let n := Z.to_nat (skLen + macLen) in
    if Nat.ltb n (length skBytes) then Crash else Ret (replicate (n - length skBytes) 0 ++ skBytes).

Definition staticSharedSecret (h : encHandshake) (prv : PrivateKey) : gores bytes := GenerateShared prv (hRemotePub h) sskLen sskLen.

Definition exportPubkey (pub : PublicKey) : bytes := drop 1 (FromECDSAPub pub).

Definition importPublicKey (pubKey : bytes) : gores PublicKey :=
  let n := length pubKey in
  if negb (Nat.eqb n 64 || Nat.eqb n 65) then Fail "invalid public key length"
  else
    match ToECDSAPub (if Nat.eqb n 64 then 4 :: pubKey else pubKey) with
    | None => Crash
    | Some None => Fail "invalid public key"
    | Some (Some pub) => Ret pub
    end.

Definition makeAuthMsg (rnd : hsRandom) (prv : PrivateKey) (remoteID : bytes) : option (gores (encHandshake * authMsgV4)) :=
  let rpub := Pubkey remoteID in
  nonce <-- Some (hrNonce rnd) ;;
  key <-- Some (hrKey rnd) ;;
  let h := {| hInitiator := true; hRemoteID := remoteID; hRemotePub := rpub; hInitNonce := nonce; hRespNonce := [];
              hRandomPrivKey := key; hRemoteRandomPub := None |} in
  token <-- Some (staticSharedSecret h prv) ;;
  signed <-- Some (xor token nonce) ;;
  signature <-- cryptoSign (hrSigner rnd) signed key ;;
  Some (Ret (h, {| amGotPlain := false; amSignature := copyArr sigLen signature;
                   amInitiatorPubkey := copyArr pubLen (drop 1 (FromECDSAPub (privPub prv))); amNonce := copyArr shaLen nonce;
                   amVersion := 4; amSigSize := Z.of_nat (length signature); amRest := [] |})).

Definition handleAuthResp (h : encHandshake) (msg : authRespV4) : gores encHandshake :=
  pub ← importPublicKey (arRandomPubkey msg);
  Ret {| hInitiator := hInitiator h; hRemoteID := hRemoteID h; hRemotePub := hRemotePub h; hInitNonce := hInitNonce h;
         hRespNonce := arNonce msg; hRandomPrivKey := hRandomPrivKey h; hRemoteRandomPub := Some pub |}.

(** [sig[:size]] of the array. *)
Definition cutSignature (sig : bytes) (size : Z) : gores bytes :=
  if i64 size =? Z.of_nat (length sig) then Ret sig
  else if Z.of_nat (length sig) <? size then Crash else Ret (take (Z.to_nat size) sig).

Definition handleAuthMsg (rnd : hsRandom) (msg : authMsgV4) (prv : PrivateKey) : gores encHandshake :=
  let remoteID := amInitiatorPubkey msg in
  key ← hrKey rnd;
  let h := {| hInitiator := false; hRemoteID := remoteID; hRemotePub := Pubkey remoteID; hInitNonce := amNonce msg; hRespNonce := [];
              hRandomPrivKey := key; hRemoteRandomPub := None |} in
  token ← staticSharedSecret h prv;
  signedMsg ← xor token (amNonce msg);
  sig ← cutSignature (amSignature msg) (amSigSize msg);
  remoteRandomPub ← Ecrecover signedMsg sig;
  pub ← importPublicKey remoteRandomPub;
  Ret {| hInitiator := false; hRemoteID := remoteID; hRemotePub := Pubkey remoteID; hInitNonce := amNonce msg; hRespNonce := [];
         hRandomPrivKey := key; hRemoteRandomPub := Some pub |}.

Definition makeAuthResp (rnd : hsRandom) (h : encHandshake) : gores (encHandshake * authRespV4) :=
  nonce ← hrNonce rnd;
  Ret ({| hInitiator := hInitiator h; hRemoteID := hRemoteID h; hRemotePub := hRemotePub h; hInitNonce := hInitNonce h;
          hRespNonce := nonce; hRandomPrivKey := hRandomPrivKey h; hRemoteRandomPub := hRemoteRandomPub h |},
       {| arRandomPubkey := copyArr pubLen (exportPubkey (privPub (hRandomPrivKey h))); arNonce := copyArr shaLen nonce; arVersion := 4; arRest := [] |}).

Definition authSealPlain (rnd : hsRandom) (msg : authMsgV4) (h : encHandshake) : option (gores bytes) :=
  let buf := amSignature msg ++ sm3 (exportPubkey (privPub (hRandomPrivKey h))) ++ amInitiatorPubkey msg ++ amNonce msg ++ [0] in
  Encrypt (hrReads rnd) (hRemotePub h) buf (hrTurns rnd).

Definition respSealPlain (rnd : hsRandom) (msg : authRespV4) (h : encHandshake) : option (gores bytes) :=
  let buf := arRandomPubkey msg ++ arNonce msg ++ [0] in
  Encrypt (hrReads rnd) (hRemotePub h) buf (hrTurns rnd).

(** [sealEIP8]: [hrPad] is the length of the padding, from 100 to 299. *)
Definition sealEIP8 (rnd : hsRandom) (v : gval) (h : encHandshake) : option (gores bytes) :=
  match EncodeToBytes v with
  | Err e => Some (Fail e)
  | Ok data =>
      let buf := data ++ replicate (hrPad rnd) 0 in
      let n := Z.of_nat (length buf + eciesOverhead) mod 2 ^ 16 in
      enc <-- Encrypt (hrReads rnd) (hRemotePub h) buf (hrTurns rnd) ;;
      Some (Ret ([byteOf (Z.shiftr n 8); byteOf n] ++ enc))
  end.

(** [readHandshakeMsg]: the message, the packet and the input that is left. *)
Definition readHandshakeMsg {M} (plain rlp : bytes → gores M) (plainSize : nat) (prv : PrivateKey) (input : bytes) : gores (M * bytes * bytes) :=
  r ← ReadFull input plainSize;
  match Decrypt prv r.1 with
  | Crash => Crash
  | Ret (dec, true) => m ← plain dec; Ret (m, r.1, r.2)
  | _ =>
      let size := Z.lor (Z.shiftl (nth 0 r.1 0) 8) (nth 1 r.1 0) in
      if size <? Z.of_nat plainSize then Fail "size underflow"
      else
        let more := (size - 16 - Z.of_nat plainSize + 2) mod 2 ^ 16 in
        t ← ReadFull r.2 (Z.to_nat more);
        let buf := r.1 ++ t.1 in
        d ← Decrypt prv (drop 2 buf);
        if (d : bytes * bool).2 then m ← rlp d.1; Ret (m, buf, t.2) else Fail "Decrypt: failed to decrypt"
  end.

(** [secrets]. *)
Definition secrets (h : encHandshake) (auth authResp : bytes) : gores secretsT :=
  match hRemoteRandomPub h with
  | None => Crash
  | Some pub =>
      ecdheSecret ← GenerateShared (hRandomPrivKey h) pub sskLen sskLen;
      let sharedSecret := sm3 (ecdheSecret ++ sm3 (hRespNonce h ++ hInitNonce h)) in
      let aesSecret := sm3 (ecdheSecret ++ sharedSecret) in
      let macSecret := sm3 (ecdheSecret ++ aesSecret) in
      x1 ← xor macSecret (hRespNonce h);
      x2 ← xor macSecret (hInitNonce h);
      let mac1 := Write (Write New x1) auth in
      let mac2 := Write (Write New x2) authResp in
      Ret {| sRemoteID := hRemoteID h; sAES := aesSecret; sMAC := macSecret;
             sEgressMAC := if hInitiator h then mac1 else mac2; sIngressMAC := if hInitiator h then mac2 else mac1 |}
  end.

(** [initiatorEncHandshake] up to the write, and from the reply on. *)
Definition initiatorStart (rnd : hsRandom) (prv : PrivateKey) (remoteID : bytes) : option (gores (encHandshake * bytes)) :=
  hm <-- makeAuthMsg rnd prv remoteID ;;
  packet <-- sealEIP8 rnd (authVal hm.2) hm.1 ;;
  Some (Ret (hm.1, packet)).

Definition initiatorFinish (h : encHandshake) (prv : PrivateKey) (authPacket input : bytes) : gores (secretsT * bytes) :=
  r ← readHandshakeMsg respDecodePlain (rlpMsg respTyp respOf) encAuthRespLen prv input;
  let '(msg, authRespPacket, rest) := (r : authRespV4 * bytes * bytes) in
  h ← handleAuthResp h msg;
  s ← secrets h authPacket authRespPacket;
  Ret (s, rest).

(** [receiverEncHandshake]: the secrets, the packet written and the input that is left. *)
Definition receiverEncHandshake (rnd : hsRandom) (prv : PrivateKey) (input : bytes) : option (gores (secretsT * bytes * bytes)) :=
  r <-- Some (readHandshakeMsg authDecodePlain (rlpMsg authTyp authOf) encAuthMsgLen prv input) ;;
  let '(authMsg, authPacket, rest) := (r : authMsgV4 * bytes * bytes) in
  h <-- Some (handleAuthMsg rnd authMsg prv) ;;
  hm <-- Some (makeAuthResp rnd h) ;;
  packet <-- (if amGotPlain authMsg then respSealPlain rnd hm.2 hm.1 else sealEIP8 rnd (respVal hm.2) hm.1) ;;
  s <-- Some (secrets hm.1 authPacket packet) ;;
  Some (Ret (s, packet, rest)).

End Handshake.

(** [newRLPXFrameRW]: keys of 16, 24 or 32 bytes, or a panic. *)
Definition newRLPXFrameRW (s : secretsT) : gores rlpxFrameRW :=
  let ok k := Nat.eqb (length k) 16 || Nat.eqb (length k) 24 || Nat.eqb (length k) 32 in
  if ok (sMAC s) && ok (sAES s) then
    Ret {| fKey := sAES s; fMacKey := sMAC s; enc := 0; dec := 0; egressMAC := sEgressMAC s; ingressMAC := sIngressMAC s |}
  else Crash.

(** ** Messages and values *)

Lemma authOf_authVal m : amGotPlain m = false → authOf (authVal m) = Some m.
Proof. intros Hg. unfold authOf, authVal. rewrite rawOf_VRaw. destruct m as [g sg pub nonce v size rest]. cbn in *. by subst g. Qed.

Lemma respOf_respVal m : respOf (respVal m) = Some m.
Proof. unfold respOf, respVal. rewrite rawOf_VRaw. by destruct m. Qed.

Lemma rlpMsg_front {M} t (read : gval → option M) v m e rest : isElem t = true → hasType t v → EncodeToBytes v = Ok e →
  Z.of_nat (length (e ++ rest)) < two64 → read v = Some m → rlpMsg t read (e ++ rest) = Ret m.
Proof. intros Ht Hv He Hl Hm. unfold rlpMsg. destruct (decode_front t v e rest Ht Hv He Hl) as (s & -> & _). cbn [fst]. by rewrite Hm. Qed.

(** Decryption fails, as it does for bytes that are not a ciphertext. *)
Definition plainFails {C : Curve} (prv : PrivateKey) (buf : bytes) : Prop :=
  match Decrypt prv buf with Ret (_, true) | Crash => False | _ => True end.

Lemma be16_roundtrip n : 0 ≤ n < 2 ^ 16 → Z.lor (Z.shiftl (byteOf (Z.shiftr n 8)) 8) (byteOf n) = n.
Proof.
  intros Hn. assert (Hb : is_byte (byteOf n)) by (unfold byteOf, is_byte; apply Z.mod_pos_bound; lia).
  assert (E : byteOf (Z.shiftr n 8) = n / 256).
  { unfold byteOf. rewrite Z.shiftr_div_pow2 by lia. change (2 ^ 8) with 256. apply Z.mod_small.
    split; [apply Z.div_pos; lia|apply Z.div_lt_upper_bound; lia]. }
  rewrite E, lor_shiftl_byte by (done || (apply Z.div_pos; lia)). unfold byteOf. pose proof (Z.div_mod n 256 ltac:(lia)). lia.
Qed.

Section Agree.
  Context {C : Curve} (smul : Z → Z * Z) {L : CurveLaws C smul}.

(** A sealed message is read by the holder of the key, whatever follows it. *)
Lemma sealed_read {M} rnd v h (plain rlp : bytes → gores M) m plainSize prv data packet rest :
  keyPair smul prv → hRemotePub h = privPub prv → EncodeToBytes v = Ok data → data ≠ [] →
  (2 ≤ plainSize ≤ length data + hrPad rnd + 99)%nat → Z.of_nat (length data + hrPad rnd + eciesOverhead) < 2 ^ 16 →
  rlp (data ++ replicate (hrPad rnd) 0) = Ret m →
  sealEIP8 rnd v h = Some (Ret packet) → plainFails prv (take plainSize packet) →
  readHandshakeMsg plain rlp plainSize prv (packet ++ rest) = Ret (m, packet, rest).
Proof.
  intros Hkey Hpub He Hne Hsz Hlt Hrlp Hseal Hplain. unfold sealEIP8 in Hseal. rewrite He in Hseal.
  set (buf := data ++ replicate (hrPad rnd) 0) in *. rewrite Hpub in Hseal.
  assert (Hlb : length buf = (length data + hrPad rnd)%nat) by (subst buf; by rewrite length_app, length_replicate).
  assert (Hbne : buf ≠ []) by (subst buf; by destruct data).
  destruct (Encrypt (hrReads rnd) (privPub prv) buf (hrTurns rnd)) as [[ct|e|]|] eqn:HE; try done.
  pose proof (Encrypt_length smul _ _ _ _ _ Hkey Hbne HE) as Hct. apply (Encrypt_decrypts smul _ _ _ _ _ Hkey) in HE.
  cbn [obind] in Hseal. injection Hseal as Hp. set (n := Z.of_nat (length buf + eciesOverhead)) in *.
  assert (Hn : 0 ≤ n < 2 ^ 16) by (subst n; rewrite Hlb; lia). rewrite (Z.mod_small n _ Hn) in Hp.
  assert (Hlp : length packet = (length buf + 99)%nat) by (rewrite <- Hp; cbn [length app]; lia).
  assert (Hd2 : drop 2 packet = ct) by (by rewrite <- Hp).
  unfold readHandshakeMsg. rewrite <- (take_drop plainSize packet) at 1. rewrite <- app_assoc.
  rewrite ReadFull_app by (rewrite length_take; lia). cbn [mbind gores_bind fst snd].
  assert (Hsize : Z.lor (Z.shiftl (nth 0 (take plainSize packet) 0) 8) (nth 1 (take plainSize packet) 0) = n).
  { rewrite <- Hp. destruct plainSize as [|[|k]]; [lia..|]. cbn [take app nth]. by apply be16_roundtrip. }
  unfold plainFails in Hplain. destruct (Decrypt prv (take plainSize packet)) as [[c []]|e|]; try done; rewrite Hsize;
    (destruct (Z.ltb_spec n (Z.of_nat plainSize)); [unfold eciesOverhead in *; lia|]);
    (replace ((n - 16 - Z.of_nat plainSize + 2) mod 2 ^ 16) with (Z.of_nat (length packet - plainSize)) by
       (subst n; unfold eciesOverhead in *; rewrite Z.mod_small; lia));
    rewrite Nat2Z.id, ReadFull_app by (by rewrite length_drop); cbn [mbind gores_bind fst snd];
    rewrite take_drop, Hd2, HE; cbn [mbind gores_bind fst snd]; by rewrite Hrlp.
Qed.

(** The shared secret of two key pairs. *)
Definition shared (a b : Z) : bytes := pad32 (bigBytes (smul (a * b)).1).

Lemma shared_length a b : length (shared a b) = 32%nat.
Proof. unfold shared. destruct (smul_range smul (a * b)) as [Hx _]. by apply pad32_length. Qed.

Lemma shared_comm a b : shared a b = shared b a.
Proof. unfold shared. by rewrite Z.mul_comm. Qed.

Lemma GenerateShared_smul prv b : keyPair smul prv → GenerateShared prv {| pubX := (smul b).1; pubY := (smul b).2 |} sskLen sskLen = Ret (shared b (privD prv)).
Proof.
  intros [HD Hpub]. unfold GenerateShared, MaxSharedKeyLength. rewrite (@bit_size C smul L). change ((256 + 7) / 8 <? sskLen + sskLen) with false. cbv iota.
  cbn [pubX pubY]. rewrite (mult_smul smul) by lia. cbn [mbind gores_bind]. change (Z.to_nat (sskLen + sskLen)) with 32%nat.
  destruct (smul_range smul (b * privD prv)) as [Hx _]. pose proof (bigBytes_length _ 32 Hx). destruct (Nat.ltb_spec 32 (length (bigBytes (smul (b * privD prv)).1))); [lia|].
  unfold shared, pad32, zeroByteSlice. by rewrite take_replicate, Nat.min_l by lia.
Qed.

(** *** Keys *)

Definition nodeID (prv : PrivateKey) : bytes := drop 1 (FromECDSAPub (privPub prv)).

Lemma nodeID_key prv : keyPair smul prv → length (nodeID prv) = 64%nat ∧ Pubkey (nodeID prv) = privPub prv.
Proof.
  intros [_ Hpub]. destruct (Pubkey_PubkeyID smul (privD prv)) as (id & Hid & Hl & Hk). unfold nodeID. rewrite Hpub.
  unfold PubkeyID in Hid. cbn [pubX pubY] in Hid. destruct (negb _); [done|]. injection Hid as Hid.
  rewrite <- Hid in Hl, Hk. by split.
Qed.

Lemma key_roundtrip prv : keyPair smul prv → privD prv ≠ 0 → ToECDSAPub (FromECDSAPub (privPub prv)) = Some (Some (privPub prv)) ∧
  FromECDSAPub (privPub prv) = 4 :: nodeID prv ∧ length (FromECDSAPub (privPub prv)) = 65%nat.
Proof.
  intros Hk H0. split; [by apply (key_encoding smul)|]. destruct Hk as [_ Hpub]. unfold nodeID. rewrite Hpub. unfold FromECDSAPub. cbn [pubX pubY].
  split; [done|by apply FromECDSAPub_length].
Qed.

Lemma import_65 prv : keyPair smul prv → privD prv ≠ 0 → importPublicKey (FromECDSAPub (privPub prv)) = Ret (privPub prv).
Proof. intros Hk H0. destruct (key_roundtrip prv Hk H0) as (E & _ & Hl). unfold importPublicKey. rewrite Hl. cbn [Nat.eqb orb negb]. by rewrite E. Qed.

Lemma import_64 prv : keyPair smul prv → privD prv ≠ 0 → importPublicKey (nodeID prv) = Ret (privPub prv).
Proof.
  intros Hk H0. destruct (key_roundtrip prv Hk H0) as (E & E4 & _). destruct (nodeID_key prv Hk) as [Hl _].
  unfold importPublicKey. rewrite Hl. cbn [Nat.eqb orb negb]. by rewrite <- E4, E.
Qed.

Lemma GenerateShared_keys a b : keyPair smul a → keyPair smul b → GenerateShared a (privPub b) sskLen sskLen = Ret (shared (privD a) (privD b)).
Proof. intros Ha [_ Hb]. rewrite Hb, (GenerateShared_smul a (privD b) Ha). f_equal. apply shared_comm. Qed.

Lemma xor_ret a b : length a = 32%nat → length b = 32%nat → xor a b = Ret (zip_with Z.lxor a b).
Proof. intros Ha Hb. unfold xor. by rewrite Ha, Hb. Qed.

(** *** Arrays *)

Lemma copyArr_exact k src : length src = k → copyArr k src = src.
Proof. intros <-. unfold copyArr. by rewrite take_app_length. Qed.

Lemma copyArr_short k src : (length src ≤ k)%nat → copyArr k src = src ++ replicate (k - length src) 0 ∧ length (copyArr k src) = k.
Proof.
  intros Hl. unfold copyArr. rewrite take_app, (take_ge src) by done. rewrite take_replicate, Nat.min_l by lia.
  split; [done|]. rewrite length_app, length_replicate. lia.
Qed.

Lemma cutSignature_copy sig : (length sig ≤ sigLen)%nat → cutSignature (copyArr sigLen sig) (Z.of_nat (length sig)) = Ret sig.
Proof.
  intros Hl. destruct (copyArr_short sigLen sig Hl) as [E Hn]. unfold cutSignature. rewrite Hn. unfold sigLen in *.
  replace (i64 (Z.of_nat (length sig))) with (Z.of_nat (length sig)).
  2:{ unfold i64. rewrite u64_small by (unfold is_u64, two64; lia). by rewrite (proj2 (Z.ltb_lt _ _)) by (unfold two63; lia). }
  destruct (Z.eqb_spec (Z.of_nat (length sig)) (Z.of_nat 140)) as [Eq|].
  - rewrite E. replace (140 - length sig)%nat with 0%nat by lia. by rewrite app_nil_r.
  - destruct (Z.ltb_spec (Z.of_nat 140) (Z.of_nat (length sig))); [lia|]. by rewrite Nat2Z.id, E, take_app_length.
Qed.

(** *** The two messages *)

(** The random values of a side that follows the protocol. *)
Record honest (rnd : hsRandom) (nonce : bytes) (key : PrivateKey) : Prop := {
  ho_nonce : hrNonce rnd = Ret nonce;
  ho_len : length nonce = shaLen;
  ho_key : hrKey rnd = Ret key;
  ho_pair : keyPair smul key;
  ho_pos : privD key ≠ 0;
  ho_pad : (100 ≤ hrPad rnd < 300)%nat
}.

Definition authMsgOf (prv : PrivateKey) (nonce sig : bytes) : authMsgV4 :=
  {| amGotPlain := false; amSignature := copyArr sigLen sig; amInitiatorPubkey := nodeID prv; amNonce := nonce; amVersion := 4;
     amSigSize := Z.of_nat (length sig); amRest := [] |}.

Definition replyOf (key : PrivateKey) (nonce : bytes) : authRespV4 :=
  {| arRandomPubkey := nodeID key; arNonce := nonce; arVersion := 4; arRest := [] |}.

Lemma byteArray_typed n c : length c = n → (2 ≤ n)%nat → hasType (TyByteArray n) (VByteArray c).
Proof. intros Hl Hn. split; [done|]. intros ->. cbn in Hl. lia. Qed.

Lemma encStr_within b : (length b < 256)%nat → (length b ≤ length (encStr b) ≤ length b + 2)%nat.
Proof. intros Hb. pose proof (encStr_length b). pose proof (encStr_bound b Hb). destruct (Nat.ltb _ _); lia. Qed.

Lemma encList_within x : Z.of_nat (length x) < 65536 → (length x ≤ length (encList x) ≤ length x + 3)%nat.
Proof.
  intros Hx. pose proof (encList_bound x 2 ltac:(change (256 ^ Z.of_nat 2) with 65536; lia) ltac:(lia)).
  unfold encList in *. rewrite length_app in *. lia.
Qed.

Lemma auth_encoded prv nonce sig : keyPair smul prv → length nonce = shaLen → (length sig ≤ sigLen)%nat →
  hasType authTyp (authVal (authMsgOf prv nonce sig)) ∧
  ∃ data, EncodeToBytes (authVal (authMsgOf prv nonce sig)) = Ok data ∧ (236 ≤ length data ≤ 1000)%nat.
Proof.
  intros Hk Hn Hs. destruct (nodeID_key prv Hk) as [Hid _]. destruct (copyArr_short sigLen sig Hs) as [_ Hc]. unfold sigLen, shaLen in *.
  assert (Ht : hasType authTyp (authVal (authMsgOf prv nonce sig))).
  { apply hasType_struct. cbn [hasFields fmap list_fmap amRest authMsgOf]. split_and!; try done; try (by apply byteArray_typed; [done|unfold sigLen, pubLen, shaLen; lia]).
    all: apply uint64_typed; unfold is_u64, two64; cbn; lia. }
  split; [done|]. rewrite EncodeToBytes_encoding by (by eapply hasType_wt).
  eexists. split; [cbn -[encUint encStr encList copyArr nodeID Z.of_nat]; reflexivity|].
  change sigLen with 140%nat. set (c := copyArr 140 sig) in *.
  pose proof (encUint_bound 4 1 ltac:(done) ltac:(done) ltac:(lia)).
  pose proof (encStr_within c ltac:(lia)). pose proof (encStr_within (nodeID prv) ltac:(lia)). pose proof (encStr_within nonce ltac:(lia)).
  pose proof (encUint_bound (Z.of_nat (length sig)) 8 ltac:(unfold is_u64, two64; lia) ltac:(change (256 ^ Z.of_nat 8) with 18446744073709551616; lia) ltac:(lia)).
  match goal with |- context [encList ?x] => assert (Hx : (236 ≤ length x ≤ 500)%nat) by (rewrite !length_app; cbn [length]; lia); pose proof (encList_within x ltac:(lia)) end.
  lia.
Qed.

Lemma reply_encoded key nonce : keyPair smul key → length nonce = shaLen →
  hasType respTyp (respVal (replyOf key nonce)) ∧
  ∃ data, EncodeToBytes (respVal (replyOf key nonce)) = Ok data ∧ (96 ≤ length data ≤ 1000)%nat.
Proof.
  intros Hk Hn. destruct (nodeID_key key Hk) as [Hid _]. unfold shaLen in *.
  assert (Ht : hasType respTyp (respVal (replyOf key nonce))).
  { apply hasType_struct. cbn [hasFields fmap list_fmap arRest replyOf]. split_and!; try done; try (by apply byteArray_typed; [done|unfold sigLen, pubLen, shaLen; lia]).
    apply uint64_typed. unfold is_u64, two64. cbn. lia. }
  split; [done|]. rewrite EncodeToBytes_encoding by (by eapply hasType_wt).
  eexists. split; [cbn -[encUint encStr encList nodeID]; reflexivity|].
  pose proof (encUint_bound 4 1 ltac:(done) ltac:(done) ltac:(lia)). pose proof (encStr_within (nodeID key) ltac:(lia)). pose proof (encStr_within nonce ltac:(lia)).
  match goal with |- context [encList ?x] => assert (Hx : (96 ≤ length x ≤ 500)%nat) by (rewrite !length_app; cbn [length]; lia); pose proof (encList_within x ltac:(lia)) end.
  lia.
Qed.

(** *** Both sides *)

(** What the initiator signs. *)
Definition signedOf (pi pr : PrivateKey) (nonce : bytes) : bytes := zip_with Z.lxor (shared (privD pi) (privD pr)) nonce.

Lemma makeAuthMsg_Ret ri pi pr ni ki h m : honest ri ni ki → keyPair smul pi → keyPair smul pr →
  makeAuthMsg ri pi (nodeID pr) = Some (Ret (h, m)) →
  h = {| hInitiator := true; hRemoteID := nodeID pr; hRemotePub := privPub pr; hInitNonce := ni; hRespNonce := [];
         hRandomPrivKey := ki; hRemoteRandomPub := None |} ∧
  ∃ sig, cryptoSign (hrSigner ri) (signedOf pi pr ni) ki = Some (Ret sig) ∧ m = authMsgOf pi ni sig.
Proof.
  intros [Hn Hl Hk Hp H0 _] Hpi Hpr. unfold makeAuthMsg, staticSharedSecret. cbn [hRemotePub].
  destruct (nodeID_key pr Hpr) as [_ ->]. rewrite Hn. cbn [obind]. rewrite Hk. cbn [obind]. rewrite (GenerateShared_keys pi pr Hpi Hpr). cbn [obind].
  rewrite (xor_ret _ ni) by (apply shared_length || done). cbn [obind]. fold (signedOf pi pr ni).
  destruct (cryptoSign _ _ _) as [[sig|e|]|]; try done. cbn [obind]. intros [= <- <-]. split; [done|]. exists sig. split; [done|].
  unfold authMsgOf. f_equal; [by apply copyArr_exact, nodeID_key|by apply copyArr_exact].
Qed.

(** The receiver's state after a message it accepts. *)
Definition receiverState (pi : PrivateKey) (ni : bytes) (ki kr : PrivateKey) (nr : bytes) : encHandshake :=
  {| hInitiator := false; hRemoteID := nodeID pi; hRemotePub := privPub pi; hInitNonce := ni; hRespNonce := nr;
     hRandomPrivKey := kr; hRemoteRandomPub := Some (privPub ki) |}.

Lemma handleAuthMsg_ok rr pi pr ni ki kr nr sig : keyPair smul pi → keyPair smul pr → length ni = shaLen → keyPair smul ki → privD ki ≠ 0 →
  honest rr nr kr → (length sig ≤ sigLen)%nat → Ecrecover (signedOf pi pr ni) sig = Ret (FromECDSAPub (privPub ki)) →
  handleAuthMsg rr (authMsgOf pi ni sig) pr = Ret (receiverState pi ni ki kr []).
Proof.
  intros Hpi Hpr Hl Hki H0 [Hn _ Hk _ _ _] Hs He. unfold handleAuthMsg, staticSharedSecret, authMsgOf.
  cbn [amInitiatorPubkey amNonce amSignature amSigSize hRemotePub]. destruct (nodeID_key pi Hpi) as [_ ->]. rewrite Hk. cbn [mbind gores_bind].
  rewrite (GenerateShared_keys pr pi Hpr Hpi), shared_comm. cbn [mbind gores_bind].
  rewrite (xor_ret _ ni) by (apply shared_length || done). cbn [mbind gores_bind]. rewrite (cutSignature_copy sig Hs). cbn [mbind gores_bind].
  fold (signedOf pi pr ni). rewrite He. cbn [mbind gores_bind]. rewrite (import_65 ki Hki H0). done.
Qed.

Lemma makeAuthResp_ok rr nr kr h : honest rr nr kr → hRandomPrivKey h = kr →
  makeAuthResp rr h = Ret ({| hInitiator := hInitiator h; hRemoteID := hRemoteID h; hRemotePub := hRemotePub h; hInitNonce := hInitNonce h;
    hRespNonce := nr; hRandomPrivKey := kr; hRemoteRandomPub := hRemoteRandomPub h |}, replyOf kr nr).
Proof.
  intros [Hn Hl Hk Hp _ _] E. unfold makeAuthResp. rewrite Hn, E. cbn [mbind gores_bind]. unfold exportPubkey, replyOf. fold (nodeID kr).
  rewrite (copyArr_exact pubLen), (copyArr_exact shaLen) by (done || by apply nodeID_key). done.
Qed.

(** The secrets both sides derive. *)
Definition agreedSecrets (initiator : bool) (remote : PrivateKey) (ki kr : PrivateKey) (ni nr auth resp : bytes) : secretsT :=
  let e := shared (privD ki) (privD kr) in
  let aes := sm3 (e ++ sm3 (e ++ sm3 (nr ++ ni))) in
  let mac := sm3 (e ++ aes) in
  let mac1 := Write (Write New (zip_with Z.lxor mac nr)) auth in
  let mac2 := Write (Write New (zip_with Z.lxor mac ni)) resp in
  {| sRemoteID := nodeID remote; sAES := aes; sMAC := mac;
     sEgressMAC := if initiator then mac1 else mac2; sIngressMAC := if initiator then mac2 else mac1 |}.

Lemma secrets_ok (initiator : bool) remote ki kr ni nr auth resp h : keyPair smul ki → keyPair smul kr → length ni = shaLen → length nr = shaLen →
  hInitiator h = initiator → hRemoteID h = nodeID remote → hInitNonce h = ni → hRespNonce h = nr →
  (if initiator then hRandomPrivKey h = ki ∧ hRemoteRandomPub h = Some (privPub kr) else hRandomPrivKey h = kr ∧ hRemoteRandomPub h = Some (privPub ki)) →
  secrets h auth resp = Ret (agreedSecrets initiator remote ki kr ni nr auth resp).
Proof.
  intros Hki Hkr Li Lr E1 E2 E3 E4 Hk. unfold secrets.
  assert (HG : ∃ pub, hRemoteRandomPub h = Some pub ∧ GenerateShared (hRandomPrivKey h) pub sskLen sskLen = Ret (shared (privD ki) (privD kr))).
  { destruct initiator; destruct Hk as [-> ->]; eexists; (split; [done|]); rewrite GenerateShared_keys by done; [done|by rewrite shared_comm]. }
  destruct HG as (pub & -> & ->). cbn [mbind gores_bind]. rewrite E3, E4.
  rewrite !xor_ret by (done || apply sm3_length). cbn [mbind gores_bind]. rewrite E1, E2. done.
Qed.

Lemma auth_read ri pi pr ni sig h auth rest : (100 ≤ hrPad ri < 300)%nat → keyPair smul pi → keyPair smul pr → length ni = shaLen → (length sig ≤ sigLen)%nat →
  hRemotePub h = privPub pr → sealEIP8 ri (authVal (authMsgOf pi ni sig)) h = Some (Ret auth) → plainFails pr (take encAuthMsgLen auth) →
  readHandshakeMsg authDecodePlain (rlpMsg authTyp authOf) encAuthMsgLen pr (auth ++ rest) = Ret (authMsgOf pi ni sig, auth, rest).
Proof.
  intros Hpad Hpi Hpr Hl Hs Hh Hseal Hplain. destruct (auth_encoded pi ni sig Hpi Hl Hs) as (Ht & data & He & Hd).
  eapply (sealed_read ri); try done.
  - intros ->. cbn in Hd. lia.
  - unfold encAuthMsgLen, authMsgLen, sigLen, shaLen, pubLen, eciesOverhead. lia.
  - unfold eciesOverhead. lia.
  - eapply rlpMsg_front; [done|done|done| |by apply authOf_authVal]. rewrite length_app, length_replicate. unfold two64. lia.
Qed.

Lemma reply_read rr pi nr kr h resp rest : (100 ≤ hrPad rr < 300)%nat → keyPair smul pi → keyPair smul kr → length nr = shaLen →
  hRemotePub h = privPub pi → sealEIP8 rr (respVal (replyOf kr nr)) h = Some (Ret resp) → plainFails pi (take encAuthRespLen resp) →
  readHandshakeMsg respDecodePlain (rlpMsg respTyp respOf) encAuthRespLen pi (resp ++ rest) = Ret (replyOf kr nr, resp, rest).
Proof.
  intros Hpad Hpi Hkr Hl Hh Hseal Hplain. destruct (reply_encoded kr nr Hkr Hl) as (Ht & data & He & Hd).
  eapply (sealed_read rr); try done.
  - intros ->. cbn in Hd. lia.
  - unfold encAuthRespLen, authRespLen, shaLen, pubLen, eciesOverhead. lia.
  - unfold eciesOverhead. lia.
  - eapply rlpMsg_front; [done|done|done| |by apply respOf_respVal]. rewrite length_app, length_replicate. unfold two64. lia.
Qed.

Lemma agreed_match ki kr ni nr auth resp pi pr : ∃ a b,
  newRLPXFrameRW (agreedSecrets true pr ki kr ni nr auth resp) = Ret a ∧ newRLPXFrameRW (agreedSecrets false pi ki kr ni nr auth resp) = Ret b ∧
  outHalf a = inHalf b ∧ outHalf b = inHalf a.
Proof.
  unfold newRLPXFrameRW, agreedSecrets. cbn [sAES sMAC sEgressMAC sIngressMAC]. rewrite !sm3_length. cbn [Nat.eqb orb andb].
  do 2 eexists. done.
Qed.

(** The connection of two ends that have written nothing. *)
Definition connect (a b : rlpxFrameRW) : link :=
  {| lA := {| eRW := a; eSent := []; eGot := []; eIn := [] |}; lB := {| eRW := b; eSent := []; eGot := []; eIn := [] |} |}.


End Agree.

(** A message that announces more than the 140 bytes of its signature: the receiver slices
    out of range and panics, for every initiator key it can compute the secret with. *)
Lemma handleAuthMsg_crash {C : Curve} rnd msg prv key token : hrKey rnd = Ret key → length (amSignature msg) = sigLen → Z.of_nat sigLen < amSigSize msg < two63 →
  GenerateShared prv (Pubkey (amInitiatorPubkey msg)) sskLen sskLen = Ret token → (length token ≤ length (amNonce msg))%nat →
  handleAuthMsg rnd msg prv = Crash.
Proof.
  intros Hk Hl Hs Ht Hn. unfold handleAuthMsg, staticSharedSecret. rewrite Hk. cbn [mbind gores_bind hRemotePub]. rewrite Ht. cbn [mbind gores_bind].
  unfold xor. rewrite (proj2 (Nat.leb_le _ _)) by done. cbn [mbind gores_bind]. unfold cutSignature. rewrite Hl. unfold sigLen, two63 in *.
  replace (i64 (amSigSize msg)) with (amSigSize msg).
  2:{ unfold i64. rewrite u64_small by (unfold is_u64, two64; lia). by rewrite (proj2 (Z.ltb_lt _ _)) by (unfold two63; lia). }
  destruct (Z.eqb_spec (amSigSize msg) (Z.of_nat 140)); [lia|]. destruct (Z.ltb_spec (Z.of_nat 140) (amSigSize msg)); [done|lia].
Qed.

(** A message in the old format carries no signature size, so its signature is cut to
    nothing and never verifies. *)
Lemma plain_rejected {C : Curve} rnd input msg prv h : authDecodePlain input = Ret msg → handleAuthMsg rnd msg prv ≠ Ret h.
Proof.
  intros Hd. assert (Hs : amSigSize msg = 0 ∧ length (amSignature msg) = sigLen).
  { unfold authDecodePlain in Hd. destruct (from_ input _) as [rest| |]; [|done..]. cbn [mbind gores_bind] in Hd.
    destruct (from_ input _) as [rest'| |]; [|done..]. cbn [mbind gores_bind] in Hd. injection Hd as <-. cbn [amSigSize amSignature].
    split; [done|]. unfold copyArr. rewrite length_take, length_app, length_replicate. lia. }
  destruct Hs as [Hs Hl]. unfold handleAuthMsg. destruct (hrKey rnd) as [key| |]; [|done..]. cbn [mbind gores_bind].
  destruct (staticSharedSecret _ _) as [token| |]; [|done..]. cbn [mbind gores_bind]. destruct (xor _ _) as [signed| |]; [|done..]. cbn [mbind gores_bind].
  unfold cutSignature. rewrite Hs, Hl. cbn. done.
Qed.

(** *** A handshake on the toy curve *)

Import Toy.

Definition exRandom (nonce key : Z) : hsRandom :=
  {| hrNonce := Ret (replicate 32 nonce); hrKey := Ret (keyOf key); hrSigner := toySigner; hrPad := 100; hrReads := reads; hrTurns := 1 |}.

Definition exStart : encHandshake * bytes :=
  match initiatorStart (exRandom 3 11) (keyOf 7) (nodeID (keyOf 9)) with
  | Some (Ret r) => r
  | _ => (receiverState (keyOf 7) [] (keyOf 7) (keyOf 7) [], [])
  end.

Definition exReplyState : encHandshake := receiverState (keyOf 7) [] (keyOf 11) (keyOf 13) [].

Definition exReply : bytes :=
  match sealEIP8 (exRandom 5 13) (respVal (replyOf (keyOf 13) (replicate 32 5))) exReplyState with Some (Ret r) => r | _ => [] end.

Lemma exRandom_honest nonce key : 0 < key < 101 → honest mul (exRandom nonce key) (replicate 32 nonce) (keyOf key).
Proof. intros Hk. split; [done|done|done|apply keyOf_pair; unfold order; lia|cbn; lia|cbn; lia]. Qed.

