(* ===== verification/NodeDB.v ===== *)
(** * The database of nodes

    [src/p2p/discover/database.go]: the records of known nodes with the times of the last
    ping and pong and the number of failures, kept in a key-value store, and their expiry.
    The store (LevelDB) is a class [KV] with its laws: reads see writes, and an iterator
    goes over the pairs at the time it was made, in the order of the keys.  Values are
    written in full: the keys, the variable-length integers of [encoding/binary], and the
    RLP encoding of the records.  Times are nanoseconds since 1970.

    Properties: the database implements a table from identifiers to entries of a record,
    two times and a counter: each operation changes the fields it is meant to change,
    of one node, and expiry empties the entries of exactly the nodes with a record whose
    last pong is more than a day old, and of the node itself ([db_refines]);
    the nodes offered as seeds are distinct, recently seen and not the node itself
    ([querySeeds_spec]).  Deleting the zero identifier deletes everything
    ([deleteNode_zero]). *)

From stdpp Require Import base gmap sets list strings sorting.
From Stdlib Require Import ZArith Lia.
From S2P Require Import Prelude Common Words RlpEncode RlpRaw RlpDecode RlpRoundtrip RlpTotal RlpCanonical RlpTyped BigInt Sm3 Sm2 P256Field Encoding Signature Protocol Discover Table Packets.
Local Open Scope Z_scope.

(** ** The store *)

(** The order of keys. *)
Fixpoint bytesLe (a b : bytes) : bool :=
  match a, b with
  | [], _ => true
  | _ :: _, [] => false
  | x :: a, y :: b => if x <? y then true else if y <? x then false else bytesLe a b
  end.

Class KV := {
  kvT : Type;
  kvEmpty : kvT;
  kvGet : kvT → bytes → option bytes;
  kvPut : kvT → bytes → bytes → kvT;
  kvDelete : kvT → bytes → kvT;
  kvIter : kvT → list (bytes * bytes)
}.

Class KVLaws (K : KV) := {
  kv_empty : ∀ k, kvGet kvEmpty k = None;
  kv_put : ∀ s k v k', kvGet (kvPut s k v) k' = if bool_decide (k = k') then Some v else kvGet s k';
  kv_delete : ∀ s k k', kvGet (kvDelete s k) k' = if bool_decide (k = k') then None else kvGet s k';
  kv_iter : ∀ s k v, (k, v) ∈ kvIter s ↔ kvGet s k = Some v;
  kv_nodup : ∀ s, NoDup (kvIter s).*1;
  kv_sorted : ∀ s, StronglySorted (fun a b => bytesLe a b = true) (kvIter s).*1
}.

(** ** Integers of variable length *)

(** [binary.PutUvarint]; ten bytes are enough for 64 bits. *)
Fixpoint putUvarintLoop (fuel : nat) (x : Z) : bytes :=
  match fuel with
  | O => [byteOf x]
  | S f => if x <? 128 then [byteOf x] else Z.lor (Z.land x 127) 128 :: putUvarintLoop f (Z.shiftr x 7)
  end.

Definition PutUvarint (x : Z) : bytes := putUvarintLoop 9 x.

Definition PutVarint (x : Z) : bytes :=
  let ux := u64 (Z.shiftl (u64 x) 1) in
  PutUvarint (if x <? 0 then Z.lxor ux (two64 - 1) else ux).

(** [binary.Uvarint]: the value and the number of bytes read. *)
Fixpoint uvarintLoop (buf : bytes) (i : nat) (x s : Z) : Z * Z :=
  match buf with
  | [] => (0, 0)
  | b :: buf =>
      if b <? 128 then
        if Nat.ltb 9 i || Nat.eqb i 9 && (1 <? b) then (0, - Z.of_nat (S i)) else (Z.lor x (u64 (Z.shiftl b s)), Z.of_nat (S i))
      else uvarintLoop buf (S i) (Z.lor x (u64 (Z.shiftl (Z.land b 127) s))) (s + 7)
  end.

Definition Varint (buf : bytes) : Z * Z :=
  let '(ux, n) := uvarintLoop buf 0 0 0 in
  let x := i64 (Z.shiftr ux 1) in
  (if Z.testbit ux 0 then i64 (Z.lxor x (-1)) else x, n).

(** ** Keys *)

Definition nodeDBNilNodeID : bytes := replicate NodeIDLength 0.
Definition nodeDBVersionKey : bytes := bytes_of_string "version".
Definition nodeDBItemPrefix : bytes := bytes_of_string "n:".
Definition nodeDBDiscoverRoot : bytes := bytes_of_string ":discover".
Definition nodeDBDiscoverPing : bytes := nodeDBDiscoverRoot ++ bytes_of_string ":lastping".
Definition nodeDBDiscoverPong : bytes := nodeDBDiscoverRoot ++ bytes_of_string ":lastpong".
Definition nodeDBDiscoverFindFails : bytes := nodeDBDiscoverRoot ++ bytes_of_string ":findfail".

Definition makeKey (id field : bytes) : bytes :=
  if bool_decide (id = nodeDBNilNodeID) then field else nodeDBItemPrefix ++ id ++ field.

Definition HasPrefix (key prefix : bytes) : bool := bool_decide (take (length prefix) key = prefix).

Definition splitKey (key : bytes) : gores (bytes * bytes) :=
  if negb (HasPrefix key nodeDBItemPrefix) then Ret (nodeDBNilNodeID, key)
  else
    let item := drop (length nodeDBItemPrefix) key in
    if Nat.ltb (length item) NodeIDLength then Crash else Ret (take NodeIDLength item, drop NodeIDLength item).

(** ** Operations *)

Definition nodeDBNodeExpiration : Z := 86400 * 1000000000.

(** A record as RLP sees it: the exported fields. *)
Definition recordTyp : gtyp := TyStruct [TyBytes; TyUint 16; TyUint 16; TyByteArray NodeIDLength; TyUint 64].

Definition recordVal (n : Node) : gval :=
  VStruct [VBytes (default [] (nIP n)); VUint (nUDP n); VUint (nTCP n); VByteArray (nID n); VUint (nNodeType n)].

Definition recordOf (ref : nat) (sha : bytes → bytes) (v : gval) : option Node :=
  match v with
  | VStruct [VBytes ip; VUint udp; VUint tcp; VByteArray id; VUint typ] =>
      Some {| nRef := ref; nIP := Some ip; nUDP := udp; nTCP := tcp; nID := id; nSha := sha id; nNodeType := typ |}
  | _ => None
  end.

(** [time.Unix(sec, 0)] after [t]: seconds are counted from the year 1 modulo 2^64. *)
Definition unixNs (sec : Z) : Z := (i64 (sec + unixToInternal) - unixToInternal) * 1000000000.

Section DB.
  Context {K : KV}.

Definition fetchInt64 (db : kvT) (key : bytes) : Z :=
  match kvGet db key with
  | None => 0
  | Some blob => let '(val, read) := Varint blob in if read <=? 0 then 0 else val
  end.

Definition storeInt64 (db : kvT) (key : bytes) (n : Z) : kvT := kvPut db key (PutVarint n).

(** [node]: the record in a new struct. *)
Definition dbNode (db : kvT) (ref : nat) (id : bytes) : option Node :=
  match kvGet db (makeKey id nodeDBDiscoverRoot) with
  | None => None
  | Some blob => match DecodeBytes Datatypes.id blob recordTyp with DOk v => recordOf ref sm3 v | _ => None end
  end.

Definition updateNode (db : kvT) (n : Node) : result kvT :=
  match EncodeToBytes (recordVal n) with
  | Err e => Err e
  | Ok blob => Ok (kvPut db (makeKey (nID n) nodeDBDiscoverRoot) blob)
  end.

(** [util.BytesPrefix]: the keys with a prefix. *)
Definition deleteNode (db : kvT) (id : bytes) : kvT :=
  foldl kvDelete db (List.filter (fun k => HasPrefix k (makeKey id [])) (kvIter db).*1).

Definition lastPing (db : kvT) (id : bytes) : Z := fetchInt64 db (makeKey id nodeDBDiscoverPing).
Definition updateLastPing (db : kvT) (id : bytes) (instance : Z) : kvT := storeInt64 db (makeKey id nodeDBDiscoverPing) (instance / 1000000000).
Definition lastPong (db : kvT) (id : bytes) : Z := fetchInt64 db (makeKey id nodeDBDiscoverPong).
Definition updateLastPong (db : kvT) (id : bytes) (instance : Z) : kvT := storeInt64 db (makeKey id nodeDBDiscoverPong) (instance / 1000000000).
Definition findFails (db : kvT) (id : bytes) : Z := fetchInt64 db (makeKey id nodeDBDiscoverFindFails).
Definition updateFindFails (db : kvT) (id : bytes) (fails : Z) : kvT := storeInt64 db (makeKey id nodeDBDiscoverFindFails) fails.

(** [expireNodes]: the loop over the keys of the iterator. *)
Fixpoint expireLoop (self : bytes) (threshold : Z) (keys : list bytes) (db : kvT) : gores kvT :=
  match keys with
  | [] => Ret db
  | key :: keys =>
      r ← splitKey key;
      let '(id, field) := (r : bytes * bytes) in
      if negb (bool_decide (field = nodeDBDiscoverRoot)) then expireLoop self threshold keys db
      else if negb (bool_decide (id = self)) && (threshold <? unixNs (lastPong db id)) then expireLoop self threshold keys db
      else expireLoop self threshold keys (deleteNode db id)
  end.

Definition expireNodes (self : bytes) (now : Z) (db : kvT) : gores kvT :=
  expireLoop self (now - nodeDBNodeExpiration) (kvIter db).*1 db.

(** [nextNode] from a position of the iterator. *)
Fixpoint nextNode (ref : nat) (it : list (bytes * bytes)) : gores (option Node) :=
  match it with
  | [] => Ret None
  | (key, value) :: it =>
      r ← splitKey key;
      if negb (bool_decide ((r : bytes * bytes).2 = nodeDBDiscoverRoot)) then nextNode ref it
      else
        match DecodeBytes Datatypes.id value recordTyp with
        | DOk v => match recordOf ref (fun _ => replicate 32 0) v with Some n => Ret (Some n) | None => nextNode ref it end
        | _ => nextNode ref it
        end
  end.

(** [it.Seek]. *)
Definition Seek (key : bytes) (it : list (bytes * bytes)) : list (bytes * bytes) := List.filter (fun kv => bytesLe key kv.1) it.

(** [querySeeds]: [id0] is the first byte of [id] when a turn begins, [rand] the bytes read
    in each turn. *)
Fixpoint seedLoop (fuel : nat) (rand : nat → bytes) (db : kvT) (self : bytes) (n : nat) (now maxAge : Z) (seeks : nat) (id0 : Z) (nodes : list Node) : gores (list Node) :=
  match fuel with
  | O => Ret nodes
  | S fuel =>
      if negb (Nat.ltb (length nodes) n) then Ret nodes
      else
        let id := rand seeks in
        let id0 := byteOf (id0 + nth 0 id 0 mod 16) in
        let id := id0 :: drop 1 id in
        r ← nextNode seeks (Seek (makeKey id nodeDBDiscoverRoot) (kvIter db));
        match (r : option Node) with
        | None => seedLoop fuel rand db self n now maxAge (S seeks) 0 nodes
        | Some nd =>
            if bool_decide (nID nd = self) || (maxAge <? now - unixNs (lastPong db (nID nd))) || existsb (fun x => bool_decide (nID x = nID nd)) nodes
            then seedLoop fuel rand db self n now maxAge (S seeks) id0 nodes
            else seedLoop fuel rand db self n now maxAge (S seeks) id0 (nodes ++ [nd])
        end
  end.

Definition querySeeds (rand : nat → bytes) (db : kvT) (self : bytes) (n : nat) (now maxAge : Z) : gores (list Node) :=
  seedLoop (n * 5) rand db self n now maxAge 0 0 [].

(** [newPersistentNodeDB] on the store found at the path: a store of another version is
    removed. *)
Definition openPersistent (found : kvT) (version : Z) : kvT :=
  let currentVer := PutVarint version in
  match kvGet found nodeDBVersionKey with
  | None => kvPut found nodeDBVersionKey currentVer
  | Some blob => if negb (bool_decide (blob = currentVer)) then kvPut kvEmpty nodeDBVersionKey currentVer else found
  end.

End DB.

(** ** Integers read back *)

Lemma uvarint_put f : ∀ i x acc, (i + f = 9)%nat → 0 ≤ x < 2 ^ (64 - 7 * Z.of_nat i) → 0 ≤ acc < 2 ^ (7 * Z.of_nat i) →
  ∃ n, 0 < n ∧ uvarintLoop (putUvarintLoop f x) i acc (7 * Z.of_nat i) = (acc + 2 ^ (7 * Z.of_nat i) * x, n).
Proof.
  induction f as [|f IH]; intros i x acc Hi Hx Ha.
  - assert (i = 9%nat) as -> by lia. change (2 ^ (64 - 7 * Z.of_nat 9)) with 2 in Hx. change (7 * Z.of_nat 9) with 63 in *.
    exists 10. split; [lia|]. cbn [putUvarintLoop uvarintLoop]. unfold byteOf. rewrite (Z.mod_small x 256) by lia.
    destruct (Z.ltb_spec x 128); [|lia]. cbn [Nat.ltb Nat.leb Nat.eqb orb andb]. destruct (Z.ltb_spec 1 x); [lia|].
    f_equal. rewrite Z.shiftl_mul_pow2, u64_small by (unfold is_u64, two64; lia). rewrite Z.mul_comm. by apply lor_disjoint.
  - set (s := 7 * Z.of_nat i) in *. assert (Hs : 0 ≤ s ≤ 56) by lia.
    assert (Hp : 2 ^ s * 2 ^ (64 - s) = two64) by (rewrite <- Z.pow_add_r by lia; replace (s + (64 - s)) with 64 by lia; done).
    cbn [putUvarintLoop]. destruct (Z.ltb_spec x 128) as [Hl|Hl]; cbn [uvarintLoop].
    + exists (Z.of_nat (S i)). split; [lia|]. unfold byteOf. rewrite (Z.mod_small x 256) by lia.
      rewrite (proj2 (Z.ltb_lt x 128)) by lia. rewrite (proj2 (Nat.ltb_ge 9 i)), (proj2 (Nat.eqb_neq i 9)) by lia. cbn [orb andb].
      f_equal. rewrite Z.shiftl_mul_pow2 by lia. rewrite u64_small by (unfold is_u64; nia). rewrite Z.mul_comm. apply lor_disjoint; lia.
    + assert (Hm : Z.land x 127 = x mod 128) by (change 127 with (Z.ones 7); by rewrite Z.land_ones by lia).
      assert (Hb : 0 ≤ x mod 128 < 128) by (apply Z.mod_pos_bound; lia).
      assert (Hor : Z.lor (Z.land x 127) 128 = x mod 128 + 128) by (rewrite Hm; change 128 with (2 ^ 7 * 1) at 2; rewrite lor_disjoint by lia; lia).
      rewrite Hor. rewrite (proj2 (Z.ltb_ge _ 128)) by lia.
      assert (Hlow : Z.land (x mod 128 + 128) 127 = x mod 128).
      { change 127 with (Z.ones 7). rewrite Z.land_ones by lia. change (2 ^ 7) with 128. rewrite <- Z.add_mod_idemp_r, Z.mod_same, Z.add_0_r by lia. by rewrite Z.mod_mod. }
      rewrite Hlow, Z.shiftl_mul_pow2 by lia. assert (Hx128 : x mod 128 ≤ x) by (apply Z.mod_le; lia).
      rewrite u64_small by (unfold is_u64; nia). rewrite (Z.mul_comm (x mod 128)), lor_disjoint by lia.
      replace (s + 7) with (7 * Z.of_nat (S i)) by lia. rewrite Z.shiftr_div_pow2 by lia. change (2 ^ 7) with 128.
      pose proof (Z.div_mod x 128 ltac:(lia)) as Hdm.
      assert (Hp7 : 2 ^ (7 * Z.of_nat (S i)) = 2 ^ s * 128) by (replace (7 * Z.of_nat (S i)) with (s + 7) by lia; rewrite Z.pow_add_r by lia; done).
      destruct (IH (S i) (x / 128) (acc + 2 ^ s * (x mod 128))) as (n & Hn & E).
      * lia.
      * split; [apply Z.div_pos; lia|]. apply Z.div_lt_upper_bound; [lia|]. change 128 with (2 ^ 7). rewrite <- Z.pow_add_r by lia.
        replace (7 + (64 - 7 * Z.of_nat (S i))) with (64 - s) by lia. lia.
      * rewrite Hp7. nia.
      * exists n. split; [done|]. rewrite E. f_equal. rewrite Hp7. nia.
Qed.

(** [^u] of 64 bits. *)
Lemma lxor_ones u : 0 ≤ u < two64 → Z.lxor u (two64 - 1) = two64 - 1 - u.
Proof.
  intros Hu. change (two64 - 1) with (Z.ones 64). assert (Hlog : u ≠ 0 → Z.log2 u < 64) by (intros; apply Z.log2_lt_pow2; unfold two64 in *; lia).
  assert (H0 : Z.ldiff u (Z.ones 64) = 0).
  { destruct (Z.eq_dec u 0) as [->|Hn]; [done|]. apply Z.ldiff_ones_r_low; [lia|]. by apply Hlog. }
  rewrite (Z.sub_nocarry_ldiff _ _ H0). apply Z.bits_inj'. intros n Hn. rewrite Z.lxor_spec, Z.ldiff_spec.
  assert (Hb := f_equal (fun z => Z.testbit z n) H0). cbn beta in Hb. rewrite Z.ldiff_spec, Z.bits_0 in Hb.
  destruct (Z.testbit u n), (Z.testbit (Z.ones 64) n); done.
Qed.

Lemma Varint_PutVarint x : - two63 ≤ x < two63 → ∃ n, 0 < n ∧ Varint (PutVarint x) = (x, n).
Proof.
  unfold two63. intros Hx. unfold PutVarint, PutUvarint, Varint.
  set (ux := if x <? 0 then _ else _). assert (Hux : ux = if x <? 0 then -2 * x - 1 else 2 * x).
  { subst ux. rewrite Z.shiftl_mul_pow2 by lia. change (2 ^ 1) with 2. unfold u64. rewrite Zmult_mod_idemp_l. destruct (Z.ltb_spec x 0).
    - assert (E : (x * 2) mod two64 = two64 + 2 * x) by (symmetry; apply (Z.mod_unique _ _ (-1)); unfold two64; lia).
      rewrite E, lxor_ones by (unfold two64; lia). lia.
    - rewrite Z.mod_small by (unfold two64; lia). lia. }
  clearbody ux. destruct (uvarint_put 9 0 ux 0) as (n & Hn & E); [done| |done|].
  { change (2 ^ (64 - 7 * Z.of_nat 0)) with 18446744073709551616. destruct (Z.ltb_spec x 0); lia. }
  change (7 * Z.of_nat 0) with 0 in E. rewrite E. exists n. split; [done|]. f_equal. change (0 + 2 ^ 0 * ux) with (1 * ux). rewrite Z.mul_1_l.
  rewrite Z.shiftr_div_pow2, Z.bit0_odd by lia. change (2 ^ 1) with 2.
  assert (Hi : ∀ z, 0 ≤ z < 9223372036854775808 → i64 z = z).
  { intros z Hz. unfold i64. rewrite u64_small by (unfold is_u64, two64; lia). by rewrite (proj2 (Z.ltb_lt _ _)) by (unfold two63; lia). }
  destruct (Z.ltb_spec x 0) as [Hneg|Hpos]; subst ux.
  - replace (-2 * x - 1) with (2 * (- x - 1) + 1) by lia. rewrite Z.odd_add, Z.odd_mul. cbn [Z.odd xorb andb].
    replace (2 * (- x - 1) + 1) with (1 + (- x - 1) * 2) by lia. rewrite Z.div_add by lia. change (1 / 2 + (- x - 1)) with (0 + (- x - 1)). rewrite Z.add_0_l, (Hi (- x - 1)) by lia.
    rewrite Z.lxor_m1_r. replace (Z.lnot (- x - 1)) with x by (unfold Z.lnot; lia).
    unfold i64, u64. replace (x mod two64) with (x + two64) by (apply (Z.mod_unique _ _ (-1)); unfold two64; lia).
    rewrite (proj2 (Z.ltb_ge _ _)) by (unfold two63, two64; lia). lia.
  - rewrite Z.odd_mul. cbn [Z.odd andb]. rewrite Z.mul_comm, Z.div_mul by lia. apply Hi. lia.
Qed.

(** ** Keys taken apart *)

Definition validID (id : bytes) : Prop := length id = NodeIDLength ∧ id ≠ nodeDBNilNodeID.

Definition fields : list bytes := [nodeDBDiscoverRoot; nodeDBDiscoverPing; nodeDBDiscoverPong; nodeDBDiscoverFindFails].

Lemma makeKey_valid id f : validID id → makeKey id f = nodeDBItemPrefix ++ id ++ f.
Proof. intros [_ Hn]. unfold makeKey. by rewrite bool_decide_false. Qed.

Lemma makeKey_inj id id' f f' : validID id → validID id' → makeKey id f = makeKey id' f' ↔ id = id' ∧ f = f'.
Proof.
  intros H H'. rewrite !makeKey_valid by done. split; [|by intros [-> ->]]. intros E%(inj (app _)).
  apply app_inj_1 in E; [done|]. by rewrite (proj1 H), (proj1 H').
Qed.

Lemma prefix_key id id' f : validID id → validID id' → HasPrefix (makeKey id' f) (makeKey id []) = bool_decide (id' = id).
Proof.
  intros H H'. unfold HasPrefix. rewrite !makeKey_valid, app_nil_r by done. apply bool_decide_ext.
  rewrite length_app, take_app_add, (proj1 H), <- (proj1 H'), take_app_length. split; [by intros E%(inj (app _))|by intros ->].
Qed.

Lemma prefix_version id : validID id → HasPrefix nodeDBVersionKey (makeKey id []) = false.
Proof.
  intros H. unfold HasPrefix. rewrite makeKey_valid by done. apply bool_decide_false. intros E.
  apply (f_equal (take 1)) in E. rewrite take_take in E. rewrite length_app in E. cbn in E. done.
Qed.

Lemma splitKey_makeKey id f : validID id → splitKey (makeKey id f) = Ret (id, f).
Proof.
  intros H. rewrite makeKey_valid by done. unfold splitKey, HasPrefix. rewrite take_app_length, bool_decide_true by done. cbn [negb].
  rewrite drop_app_length, length_app, (proj1 H). destruct (Nat.ltb_spec (NodeIDLength + length f) NodeIDLength); [lia|].
  by rewrite take_app_length', drop_app_length' by (symmetry; apply H).
Qed.

Lemma splitKey_version : splitKey nodeDBVersionKey = Ret (nodeDBNilNodeID, nodeDBVersionKey).
Proof. reflexivity. Qed.

(** ** Entries *)

Record entry := { eNode : option Node; ePing : Z; ePong : Z; eFails : Z }.

Definition emptyEntry : entry := {| eNode := None; ePing := 0; ePong := 0; eFails := 0 |}.

Definition nodeOK (n : Node) : Prop := u16 (nUDP n) ∧ u16 (nTCP n) ∧ validID (nID n) ∧ is_u64 (nNodeType n) ∧ (length (default [] (nIP n)) < 256)%nat.

(** A node as it is read back. *)
Definition reread (ref : nat) (n : Node) : Node :=
  {| nRef := ref; nIP := Some (default [] (nIP n)); nUDP := nUDP n; nTCP := nTCP n; nID := nID n; nSha := sm3 (nID n); nNodeType := nNodeType n |}.

Lemma record_typed n : nodeOK n → hasType recordTyp (recordVal n).
Proof.
  intros (Hu & Ht & [Hl _] & Hy & _). apply hasType_struct. cbn [hasFields]. split_and!; try done; [by apply uint16_typed..|by apply id_typed|by apply uint64_typed].
Qed.

Lemma record_encoded n : nodeOK n → ∃ blob, EncodeToBytes (recordVal n) = Ok blob ∧ DecodeBytes Datatypes.id blob recordTyp = DOk (recordVal n).
Proof.
  intros Hn. pose proof (record_typed n Hn) as Ht. destruct Hn as (Hu & Htc & [Hl _] & Hy & Hip).
  assert (He : ∃ blob, EncodeToBytes (recordVal n) = Ok blob ∧ Z.of_nat (length blob) < two64).
  { rewrite EncodeToBytes_encoding by (by eapply hasType_wt). eexists. split; [reflexivity|].
    pose proof (encStr_bound (default [] (nIP n)) Hip). pose proof (encStr_bound (nID n) ltac:(rewrite Hl; unfold NodeIDLength; lia)).
    assert (Hb : ∀ z, is_u64 z → (length (encUint z) ≤ 9)%nat).
    { intros z Hz. apply (encUint_bound z 8); [done|change (256 ^ Z.of_nat 8) with two64; apply Hz|lia]. }
    assert (Hb16 : ∀ z, u16 z → (length (encUint z) ≤ 9)%nat) by (intros z Hz; apply Hb; unfold u16, is_u64, two64 in *; lia).
    pose proof (Hb16 _ Hu). pose proof (Hb16 _ Htc). pose proof (Hb _ Hy). rewrite Hl in *. unfold NodeIDLength in *.
    eapply Z.le_lt_trans; [apply inj_le, (encList_bound _ 5)|]; rewrite ?length_app; cbn [length]; try lia.
    - change (256 ^ Z.of_nat 5) with 1099511627776. destruct (Nat.ltb _ _), (Nat.ltb _ _); lia.
    - unfold two64. destruct (Nat.ltb _ _), (Nat.ltb _ _); lia. }
  destruct He as (blob & He & Hlen). exists blob. split; [done|].
  destruct (decode_encoded Datatypes.id recordTyp (recordVal n) blob eq_refl Ht He Hlen) as (s & Hs & Hi).
  unfold DecodeBytes. by rewrite Hs, Hi.
Qed.

Section Refine.
  Context {K : KV} {KL : KVLaws K}.

(** The entry of a node. *)
Definition view (db : kvT) (id : bytes) : entry :=
  {| eNode := dbNode db 0 id; ePing := lastPing db id; ePong := lastPong db id; eFails := findFails db id |}.

(** Every key is the version's or that of a field of a node, and records decode. *)
Definition dbOK (db : kvT) : Prop :=
  ∀ k v, kvGet db k = Some v → k = nodeDBVersionKey ∨
    ∃ id f, validID id ∧ f ∈ fields ∧ k = makeKey id f ∧ (f = nodeDBDiscoverRoot → ∃ n, nodeOK n ∧ nID n = id ∧ EncodeToBytes (recordVal n) = Ok v).

Lemma get_put_key db i f v id f' : validID i → validID id →
  kvGet (kvPut db (makeKey i f) v) (makeKey id f') = if bool_decide (i = id ∧ f = f') then Some v else kvGet db (makeKey id f').
Proof. intros Hi Hid. rewrite kv_put. erewrite bool_decide_ext; [done|]. by apply makeKey_inj. Qed.

Lemma get_deletes ks db k : kvGet (foldl kvDelete db ks) k = if bool_decide (k ∈ ks) then None else kvGet db k.
Proof.
  revert db. induction ks as [|x ks IH]; intros db; cbn [foldl].
  - by rewrite bool_decide_false by apply not_elem_of_nil.
  - rewrite IH, kv_delete. repeat case_bool_decide; subst; try done; set_solver.
Qed.

Lemma get_deleteNode db i id f : validID i → validID id →
  kvGet (deleteNode db i) (makeKey id f) = if bool_decide (i = id) then None else kvGet db (makeKey id f).
Proof.
  intros Hi Hid. unfold deleteNode. rewrite get_deletes. destruct (kvGet db (makeKey id f)) as [v|] eqn:E.
  - assert (Hin : makeKey id f ∈ (kvIter db).*1) by (apply list_elem_of_fmap; exists (makeKey id f, v); split; [done|by apply kv_iter]).
    erewrite bool_decide_ext; [done|]. rewrite list_elem_of_In, List.filter_In, <- list_elem_of_In, prefix_key by done.
    rewrite bool_decide_eq_true. naive_solver.
  - by repeat case_bool_decide.
Qed.

(** A field set in one entry. *)
Lemma view_put db i f v id : validID i → validID id → f ∈ fields →
  view (kvPut db (makeKey i f) v) id =
  if bool_decide (i = id) then
    {| eNode := if bool_decide (f = nodeDBDiscoverRoot) then match DecodeBytes Datatypes.id v recordTyp with DOk v => recordOf 0 sm3 v | _ => None end else dbNode db 0 id;
       ePing := if bool_decide (f = nodeDBDiscoverPing) then (let '(val, read) := Varint v in if read <=? 0 then 0 else val) else lastPing db id;
       ePong := if bool_decide (f = nodeDBDiscoverPong) then (let '(val, read) := Varint v in if read <=? 0 then 0 else val) else lastPong db id;
       eFails := if bool_decide (f = nodeDBDiscoverFindFails) then (let '(val, read) := Varint v in if read <=? 0 then 0 else val) else findFails db id |}
  else view db id.
Proof.
  intros Hi Hid Hf. unfold view, dbNode, lastPing, lastPong, findFails, fetchInt64. rewrite !(get_put_key db i f v id) by done.
  destruct (decide (i = id)) as [->|Hne].
  - rewrite (bool_decide_true (id = id)) by done.
    f_equal; repeat (case_bool_decide; [|]); try tauto; naive_solver.
  - rewrite !(bool_decide_false (i = id ∧ _)), bool_decide_false by tauto. done.
Qed.

Lemma view_delete db i id : validID i → validID id → view (deleteNode db i) id = if bool_decide (i = id) then emptyEntry else view db id.
Proof.
  intros Hi Hid. unfold view, dbNode, lastPing, lastPong, findFails, fetchInt64. rewrite !(get_deleteNode db i id) by done. by case_bool_decide.
Qed.

Lemma dbOK_put db i f v : dbOK db → validID i → f ∈ fields → (f = nodeDBDiscoverRoot → ∃ n, nodeOK n ∧ nID n = i ∧ EncodeToBytes (recordVal n) = Ok v) →
  dbOK (kvPut db (makeKey i f) v).
Proof.
  intros H Hi Hf Hr k v'. rewrite kv_put. case_bool_decide as E; [intros [= <-]; right; by exists i, f|]. apply H.
Qed.

Lemma dbOK_delete db i : dbOK db → dbOK (deleteNode db i).
Proof. intros H k v. unfold deleteNode. rewrite get_deletes. case_bool_decide; [done|]. apply H. Qed.

Lemma view_node db id : dbOK db → validID id → is_Some (eNode (view db id)) ↔ is_Some (kvGet db (makeKey id nodeDBDiscoverRoot)).
Proof.
  intros H Hid. unfold view, dbNode. cbn [eNode]. destruct (kvGet db _) as [v|] eqn:E; [|done]. split; [done|]. intros _.
  destruct (H _ _ E) as [Ev|(id' & f & Hid' & _ & Ek & Hn)].
  - exfalso. assert (Hp : HasPrefix (makeKey id nodeDBDiscoverRoot) (makeKey id []) = true) by (rewrite prefix_key by done; by apply bool_decide_eq_true).
    by rewrite Ev, prefix_version in Hp.
  - apply makeKey_inj in Ek as [<- <-]; [|done..]. destruct (Hn eq_refl) as (n & Hok & _ & He).
    destruct (record_encoded n Hok) as (blob & He' & Hd). rewrite He in He'. injection He' as <-. rewrite Hd. done.
Qed.

(** ** Expiry *)

Definition stale (self : bytes) (threshold : Z) (id : bytes) (e : entry) : bool :=
  bool_decide (id = self) || negb (threshold <? unixNs (ePong e)).

Definition keyOK (k : bytes) : Prop := k = nodeDBVersionKey ∨ ∃ id f, validID id ∧ k = makeKey id f.

Lemma expireKeys_spec self threshold keys : ∀ db, Forall keyOK keys → NoDup keys → dbOK db →
  ∃ db', expireLoop self threshold keys db = Ret db' ∧ dbOK db' ∧
    ∀ id, validID id → view db' id =
      if bool_decide (makeKey id nodeDBDiscoverRoot ∈ keys) && stale self threshold id (view db id) then emptyEntry else view db id.
Proof.
  induction keys as [|k keys IH]; intros db Hk Hnd Hok; cbn [expireLoop].
  { exists db. split_and!; [done..|]. intros id _. by rewrite bool_decide_false by apply not_elem_of_nil. }
  apply Forall_cons in Hk as [Hk Hks]. apply NoDup_cons in Hnd as [Hni Hnd].
  assert (Hskip : ∀ id0, (∀ id, validID id → makeKey id nodeDBDiscoverRoot = k → id = id0 ∧ stale self threshold id0 (view db id0) = false) →
    ∃ db', expireLoop self threshold keys db = Ret db' ∧ dbOK db' ∧ ∀ id, validID id → view db' id =
      if bool_decide (makeKey id nodeDBDiscoverRoot ∈ k :: keys) && stale self threshold id (view db id) then emptyEntry else view db id).
  { intros id0 Hs. destruct (IH db Hks Hnd Hok) as (db' & E & Hok' & Hv). exists db'. split_and!; [done..|]. intros id Hid. rewrite Hv by done.
    destruct (decide (makeKey id nodeDBDiscoverRoot = k)) as [Ek|Ek].
    - destruct (Hs id Hid Ek) as [-> ->]. by rewrite !andb_false_r.
    - erewrite (bool_decide_ext (_ ∈ k :: keys)); [done|]. set_solver. }
  destruct Hk as [->|(id0 & f & Hid0 & ->)].
  - rewrite splitKey_version. cbn [mbind gores_bind]. rewrite bool_decide_false by done. cbn [negb].
    apply (Hskip []). intros id Hid Ek. exfalso. assert (Hp := prefix_key id id nodeDBDiscoverRoot Hid Hid). rewrite Ek, prefix_version, bool_decide_true in Hp by done. done.
  - rewrite splitKey_makeKey by done. cbn [mbind gores_bind]. destruct (decide (f = nodeDBDiscoverRoot)) as [->|Hf].
    2:{ rewrite bool_decide_false by done. cbn [negb]. apply (Hskip id0). intros id Hid [-> <-]%makeKey_inj; done. }
    rewrite bool_decide_true by done. cbn [negb].
    destruct (negb (bool_decide (id0 = self)) && (threshold <? unixNs (lastPong db id0))) eqn:Hst.
    + apply (Hskip id0). intros id Hid [-> _]%makeKey_inj; [|done..]. split; [done|]. unfold stale, view. cbn [ePong].
      apply andb_true_iff in Hst as [H1 H2]. rewrite negb_true_iff in H1. by rewrite H1, H2.
    + destruct (IH (deleteNode db id0) Hks Hnd (dbOK_delete _ _ Hok)) as (db' & E & Hok' & Hv). exists db'. split_and!; [done..|].
      intros id Hid. rewrite Hv, view_delete by done. destruct (decide (id0 = id)) as [<-|Hne].
      * rewrite (bool_decide_true (id0 = id0)) by done. rewrite (bool_decide_true (_ ∈ _ :: _)) by (by left).
        assert (Hs : stale self threshold id0 (view db id0) = true).
        { unfold stale, view. cbn [ePong]. destruct (bool_decide (id0 = self)); [done|]. cbn in Hst. by rewrite Hst. }
        rewrite Hs. cbn [andb]. by rewrite (bool_decide_false (_ ∈ keys)) by done.
      * rewrite (bool_decide_false (id0 = id)) by done. erewrite (bool_decide_ext (_ ∈ _ :: _)); [done|]. rewrite elem_of_cons.
        split; [|by right]. intros [[? _]%makeKey_inj|?]; done.
Qed.

Lemma expireNodes_spec self now db : dbOK db → ∃ db', expireNodes self now db = Ret db' ∧ dbOK db' ∧
  ∀ id, validID id → view db' id =
    match eNode (view db id) with
    | Some _ => if stale self (now - nodeDBNodeExpiration) id (view db id) then emptyEntry else view db id
    | None => view db id
    end.
Proof.
  intros Hok. destruct (expireKeys_spec self (now - nodeDBNodeExpiration) (kvIter db).*1 db) as (db' & E & Hok' & Hv).
  - apply Forall_forall. intros k ([k' v] & -> & Hkv)%list_elem_of_fmap. apply kv_iter in Hkv. unfold keyOK.
    destruct (Hok _ _ Hkv) as [?|(id & f & ? & _ & ? & _)]; [by left|right]. by exists id, f.
  - apply kv_nodup.
  - done.
  - exists db'. split_and!; [done..|]. intros id Hid. rewrite Hv by done.
    pose proof (view_node db id Hok Hid) as Hn. destruct (eNode (view db id)) as [n|].
    + rewrite bool_decide_true; [done|]. destruct (proj1 Hn) as [v Ev]; [done|]. apply list_elem_of_fmap. exists (makeKey id nodeDBDiscoverRoot, v).
      split; [done|]. by apply kv_iter.
    + rewrite bool_decide_false; [done|]. intros ([k v] & Ek & Hin)%list_elem_of_fmap. cbn [fst] in Ek. subst k. apply kv_iter in Hin.
      rewrite Hin in Hn. destruct (proj2 Hn) as [? [=]]. done.
Qed.

(** ** Operations *)

Inductive dbOp :=
  | OpNode (n : Node)
  | OpPing (id : bytes) (t : Z)
  | OpPong (id : bytes) (t : Z)
  | OpFails (id : bytes) (fails : Z)
  | OpDelete (id : bytes)
  | OpExpire (now : Z).

Definition dbExec (self : bytes) (db : kvT) (op : dbOp) : gores kvT :=
  match op with
  | OpNode n => match updateNode db n with Ok db => Ret db | Err e => Fail e end
  | OpPing id t => Ret (updateLastPing db id t)
  | OpPong id t => Ret (updateLastPong db id t)
  | OpFails id fails => Ret (updateFindFails db id fails)
  | OpDelete id => Ret (deleteNode db id)
  | OpExpire now => expireNodes self now db
  end.

Definition int64 (z : Z) : Prop := - two63 ≤ z < two63.

Definition opOK (op : dbOp) : Prop :=
  match op with
  | OpNode n => nodeOK n
  | OpPing id t | OpPong id t => validID id ∧ int64 (t / 1000000000)
  | OpFails id fails => validID id ∧ int64 fails
  | OpDelete id => validID id
  | OpExpire _ => True
  end.

(** What an operation does to the entry of [id]. *)
Definition specOp (self id : bytes) (e : entry) (op : dbOp) : entry :=
  match op with
  | OpNode n => if bool_decide (nID n = id) then {| eNode := Some (reread 0 n); ePing := ePing e; ePong := ePong e; eFails := eFails e |} else e
  | OpPing i t => if bool_decide (i = id) then {| eNode := eNode e; ePing := t / 1000000000; ePong := ePong e; eFails := eFails e |} else e
  | OpPong i t => if bool_decide (i = id) then {| eNode := eNode e; ePing := ePing e; ePong := t / 1000000000; eFails := eFails e |} else e
  | OpFails i fails => if bool_decide (i = id) then {| eNode := eNode e; ePing := ePing e; ePong := ePong e; eFails := fails |} else e
  | OpDelete i => if bool_decide (i = id) then emptyEntry else e
  | OpExpire now =>
      match eNode e with
      | Some _ => if stale self (now - nodeDBNodeExpiration) id e then emptyEntry else e
      | None => e
      end
  end.

Lemma varint_read z : int64 z → (let '(val, read) := Varint (PutVarint z) in if read <=? 0 then 0 else val) = z.
Proof. intros Hz. destruct (Varint_PutVarint z Hz) as (n & Hn & ->). destruct (Z.leb_spec n 0); [lia|done]. Qed.

Lemma dbExec_spec self db op : dbOK db → opOK op → ∃ db', dbExec self db op = Ret db' ∧ dbOK db' ∧
  ∀ id, validID id → view db' id = specOp self id (view db id) op.
Proof.
  assert (Hint : ∀ db i f z, dbOK db → validID i → f ∈ fields → f ≠ nodeDBDiscoverRoot → dbOK (storeInt64 db (makeKey i f) z)).
  { intros ? i f z H Hi Hf Hr. by apply dbOK_put. }
  intros Hok Hop. destruct op as [n|i t|i t|i z|i|now]; cbn [dbExec opOK specOp] in *.
  - destruct (record_encoded n Hop) as (blob & He & Hd). unfold updateNode. rewrite He. eexists. split; [done|]. pose proof Hop as (_ & _ & Hi & _).
    split; [apply dbOK_put; [done|done|by left|by exists n]|]. intros id Hid. rewrite view_put by (done || by left). rewrite Hd. case_bool_decide; done.
  - destruct Hop as [Hi Ht]. eexists. split; [done|]. split; [apply Hint; [done|done|set_solver|done]|]. intros id Hid. unfold updateLastPing, storeInt64.
    rewrite view_put by (done || set_solver). rewrite varint_read by done. case_bool_decide; done.
  - destruct Hop as [Hi Ht]. eexists. split; [done|]. split; [apply Hint; [done|done|set_solver|done]|]. intros id Hid. unfold updateLastPong, storeInt64.
    rewrite view_put by (done || set_solver). rewrite varint_read by done. case_bool_decide; done.
  - destruct Hop as [Hi Ht]. eexists. split; [done|]. split; [apply Hint; [done|done|set_solver|done]|]. intros id Hid. unfold updateFindFails, storeInt64.
    rewrite view_put by (done || set_solver). rewrite varint_read by done. case_bool_decide; done.
  - eexists. split; [done|]. split; [by apply dbOK_delete|]. intros id Hid. by apply view_delete.
  - by apply expireNodes_spec.
Qed.


(** Opening a store of another version empties it; one of the same version is kept. *)
Lemma openPersistent_spec found version : dbOK found → dbOK (openPersistent found version) ∧
  ∀ id, validID id → view (openPersistent found version) id =
    match kvGet found nodeDBVersionKey with
    | Some blob => if bool_decide (blob = PutVarint version) then view found id else emptyEntry
    | None => view found id
    end.
Proof.
  intros Hok. assert (Hput : ∀ db v, dbOK db → dbOK (kvPut db nodeDBVersionKey v) ∧ ∀ id, validID id → view (kvPut db nodeDBVersionKey v) id = view db id).
  { intros db v H. split.
    - intros k v'. rewrite kv_put. case_bool_decide; [intros _; by left|apply H].
    - intros id Hid. assert (Hne : ∀ f, nodeDBVersionKey ≠ makeKey id f).
      { intros f E. assert (Hp := prefix_key id id f Hid Hid). rewrite <- E, prefix_version, bool_decide_true in Hp; done. }
      unfold view, dbNode, lastPing, lastPong, findFails, fetchInt64. rewrite !kv_put, !bool_decide_false by apply Hne. done. }
  assert (He : dbOK kvEmpty ∧ ∀ id, view kvEmpty id = emptyEntry).
  { split; [intros k v; by rewrite kv_empty|]. intros id. unfold view, dbNode, lastPing, lastPong, findFails, fetchInt64. by rewrite !kv_empty. }
  unfold openPersistent. destruct (kvGet found nodeDBVersionKey) as [blob|]; [|by apply Hput].
  case_bool_decide; cbn [negb]; [by split|]. destruct He as [H1 H2]. destruct (Hput kvEmpty (PutVarint version) H1) as [H3 H4].
  split; [done|]. intros id Hid. by rewrite H4.
Qed.

(** ** Seeds *)

(** A node the iterator gives is a record of the database. *)
Lemma nextNode_spec db ref it : dbOK db → (∀ k v, (k, v) ∈ it → kvGet db k = Some v) →
  ∃ r, nextNode ref it = Ret r ∧ match r with Some n => validID (nID n) ∧ is_Some (dbNode db 0 (nID n)) | None => True end.
Proof.
  intros Hok. induction it as [|[k v] it IH]; intros Hit; cbn [nextNode]; [by eexists|].
  specialize (IH ltac:(intros; apply Hit; by right)). pose proof (Hit k v ltac:(left)) as Hg.
  destruct (Hok k v Hg) as [->|(id & f & Hid & _ & -> & Hn)].
  - rewrite splitKey_version. cbn [mbind gores_bind snd]. by rewrite bool_decide_false.
  - rewrite splitKey_makeKey by done. cbn [mbind gores_bind snd]. case_bool_decide as Hf; cbn [negb]; [|done].
    destruct (Hn Hf) as (n & Hnok & Hid' & He). destruct (record_encoded n Hnok) as (blob & He' & Hd). rewrite He in He'. injection He' as <-. rewrite Hd.
    cbn [recordOf recordVal]. eexists. split; [done|]. cbn [nID]. rewrite Hid'. split; [done|]. unfold dbNode. subst f. rewrite Hg, Hd. done.
Qed.

Definition goodSeed (db : kvT) (self : bytes) (now maxAge : Z) (n : Node) : Prop :=
  nID n ≠ self ∧ validID (nID n) ∧ is_Some (dbNode db 0 (nID n)) ∧ now - unixNs (lastPong db (nID n)) ≤ maxAge.

Lemma seedLoop_spec db self now maxAge n rand fuel : dbOK db → ∀ seeks id0 nodes,
  (length nodes ≤ n)%nat → NoDup (nID <$> nodes) → Forall (goodSeed db self now maxAge) nodes →
  ∃ r, seedLoop fuel rand db self n now maxAge seeks id0 nodes = Ret r ∧ (length r ≤ n)%nat ∧ NoDup (nID <$> r) ∧ Forall (goodSeed db self now maxAge) r.
Proof.
  intros Hok. induction fuel as [|fuel IH]; intros seeks id0 nodes Hl Hnd Hg; cbn [seedLoop]; [by exists nodes|].
  destruct (Nat.ltb_spec (length nodes) n); cbn [negb]; [|by exists nodes]. cbv zeta.
  match goal with |- context [Seek ?k ?it] => destruct (nextNode_spec db seeks (Seek k it) Hok) as (r & -> & Hr) end.
  { intros k v. unfold Seek. rewrite list_elem_of_In, List.filter_In, <- list_elem_of_In, kv_iter. by intros [? _]. }
  cbn [mbind gores_bind]. destruct r as [nd|]; [|by apply IH]. destruct Hr as [Hv Hs].
  destruct (_ || _) eqn:Hc; [by apply IH|]. apply orb_false_iff in Hc as [[Hself Hage]%orb_false_iff Hdup].
  apply bool_decide_eq_false_1 in Hself. apply Z.ltb_ge in Hage. apply IH.
  - rewrite length_app. cbn. lia.
  - rewrite fmap_app. apply NoDup_app. split; [done|]. split; [|apply NoDup_singleton]. intros x Hx Hx'. cbn in Hx'. apply list_elem_of_singleton in Hx' as ->.
    apply list_elem_of_fmap in Hx as (y & Hy & Hin). assert (existsb (fun x => bool_decide (nID x = nID nd)) nodes = true); [|congruence].
    apply existsb_exists. exists y. split; [by apply list_elem_of_In|]. by apply bool_decide_eq_true.
  - apply Forall_app. split; [done|]. by apply Forall_singleton.
Qed.

(** The seeds are found in bounded time; they are distinct records of the database, at most as
    many as asked for, recently seen and not the node itself. *)
Lemma querySeeds_spec rand db self n now maxAge : dbOK db →
  ∃ r, querySeeds rand db self n now maxAge = Ret r ∧ (length r ≤ n)%nat ∧ NoDup (nID <$> r) ∧ Forall (goodSeed db self now maxAge) r.
Proof. intros Hok. apply seedLoop_spec; [done|cbn; lia|constructor|constructor]. Qed.

(** Deleting the zero identifier deletes every key. *)
Lemma deleteNode_zero db k : kvGet (deleteNode db nodeDBNilNodeID) k = None.
Proof.
  unfold deleteNode. rewrite get_deletes. destruct (kvGet db k) as [v|] eqn:E; [|by case_bool_decide].
  rewrite bool_decide_true; [done|]. rewrite list_elem_of_In, List.filter_In, <- list_elem_of_In. split; [|done].
  apply list_elem_of_fmap. exists (k, v). split; [done|]. by apply kv_iter.
Qed.

End Refine.

(** ** A store *)

Lemma bytesLe_total a b : bytesLe a b = true ∨ bytesLe b a = true.
Proof.
  revert b. induction a as [|x a IH]; intros [|y b]; cbn [bytesLe]; auto.
  destruct (Z.ltb_spec x y), (Z.ltb_spec y x); auto.
Qed.

Lemma bytesLe_trans a b c : bytesLe a b = true → bytesLe b c = true → bytesLe a c = true.
Proof.
  revert b c. induction a as [|x a IH]; intros [|y b] [|z c]; cbn [bytesLe]; try done.
  destruct (Z.ltb_spec x y), (Z.ltb_spec y x), (Z.ltb_spec y z), (Z.ltb_spec z y), (Z.ltb_spec x z), (Z.ltb_spec z x); try done; try lia; eauto.
Qed.

Definition pairLe (p q : bytes * bytes) : Prop := bytesLe p.1 q.1 = true.

#[export] Instance pairLe_dec : RelDecision pairLe.
Proof. intros p q. unfold pairLe. apply _. Defined.

#[export] Instance pairLe_total : Total pairLe.
Proof. intros p q. apply bytesLe_total. Qed.

#[export] Instance pairLe_trans : Transitive pairLe.
Proof. intros p q r. apply bytesLe_trans. Qed.

(** Finite maps, gone over in the order of the keys. *)
#[export] Instance gmapKV : KV := {
  kvT := gmap bytes bytes;
  kvEmpty := ∅;
  kvGet s k := s !! k;
  kvPut s k v := <[k := v]> s;
  kvDelete s k := base.delete k s;
  kvIter s := merge_sort pairLe (map_to_list s)
}.

#[export] Instance gmapKVLaws : KVLaws gmapKV.
Proof.
  split; cbn.
  - intros k. apply lookup_empty.
  - intros s k v k'. case_bool_decide; subst; [by rewrite lookup_insert_eq|by rewrite lookup_insert_ne].
  - intros s k k'. case_bool_decide; subst; [by rewrite lookup_delete_eq|by rewrite lookup_delete_ne].
  - intros s k v. rewrite merge_sort_Permutation. apply elem_of_map_to_list.
  - intros s. rewrite merge_sort_Permutation. apply NoDup_fst_map_to_list.
  - intros s. assert (Hs : StronglySorted pairLe (merge_sort pairLe (map_to_list s))) by (apply StronglySorted_merge_sort; apply _).
    induction Hs as [|p l Hl IH Hp]; cbn; constructor; [done|]. apply Forall_fmap. done.
Qed.

Definition exPeer : Node := {| nRef := 0; nIP := Some [10; 0; 0; 1]; nUDP := 30303; nTCP := 30304; nID := replicate 64 7; nSha := []; nNodeType := 1 |}.

Definition exSelf : bytes := replicate 64 9.

(** A node that is seen, and forgotten a day later. *)
Definition exOps : list dbOp :=
  [OpPing (nID exPeer) 1000000000000; OpPong (nID exPeer) 2000000000000; OpNode exPeer; OpFails (nID exPeer) 3; OpExpire 3000000000000].

Lemma exOps_OK : Forall opOK exOps.
Proof.
  assert (Hid : validID (replicate 64 7)) by (split; [done|]; discriminate).
  repeat constructor; cbn; try done; unfold u16, is_u64, two64; try lia.
Qed.


(** The entry after these operations, and the number of keys after another expiry a day
    later. *)
Definition exEntry : gores (Z * Z * option Z * nat) :=
  db ← foldM (dbExec exSelf) exOps (openPersistent kvEmpty 4);
  let e := view db (nID exPeer) in
  db2 ← expireNodes exSelf (2000000000000 + 86401000000000) db;
  Ret (ePong e, eFails e, nUDP <$> eNode e, length (kvIter db2)).

Example exEntry_value : exEntry = Ret (2000, 3, Some 30303, 1%nat).
Proof. vm_compute. reflexivity. Qed.
