(* ===== verification/MultiEnc.v ===== *)
(** * Encryption of data and backup of keys

    [src/crypto-gm/MultiEncryption/api.go]: SM4 in cipher block chaining with padding, the key
    serving as initial vector, and the making of such keys; [src/crypto-gm/PKIM.go]: a
    private key split into shares, each encrypted for one holder.  The functions of the
    first file work in place: a result comes with what the slice of the caller holds
    afterwards, and [spare] is the capacity behind the data.

    Properties: decryption gives back what was encrypted, directly and in base64
    ([Decryption_Encryption]); the holders of enough encrypted
    shares recover the key ([TSS_roundtrip]).  Data that was tampered with is reported
    as an empty result without an error ([Decryption_silent]) or panics
    ([Decryption_crash]); encryption overwrites the plaintext of the caller when there is
    room for the padding ([Encryption_overwrites]). *)

From stdpp Require Import base gmap list strings.
From Stdlib Require Import ZArith Znumtheory Lia.
From S2P Require Import Prelude Common Words Galois Shamir Sm4 BigInt Sm3 Sm2 Encoding Signature.
Local Open Scope Z_scope.

(** ** Padding *)

Definition padding (in_ : bytes) (blockSize : nat) : bytes :=
  let padding := (blockSize - length in_ mod blockSize)%nat in in_ ++ replicate padding (Z.of_nat padding mod 256).

(** [None] is the nil slice. *)
Definition unpadding (in_ : bytes) : option bytes :=
  let n := length in_ in
  if Nat.eqb n 0 then None
  else
    let padding := nth (n - 1) in_ 0 in
    if (Z.of_nat n <? padding) || (Z.of_nat BlockSize <? padding) then None
    else if padding =? 0 then None
    else if forallb (fun x => x =? padding) (drop (n - Z.to_nat padding) in_) then Some (take (n - Z.to_nat padding) in_)
    else None.

(** ** Cipher block chaining *)

Fixpoint cbcEncrypt (c : list Z) (n : nat) (iv data : bytes) : gores bytes :=
  match n with
  | O => Ret []
  | S n =>
      let x := xorBytes (take BlockSize data) iv in
      b ← Sm4.Encrypt c x x;
      rest ← cbcEncrypt c n b (drop BlockSize data);
      Ret (b ++ rest)
  end.

Fixpoint cbcDecrypt (c : list Z) (n : nat) (iv data : bytes) : gores bytes :=
  match n with
  | O => Ret []
  | S n =>
      let x := take BlockSize data in
      b ← Sm4.Decrypt c x x;
      rest ← cbcDecrypt c n x (drop BlockSize data);
      Ret (xorBytes b iv ++ rest)
  end.

(** [CryptBlocks] of whole blocks; the initial vector must be a block. *)
Definition CryptBlocks (crypt : nat → bytes → bytes → gores bytes) (iv data : bytes) : gores bytes :=
  if negb (Nat.eqb (length iv) BlockSize) then Crash
  else if negb (Nat.eqb (length data mod BlockSize) 0) then Crash
  else crypt (length data / BlockSize)%nat iv data.

Definition Encryption (desKey : bytes) (spare : nat) (data : bytes) : gores (bytes * bytes) :=
  match NewCipher desKey with
  | Crash => Crash
  | Fail _ => Fail "can't get a des key"
  | Ret block =>
      let padded := padding data BlockSize in
      out ← CryptBlocks (cbcEncrypt block) desKey padded;
      Ret (out, if Nat.leb (length padded - length data) spare then take (length data) out else data)
  end.

Definition Decryption (desKey data : bytes) : gores (option bytes * bytes) :=
  match NewCipher desKey with
  | Crash => Crash
  | Fail _ => Fail "can't get a des key"
  | Ret block =>
      out ← CryptBlocks (cbcDecrypt block) desKey data;
      Ret (unpadding out, out)
  end.

Definition Encryption2 (desKey : bytes) (spare : nat) (data : bytes) : gores (bytes * bytes) :=
  r ← Encryption desKey spare data;
  Ret (b64Encode (r : bytes * bytes).1, r.2).

Definition Decryption2 (desKey data : bytes) : gores (option bytes) :=
  let '(decodeBytes, ok) := b64Decode data in
  if negb ok then Fail "base64"
  else r ← Decryption desKey decodeBytes; Ret (r : option bytes * bytes).1.

(** ** Keys *)

(** [Krand]: [rand] gives the value of each [Intn], the first argument its bound. *)
Definition kinds : list (Z * Z) := [(10, 48); (26, 97); (26, 65)].

Definition krandByte (rand : Z → nat → Z) (kind : Z) (i : nat) : gores Z :=
  let is_all := (2 <? kind) || (kind <? 0) in
  let ikind := if is_all then rand 3 (2 * i)%nat else kind in
  k ← index kinds ikind;
  let '(scope, base) := (k : Z * Z) in
  Ret ((base + rand scope (2 * i + 1)%nat) mod 256).

Definition Krand (rand : Z → nat → Z) (size : nat) (kind : Z) : gores bytes := mapM (krandByte rand kind) (seq 0 size).

(** The decimal digits of the low 64 bits of the abscissa of a fresh key, from the second
    on. *)
Definition GenerateDESKey (rand : Z → nat → Z) (key : gores PrivateKey) : gores bytes :=
  match key with
  | Crash => Crash
  | Fail _ => Fail "can't generate a des key"
  | Ret privateKey =>
      let str := bytes_of_string (Itoa (i64 (pubX (privPub privateKey)))) in
      temp ← (if Nat.ltb (length str) 17 then Krand rand (17 - length str) 0 else Ret []);
      let str := str ++ temp in
      Ret (take 16 (drop 1 str))
  end.

(** ** Backup of keys *)

Section Backup.
  Context {C : Curve}.

(** [Encrypt(ToECDSAPub(b), piece)]: a key that is nil, or has no coordinates once the nonce
    was read, panics. *)
Definition encryptFor (rand : nat → option bytes) (fuel : nat) (b piece : bytes) : option (gores bytes) :=
  match ToECDSAPub b, piece with
  | _, [] => Some (Ret [])
  | Some (Some pub), _ => Sm2.Encrypt rand pub piece fuel
  | Some None, _ => match rand O with None => Some (Fail "rand") | Some _ => Some Crash end
  | None, _ => Some Crash
  end.

(** The loop of [TSS_backup]; [reads i] are the random reads for the [i]-th holder. *)
Fixpoint encryptPieces (reads : nat → nat → option bytes) (fuel i : nat) (backuperList pieces : list bytes) : option (gores (list bytes)) :=
  match backuperList, pieces with
  | [], _ => Some (Ret [])
  | _ :: _, [] => Some Crash
  | b :: rest, piece :: pieces =>
      match encryptFor (reads i) fuel b piece with
      | None => None
      | Some Crash => Some Crash
      | Some (Fail e) => Some (Fail e)
      | Some (Ret sec) =>
          match encryptPieces reads fuel (S i) rest pieces with
          | Some (Ret secs) => Some (Ret (sec :: secs))
          | r => r
          end
      end
  end.

Definition TSS_backup (randRead : nat → nat → option bytes) (xCoordinates : list Z) (reads : nat → nat → option bytes) (fuel : nat)
    (prk : bytes) (backuperList : list bytes) (threshold : Z) : option (gores (list bytes)) :=
  match Split randRead xCoordinates prk (Z.of_nat (length backuperList)) threshold with
  | Crash => Some Crash
  | Fail e => Some (Fail e)
  | Ret piece => encryptPieces reads fuel 0 backuperList piece
  end.

Definition TSS_Recover (seglist : list bytes) : gores bytes := Combine seglist.

End Backup.

(** ** Padding undone *)

Lemma padding_shape data : ∃ p, (1 ≤ p ≤ 16)%nat ∧ padding data BlockSize = data ++ replicate p (Z.of_nat p) ∧ ((length data + p) mod 16 = 0)%nat.
Proof.
  unfold padding, BlockSize. pose proof (Nat.mod_upper_bound (length data) 16 ltac:(lia)) as Hm. exists (16 - length data mod 16)%nat.
  split; [lia|]. split; [rewrite (Z.mod_small _ 256) by lia; done|].
  rewrite <- Nat.Div0.add_mod_idemp_l. replace (length data mod 16 + (16 - length data mod 16))%nat with 16%nat by lia. done.
Qed.

Lemma unpadding_padding data : unpadding (padding data BlockSize) = Some data.
Proof.
  destruct (padding_shape data) as (p & Hp & -> & _). unfold unpadding. rewrite length_app, length_replicate.
  destruct (Nat.eqb_spec (length data + p) 0); [lia|].
  assert (Hn : nth (length data + p - 1) (data ++ replicate p (Z.of_nat p)) 0 = Z.of_nat p).
  { rewrite app_nth2 by lia. apply nth_lookup_Some. apply lookup_replicate. split; [done|lia]. }
  rewrite Hn. unfold BlockSize. rewrite (proj2 (Z.ltb_ge _ _)), (proj2 (Z.ltb_ge _ _)), (proj2 (Z.eqb_neq _ _)) by lia. cbn [orb].
  rewrite Nat2Z.id. replace (length data + p - p)%nat with (length data) by lia. rewrite drop_app_length, take_app_length.
  rewrite (proj2 (forallb_forall _ _)); [done|]. intros x Hx%list_elem_of_In. apply elem_of_replicate in Hx as [-> _]. apply Z.eqb_refl.
Qed.

(** ** Blocks *)

Lemma block_roundtrip key c src : Forall is_byte key → NewCipher key = Ret c → length src = 16%nat → Forall is_byte src →
  ∃ e, Sm4.Encrypt c src src = Ret e ∧ length e = 16%nat ∧ Forall is_byte e ∧ Sm4.Decrypt c e e = Ret src.
Proof.
  unfold NewCipher. intros Hb Hc Hl Hs. destruct (Nat.eqb_spec (length key) BlockSize) as [Hk|]; [|done]. cbn [negb] in Hc. unfold BlockSize in Hk.
  destruct (block_inverse key src src src) as (e & He & Hle & Hbe & _); [lia|done|done|done|lia|done|lia|].
  destruct (block_inverse key src e src) as (e' & He' & _ & _ & Hd); [lia|done|done|done|lia|done|lia|].
  rewrite He in He'. injection He' as <-. unfold EncryptBlock, DecryptBlock in *. rewrite Hc in *. cbn [mbind gores_bind] in *.
  exists e. split; [done|]. split; [lia|]. split; [done|]. unfold Sm4.Decrypt. rewrite Hd, drop_ge by lia. by rewrite app_nil_r.
Qed.

Lemma xorBytes_bytes a b : Forall is_byte a → Forall is_byte b → Forall is_byte (xorBytes a b).
Proof.
  intros Ha. revert b. induction Ha as [|x a Hx Ha IH]; intros [|y b] Hb; cbn; try constructor; decompose_Forall.
  - by apply lxor_byte.
  - by apply IH.
Qed.

Lemma xorBytes_back a b : length a = length b → xorBytes (xorBytes a b) b = a.
Proof.
  unfold xorBytes. revert b. induction a as [|x a IH]; intros [|y b] Hl; cbn in *; try done.
  rewrite IH by lia. by rewrite Z.lxor_assoc, Z.lxor_nilpotent, Z.lxor_0_r.
Qed.

Lemma cbc_roundtrip key c n : Forall is_byte key → NewCipher key = Ret c → ∀ iv data, length iv = 16%nat → Forall is_byte iv →
  length data = (16 * n)%nat → Forall is_byte data →
  ∃ out, cbcEncrypt c n iv data = Ret out ∧ length out = length data ∧ Forall is_byte out ∧ cbcDecrypt c n iv out = Ret data.
Proof.
  intros Hk Hc. induction n as [|n IH]; intros iv data Hiv Hivb Hl Hb; cbn [cbcEncrypt cbcDecrypt].
  - destruct data; [|done]. by exists [].
  - unfold BlockSize. set (x := xorBytes (take 16 data) iv).
    assert (Hlt : length (take 16 data) = 16%nat) by (rewrite length_take; lia).
    assert (Hx : length x = 16%nat) by (subst x; unfold xorBytes; rewrite length_zip_with; lia).
    assert (Hxb : Forall is_byte x) by (subst x; apply xorBytes_bytes; [by apply Forall_take|done]).
    destruct (block_roundtrip key c x Hk Hc Hx Hxb) as (e & He & Hle & Heb & Hd). rewrite He. cbn [mbind gores_bind].
    destruct (IH e (drop 16 data) Hle Heb) as (out & Ho & Hlo & Hob & Hdo); [rewrite length_drop; lia|by apply Forall_drop|].
    rewrite Ho. cbn [mbind gores_bind]. eexists. split; [done|]. split; [rewrite length_app, Hle, Hlo, length_drop; lia|].
    split; [by apply Forall_app_2|]. rewrite take_app_length', drop_app_length' by done. rewrite Hd. cbn [mbind gores_bind]. rewrite Hdo. cbn [mbind gores_bind].
    subst x. rewrite xorBytes_back by lia. by rewrite take_drop.
Qed.

Lemma NewCipher_16 key : length key = 16%nat → Forall is_byte key → ∃ c, NewCipher key = Ret c.
Proof.
  intros Hl Hb. unfold NewCipher. rewrite Hl. cbn [Nat.eqb BlockSize negb]. exists (sm4Keys key). apply generateSubKeys_sm4Keys; [lia|done].
Qed.

(** What was encrypted is whole blocks, and is decrypted. *)
Lemma Encryption_decrypts desKey spare data : length desKey = 16%nat → Forall is_byte desKey → Forall is_byte data →
  ∃ out after, Encryption desKey spare data = Ret (out, after) ∧ Forall is_byte out ∧ (length out ≤ length data + 16)%nat ∧
    Decryption desKey out = Ret (Some data, padding data BlockSize) ∧
    after = (if Nat.leb (length out - length data) spare then take (length data) out else data).
Proof.
  intros Hl Hb Hd. destruct (NewCipher_16 desKey Hl Hb) as [c Hc]. destruct (padding_shape data) as (p & Hp & Hpad & Hmod).
  set (pd := padding data BlockSize) in *. assert (Hlp : length pd = (length data + p)%nat) by (by rewrite Hpad, length_app, length_replicate).
  assert (Hpb : Forall is_byte pd). { rewrite Hpad. apply Forall_app_2; [done|]. apply Forall_replicate. unfold is_byte. lia. }
  assert (Hn : length pd = (16 * (length pd / 16))%nat) by (rewrite Hlp; pose proof (Nat.div_mod_eq (length data + p) 16); lia).
  destruct (cbc_roundtrip desKey c (length pd / 16) Hb Hc desKey pd Hl Hb Hn Hpb) as (out & Ho & Hlo & Hob & Hdo).
  assert (Hcb : ∀ f r x, length x = length pd → f (length x / BlockSize)%nat desKey x = Ret r → CryptBlocks f desKey x = Ret r).
  { intros f r x Hx Hf. unfold CryptBlocks. rewrite Hl. cbn [Nat.eqb BlockSize negb]. rewrite Hx, Hlp. unfold BlockSize. rewrite Hmod. cbn [Nat.eqb negb].
    rewrite <- Hlp, <- Hx. exact Hf. }
  exists out, (if Nat.leb (length out - length data) spare then take (length data) out else data). split; [|split; [done|split; [lia|split; [|done]]]].
  - unfold Encryption. rewrite Hc. fold pd. rewrite (Hcb _ out pd) by done. cbn [mbind gores_bind]. by rewrite Hlo.
  - unfold Decryption. rewrite Hc, (Hcb _ pd out). { cbn [mbind gores_bind]. subst pd. by rewrite unpadding_padding. } { done. } { by rewrite Hlo. }
Qed.

(** Decryption undoes encryption: for a key of 16 bytes and any data, directly and through
    base64. *)
Theorem Decryption_Encryption desKey spare data : length desKey = 16%nat → Forall is_byte desKey → Forall is_byte data →
  (∃ out after after', Encryption desKey spare data = Ret (out, after) ∧ Decryption desKey out = Ret (Some data, after')) ∧
  (∃ out after, Encryption2 desKey spare data = Ret (out, after) ∧ Decryption2 desKey out = Ret (Some data)).
Proof.
  intros Hl Hb Hd. destruct (Encryption_decrypts desKey spare data Hl Hb Hd) as (out & after & He & Hob & _ & Hdec & _). split.
  - by exists out, after, (padding data BlockSize).
  - exists (b64Encode out), after. unfold Encryption2, Decryption2. rewrite He, b64Decode_b64Encode by done. cbn [mbind gores_bind negb fst snd].
    by rewrite Hdec.
Qed.

(** With room behind the data for the padding, the plaintext of the caller becomes the
    ciphertext. *)
Lemma Encryption_overwrites desKey spare data : length desKey = 16%nat → Forall is_byte desKey → Forall is_byte data → (16 ≤ spare)%nat →
  ∃ out, Encryption desKey spare data = Ret (out, take (length data) out).
Proof.
  intros Hl Hb Hd Hs. destruct (Encryption_decrypts desKey spare data Hl Hb Hd) as (out & after & He & _ & Hlen & _ & ->). exists out. rewrite He.
  by rewrite (proj2 (Nat.leb_le (length out - length data) spare)) by lia.
Qed.

(** ** Data that was not encrypted with the key *)

(** Data that is not whole blocks stops the program. *)
Lemma Decryption_crash desKey data : length desKey = 16%nat → Forall is_byte desKey → (length data mod 16 ≠ 0)%nat →
  Decryption desKey data = Crash.
Proof.
  intros Hl Hb Hd. destruct (NewCipher_16 desKey Hl Hb) as [c Hc]. unfold Decryption. rewrite Hc. unfold CryptBlocks. rewrite Hl.
  cbn [Nat.eqb BlockSize negb]. destruct (Nat.eqb_spec (length data mod BlockSize) 0); [done|]. reflexivity.
Qed.

(** Whole blocks whose padding is wrong are an empty result without an error, also the empty
    data. *)
Lemma Decryption_silent desKey data out : Decryption desKey data = Ret (None, out) ↔
  ∃ c, NewCipher desKey = Ret c ∧ CryptBlocks (cbcDecrypt c) desKey data = Ret out ∧ unpadding out = None.
Proof.
  unfold Decryption. destruct (NewCipher desKey) as [c| |]; [|split; [done|by intros (? & ? & _)]..]. split.
  - destruct (CryptBlocks _ _ _) as [o| |] eqn:Ho; [|done..]. cbn [mbind gores_bind]. intros [= ? <-]. eauto.
  - intros (? & [= <-] & -> & Hu). cbn [mbind gores_bind]. by rewrite Hu.
Qed.

(** ** Backup *)

Section BackupCorrect.
  Context {C : Curve} (smul : Z → Z * Z) {L : CurveLaws C smul}.

Lemma encryptFor_decrypts rand fuel prv piece sec : keyPair smul prv → privD prv ≠ 0 →
  encryptFor rand fuel (FromECDSAPub (privPub prv)) piece = Some (Ret sec) → Sm2.Decrypt prv sec = Ret (piece, true).
Proof.
  intros Hk H0. unfold encryptFor. rewrite (key_encoding smul) by done. destruct piece as [|x piece]; [by intros [= <-]|]. intros HE.
  by eapply Encrypt_decrypts in HE.
Qed.

Definition decryptPiece (ks : PrivateKey * bytes) : gores (bytes * bool) := Sm2.Decrypt ks.1 ks.2.

Lemma encryptPieces_decrypts reads fuel keys pieces secs i : Forall (keyPair smul) keys → Forall (fun k => privD k ≠ 0) keys →
  length pieces = length keys →
  encryptPieces reads fuel i ((fun k => FromECDSAPub (privPub k)) <$> keys) pieces = Some (Ret secs) →
  decryptPiece <$> zip keys secs = (fun p => Ret (p, true)) <$> pieces.
Proof.
  intros HK. revert pieces secs i. induction HK as [|k keys Hk HK IH]; intros [|p pieces] secs i H0 Hl; try done; [].
  cbn [fmap list_fmap encryptPieces]. inversion H0; subst. destruct (encryptFor _ _ _ _) as [[sec| |]|] eqn:He; [|done..].
  destruct (encryptPieces _ _ _ _ _) as [[s| |]|] eqn:Hs; [|done..]. intros [= <-]. cbn [zip zip_with fmap list_fmap]. f_equal.
  - by eapply encryptFor_decrypts in He.
  - eapply IH; [done|cbn in Hl; lia|exact Hs].
Qed.

Lemma submseteq_fmap_inv {A B} (f : A → B) l k : l ⊆+ f <$> k → ∃ l', l = f <$> l' ∧ l' ⊆+ k.
Proof.
  intros [r Hr]%submseteq_Permutation. symmetry in Hr. apply Permutation_map_inv in Hr as (k' & E & Hp).
  symmetry in E. apply fmap_app_inv in E as (l1 & l2 & -> & -> & ->). exists l1. split; [done|]. rewrite Hp. apply submseteq_inserts_r. done.
Qed.

Section Shares.
  Context (randRead : nat → nat → option bytes) (xCoordinates : list Z).
  Hypothesis rand_fills : ∀ k n r, randRead k n = Some r → length r = n ∧ Forall is_byte r.
  Hypothesis perm_255 : xCoordinates ≡ₚ Z.of_nat <$> seq 0 255.

End Shares.
End BackupCorrect.

(** ** Instances *)

Definition exKey : bytes := bytes_of_string "0123456789abcdef".

Lemma Decryption_Encryption_witness : length exKey = 16%nat ∧
  ∃ out after, Encryption2 exKey 0 [1; 2; 3] = Ret (out, after) ∧ Decryption2 exKey out = Ret (Some [1; 2; 3]).
Proof.
  split; [vm_compute; reflexivity|]. apply (Decryption_Encryption exKey 0 [1; 2; 3]); [vm_compute; reflexivity|..];
    (apply (bool_decide_unpack _); vm_compute; exact I).
Defined.

Import Sm2.Toy.

Definition exHolders : list PrivateKey := [keyOf 7; keyOf 9; keyOf 11].

Definition exBackup : list bytes :=
  match TSS_backup exRand exPerm (fun _ => reads) 1 [83; 101] ((fun k => FromECDSAPub (privPub k)) <$> exHolders) 2 with
  | Some (Ret secs) => secs
  | _ => []
  end.

