(* ===== verification/PeerRun.v ===== *)
(** * The life of a connection

    [src/p2p/peer.go] and [src/p2p/peer_error.go]: [run] of a peer with its goroutines, the
    read loop, the ping loop, one goroutine for each protocol, the answers to pings, and
    the calls the protocols make from goroutines of their own ([WriteMsg] and [ReadMsg] of
    a protocol, [Disconnect]).  The model is a machine of threads: [threads] holds the
    point each goroutine has reached, [main] the point of [run], and [exec] performs one
    step; a step is one channel operation, one return of the transport or of a protocol,
    or the start of a call.  Which case of a [select] is taken, what the transport returns and
    what the protocols do is the choice of the environment.

    [writeStart], [writeErr] and [readErr] are channels with one place, [protoErr] has one
    place for each protocol and one for the ping loop, [disc] and the channels [in] of the
    protocols have none.  Messages read are buffers in memory, so that [Discard] of a
    message does not fail.

    Properties: under every interleaving no channel is closed twice, the wait group counts
    the goroutines, at most one protocol writes at a time and no goroutine ever waits
    to report an error ([run_safe]); [run] returns after all goroutines ended, and
    while it waits for them only the transport and the protocols can keep it waiting
    ([run_progress]); a moving node whose protocol has returned blocks the read
    loop for ever ([moving_node_stuck]). *)

From stdpp Require Import base gmap list strings.
From Stdlib Require Import ZArith Lia.
From S2P Require Import Prelude Common Subprotocols.
Local Open Scope Z_scope.
Local Open Scope go_scope.

(** ** Errors *)

Definition errInvalidMsgCode : Z := 0.
Definition errInvalidMsg : Z := 1.

Definition errorToString (code : Z) : option string :=
  if code =? errInvalidMsgCode then Some "invalid message code"
  else if code =? errInvalidMsg then Some "invalid message" else None.

(** An error is a reason to disconnect, an error of this package or any other. *)
Inductive perr :=
| EDisc (reason : Z)
| EPeer (code : Z) (message : string)
| EOther (message : string).

Definition newPeerError (code : Z) (message : string) : gores perr :=
  match errorToString code with
  | None => Crash
  | Some desc => Ret (EPeer code (if bool_decide (message = "") then desc else desc +:+ ": " +:+ message))
  end.

Definition DiscRequested : Z := 0.
Definition DiscNetworkError : Z := 1.
Definition DiscProtocolError : Z := 2.
Definition DiscSubprotocolError : Z := 16.

Definition discReasonToString : list string :=
  ["Disconnect requested"; "Network error"; "Breach of protocol"; "Useless peer"; "Too many peers"; "Already connected";
   "Incompatible P2P protocol version"; "Invalid node identity"; "Client quitting"; "Unexpected identity"; "Connected to self";
   "Read timeout"; ""; ""; ""; ""; "Subprotocol error"]%string.

(** [String] of a reason, a uint; the comparison is in int. *)
Definition reasonString (d : Z) : gores string :=
  if Z.of_nat (length discReasonToString) <? i64 d then Ret ("Unknown Reason(" +:+ Itoa d +:+ ")")
  else index discReasonToString d.

Definition discReasonForError (err : perr) : Z :=
  match err with
  | EDisc reason => reason
  | EPeer code _ => if (code =? errInvalidMsgCode) || (code =? errInvalidMsg) then DiscProtocolError else DiscSubprotocolError
  | EOther _ => DiscSubprotocolError
  end.

(** ** State *)

(** The point a goroutine has reached. *)
Inductive pc :=
| RRead (* readLoop: p.rw.ReadMsg() *)
| RHandle (name : string) (code : Z) (* handle: proto.in <- msg *)
| RErr (e : perr) (* errc <- err *)
| GWait (* pingLoop: select *)
| GWrite (* SendItems(p.rw, pingMsg) *)
| GErr (e : perr) (* p.protoErr <- err *)
| Pong (* SendItems(p.rw, pongMsg) *)
| PRun (name : string) (* proto.Run(p, proto) *)
| PErr (e : perr) (* p.protoErr <- err *)
| LDone (* p.wg.Done() *)
| WStart (code : Z) (* WriteMsg: select *)
| WWrite (code : Z) (* rw.w.WriteMsg(msg) *)
| WReport (e : option perr) (* rw.werr <- err *)
| MRead (name : string) (* ReadMsg: select *)
| DWait (reason : Z) (* Disconnect: select *)
| Ended.

(** The point [run] has reached. *)
Inductive mpc :=
| MInit (* writeStart <- struct{}{} *)
| MAdd (* p.wg.Add(len(p.running)) *)
| MStart (rest : list string) (* the loop of startProtocols *)
| MSelect
| MToken (* writeStart <- struct{}{} *)
| MClose (reason : Z) (requested : bool) (* close(p.closed) *)
| MRwClose (reason : Z) (requested : bool) (* p.rw.close(reason) *)
| MWait (reason : Z) (requested : bool) (* p.wg.Wait() *)
| MReturned (reason : Z).

Record Peer := {
  NodeType : Z;
  running : list (string * protoRW);
  main : mpc;
  threads : list pc;
  wg : Z;
  writeStart : nat;
  writeErr : list (option perr);
  readErr : list perr;
  protoErr : list perr;
  closed : bool;
  rwClosed : option Z
}.

#[export] Instance Peer_eta : Eta Peer :=
  fun s => {| NodeType := NodeType s; running := running s; main := main s; threads := threads s; wg := wg s; writeStart := writeStart s;
              writeErr := writeErr s; readErr := readErr s; protoErr := protoErr s; closed := closed s; rwClosed := rwClosed s |}.

(** [run] up to the start of the two loops. *)
Definition runStart (nodeType : Z) (protos : list (string * protoRW)) : Peer :=
  {| NodeType := nodeType; running := protos; main := MInit; threads := [RRead; GWait]; wg := 2; writeStart := 0;
     writeErr := []; readErr := []; protoErr := []; closed := false; rwClosed := None |}.

(** ** Steps *)

Inductive moved :=
| Moves (s : Peer)
| Stays
| Dies (why : string).

(** The choices of the environment: the case of a [select], the result of the transport or
    of a protocol, a partner. *)
Inductive choice :=
| Tau
| OnClosed
| OnTick
| OnWrite
| OnRead
| OnProto
| OnDisc (t : nat)
| Deliver (t : nat)
| NetMsg (code reason : Z)
| NetErr (e : perr)
| NetWrote (e : option perr)
| Returns (e : option perr).

Inductive act :=
| Main (c : choice)
| Th (t : nat) (c : choice)
| CallWrite (name : string) (code : Z)
| CallRead (name : string)
| CallDisconnect (reason : Z).

Definition goto (t : nat) (p : pc) (s : Peer) : Peer := s <| threads ::= fun l => <[t := p]> l |>.
Definition spawn (p : pc) (s : Peer) : Peer := s <| threads ::= fun l => l ++ [p] |>.

(** Send on a channel with [n] places. *)
Definition hasRoom {A} (n : nat) (ch : list A) : bool := Nat.ltb (length ch) n.

Definition execMain (c : choice) (s : Peer) : moved :=
  match main s, c with
  | MInit, Tau => if Nat.ltb (writeStart s) 1 then Moves (s <| writeStart ::= S |> <| main := MAdd |>) else Stays
  | MAdd, Tau => Moves (s <| wg := wg s + Z.of_nat (length (running s)) |> <| main := MStart (fst <$> running s) |>)
  | MStart [], Tau => Moves (s <| main := MSelect |>)
  | MStart (name :: rest), Tau => Moves (spawn (PRun name) (s <| main := MStart rest |>))
  | MSelect, OnWrite =>
      match writeErr s with
      | [] => Stays
      | e :: es =>
          let s := s <| writeErr := es |> in
          match e with
          | Some _ => Moves (s <| main := MClose DiscNetworkError false |>)
          | None => Moves (s <| main := MToken |>)
          end
      end
  | MToken, Tau => if Nat.ltb (writeStart s) 1 then Moves (s <| writeStart ::= S |> <| main := MSelect |>) else Stays
  | MSelect, OnRead =>
      match readErr s with
      | [] => Stays
      | e :: es =>
          let s := s <| readErr := es |> in
          match e with
          | EDisc r => Moves (s <| main := MClose r true |>)
          | _ => Moves (s <| main := MClose DiscNetworkError false |>)
          end
      end
  | MSelect, OnProto =>
      match protoErr s with
      | [] => Stays
      | e :: es =>
          let s := s <| protoErr := es |> in
          if negb (NodeType s =? 4) then Moves (s <| main := MClose (discReasonForError e) false |>) else Moves s
      end
  | MSelect, OnDisc t =>
      match threads s !! t with
      | Some (DWait reason) => Moves (goto t Ended (s <| main := MClose reason false |>))
      | _ => Stays
      end
  | MClose reason requested, Tau =>
      if closed s then Dies "close of closed channel" else Moves (s <| closed := true |> <| main := MRwClose reason requested |>)
  | MRwClose reason requested, Tau => Moves (s <| rwClosed := Some reason |> <| main := MWait reason requested |>)
  | MWait reason requested, Tau =>
      if wg s =? 0 then Moves (s <| main := MReturned (if requested then DiscRequested else reason) |>) else Stays
  | _, _ => Stays
  end.

(** [handle] of a message read. *)
Definition handleRead (t : nat) (code reason : Z) (s : Peer) : Peer :=
  match Subprotocols.handle (running s) code with
  | HPong => spawn Pong (goto t RRead s)
  | HDisconnect => goto t (RErr (EDisc reason)) s
  | HIgnore => goto t RRead s
  | HProto name code => goto t (RHandle name code) s
  | HError e => goto t (RErr (EOther e)) s
  end.

Definition isClosed (s : Peer) (s' : Peer) : moved := if closed s then Moves s' else Stays.

(** The transport is usable until [p.rw.close]; afterwards its calls return errors. *)
Definition transportUp (s : Peer) : bool := match rwClosed s with None => true | Some _ => false end.

Definition execThread (t : nat) (c : choice) (s : Peer) : moved :=
  match threads s !! t with
  | None => Stays
  | Some p =>
      match p, c with
      | RRead, NetMsg code reason => if transportUp s then Moves (handleRead t code reason s) else Stays
      | RRead, NetErr e => Moves (goto t (RErr e) s)
      | RHandle name code, Deliver t' =>
          match threads s !! t' with
          | Some (MRead name') => if bool_decide (name' = name) then Moves (goto t' Ended (goto t RRead s)) else Stays
          | _ => Stays
          end
      | RHandle _ _, OnClosed => isClosed s (goto t (RErr (EOther "EOF")) s)
      | RErr e, Tau => if hasRoom 1 (readErr s) then Moves (goto t LDone (s <| readErr ::= fun l => l ++ [e] |>)) else Stays
      | GWait, OnTick => Moves (goto t GWrite s)
      | GWait, OnClosed => isClosed s (goto t LDone s)
      | GWrite, NetWrote None => if transportUp s then Moves (goto t GWait s) else Stays
      | GWrite, NetWrote (Some e) => Moves (goto t (GErr e) s)
      | GErr e, Tau =>
          if hasRoom (S (length (running s))) (protoErr s) then Moves (goto t LDone (s <| protoErr ::= fun l => l ++ [e] |>)) else Stays
      | Pong, NetWrote e => if transportUp s || bool_decide (is_Some e) then Moves (goto t Ended s) else Stays
      | PRun _, Returns e => Moves (goto t (PErr (match e with None => EOther "protocol returned" | Some e => e end)) s)
      | PErr e, Tau =>
          if hasRoom (S (length (running s))) (protoErr s) then Moves (goto t LDone (s <| protoErr ::= fun l => l ++ [e] |>)) else Stays
      | LDone, Tau => if wg s - 1 <? 0 then Dies "negative WaitGroup counter" else Moves (goto t Ended (s <| wg := wg s - 1 |>))
      | WStart code, Tau =>
          match writeStart s with
          | O => Stays
          | S n => Moves (goto t (WWrite code) (s <| writeStart := n |>))
          end
      | WStart _, OnClosed => isClosed s (goto t Ended s)
      | WWrite _, NetWrote e => if transportUp s || bool_decide (is_Some e) then Moves (goto t (WReport e) s) else Stays
      | WReport e, Tau => if hasRoom 1 (writeErr s) then Moves (goto t Ended (s <| writeErr ::= fun l => l ++ [e] |>)) else Stays
      | MRead _, OnClosed => isClosed s (goto t Ended s)
      | DWait _, OnClosed => isClosed s (goto t Ended s)
      | _, _ => Stays
      end
  end.

(** One step.  A protocol may only call [WriteMsg] and [ReadMsg] once it was started. *)
Definition started (s : Peer) (name : string) : bool :=
  match main s with MInit | MAdd => false | MStart rest => bool_decide (name ∉ rest) | _ => true end.

Definition exec (a : act) (s : Peer) : moved :=
  match a with
  | Main c => execMain c s
  | Th t c => execThread t c s
  | CallWrite name code =>
      match List.find (fun p => bool_decide (p.1 = name)) (running s) with
      | Some (_, rw) =>
          if started s name then
            match WriteMsg rw code with
            | Err _ => Moves (spawn Ended s)
            | Ok code => Moves (spawn (WStart code) s)
            end
          else Stays
      | None => Stays
      end
  | CallRead name =>
      match List.find (fun p => bool_decide (p.1 = name)) (running s) with
      | Some _ => if started s name then Moves (spawn (MRead name) s) else Stays
      | None => Stays
      end
  | CallDisconnect reason => Moves (spawn (DWait reason) s)
  end.

(** The states of the peer, from [run] on. *)
Inductive runs : Peer → Prop :=
| runs_start nodeType protos : runs (runStart nodeType protos)
| runs_step s a s' : runs s → exec a s = Moves s' → runs s'.

Fixpoint execAll (l : list act) (s : Peer) : moved :=
  match l with
  | [] => Moves s
  | a :: l => match exec a s with Moves s => execAll l s | r => r end
  end.

(** ** What goroutines still owe *)

(** A call of [wg.Done], a write in progress, an error of a protocol or of the ping loop, the error
    of the read loop. *)
Definition owesDone (p : pc) : nat :=
  match p with RRead | RHandle _ _ | RErr _ | GWait | GWrite | GErr _ | PRun _ | PErr _ | LDone => 1 | _ => 0 end.
Definition writes (p : pc) : nat := match p with WWrite _ | WReport _ => 1 | _ => 0 end.
Definition owesProto (p : pc) : nat := match p with GWait | GWrite | GErr _ | PRun _ | PErr _ => 1 | _ => 0 end.
Definition owesRead (p : pc) : nat := match p with RRead | RHandle _ _ | RErr _ => 1 | _ => 0 end.

Definition total (w : pc → nat) (s : Peer) : nat := sum_list_with w (threads s).

(** What [run] itself still owes. *)
Definition mainToken (m : mpc) : nat := match m with MInit | MToken => 1 | _ => 0 end.
Definition unstarted (s : Peer) : nat :=
  match main s with MInit | MAdd => length (running s) | MStart rest => length rest | _ => 0 end.
Definition toStart (m : mpc) : nat := match m with MStart rest => length rest | _ => 0 end.
Definition inLoop (m : mpc) : bool := match m with MInit | MAdd | MStart _ | MSelect | MToken => true | _ => false end.

Definition tokens (s : Peer) : nat := writeStart s + total writes s + length (writeErr s) + mainToken (main s).

Record Inv (s : Peer) : Prop := {
  inv_token : (tokens s ≤ 1)%nat;
  inv_token_loop : inLoop (main s) = true → tokens s = 1%nat;
  inv_proto : (length (protoErr s) + total owesProto s + unstarted s ≤ S (length (running s)))%nat;
  inv_read : (length (readErr s) + total owesRead s ≤ 1)%nat;
  inv_wg : wg s = Z.of_nat (total owesDone s + toStart (main s));
  inv_closed : closed s = match main s with MRwClose _ _ | MWait _ _ | MReturned _ => true | _ => false end;
  inv_rw : is_Some (rwClosed s) ↔ match main s with MWait _ _ | MReturned _ => True | _ => False end;
  inv_returned : match main s with MReturned _ => wg s = 0 | _ => True end
}.

Lemma Inv_start nodeType protos : Inv (runStart nodeType protos).
Proof. split; unfold tokens, unstarted, total; cbn; try done; try lia. Qed.

(** A goroutine at [p] goes to [q]. *)
Ltac ledger Ht q :=
  pose proof (sum_list_with_insert writes _ _ _ q Ht); pose proof (sum_list_with_insert owesProto _ _ _ q Ht);
  pose proof (sum_list_with_insert owesRead _ _ _ q Ht); pose proof (sum_list_with_insert owesDone _ _ _ q Ht).

Ltac balance :=
  unfold tokens, unstarted, total in *; cbn in *; rewrite ?sum_list_with_app, ?length_app, ?length_fmap in *; cbn in *; intuition (lia || congruence || eauto).

Lemma Inv_main c s s' : Inv s → execMain c s = Moves s' → Inv s'.
Proof.
  intros I. destruct s as [nt rn m th g ws we re pe cl rc]. destruct I; cbn in *. unfold execMain. cbn.
  destruct m, c; cbn; try done; intros HE; repeat case_match; simplify_eq; rewrite ?Z.eqb_eq in *;
   try match goal with H : th !! ?t = Some (DWait _) |- _ => ledger H Ended end; split; balance.
Qed.

Lemma hasRoom_true {A} n (l : list A) : hasRoom n l = true → (length l < n)%nat.
Proof. apply Nat.ltb_lt. Qed.

(** A step of a goroutine keeps the accounts balanced. *)
Lemma Inv_balanced s s' : Inv s →
  (running s', main s', closed s', rwClosed s') = (running s, main s, closed s, rwClosed s) →
  (writeStart s' + total writes s' + length (writeErr s') = writeStart s + total writes s + length (writeErr s))%nat →
  (length (protoErr s') + total owesProto s' ≤ length (protoErr s) + total owesProto s)%nat →
  (length (readErr s') + total owesRead s' ≤ length (readErr s) + total owesRead s)%nat →
  wg s' - Z.of_nat (total owesDone s') = wg s - Z.of_nat (total owesDone s) → wg s' ≤ wg s → Inv s'.
Proof.
  intros [] [= E1 E2 E3 E4] Hw Hp Hr Hd Hle. unfold tokens, unstarted in *. split; rewrite ?E1, ?E2, ?E3, ?E4; unfold tokens, unstarted in *;
    rewrite ?E1, ?E2 in *; try done; try lia.
  - intros. rewrite Hw. auto.
  - destruct (main s); try done. lia.
Qed.

Lemma Inv_thread t c s s' : Inv s → execThread t c s = Moves s' → Inv s'.
Proof.
  intros I. unfold execThread. destruct (threads s !! t) as [p|] eqn:Ht; [|done]. unfold isClosed, handleRead.
  destruct p, c; try done; intros HE; repeat case_match; simplify_eq;
    (eapply Inv_balanced; [exact I|done|unfold total; cbn..]);
    try match goal with
    | Ht' : threads s !! ?t' = Some (MRead _) |- context [<[?t' := ?q']> (<[_ := ?q]> _)] =>
        ledger Ht q; rewrite <- (list_lookup_insert_ne _ t t' q) in Ht' by congruence; ledger Ht' q'
    | |- context [<[_ := ?q]> _] => ledger Ht q
    end; cbn in *; rewrite ?sum_list_with_app, ?length_app; cbn; try lia.
Qed.

Lemma Inv_exec a s s' : Inv s → exec a s = Moves s' → Inv s'.
Proof.
  intros I. destruct a as [c|t c|name code|name|reason]; cbn; [by apply Inv_main|by apply Inv_thread|..]; repeat case_match; intros HE; simplify_eq;
    (eapply Inv_balanced; [exact I|done|unfold total; cbn; rewrite ?sum_list_with_app; cbn; lia..]).
Qed.

Lemma runs_Inv s : runs s → Inv s.
Proof. induction 1 as [nt ps|s a s' _ IH HE]; [apply Inv_start|by eapply Inv_exec]. Qed.

Lemma total_lookup w s t p : threads s !! t = Some p → (w p ≤ total w s)%nat.
Proof. apply sum_list_with_lookup. Qed.

(** ** Goroutines never wait to report *)

Lemma hasRoom_lt {A} n (l : list A) : (length l < n)%nat → hasRoom n l = true.
Proof. apply Nat.ltb_lt. Qed.

(** A goroutine about to send on one of the buffered channels, or to leave the wait group. *)
Definition reports (p : pc) : bool := match p with RErr _ | GErr _ | PErr _ | WReport _ | LDone => true | _ => false end.

Lemma reports_moves s t p : Inv s → threads s !! t = Some p → reports p = true → ∃ s', exec (Th t Tau) s = Moves s'.
Proof.
  intros I Ht Hp. destruct I as [Htok _ Hpr Hrd Hwg _ _ _]. unfold tokens in Htok. cbn. unfold execThread. rewrite Ht.
  pose proof (total_lookup owesProto _ _ _ Ht). pose proof (total_lookup owesRead _ _ _ Ht).
  pose proof (total_lookup writes _ _ _ Ht). pose proof (total_lookup owesDone _ _ _ Ht).
  destruct p; try done; cbn [owesProto owesRead writes owesDone] in *; try (rewrite hasRoom_lt by lia; eauto). destruct (Z.ltb_spec (wg s - 1) 0); [lia|eauto].
Qed.

Lemma token_moves s : Inv s → mainToken (main s) = 1%nat → ∃ s', exec (Main Tau) s = Moves s'.
Proof.
  intros I Hm. pose proof (inv_token _ I) as Ht. unfold tokens in Ht. cbn. unfold execMain.
  destruct (main s); try done; cbn in Ht; (replace (writeStart s) with 0%nat by lia); cbn; eauto.
Qed.

Lemma exec_alive s a why : Inv s → exec a s ≠ Dies why.
Proof.
  intros I. destruct a as [c|t c|name code|name|reason]; cbn; [| |by repeat case_match..].
  - unfold execMain. pose proof (inv_closed _ I) as Hc. destruct (main s), c; cbn; repeat case_match; try done; try congruence.
  - unfold execThread, isClosed. destruct (threads s !! t) as [p|] eqn:Ht; [|done]. pose proof (inv_wg _ I). pose proof (total_lookup owesDone _ _ _ Ht).
    destruct p, c; repeat case_match; try done. cbn in *. rewrite Z.ltb_lt in *. lia.
Qed.

(** Under every interleaving of the goroutines of a peer: no channel is closed twice and
    the wait group does not underflow; at most one protocol is between receiving the token of
    [writeStart] and reporting its write; a goroutine that reports, and [run] when
    it hands on the token, finds room in the channel; when [run] has returned, every
    goroutine of the wait group has ended. *)
Theorem run_safe s : runs s →
  (∀ a why, exec a s ≠ Dies why) ∧
  (total writes s ≤ 1)%nat ∧
  (∀ t p, threads s !! t = Some p → reports p = true → ∃ s', exec (Th t Tau) s = Moves s') ∧
  (mainToken (main s) = 1%nat → ∃ s', exec (Main Tau) s = Moves s') ∧
  (∀ reason, main s = MReturned reason → Forall (fun p => owesDone p = 0%nat) (threads s)).
Proof.
  intros I%runs_Inv. split_and!.
  - intros a why. by apply exec_alive.
  - pose proof (inv_token _ I). unfold tokens in *. lia.
  - intros t p. by apply reports_moves.
  - by apply token_moves.
  - intros reason Hm. apply Forall_lookup_2. intros t p Ht. pose proof (inv_returned _ I) as H0. rewrite Hm in H0.
    pose proof (inv_wg _ I) as Hw. rewrite Hm in Hw. pose proof (total_lookup owesDone _ _ _ Ht). cbn in Hw. lia.
Qed.

(** ** Progress *)

(** Steps that need neither the transport nor a protocol nor the clock. *)
Definition internal (c : choice) : bool :=
  match c with Tau | OnClosed | OnWrite | OnRead | OnProto | OnDisc _ | Deliver _ => true | _ => false end.

Definition stuck (s : Peer) : Prop :=
  ∀ c, internal c = true → execMain c s = Stays ∧ ∀ t, execThread t c s = Stays.

(** Goroutines in the transport or in the code of a protocol. *)
Definition outside (p : pc) : bool := match p with RRead | GWrite | Pong | PRun _ | WWrite _ | Ended => true | _ => false end.

Lemma stuck_main s : Inv s → stuck s →
  main s = MSelect ∨ (∃ reason requested, main s = MWait reason requested ∧ wg s ≠ 0) ∨ ∃ reason, main s = MReturned reason.
Proof.
  intros I Hs. destruct (Hs Tau eq_refl) as [Hm _]. pose proof (exec_alive s (Main Tau)) as Hd. cbn in Hd.
  assert (Htok := token_moves s I). cbn in Htok. unfold execMain in *. pose proof (inv_closed _ I) as Hc.
  destruct (main s) as [| |[|]| | | | |r q|r]; try done; cbn in *; try (by destruct Htok as [? Hx]; [done|rewrite Hm in Hx]); eauto.
  - by rewrite Hc in Hm.
  - right. left. exists r, q. split; [done|]. intros H0. by rewrite H0 in Hm.
Qed.

(** Somebody is writing when a writer waits. *)
Lemma waiting_writer s t code : Inv s → stuck s → main s = MSelect → threads s !! t = Some (WStart code) → ∃ t' code', threads s !! t' = Some (WWrite code').
Proof.
  intros I Hs Hm Ht. pose proof (inv_token_loop _ I) as Htok. unfold tokens in Htok. rewrite Hm in Htok. specialize (Htok eq_refl). cbn in Htok.
  assert (H0 : writeStart s = 0%nat).
  { destruct (Hs Tau eq_refl) as [_ Hy]. specialize (Hy t). unfold execThread in Hy. rewrite Ht in Hy. by destruct (writeStart s). }
  assert (H1 : writeErr s = []).
  { destruct (Hs OnWrite eq_refl) as [Hy _]. unfold execMain in Hy. rewrite Hm in Hy. by destruct (writeErr s) as [|[]]. }
  rewrite H0, H1 in Htok. cbn in Htok. destruct (sum_list_with_pos writes (threads s)) as (t' & p & Hp & Hw); [unfold total in Htok; lia|].
  destruct p as [| | | | | | | | | | |code'|e| | |]; cbn in Hw; try lia; [by exists t', code'|].
  destruct (reports_moves s t' _ I Hp eq_refl) as [s' Hx]. cbn in Hx. destruct (Hs Tau eq_refl) as [_ Hy]. by rewrite Hy in Hx.
Qed.

(** Where a goroutine can be that does not move. *)
Lemma stuck_thread s t p : Inv s → stuck s → threads s !! t = Some p → outside p = true ∨ (main s = MSelect ∧
    match p with
    | GWait => True
    | RHandle name _ => ∀ t', threads s !! t' ≠ Some (MRead name)
    | MRead name => ∀ t' code, threads s !! t' ≠ Some (RHandle name code)
    | WStart _ => ∃ t' code, threads s !! t' = Some (WWrite code)
    | _ => False
    end).
Proof.
  intros I Hs Ht. destruct (outside p) eqn:Ho; [by left|]. right.
  assert (Hr : reports p = false).
  { destruct (reports p) eqn:Hr; [|done]. destruct (reports_moves s t p I Ht Hr) as [s' Hx]. cbn in Hx. destruct (Hs Tau eq_refl) as [_ Hy]. by rewrite Hy in Hx. }
  assert (Hc : closed s = false).
  { destruct (Hs OnClosed eq_refl) as [_ Hy]. specialize (Hy t). unfold execThread, isClosed in Hy. rewrite Ht in Hy. by destruct p, (closed s). }
  assert (Hm : main s = MSelect).
  { pose proof (inv_closed _ I) as Hcl. destruct (stuck_main s I Hs) as [?|[(r & q & Hm & _)|[r Hm]]]; [done| |]; rewrite Hm in Hcl; congruence. }
  split; [done|]. destruct p as [|name code| | | | | | | | |code| | |name|reason|]; try done.
  - intros t' Ht'. destruct (Hs (Deliver t') eq_refl) as [_ Hy]. specialize (Hy t). unfold execThread in Hy. rewrite Ht, Ht' in Hy. by rewrite bool_decide_true in Hy.
  - by eapply waiting_writer.
  - intros t' code Ht'. destruct (Hs (Deliver t) eq_refl) as [_ Hy]. specialize (Hy t'). unfold execThread in Hy. rewrite Ht', Ht in Hy. by rewrite bool_decide_true in Hy.
  - destruct (Hs (OnDisc t) eq_refl) as [Hy _]. unfold execMain in Hy. by rewrite Hm, Ht in Hy.
Qed.

(** C19. When nothing can move without the outside world, [run] waits in its [select], waits for the
    goroutines, of which some is still in the transport or in its protocol, or has
    returned; and every goroutine that is not in the transport or in a protocol waits, with
    [run] in its [select], for a tick, for the protocol to read the message at hand, for
    a message, or for the write of another protocol to return.  So closing a
    connection never hangs on a channel. *)
Theorem run_progress s : runs s → stuck s →
  (main s = MSelect ∨ (∃ reason, main s = MReturned reason) ∨
   ∃ reason requested t p, main s = MWait reason requested ∧ threads s !! t = Some p ∧ owesDone p = 1%nat ∧ outside p = true) ∧
  ∀ t p, threads s !! t = Some p → outside p = true ∨ (main s = MSelect ∧
    match p with
    | GWait => True
    | RHandle name _ => ∀ t', threads s !! t' ≠ Some (MRead name)
    | MRead name => ∀ t' code, threads s !! t' ≠ Some (RHandle name code)
    | WStart _ => ∃ t' code, threads s !! t' = Some (WWrite code)
    | _ => False
    end).
Proof.
  intros I%runs_Inv Hs. assert (Hm := stuck_main s I Hs).
  assert (Hthr := fun t p => stuck_thread s t p I Hs). split; [|exact Hthr].
  destruct Hm as [?|[(r & q & Hm & Hw)|?]]; [by left| |by right; left]. right. right.
  rewrite (inv_wg _ I), Hm in Hw. cbn in Hw. destruct (sum_list_with_pos owesDone (threads s)) as (t & p & Ht & Hp); [unfold total in Hw; lia|].
  exists r, q, t, p. split; [done|]. split; [done|]. destruct (Hthr t p Ht) as [Ho|[? _]]; [|congruence]. split; [by destruct p; cbn in *; lia|done].
Qed.

(** ** Reasons *)

(** The text of a reason panics for the first number behind the table, which the comparison
    lets through, and for numbers that are negative as int. *)
Lemma reasonString_crash d : is_u64 d → reasonString d = Crash ↔ d = 17 ∨ 2 ^ 63 ≤ d.
Proof.
  intros Hd. unfold reasonString, index, i64. rewrite u64_small by done. unfold is_u64, two64, two63 in *. change (length discReasonToString) with 17%nat.
  destruct (Z.ltb_spec d 0); [lia|]. destruct (Z.ltb_spec d 9223372036854775808).
  - destruct (Z.ltb_spec (Z.of_nat 17) d); [split; [done|lia]|].
    destruct (decide (d = 17)) as [->|]; [split; [lia|done]|]. destruct (lookup_lt_is_Some_2 discReasonToString (Z.to_nat d)) as [x Hx]; [cbn; lia|].
    rewrite Hx. split; [done|lia].
  - rewrite (proj2 (Z.ltb_ge _ _)) by lia. rewrite lookup_ge_None_2 by (cbn; lia). split; [lia|done].
Qed.

(** ** Moving nodes *)

(** A connection with a moving node (type 4) whose protocol has returned: the read loop holds a
    message of the protocol. *)
Definition abandoned (s : Peer) (name : string) (code : Z) : Prop :=
  NodeType s = 4 ∧ main s = MSelect ∧ threads s !! 0%nat = Some (RHandle name code) ∧ closed s = false ∧ readErr s = [] ∧ writeErr s = [] ∧
  Forall (fun p => match p with MRead _ | DWait _ | WStart _ | WWrite _ | WReport _ | RErr _ => False | RRead => False | _ => True end) (threads s).

Definition isCall (a : act) : bool := match a with CallWrite _ _ | CallRead _ | CallDisconnect _ => true | _ => false end.

Lemma abandoned_step s name code a s' : abandoned s name code → isCall a = false → exec a s = Moves s' → abandoned s' name code.
Proof.
  intros (H4 & Hm & H0 & Hc & Hr & Hw & HF) Ha HE. destruct a as [c|t c|? ?|?|?]; try done; cbn in HE.
  - unfold execMain in HE. rewrite Hm in HE. destruct c as [| | | | | |t| | | | |]; try done.
    + by rewrite Hw in HE.
    + by rewrite Hr in HE.
    + destruct (protoErr s); [done|]. cbn in HE. rewrite H4 in HE. injection HE as <-. done.
    + destruct (threads s !! t) as [p|] eqn:Ht; [|done]. pose proof (Forall_lookup_1 _ _ _ _ HF Ht). by destruct p.
  - unfold execThread, isClosed in HE. destruct (threads s !! t) as [p|] eqn:Ht; [|done]. pose proof (Forall_lookup_1 _ _ _ _ HF Ht) as Hp.
    assert (Hno : ∀ t' n, threads s !! t' ≠ Some (MRead n)) by (intros t' n Ht'; exact (Forall_lookup_1 _ _ _ _ HF Ht')).
    rewrite Hc in HE. destruct t as [|t].
    { rewrite H0 in Ht. injection Ht as <-. destruct c; try done. repeat case_match; try done. by edestruct Hno. }
    destruct p, c; try done; repeat case_match; simplify_eq; try (by edestruct Hno); 
      (split_and!; try done; [by unfold goto; cbn; rewrite list_lookup_insert_ne|apply Forall_insert; [done|by cbn]]).
Qed.

(** It stays like that, whatever the clock, the transport and the other goroutines do: until a
    protocol, which has returned, or the node itself calls it, nothing reads from the
    connection and nothing closes it. *)
Lemma moving_node_stuck l s name code : abandoned s name code → Forall (fun a => isCall a = false) l →
  ∀ s', execAll l s = Moves s' → main s' = MSelect ∧ threads s' !! 0%nat = Some (RHandle name code).
Proof.
  intros HA HF. revert s HA. induction HF as [|a l Ha HF IH]; intros s HA s'; cbn.
  - intros [= <-]. by destruct HA as (_ & ? & ? & _).
  - destruct (exec a s) as [s1| |] eqn:HE; [|done..]. apply IH. by eapply abandoned_step.
Qed.

(** ** Instances *)

Definition ethRW : string * protoRW := ("eth"%string, {| rwProto := {| pName := "eth"; pVersion := 63; pLength := 8 |}; rwOffset := 17 |}).

Definition after (l : list act) (s : Peer) : Peer := match execAll l s with Moves s => s | _ => s end.

Lemma runs_execAll l s s' : runs s → execAll l s = Moves s' → runs s'.
Proof.
  revert s. induction l as [|a l IH]; intros s HR; cbn; [by intros [= <-]|]. destruct (exec a s) as [s1| |] eqn:HE; [|done..].
  apply IH. by eapply runs_step.
Qed.

Definition exStart : list act := replicate 4 (Main Tau).

(** Two protocols' writes, the second waiting for the first. *)
Definition exWrites : list act := exStart ++ [CallWrite "eth" 1; CallWrite "eth" 2; Th 3 Tau].
Definition exWriting : Peer := after exWrites (runStart 1 [ethRW]).

Lemma run_safe_witness : threads exWriting = [RRead; GWait; PRun "eth"; WWrite 18; WStart 19] ∧ (total writes exWriting ≤ 1)%nat.
Proof.
  split; [vm_compute; reflexivity|]. apply (run_safe exWriting). apply (runs_execAll exWrites (runStart 1 [ethRW])); [constructor|vm_compute; reflexivity].
Defined.

(** The protocol of a moving node returns; then a message for it arrives. *)
Definition exReturns : list act := exStart ++ [Th 2 (Returns None); Th 2 Tau; Th 2 Tau; Main OnProto; Th 0 (NetMsg 17 0)].
Definition exMoving : Peer := after exReturns (runStart 4 [ethRW]).

Lemma exMoving_abandoned : abandoned exMoving "eth" 0.
Proof. unfold abandoned. split_and!; try (vm_compute; reflexivity). vm_compute. repeat constructor. Qed.

Lemma exMoving_stuck : stuck exMoving.
Proof.
  intros c Hc. split; [by destruct c as [| | | | | |[|[|[|]]]| | | | |]|]. intros [|[|[|t]]]; destruct c as [| | | | | | |[|[|[|]]]| | | |]; done.
Qed.

Lemma run_progress_witness : main exMoving = MSelect ∧ ∀ t', threads exMoving !! t' ≠ Some (MRead "eth").
Proof.
  split; [vm_compute; reflexivity|].
  assert (HR : runs exMoving) by (apply (runs_execAll exReturns (runStart 4 [ethRW])); [constructor|vm_compute; reflexivity]).
  destruct (run_progress exMoving HR exMoving_stuck) as [_ H]. destruct (H 0%nat (RHandle "eth" 0)) as [?|[_ Hn]]; [vm_compute; reflexivity|done|exact Hn].
Defined.
