(* ===== verification/EthHandle.v ===== *)
(** * The message loop of the eth protocol

    [src/eth/handler.go]: [handle] reads the messages of a peer one by one and starts a goroutine
    for each ([handleMsg], whose goroutines are modelled in [Protocol]).  A goroutine
    reports its error on the unbuffered channel [resChan] ([sendHandleMsgRes]); a
    collector goroutine receives the first one into the variable [Err], which the loop
    looks at between two messages; when the loop ends it cancels the context and
    starts [closeChan], which takes the reports of the goroutines that wait and closes the
    channel.  The model is a machine of threads with one step for each channel operation.
    What a message makes [handleMsg] and its goroutine return is the choice of the environment.

    Properties: [resChan] is closed once, a report on the closed channel panics inside
    [sendHandleMsgRes], which recovers, and what [handle] returns is an error some
    message gave ([handle_safe]); after [handle] has returned no report keeps
    waiting and every goroutine of the loop ends ([handle_no_leak]); but an error found by a
    goroutine only ends the loop when one more message arrives ([handle_late]), and
    the reports of further errors wait until then. *)

From stdpp Require Import base sets list strings.
From Stdlib Require Import ZArith Lia.
From S2P Require Import Prelude.
Local Open Scope go_scope.

Inductive hpc :=
| Body (* the goroutine of handleMsg *)
| SSelect (e : string) (* sendHandleMsgRes: select *)
| SSend (e : string) (* resChan <- err *)
| Collect (* the goroutine of handle: select *)
| Drain (* closeChan: select *)
| HEnded.

(** The point [handle] has reached; where it fails on the error of [handleMsg], that
    error is kept, where it fails on [Err], the variable is read again at the end. *)
Inductive hmain :=
| HLoop (* if Err != nil *)
| HRead (* pm.handleMsg *)
| HCancel (err : option string) (* cancel() *)
| HClose (err : option string) (* go closeChan(resChan) *)
| HReturn (err : option string)
| HReturned (err : option string).

Record hstate := {
  hMain : hmain;
  hThreads : list hpc;
  Err_ : option string;
  cancelled : bool;
  resClosed : bool;
  hRecovered : nat;
  hFound : list string
}.

#[export] Instance hstate_eta : Eta hstate :=
  fun s => {| hMain := hMain s; hThreads := hThreads s; Err_ := Err_ s; cancelled := cancelled s; resClosed := resClosed s;
              hRecovered := hRecovered s; hFound := hFound s |}.

Definition handleStart : hstate :=
  {| hMain := HLoop; hThreads := [Collect]; Err_ := None; cancelled := false; resClosed := false; hRecovered := 0; hFound := [] |}.

Inductive hmoved :=
| HMoves (s : hstate)
| HStays
| HDies (why : string).

Inductive hchoice :=
| HTau
| HMsg (* a message for which a goroutine is started *)
| HFails (e : string) (* handleMsg returns an error *)
| BodyReturns (e : option string)
| OnCtx
| OnTimer
| OnReport (t : nat)
| OnResClosed
| OnDefault.

Inductive hact :=
| HMain (c : hchoice)
| HTh (t : nat) (c : hchoice).

Definition hgoto (t : nat) (p : hpc) (s : hstate) : hstate := s <| hThreads ::= fun l => <[t := p]> l |>.
Definition hspawn (p : hpc) (s : hstate) : hstate := s <| hThreads ::= fun l => l ++ [p] |>.

Definition hexecMain (c : hchoice) (s : hstate) : hmoved :=
  match hMain s, c with
  | HLoop, HTau => match Err_ s with Some _ => HMoves (s <| hMain := HCancel None |>) | None => HMoves (s <| hMain := HRead |>) end
  | HRead, HMsg => HMoves (hspawn Body (s <| hMain := HLoop |>))
  | HRead, HFails e => HMoves (s <| hMain := HCancel (Some e) |> <| hFound ::= fun l => e :: l |>)
  | HCancel r, HTau => HMoves (s <| cancelled := true |> <| hMain := HClose r |>)
  | HClose r, HTau => HMoves (hspawn Drain (s <| hMain := HReturn r |>))
  | HReturn r, HTau => HMoves (s <| hMain := HReturned (match r with None => Err_ s | Some e => Some e end) |>)
  | _, _ => HStays
  end.

Definition isSend (p : hpc) : bool := match p with SSend _ => true | _ => false end.

Definition hexecThread (t : nat) (c : hchoice) (s : hstate) : hmoved :=
  match hThreads s !! t with
  | None => HStays
  | Some p =>
      match p, c with
      | Body, BodyReturns None => HMoves (hgoto t HEnded s)
      | Body, BodyReturns (Some e) => HMoves (hgoto t (SSelect e) (s <| hFound ::= fun l => e :: l |>))
      | SSelect _, OnCtx => if cancelled s then HMoves (hgoto t HEnded s) else HStays
      | SSelect e, OnTimer => HMoves (hgoto t (SSend e) s)
      | SSend _, HTau => if resClosed s then HMoves (hgoto t HEnded (s <| hRecovered ::= S |>)) else HStays
      | Collect, OnReport t' =>
          match hThreads s !! t' with
          | Some (SSend e) => if resClosed s then HStays else HMoves (hgoto t HEnded (hgoto t' HEnded (s <| Err_ := Some e |>)))
          | _ => HStays
          end
      | Collect, OnResClosed => if resClosed s then HMoves (hgoto t HEnded (s <| Err_ := None |>)) else HStays
      | Collect, OnCtx => if cancelled s then HMoves (hgoto t HEnded s) else HStays
      | Drain, OnReport t' =>
          match hThreads s !! t' with
          | Some (SSend _) => if resClosed s then HStays else HMoves (hgoto t' HEnded s)
          | _ => HStays
          end
      | Drain, OnDefault =>
          if resClosed s then HDies "close of closed channel"
          else if existsb isSend (hThreads s) then HStays
          else HMoves (hgoto t HEnded (s <| resClosed := true |>))
      | _, _ => HStays
      end
  end.

Definition hexec (a : hact) (s : hstate) : hmoved :=
  match a with HMain c => hexecMain c s | HTh t c => hexecThread t c s end.

Inductive handles : hstate → Prop :=
| handles_start : handles handleStart
| handles_step s a s' : handles s → hexec a s = HMoves s' → handles s'.

Fixpoint hexecAll (l : list hact) (s : hstate) : hmoved :=
  match l with
  | [] => HMoves s
  | a :: l => match hexec a s with HMoves s => hexecAll l s | r => r end
  end.

(** ** Invariant *)

Definition isCollect (p : hpc) : nat := match p with Collect => 1 | _ => 0 end.
Definition isDrain (p : hpc) : nat := match p with Drain => 1 | _ => 0 end.
Definition htotal (w : hpc → nat) (s : hstate) : nat := sum_list_with w (hThreads s).

(** Before the context is cancelled; before [closeChan] is started. *)
Definition beforeCancel (m : hmain) : bool := match m with HLoop | HRead | HCancel _ => true | _ => false end.
Definition beforeClose (m : hmain) : bool := match m with HLoop | HRead | HCancel _ | HClose _ => true | _ => false end.

(** The error a point of the loop has in hand. *)
Definition inHand (s : hstate) : Prop :=
  match hMain s with
  | HLoop | HRead => True
  | HCancel r | HClose r | HReturn r =>
      match r with Some e => e ∈ hFound s | None => (∃ e, Err_ s = Some e) ∧ htotal isCollect s = 0%nat end
  | HReturned r => ∃ e, r = Some e ∧ e ∈ hFound s
  end.

Definition carried (found : list string) (p : hpc) : Prop := match p with SSelect e | SSend e => e ∈ found | _ => True end.

Record HInv (s : hstate) : Prop := {
  hinv_drain : (htotal isDrain s + (if resClosed s then 1 else 0) = if beforeClose (hMain s) then 0 else 1)%nat;
  hinv_collect : (htotal isCollect s ≤ 1)%nat;
  hinv_pending : htotal isCollect s = 1%nat → Err_ s = None;
  hinv_cancelled : cancelled s = negb (beforeCancel (hMain s));
  hinv_inHand : inHand s;
  hinv_err : ∀ e, Err_ s = Some e → e ∈ hFound s;
  hinv_carried : Forall (carried (hFound s)) (hThreads s)
}.

Lemma HInv_start : HInv handleStart.
Proof. split; unfold htotal; cbn; try done; try lia. repeat constructor. Qed.

Lemma carried_mono l p e : carried l p → carried (e :: l) p.
Proof. destruct p; cbn; [done|set_solver..|done|done|done]. Qed.

Lemma HInv_main c s s' : HInv s → hexecMain c s = HMoves s' → HInv s'.
Proof.
  intros [Hd Hc Hp Hca Hi He Hf]. unfold hexecMain. destruct (hMain s) eqn:Hm, c; cbn; try done; intros HE; repeat case_match; simplify_eq;
    unfold inHand, htotal in *; cbn in *; rewrite ?Hm in *; split; unfold inHand, htotal; cbn in *;
    rewrite ?sum_list_with_app, ?Forall_app; cbn; rewrite ?Nat.add_0_r; try done; try lia; eauto.
  - split; [by eexists|]. destruct (decide (sum_list_with isCollect (hThreads s) = 1)) as [Hx|]; [by specialize (Hp Hx)|lia].
  - by left.
  - intros e0 Hx. right. by apply He.
  - eapply Forall_impl; [exact Hf|]. intros p. apply carried_mono.
  - split; [done|]. repeat constructor.
  - destruct Hi as [[e Hx] _]. eauto.
  - destruct Hi as [[e Hx] _]. eauto.
Qed.

Ltac hledger Ht q :=
  pose proof (sum_list_with_insert isCollect _ _ _ q Ht); pose proof (sum_list_with_insert isDrain _ _ _ q Ht).

(** A step of a goroutine, by what it does to the counts, to [Err] and to the errors found. *)
Lemma HInv_balanced s s' : HInv s → (hMain s', cancelled s') = (hMain s, cancelled s) →
  (htotal isDrain s' + (if resClosed s' then 1 else 0) = htotal isDrain s + (if resClosed s then 1 else 0))%nat →
  ((htotal isCollect s' = htotal isCollect s ∧ Err_ s' = Err_ s) ∨ (htotal isCollect s' < htotal isCollect s)%nat) →
  (∀ e, Err_ s' = Some e → e ∈ hFound s') → Forall (carried (hFound s')) (hThreads s') → hFound s ⊆ hFound s' → HInv s'.
Proof.
  intros [Hd Hc Hp Hca Hi He Hf] [= E1 E2] HD HC HE HF Hsub. split; rewrite ?E1, ?E2; try done; try lia.
  - intros H1. destruct HC as [[HC ->]|?]; [|lia]. apply Hp. lia.
  - unfold inHand in *. rewrite E1. destruct (hMain s) as [| |[e|]|[e|]|[e|]|r]; try done; try (by apply Hsub);
      try (destruct Hi as [[e Hx] H0]; destruct HC as [[HC HE']|?]; [|lia]; rewrite HE'; split; [by eexists|lia]).
    destruct Hi as (e & -> & Hx). exists e. split; [done|by apply Hsub].
Qed.

Lemma isSend_none l t e : existsb isSend l = false → l !! t ≠ Some (SSend e).
Proof. intros H Ht. assert (existsb isSend l = true); [|congruence]. apply existsb_exists. exists (SSend e). split; [by eapply list_elem_of_In, list_elem_of_lookup_2|done]. Qed.

Lemma HInv_thread t c s s' : HInv s → hexecThread t c s = HMoves s' → HInv s'.
Proof.
  intros I. pose proof (hinv_carried _ I) as Hf. pose proof (hinv_err _ I) as Her. unfold hexecThread.
  destruct (hThreads s !! t) as [p|] eqn:Ht; [|done]. pose proof (Forall_lookup_1 _ _ _ _ Hf Ht) as Hp.
  destruct p, c as [| | |[b|]| | |t'| |]; try done; intros HE; repeat case_match; simplify_eq;
    (eapply HInv_balanced; [exact I|done|unfold htotal; cbn..]);
    try match goal with
    | Ht' : hThreads s !! t' = Some (SSend _) |- _ =>
        hledger Ht' HEnded; assert (t ≠ t') by congruence;
        let H := fresh in assert (H := Ht); rewrite <- (list_lookup_insert_ne _ t' t HEnded) in H by done; hledger H HEnded;
        pose proof (Forall_lookup_1 _ _ _ _ Hf Ht')
    | |- context [<[_ := ?q]> _] => hledger Ht q
    end; cbn in *; try done; try lia; try (left; split; [lia|done]); try (by repeat apply Forall_insert); try set_solver.
  - apply Forall_insert; [|by left]. eapply Forall_impl; [exact Hf|]. intros p. apply carried_mono.
  - match goal with H : resClosed s = false |- _ => rewrite H end. lia.
Qed.

Lemma handles_HInv s : handles s → HInv s.
Proof. induction 1 as [|s a s' _ IH HE]; [apply HInv_start|]. destruct a; [by eapply HInv_main|by eapply HInv_thread]. Qed.

Lemma Drain_open s t : HInv s → hThreads s !! t = Some Drain → resClosed s = false.
Proof.
  intros I Ht. pose proof (hinv_drain _ I) as Hd. pose proof (sum_list_with_lookup isDrain _ _ _ Ht) as Hl. unfold htotal in Hd. cbn in Hl.
  destruct (resClosed s); [|done]. destruct (beforeClose _); lia.
Qed.

(** [resChan] is closed once; what [handle] returns is an error that a message gave. *)
Theorem handle_safe s : handles s → (∀ a why, hexec a s ≠ HDies why) ∧ ∀ r, hMain s = HReturned r → ∃ e, r = Some e ∧ e ∈ hFound s.
Proof.
  intros I%handles_HInv. split.
  - intros [c|t c] why; cbn; unfold hexecMain, hexecThread; [by repeat case_match|].
    destruct (hThreads s !! t) as [p|] eqn:Ht; [|done]. destruct p, c; repeat case_match; try done.
    pose proof (Drain_open s t I Ht). congruence.
  - intros r Hm. pose proof (hinv_inHand _ I) as Hi. unfold inHand in Hi. by rewrite Hm in Hi.
Qed.

(** ** The end of the loop *)

(** Steps that need no message and no goroutine of a message. *)
Definition hinternal (c : hchoice) : bool :=
  match c with HTau | OnCtx | OnTimer | OnReport _ | OnResClosed | OnDefault => true | _ => false end.

Definition hstuck (s : hstate) : Prop := ∀ t c, hinternal c = true → hexecThread t c s = HStays.

(** Steps the goroutines have left. *)
Definition hleft (p : hpc) : nat := match p with Body | HEnded => 0 | SSelect _ => 2 | _ => 1 end.

Lemma hleft_decreases t c s s' : hinternal c = true → hexecThread t c s = HMoves s' → (htotal hleft s' < htotal hleft s)%nat.
Proof.
  intros Hc. unfold hexecThread. destruct (hThreads s !! t) as [p|] eqn:Ht; [|done].
  destruct p, c as [| | |[b|]| | |t'| |]; try done; intros HE; repeat case_match; simplify_eq; unfold htotal; cbn;
    try match goal with
    | Ht' : hThreads s !! t' = Some (SSend _) |- _ =>
        pose proof (sum_list_with_insert hleft _ _ _ HEnded Ht'); assert (t ≠ t') by congruence;
        let H := fresh in assert (H := Ht); rewrite <- (list_lookup_insert_ne _ t' t HEnded) in H by done;
        pose proof (sum_list_with_insert hleft _ _ _ HEnded H)
    | |- context [<[_ := ?q]> _] => pose proof (sum_list_with_insert hleft _ _ _ q Ht)
    end; cbn in *; lia.
Qed.

(** C26. Once [handle] has returned, its goroutines end: each step they take without the
    goroutine of a message brings them nearer to the end, and when none can move
    [resChan] is closed and nobody waits. *)
Theorem handle_no_leak s r : handles s → hMain s = HReturned r →
  (∀ t c s', hinternal c = true → hexecThread t c s = HMoves s' → (htotal hleft s' < htotal hleft s)%nat) ∧
  (hstuck s → resClosed s = true ∧ Forall (fun p => p = Body ∨ p = HEnded) (hThreads s)).
Proof.
  intros I%handles_HInv Hm. split; [intros t c s'; apply hleft_decreases|]. intros Hs.
  pose proof (hinv_cancelled _ I) as Hc. rewrite Hm in Hc. cbn in Hc. pose proof (hinv_drain _ I) as Hd. rewrite Hm in Hd. cbn in Hd.
  assert (Hdr : ∀ t, hThreads s !! t ≠ Some Drain).
  { intros t Ht. pose proof (Drain_open s t I Ht) as Ho. destruct (existsb isSend (hThreads s)) eqn:He.
    - apply existsb_exists in He as (p & Hin%list_elem_of_In & Hp). apply list_elem_of_lookup_1 in Hin as [t' Ht'].
      specialize (Hs t (OnReport t') eq_refl). unfold hexecThread in Hs. rewrite Ht, Ht' in Hs. destruct p; try done. by rewrite Ho in Hs.
    - specialize (Hs t OnDefault eq_refl). unfold hexecThread in Hs. by rewrite Ht, Ho, He in Hs. }
  assert (Hcl : resClosed s = true).
  { destruct (resClosed s); [done|]. destruct (sum_list_with_pos isDrain (hThreads s)) as (t & p & Ht & Hp); [unfold htotal in Hd; lia|].
    destruct p; cbn in Hp; try lia. by destruct (Hdr t). }
  split; [done|]. apply Forall_lookup_2. intros t p Ht. destruct p as [|e|e| | |]; [by left| | | | |by right]; exfalso.
  - specialize (Hs t OnTimer eq_refl). unfold hexecThread in Hs. by rewrite Ht in Hs.
  - specialize (Hs t HTau eq_refl). unfold hexecThread in Hs. by rewrite Ht, Hcl in Hs.
  - specialize (Hs t OnCtx eq_refl). unfold hexecThread in Hs. by rewrite Ht, Hc in Hs.
  - by destruct (Hdr t).
Qed.

(** ** Errors are noticed late *)

(** While the loop waits for a message nothing but a message moves it, whatever error was
    reported; and a second report waits as long. *)
Lemma handle_late s t c s' : hMain s = HRead → hexecThread t c s = HMoves s' → hMain s' = HRead.
Proof.
  intros Hm. unfold hexecThread. destruct (hThreads s !! t) as [p|]; [|done].
  destruct p, c as [| | |[b|]| | | | |]; try done; intros HE; repeat case_match; simplify_eq; done.
Qed.

(** Two messages fail one after the other: the first error is collected, the second report
    waits, and the loop is reading. *)
Definition twoFail : list hact :=
  [HMain HTau; HMain HMsg; HMain HTau; HMain HMsg; HMain HTau; HTh 1 (BodyReturns (Some "bad")); HTh 2 (BodyReturns (Some "worse"));
   HTh 1 OnTimer; HTh 2 OnTimer; HTh 0 (OnReport 1)].

Lemma second_report_waits : ∃ s, hexecAll twoFail handleStart = HMoves s ∧ hMain s = HRead ∧ Err_ s = Some "bad"%string ∧
  hThreads s = [HEnded; HEnded; SSend "worse"] ∧ hstuck s.
Proof.
  eexists. split; [vm_compute; reflexivity|]. split_and!; try done. intros t c Hc. unfold hexecThread. cbn.
  destruct t as [|[|[|t]]], c as [| | |[b|]| | |t'| |]; done.
Qed.

(** ** Instances *)

Lemma handles_hexecAll l s s' : handles s → hexecAll l s = HMoves s' → handles s'.
Proof.
  revert s. induction l as [|a l IH]; intros s HR; cbn; [by intros [= <-]|]. destruct (hexec a s) as [s1| |] eqn:HE; [|done..].
  apply IH. by eapply handles_step.
Qed.

(** Then a third message arrives, the loop ends and the second report is taken. *)
Definition thenEnd : list hact := twoFail ++ [HMain HMsg; HMain HTau; HMain HTau; HMain HTau; HMain HTau; HTh 4 (OnReport 2); HTh 4 OnDefault].
Definition exReturned : hstate := match hexecAll thenEnd handleStart with HMoves s => s | _ => handleStart end.

Lemma exReturned_handles : handles exReturned.
Proof. apply (handles_hexecAll thenEnd handleStart); [constructor|vm_compute; reflexivity]. Qed.

Lemma handle_safe_witness : hMain exReturned = HReturned (Some "bad"%string) ∧ ∃ e, Some "bad"%string = Some e ∧ e ∈ hFound exReturned.
Proof. split; [vm_compute; reflexivity|]. apply (handle_safe exReturned exReturned_handles). vm_compute. reflexivity. Defined.

Lemma handle_no_leak_witness : resClosed exReturned = true ∧ Forall (fun p => p = Body ∨ p = HEnded) (hThreads exReturned).
Proof.
  apply (handle_no_leak exReturned (Some "bad"%string) exReturned_handles); [vm_compute; reflexivity|].
  intros t c Hc. unfold hexecThread. destruct t as [|[|[|[|[|t]]]]], c as [| | |[b|]| | |t'| |]; done.
Defined.
