(* ===== verification/Refresh.v ===== *)
(** * Refreshing and closing the discovery table

    [src/p2p/discover/table.go]: [refreshLoop] starts [doRefresh] when the timer fires or when somebody
    asks ([refresh], [SetFallbackNodes]), one at a time, tells the callers when it is done,
    and shuts the table down ([Close]).  What [doRefresh] does to the table is a function
    of the results of its lookup and of its bonds; the coordination is a machine of threads with one
    step for each channel operation.  Channels made at run time are numbered, [chans] says
    which are closed.

    Properties: under every interleaving no channel is closed twice, one refresh runs at
    a time, [closed] is closed after the transport, the running refresh and the
    database are done with ([refresh_invariant]); when no refresh is running, every caller of
    [refresh] and [Close] gets on ([refresh_progress]).  [UpdateNode] of a node that is
    not in the database panics ([UpdateNode_crash]). *)

From stdpp Require Import base gmap list strings.
From Stdlib Require Import ZArith Lia.
From S2P Require Import Prelude Common Sm3 Discover Table Packets NodeDB.
Local Open Scope go_scope.

(** ** The work of a refresh *)

(** [bondall]: what the bonds gave, in the order they came. *)
Definition bondall (replies : list (option Node)) : list Node := omap id replies.

(** [doRefresh] between its two lookups: [found] is the result of the first, [replies] are
    those of the bonds with the seeds and the nursery. *)
Definition doRefreshTable (tab : Table) (found : list Node) (replies : list (option Node)) : Table :=
  if Nat.ltb 0 (length found) then tab else stuff tab (bondall replies).

(** The copies are new nodes, from the address [ref] on. *)
Definition setNursery (tab : Table) (nodes : list Node) : Table :=
  {| buckets := buckets tab; nursery := nodes; self := self tab; contested := contested tab |}.

Definition copyNode (ref : nat) (n : Node) : Node :=
  {| nRef := ref; nIP := nIP n; nUDP := nUDP n; nTCP := nTCP n; nID := nID n; nSha := sm3 (nID n); nNodeType := nNodeType n |}.

Definition SetFallbackNodes (tab : Table) (ref : nat) (nodes : list Node) : Table * option string :=
  match List.find (fun n => bool_decide (is_Some (validateComplete n))) nodes with
  | Some _ => (tab, Some "bad bootstrap/fallback node"%string)
  | None => (setNursery tab (imap (fun i n => copyNode (ref + i) n) nodes), None)
  end.

Definition setType (n : Node) (nodetype : Z) : Node :=
  {| nRef := nRef n; nIP := nIP n; nUDP := nUDP n; nTCP := nTCP n; nID := nID n; nSha := nSha n; nNodeType := nodetype |}.

Definition UpdateNode {K : KV} (db : kvT) (id : bytes) (nodetype : Z) : gores kvT :=
  match dbNode db 0 id with
  | None => Crash
  | Some oneNode => match updateNode db (setType oneNode nodetype) with Ok db => Ret db | Err e => Fail e end
  end.

(** ** The loop *)

Inductive rpc :=
| RqSelect (ch : nat) (* refresh: select *)
| RqWait (ch : nat) (* <-tab.refresh() *)
| ClSelect (* Close: select *)
| ClWait (* <-tab.closed *)
| DoRefresh (ch : nat) (* doRefresh(done) *)
| REnded.

Inductive rmain :=
| LSelect
| LNet (* tab.net.close() *)
| LDone (* <-done *)
| LWaiting (* close(ch) for the callers *)
| LDb (* tab.db.close() *)
| LClose (* close(tab.closed) *)
| LEnded.

Record refresher := {
  rMain : rmain;
  rThreads : list rpc;
  waiting : list nat;
  done_ : option nat;
  chans : list bool;
  tabClosed : bool;
  netClosed : bool;
  dbClosed : bool
}.

#[export] Instance refresher_eta : Eta refresher :=
  fun s => {| rMain := rMain s; rThreads := rThreads s; waiting := waiting s; done_ := done_ s; chans := chans s;
              tabClosed := tabClosed s; netClosed := netClosed s; dbClosed := dbClosed s |}.

Definition refreshStart : refresher :=
  {| rMain := LSelect; rThreads := []; waiting := []; done_ := None; chans := []; tabClosed := false; netClosed := false; dbClosed := false |}.

Inductive rmoved :=
| RMoves (s : refresher)
| RStays
| RDies (why : string).

Inductive rchoice := RTau | RTimer | OnRequest (t : nat) | OnDone | OnCloseReq (t : nat) | OnTabClosed | RReturns.

Inductive ract :=
| RMain (c : rchoice)
| RTh (t : nat) (c : rchoice)
| CallRefresh
| CallClose.

Definition rgoto (t : nat) (p : rpc) (s : refresher) : refresher := s <| rThreads ::= fun l => <[t := p]> l |>.
Definition rspawn (p : rpc) (s : refresher) : refresher := s <| rThreads ::= fun l => l ++ [p] |>.

(** [close(ch)]: [None] when it is closed already. *)
Definition closeChan (cs : list bool) (ch : nat) : option (list bool) :=
  match cs !! ch with Some false => Some (<[ch := true]> cs) | _ => None end.

Fixpoint closeAll (cs : list bool) (l : list nat) : option (list bool) :=
  match l with
  | [] => Some cs
  | ch :: l => match closeChan cs ch with Some cs => closeAll cs l | None => None end
  end.

(** [if done == nil]. *)
Definition startRefresh (s : refresher) : refresher :=
  match done_ s with
  | Some _ => s
  | None => rspawn (DoRefresh (length (chans s))) (s <| done_ := Some (length (chans s)) |> <| chans ::= fun l => l ++ [false] |>)
  end.

Definition closeWaiting (next : refresher → refresher) (s : refresher) : rmoved :=
  match closeAll (chans s) (waiting s) with
  | Some cs => RMoves (next (s <| chans := cs |> <| waiting := [] |>))
  | None => RDies "close of closed channel"
  end.

Definition isDone (s : refresher) : bool :=
  match done_ s with Some d => bool_decide (chans s !! d = Some true) | None => false end.

Definition rexecMain (c : rchoice) (s : refresher) : rmoved :=
  match rMain s, c with
  | LSelect, RTimer => RMoves (startRefresh s)
  | LSelect, OnRequest t =>
      match rThreads s !! t with
      | Some (RqSelect ch) => RMoves (startRefresh (rgoto t (RqWait ch) (s <| waiting ::= fun l => l ++ [ch] |>)))
      | _ => RStays
      end
  | LSelect, OnDone => if isDone s then closeWaiting (fun s => s <| done_ := None |>) s else RStays
  | LSelect, OnCloseReq t =>
      match rThreads s !! t with Some ClSelect => RMoves (rgoto t ClWait (s <| rMain := LNet |>)) | _ => RStays end
  | LNet, RTau => RMoves (s <| netClosed := true |> <| rMain := LDone |>)
  | LDone, RTau => if bool_decide (done_ s = None) || isDone s then RMoves (s <| rMain := LWaiting |>) else RStays
  | LWaiting, RTau => closeWaiting (fun s => s <| rMain := LDb |>) s
  | LDb, RTau => RMoves (s <| dbClosed := true |> <| rMain := LClose |>)
  | LClose, RTau => if tabClosed s then RDies "close of closed channel" else RMoves (s <| tabClosed := true |> <| rMain := LEnded |>)
  | _, _ => RStays
  end.

Definition rexecThread (t : nat) (c : rchoice) (s : refresher) : rmoved :=
  match rThreads s !! t with
  | None => RStays
  | Some p =>
      match p, c with
      | RqSelect ch, OnTabClosed =>
          if tabClosed s then
            match closeChan (chans s) ch with
            | Some cs => RMoves (rgoto t (RqWait ch) (s <| chans := cs |>))
            | None => RDies "close of closed channel"
            end
          else RStays
      | RqWait ch, RTau => if bool_decide (chans s !! ch = Some true) then RMoves (rgoto t REnded s) else RStays
      | ClSelect, OnTabClosed => if tabClosed s then RMoves (rgoto t REnded s) else RStays
      | ClWait, RTau => if tabClosed s then RMoves (rgoto t REnded s) else RStays
      | DoRefresh ch, RReturns =>
          match closeChan (chans s) ch with
          | Some cs => RMoves (rgoto t REnded (s <| chans := cs |>))
          | None => RDies "close of closed channel"
          end
      | _, _ => RStays
      end
  end.

Definition rexec (a : ract) (s : refresher) : rmoved :=
  match a with
  | RMain c => rexecMain c s
  | RTh t c => rexecThread t c s
  | CallRefresh => RMoves (rspawn (RqSelect (length (chans s))) (s <| chans ::= fun l => l ++ [false] |>))
  | CallClose => RMoves (rspawn ClSelect s)
  end.

Inductive refreshes : refresher → Prop :=
| refreshes_start : refreshes refreshStart
| refreshes_step s a s' : refreshes s → rexec a s = RMoves s' → refreshes s'.

Fixpoint rexecAll (l : list ract) (s : refresher) : rmoved :=
  match l with
  | [] => RMoves s
  | a :: l => match rexec a s with RMoves s => rexecAll l s | r => r end
  end.

(** ** Who closes a channel *)

Definition asks (ch : nat) (p : rpc) : nat := match p with RqSelect c => if Nat.eqb c ch then 1 else 0 | _ => 0 end.
Definition works (ch : nat) (p : rpc) : nat := match p with DoRefresh c => if Nat.eqb c ch then 1 else 0 | _ => 0 end.
Definition inList (ch c : nat) : nat := if Nat.eqb c ch then 1 else 0.

Definition asking (s : refresher) (ch : nat) : nat := sum_list_with (asks ch) (rThreads s) + sum_list_with (inList ch) (waiting s).
Definition working (s : refresher) (ch : nat) : nat := sum_list_with (works ch) (rThreads s).

Definition isOpen (s : refresher) (ch : nat) : nat := match chans s !! ch with Some false => 1 | _ => 0 end.

(** A caller that waits. *)
Definition served (s : refresher) (p : rpc) : Prop :=
  match p with
  | RqWait ch => chans s !! ch = Some true ∨ ch ∈ waiting s
  | ClWait => rMain s ≠ LSelect
  | _ => True
  end.

Definition ended (m : rmain) : bool := match m with LEnded => true | _ => false end.
Definition serves (m : rmain) : bool := match m with LSelect | LNet | LDone => true | _ => false end.

Definition netDown (m : rmain) : bool := match m with LSelect | LNet => false | _ => true end.
Definition dbDown (m : rmain) : bool := match m with LClose | LEnded => true | _ => false end.

Record ROwn (s : refresher) : Prop := {
  rinv_owner : ∀ ch, (asking s ch + working s ch = isOpen s ch)%nat;
  rinv_work : ∀ ch, (0 < working s ch)%nat → done_ s = Some ch;
  rinv_done : ∀ d, done_ s = Some d → asking s d = 0%nat ∧ (d < length (chans s))%nat;
  rinv_finished : ∀ ch, serves (rMain s) = false → working s ch = 0%nat;
  rinv_closed : tabClosed s = ended (rMain s) ∧ netClosed s = netDown (rMain s) ∧ dbClosed s = dbDown (rMain s);
  rinv_served : Forall (served s) (rThreads s)
}.

(** Callers wait only while a refresh is running or about to be reported. *)
Definition RWait (s : refresher) : Prop := waiting s ≠ [] → rMain s = LWaiting ∨ (serves (rMain s) = true ∧ is_Some (done_ s)).

Definition RInv (s : refresher) : Prop := ROwn s ∧ RWait s.

(** *** Channels *)

Lemma closeChan_Some (cs : list bool) (ch : nat) : cs !! ch = Some false → closeChan cs ch = Some (<[ch := true]> cs).
Proof. unfold closeChan. by intros ->. Qed.

Definition openIn (cs : list bool) (ch : nat) : nat := match cs !! ch with Some false => 1 | _ => 0 end.

Lemma openIn_insert (cs : list bool) (c ch : nat) : cs !! c = Some false → (openIn (<[c := true]> cs) ch + inList ch c = openIn cs ch)%nat.
Proof.
  intros Hc. unfold openIn, inList. destruct (Nat.eqb_spec c ch) as [->|Hne].
  - rewrite list_lookup_insert_eq by (by eapply lookup_lt_Some). by rewrite Hc.
  - rewrite list_lookup_insert_ne by done. lia.
Qed.

Lemma closed_insert (cs : list bool) (c ch : nat) : cs !! c = Some false → <[c := true]> cs !! ch = Some true ↔ cs !! ch = Some true ∨ ch = c.
Proof.
  intros Hc. destruct (decide (ch = c)) as [->|Hne].
  - rewrite list_lookup_insert_eq by (by eapply lookup_lt_Some). tauto.
  - rewrite list_lookup_insert_ne by done. tauto.
Qed.

(** Channels that are open, each once, are closed. *)
Lemma closeAll_Some cs l : (∀ ch, (sum_list_with (inList ch) l ≤ openIn cs ch)%nat) →
  ∃ cs', closeAll cs l = Some cs' ∧ length cs' = length cs ∧
    (∀ ch, (openIn cs' ch + sum_list_with (inList ch) l = openIn cs ch)%nat) ∧ ∀ ch, cs' !! ch = Some true ↔ cs !! ch = Some true ∨ ch ∈ l.
Proof.
  revert cs. induction l as [|c l IH]; intros cs H; cbn.
  - exists cs. split; [done|]. split; [done|]. split; [intros; lia|]. intros ch. rewrite elem_of_nil. tauto.
  - assert (Hc : cs !! c = Some false).
    { specialize (H c). cbn in H. unfold inList at 1, openIn in H. rewrite Nat.eqb_refl in H. destruct (cs !! c) as [[]|]; try lia. done. }
    rewrite closeChan_Some by done. destruct (IH (<[c := true]> cs)) as (cs' & E & Hl & Ho & Ht).
    { intros ch. specialize (H ch). cbn in H. pose proof (openIn_insert cs c ch Hc). lia. }
    exists cs'. rewrite E, Hl, length_insert. split_and!; try done.
    + intros ch. pose proof (openIn_insert cs c ch Hc). specialize (Ho ch). lia.
    + intros ch. rewrite Ht, closed_insert, elem_of_cons by done. tauto.
Qed.

Lemma isOpen_in s ch : isOpen s ch = openIn (chans s) ch.
Proof. done. Qed.

Lemma openIn_app cs ch : openIn (cs ++ [false]) ch = (openIn cs ch + inList ch (length cs))%nat.
Proof.
  unfold openIn, inList. destruct (Nat.eqb_spec (length cs) ch) as [<-|Hne].
  - by rewrite list_lookup_middle, lookup_ge_None_2 by done.
  - destruct (decide (ch < length cs)%nat).
    + rewrite lookup_app_l by done. lia.
    + rewrite !lookup_ge_None_2; [done|lia|rewrite length_app; cbn; lia].
Qed.

Lemma open_lt s ch : ROwn s → (0 < asking s ch + working s ch)%nat → (ch < length (chans s))%nat ∧ chans s !! ch = Some false.
Proof.
  intros I H. rewrite (rinv_owner _ I) in H. unfold isOpen in H. destruct (chans s !! ch) as [[]|] eqn:E; try lia. split; [by eapply lookup_lt_Some|done].
Qed.

Lemma served_mono s s' p : (∀ ch, chans s !! ch = Some true ∨ ch ∈ waiting s → chans s' !! ch = Some true ∨ ch ∈ waiting s') →
  (rMain s ≠ LSelect → rMain s' ≠ LSelect) → served s p → served s' p.
Proof. intros Hc Hm. destruct p; cbn; auto. Qed.

Lemma served_all s s' l : (∀ ch, chans s !! ch = Some true ∨ ch ∈ waiting s → chans s' !! ch = Some true ∨ ch ∈ waiting s') →
  (rMain s ≠ LSelect → rMain s' ≠ LSelect) → Forall (served s) l → Forall (served s') l.
Proof. intros Hc Hm HF. eapply Forall_impl; [exact HF|]. intros p. by apply served_mono. Qed.

Lemma true_app (cs : list bool) x ch : cs !! ch = Some true → (cs ++ x) !! ch = Some true.
Proof. intros H. by apply lookup_app_l_Some. Qed.

(** *** Steps *)

Lemma ROwn_startRefresh s : ROwn s → serves (rMain s) = true → ROwn (startRefresh s).
Proof.
  intros I Hs. unfold startRefresh. destruct (done_ s) as [d|] eqn:Hd; [done|].
  assert (Hw : ∀ ch, working s ch = 0%nat).
  { intros ch. destruct (decide (0 < working s ch)%nat) as [H|]; [|lia]. apply (rinv_work _ I) in H. congruence. }
  assert (Hn : ∀ ch, (length (chans s) ≤ ch)%nat → asking s ch = 0%nat).
  { intros ch Hch. destruct (decide (0 < asking s ch)%nat) as [H|]; [|lia]. destruct (open_lt s ch I) as [? _]; lia. }
  destruct I as [Ho Hwk Hdn Hf Hc Hsv]. split; cbn -[sum_list_with].
  - intros ch. specialize (Ho ch). specialize (Hw ch). rewrite isOpen_in in *. unfold asking, working in *. cbn -[sum_list_with openIn].
    rewrite openIn_app, !sum_list_with_app. cbn -[openIn]. unfold inList in *. lia.
  - intros ch. specialize (Hw ch). unfold working in *. cbn -[sum_list_with]. rewrite sum_list_with_app. cbn. destruct (Nat.eqb_spec (length (chans s)) ch); [by subst|lia].
  - intros d [= <-]. rewrite length_app. cbn. specialize (Hn (length (chans s)) ltac:(lia)). unfold asking in *. cbn -[sum_list_with].
    rewrite !sum_list_with_app. cbn. lia.
  - intros ch. by rewrite Hs.
  - done.
  - apply Forall_app. split; [|by repeat constructor]. eapply served_all; [..|exact Hsv]; cbn; [|done]. intros ch [?|?]; [left; by apply true_app|by right].
Qed.

Lemma startRefresh_done s : is_Some (done_ (startRefresh s)).
Proof. unfold startRefresh. destruct (done_ s) eqn:E; [rewrite E|]; by eexists. Qed.

Lemma startRefresh_main s : rMain (startRefresh s) = rMain s.
Proof. unfold startRefresh. by destruct (done_ s). Qed.

(** The channels of the callers are closed. *)
Lemma closeWaiting_RInv s : ROwn s → ∃ cs, closeAll (chans s) (waiting s) = Some cs ∧ ROwn (s <| chans := cs |> <| waiting := [] |>) ∧
  ∀ ch, cs !! ch = Some true ↔ chans s !! ch = Some true ∨ ch ∈ waiting s.
Proof.
  intros I. destruct (closeAll_Some (chans s) (waiting s)) as (cs & E & Hl & Ho & Ht).
  { intros ch. pose proof (rinv_owner _ I ch) as H. rewrite isOpen_in in H. unfold asking in H. lia. }
  exists cs. split; [done|]. split; [|done]. destruct I as [Hown Hwk Hdn Hf Hc Hsv]. split; try done.
  - intros ch. specialize (Hown ch). specialize (Ho ch). rewrite isOpen_in in *. unfold asking, working in *. cbn -[openIn]. lia.
  - intros d Hd. apply Hdn in Hd as [Ha Hlt]. unfold asking in *. cbn -[sum_list_with]. cbn [sum_list_with]. rewrite Hl. split; [lia|done].
  - eapply served_all; [..|exact Hsv]; cbn; [|done]. intros ch [?|?]; left; apply Ht; auto.
Qed.

(** A thread moves without touching the channels it owes. *)
Lemma ROwn_goto s t p q : ROwn s → rThreads s !! t = Some p → (∀ ch, asks ch p = asks ch q ∧ works ch p = works ch q) →
  served s q → ROwn (rgoto t q s).
Proof.
  intros [Ho Hwk Hdn Hf Hc Hsv] Ht Heq Hq.
  assert (Ha : ∀ ch, asking (rgoto t q s) ch = asking s ch).
  { intros ch. unfold asking. cbn -[sum_list_with]. pose proof (sum_list_with_insert (asks ch) _ _ _ q Ht). destruct (Heq ch). lia. }
  assert (Hw : ∀ ch, working (rgoto t q s) ch = working s ch).
  { intros ch. unfold working. cbn -[sum_list_with]. pose proof (sum_list_with_insert (works ch) _ _ _ q Ht). destruct (Heq ch). lia. }
  split; try done; try (intros ch; rewrite ?Ha, ?Hw; by auto). cbn. apply Forall_insert; [|done]. exact Hsv.
Qed.

(** The loop takes the channel of a caller. *)
Lemma ROwn_request s t ch : ROwn s → rThreads s !! t = Some (RqSelect ch) → ROwn (rgoto t (RqWait ch) (s <| waiting ::= fun l => l ++ [ch] |>)).
Proof.
  intros [Ho Hwk Hdn Hf Hc Hsv] Ht. set (s' := rgoto _ _ _).
  assert (Ha : ∀ x, asking s' x = asking s x).
  { intros x. unfold asking. cbn -[sum_list_with]. rewrite sum_list_with_app. pose proof (sum_list_with_insert (asks x) _ _ _ (RqWait ch) Ht) as H. cbn in *. unfold inList. lia. }
  assert (Hw : ∀ x, working s' x = working s x).
  { intros x. unfold working. cbn -[sum_list_with]. pose proof (sum_list_with_insert (works x) _ _ _ (RqWait ch) Ht) as H. cbn in H. lia. }
  split; try done; try (intros x; rewrite ?Ha, ?Hw; by auto). cbn. apply Forall_insert; [|right; apply elem_of_app; right; by left].
  eapply served_all; [..|exact Hsv]; cbn; [|done]. intros x [?|?]; [by left|right; apply elem_of_app; by left].
Qed.

(** The loop itself moves on. *)
Lemma ROwn_main s m nc dc tc : ROwn s → (serves m = false → ∀ ch, working s ch = 0%nat) → (rMain s ≠ LSelect → m ≠ LSelect) →
  tc = ended m ∧ nc = netDown m ∧ dc = dbDown m →
  ROwn (s <| rMain := m |> <| netClosed := nc |> <| dbClosed := dc |> <| tabClosed := tc |>).
Proof.
  intros [Ho Hwk Hdn Hf Hc Hsv] Hm Hs Ht. split; try done; [intros ch Hx; by apply Hm|]. eapply served_all; [..|exact Hsv]; cbn; auto.
Qed.

Lemma isDone_idle s ch : ROwn s → done_ s = None ∨ isDone s = true → working s ch = 0%nat.
Proof.
  intros I H. destruct (decide (0 < working s ch)%nat) as [Hw|]; [|lia]. pose proof (rinv_work _ I ch Hw) as Hd. destruct H as [|H]; [congruence|].
  unfold isDone in H. rewrite Hd in H. apply bool_decide_eq_true in H. pose proof (rinv_owner _ I ch) as Ho. unfold isOpen in Ho. rewrite H in Ho. lia.
Qed.

(** The refresh is reported. *)
Lemma ROwn_reported s : ROwn s → isDone s = true → ROwn (s <| done_ := None |>).
Proof.
  intros I H. pose proof (fun ch => isDone_idle s ch I (or_intror H)) as Hi. destruct I as [Ho Hwk Hdn Hf Hc Hsv].
  split; try done. intros ch Hw. specialize (Hi ch). unfold working in *. cbn in Hw. lia.
Qed.

Lemma closeWaiting_inv s next s' : ROwn s → closeWaiting next s = RMoves s' →
  ∃ cs, s' = next (s <| chans := cs |> <| waiting := [] |>) ∧ ROwn (s <| chans := cs |> <| waiting := [] |>) ∧
    ∀ ch, chans s !! ch = Some true → cs !! ch = Some true.
Proof.
  intros I. destruct (closeWaiting_RInv s I) as (cs & E & I' & Ht). unfold closeWaiting. rewrite E. intros [= <-]. exists cs. split_and!; try done.
  intros ch H. apply Ht. by left.
Qed.

Lemma RInv_main c s s' : RInv s → rexecMain c s = RMoves s' → RInv s'.
Proof.
  intros [I HW]. pose proof (rinv_closed _ I) as Hc. unfold rexecMain. destruct (rMain s) eqn:Hm, c as [| |t| |t| |]; try done; cbn in Hc; destruct Hc as (Hc1 & Hc2 & Hc3).
  - intros [= <-]. split; [apply ROwn_startRefresh; [done|by rewrite Hm]|]. intros _. right. rewrite startRefresh_main, Hm. split; [done|apply startRefresh_done].
  - destruct (rThreads s !! t) as [[ch| | | | |]|] eqn:Ht; try done. intros [= <-].
    split; [apply ROwn_startRefresh; [by apply ROwn_request|by cbn; rewrite Hm]|]. intros _. right. rewrite startRefresh_main. split; [by cbn; rewrite Hm|apply startRefresh_done].
  - destruct (isDone s) eqn:Hd; [|done]. intros HE. destruct (closeWaiting_inv _ _ _ I HE) as (cs & -> & I' & Ht). split; [|intros Hw; by destruct Hw].
    apply ROwn_reported; [done|]. unfold isDone in *. cbn. destruct (done_ s) as [d|]; [|done]. apply bool_decide_eq_true in Hd. apply bool_decide_eq_true. auto.
  - destruct (rThreads s !! t) as [[| | | | |]|] eqn:Ht; try done. intros [= <-]. split.
    + change (ROwn (rgoto t ClWait (s <| rMain := LNet |>))). apply ROwn_goto with (p := ClSelect); [|done|done|done].
      pose proof (ROwn_main s LNet (netClosed s) (dbClosed s) (tabClosed s) I ltac:(done) ltac:(done) ltac:(done)) as H. destruct s. exact H.
    + intros Hw. right. destruct (HW Hw) as [?|[_ ?]]; [congruence|done].
  - intros [= <-]. split.
    + pose proof (ROwn_main s LDone true (dbClosed s) (tabClosed s) I ltac:(done) ltac:(done) ltac:(done)) as H. destruct s. exact H.
    + intros Hw. right. destruct (HW Hw) as [?|[_ ?]]; [congruence|done].
  - destruct (bool_decide (done_ s = None) || isDone s) eqn:Hd; [|done]. intros [= <-]. split; [|by left].
    assert (Hi : ∀ ch, working s ch = 0%nat).
    { intros ch. apply isDone_idle; [done|]. apply orb_true_iff in Hd as [Hd|]; [left; by apply bool_decide_eq_true in Hd|by right]. }
    pose proof (ROwn_main s LWaiting (netClosed s) (dbClosed s) (tabClosed s) I ltac:(done) ltac:(done) ltac:(done)) as H. destruct s. exact H.
  - intros HE. destruct (closeWaiting_inv _ _ _ I HE) as (cs & -> & I' & Ht). split; [|intros Hw; by destruct Hw].
    assert (Hi : ∀ ch, working s ch = 0%nat) by (intros ch; apply (rinv_finished _ I); by rewrite Hm).
    pose proof (ROwn_main _ LDb (netClosed s) (dbClosed s) (tabClosed s) I' ltac:(done) ltac:(done) ltac:(done)) as H. destruct s. exact H.
  - intros [= <-]. split.
    + assert (Hi : ∀ ch, working s ch = 0%nat) by (intros ch; apply (rinv_finished _ I); by rewrite Hm).
      pose proof (ROwn_main s LClose (netClosed s) true (tabClosed s) I ltac:(done) ltac:(done) ltac:(done)) as H. destruct s. exact H.
    + intros Hw. destruct (HW Hw) as [?|[Hx _]]; [congruence|by rewrite Hm in Hx].
  - destruct (tabClosed s); [done|]. intros [= <-]. split.
    + assert (Hi : ∀ ch, working s ch = 0%nat) by (intros ch; apply (rinv_finished _ I); by rewrite Hm).
      pose proof (ROwn_main s LEnded (netClosed s) (dbClosed s) true I ltac:(done) ltac:(done) ltac:(done)) as H. destruct s. exact H.
    + intros Hw. destruct (HW Hw) as [?|[Hx _]]; [congruence|by rewrite Hm in Hx].
Qed.

(** A thread closes the channel it owes. *)
Lemma ROwn_close s t p q ch : ROwn s → rThreads s !! t = Some p →
  (∀ x, (asks x p + works x p = inList x ch)%nat) → (∀ x, asks x q = 0%nat ∧ works x q = 0%nat) → (q = RqWait ch ∨ q = REnded) →
  closeChan (chans s) ch = Some (<[ch := true]> (chans s)) ∧ ROwn (rgoto t q (s <| chans := <[ch := true]> (chans s) |>)).
Proof.
  intros I Ht Hp Hq Hw. pose proof (fun x => sum_list_with_lookup (asks x) _ _ _ Ht) as La. pose proof (fun x => sum_list_with_lookup (works x) _ _ _ Ht) as Lw.
  assert (Hc : chans s !! ch = Some false).
  { apply (open_lt s ch I). unfold asking, working. specialize (Hp ch). specialize (La ch). specialize (Lw ch). unfold inList in Hp. rewrite Nat.eqb_refl in Hp. lia. }
  split; [by apply closeChan_Some|]. destruct I as [Ho Hwk Hdn Hf Hcl Hsv]. set (s' := rgoto _ _ _).
  assert (Ha : ∀ x, (asking s' x + asks x p = asking s x)%nat).
  { intros x. unfold asking. cbn -[sum_list_with]. pose proof (sum_list_with_insert (asks x) _ _ _ q Ht). destruct (Hq x). lia. }
  assert (Hk : ∀ x, (working s' x + works x p = working s x)%nat).
  { intros x. unfold working. cbn -[sum_list_with]. pose proof (sum_list_with_insert (works x) _ _ _ q Ht). destruct (Hq x). lia. }
  split; try done.
  - intros x. specialize (Ho x). specialize (Ha x). specialize (Hk x). specialize (Hp x). rewrite isOpen_in in *. change (chans s') with (<[ch := true]> (chans s)).
    pose proof (openIn_insert (chans s) ch x Hc). lia.
  - intros x Hx. apply Hwk. specialize (Hk x). lia.
  - intros d Hd. apply Hdn in Hd as [H0 Hl]. specialize (Ha d). split; [lia|]. cbn. by rewrite length_insert.
  - intros x Hx. specialize (Hk x). specialize (Hf x Hx). lia.
  - cbn. apply Forall_insert.
    + eapply served_all; [..|exact Hsv]; cbn; [|done]. intros x [Hx|Hx]; [left; apply closed_insert; auto|by right].
    + destruct Hw as [->| ->]; [|done]. left. cbn. apply closed_insert; auto.
Qed.

Lemma RInv_thread t c s s' : RInv s → rexecThread t c s = RMoves s' → RInv s'.
Proof.
  intros [I HW]. unfold rexecThread. destruct (rThreads s !! t) as [p|] eqn:Ht; [|done]. destruct p as [ch|ch| | |ch|], c; try done.
  - destruct (tabClosed s); [|done]. destruct (ROwn_close s t _ (RqWait ch) ch I Ht) as [E I']; [intros; cbn; unfold inList; lia|done|by left|].
    rewrite E. intros [= <-]. by split.
  - case_bool_decide; [|done]. intros [= <-]. split; [by eapply ROwn_goto|done].
  - destruct (tabClosed s); [|done]. intros [= <-]. split; [by eapply ROwn_goto|done].
  - destruct (tabClosed s); [|done]. intros [= <-]. split; [by eapply ROwn_goto|done].
  - destruct (ROwn_close s t _ REnded ch I Ht) as [E I']; [intros; cbn; unfold inList; lia|done|by right|]. rewrite E. intros [= <-]. by split.
Qed.

Lemma RInv_exec a s s' : RInv s → rexec a s = RMoves s' → RInv s'.
Proof.
  destruct a as [c|t c| |]; cbn; [by apply RInv_main|by apply RInv_thread|..]; intros [I HW] [= <-]; (split; [|exact HW]).
  - assert (Hn : asking s (length (chans s)) = 0%nat ∧ working s (length (chans s)) = 0%nat).
    { destruct (decide (0 < asking s (length (chans s)) + working s (length (chans s)))%nat) as [H|]; [|lia]. destruct (open_lt s _ I H); lia. }
    destruct I as [Ho Hwk Hdn Hf Hc Hsv]. split; cbn -[sum_list_with]; try done.
    + intros x. specialize (Ho x). rewrite isOpen_in in *. unfold asking, working in *. cbn -[sum_list_with openIn].
      rewrite openIn_app, !sum_list_with_app. cbn -[openIn]. unfold inList in *. lia.
    + intros x. unfold working. cbn -[sum_list_with]. rewrite sum_list_with_app. cbn. rewrite Nat.add_0_r. apply Hwk.
    + intros d Hd. destruct (Hdn d Hd) as [Ha Hl]. rewrite length_app. unfold asking in *. cbn -[sum_list_with]. rewrite sum_list_with_app. cbn.
      destruct (Nat.eqb_spec (length (chans s)) d); lia.
    + intros x Hx. unfold working. cbn -[sum_list_with]. rewrite sum_list_with_app. cbn. rewrite Nat.add_0_r. by apply Hf.
    + apply Forall_app. split; [|by repeat constructor]. eapply served_all; [..|exact Hsv]; cbn; [|done]. intros x [?|?]; [left; by apply true_app|by right].
  - destruct I as [Ho Hwk Hdn Hf Hc Hsv]. split; cbn -[sum_list_with]; try done; unfold asking, working in *; cbn -[sum_list_with] in *;
      try (intros x; rewrite ?sum_list_with_app; cbn; rewrite ?Nat.add_0_r; by auto).
    apply Forall_app. split; [done|by repeat constructor].
Qed.

Lemma refreshes_RInv s : refreshes s → RInv s.
Proof.
  induction 1 as [|s a s' _ IH HE]; [|by eapply RInv_exec]. split; [|intros H; by destruct H]. split; try done.
  intros ch H. unfold working in H. cbn in H. lia.
Qed.

Lemma rexec_alive s a why : RInv s → rexec a s ≠ RDies why.
Proof.
  intros [I HW]. destruct (closeWaiting_RInv s I) as (cs & E & _ & _). destruct a as [c|t c| |]; cbn; [| |done|done].
  - unfold rexecMain, closeWaiting. rewrite E. pose proof (proj1 (rinv_closed _ I)) as Hc. destruct (rMain s), c; cbn in Hc; try done; rewrite ?Hc; by repeat case_match.
  - unfold rexecThread. destruct (rThreads s !! t) as [p|] eqn:Ht; [|done]. destruct p as [ch|ch| | |ch|], c; try done; [| |by case_match..|].
    + destruct (ROwn_close s t _ (RqWait ch) ch I Ht) as [-> _]; [intros; cbn; unfold inList; lia|done|by left|]. by case_match.
    + by case_match.
    + by destruct (ROwn_close s t _ REnded ch I Ht) as [-> _]; [intros; cbn; unfold inList; lia|done|by right|].
Qed.

Lemma sum_list_with_unique {A} (w : A → nat) l i j p q : (sum_list_with w l ≤ 1)%nat → l !! i = Some p → l !! j = Some q →
  w p = 1%nat → w q = 1%nat → i = j.
Proof.
  intros Hs Hi Hj Hp Hq. destruct (decide (i = j)) as [|Hne]; [done|exfalso]. revert i j Hi Hj Hne Hs.
  induction l as [|x l IH]; intros [|i] [|j] Hi Hj Hne Hs; try done; cbn in *; simplify_eq.
  - pose proof (sum_list_with_lookup w _ _ _ Hj). lia.
  - pose proof (sum_list_with_lookup w _ _ _ Hi). lia.
  - eapply (IH i j); [done..|congruence|lia].
Qed.

Lemma DoRefresh_done s t d : ROwn s → rThreads s !! t = Some (DoRefresh d) → done_ s = Some d ∧ chans s !! d = Some false.
Proof.
  intros I Ht. pose proof (sum_list_with_lookup (works d) _ _ _ Ht) as H. cbn in H. rewrite Nat.eqb_refl in H.
  assert (0 < working s d)%nat by (unfold working; lia). split; [by apply (rinv_work _ I)|]. apply (open_lt s d I). lia.
Qed.

(** Under every interleaving of the loop, the refreshes and the callers: no channel is closed
    twice; at most one refresh is running; once the table is closed the transport and the
    database are closed and no refresh is running. *)
Theorem refresh_invariant s : refreshes s →
  (∀ a why, rexec a s ≠ RDies why) ∧
  (∀ t t' d d', rThreads s !! t = Some (DoRefresh d) → rThreads s !! t' = Some (DoRefresh d') → t = t') ∧
  (tabClosed s = true → netClosed s = true ∧ dbClosed s = true ∧ ∀ t d, rThreads s !! t ≠ Some (DoRefresh d)).
Proof.
  intros HI%refreshes_RInv. pose proof HI as [I _]. split_and!.
  - intros a why. by apply rexec_alive.
  - intros t t' d d' Ht Ht'. destruct (DoRefresh_done s t d I Ht) as [E Ho]. destruct (DoRefresh_done s t' d' I Ht') as [E' _].
    assert (d' = d) as -> by congruence. pose proof (rinv_owner _ I d) as Hw. unfold working, isOpen in Hw. rewrite Ho in Hw.
    eapply (sum_list_with_unique (works d) (rThreads s)); [lia|exact Ht|exact Ht'|cbn; by rewrite Nat.eqb_refl..].
  - intros Hc. destruct (rinv_closed _ I) as (E1 & E2 & E3). rewrite Hc in E1. destruct (rMain s) eqn:Hm; try done. split_and!; [done..|].
    intros t d Ht. pose proof (sum_list_with_lookup (works d) _ _ _ Ht) as H. cbn in H. rewrite Nat.eqb_refl in H.
    pose proof (rinv_finished _ I d) as Hf. rewrite Hm in Hf. specialize (Hf eq_refl). unfold working in Hf. lia.
Qed.

(** Steps that need neither the timer nor the end of a refresh. *)
Definition rinternal (c : rchoice) : bool := match c with RTimer | RReturns => false | _ => true end.

Definition rstuck (s : refresher) : Prop := ∀ c, rinternal c = true → rexecMain c s = RStays ∧ ∀ t, rexecThread t c s = RStays.

(** A refresh whose end has not been seen is running. *)
Lemma running_or_done s d : ROwn s → done_ s = Some d → isDone s = true ∨ ∃ t, rThreads s !! t = Some (DoRefresh d).
Proof.
  intros I Hd. destruct (rinv_done _ I d Hd) as [Ha Hl]. pose proof (rinv_owner _ I d) as Ho. unfold isOpen, isDone in *. rewrite Hd.
  destruct (lookup_lt_is_Some_2 _ _ Hl) as [b Hb]. rewrite Hb in *. destruct b; [left; by apply bool_decide_eq_true|right].
  destruct (sum_list_with_pos (works d) (rThreads s)) as (t & p & Ht & Hp); [unfold working in Ho; lia|].
  destruct p as [| | | |c|]; cbn in Hp; try lia. destruct (Nat.eqb_spec c d); [subst; by exists t|lia].
Qed.

Lemma rstuck_main s : RInv s → rstuck s → (∀ t d, rThreads s !! t ≠ Some (DoRefresh d)) →
  (rMain s = LSelect ∧ waiting s = []) ∨ (rMain s = LEnded ∧ waiting s = [] ∧ tabClosed s = true).
Proof.
  intros [I HW] Hs Hno. destruct (closeWaiting_RInv s I) as (cs & E & _ & _). destruct (Hs RTau eq_refl) as [Hy _]. unfold rexecMain, closeWaiting in Hy.
  destruct (rinv_closed _ I) as (Hc & _). rewrite E in Hy. unfold RWait in HW.
  destruct (rMain s) eqn:Hm; cbn in *; try done.
  - left. split; [done|]. destruct (waiting s) as [|x l] eqn:Hw; [done|]. destruct HW as [?|[_ [d Hd]]]; [done|done|].
    destruct (running_or_done s d I Hd) as [Hi|[t Ht]]; [|by destruct (Hno t d)].
    destruct (Hs OnDone eq_refl) as [Hz _]. unfold rexecMain, closeWaiting in Hz. rewrite Hm, Hi, Hw, E in Hz. done.
  - destruct (done_ s) as [d|] eqn:Hd; [|done]. destruct (running_or_done s d I Hd) as [Hi|[t Ht]]; [|by destruct (Hno t d)].
    rewrite Hi in Hy. by rewrite orb_true_r in Hy.
  - by rewrite Hc in Hy.
  - right. split_and!; [done| |done]. destruct (waiting s) as [|x l]; [done|]. destruct HW as [?|[? _]]; done.
Qed.

Definition isRefresh (p : rpc) : bool := match p with DoRefresh _ => true | _ => false end.

(** C27. Nobody is left waiting: when only the timer and the end of a refresh could move the
    table, either a refresh is running or every caller of [refresh] and [Close] has got on. *)
Theorem refresh_progress s : refreshes s → rstuck s →
  (∃ t d, rThreads s !! t = Some (DoRefresh d)) ∨ Forall (fun p => p = REnded) (rThreads s).
Proof.
  intros HI%refreshes_RInv Hs. destruct (decide (Exists (fun p => isRefresh p = true) (rThreads s))) as [He|He].
  { left. apply Exists_exists in He as (p & Hin & Hp). apply list_elem_of_lookup_1 in Hin as [t Ht]. destruct p; try done. eauto. }
  right. assert (Hno : ∀ t d, rThreads s !! t ≠ Some (DoRefresh d)).
  { intros t d Ht. apply He, Exists_exists. exists (DoRefresh d). split; [by eapply list_elem_of_lookup_2|done]. }
  pose proof (rstuck_main s HI Hs Hno) as Hm. destruct HI as [I HW]. apply Forall_lookup_2. intros t p Ht.
  pose proof (Forall_lookup_1 _ _ _ _ (rinv_served _ I) Ht) as Hsv. destruct p as [ch|ch| | |d|]; [| | | |by destruct (Hno t d)|done]; exfalso.
  - destruct Hm as [[Hm _]|(Hm & _ & Hc)].
    + destruct (Hs (OnRequest t) eq_refl) as [Hy _]. unfold rexecMain in Hy. by rewrite Hm, Ht in Hy.
    + destruct (Hs OnTabClosed eq_refl) as [_ Hy]. specialize (Hy t). unfold rexecThread in Hy. rewrite Ht, Hc in Hy.
      destruct (ROwn_close s t _ (RqWait ch) ch I Ht) as [E _]; [intros; cbn; unfold inList; lia|done|by left|]. by rewrite E in Hy.
  - destruct (Hs RTau eq_refl) as [_ Hy]. specialize (Hy t). unfold rexecThread in Hy. rewrite Ht in Hy. cbn in Hsv.
    destruct Hsv as [Hx|Hx]; [by rewrite bool_decide_true in Hy|]. assert (Hw : waiting s = []) by (destruct Hm as [[_ ?]|(_ & ? & _)]; done).
    rewrite Hw in Hx. by apply elem_of_nil in Hx.
  - destruct Hm as [[Hm _]|(Hm & _ & Hc)].
    + destruct (Hs (OnCloseReq t) eq_refl) as [Hy _]. unfold rexecMain in Hy. by rewrite Hm, Ht in Hy.
    + destruct (Hs OnTabClosed eq_refl) as [_ Hy]. specialize (Hy t). unfold rexecThread in Hy. by rewrite Ht, Hc in Hy.
  - cbn in Hsv. destruct Hm as [[Hm _]|(_ & _ & Hc)]; [done|]. destruct (Hs RTau eq_refl) as [_ Hy]. specialize (Hy t). unfold rexecThread in Hy. by rewrite Ht, Hc in Hy.
Qed.

(** ** The nursery and the node types *)

(** Fallback nodes are taken over as they are, with their hash computed anew, or all refused. *)
Lemma SetFallbackNodes_spec tab ref nodes : let '(tab', err) := SetFallbackNodes tab ref nodes in
  (err = None ↔ Forall (fun n => validateComplete n = None) nodes) ∧
  (err = None → Forall Table.nodeOK (nursery tab') ∧ nID <$> nursery tab' = nID <$> nodes) ∧ (err ≠ None → tab' = tab) ∧ buckets tab' = buckets tab.
Proof.
  unfold SetFallbackNodes. destruct (List.find _ nodes) as [n|] eqn:Hf.
  - apply find_some in Hf as [Hin Hv]. apply bool_decide_eq_true in Hv. split_and!; try done. split; [done|]. intros HF.
    rewrite Forall_forall in HF. rewrite HF in Hv by (by apply list_elem_of_In). by destruct Hv.
  - split_and!; try done.
    + split; [intros _|done]. apply Forall_forall. intros n Hin%list_elem_of_In. apply (find_none _ _ Hf) in Hin. cbn in Hin. apply bool_decide_eq_false in Hin. by apply eq_None_not_Some.
    + intros _. cbn. split.
      * apply Forall_lookup_2. intros i n Hn. rewrite list_lookup_imap in Hn. destruct (nodes !! i); [|done]. cbn in Hn. injection Hn as <-. unfold Table.nodeOK. reflexivity.
      * apply list_eq. intros i. rewrite !list_lookup_fmap, list_lookup_imap. by destruct (nodes !! i).
Qed.

(** A refresh that found nothing adds the seeds that answered. *)
Lemma doRefreshTable_idle tab found replies : found ≠ [] → doRefreshTable tab found replies = tab.
Proof. unfold doRefreshTable. by destruct found. Qed.

Lemma UpdateNode_crash {K : KV} (db : kvT) id nodetype : dbNode db 0 id = None ↔ UpdateNode db id nodetype = Crash.
Proof. unfold UpdateNode. destruct (dbNode db 0 id) as [n|]; [|done]. destruct (updateNode _ _); done. Qed.

(** ** Instances *)

Lemma refreshes_rexecAll l s s' : refreshes s → rexecAll l s = RMoves s' → refreshes s'.
Proof.
  revert s. induction l as [|a l IH]; intros s HR; cbn; [by intros [= <-]|]. destruct (rexec a s) as [s1| |] eqn:HE; [|done..].
  apply IH. by eapply refreshes_step.
Qed.

Definition rafter (l : list ract) : refresher := match rexecAll l refreshStart with RMoves s => s | _ => refreshStart end.

(** Two callers share one refresh. *)
Definition exShared : list ract := [CallRefresh; CallRefresh; RMain (OnRequest 0); RMain (OnRequest 1)].

Lemma refresh_invariant_witness : rThreads (rafter exShared) = [RqWait 0; RqWait 1; DoRefresh 2] ∧
  ∀ t, rThreads (rafter exShared) !! t = Some (DoRefresh 2) → t = 2%nat.
Proof.
  split; [vm_compute; reflexivity|]. intros t Ht.
  apply (refresh_invariant (rafter exShared)) with (d := 2%nat) (d' := 2%nat);
    [apply (refreshes_rexecAll exShared refreshStart); [constructor|vm_compute; reflexivity]|exact Ht|vm_compute; reflexivity].
Defined.

(** The refresh ends while the table is being closed. *)
Definition exClosed : list ract :=
  exShared ++ [CallClose; RMain (OnCloseReq 3); RMain RTau; RTh 2 RReturns; RMain RTau; RMain RTau; RMain RTau; RMain RTau;
               RTh 0 RTau; RTh 1 RTau; RTh 3 RTau].

Lemma exClosed_stuck : rstuck (rafter exClosed).
Proof.
  intros c Hc. split; [by destruct c as [| |[|[|[|[|]]]]| |[|[|[|[|]]]]| |]|]. intros [|[|[|[|t]]]]; destruct c; done.
Qed.

Lemma refresh_progress_witness : (∃ t d, rThreads (rafter exClosed) !! t = Some (DoRefresh d)) ∨ Forall (fun p => p = REnded) (rThreads (rafter exClosed)).
Proof.
  apply (refresh_progress (rafter exClosed)); [|exact exClosed_stuck].
  apply (refreshes_rexecAll exClosed refreshStart); [constructor|vm_compute; reflexivity].
Defined.
