(* ===== verification/ServerLife.v ===== *)
(** * Starting, listening and stopping of the server

    [src/p2p/server.go]: [Start] and [Stop], the loop that accepts connections with its
    limit on connections in handshakes ([listenLoop]), the two checkpoints of a connection
    that is set up ([setupConn], [checkpoint]) and the end of [run].  What [run] decides is
    the subject of [Server]; here it is a partner of the goroutines that wait for its
    answers, with one step for each channel operation and each use of [srv.lock].  The cases of
    its [select] that return to it at once are left out.  Handshakes, [Accept] and the shutdown of
    table and peers are the choice of the environment.

    Properties: the connections that are being set up never exceed the limit, the
    channel [quit] is closed once, and the wait group counts the two loops
    ([server_life]).  [Stop] holds the lock while it waits for the loops, which need it:
    it can wait for ever in three ways ([Stop_waits]), of which two are shown to be
    reached and final ([Stop_deadlock_self], [Stop_deadlock_cont]).  A [Start] that fails for a
    missing key makes [Stop] panic ([Start_failed]). *)

From stdpp Require Import base list strings.
From Stdlib Require Import ZArith Lia.
From S2P Require Import Prelude.
Local Open Scope go_scope.

(** ** Start and Stop, one after the other *)

(** The fields [Start] sets; [None] is the nil channel, [Some] says whether it is closed. *)
Record life := {
  lRunning : bool;
  lQuit : option bool;
  lListener : bool;
  lTable : bool;
  lLoops : nat
}.

Definition newServer : life := {| lRunning := false; lQuit := None; lListener := false; lTable := false; lLoops := 0 |}.

#[export] Instance life_eta : Eta life :=
  fun s => {| lRunning := lRunning s; lQuit := lQuit s; lListener := lListener s; lTable := lTable s; lLoops := lLoops s |}.

(** What [Start] depends on: the key, discovery with the outcome of opening the table and of its
    fallback nodes, the address with the outcome of listening, address translation. *)
Record startEnv := {
  hasKey : bool;
  discovery : bool;
  udpErr : option string;
  fallbackErr : option string;
  listenAddr : bool;
  listenErr : option string;
  mapsPort : bool
}.

(** [startListening]: the loops it starts. *)
Definition startListening (e : startEnv) (s : life) : life * option string :=
  match listenErr e with
  | Some err => (s, Some err)
  | None => (s <| lListener := true |> <| lLoops := (lLoops s + 1 + if mapsPort e then 1 else 0)%nat |>, None)
  end.

Definition Start (e : startEnv) (s : life) : life * option string :=
  if lRunning s then (s, Some "server already running"%string)
  else
    let s := s <| lRunning := true |> in
    if negb (hasKey e) then (s, Some "Server.PrivateKey must be set to a non-nil key"%string)
    else
      let s := s <| lQuit := Some false |> in
      match (if discovery e then match udpErr e with Some err => (s, Some err) | None =>
                match fallbackErr e with Some err => (s, Some err) | None => (s <| lTable := true |>, None) end end
             else (s, None)) with
      | (s, Some err) => (s, Some err)
      | (s, None) =>
          match (if listenAddr e then startListening e s else (s, None)) with
          | (s, Some err) => (s, Some err)
          | (s, None) => (s <| lLoops ::= S |>, None)
          end
      end.

(** [Stop] up to the wait: [close] of a nil or closed channel panics. *)
Definition StopClose (s : life) : gores life :=
  if negb (lRunning s) then Ret s
  else
    let s := s <| lRunning := false |> in
    match lQuit s with
    | Some false => Ret (s <| lQuit := Some true |>)
    | _ => Crash
    end.

(** ** The goroutines *)

(** The point a goroutine has reached.  [inb] says that the connection holds a slot of the
    listen loop, [k] that it is at the second checkpoint. *)
Inductive cpc :=
| CLock (inb : bool) (* setupConn: srv.lock.Lock() *)
| CEnc (inb : bool) (* c.doEncHandshake *)
| CStage (inb k : bool) (* checkpoint: stage <- c *)
| CCont (inb k : bool) (* checkpoint: <-c.cont *)
| CProto (inb : bool) (* c.doProtoHandshake *)
| CSlot (* slots <- struct{}{} *)
| CEnded
| TLock (* Stop: srv.lock.Lock() *)
| TClose (* close(srv.quit) *)
| TWait (* srv.loopWG.Wait() *)
| TUnlock.

(** The loop [run]; [t] is the connection it deals with. *)
Inductive qpc :=
| QSelect
| QSelf (t : nat) (k : bool) (* srv.Self() in encHandshakeChecks *)
| QCont (t : nat) (ok : bool) (* c.cont <- err *)
| QDown (* the table is closed, the peers are disconnected *)
| QEnd.

Inductive kpc :=
| KNone
| KSlot (* <-slots *)
| KAccept (* srv.listener.Accept() *)
| KEnd.

Record srv := {
  limit : nat;
  lock_ : option nat;
  running_ : bool;
  quit_ : bool;
  wg_ : nat;
  loop : qpc;
  listen : kpc;
  slots : nat;
  conns : list cpc
}.

#[export] Instance srv_eta : Eta srv :=
  fun s => {| limit := limit s; lock_ := lock_ s; running_ := running_ s; quit_ := quit_ s; wg_ := wg_ s; loop := loop s;
              listen := listen s; slots := slots s; conns := conns s |}.

Definition maxAcceptConns : nat := 50.

(** [tokens] of [listenLoop]. *)
Definition acceptLimit (maxPendingPeers : Z) : nat := if (0 <? maxPendingPeers)%Z then Z.to_nat maxPendingPeers else maxAcceptConns.

Definition srvStart (listening : bool) (maxPendingPeers : Z) : srv :=
  {| limit := acceptLimit maxPendingPeers; lock_ := None; running_ := true; quit_ := false; wg_ := if listening then 2 else 1; loop := QSelect;
     listen := if listening then KSlot else KNone; slots := acceptLimit maxPendingPeers; conns := [] |}.

Inductive smoved :=
| SMoves (s : srv)
| SStays
| SDies (why : string).

(** What [run] finds before it asks for the own identity: an error, no error (a moving node at the second
    checkpoint), or that it has to ask. *)
Inductive verdict := Refuse | Admit | Ask.

Inductive schoice :=
| STau
| OnQuit
| OnStage (t : nat) (v : verdict)
| OnSelf (same : bool)
| Accepts
| AcceptFails
| Shaken (ok : bool)
| DownEnds.

Inductive sact :=
| SLoop (c : schoice)
| SListen (c : schoice)
| STh (t : nat) (c : schoice)
| CallStop
| CallDial.

Definition sgoto (t : nat) (p : cpc) (s : srv) : srv := s <| conns ::= fun l => <[t := p]> l |>.
Definition sspawn (p : cpc) (s : srv) : srv := s <| conns ::= fun l => l ++ [p] |>.

Definition lockFree (s : srv) : bool := bool_decide (lock_ s = None).

(** The end of [setupConn]. *)
Definition leave (inb : bool) : cpc := if inb then CSlot else CEnded.

Definition sexecLoop (c : schoice) (s : srv) : smoved :=
  match loop s, c with
  | QSelect, OnQuit => if quit_ s then SMoves (s <| loop := QDown |>) else SStays
  | QSelect, OnStage t v =>
      match conns s !! t with
      | Some (CStage inb k) =>
          let s := sgoto t (CCont inb k) s in
          match v with
          | Refuse => SMoves (s <| loop := QCont t false |>)
          | Ask => SMoves (s <| loop := QSelf t k |>)
          | Admit => if k then SMoves (s <| loop := QCont t true |>) else SStays
          end
      | _ => SStays
      end
  | QSelf t _, OnSelf same => if lockFree s then SMoves (s <| loop := QCont t (negb same) |>) else SStays
  | QCont t ok, STau =>
      match conns s !! t with
      | Some (CCont inb k) => SMoves (sgoto t (if ok then (if k then leave inb else CProto inb) else leave inb) (s <| loop := QSelect |>))
      | _ => SStays
      end
  | QDown, DownEnds => SMoves (s <| loop := QEnd |> <| wg_ ::= pred |>)
  | _, _ => SStays
  end.

Definition sexecListen (c : schoice) (s : srv) : smoved :=
  match listen s, c with
  | KSlot, STau => match slots s with O => SStays | S n => SMoves (s <| slots := n |> <| listen := KAccept |>) end
  | KAccept, Accepts => if running_ s then SMoves (sspawn (CLock true) (s <| listen := KSlot |>)) else SStays
  | KAccept, AcceptFails => SMoves (s <| listen := KEnd |> <| wg_ ::= pred |>)
  | KAccept, STau => if running_ s then SStays else SMoves (s <| listen := KEnd |> <| wg_ ::= pred |>)
  | _, _ => SStays
  end.

Definition sexecThread (t : nat) (c : schoice) (s : srv) : smoved :=
  match conns s !! t with
  | None => SStays
  | Some p =>
      match p, c with
      | CLock inb, STau => if lockFree s then SMoves (sgoto t (if running_ s then CEnc inb else leave inb) s) else SStays
      | CEnc inb, Shaken ok => SMoves (sgoto t (if ok then CStage inb false else leave inb) s)
      | CStage inb _, OnQuit => if quit_ s then SMoves (sgoto t (leave inb) s) else SStays
      | CCont inb _, OnQuit => if quit_ s then SMoves (sgoto t (leave inb) s) else SStays
      | CProto inb, Shaken ok => SMoves (sgoto t (if ok then CStage inb true else leave inb) s)
      | CSlot, STau => if Nat.ltb (slots s) (limit s) then SMoves (sgoto t CEnded (s <| slots ::= S |>)) else SStays
      | TLock, STau => if lockFree s then SMoves (sgoto t (if running_ s then TClose else TUnlock) (s <| lock_ := Some t |>)) else SStays
      | TClose, STau =>
          if quit_ s then SDies "close of closed channel" else SMoves (sgoto t TWait (s <| running_ := false |> <| quit_ := true |>))
      | TWait, STau => if Nat.eqb (wg_ s) 0 then SMoves (sgoto t TUnlock s) else SStays
      | TUnlock, STau => SMoves (sgoto t CEnded (s <| lock_ := None |>))
      | _, _ => SStays
      end
  end.

Definition sexec (a : sact) (s : srv) : smoved :=
  match a with
  | SLoop c => sexecLoop c s
  | SListen c => sexecListen c s
  | STh t c => sexecThread t c s
  | CallStop => SMoves (sspawn TLock s)
  | CallDial => SMoves (sspawn (CLock false) s)
  end.

Inductive lives : srv → Prop :=
| lives_start listening maxPending : lives (srvStart listening maxPending)
| lives_step s a s' : lives s → sexec a s = SMoves s' → lives s'.

Fixpoint sexecAll (l : list sact) (s : srv) : smoved :=
  match l with
  | [] => SMoves s
  | a :: l => match sexec a s with SMoves s => sexecAll l s | r => r end
  end.

(** ** Invariant *)

(** Goroutines that hold a slot; goroutines that hold the lock. *)
Definition holds (p : cpc) : nat :=
  match p with CLock true | CEnc true | CStage true _ | CCont true _ | CProto true | CSlot => 1 | _ => 0 end.
Definition owns (p : cpc) : bool := match p with TClose | TWait | TUnlock => true | _ => false end.

(** The listen loop keeps the slot it took when [Accept] fails. *)
Definition taken (k : kpc) : nat := match k with KAccept | KEnd => 1 | _ => 0 end.
Definition loops (q : qpc) (k : kpc) : nat := (match q with QEnd => 0 | _ => 1 end) + (match k with KSlot | KAccept => 1 | _ => 0 end).

Record SInv (s : srv) : Prop := {
  si_slots : (slots s + taken (listen s) + sum_list_with holds (conns s) = limit s)%nat;
  si_wg : wg_ s = loops (loop s) (listen s);
  si_lock : ∀ t p, conns s !! t = Some p → owns p = true ↔ lock_ s = Some t;
  si_owner : ∀ t, lock_ s = Some t → (t < length (conns s))%nat;
  si_quit : quit_ s = negb (running_ s);
  si_close : ∀ t, conns s !! t = Some TClose → running_ s = true;
  si_wait : ∀ t, conns s !! t = Some TWait → running_ s = false
}.

Lemma SInv_start b m : SInv (srvStart b m).
Proof. split; try done; destruct b; cbn; try done; lia. Qed.

(** A goroutine that neither takes nor gives up the lock. *)
Lemma SInv_goto s s' t p q : SInv s → conns s !! t = Some p → conns s' = <[t := q]> (conns s) → owns q = owns p → q ≠ TClose → q ≠ TWait →
  (limit s', lock_ s', running_ s', quit_ s') = (limit s, lock_ s, running_ s, quit_ s) →
  (slots s' + taken (listen s') + holds q = slots s + taken (listen s) + holds p)%nat → wg_ s' = loops (loop s') (listen s') → SInv s'.
Proof.
  intros [H1 H2 H3 H4 H5 H6 H7] Ht Hc Ho Hq Hq' [= E1 E2 E3 E4] Hs Hw. split; rewrite ?E1, ?E2, ?E3, ?E4, ?Hc; try done.
  - pose proof (sum_list_with_insert holds _ _ _ q Ht). lia.
  - intros t' p' [(-> & -> & _)|(Hne & Hx)]%list_lookup_insert_Some; [rewrite Ho; by apply H3|by apply H3].
  - by rewrite length_insert.
  - intros t' [(_ & -> & _)|(Hne & Hx)]%list_lookup_insert_Some; [done|by eapply H6].
  - intros t' [(_ & -> & _)|(Hne & Hx)]%list_lookup_insert_Some; [done|by eapply H7].
Qed.

(** The loops move without touching the goroutines. *)
Lemma SInv_same s s' : SInv s → (limit s', lock_ s', running_ s', quit_ s', conns s') = (limit s, lock_ s, running_ s, quit_ s, conns s) →
  (slots s' + taken (listen s') = slots s + taken (listen s))%nat → wg_ s' = loops (loop s') (listen s') → SInv s'.
Proof. intros [H1 H2 H3 H4 H5 H6 H7] [= E1 E2 E3 E4 E5] Hs Hw. split; rewrite ?E1, ?E2, ?E3, ?E4, ?E5; try done. lia. Qed.

(** A goroutine starts. *)
Lemma SInv_spawn s s' q : SInv s → conns s' = conns s ++ [q] → owns q = false →
  (limit s', lock_ s', running_ s', quit_ s') = (limit s, lock_ s, running_ s, quit_ s) →
  (slots s' + taken (listen s') + holds q = slots s + taken (listen s))%nat → wg_ s' = loops (loop s') (listen s') → SInv s'.
Proof.
  intros [H1 H2 H3 H4 H5 H6 H7] Hc Ho [= E1 E2 E3 E4] Hs Hw. split; rewrite ?E1, ?E2, ?E3, ?E4, ?Hc; try done.
  - rewrite sum_list_with_app. cbn. lia.
  - intros t p [Hx|[Hlt Hx]]%lookup_app_Some; [by apply H3|]. destruct (t - length (conns s))%nat; [|done]. injection Hx as <-. rewrite Ho. split; [done|].
    intros Hl%H4. lia.
  - intros t Hl%H4. rewrite length_app. lia.
  - intros t [Hx|[Hlt Hx]]%lookup_app_Some; [by eapply H6|]. destruct (t - length (conns s))%nat; [|done]. injection Hx as ->. done.
  - intros t [Hx|[Hlt Hx]]%lookup_app_Some; [by eapply H7|]. destruct (t - length (conns s))%nat; [|done]. injection Hx as ->. done.
Qed.

Lemma holds_leave inb : holds (leave inb) = if inb then 1%nat else 0%nat.
Proof. by destruct inb. Qed.

Lemma SInv_loop c s s' : SInv s → sexecLoop c s = SMoves s' → SInv s'.
Proof.
  intros I. pose proof (si_wg _ I) as Hw. unfold sexecLoop. destruct (loop s) as [|t k|t ok| |] eqn:Hl, c as [| |t' v| | | | |]; try done.
  - destruct (quit_ s); [|done]. intros [= <-]. eapply SInv_same; [exact I|done|done|]. exact Hw.
  - destruct (conns s !! t') as [[| |inb k| | | | | | | |]|] eqn:Ht; try done. destruct v; [| |]; try (destruct k; [|done]); intros [= <-];
      (eapply SInv_goto; [exact I|exact Ht|done|done|done|done|done|by destruct inb|exact Hw]).
  - destruct (lockFree s); [|done]. intros [= <-]. eapply SInv_same; [exact I|done|done|]. exact Hw.
  - destruct (conns s !! t) as [[| | |inb k| | | | | | |]|] eqn:Ht; try done. intros [= <-].
    eapply SInv_goto; [exact I|exact Ht|done|..|done| |exact Hw]; by destruct ok, k, inb.
  - intros [= <-]. eapply SInv_same; [exact I|done|done|]. cbn in *. by rewrite Hw.
Qed.

Lemma SInv_listen c s s' : SInv s → sexecListen c s = SMoves s' → SInv s'.
Proof.
  intros I. pose proof (si_wg _ I) as Hw. unfold sexecListen. destruct (listen s) eqn:Hl, c; try done.
  - destruct (slots s) as [|n] eqn:Hs; [done|]. intros [= <-]. eapply SInv_same; [exact I|done| |]; cbn; rewrite ?Hl; [cbn; lia|exact Hw].
  - destruct (running_ s); [done|]. intros [= <-]. eapply SInv_same; [exact I|done| |]; cbn; rewrite ?Hl; [done|]. rewrite Hw. unfold loops. destruct (loop s); done.
  - destruct (running_ s); [|done]. intros [= <-]. eapply SInv_spawn; [exact I|done|done|done| |]; cbn; rewrite ?Hl; [cbn; lia|exact Hw].
  - intros [= <-]. eapply SInv_same; [exact I|done| |]; cbn; rewrite ?Hl; [done|]. rewrite Hw. unfold loops. destruct (loop s); done.
Qed.

(** The lock is taken by [Stop]; it is given back. *)
Lemma SInv_lock s t p q l r u : SInv s → conns s !! t = Some p →
  (l = Some t ∧ owns q = true ∧ (lock_ s = None ∨ lock_ s = Some t) ∨ l = None ∧ owns q = false ∧ lock_ s = Some t) →
  (holds p = 0%nat ∧ holds q = 0%nat) → u = negb r → (q = TClose → r = true) → (running_ s = true → r = false → p = TClose) → (q = TWait → r = false) → (r = true → running_ s = true) →
  SInv (sgoto t q (s <| lock_ := l |> <| running_ := r |> <| quit_ := u |>)).
Proof.
  intros [H1 H2 H3 H4 H5 H6 H7] Ht Hl [Hp Hq] Hu Hc Hr Hv Hr'. pose proof (lookup_lt_Some _ _ _ Ht) as Hlt. split; try done; cbn -[sum_list_with].
  - pose proof (sum_list_with_insert holds _ _ _ q Ht). lia.
  - intros t' p' [(-> & -> & _)|(Hne & Hx)]%list_lookup_insert_Some.
    + destruct Hl as [(-> & -> & _)|(-> & -> & _)]; done.
    + rewrite (H3 t' p' Hx). destruct Hl as [(-> & _ & [->| ->])|(-> & _ & ->)]; split; congruence.
  - intros t' Hx. rewrite length_insert. destruct Hl as [(-> & _)|(-> & _)]; congruence.
  - intros t' [(-> & -> & _)|(Hne & Hx)]%list_lookup_insert_Some; [by apply Hc|]. pose proof (H6 t' Hx) as Hrun. destruct r; [done|]. pose proof (Hr Hrun eq_refl) as ->.
    exfalso. apply Hne. pose proof (proj1 (H3 t' _ Hx) eq_refl). pose proof (proj1 (H3 t _ Ht) eq_refl). congruence.
  - intros t' [(-> & -> & _)|(Hne & Hx)]%list_lookup_insert_Some; [by apply Hv|]. pose proof (H7 t' Hx) as Hrun. destruct r; [|done]. rewrite Hr' in Hrun by done. done.
Qed.

Lemma SInv_thread t c s s' : SInv s → sexecThread t c s = SMoves s' → SInv s'.
Proof.
  intros I. pose proof (si_wg _ I) as Hw. pose proof (si_quit _ I) as Hq. unfold sexecThread, lockFree. destruct (conns s !! t) as [p|] eqn:Ht; [|done].
  destruct p as [inb|inb|inb k|inb k|inb| | | | | |], c as [| | | | | |ok|]; try done; try (destruct (quit_ s) eqn:Hqs; [|done]); try (case_bool_decide as Hfree; [|done]);
    try (intros [= <-]; eapply SInv_goto; [exact I|exact Ht|done| | | |done| |exact Hw]; try (by destruct ok, inb); try (by destruct (running_ s), inb); by destruct inb).
  - destruct (Nat.ltb_spec (slots s) (limit s)); [|done]. intros [= <-]. eapply SInv_goto; [exact I|exact Ht|done|done|done|done|done|cbn; lia|exact Hw].
  - intros [= <-]. pose proof (SInv_lock s t _ (if running_ s then TClose else TUnlock) (Some t) (running_ s) (quit_ s) I Ht) as H.
    destruct s. apply H; [left; destruct running_0; auto|by destruct running_0|done|by destruct running_0|by intros ->|by destruct running_0|done].
  - destruct (quit_ s) eqn:Hqs; [done|]. intros [= <-]. pose proof (SInv_lock s t _ TWait (Some t) false true I Ht) as H.
    pose proof (proj1 (si_lock _ I t _ Ht) eq_refl) as Hl. destruct s. cbn in Hl. subst. apply H; [left; auto|done..].
  - destruct (Nat.eqb_spec (wg_ s) 0); [|done]. intros [= <-]. by eapply SInv_goto.
  - intros [= <-]. pose proof (SInv_lock s t _ CEnded None (running_ s) (quit_ s) I Ht) as H. pose proof (proj1 (si_lock _ I t _ Ht) eq_refl) as Hl.
    destruct s. cbn in Hl. subst. apply H; [right; auto|done|done|done|by intros ->|done|done].
Qed.

Lemma SInv_exec a s s' : SInv s → sexec a s = SMoves s' → SInv s'.
Proof.
  intros I. pose proof (si_wg _ I) as Hw. destruct a as [c|c|t c| |]; cbn; [by apply SInv_loop|by apply SInv_listen|by apply SInv_thread|..]; intros [= <-];
    (eapply SInv_spawn; [exact I|done|done|done|cbn; lia|exact Hw]).
Qed.

Lemma lives_SInv s : lives s → SInv s.
Proof. induction 1 as [b m|s a s' _ IH HE]; [apply SInv_start|by eapply SInv_exec]. Qed.

(** Under every interleaving of the loops, the connections that are set up and the callers of
    [Stop]: [quit] is closed at most once; the connections that hold a slot are never more than
    the limit, and giving a slot back does not wait; the wait group counts the loops that run;
    two callers are never inside [Stop] at once. *)
Theorem server_life s : lives s →
  (∀ a why, sexec a s ≠ SDies why) ∧
  (sum_list_with holds (conns s) ≤ limit s)%nat ∧
  (∀ t, conns s !! t = Some CSlot → ∃ s', sexec (STh t STau) s = SMoves s') ∧
  wg_ s = loops (loop s) (listen s) ∧
  (∀ t t' p p', conns s !! t = Some p → conns s !! t' = Some p' → owns p = true → owns p' = true → t = t').
Proof.
  intros I%lives_SInv. split_and!.
  - intros [c|c|t c| |] why; cbn; [| | |done|done].
    + unfold sexecLoop. repeat case_match; done.
    + unfold sexecListen. repeat case_match; done.
    + unfold sexecThread. destruct (conns s !! t) as [p|] eqn:Ht; [|done]. destruct p, c; try done; repeat case_match; try done.
      pose proof (si_close _ I t Ht) as Hr. pose proof (si_quit _ I) as Hq. rewrite Hr in Hq. cbn in Hq. congruence.
  - pose proof (si_slots _ I). lia.
  - intros t Ht. cbn. unfold sexecThread. rewrite Ht. pose proof (si_slots _ I). pose proof (sum_list_with_lookup holds _ _ _ Ht) as Hh. cbn in Hh.
    rewrite (proj2 (Nat.ltb_lt _ _)) by lia. eauto.
  - apply (si_wg _ I).
  - intros t t' p p' Ht Ht' Hp Hp'. apply (si_lock _ I t p Ht) in Hp. apply (si_lock _ I t' p' Ht') in Hp'. congruence.
Qed.

(** ** What Stop waits for *)

(** Steps that need neither a handshake nor [Accept] nor the shutdown of table and peers. *)
Definition sinternal (c : schoice) : bool :=
  match c with STau | OnQuit | OnStage _ _ | OnSelf _ => true | _ => false end.

Definition sstuck (s : srv) : Prop :=
  ∀ c, sinternal c = true → sexecLoop c s = SStays ∧ sexecListen c s = SStays ∧ ∀ t, sexecThread t c s = SStays.

(** When nothing moves without the outside world and [Stop] still waits for the loops, then [run] is
    shutting down, or [run] needs the lock [Stop] holds, or it answers a connection
    that has left because of [quit], or the listen loop waits for a slot while all slots are
    with connections. *)
Theorem Stop_waits s t : lives s → sstuck s → conns s !! t = Some TWait →
  loop s = QDown ∨
  (∃ t' k, loop s = QSelf t' k ∧ lock_ s = Some t) ∨
  (∃ t' ok, loop s = QCont t' ok ∧ ∀ inb k, conns s !! t' ≠ Some (CCont inb k)) ∨
  (listen s = KSlot ∧ sum_list_with holds (conns s) = limit s).
Proof.
  intros I%lives_SInv Hs Ht. pose proof (proj1 (si_lock _ I t _ Ht) eq_refl) as Hl. destruct (Hs STau eq_refl) as (Hq & Hk & Hth).
  specialize (Hth t). unfold sexecThread in Hth. rewrite Ht in Hth. destruct (Nat.eqb_spec (wg_ s) 0) as [|Hw]; [done|].
  rewrite (si_wg _ I) in Hw. pose proof (si_wait _ I t Ht) as Hr. pose proof (si_quit _ I) as Hqs. rewrite Hr in Hqs.
  destruct (loop s) as [|t' k|t' ok| |] eqn:Hlp; [| |right; right; left|by left|].
  - destruct (Hs OnQuit eq_refl) as (Hx & _). unfold sexecLoop in Hx. by rewrite Hlp, Hqs in Hx.
  - right. left. eauto.
  - exists t', ok. split; [done|]. intros inb k Hx. unfold sexecLoop in Hq. by rewrite Hlp, Hx in Hq.
  - right. right. right. unfold loops in Hw. unfold sexecListen in Hk. destruct (listen s) eqn:Hls; try lia.
    + split; [done|]. destruct (slots s) eqn:Hsl; [|done]. pose proof (si_slots _ I) as E. rewrite Hls, Hsl in E. cbn in E. lia.
    + by rewrite Hr in Hk.
Qed.

(** ** Deadlocks *)

(** [run] asks for the own identity while [Stop] holds the lock and waits for it. *)
Definition deadSelf (t : nat) (s : srv) : Prop := conns s !! t = Some TWait ∧ ∃ t' k, loop s = QSelf t' k.

(** [run] answers a connection that has left. *)
Definition deadCont (t t' : nat) (s : srv) : Prop :=
  conns s !! t = Some TWait ∧ (∃ ok, loop s = QCont t' ok) ∧ ∃ p, conns s !! t' = Some p ∧ (p = CSlot ∨ p = CEnded).

(** A goroutine that waits in [Stop] stays there while a loop runs. *)
Lemma TWait_stays a s s' t : SInv s → loop s ≠ QEnd → sexec a s = SMoves s' → conns s !! t = Some TWait → conns s' !! t = Some TWait.
Proof.
  intros I Hl HE Ht. assert (Hw : wg_ s ≠ 0%nat) by (rewrite (si_wg _ I); unfold loops; by destruct (loop s)).
  pose proof (lookup_lt_Some _ _ _ Ht) as Hlt.
  assert (Hother : ∀ t' p q, conns s !! t' = Some p → p ≠ TWait → <[t' := q]> (conns s) !! t = Some TWait).
  { intros t' p q Hp Hne. rewrite list_lookup_insert_ne; [done|]. intros ->. congruence. }
  destruct a as [c|c|t' c| |]; cbn in HE.
  - unfold sexecLoop in HE. repeat case_match; simplify_eq; cbn; eauto; by eapply Hother.
  - unfold sexecListen in HE. repeat case_match; simplify_eq; cbn; eauto. by rewrite lookup_app_l.
  - unfold sexecThread in HE. destruct (conns s !! t') as [p|] eqn:Hp; [|done]. destruct p, c; try done; repeat case_match; simplify_eq; cbn; try (by eapply Hother).
    by rewrite Nat.eqb_eq in *.
  - injection HE as <-. cbn. by rewrite lookup_app_l.
  - injection HE as <-. cbn. by rewrite lookup_app_l.
Qed.

Lemma loop_kept a s s' : (∀ c, a ≠ SLoop c) → sexec a s = SMoves s' → loop s' = loop s.
Proof.
  intros Ha HE. destruct a as [c|c|t c| |]; cbn in HE; [by destruct (Ha c)| | |by injection HE as <-|by injection HE as <-].
  - unfold sexecListen in HE. repeat case_match; by simplify_eq.
  - unfold sexecThread in HE. repeat case_match; by simplify_eq.
Qed.

Lemma deadSelf_step a s s' t : SInv s → deadSelf t s → sexec a s = SMoves s' → deadSelf t s'.
Proof.
  intros I [Ht (t' & k & Hl)] HE. split; [eapply TWait_stays; [done|by rewrite Hl|done..]|]. exists t', k.
  destruct a as [c|c|u c| |]; [|by (erewrite loop_kept; [exact Hl| |exact HE])..].
  exfalso. cbn in HE. unfold sexecLoop, lockFree in HE. rewrite Hl, (proj1 (si_lock _ I t _ Ht) eq_refl) in HE. by destruct c.
Qed.

(** A connection that has left stays away. *)
Lemma left_stays a s s' t ok : loop s = QCont t ok → (∃ p, conns s !! t = Some p ∧ (p = CSlot ∨ p = CEnded)) → sexec a s = SMoves s' →
  loop s' = loop s ∧ ∃ p, conns s' !! t = Some p ∧ (p = CSlot ∨ p = CEnded).
Proof.
  intros Hl (p & Hp & Hc) HE. pose proof (lookup_lt_Some _ _ _ Hp) as Hlt. destruct a as [c|c|t' c| |].
  - exfalso. cbn in HE. unfold sexecLoop in HE. rewrite Hl in HE. destruct c; try done. rewrite Hp in HE. by destruct Hc as [->| ->].
  - split; [by apply loop_kept in HE|]. exists p. cbn in HE. unfold sexecListen in HE. repeat case_match; simplify_eq; cbn; try done. by rewrite lookup_app_l.
  - split; [by apply loop_kept in HE|]. cbn in HE. unfold sexecThread in HE. destruct (conns s !! t') as [p'|] eqn:Hp'; [|done]. destruct (decide (t' = t)) as [->|Hne].
    + assert (p' = p) as -> by congruence. destruct Hc as [->| ->]; destruct c; try done. case_match; simplify_eq. cbn.
      exists CEnded. split; [|by right]. by rewrite list_lookup_insert_eq.
    + exists p. split; [|done]. destruct p', c; try done; repeat case_match; simplify_eq; cbn; by rewrite list_lookup_insert_ne.
  - split; [by apply loop_kept in HE|]. injection HE as <-. cbn. rewrite lookup_app_l by done. eauto.
  - split; [by apply loop_kept in HE|]. injection HE as <-. cbn. rewrite lookup_app_l by done. eauto.
Qed.

Lemma deadCont_step a s s' t t' : SInv s → deadCont t t' s → sexec a s = SMoves s' → deadCont t t' s'.
Proof.
  intros I (Ht & [ok Hl] & Hc) HE. destruct (left_stays a s s' t' ok Hl Hc HE) as [Hl' Hc']. split; [eapply TWait_stays; [done|by rewrite Hl|done..]|].
  split; [|done]. exists ok. congruence.
Qed.

(** A property of the state that steps keep is kept. *)
Lemma kept_always (P : srv → Prop) l s s' : (∀ a s s', SInv s → P s → sexec a s = SMoves s' → P s') → SInv s → P s → sexecAll l s = SMoves s' → P s'.
Proof.
  intros Hstep. revert s. induction l as [|a l IH]; intros s I HP; cbn; [by intros [= <-]|]. destruct (sexec a s) as [s1| |] eqn:HE; [|done..].
  apply IH; [by eapply SInv_exec|by eapply Hstep].
Qed.

Lemma lives_sexecAll l s s' : lives s → sexecAll l s = SMoves s' → lives s'.
Proof.
  revert s. induction l as [|a l IH]; intros s HR; cbn; [by intros [= <-]|]. destruct (sexec a s) as [s1| |] eqn:HE; [|done..].
  apply IH. by eapply lives_step.
Qed.

(** A connection has finished its encryption handshake when [Stop] is called. *)
Definition shakenStop : list sact :=
  [SListen STau; SListen Accepts; STh 0 STau; STh 0 (Shaken true); CallStop; STh 1 STau; STh 1 STau].

(** [run] takes the connection although [quit] is closed: [Stop] never returns. *)
Lemma Stop_deadlock_self : ∃ s, sexecAll (shakenStop ++ [SLoop (OnStage 0 Ask)]) (srvStart true 0) = SMoves s ∧ deadSelf 1 s ∧
  ∀ l s', sexecAll l s = SMoves s' → conns s' !! 1%nat = Some TWait.
Proof.
  eexists. split; [vm_compute; reflexivity|]. match goal with |- deadSelf _ ?x ∧ _ => set (s := x) end.
  assert (Hd : deadSelf 1 s) by (split; [done|by exists 0%nat, false]). split; [done|]. intros l s' HE.
  apply (kept_always (deadSelf 1) l s s'); [intros; by eapply deadSelf_step| |done|done].
  apply lives_SInv, (lives_sexecAll (shakenStop ++ [SLoop (OnStage 0 Ask)]) (srvStart true 0)); [constructor|vm_compute; reflexivity].
Qed.

(** [run] is about to answer and the connection leaves because of [quit]. *)
Lemma Stop_deadlock_cont : ∃ s, sexecAll (shakenStop ++ [SLoop (OnStage 0 Refuse); STh 0 OnQuit]) (srvStart true 0) = SMoves s ∧ deadCont 1 0 s ∧
  ∀ l s', sexecAll l s = SMoves s' → conns s' !! 1%nat = Some TWait.
Proof.
  eexists. split; [vm_compute; reflexivity|]. match goal with |- deadCont _ _ ?x ∧ _ => set (s := x) end.
  assert (Hd : deadCont 1 0 s) by (split; [done|]; split; [by exists false|]; exists CSlot; auto). split; [done|]. intros l s' HE.
  apply (kept_always (deadCont 1 0) l s s'); [intros; by eapply deadCont_step| |done|done].
  apply lives_SInv, (lives_sexecAll (shakenStop ++ [SLoop (OnStage 0 Refuse); STh 0 OnQuit]) (srvStart true 0)); [constructor|vm_compute; reflexivity].
Qed.

(** ** Start *)

(** A server that started can be stopped; [Start] without a key fails, but leaves the server
    running: it cannot be started again and [Stop] panics. *)
Lemma Start_failed e : (hasKey e = false → ∃ err, (Start e newServer).2 = Some err ∧ StopClose (Start e newServer).1 = Crash ∧
    ∀ e', (Start e' (Start e newServer).1).2 = Some "server already running"%string) ∧
  (hasKey e = true → ∃ s, StopClose (Start e newServer).1 = Ret s).
Proof.
  unfold Start, startListening. cbn. split; intros ->; cbn; [eauto|].
  destruct (discovery e), (udpErr e), (fallbackErr e), (listenAddr e), (listenErr e); cbn; eauto.
Qed.

(** ** Instances *)

Definition exStopped : srv := match sexecAll (shakenStop ++ [SLoop (OnStage 0 Ask)]) (srvStart true 0) with SMoves s => s | _ => srvStart true 0 end.

Lemma exStopped_lives : lives exStopped.
Proof. apply (lives_sexecAll (shakenStop ++ [SLoop (OnStage 0 Ask)]) (srvStart true 0)); [constructor|vm_compute; reflexivity]. Qed.

Lemma server_life_witness : conns exStopped = [CCont true false; TWait] ∧ (sum_list_with holds (conns exStopped) ≤ limit exStopped)%nat.
Proof. split; [vm_compute; reflexivity|]. apply (server_life exStopped exStopped_lives). Defined.

(** The connection has left, the listen loop has ended: only [run] is left, waiting for the lock. *)
Definition exDead : list sact := shakenStop ++ [SLoop (OnStage 0 Ask); STh 0 OnQuit; STh 0 STau; SListen STau; SListen STau].
Definition exHung : srv := match sexecAll exDead (srvStart true 0) with SMoves s => s | _ => srvStart true 0 end.

Lemma exHung_stuck : sstuck exHung.
Proof.
  intros c Hc. split_and!; [by destruct c|by destruct c|]. intros [|[|t]]; by destruct c.
Qed.

Lemma Stop_waits_witness : conns exHung !! 1%nat = Some TWait ∧ (loop exHung = QDown ∨
  (∃ t' k, loop exHung = QSelf t' k ∧ lock_ exHung = Some 1%nat) ∨
  (∃ t' ok, loop exHung = QCont t' ok ∧ ∀ inb k, conns exHung !! t' ≠ Some (CCont inb k)) ∨
  (listen exHung = KSlot ∧ sum_list_with holds (conns exHung) = limit exHung)).
Proof.
  split; [vm_compute; reflexivity|]. apply (Stop_waits exHung 1).
  - apply (lives_sexecAll exDead (srvStart true 0)); [constructor|vm_compute; reflexivity].
  - exact exHung_stuck.
  - vm_compute. reflexivity.
Defined.
