(* ===== verification/ChainKD.v ===== *)
(** * Hierarchical keys

    [src/crypto-gm/sm2/chainkd]: extended private keys (32 bytes of key, 32 bytes of chain
    code) and extended public keys (33 bytes of compressed point, 32 bytes of chain code), the
    derivation of child keys, signatures with them and their text form; [Compress] and
    [Decompress] of [src/crypto-gm/sm2/sm2.go] and [VerifyCompressedPubkey] of [sm2_verify.go].
    HMAC-SHA-512 is an argument; the curve is the interface of [Sm2] with the
    decompression of points added ([PointCurve]), which [Decompress] implements.

    Properties: the public key of a child is the child of the public key, along any path
    on which the sums stay usable and have 32 bytes ([Derive_commutes]); where a sum is
    shorter, a hardened child panics and another child has a different key than its public
    key says ([hardenedChild_crash], [nonhardenedChild_short]), and a signature with a
    short component is written so that it is read as another one ([Sign_short]). *)

From stdpp Require Import base list strings.
From Stdlib Require Import ZArith Lia Zpow_facts.
From S2P Require Import Prelude Common Words RlpEncode RlpRaw BigInt P256Field P256Curve Sm2 Discover.
Local Open Scope Z_scope.

(** ** Compressed points *)

Definition getLastBit (a : Z) : Z := if Z.testbit a 0 then 1 else 0.

Definition Compress (a : PublicKey) : bytes :=
  let buf := pad32 (bigBytes (pubX a)) in (if getLastBit (pubY a) =? 0 then 2 else 3) :: buf.

(** [big.Int.ModSqrt] for a prime that is 3 modulo 4; [None] is nil. *)
Definition ModSqrt (x p : Z) : option Z :=
  let z := Zpow_mod x ((p + 1) / 4) p in if (z * z) mod p =? x mod p then Some z else None.

Definition Decompress (a : bytes) : gores PublicKey :=
  match a with
  | [] => Crash
  | a0 :: rest =>
      let x := beVal rest in
      let xx := sm2P256FromBig x in
      let xx3 := sm2P256Square xx in
      let xx3 := sm2P256Mul xx3 xx in
      let aa := sm2P256Mul (sm2P256FromBig A) xx in
      let xx3 := sm2P256Add xx3 aa in
      let xx3 := sm2P256Add xx3 (sm2P256FromBig B) in
      let y2 := sm2P256ToBig xx3 in
      match ModSqrt y2 P256Field.P with
      | None => Crash
      | Some y =>
          let y := if getLastBit y =? u64 (a0 - 2) then y else P256Field.P - y in
          Ret {| pubX := x; pubY := y |}
      end
  end.

(** A curve with the reading of compressed points. *)
Class PointCurve (C : Curve) := decompress : bytes → gores PublicKey.

#[export] Instance sm2PointCurve (C : Curve) : PointCurve C | 100 := Decompress.

(** ** Keys *)

Section Derivation.
  Context {C : Curve} {PC : PointCurve C} (hmac512 : bytes → bytes → bytes).

(** [copy(dst[:n], src)] over [n] zero bytes; over the bytes [old]. *)
Definition copyOver (old src : bytes) : bytes := take (length old) src ++ drop (length src) old.

Definition pubOf (p : Z * Z) : PublicKey := {| pubX := p.1; pubY := p.2 |}.

Definition scalarPub (k : Z) : gores PublicKey :=
  p ← curveScalarBaseMult (bigBytes k); Ret (pubOf p).

Definition XPub (xprv : bytes) : gores bytes :=
  pub ← scalarPub (beVal (take 32 xprv));
  Ret (copyOver (replicate 33 0) (Compress pub) ++ drop 32 xprv).

(** The keyed hash of a derivation: [tag] is 'N' or 'H'. *)
Definition childHash (tag : Z) (chain key sel : bytes) : bytes := hmac512 chain (tag :: key ++ sel).

Definition XPubChild (sel xpub : bytes) : gores bytes :=
  let res := childHash 78 (drop 33 xpub) (take 33 xpub) sel in
  pub ← scalarPub (beVal (take 32 res));
  parPubkey ← decompress (take 33 xpub);
  let newPubkey := pubOf (curveAdd (pubX pub) (pubY pub) (pubX parPubkey) (pubY parPubkey)) in
  Ret (copyOver (replicate 33 0) (Compress newPubkey) ++ drop 32 res).

Definition hardenedChild (xprv sel : bytes) : gores bytes :=
  let res := childHash 72 (drop 32 xprv) (take 32 xprv) sel in
  let r := (beVal (take 32 res) + beVal (take 32 xprv)) mod curveN in
  let priv := bigBytes r in
  if Nat.ltb (length priv) 32 then Crash
  else Ret (copyOver (take 32 res) (take 32 priv) ++ drop 32 res).

Definition nonhardenedChild (xprv sel : bytes) : gores bytes :=
  xpub ← XPub xprv;
  let res := childHash 78 (drop 33 xpub) (take 33 xpub) sel in
  let r := (beVal (take 32 res) + beVal (take 32 xprv)) mod curveN in
  Ret (copyOver (take 32 res) (bigBytes r) ++ drop 32 res).

Definition XPrvChild (xprv sel : bytes) (hardened : bool) : gores bytes :=
  if hardened then hardenedChild xprv sel else nonhardenedChild xprv sel.

Fixpoint XPrvDerive (path : list bytes) (xprv : bytes) : gores bytes :=
  match path with
  | [] => Ret xprv
  | p :: path => res ← XPrvChild xprv p false; XPrvDerive path res
  end.

Fixpoint XPubDerive (path : list bytes) (xpub : bytes) : gores bytes :=
  match path with
  | [] => Ret xpub
  | p :: path => res ← XPubChild p xpub; XPubDerive path res
  end.

(** [NewXKeys]; [entropy] are the 32 bytes read, if they could be read. *)
Definition NewXKeys (entropy : option bytes) : gores (bytes * bytes) :=
  match entropy with
  | None => Fail "rand"
  | Some entropy =>
      let xprv := hmac512 (bytes_of_string "Root") entropy in
      xpub ← XPub xprv;
      Ret (xprv, xpub)
  end.

Definition DeriveXPubs (path : list bytes) (xpubs : list bytes) : gores (list bytes) := mapM (XPubDerive path) xpubs.

(** [PublicKey], [XPubKeys]. *)
Definition XPubKey (xpub : bytes) : bytes := take 33 xpub.
Definition XPubKeys (xpubs : list bytes) : list bytes := XPubKey <$> xpubs.

(** [Sign]: an error of [sm2.Sign] panics. *)
Definition XPrvSign (csprng : Z → bytes → bytes → nat → option bytes) (entropy : option bytes) (fuel : nat) (xprv msg : bytes) : option (gores bytes) :=
  let k := beVal (take 32 xprv) in
  match scalarPub k with
  | Ret pub =>
      match Sm2.Sign csprng entropy {| privPub := pub; privD := k |} msg fuel with
      | None => None
      | Some (Ret (r, s)) => Some (Ret (copyOver (replicate 32 0) (bigBytes r) ++ copyOver (replicate 32 0) (bigBytes s)))
      | Some _ => Some Crash
      end
  | Fail _ | Crash => Some Crash
  end.

Definition VerifyCompressedPubkey (key hash sig : bytes) : gores bool :=
  pub ← decompress key;
  if Nat.ltb (length sig) 32 then Crash
  else Sm2.Verify pub hash (beVal (take 32 sig)) (beVal (drop 32 sig)).

Definition XPubVerify (xpub msg sig : bytes) : gores bool := VerifyCompressedPubkey (XPubKey xpub) msg sig.

End Derivation.

(** *** Text *)

Definition MarshalText (key : bytes) : string := Bytes2Hex key.

(** [UnmarshalText] into a key of [size] bytes. *)
Definition UnmarshalText (size : nat) (inp : string) : result bytes :=
  if negb (Nat.eqb (String.length inp) (2 * size)) then Err "bad key string"
  else match hexDecode inp with Some b => Ok b | None => Err "hex" end.

(** ** Text read back *)

Lemma MarshalText_length key : String.length (MarshalText key) = (2 * length key)%nat.
Proof. induction key as [|x key IH]; [done|]. unfold MarshalText in *. cbn [Bytes2Hex]. cbn [String.length length]. lia. Qed.

Lemma UnmarshalText_MarshalText key : Forall is_byte key → UnmarshalText (length key) (MarshalText key) = Ok key.
Proof. intros Hb. unfold UnmarshalText. rewrite MarshalText_length, Nat.eqb_refl. cbn [negb]. unfold MarshalText. by rewrite hexDecode_Bytes2Hex. Qed.

(** ** Sizes *)

Lemma bigBytes_32 r : 2 ^ 248 ≤ r < 2 ^ 256 → length (bigBytes r) = 32%nat.
Proof.
  intros Hr. pose proof (bigBytes_length r 32 ltac:(change (256 ^ Z.of_nat 32) with (2 ^ 256); lia)) as Hu.
  pose proof (beVal_range (bigBytes r) (bigBytes_bytes r ltac:(lia))) as [_ Hl]. rewrite beVal_bigBytes in Hl by lia.
  destruct (decide (length (bigBytes r) ≤ 31)%nat) as [Hs|]; [|lia]. exfalso.
  assert (256 ^ Z.of_nat (length (bigBytes r)) ≤ 256 ^ Z.of_nat 31) by (apply Z.pow_le_mono_r; lia).
  change (256 ^ Z.of_nat 31) with (2 ^ 248) in *. lia.
Qed.

Lemma bigBytes_short r : 0 ≤ r < 2 ^ 248 → (length (bigBytes r) < 32)%nat.
Proof. intros Hr. pose proof (bigBytes_length r 31 ltac:(change (256 ^ Z.of_nat 31) with (2 ^ 248); lia)). lia. Qed.

Lemma Compress_length pub : 0 ≤ pubX pub < 2 ^ 256 → length (Compress pub) = 33%nat.
Proof. intros H. unfold Compress. cbn [length]. by rewrite pad32_length. Qed.

Lemma copyOver_exact old src : length src = length old → copyOver old src = src.
Proof. intros H. unfold copyOver. by rewrite firstn_all2, drop_ge, app_nil_r by lia. Qed.

(** ** Derivation commutes *)

(** What the derivation relies on of the curve: the multiples of the base point, and that
    compressed points are read back. *)
Class KDLaws (C : Curve) (PC : PointCurve C) (smul : Z → Z * Z) := {
  kd_N : 2 < curveN ≤ 2 ^ 256;
  kd_mod : ∀ k, smul (k mod curveN) = smul k;
  kd_coords : ∀ k, 0 ≤ (smul k).1 < 2 ^ 256;
  kd_base : ∀ b, Forall is_byte b → 0 ≤ beVal b < curveN → curveScalarBaseMult b = Ret (smul (beVal b));
  kd_add : ∀ a b, a mod curveN ≠ b mod curveN → curveAdd (smul a).1 (smul a).2 (smul b).1 (smul b).2 = smul (a + b);
  kd_point : ∀ k, k mod curveN ≠ 0 → decompress (Compress (pubOf (smul k))) = Ret (pubOf (smul k))
}.

Section Commutes.
  Context {C : Curve} {PC : PointCurve C} (smul : Z → Z * Z) {L : KDLaws C PC smul} (hmac512 : bytes → bytes → bytes).
  Hypothesis hmac_64 : ∀ key msg, length (hmac512 key msg) = 64%nat ∧ Forall is_byte (hmac512 key msg).

Definition keyOfXPrv (xprv : bytes) : Z := beVal (take 32 xprv).

(** The hash of a child that both keys compute. *)
Definition leftOf (xprv sel : bytes) : bytes :=
  childHash hmac512 78 (drop 32 xprv) (Compress (pubOf (smul (keyOfXPrv xprv)))) sel.

(** A derivation in which no sum degenerates: the key and the hash are below the order
    and different, and their sum has 32 bytes. *)
Definition goodStep (xprv sel : bytes) : Prop :=
  let k := keyOfXPrv xprv in
  let left := beVal (take 32 (leftOf xprv sel)) in
  0 < k < curveN ∧ left < curveN ∧ left ≠ k ∧ 2 ^ 248 ≤ (left + k) mod curveN.

Fixpoint goodPath (path : list bytes) (xprv : bytes) : Prop :=
  match path with
  | [] => 0 ≤ keyOfXPrv xprv < curveN
  | sel :: path => goodStep xprv sel ∧ match nonhardenedChild hmac512 xprv sel with Ret c => goodPath path c | _ => False end
  end.

Lemma scalarPub_smul k : 0 ≤ k < curveN → scalarPub k = Ret (pubOf (smul k)).
Proof.
  intros Hk. unfold scalarPub. rewrite (@kd_base C PC smul L) by (rewrite ?beVal_bigBytes by lia; (by apply bigBytes_bytes; lia) || lia).
  by rewrite beVal_bigBytes by lia.
Qed.

Lemma XPub_smul xprv : 0 ≤ keyOfXPrv xprv < curveN → XPub xprv = Ret (Compress (pubOf (smul (keyOfXPrv xprv))) ++ drop 32 xprv).
Proof.
  intros Hk. unfold XPub. fold (keyOfXPrv xprv). rewrite scalarPub_smul by done. cbn [mbind gores_bind].
  rewrite copyOver_exact; [done|]. rewrite length_replicate. apply Compress_length, (@kd_coords C PC smul L).
Qed.

Lemma leftOf_range xprv sel : 0 ≤ beVal (take 32 (leftOf xprv sel)).
Proof. destruct (hmac_64 (drop 32 xprv) (78 :: Compress (pubOf (smul (keyOfXPrv xprv))) ++ sel)) as [_ Hb]. apply (beVal_range (take 32 (leftOf xprv sel))), Forall_take, Hb. Qed.

Lemma child_form xprv sel : 0 ≤ keyOfXPrv xprv < curveN →
  nonhardenedChild hmac512 xprv sel =
    Ret (copyOver (take 32 (leftOf xprv sel)) (bigBytes ((beVal (take 32 (leftOf xprv sel)) + keyOfXPrv xprv) mod curveN)) ++ drop 32 (leftOf xprv sel)).
Proof.
  intros Hk. unfold nonhardenedChild. rewrite XPub_smul by done. cbn [mbind gores_bind].
  pose proof (Compress_length (pubOf (smul (keyOfXPrv xprv))) (@kd_coords C PC smul L _)) as Hc.
  by rewrite take_app_length', drop_app_length' by done.
Qed.

(** One step: the child has the sum as its key, and its public key is the child of the public
    key. *)
Lemma Child_commutes xprv sel : goodStep xprv sel → ∃ child xpub,
  nonhardenedChild hmac512 xprv sel = Ret child ∧ keyOfXPrv child = (beVal (take 32 (leftOf xprv sel)) + keyOfXPrv xprv) mod curveN ∧
  XPub xprv = Ret xpub ∧ XPub child = XPubChild hmac512 sel xpub ∧ ∃ p, XPub child = Ret p.
Proof.
  unfold goodStep. set (k := keyOfXPrv xprv). set (left := beVal _). intros (Hk & Hl & Hne & Hr). pose proof (leftOf_range xprv sel) as Hl0. fold left in Hl0.
  pose proof (@kd_N C PC smul L) as HN. set (r := (left + k) mod curveN) in *. assert (Hrn : 0 ≤ r < curveN) by (apply Z.mod_pos_bound; lia).
  destruct (hmac_64 (drop 32 xprv) (78 :: Compress (pubOf (smul k)) ++ sel)) as [H64 _].
  assert (Hlen : length (bigBytes r) = 32%nat) by (apply bigBytes_32; lia).
  assert (Hcopy : copyOver (take 32 (leftOf xprv sel)) (bigBytes r) = bigBytes r).
  { apply copyOver_exact. rewrite Hlen, length_take. unfold leftOf, childHash. fold k. by rewrite H64. }
  pose proof (child_form xprv sel ltac:(fold k; lia)) as Hc. fold k left r in Hc. rewrite Hcopy in Hc.
  assert (Hkey : keyOfXPrv (bigBytes r ++ drop 32 (leftOf xprv sel)) = r).
  { unfold keyOfXPrv. rewrite take_app_length' by done. by rewrite beVal_bigBytes by lia. }
  assert (Hx : XPub (bigBytes r ++ drop 32 (leftOf xprv sel)) = Ret (Compress (pubOf (smul r)) ++ drop 32 (leftOf xprv sel))).
  { rewrite XPub_smul by (rewrite Hkey; lia). by rewrite Hkey, drop_app_length' by done. }
  eexists _, _. split; [exact Hc|]. split; [exact Hkey|]. split; [apply XPub_smul; fold k; lia|]. split; [|by eexists]. rewrite Hx.
  pose proof (Compress_length (pubOf (smul k)) (@kd_coords C PC smul L _)) as Hcl.
  unfold XPubChild. fold k. rewrite take_app_length', drop_app_length' by done. 
  change (childHash hmac512 78 (drop 32 xprv) (Compress (pubOf (smul k))) sel) with (leftOf xprv sel). fold left.
  rewrite (scalarPub_smul left) by lia. cbn [mbind gores_bind].
  rewrite (@kd_point C PC smul L k) by (rewrite (Z.mod_small k) by lia; lia). cbn [mbind gores_bind pubOf pubX pubY].
  rewrite (@kd_add C PC smul L) by (rewrite (Z.mod_small left), (Z.mod_small k) by lia; exact Hne). rewrite <- (@kd_mod C PC smul L (left + k)). fold r.
  rewrite copyOver_exact; [done|]. rewrite length_replicate. apply Compress_length, (@kd_coords C PC smul L).
Qed.

(** Along a path on which no sum degenerates, deriving the private key and taking its public key is
    the same as taking the public key and deriving it without the private key. *)
Theorem Derive_commutes path xprv : goodPath path xprv →
  ∃ child xpub p, XPrvDerive hmac512 path xprv = Ret child ∧ XPub xprv = Ret xpub ∧ XPubDerive hmac512 path xpub = Ret p ∧ XPub child = Ret p.
Proof.
  revert xprv. induction path as [|sel path IH]; intros xprv; cbn [goodPath XPrvDerive XPubDerive].
  - intros Hk. pose proof (XPub_smul xprv Hk). eauto 10.
  - intros [Hg Hp]. destruct (Child_commutes xprv sel Hg) as (child & xpub & Hc & _ & Hx & Heq & (p & Hpp)). rewrite Hc in Hp.
    destruct (IH child Hp) as (c & xp & q & H1 & H2 & H3 & H4). unfold XPrvChild. rewrite Hc. cbn [mbind gores_bind].
    exists c, xpub, q. split; [done|]. split; [done|]. rewrite <- Heq, H2. by cbn [mbind gores_bind].
Qed.

End Commutes.

(** ** Short numbers *)

Lemma beVal_join a b : beVal (a ++ b) = beVal a * 256 ^ Z.of_nat (length b) + beVal b.
Proof. unfold beVal at 1. rewrite foldl_app. apply beVal_foldl. Qed.

(** A number with fewer than 32 bytes that is copied to the front is read as a larger one. *)
Lemma copyOver_shifted old r : length old = 32%nat → Forall is_byte old → 0 < r < 2 ^ 256 → beVal (copyOver old (bigBytes r)) = r ↔ 2 ^ 248 ≤ r.
Proof.
  intros Hl Hb Hr. destruct (decide (2 ^ 248 ≤ r)) as [Hbig|Hs].
  - rewrite copyOver_exact by (rewrite bigBytes_32; [done|lia]). rewrite beVal_bigBytes by lia. done.
  - split; [|done]. intros E. exfalso. pose proof (bigBytes_short r ltac:(lia)) as Hlen. unfold copyOver in E.
    rewrite Hl, firstn_all2, beVal_join, beVal_bigBytes, length_drop, Hl in E by lia.
    pose proof (beVal_range (drop (length (bigBytes r)) old) (Forall_drop _ _ _ Hb)) as [H0 _].
    assert (256 ^ 1 ≤ 256 ^ Z.of_nat (32 - length (bigBytes r))) by (apply Z.pow_le_mono_r; lia). change (256 ^ 1) with 256 in *. nia.
Qed.

Section Short.
  Context {C : Curve} {PC : PointCurve C} (smul : Z → Z * Z) {L : KDLaws C PC smul} (hmac512 : bytes → bytes → bytes).
  Hypothesis hmac_64 : ∀ key msg, length (hmac512 key msg) = 64%nat ∧ Forall is_byte (hmac512 key msg).

(** A hardened child panics exactly when the sum has fewer than 32 bytes. *)
Lemma hardenedChild_crash xprv sel :
  hardenedChild hmac512 xprv sel = Crash ↔
  (beVal (take 32 (childHash hmac512 72 (drop 32 xprv) (take 32 xprv) sel)) + keyOfXPrv xprv) mod curveN < 2 ^ 248.
Proof.
  unfold hardenedChild. fold (keyOfXPrv xprv). pose proof (@kd_N C PC smul L) as HN.
  match goal with |- context [bigBytes ?x] => set (r := x) end. assert (Hr : 0 ≤ r < curveN) by (apply Z.mod_pos_bound; lia).
  destruct (decide (r < 2 ^ 248)) as [Hs|Hs].
  - rewrite (proj2 (Nat.ltb_lt _ _)); [done|]. apply bigBytes_short. lia.
  - rewrite bigBytes_32 by lia. cbn [Nat.ltb Nat.leb]. split; [done|lia].
Qed.

(** Another child whose sum has fewer than 32 bytes gets another key than the sum, to which
    the child of the public key belongs. *)
Lemma nonhardenedChild_short xprv sel : 0 ≤ keyOfXPrv xprv < curveN →
  let r := (beVal (take 32 (leftOf smul hmac512 xprv sel)) + keyOfXPrv xprv) mod curveN in
  0 < r → ∃ child, nonhardenedChild hmac512 xprv sel = Ret child ∧ (keyOfXPrv child = r ↔ 2 ^ 248 ≤ r).
Proof.
  intros Hk r Hr. pose proof (@kd_N C PC smul L) as HN. assert (Hrn : 0 ≤ r < curveN) by (apply Z.mod_pos_bound; lia).
  rewrite (child_form smul) by done. fold r. eexists. split; [done|].
  destruct (hmac_64 (drop 32 xprv) (78 :: Compress (pubOf (smul (keyOfXPrv xprv))) ++ sel)) as [H64 Hby].
  assert (Hl : length (take 32 (leftOf smul hmac512 xprv sel)) = 32%nat) by (rewrite length_take; unfold leftOf, childHash; by rewrite H64).
  unfold keyOfXPrv at 1. rewrite take_app_length'.
  - apply copyOver_shifted; [done|by apply Forall_take|lia].
  - unfold copyOver. rewrite Hl, length_app, length_take, length_drop, Hl. pose proof (bigBytes_length r 32 ltac:(change (256 ^ Z.of_nat 32) with (2 ^ 256); lia)). lia.
Qed.

(** The components of a signature are read as they were written exactly when they have 32
    bytes. *)
Lemma Sign_short csprng entropy fuel xprv msg sig r s : 0 ≤ keyOfXPrv xprv < curveN →
  Sm2.Sign csprng entropy {| privPub := pubOf (smul (keyOfXPrv xprv)); privD := keyOfXPrv xprv |} msg fuel = Some (Ret (r, s)) →
  0 < r < curveN → 0 < s < curveN → XPrvSign csprng entropy fuel xprv msg = Some (Ret sig) →
  (beVal (take 32 sig) = r ↔ 2 ^ 248 ≤ r) ∧ (beVal (drop 32 sig) = s ↔ 2 ^ 248 ≤ s).
Proof.
  intros Hk HS Hr Hs. pose proof (@kd_N C PC smul L) as HN. unfold XPrvSign. fold (keyOfXPrv xprv). rewrite (scalarPub_smul smul) by done. rewrite HS. intros [= <-].
  assert (Hl : ∀ x, 0 < x < curveN → length (copyOver (replicate 32 0) (bigBytes x)) = 32%nat).
  { intros x Hx. unfold copyOver. rewrite length_replicate, length_app, length_take, length_drop, length_replicate.
    pose proof (bigBytes_length x 32 ltac:(change (256 ^ Z.of_nat 32) with (2 ^ 256); lia)). lia. }
  rewrite take_app_length', drop_app_length' by (by rewrite Hl). 
  assert (Hz : Forall is_byte (replicate 32 0)) by (apply (Forall_replicate is_byte 32 0); unfold is_byte; lia). split; (apply copyOver_shifted; [reflexivity|exact Hz|lia]).
Qed.
End Short.

(** ** Instances *)

(** Points are numbers modulo a large number. *)
Module LineCurve.
Definition order : Z := 2 ^ 256 - 189.
Definition mul (k : Z) : Z * Z := (k mod order, 0).

#[export] Instance curve : Curve := {
  curveN := order; curveP := order; curveBitSize := 256;
  curveIsOnCurve x y := true;
  curveAdd x1 y1 x2 y2 := ((x1 + x2) mod order, 0);
  curveScalarMult x y b := Ret ((x * beVal b) mod order, 0);
  curveScalarBaseMult b := Ret (mul (beVal b))
}.

#[export] Instance points : PointCurve curve := fun b => Ret {| pubX := beVal (drop 1 b); pubY := 0 |}.

#[export] Instance laws : KDLaws curve points mul.
Proof.
  assert (HN : 2 < order ≤ 2 ^ 256) by (vm_compute; split; [reflexivity|discriminate]). split.
  - exact HN.
  - intros k. unfold mul. cbn [curveN curve]. rewrite Z.mod_mod; [done|lia].
  - intros k. unfold mul. cbn [fst]. pose proof (Z.mod_pos_bound k order). lia.
  - done.
  - intros a b _. unfold mul. cbn [fst snd curveAdd curve]. by rewrite <- Zplus_mod.
  - intros k _. unfold mul, decompress, points, Compress, pubOf. cbn [skipn pubX pubY fst snd]. rewrite skipn_O, beVal_pad32; [done|]. apply Z.mod_pos_bound. lia.
Qed.
End LineCurve.

Import LineCurve.

(** A keyed hash that puts the bytes of the chain code and of the message together. *)
Definition exHmac (key msg : bytes) : bytes := (fun i => (7 * Z.of_nat i + foldl Z.add 3 key + foldl Z.add 5 msg + 200) mod 256) <$> seq 0 64.

Lemma exHmac_64 key msg : length (exHmac key msg) = 64%nat ∧ Forall is_byte (exHmac key msg).
Proof.
  unfold exHmac. rewrite length_fmap, length_seq. split; [done|]. apply Forall_fmap, Forall_true. intros i. unfold is_byte. cbn. pose proof (Z.mod_pos_bound (7 * Z.of_nat i + foldl Z.add 3 key + foldl Z.add 5 msg + 200) 256). lia.
Qed.

Definition exXPrv : bytes := (Z.of_nat <$> seq 1 32) ++ replicate 32 9.
Definition exPath : list bytes := [[1]; [2; 3]].

Lemma Derive_commutes_witness : ∃ child xpub p, XPrvDerive exHmac exPath exXPrv = Ret child ∧ XPub exXPrv = Ret xpub ∧
  XPubDerive exHmac exPath xpub = Ret p ∧ XPub child = Ret p.
Proof.
  apply (Derive_commutes LineCurve.mul exHmac exHmac_64 exPath exXPrv). unfold exPath. cbn [goodPath]. unfold goodStep.
  vm_compute. repeat (split || discriminate).
Defined.

(** The base point of the curve is read back from its compressed form. *)
Example Decompress_Compress_G : Decompress (Compress {| pubX := Gx; pubY := Gy |}) = Ret {| pubX := Gx; pubY := Gy |}.
Proof. vm_compute. reflexivity. Qed.
